(* ===== verification/_CoqProject ===== *)
-Q . S2P
Prelude.v
DomainTypes.v
Metrics.v
Store.v
Json.v
InMemoryStore.v
World.v
Coordinator.v
Messaging.v
ViewInv.v
ClaimFacts.v
CoordinatorInv.v
MessagingInv.v
Guarantees.v
Fencing.v
AckRetry.v
SessionRegistry.v
Application.v
Bytes.v
Buffer.v
Codec.v
OutboxLease.v
Relay.v
RelayInv.v
Config.v
ConfigInv.v
Presence.v
Gateway.v
GatewayInv.v
GatewayThreads.v
KafkaWire.v
KafkaWireInv.v
Executor.v
ExecutorInv.v
Timing.v
EventLoop.v
Poller.v
TimerQueue.v
TimerQueueInv.v
TcpServer.v
KafkaClient.v
KafkaReplies.v
KafkaBroker.v
KafkaConsumer.v
KafkaConsumerInv.v
KafkaFrame.v
KafkaMemory.v
JsonText.v
MySqlTables.v
MySqlStore.v
MySqlStoreInv.v
MySqlAccept.v
MySqlDelivery.v
MySqlOutbox.v
KafkaPublisher.v
KafkaPublisherInv.v
KafkaPipeline.v
KafkaLive.v
KafkaConsumerLive.v
Protocol.v
ProtocolInv.v
SessionDelivery.v
TcpConnection.v
TcpConnectionInv.v
TcpFixtures.v
ChatService.v
EnvFrame.v
ChatServiceInv.v
Fixtures.v
KafkaFixtures.v
ServiceFixtures.v
KafkaPublisherFixtures.v
MySqlFixtures.v
