(* ===== verification/Prelude.v ===== *)
(** * Verification of the muduo-chat server

    A chat server in C++: clients connect over TCP (mymuduo, an event-loop
    library), frames are decoded into commands, commands run on worker
    executors, and messages are accepted durably, delivered at least once to
    each recipient's current session and acknowledged.  Deliveries are retried,
    expire, and are announced to other processes through an outbox; several
    gateways share a presence directory.

    The development is a shallow embedding.  Integers are [Z] with the wrap of
    their width written out ([u64], [i64], ...); std::map and std::set are
    [gmap] and [gset]; stateful code is an effect [eff X W A], a function from a
    world to a world and a value or an exception; code under a mutex is one
    atomic step, and executions are lists of such steps.  Clock, sink, JSON
    text, broker and database are parameters with named laws.

    ** Files

    Paths are under src/chatserver/ unless they start with mymuduo/, which is
    src/mymuduo/.

    - [Prelude]: machine integers, the effect monad with its weakest
      preconditions [wp] and the invariant rules [keeps]/[safe], ordered map
      iteration, shared list lemmas and tactics.
    - [DomainTypes]: include/app/DomainTypes.hpp, DeliverySink.hpp.
    - [Metrics]: include/app/ReliableMessageMetrics.hpp, the recorder and its
      conservation law.
    - [Store], [Json], [InMemoryStore]: the port include/app/MessageStore.hpp
      as a class with laws, and src/app/InMemoryMessageStore.cpp as its
      instance.
    - [World], [Coordinator], [Messaging]: the environment;
      include/app/DeliveryCoordinator.hpp; src/app/ReliableMessaging.cpp.
    - [ViewInv], [ClaimFacts], [CoordinatorInv], [MessagingInv]: the invariant
      of the stored rows and its preservation by every operation, for every
      lawful store, sink and clock.
    - [Guarantees], [Fencing], [AckRetry], [Timing]: what executions guarantee:
      order and at most one delivery in flight per conversation, durable and
      idempotent accept, settled deliveries stay settled, termination, fencing
      of stale sessions, acknowledgement results, the retry scan, backoff and
      scheduler wake-ups.
    - [SessionRegistry], [Application]: src/app/SessionRegistry.cpp,
      ChatApplication.cpp and the in-memory repositories.
    - [Bytes], [Buffer], [Codec]: mymuduo/Buffer.h, mymuduo/StreamCodec.cc,
      mymuduo/BinaryFrameCodec.cc, mymuduo/LegacyJsonLineCodec.cc and the receive loop of
      src/ChatServer.cpp: the buffer refines a byte queue and makes no access that
      the language leaves undefined (a flag of the model records one); frames and
      lines survive any fragmentation.
    - [OutboxLease], [Relay], [RelayInv]: src/app/LocalOutboxRelay.cpp,
      LocalWakeupPublisher.hpp, WakeupProgressHandler.hpp,
      RecordingPublisher.cpp: exclusive leases, marking only what was
      published, consumers only advance deliveries.
    - [Config], [ConfigInv]: src/app/Config.cpp: what loads is in range, but
      for a seed of 0 that a file leaves out, and a file that spells out a configuration loads to it.
    - [Presence], [Gateway], [GatewayInv], [GatewayThreads]: the presence port, its
      in-memory adapter, src/app/GatewayAwareDeliverySink.cpp and
      InProcessGatewayTransport.cpp: epochs fence.  [Gateway] has the critical
      sections and their uninterrupted composition, which [ChatService] uses;
      [GatewayThreads] interleaves the sections: a message that crosses gateways
      reaches the session that the directory named during the call, or none.
    - [KafkaWire], [KafkaWireInv]: src/app/KafkaWire.cpp and parseRecordSet of
      KafkaEventConsumer.cpp: round trips of fields, varints and record
      batches; the CRC.
    - [KafkaClient], [KafkaReplies], [KafkaBroker]: the client of
      src/app/KafkaWire.cpp over the socket calls, the readers of the replies, and
      what a broker promises: its log only grows, a fetch answers with the bytes of
      the log, cut anywhere, and the earliest offset it lists is where the log
      begins.
    - [KafkaConsumer], [KafkaConsumerInv], [KafkaFrame], [KafkaMemory],
      [KafkaConsumerLive]: src/app/KafkaEventConsumer.cpp: no record is skipped,
      through lost replies, crashes and restarts; a failed poll has no effect; the
      memory is bounded, and within it messages are handled in order and once; a
      poll returns.
    - [KafkaPublisher], [KafkaPublisherInv], [KafkaLive]:
      src/app/KafkaPublisher.cpp: what is reported as published is in the log, the
      messages of a conversation in their order; a publish answers for every
      request.
    - [KafkaPipeline]: publisher, broker and consumer together: a published
      message is settled once the consumer has passed its record.
    - [KafkaFixtures], [KafkaPublisherFixtures]: small brokers on which both run.
    - [MySqlTables], [MySqlStore]: src/app/MySQLMessageStore.cpp, the adapter of the
      port over the tables of sql/migrations.  Statements are functions on the
      tables; the changes of the open transaction are a list that COMMIT applies.
      Before every statement other connections may commit, and any call may fail; a
      COMMIT that fails may have taken effect, another statement has not.
    - [MySqlStoreInv], [MySqlAccept]: an accept on MySQL is stored as a whole or not
      at all, through failed calls, races on unique keys and lost replies.  Other
      connections are assumed not to change or delete stored messages, as no
      statement of the sources does.
    - [MySqlDelivery], [MySqlOutbox]: what the seconds of the columns make of the
      times of deliveries, retries and retentions; claims are exclusive.  These
      assume that no other connection changes the tables in between.
    - [MySqlFixtures]: a small server for the witnesses, and the findings on it.
    - [Executor], [ExecutorInv]: src/app/SessionSerialExecutor.cpp and
      BlockingExecutor.cpp as interleaved steps: serial and in order per key,
      nothing lost at shutdown.
    - [EventLoop], [Poller], [TcpServer]: mymuduo/EventLoop.cc (the functor
      queue and its wakeups, split where a thread can be preempted),
      mymuduo/Channel.cc with EPollPoller.cc over a model of epoll_ctl, and
      mymuduo/TcpServer.cc, Acceptor.cc, EventLoopThreadPool.cc: functors run in
      order and are not stranded, the kernel watches what the channels ask for,
      connections stay within the limit and accepting resumes.
    - [TimerQueue], [TimerQueueInv]: mymuduo/TimerQueue.cc, split at its
      critical sections: timers fire when due, none is lost, a cancelled one is
      silent.
    - [TcpConnection], [TcpConnectionInv], [TcpFixtures]:
      mymuduo/TcpConnection.cc.  Senders on any number of threads are split at
      their atomic operations; the loop runs functors, socket events and timers,
      with the results of system calls as arguments; callbacks of the user are
      events.  The budget covers what is under way, and is exact but for broken
      writes and empty messages without a codec; reading is paused and resumed, the
      low-water callback comes, and framed messages arrive in order.
    - [JsonText], [Protocol], [ProtocolInv]: the serializer and getters of
      thirdparty/json.hpp (beside chatserver/) and src/app/ProtocolCodec.cpp:
      parsing and accepting chat commands, and the reply encoders, which agree
      with the serializer; an answer tells what is stored.
    - [SessionDelivery], [ChatService]: src/SessionDeliverySink.cpp and
      src/ChatService.cpp, the composition of registry, application, executor,
      presence and messaging as one state machine.  Its steps are messages,
      connections opened and closed, worker steps, functors of event loops,
      pressure callbacks, background calls and any change of the network; a
      handler, a task and a functor each run as one step, functors of one loop
      run in order, everything else interleaves freely.
    - [EnvFrame], [ChatServiceInv]: messages reach only connections on which
      their recipient was authenticated, and commands are accepted only in the
      name of a session authenticated on their connection.
    - [Fixtures], [ServiceFixtures]: concrete worlds for the witnesses, and
      executions that show the findings on the service.

    ** Bounds and fuel

    The claim loop of a conversation has one more round than rows.
    [calls_terminate] shows that this suffices for a lease between 1 and 2^62
    milliseconds, a clock within 2^62 of zero, a sink that returns or throws,
    and identifier counters with room for the calls; a lease of zero is
    outside the theorem.  The receive loops have one more round than buffered
    bytes; [receive_loop_total] shows it enough for binary frames on any input,
    [lines_roundtrip] for lines that were encoded.  The varint writer
    has ten rounds, enough for 64 bits (the round trip shows it), and so has
    the decimal writer of the JSON serializer, two digits a round.  The record
    set parser takes its number of rounds as an argument: one per batch
    suffices for encoded batches, and none suffices for a negative batch
    length.  The metadata loops of the Kafka consumer and publisher and the produce
    loop have a round per 50 ms of the budget of the call, the pause between two
    rounds, and two more; [poll_returns] and [publish_answers] show that they
    suffice while the clock stays below 2^62.  Theorems that count calls, generations or epochs assume
    that the 64-bit counters do not wrap (their bounds are in the statements).

    ** Not modelled

    The MySQL repositories and the connection pool (src/app/MySQL*Repository.cpp,
    src/db) and the Redis adapter are SQL and Lua texts run by servers that are not
    part of the sources; the ports they implement are modelled.  Of the MySQL
    message store the binding and fetching of columns is left out, and each
    statement is taken to be carried out alone.  Sockets, epoll_wait, threads and the logger are
    system calls; the token bucket of the acceptor is floating point and enters
    as its answer.  main.cpp starts and stops the components.  JSON parsing and
    the text of floating point numbers are parameters.  Condition
    variables are modelled only by which steps are enabled, and real time only
    by clock readings. *)

From Stdlib Require Import ZArith Lia.
From stdpp Require Export base tactics numbers list sorting gmap strings.

#[global] Set Default Goal Selector "!".
Open Scope Z_scope.

(** ** Machine integers

    The sources use fixed-width C++ integers.  A value is a [Z] in range; the
    wrap-around of unsigned arithmetic is [u64], [u32], ...; a conversion to a
    signed type reinterprets the residue. *)

Definition wrapU (w x : Z) : Z := x mod 2 ^ w.

Definition wrapS (w x : Z) : Z := (x + 2 ^ (w - 1)) mod 2 ^ w - 2 ^ (w - 1).

Definition u8 (x : Z) : Z := wrapU 8 x.

Definition u16 (x : Z) : Z := wrapU 16 x.

Definition u32 (x : Z) : Z := wrapU 32 x.

Definition u64 (x : Z) : Z := wrapU 64 x.

Definition i32 (x : Z) : Z := wrapS 32 x.

Definition i64 (x : Z) : Z := wrapS 64 x.

Definition isU64 (x : Z) : Prop := 0 <= x < 2 ^ 64.

Definition isI64 (x : Z) : Prop := - 2 ^ 63 <= x < 2 ^ 63.

(** C++ integer division truncates towards zero. *)
Definition cdiv (x y : Z) : Z := Z.quot x y.

Lemma wrapU_range w x : 0 <= w -> 0 <= wrapU w x < 2 ^ w.
Proof. intros Hw. apply Z.mod_pos_bound. apply Z.pow_pos_nonneg; lia. Qed.

Lemma wrapU_small w x : 0 <= x < 2 ^ w -> wrapU w x = x.
Proof. apply Z.mod_small. Qed.

Lemma wrapU_add_l w x y : wrapU w (wrapU w x + y) = wrapU w (x + y).
Proof. apply Zplus_mod_idemp_l. Qed.

Lemma wrapU_add_r w x y : wrapU w (x + wrapU w y) = wrapU w (x + y).
Proof. apply Zplus_mod_idemp_r. Qed.

Lemma wrapU_sub_l w x y : wrapU w (wrapU w x - y) = wrapU w (x - y).
Proof. apply Zminus_mod_idemp_l. Qed.

Lemma wrapU_sub_r w x y : wrapU w (x - wrapU w y) = wrapU w (x - y).
Proof. apply Zminus_mod_idemp_r. Qed.

Lemma wrapS_range w x : 0 < w -> - 2 ^ (w - 1) <= wrapS w x < 2 ^ (w - 1).
Proof.
  intros Hw. unfold wrapS.
  assert (2 ^ w = 2 * 2 ^ (w - 1)) as E.
  { rewrite <- Z.pow_succ_r by lia. f_equal. lia. }
  pose proof (Z.mod_pos_bound (x + 2 ^ (w - 1)) (2 ^ w)
                (Z.pow_pos_nonneg 2 w ltac:(lia) ltac:(lia))).
  lia.
Qed.

Lemma wrapS_small w x :
  0 < w -> - 2 ^ (w - 1) <= x < 2 ^ (w - 1) -> wrapS w x = x.
Proof.
  intros Hw Hx. unfold wrapS.
  assert (2 ^ w = 2 * 2 ^ (w - 1)) as E.
  { rewrite <- Z.pow_succ_r by lia. f_equal. lia. }
  rewrite Z.mod_small by lia. lia.
Qed.

Lemma u64_range x : isU64 (u64 x).
Proof. apply wrapU_range. lia. Qed.

Lemma u64_small x : isU64 x -> u64 x = x.
Proof. apply wrapU_small. Qed.

Lemma i64_range x : isI64 (i64 x).
Proof. apply (wrapS_range 64). lia. Qed.

Lemma i64_small x : isI64 x -> i64 x = x.
Proof. intros. apply wrapS_small; [lia | exact H]. Qed.

(** ** Outcomes and effects

    A C++ call that may throw returns an [outcome]; the state reached before
    the exception is kept, as in the sources (no rollback). *)

Inductive outcome (X A : Type) : Type :=
| Ret (a : A)
| Throw (x : X).
Arguments Ret {X A} a.
Arguments Throw {X A} x.

Definition eff (X W A : Type) : Type := W -> W * outcome X A.

Definition ret {X W A} (a : A) : eff X W A := fun w => (w, Ret a).

Definition throw {X W A} (x : X) : eff X W A := fun w => (w, Throw x).

Definition bind {X W A B} (m : eff X W A) (f : A -> eff X W B) : eff X W B :=
  fun w => match m w with
           | (w', Ret a) => f a w'
           | (w', Throw x) => (w', Throw x)
           end.

Definition gets {X W A} (f : W -> A) : eff X W A := fun w => (w, Ret (f w)).

Definition modify {X W} (f : W -> W) : eff X W unit := fun w => (f w, Ret tt).

(** [try { m } catch (...) { h(x) }] *)
Definition catch {X W A} (m : eff X W A) (h : X -> eff X W A) : eff X W A :=
  fun w => match m w with
           | (w', Ret a) => (w', Ret a)
           | (w', Throw x) => h x w'
           end.

(** [for (x : xs) body(x)] *)
Fixpoint forM {X W A} (xs : list A) (body : A -> eff X W unit) : eff X W unit :=
  match xs with
  | [] => ret tt
  | x :: rest => bind (body x) (fun _ => forM rest body)
  end.

(** Run an effect on a part of the state. *)
Definition zoom {X W V A} (get : W -> V) (put : V -> W -> W) (m : eff X V A)
  : eff X W A :=
  fun w => match m (get w) with (v, o) => (put v w, o) end.

Declare Scope eff_scope.
Delimit Scope eff_scope with eff.

Notation "x <- m ;; k" := (bind m (fun x => k))
  (at level 100, m at next level, right associativity) : eff_scope.
Notation "m ;;; k" := (bind m (fun _ => k))
  (at level 100, right associativity) : eff_scope.

(** *** Weakest preconditions

    [wp m Q E w]: run from [w], a normal return satisfies [Q] and an exception
    [E].  It is total: an effect always returns one of the two. *)

Definition wp {X W A} (m : eff X W A) (Q : A -> W -> Prop) (E : X -> W -> Prop)
    (w : W) : Prop :=
  match m w with
  | (w', Ret a) => Q a w'
  | (w', Throw x) => E x w'
  end.

(** [keepsOr I J m]: from [I], [m] returns in [I] or throws in [J]. *)
Definition keepsOr {X W A} (I : W -> Prop) (J : X -> W -> Prop) (m : eff X W A) : Prop :=
  forall w, I w -> wp m (fun _ => I) J w.

(** [keeps I m]: [m] preserves [I] whether it returns or throws. *)
Definition keeps {X W A} (I : W -> Prop) (m : eff X W A) : Prop :=
  keepsOr I (fun _ => I) m.

(** [safe I m]: [m] preserves [I] and never throws. *)
Definition safe {X W A} (I : W -> Prop) (m : eff X W A) : Prop :=
  keepsOr I (fun _ _ => False) m.

Section wp_rules.
Context {X W : Type}.


Lemma wp_ret {A} (a : A) (Q : A -> W -> Prop) (E : X -> W -> Prop) w :
  Q a w -> wp (ret a) Q E w.
Proof. exact id. Qed.

Lemma wp_throw {A} (x : X) (Q : A -> W -> Prop) (E : X -> W -> Prop) w :
  E x w -> wp (throw x) Q E w.
Proof. exact id. Qed.

Lemma wp_bind {A B} (m : eff X W A) (f : A -> eff X W B) Q E w :
  wp m (fun a => wp (f a) Q E) E w -> wp (bind m f) Q E w.
Proof. unfold wp, bind. destruct (m w) as [w' [a|x]]; auto. Qed.

Lemma wp_gets {A} (f : W -> A) (Q : A -> W -> Prop) (E : X -> W -> Prop) w :
  Q (f w) w -> wp (gets f) Q E w.
Proof. exact id. Qed.

Lemma wp_modify (f : W -> W) (Q : unit -> W -> Prop) (E : X -> W -> Prop) w :
  Q tt (f w) -> wp (modify f) Q E w.
Proof. exact id. Qed.

Lemma wp_catch {A} (m : eff X W A) (h : X -> eff X W A) Q E w :
  wp m Q (fun x => wp (h x) Q E) w -> wp (catch m h) Q E w.
Proof. unfold wp, catch. destruct (m w) as [w' [a|x]]; auto. Qed.

Lemma wp_mono {A} (m : eff X W A) (Q Q' : A -> W -> Prop) (E E' : X -> W -> Prop) w :
  wp m Q E w ->
  (forall a w', Q a w' -> Q' a w') -> (forall x w', E x w' -> E' x w') ->
  wp m Q' E' w.
Proof. unfold wp. destruct (m w) as [w' [a|x]]; auto. Qed.

Lemma wp_and {A} (m : eff X W A) (Q Q' : A -> W -> Prop) (E E' : X -> W -> Prop) w :
  wp m Q E w -> wp m Q' E' w ->
  wp m (fun a w' => Q a w' /\ Q' a w') (fun x w' => E x w' /\ E' x w') w.
Proof. unfold wp. destruct (m w) as [w' [a|x]]; auto. Qed.

Lemma wp_zoom {V A} (get : W -> V) (put : V -> W -> W) (m : eff X V A) Q E w :
  wp m (fun a v => Q a (put v w)) (fun x v => E x (put v w)) (get w) ->
  wp (zoom get put m) Q E w.
Proof. unfold wp, zoom. destruct (m (get w)) as [v [a|x]]; auto. Qed.

(** Loop rule: an invariant indexed by the elements still to process. *)
Lemma wp_forM {A} (I : list A -> W -> Prop) (body : A -> eff X W unit) E xs w :
  I xs w ->
  (forall x rest w', I (x :: rest) w' ->
     wp (body x) (fun _ w'' => I rest w'') E w') ->
  wp (forM xs body) (fun _ w' => I [] w') E w.
Proof.
  intros HI Hstep. revert w HI.
  induction xs as [|x xs IH]; intros w' HI; [exact HI|].
  simpl. apply wp_bind. eapply wp_mono; [apply Hstep; exact HI| |auto].
  intros u w'' H. apply IH. exact H.
Qed.

Lemma keeps_intro {A} (I : W -> Prop) (m : eff X W A) w :
  keeps I m -> I w -> I (fst (m w)).
Proof.
  intros H HI. specialize (H w HI). unfold wp in H.
  destruct (m w) as [w' [a|x]]; exact H.
Qed.

Lemma keepsOr_ret {A} (I : W -> Prop) (J : X -> W -> Prop) (a : A) : keepsOr I J (@ret X W A a).
Proof. intros w HI. exact HI. Qed.

Lemma keepsOr_throw {A} (I : W -> Prop) (J : X -> W -> Prop) (x : X) :
  (forall w, I w -> J x w) -> keepsOr I J (@throw X W A x).
Proof. intros HJ w HI. apply HJ. exact HI. Qed.

Lemma keepsOr_gets {A} (I : W -> Prop) (J : X -> W -> Prop) (f : W -> A) : keepsOr I J (@gets X W A f).
Proof. intros w HI. exact HI. Qed.

Lemma keepsOr_modify (I : W -> Prop) (J : X -> W -> Prop) (f : W -> W) :
  (forall w, I w -> I (f w)) -> keepsOr I J (@modify X W f).
Proof. intros H w HI. apply H. exact HI. Qed.

Lemma keepsOr_bind {A B} (I : W -> Prop) (J : X -> W -> Prop) (m : eff X W A) (f : A -> eff X W B) :
  keepsOr I J m -> (forall a, keepsOr I J (f a)) -> keepsOr I J (bind m f).
Proof.
  intros Hm Hf w HI. apply wp_bind. eapply wp_mono; [apply Hm; exact HI| |auto].
  intros a w' HI'. apply Hf. exact HI'.
Qed.

Lemma wp_bind_keeps {A B} (I : W -> Prop) (J : X -> W -> Prop) (m : eff X W A)
    (f : A -> eff X W B) Q w :
  keepsOr I J m -> I w -> (forall a w', I w' -> wp (f a) Q J w') -> wp (bind m f) Q J w.
Proof. intros Hm HI Hf. apply wp_bind. eapply wp_mono; [apply Hm; exact HI|auto|auto]. Qed.

Lemma keepsOr_catch {A} (I : W -> Prop) (J K : X -> W -> Prop) (m : eff X W A)
    (h : X -> eff X W A) :
  keepsOr I J m -> (forall x w, J x w -> wp (h x) (fun _ => I) K w) ->
  keepsOr I K (catch m h).
Proof.
  intros Hm Hh w HI. apply wp_catch. eapply wp_mono; [apply Hm; exact HI|auto|].
  intros x w' HI'. apply Hh. exact HI'.
Qed.

(** [try { m } catch (...) {}] with a unit result never throws. *)
Lemma keepsOr_swallow (I : W -> Prop) (K : X -> W -> Prop) (m : eff X W unit) :
  keeps I m -> keepsOr I K (catch m (fun _ => ret tt)).
Proof. intros Hm. eapply keepsOr_catch; [exact Hm|]. intros x w HI. exact HI. Qed.

Lemma keepsOr_forM {A} (I : W -> Prop) (J : X -> W -> Prop) (body : A -> eff X W unit) xs :
  (forall x, In x xs -> keepsOr I J (body x)) -> keepsOr I J (forM xs body).
Proof.
  intros Hb. induction xs as [|x xs IH]; simpl; [apply keepsOr_ret|].
  apply keepsOr_bind; [apply Hb; left; reflexivity|].
  intros _. apply IH. intros y Hy. apply Hb. right. exact Hy.
Qed.

Lemma keepsOr_if {A} (I : W -> Prop) (J : X -> W -> Prop) (b : bool) (m n : eff X W A) :
  keepsOr I J m -> keepsOr I J n -> keepsOr I J (if b then m else n).
Proof. destruct b; auto. Qed.

Lemma keepsOr_weaken {A} (I : W -> Prop) (J K : X -> W -> Prop) (m : eff X W A) :
  keepsOr I J m -> (forall x w, J x w -> K x w) -> keepsOr I K m.
Proof. intros Hm HJK w HI. eapply wp_mono; [apply Hm; exact HI|auto|auto]. Qed.

Lemma safe_keepsOr {A} (I : W -> Prop) (J : X -> W -> Prop) (m : eff X W A) :
  safe I m -> keepsOr I J m.
Proof. intros Hm. eapply keepsOr_weaken; [exact Hm|]. intros x w []. Qed.

Lemma safe_keeps {A} (I : W -> Prop) (m : eff X W A) : safe I m -> keeps I m.
Proof. apply safe_keepsOr. Qed.

Lemma keeps_and {A} (I J : W -> Prop) (m : eff X W A) :
  keeps I m -> keeps J m -> keeps (fun w => I w /\ J w) m.
Proof.
  intros Hm Hn w [HI HJ]. specialize (Hm w HI). specialize (Hn w HJ).
  unfold wp in *. destruct (m w) as [w' [a|x]]; auto.
Qed.
End wp_rules.

Create HintDb effects.
#[export] Hint Resolve keepsOr_ret keepsOr_gets : effects.
#[export] Hint Extern 1 (keepsOr ?I (fun _ => ?I) ?m) => change (keeps I m) : effects.

(** Decompose a [keeps], [safe] or [keepsOr] goal along the effect. *)
Ltac keeps_step :=
  lazymatch goal with
  | |- keeps _ _ => unfold keeps
  | |- safe _ _ => unfold safe
  | |- keepsOr _ _ (ret _) => apply keepsOr_ret
  | |- keepsOr ?I (fun _ => ?I) (throw _) => apply keepsOr_throw; exact (fun _ H => H)
  | |- keepsOr _ _ (gets _) => apply keepsOr_gets
  | |- keepsOr _ _ (bind _ _) => apply keepsOr_bind; [|intros ?]
  | |- keepsOr _ _ (catch _ (fun _ => ret tt)) => apply keepsOr_swallow
  | |- keepsOr _ _ (match ?x with _ => _ end) => destruct x eqn:?
  | |- keepsOr _ _ (let '_ := ?x in _) => destruct x eqn:?
  end.

Ltac keeps_tac := repeat (first [solve [eauto 3 with effects] | keeps_step]).

(** [map::insert] keeps the binding that is there. *)
Definition insert_new `{Countable K} {A} (k : K) (a : A) (m : gmap K A) : gmap K A :=
  match m !! k with Some _ => m | None => <[k := a]> m end.

(** ** Ordered maps

    [std::map] iterates in key order.  A map is a [gmap]; an iteration is over
    [sorted_items le m], its bindings sorted by key. *)

Section sorted_items.
Context {K V : Type} `{Countable K} (le : relation K) `{!RelDecision le}.

Definition item_le (x y : K * V) : Prop := le x.1 y.1.

#[export] Instance item_le_dec : RelDecision item_le.
Proof. intros x y. unfold item_le. apply _. Defined.

Definition sorted_items (m : gmap K V) : list (K * V) :=
  merge_sort item_le (map_to_list m).

Lemma sorted_items_perm m : sorted_items m ≡ₚ map_to_list m.
Proof. apply merge_sort_Permutation. Qed.

Lemma elem_of_sorted_items m k v : (k, v) ∈ sorted_items m <-> m !! k = Some v.
Proof. rewrite sorted_items_perm. apply elem_of_map_to_list. Qed.

Lemma NoDup_sorted_items_keys m : NoDup (sorted_items m).*1.
Proof. rewrite sorted_items_perm. apply NoDup_fst_map_to_list. Qed.

Lemma NoDup_sorted_items m : NoDup (sorted_items m).
Proof. rewrite sorted_items_perm. apply NoDup_map_to_list. Qed.

Lemma length_sorted_items m : length (sorted_items m) = size m.
Proof. rewrite sorted_items_perm. apply length_map_to_list. Qed.

Lemma Sorted_sorted_items `{!Total le} m : Sorted item_le (sorted_items m).
Proof.
  apply Sorted_merge_sort. intros x y. unfold item_le. apply total. apply _.
Qed.
End sorted_items.
Arguments sorted_items {K V _ _} le {_} m.

(** [std::pair<..., ...>] of integers: the lexicographic order. *)
Definition pair_leb (a b : Z * Z) : bool :=
  if a.1 =? b.1 then a.2 <=? b.2 else a.1 <? b.1.

Definition pair_le (a b : Z * Z) : Prop := pair_leb a b = true.

#[export] Instance pair_le_dec : RelDecision pair_le.
Proof. intros a b. unfold pair_le. apply _. Defined.

#[export] Instance pair_le_total : Total pair_le.
Proof.
  intros [a1 a2] [b1 b2]. unfold pair_le, pair_leb. simpl.
  rewrite (Z.eqb_sym b1 a1).
  destruct (Z.eqb_spec a1 b1); rewrite ?Z.leb_le, ?Z.ltb_lt; lia.
Qed.

#[export] Instance pair_le_trans : Transitive pair_le.
Proof.
  intros [a1 a2] [b1 b2] [c1 c2]. unfold pair_le, pair_leb. simpl.
  destruct (Z.eqb_spec a1 b1), (Z.eqb_spec b1 c1), (Z.eqb_spec a1 c1);
    rewrite ?Z.leb_le, ?Z.ltb_lt; lia.
Qed.

(** ** Lists *)

Lemma sublist_Forall {A} (P : A -> Prop) l l' : l' `sublist_of` l -> Forall P l -> Forall P l'.
Proof. induction 1; [done|inversion_clear 1; by constructor; auto|inversion_clear 1; auto]. Qed.

Lemma sorted_sublist {A} (R : relation A) l l' : l' `sublist_of` l -> StronglySorted R l -> StronglySorted R l'.
Proof.
  induction 1 as [|x l1 l2 Hsub IH|x l1 l2 Hsub IH]; intros Hs; [constructor| |].
  - inversion_clear Hs as [|? ? Hs' Hx]. constructor; [by apply IH|by eapply sublist_Forall].
  - inversion_clear Hs. by apply IH.
Qed.

Section list_facts.
Context {A : Type} (P : A -> Prop) `{!forall x, Decision (P x)}.

Lemma filter_Forall_id l : Forall P l -> filter P l = l.
Proof.
  induction 1 as [|x l Hx Hl IH]; [done|].
  rewrite filter_cons_True by done. by rewrite IH.
Qed.

Lemma filter_Forall_nil l : Forall (fun x => ~ P x) l -> filter P l = [].
Proof.
  induction 1 as [|x l Hx Hl IH]; [done|].
  by rewrite filter_cons_False.
Qed.

Lemma filter_length_le_take l k :
  Forall P (take k l) -> (k <= length l)%nat -> (k <= length (filter P l))%nat.
Proof.
  intros HF Hk. rewrite <- (take_drop k l). rewrite filter_app, length_app.
  rewrite (filter_Forall_id (take k l)) by exact HF. rewrite length_take. lia.
Qed.

Lemma filter_length_ge_drop l k :
  Forall (fun x => ~ P x) (drop k l) -> (length (filter P l) <= k)%nat.
Proof.
  intros HF. rewrite <- (take_drop k l). rewrite filter_app, length_app.
  rewrite (filter_Forall_nil (drop k l)) by exact HF. simpl.
  pose proof (length_filter P (take k l)). rewrite length_take in *. lia.
Qed.
End list_facts.

(** ** Case analysis *)

(** Destruct the scrutinee of the innermost [match] or [if] of the goal. *)
Ltac case_match_goal :=
  match goal with
  | |- context [match ?x with _ => _ end] =>
      lazymatch x with context [match _ with _ => _ end] => fail | _ => destruct x eqn:? end
  end.

Ltac wp_step :=
  lazymatch goal with
  | |- wp (ret _) _ _ _ => apply wp_ret
  | |- wp (throw _) _ _ _ => apply wp_throw
  | |- wp (gets _) _ _ _ => apply wp_gets
  | |- wp (modify _) _ _ _ => apply wp_modify
  | |- wp (bind _ _) _ _ _ => apply wp_bind
  | |- wp (catch _ _) _ _ _ => apply wp_catch
  end.
