(* ===== verification/DomainTypes.v ===== *)
(** * Domain values (chatserver/include/app/DomainTypes.hpp, DeliverySink.hpp)

    Identifiers are 64-bit unsigned integers, kept as [Z]; the wrapper structs
    of the source only prevent mixing them up and have no behaviour of their
    own.  Times are signed 64-bit milliseconds. *)

From S2P Require Import Prelude.
From Stdlib Require Import Ascii.
From stdpp Require Import countable.

Open Scope Z_scope.

Abbreviation UserId := Z (only parsing).
Abbreviation GroupId := Z (only parsing).
Abbreviation MessageId := Z (only parsing).
Abbreviation ConversationId := Z (only parsing).
Abbreviation ConversationSequence := Z (only parsing).

(** ** Sessions *)

Record SessionIdentity := mkSession {
  userId : UserId;
  generation : Z;
}.

Definition defaultSession : SessionIdentity := mkSession 0 0.

#[export] Instance SessionIdentity_eq_dec : EqDecision SessionIdentity.
Proof. solve_decision. Defined.

#[export] Instance SessionIdentity_countable : Countable SessionIdentity.
Proof.
  refine (inj_countable' (fun s => (userId s, generation s))
            (fun p => mkSession p.1 p.2) _).
  intros []. reflexivity.
Defined.

(** [operator<] on sessions: by user, then by generation. *)
Definition session_ltb (a b : SessionIdentity) : bool :=
  if negb (userId a =? userId b) then userId a <? userId b
  else generation a <? generation b.

Definition session_le (a b : SessionIdentity) : Prop := session_ltb b a = false.

#[export] Instance session_le_dec : RelDecision session_le.
Proof. intros a b. unfold session_le. apply _. Defined.

(** ** Client message identifiers *)

Definition isLegacyClientMessageId (value : string) : bool :=
  String.prefix "legacy:" value.

Fixpoint printableAscii (value : string) : bool :=
  match value with
  | EmptyString => true
  | String c rest =>
      let n := Z.of_nat (nat_of_ascii c) in
      if (n <? 0x20) || (0x7E <? n) then false else printableAscii rest
  end.

Definition ClientMessageId_isValid (value : string) : bool :=
  if (Z.of_nat (String.length value) =? 0) || (64 <? Z.of_nat (String.length value))
  then false else printableAscii value.

(** ** Commands and messages *)

Inductive Kind := Direct | Group.

#[export] Instance Kind_eq_dec : EqDecision Kind.
Proof. solve_decision. Defined.

Record SendMessageCommand := mkCommand {
  clientMessageId : string;
  kind : Kind;
  directRecipient : UserId;
  groupId : GroupId;
  members : list UserId;
  content : string;
}.

#[export] Instance SendMessageCommand_eq_dec : EqDecision SendMessageCommand.
Proof. solve_decision. Defined.

Record Message := mkMessage {
  msg_id : MessageId;
  msg_conversationId : ConversationId;
  msg_sequence : ConversationSequence;
  msg_senderId : UserId;
  msg_command : SendMessageCommand;
  msg_acceptedAtMs : Z;
}.

#[export] Instance Message_eq_dec : EqDecision Message.
Proof. solve_decision. Defined.

(** The element-wise comparison of the member snapshots. *)
Fixpoint sameMembers (a b : list UserId) : bool :=
  match a, b with
  | [], [] => true
  | x :: a', y :: b' => if negb (x =? y) then false else sameMembers a' b'
  | _, _ => false
  end.

Definition samePayload (a b : SendMessageCommand) : bool :=
  if bool_decide (kind a ≠ kind b) || bool_decide (content a ≠ content b)
     || bool_decide (clientMessageId a ≠ clientMessageId b)
  then false
  else match kind a with
       | Direct => directRecipient a =? directRecipient b
       | Group =>
           if negb (groupId a =? groupId b)
              || negb (length (members a) =? length (members b))%nat
           then false
           else sameMembers (members a) (members b)
       end.

(** ** Results *)

Inductive AcceptError :=
| AcceptDependencyBusy
| AcceptIdempotencyConflict
| AcceptTooManyRecipients
| AcceptNotConversationMember
| AcceptNotFound
| AcceptInvalidClientMessageId.

Record AcceptOutcome := mkAcceptOutcome {
  ao_ok : bool;
  ao_duplicate : bool;
  ao_messageId : MessageId;
  ao_conversationId : ConversationId;
  ao_sequence : ConversationSequence;
  ao_error : AcceptError;
}.

Definition defaultAcceptOutcome : AcceptOutcome :=
  mkAcceptOutcome false false 0 0 0 AcceptDependencyBusy.

Inductive AckResult :=
| AckAcknowledged
| AckIdempotent
| AckNotRecipient
| AckNotFound.

Inductive StoreErrorKind :=
| StoreDependencyBusy
| StoreIdempotencyConflict
| StoreTooManyRecipients
| StoreNotFound
| StoreStorage.

(** What a call of the server can throw.  [Diverges] is not an exception of
    the program: it is the result of a loop whose fuel ran out, and theorems
    show it does not occur.  Every exception that the sources throw derives from
    [std::exception], so that [catch (const std::exception&)] catches all of them. *)
Inductive exn :=
| MessageStoreError (k : StoreErrorKind)
| InvalidArgument
| OtherException
| Diverges.

(** [catch (...)] or [catch (const std::exception&)]: every exception of the program; divergence is not one. *)
Definition catchAll {W A} (m : eff exn W A) (h : exn -> eff exn W A) : eff exn W A :=
  catch m (fun x => match x with Diverges => throw Diverges | _ => h x end).

(** ** Deliveries *)

Inductive DeliveryState := Pending | InFlight | Acknowledged | Expired.

#[export] Instance DeliveryState_eq_dec : EqDecision DeliveryState.
Proof. solve_decision. Defined.

Record Delivery := mkDelivery {
  dl_messageId : MessageId;
  dl_conversationId : ConversationId;
  dl_sequence : ConversationSequence;
  dl_recipient : UserId;
  dl_state : DeliveryState;
  dl_leaseOwner : SessionIdentity;
  dl_leaseBootId : Z;
  dl_leaseUntilMs : Z;
  dl_attemptCount : Z;
  dl_acknowledgedAtMs : Z;
  dl_expiresAtMs : Z;
  dl_lastSentAtMs : Z;
  dl_nextAttemptAtMs : Z;
}.

#[export] Instance Delivery_eq_dec : EqDecision Delivery.
Proof. solve_decision. Defined.

Definition isTerminal (st : DeliveryState) : bool :=
  match st with Acknowledged | Expired => true | _ => false end.

(** The identity of a delivery: (message, recipient). *)
Definition dl_key (d : Delivery) : Z * Z := (dl_messageId d, dl_recipient d).

Definition with_sequence (s : Z) (d : Delivery) : Delivery :=
  mkDelivery (dl_messageId d) (dl_conversationId d) s (dl_recipient d)
    (dl_state d) (dl_leaseOwner d) (dl_leaseBootId d) (dl_leaseUntilMs d)
    (dl_attemptCount d) (dl_acknowledgedAtMs d) (dl_expiresAtMs d)
    (dl_lastSentAtMs d) (dl_nextAttemptAtMs d).

Definition with_state (st : DeliveryState) (d : Delivery) : Delivery :=
  mkDelivery (dl_messageId d) (dl_conversationId d) (dl_sequence d)
    (dl_recipient d) st (dl_leaseOwner d) (dl_leaseBootId d)
    (dl_leaseUntilMs d) (dl_attemptCount d) (dl_acknowledgedAtMs d)
    (dl_expiresAtMs d) (dl_lastSentAtMs d) (dl_nextAttemptAtMs d).

Definition with_acked (now : Z) (d : Delivery) : Delivery :=
  mkDelivery (dl_messageId d) (dl_conversationId d) (dl_sequence d)
    (dl_recipient d) Acknowledged (dl_leaseOwner d) (dl_leaseBootId d)
    (dl_leaseUntilMs d) (dl_attemptCount d) now (dl_expiresAtMs d)
    (dl_lastSentAtMs d) (dl_nextAttemptAtMs d).

Definition with_released (d : Delivery) : Delivery :=
  mkDelivery (dl_messageId d) (dl_conversationId d) (dl_sequence d)
    (dl_recipient d) Pending defaultSession 0 0 (dl_attemptCount d)
    (dl_acknowledgedAtMs d) (dl_expiresAtMs d) (dl_lastSentAtMs d)
    (dl_nextAttemptAtMs d).

(** ** Delivery attempts and the sink's answer *)

Record DeliveryAttempt := mkAttempt {
  at_messageId : MessageId;
  at_conversationId : ConversationId;
  at_sequence : ConversationSequence;
  at_senderId : UserId;
  at_recipient : UserId;
  at_kind : Kind;
  at_directRecipient : UserId;
  at_groupId : GroupId;
  at_content : string;
  at_attemptNumber : Z;
}.

Inductive DeliverDisposition := DispAccepted | DispPaused | DispClosed.

#[export] Instance DeliverDisposition_eq_dec : EqDecision DeliverDisposition.
Proof. solve_decision. Defined.

(** ** Outbox events and dead letters *)

Record OutboxEvent := mkOutboxEvent {
  ev_id : Z;
  ev_aggregateMessageId : MessageId;
  ev_eventType : string;
  ev_payload : string;
  ev_availableAtMs : Z;
  ev_leaseOwner : string;
  ev_leaseUntilMs : Z;
  ev_attemptCount : Z;
  ev_processedAtMs : Z;
}.

#[export] Instance OutboxEvent_eq_dec : EqDecision OutboxEvent.
Proof. solve_decision. Defined.

Record ExpiredDeliveryRecord := mkExpired {
  ex_messageId : Z;
  ex_recipient : Z;
  ex_fromState : DeliveryState;
}.

Record DeadLetterRecord := mkDeadLetter {
  dlr_topic : string;
  dlr_partitionId : Z;
  dlr_kafkaOffset : Z;
  dlr_messageId : Z;
  dlr_conversationId : Z;
  dlr_sequence : Z;
  dlr_eventType : string;
  dlr_reason : string;
  dlr_rawValue : string;
}.

#[export] Instance DeadLetterRecord_eq_dec : EqDecision DeadLetterRecord.
Proof. solve_decision. Defined.

(** ** Facts about payload comparison *)

Lemma sameMembers_spec a b : sameMembers a b = true <-> a = b.
Proof.
  revert b. induction a as [|x a IH]; intros [|y b]; simpl; split; try easy.
  - destruct (Z.eqb_spec x y) as [->|Hne]; simpl; [|easy].
    intros H. apply IH in H. congruence.
  - intros H. inv H. rewrite Z.eqb_refl. simpl. apply IH. reflexivity.
Qed.

(** What two commands must share to be the same message intent. *)
Definition same_intent (a b : SendMessageCommand) : Prop :=
  kind a = kind b /\ content a = content b /\
  clientMessageId a = clientMessageId b /\
  match kind a with
  | Direct => directRecipient a = directRecipient b
  | Group => groupId a = groupId b /\ members a = members b
  end.

Lemma samePayload_spec a b : samePayload a b = true <-> same_intent a b.
Proof.
  unfold samePayload, same_intent.
  destruct (decide (kind a = kind b)) as [Ek|Nk];
    [|rewrite bool_decide_true by done; simpl; naive_solver].
  destruct (decide (content a = content b)) as [Ec|Nc];
    [|rewrite (bool_decide_true (content a ≠ _)), orb_true_r by done; simpl; naive_solver].
  destruct (decide (clientMessageId a = clientMessageId b)) as [Ei|Ni];
    [|rewrite (bool_decide_true (clientMessageId a ≠ _)), !orb_true_r by done; simpl; naive_solver].
  rewrite !bool_decide_false by naive_solver. simpl.
  destruct (kind a).
  - rewrite Z.eqb_eq. naive_solver.
  - destruct (Z.eqb_spec (groupId a) (groupId b)); simpl; [|naive_solver].
    destruct (Nat.eqb_spec (length (members a)) (length (members b))); simpl.
    + rewrite sameMembers_spec. naive_solver.
    + naive_solver congruence.
Qed.

Lemma same_intent_trans a b c : same_intent a b -> same_intent b c -> same_intent a c.
Proof.
  unfold same_intent. intros (Hk & Hc & Hi & Hx) (Hk' & Hc' & Hi' & Hx').
  rewrite <- Hk in Hk', Hx'. repeat split; try congruence. destruct (kind a); intuition congruence.
Qed.

Lemma same_intent_sym a b : same_intent a b -> same_intent b a.
Proof.
  unfold same_intent. intros (Hk & Hc & Hi & Hx). rewrite <- Hk.
  repeat split; try congruence. destruct (kind a); intuition congruence.
Qed.

(** Commands with the same intent are interchangeable in the comparison. *)
Lemma samePayload_cong a b c : samePayload a b = true -> samePayload a c = samePayload b c.
Proof.
  intros Hab. apply samePayload_spec in Hab. apply eq_bool_prop_intro.
  rewrite !Is_true_true, !samePayload_spec.
  split; intros; eauto using same_intent_trans, same_intent_sym.
Qed.

Lemma samePayload_refl a : samePayload a a = true.
Proof. apply samePayload_spec. repeat split; destruct (kind a); auto. Qed.

Lemma dl_key_with_sequence s d : dl_key (with_sequence s d) = dl_key d.
Proof. reflexivity. Qed.

Lemma dl_key_with_state s d : dl_key (with_state s d) = dl_key d.
Proof. reflexivity. Qed.

Lemma dl_key_with_released d : dl_key (with_released d) = dl_key d.
Proof. reflexivity. Qed.

Lemma isTerminal_false st :
  isTerminal st = false <-> st = Pending \/ st = InFlight.
Proof. destruct st; naive_solver. Qed.

Create HintDb domain.
#[export] Hint Rewrite dl_key_with_sequence dl_key_with_state dl_key_with_released : domain.
