(* ===== verification/Metrics.v ===== *)
(** * Message metrics (chatserver/include/app/ReliableMessageMetrics.hpp)

    The process-wide [Recorder]: 64-bit counters, the per-delivery state used
    to move them, the bounded latency samples and the snapshot.  Its clock is a
    component of the environment [E]. *)

From S2P Require Import Prelude DomainTypes.

Open Scope Z_scope.
Open Scope eff_scope.

(** The clock the recorder reads ([UnixEpochClock] in production). *)
Class MetricsClock (E : Type) := { metricsNow : E -> E * Z }.

Inductive MetricAcceptOutcome :=
| MAccepted | MDuplicate | MConflict | MTooManyRecipients.

Record DeliveryMetric := mkDeliveryMetric {
  dm_state : DeliveryState;
  dm_created : bool;
  dm_pendingSinceMs : Z;
}.

Definition defaultDeliveryMetric : DeliveryMetric := mkDeliveryMetric Pending false 0.

Record Recorder := mkRecorder {
  accepts_ : Z;
  duplicates_ : Z;
  conflicts_ : Z;
  rejectedTooManyRecipients_ : Z;
  createdDeliveries_ : Z;
  pending_ : Z;
  inflight_ : Z;
  acked_ : Z;
  expired_ : Z;
  attempts_ : Z;
  retries_ : Z;
  legacyModeCount_ : Z;
  outboxLag_ : Z;
  outboxPoison_ : Z;
  mdeliveries_ : gmap Z DeliveryMetric;
  ackAcceptedAtMs_ : gmap Z Z;
  ackLatencySamplesMs_ : list Z;
  pendingByAge_ : gset (Z * Z);
  headSinceMs_ : Z;
  consumerSeenConversations_ : Z;
}.

Definition emptyRecorder : Recorder :=
  mkRecorder 0 0 0 0 0 0 0 0 0 0 0 0 0 0 ∅ ∅ [] ∅ 0 0.

Definition kMaxAckLatencySamples : nat := 4096.

(** ** Record updates, one per field that an operation writes *)

Definition set_accepts (d c t a : Z) (r : Recorder) : Recorder :=
  mkRecorder a d c t (createdDeliveries_ r) (pending_ r) (inflight_ r)
    (acked_ r) (expired_ r) (attempts_ r) (retries_ r) (legacyModeCount_ r)
    (outboxLag_ r) (outboxPoison_ r) (mdeliveries_ r) (ackAcceptedAtMs_ r)
    (ackLatencySamplesMs_ r) (pendingByAge_ r) (headSinceMs_ r)
    (consumerSeenConversations_ r).

Definition set_states (cr p i a x : Z) (r : Recorder) : Recorder :=
  mkRecorder (accepts_ r) (duplicates_ r) (conflicts_ r)
    (rejectedTooManyRecipients_ r) cr p i a x (attempts_ r) (retries_ r)
    (legacyModeCount_ r) (outboxLag_ r) (outboxPoison_ r) (mdeliveries_ r)
    (ackAcceptedAtMs_ r) (ackLatencySamplesMs_ r) (pendingByAge_ r)
    (headSinceMs_ r) (consumerSeenConversations_ r).

Definition set_attempts (a t l : Z) (r : Recorder) : Recorder :=
  mkRecorder (accepts_ r) (duplicates_ r) (conflicts_ r)
    (rejectedTooManyRecipients_ r) (createdDeliveries_ r) (pending_ r)
    (inflight_ r) (acked_ r) (expired_ r) a t l (outboxLag_ r)
    (outboxPoison_ r) (mdeliveries_ r) (ackAcceptedAtMs_ r)
    (ackLatencySamplesMs_ r) (pendingByAge_ r) (headSinceMs_ r)
    (consumerSeenConversations_ r).

Definition set_gauges (lag poison seen : Z) (r : Recorder) : Recorder :=
  mkRecorder (accepts_ r) (duplicates_ r) (conflicts_ r)
    (rejectedTooManyRecipients_ r) (createdDeliveries_ r) (pending_ r)
    (inflight_ r) (acked_ r) (expired_ r) (attempts_ r) (retries_ r)
    (legacyModeCount_ r) lag poison (mdeliveries_ r) (ackAcceptedAtMs_ r)
    (ackLatencySamplesMs_ r) (pendingByAge_ r) (headSinceMs_ r) seen.

Definition set_mdeliveries (m : gmap Z DeliveryMetric) (r : Recorder) : Recorder :=
  mkRecorder (accepts_ r) (duplicates_ r) (conflicts_ r)
    (rejectedTooManyRecipients_ r) (createdDeliveries_ r) (pending_ r)
    (inflight_ r) (acked_ r) (expired_ r) (attempts_ r) (retries_ r)
    (legacyModeCount_ r) (outboxLag_ r) (outboxPoison_ r) m
    (ackAcceptedAtMs_ r) (ackLatencySamplesMs_ r) (pendingByAge_ r)
    (headSinceMs_ r) (consumerSeenConversations_ r).

Definition set_acks (starts : gmap Z Z) (samples : list Z) (r : Recorder) : Recorder :=
  mkRecorder (accepts_ r) (duplicates_ r) (conflicts_ r)
    (rejectedTooManyRecipients_ r) (createdDeliveries_ r) (pending_ r)
    (inflight_ r) (acked_ r) (expired_ r) (attempts_ r) (retries_ r)
    (legacyModeCount_ r) (outboxLag_ r) (outboxPoison_ r) (mdeliveries_ r)
    starts samples (pendingByAge_ r) (headSinceMs_ r)
    (consumerSeenConversations_ r).

Definition set_pendingAge (p : gset (Z * Z)) (h : Z) (r : Recorder) : Recorder :=
  mkRecorder (accepts_ r) (duplicates_ r) (conflicts_ r)
    (rejectedTooManyRecipients_ r) (createdDeliveries_ r) (pending_ r)
    (inflight_ r) (acked_ r) (expired_ r) (attempts_ r) (retries_ r)
    (legacyModeCount_ r) (outboxLag_ r) (outboxPoison_ r) (mdeliveries_ r)
    (ackAcceptedAtMs_ r) (ackLatencySamplesMs_ r) p h
    (consumerSeenConversations_ r).

(** ** Identities and dimensions *)

Definition isDimensionAllowed (dimension : string) : bool :=
  bool_decide (dimension = "delivery_state"%string) ||
  bool_decide (dimension = "accept_outcome"%string) ||
  bool_decide (dimension = "error_class"%string) ||
  bool_decide (dimension = "legacy"%string).

Definition requireDimensionAllowed {W} (dimension : string) : eff exn W unit :=
  if negb (isDimensionAllowed dimension) then throw InvalidArgument else ret tt.

Definition deliveryMetricId (messageId recipient : Z) : Z :=
  let h := u64 (recipient + 0x9e3779b97f4a7c15) in
  let h := u64 (Z.lxor h (Z.shiftr h 30) * 0xbf58476d1ce4e5b9) in
  let h := u64 (Z.lxor h (Z.shiftr h 27) * 0x94d049bb133111eb) in
  let h := Z.lxor h (Z.shiftr h 31) in
  Z.lxor (u64 (Z.shiftl messageId 1)) (Z.shiftr h 1).

(** The metric enum has the same four values as the domain enum. *)
Definition fromDomainState (state : DeliveryState) : DeliveryState :=
  match state with
  | Pending => Pending
  | InFlight => InFlight
  | Acknowledged => Acknowledged
  | Expired => Expired
  end.

(** ** Operations of the recorder *)

(** [*pendingByAge_.begin()]: the least (time, identity). *)
Definition pendingHead (p : gset (Z * Z)) : option (Z * Z) :=
  head (merge_sort pair_le (elements p)).

Section recorder.
Context {E : Type} `{MetricsClock E}.

Notation rec_eff := (eff exn (Recorder * E)).

Definition readClock : rec_eff Z :=
  fun re => let '(e', now) := metricsNow re.2 in ((re.1, e'), Ret now).

Definition modifyRec (f : Recorder -> Recorder) : rec_eff unit :=
  modify (fun re => (f re.1, re.2)).

Definition getRec : rec_eff Recorder := gets fst.

Definition recordAccept (o : MetricAcceptOutcome) : rec_eff unit :=
  modifyRec (fun r =>
    match o with
    | MAccepted =>
        set_accepts (duplicates_ r) (conflicts_ r)
          (rejectedTooManyRecipients_ r) (u64 (accepts_ r + 1)) r
    | MDuplicate =>
        set_accepts (u64 (duplicates_ r + 1)) (conflicts_ r)
          (rejectedTooManyRecipients_ r) (accepts_ r) r
    | MConflict =>
        set_accepts (duplicates_ r) (u64 (conflicts_ r + 1))
          (rejectedTooManyRecipients_ r) (accepts_ r) r
    | MTooManyRecipients =>
        set_accepts (duplicates_ r) (conflicts_ r)
          (u64 (rejectedTooManyRecipients_ r + 1)) (accepts_ r) r
    end).

Definition insertPendingLocked (deliveryId pendingSinceMs : Z) : rec_eff unit :=
  modifyRec (fun r =>
    let key := (pendingSinceMs, deliveryId) in
    let p := {[ key ]} ∪ pendingByAge_ r in
    if bool_decide (pendingHead p = Some key)
    then set_pendingAge p pendingSinceMs r
    else set_pendingAge p (headSinceMs_ r) r).

Definition removePendingLocked (deliveryId pendingSinceMs : Z) : rec_eff unit :=
  r <- getRec ;;
  let key := (pendingSinceMs, deliveryId) in
  let removedHead := bool_decide (pendingHead (pendingByAge_ r) = Some key) in
  let p := pendingByAge_ r ∖ {[ key ]} in
  if bool_decide (p = ∅) then modifyRec (set_pendingAge p 0)
  else if removedHead then
    modifyRec (set_pendingAge p (headSinceMs_ r)) ;;;
    now <- readClock ;;
    modifyRec (set_pendingAge p now)
  else modifyRec (set_pendingAge p (headSinceMs_ r)).

Definition recordDeliveryCreated (deliveryId acceptedAtMs : Z) : rec_eff unit :=
  r <- getRec ;;
  let m := default defaultDeliveryMetric (mdeliveries_ r !! deliveryId) in
  modifyRec (set_mdeliveries (<[deliveryId := m]> (mdeliveries_ r))) ;;;
  if dm_created m then ret tt
  else
    modifyRec (set_mdeliveries
      (<[deliveryId := mkDeliveryMetric Pending true acceptedAtMs]> (mdeliveries_ r))) ;;;
    modifyRec (fun r =>
      set_states (u64 (createdDeliveries_ r + 1)) (u64 (pending_ r + 1))
        (inflight_ r) (acked_ r) (expired_ r) r) ;;;
    insertPendingLocked deliveryId acceptedAtMs.

(** [--x] on the counter of the state left, [++x] on that of the state entered. *)
Definition leaveState (from : DeliveryState) (r : Recorder) : Recorder :=
  let c := createdDeliveries_ r in
  match from with
  | Pending => set_states c (u64 (pending_ r - 1)) (inflight_ r) (acked_ r) (expired_ r) r
  | InFlight => set_states c (pending_ r) (u64 (inflight_ r - 1)) (acked_ r) (expired_ r) r
  | Acknowledged => set_states c (pending_ r) (inflight_ r) (u64 (acked_ r - 1)) (expired_ r) r
  | Expired => set_states c (pending_ r) (inflight_ r) (acked_ r) (u64 (expired_ r - 1)) r
  end.

Definition enterState (to : DeliveryState) (r : Recorder) : Recorder :=
  let c := createdDeliveries_ r in
  match to with
  | Pending => set_states c (u64 (pending_ r + 1)) (inflight_ r) (acked_ r) (expired_ r) r
  | InFlight => set_states c (pending_ r) (u64 (inflight_ r + 1)) (acked_ r) (expired_ r) r
  | Acknowledged => set_states c (pending_ r) (inflight_ r) (u64 (acked_ r + 1)) (expired_ r) r
  | Expired => set_states c (pending_ r) (inflight_ r) (acked_ r) (u64 (expired_ r + 1)) r
  end.

Definition recordDeliveryTransition (deliveryId : Z) (from to : DeliveryState)
  : rec_eff unit :=
  r <- getRec ;;
  match mdeliveries_ r !! deliveryId with
  | None => throw InvalidArgument
  | Some m =>
      if bool_decide (from = to) then ret tt
      else
        modifyRec (leaveState from) ;;;
        (match from with
         | Pending => removePendingLocked deliveryId (dm_pendingSinceMs m)
         | _ => ret tt
         end) ;;;
        modifyRec (enterState to) ;;;
        since <- (match to with
                  | Pending =>
                      now <- readClock ;;
                      insertPendingLocked deliveryId now ;;;
                      ret now
                  | _ => ret (dm_pendingSinceMs m)
                  end) ;;
        modifyRec (fun r =>
          set_mdeliveries
            (<[deliveryId := mkDeliveryMetric to (dm_created m) since]> (mdeliveries_ r)) r)
  end.

Definition recordAttempt (isRetry : bool) : rec_eff unit :=
  modifyRec (fun r =>
    set_attempts (u64 (attempts_ r + 1))
      (if isRetry then u64 (retries_ r + 1) else retries_ r)
      (legacyModeCount_ r) r).

Definition recordAcceptedTimestamp (messageKey acceptedAtMs : Z) : rec_eff unit :=
  now <- readClock ;;
  modifyRec (fun r =>
    set_acks (<[messageKey := now]> (ackAcceptedAtMs_ r)) (ackLatencySamplesMs_ r) r).

Definition recordAck (messageKey : Z) : rec_eff unit :=
  r <- getRec ;;
  match ackAcceptedAtMs_ r !! messageKey with
  | None => ret tt
  | Some start =>
      now <- readClock ;;
      let latency := i64 (now - start) in
      let samples :=
        if (kMaxAckLatencySamples <=? length (ackLatencySamplesMs_ r))%nat
        then tail (ackLatencySamplesMs_ r) else ackLatencySamplesMs_ r in
      modifyRec (set_acks (delete messageKey (ackAcceptedAtMs_ r))
        (samples ++ [if latency <? 0 then 0 else latency]))
  end.

Definition recordEviction (deliveryId messageKey : Z) : rec_eff unit :=
  r <- getRec ;;
  match mdeliveries_ r !! deliveryId with
  | None => ret tt
  | Some m =>
      (if bool_decide (dm_state m = Pending)
       then removePendingLocked deliveryId (dm_pendingSinceMs m) else ret tt) ;;;
      modifyRec (fun r =>
        set_acks (delete messageKey (ackAcceptedAtMs_ r)) (ackLatencySamplesMs_ r)
          (set_mdeliveries (delete deliveryId (mdeliveries_ r)) r))
  end.

Definition trackedDeliveryCount (r : Recorder) : Z := Z.of_nat (size (mdeliveries_ r)).

Definition updateOutboxLag (lag : Z) : rec_eff unit :=
  modifyRec (fun r => set_gauges lag (outboxPoison_ r) (consumerSeenConversations_ r) r).

Definition recordOutboxPoison : rec_eff unit :=
  modifyRec (fun r =>
    set_gauges (outboxLag_ r) (u64 (outboxPoison_ r + 1)) (consumerSeenConversations_ r) r).

Definition recordLegacyMode : rec_eff unit :=
  modifyRec (fun r =>
    set_attempts (attempts_ r) (retries_ r) (u64 (legacyModeCount_ r + 1)) r).

Definition updateConsumerSeenConversations (n : Z) : rec_eff unit :=
  modifyRec (fun r => set_gauges (outboxLag_ r) (outboxPoison_ r) n r).

(** [recordBestEffort]: a metric never throws into the business flow. *)
Definition recordBestEffort (m : rec_eff unit) : rec_eff unit :=
  catch m (fun _ => ret tt).

Definition isConserving (r : Recorder) : bool :=
  createdDeliveries_ r =? u64 (pending_ r + inflight_ r + acked_ r + expired_ r).

(** ** Snapshot *)

Record Snapshot := mkSnapshot {
  s_accepts : Z;
  s_duplicates : Z;
  s_conflicts : Z;
  s_rejectedTooManyRecipients : Z;
  s_createdDeliveries : Z;
  s_pending : Z;
  s_inflight : Z;
  s_acked : Z;
  s_expired : Z;
  s_attempts : Z;
  s_retries : Z;
  s_legacyModeCount : Z;
  s_outboxLag : Z;
  s_outboxPoison : Z;
  s_ackLatencySamples : Z;
  s_ackLatencyP50Ms : Z;
  s_ackLatencyP95Ms : Z;
  s_ackLatencyP99Ms : Z;
  s_oldestPendingAgeMs : Z;
  s_consumerSeenConversations : Z;
}.

(** [ceil(p*n)] is taken in double precision with p one of 0.50, 0.95, 0.99
    and n at most 4096; there it equals the exact ceiling of [pct*n/100]. *)
Definition nearestRank (sorted : list Z) (pct : Z) : Z :=
  let n := Z.of_nat (length sorted) in
  let idx := (pct * n + 99) / 100 in
  nth (Z.to_nat (idx - 1)) sorted 0.

Definition snapshot : rec_eff Snapshot :=
  r <- getRec ;;
  let sorted := merge_sort Z.le (ackLatencySamplesMs_ r) in
  let pct p := match ackLatencySamplesMs_ r with [] => 0 | _ => nearestRank sorted p end in
  age <- (if bool_decide (pendingByAge_ r = ∅) then ret (-1)
          else now <- readClock ;; ret (i64 (now - headSinceMs_ r))) ;;
  ret (mkSnapshot (accepts_ r) (duplicates_ r) (conflicts_ r)
    (rejectedTooManyRecipients_ r) (createdDeliveries_ r) (pending_ r)
    (inflight_ r) (acked_ r) (expired_ r) (attempts_ r) (retries_ r)
    (legacyModeCount_ r) (outboxLag_ r) (outboxPoison_ r)
    (Z.of_nat (length (ackLatencySamplesMs_ r)))
    (pct 50) (pct 95) (pct 99) age (consumerSeenConversations_ r)).

(** ** A call of the recorder, for statements over arbitrary sequences *)

Inductive RecorderCall :=
| CallAccept (o : MetricAcceptOutcome)
| CallCreated (deliveryId acceptedAtMs : Z)
| CallTransition (deliveryId : Z) (from to : DeliveryState)
| CallAttempt (isRetry : bool)
| CallAcceptedTimestamp (messageKey acceptedAtMs : Z)
| CallAck (messageKey : Z)
| CallEviction (deliveryId messageKey : Z)
| CallOutboxLag (lag : Z)
| CallOutboxPoison
| CallLegacyMode
| CallConsumerSeen (n : Z)
| CallSnapshot.

Definition runCall (c : RecorderCall) : rec_eff unit :=
  match c with
  | CallAccept o => recordAccept o
  | CallCreated d t => recordDeliveryCreated d t
  | CallTransition d f t => recordDeliveryTransition d f t
  | CallAttempt b => recordAttempt b
  | CallAcceptedTimestamp k t => recordAcceptedTimestamp k t
  | CallAck k => recordAck k
  | CallEviction d k => recordEviction d k
  | CallOutboxLag n => updateOutboxLag n
  | CallOutboxPoison => recordOutboxPoison
  | CallLegacyMode => recordLegacyMode
  | CallConsumerSeen n => updateConsumerSeenConversations n
  | CallSnapshot => _ <- snapshot ;; ret tt
  end.

Definition runCalls (cs : list RecorderCall) : rec_eff unit :=
  forM cs (fun c => recordBestEffort (runCall c)).

End recorder.

(** ** Conservation

    The counters wrap at 64 bits, so the sum of the four state gauges equals
    the number of created deliveries modulo 2^64; [isConserving] is exactly
    that equation. *)

Definition states_of (r : Recorder) : Z * (Z * Z * Z * Z) :=
  (createdDeliveries_ r, (pending_ r, inflight_ r, acked_ r, expired_ r)).

Definition gauge_sum (s : Z * Z * Z * Z) : Z :=
  let '(p, i, a, x) := s in u64 (p + i + a + x).

Definition conserving_at (delta : Z) (s : Z * (Z * Z * Z * Z)) : Prop :=
  u64 (s.1 + delta) = gauge_sum s.2.

Lemma isConserving_spec r :
  isU64 (createdDeliveries_ r) ->
  isConserving r = true <-> conserving_at 0 (states_of r).
Proof.
  intros Hr. unfold isConserving, conserving_at, states_of, gauge_sum. simpl.
  rewrite Z.add_0_r, (u64_small (createdDeliveries_ r)) by done. apply Z.eqb_eq.
Qed.

Lemma u64_shift a b c : u64 a = u64 b -> u64 (a + c) = u64 (b + c).
Proof.
  unfold u64. intros E. rewrite <- (wrapU_add_l 64 a), <- (wrapU_add_l 64 b).
  by rewrite E.
Qed.

Lemma u64_sum4 p i a x :
  u64 (u64 p + i + a + x) = u64 (p + i + a + x) /\
  u64 (p + u64 i + a + x) = u64 (p + i + a + x) /\
  u64 (p + i + u64 a + x) = u64 (p + i + a + x) /\
  u64 (p + i + a + u64 x) = u64 (p + i + a + x).
Proof.
  unfold u64. repeat split.
  - rewrite <- !Z.add_assoc. apply wrapU_add_l.
  - replace (p + wrapU 64 i + a + x) with (wrapU 64 i + (p + a + x)) by lia.
    rewrite wrapU_add_l. f_equal. lia.
  - replace (p + i + wrapU 64 a + x) with (wrapU 64 a + (p + i + x)) by lia.
    rewrite wrapU_add_l. f_equal. lia.
  - apply wrapU_add_r.
Qed.

Lemma leaveState_conserving from r :
  conserving_at 0 (states_of r) -> conserving_at (-1) (states_of (leaveState from r)).
Proof.
  unfold conserving_at, gauge_sum. simpl. intros E. rewrite Z.add_0_r in E.
  pose proof (u64_shift _ _ (-1) E) as E'.
  destruct from; simpl;
    rewrite ?(proj1 (u64_sum4 _ _ _ _)), ?(proj1 (proj2 (u64_sum4 _ _ _ _))),
      ?(proj1 (proj2 (proj2 (u64_sum4 _ _ _ _)))),
      ?(proj2 (proj2 (proj2 (u64_sum4 _ _ _ _))));
    etransitivity; try exact E'; f_equal; lia.
Qed.

Lemma enterState_conserving to r :
  conserving_at (-1) (states_of r) -> conserving_at 0 (states_of (enterState to r)).
Proof.
  unfold conserving_at, gauge_sum. simpl. intros E.
  pose proof (u64_shift _ _ 1 E) as E'.
  destruct to; simpl;
    rewrite ?(proj1 (u64_sum4 _ _ _ _)), ?(proj1 (proj2 (u64_sum4 _ _ _ _))),
      ?(proj1 (proj2 (proj2 (u64_sum4 _ _ _ _)))),
      ?(proj2 (proj2 (proj2 (u64_sum4 _ _ _ _))));
    (etransitivity; [|etransitivity; [exact E'|]]; f_equal; lia).
Qed.

Section conservation.
Context {E : Type} `{MetricsClock E}.

(** The part of the recorder the two invariants speak about. *)
Definition rec_inv (P : Z * (Z * Z * Z * Z) -> Prop) (re : Recorder * E) : Prop :=
  P (states_of re.1) /\ isU64 (createdDeliveries_ re.1) /\
  (length (ackLatencySamplesMs_ re.1) <= kMaxAckLatencySamples)%nat.

Lemma readClock_safe P : safe (rec_inv P) readClock.
Proof.
  intros [r e] HI. unfold wp, readClock. simpl.
  destruct (metricsNow e) as [e' now]. exact HI.
Qed.

Lemma modifyRec_safe P f :
  (forall r, states_of (f r) = states_of r) ->
  (forall r, (length (ackLatencySamplesMs_ r) <= kMaxAckLatencySamples)%nat ->
             (length (ackLatencySamplesMs_ (f r)) <= kMaxAckLatencySamples)%nat) ->
  safe (rec_inv P) (modifyRec f).
Proof.
  intros Hs Hl [r e] (HP & Hc & HL). unfold wp, modifyRec, modify, rec_inv. simpl in *.
  rewrite Hs. pose proof (f_equal fst (Hs r)) as E1. simpl in E1. rewrite E1. auto.
Qed.

Hint Resolve readClock_safe : effects.
Hint Extern 2 (safe (rec_inv _) (modifyRec _)) => apply modifyRec_safe; by auto : effects.
Hint Extern 3 (keepsOr (rec_inv ?P) ?J ?m) =>
  apply (safe_keepsOr (rec_inv P) J m) : effects.

Lemma insertPending_safe P d t : safe (rec_inv P) (insertPendingLocked d t).
Proof. apply modifyRec_safe; intros r; cbv beta zeta; case_bool_decide; auto. Qed.

Lemma removePending_safe P d t : safe (rec_inv P) (removePendingLocked d t).
Proof. unfold removePendingLocked, getRec. keeps_tac. Qed.

Hint Resolve insertPending_safe removePending_safe : effects.

Lemma transition_keeps d from to :
  keeps (rec_inv (conserving_at 0)) (recordDeliveryTransition d from to).
Proof.
  intros [r e] HI. pose proof HI as (HC & Hc & HL).
  unfold recordDeliveryTransition, getRec. apply wp_bind, wp_gets. simpl.
  destruct (mdeliveries_ r !! d) as [m|]; [|exact HI].
  case_bool_decide; [exact HI|].
  apply wp_bind, wp_modify, wp_bind.
  assert (rec_inv (conserving_at (-1)) (leaveState from r, e)) as HI1.
  { split; [apply leaveState_conserving; exact HC|]. destruct from; auto. }
  assert (safe (rec_inv (conserving_at (-1)))
            (match from with
             | Pending => removePendingLocked d (dm_pendingSinceMs m)
             | _ => ret tt
             end)) as Hk by (destruct from; keeps_tac).
  eapply wp_mono; [exact (Hk _ HI1)| |by intros ? ? []].
  intros _ [r' e'] (HC' & Hc' & HL'). apply wp_bind, wp_modify.
  assert (rec_inv (conserving_at 0) (enterState to r', e')) as HI2.
  { split; [apply enterState_conserving; exact HC'|]. destruct to; auto. }
  match goal with |- wp ?m _ _ _ =>
    assert (keeps (rec_inv (conserving_at 0)) m) as Hk2 by keeps_tac
  end.
  exact (Hk2 _ HI2).
Qed.

Lemma created_keeps d t :
  keeps (rec_inv (conserving_at 0)) (recordDeliveryCreated d t).
Proof.
  unfold recordDeliveryCreated, getRec. keeps_tac.
  apply keepsOr_modify. intros [r e] (HC & Hc & HL).
  split; [|split; [apply u64_range|exact HL]].
  revert HC. unfold conserving_at, gauge_sum. simpl. intros E1.
  rewrite Z.add_0_r in E1. rewrite (proj1 (u64_sum4 _ _ _ _)).
  replace (u64 (createdDeliveries_ r + 1) + 0) with (u64 (createdDeliveries_ r + 1)) by lia.
  rewrite (u64_small (u64 _)) by apply u64_range.
  rewrite (u64_shift _ _ 1 E1). f_equal. lia.
Qed.

Lemma ack_samples_bounded (l : list Z) (x : Z) :
  (length l <= kMaxAckLatencySamples)%nat ->
  (length ((if (kMaxAckLatencySamples <=? length l)%nat then tail l else l) ++ [x])
   <= kMaxAckLatencySamples)%nat.
Proof.
  intros Hl. rewrite length_app. change (length [x]) with 1%nat.
  destruct (Nat.leb_spec kMaxAckLatencySamples (length l)); [|lia].
  assert (1 <= kMaxAckLatencySamples)%nat by (apply Nat.leb_le; reflexivity).
  destruct l as [|y l]; cbn [tail length] in *; lia.
Qed.

Lemma ack_keeps P k : keeps (rec_inv P) (recordAck k).
Proof.
  intros [r e] HI. unfold recordAck, getRec. apply wp_bind, wp_gets. simpl.
  destruct (ackAcceptedAtMs_ r !! k) as [start|]; [|exact HI].
  apply wp_bind. unfold wp at 1, readClock. simpl.
  destruct (metricsNow e) as [e' now]. apply wp_modify.
  destruct HI as (HC & Hc & HL). split; [exact HC|split; [exact Hc|]].
  apply ack_samples_bounded. exact HL.
Qed.

Lemma snapshot_keeps P : keeps (rec_inv P) snapshot.
Proof. unfold snapshot, getRec. keeps_tac. Qed.

Lemma eviction_keeps P d k : keeps (rec_inv P) (recordEviction d k).
Proof. unfold recordEviction, getRec. keeps_tac. Qed.

Lemma runCall_keeps c : keeps (rec_inv (conserving_at 0)) (runCall c).
Proof.
  destruct c; simpl; eauto using transition_keeps, created_keeps, ack_keeps, eviction_keeps.
  1: by apply safe_keeps, modifyRec_safe; intros r; destruct o.
  2: unfold recordAcceptedTimestamp; keeps_tac.
  1-5: by apply safe_keeps, modifyRec_safe.
  apply keepsOr_bind; [apply snapshot_keeps|keeps_tac].
Qed.

(** A metric call, guarded by [recordBestEffort], never throws. *)
Lemma bestEffort_safe c : safe (rec_inv (conserving_at 0)) (recordBestEffort (runCall c)).
Proof. apply keepsOr_swallow. apply runCall_keeps. Qed.
End conservation.

(** C14: Whatever calls reach the recorder, in whatever order, with unknown
    identities or repeated transitions, the state gauges stay conserved: created
    equals pending + inflight + acked + expired in 64-bit arithmetic; no call
    throws, and the latency samples stay within their bound of 4096. *)
Theorem recorder_conserves {E} `{MetricsClock E} (cs : list RecorderCall) (e : E) :
  exists r' e', runCalls cs (emptyRecorder, e) = ((r', e'), Ret tt) /\
    isConserving r' = true /\
    (length (ackLatencySamplesMs_ r') <= kMaxAckLatencySamples)%nat.
Proof.
  assert (safe (rec_inv (conserving_at 0)) (runCalls cs : eff _ (Recorder * E) _)) as Hs.
  { apply keepsOr_forM. intros c _. apply bestEffort_safe. }
  assert (rec_inv (conserving_at 0) (emptyRecorder, e)) as HI.
  { split; [reflexivity|]. unfold isU64, kMaxAckLatencySamples. simpl. lia. }
  specialize (Hs _ HI). unfold wp in Hs.
  destruct (runCalls cs (emptyRecorder, e)) as [[r' e'] [[]|x]]; [|easy].
  exists r', e'. destruct Hs as (HC & Hc & HL).
  split; [reflexivity|]. split; [|exact HL]. by apply isConserving_spec.
Qed.

(** ** Percentiles *)

Lemma sorted_split (l : list Z) k :
  StronglySorted Z.le l -> (k < length l)%nat ->
  Forall (fun x => x <= nth k l 0) (take (S k) l) /\
  Forall (fun x => nth k l 0 <= x) (drop k l).
Proof.
  intros Hs. revert k. induction Hs as [|x l Hs IH Hx]; intros k Hk; [simpl in Hk; lia|].
  destruct k as [|k]; simpl.
  - split; [repeat constructor; lia|]. constructor; [lia|exact Hx].
  - simpl in Hk. destruct (IH k ltac:(lia)) as [H1 H2]. split; [|exact H2].
    constructor; [|exact H1].
    rewrite Forall_forall in Hx. apply Hx. apply list_elem_of_In, nth_In. lia.
Qed.

(** The nearest-rank percentile over sorted samples is a sample, at least
    the requested share of the samples is at most it, and fewer than that share
    are below it. *)
Theorem nearestRank_is_quantile (samples : list Z) (pct : Z) :
  samples <> [] -> 0 < pct <= 100 ->
  let n := Z.of_nat (length samples) in
  let v := nearestRank (merge_sort Z.le samples) pct in
  v ∈ samples /\
  pct * n <= 100 * Z.of_nat (length (filter (fun x => x <= v) samples)) /\
  100 * Z.of_nat (length (filter (fun x => x < v) samples)) < pct * n.
Proof.
  intros Hne Hp n v. unfold v, nearestRank. clear v.
  set (sorted := merge_sort Z.le samples).
  assert (sorted ≡ₚ samples) as HP by apply merge_sort_Permutation.
  assert (StronglySorted Z.le sorted) as HS by (apply StronglySorted_merge_sort; apply _).
  rewrite <- HP. rewrite (Permutation_length HP). fold n.
  assert (1 <= n) by (destruct samples; [easy|]; subst n; simpl; lia).
  set (idx := (pct * n + 99) / 100).
  assert (100 * idx <= pct * n + 99 < 100 * idx + 100) as Hidx.
  { pose proof (Z.div_mod (pct * n + 99) 100 ltac:(lia)).
    pose proof (Z.mod_pos_bound (pct * n + 99) 100 ltac:(lia)). lia. }
  assert (1 <= idx <= n) as Hin by nia.
  set (k := Z.to_nat (idx - 1)).
  assert (k < length sorted)%nat as Hk by (rewrite (Permutation_length HP); lia).
  destruct (sorted_split sorted k HS Hk) as [Hlo Hhi]. split; [|split].
  - apply list_elem_of_In, nth_In. exact Hk.
  - pose proof (filter_length_le_take _ sorted (S k) Hlo ltac:(lia)). lia.
  - assert (length (filter (fun x => (x < nth k sorted 0)%Z) sorted) <= k)%nat; [|lia].
    apply filter_length_ge_drop. eapply Forall_impl; [exact Hhi|]. simpl. lia.
Qed.

(** An instance at four samples. *)
Lemma nearestRank_is_quantile_witness :
  5 ∈ [9; 5; 1; 3] /\
  75 * 4 <= 100 * Z.of_nat (length (filter (fun x => x <= 5) [9; 5; 1; 3])) /\
  100 * Z.of_nat (length (filter (fun x => x < 5) [9; 5; 1; 3])) < 75 * 4.
Proof. exact (nearestRank_is_quantile [9; 5; 1; 3] 75 ltac:(done) ltac:(lia)). Defined.
