(* ===== verification/Store.v ===== *)
(** * The MessageStore port (chatserver/include/app/MessageStore.hpp)

    [MessageStore] lists the operations of the port.  [StoreView] is what a
    client can observe of a store; the [spec_*] relations say what each
    operation promises in terms of the view, and [MessageStoreLaws] packages
    the promise.  A failing operation throws and leaves the view unchanged.
    The coordinator and the messaging module are proved against this class. *)

From S2P Require Import Prelude DomainTypes.

Open Scope Z_scope.
Open Scope eff_scope.

Class MessageStore (S : Type) := {
  findAccepted : string -> UserId -> eff exn S (option Message);
  getOrCreateConversation : SessionIdentity -> SendMessageCommand -> eff exn S ConversationId;
  insertMessage : Message -> eff exn S Message;
  insertDelivery : Delivery -> eff exn S unit;
  updateDelivery : Delivery -> eff exn S unit;
  deliveriesByRecipient : UserId -> eff exn S (list Delivery);
  deliveriesByMessage : MessageId -> eff exn S (list Delivery);
  findMessage : MessageId -> eff exn S (option Message);
  deliveriesDueForRetry : Z -> Z -> eff exn S (list Delivery);
  timeGranularityMs : S -> Z;
  expireDeliveries : Z -> Z -> eff exn S Z;
  expireDeliveriesDetailed : Z -> Z -> eff exn S (Z * list ExpiredDeliveryRecord);
  cleanupDeliveries : Z -> Z -> Z -> eff exn S Z;
  claimOutboxEvents : Z -> string -> Z -> Z -> eff exn S (list OutboxEvent);
  markOutboxProcessed : Z -> Z -> eff exn S unit;
  markOutboxPoisoned : Z -> Z -> eff exn S unit;
  findOutboxEvent : Z -> eff exn S (option OutboxEvent);
  poisonedOutboxEvents : Z -> eff exn S (list OutboxEvent);
  countUnprocessedOutboxEvents : eff exn S Z;
  recordDeadLetter : DeadLetterRecord -> eff exn S unit;
  deadLetters : Z -> eff exn S (list DeadLetterRecord);
}.

(** ** What a client observes *)

(** The participants that identify a conversation: an unordered pair of users
    for a direct message, a group otherwise. *)
Inductive ConvKey := DirectConv (low high : UserId) | GroupConv (g : GroupId).

#[export] Instance ConvKey_eq_dec : EqDecision ConvKey.
Proof. solve_decision. Defined.

#[export] Instance ConvKey_countable : Countable ConvKey.
Proof.
  refine (inj_countable'
    (fun k => match k with DirectConv l h => inl (l, h) | GroupConv g => inr g end)
    (fun x => match x with inl (l, h) => DirectConv l h | inr g => GroupConv g end) _).
  by intros [].
Defined.

Definition convKey (sender : SessionIdentity) (cmd : SendMessageCommand) : ConvKey :=
  match kind cmd with
  | Direct => DirectConv (Z.min (userId sender) (directRecipient cmd))
                         (Z.max (userId sender) (directRecipient cmd))
  | Group => GroupConv (groupId cmd)
  end.

Record StoreView := mkView {
  v_conversations : gmap ConvKey ConversationId;
  v_messages : gmap MessageId Message;
  v_accepted : gmap (UserId * string) Message;
  v_deliveries : gmap (MessageId * UserId) Delivery;
  v_outbox : gmap Z OutboxEvent;
  v_deadLetters : list DeadLetterRecord;
}.

Definition set_deliveries (ds : gmap (MessageId * UserId) Delivery) (v : StoreView) : StoreView :=
  mkView (v_conversations v) (v_messages v) (v_accepted v) ds (v_outbox v) (v_deadLetters v).

Definition set_outbox (ob : gmap Z OutboxEvent) (v : StoreView) : StoreView :=
  mkView (v_conversations v) (v_messages v) (v_accepted v) (v_deliveries v) ob (v_deadLetters v).

Definition set_conversations (cs : gmap ConvKey ConversationId) (v : StoreView) : StoreView :=
  mkView cs (v_messages v) (v_accepted v) (v_deliveries v) (v_outbox v) (v_deadLetters v).

Definition set_deadLetters (l : list DeadLetterRecord) (v : StoreView) : StoreView :=
  mkView (v_conversations v) (v_messages v) (v_accepted v) (v_deliveries v) (v_outbox v) l.

(** Rows are returned with the sequence of their message filled in. *)
Definition fill (v : StoreView) (d : Delivery) : Delivery :=
  match v_messages v !! dl_messageId d with
  | Some m => with_sequence (msg_sequence m) d
  | None => d
  end.

(** ** The promise of each operation *)

Definition spec_rows (v : StoreView) (sel : Delivery -> Prop) (l : list Delivery) : Prop :=
  NoDup (dl_key <$> l) /\
  forall d, d ∈ l <->
    exists k d0, v_deliveries v !! k = Some d0 /\ sel d0 /\ d = fill v d0.

Definition spec_conversation (k : ConvKey) (v : StoreView) (c : Z) (v' : StoreView) : Prop :=
  match v_conversations v !! k with
  | Some c0 => c = c0 /\ v' = v
  | None => v' = set_conversations (<[k := c]> (v_conversations v)) v /\
            forall k' c', v_conversations v !! k' = Some c' -> c' <> c
  end.

(** The accepted message: the draft with a fresh identity and the next sequence
    of its conversation; one outbox event is written with it. *)
Definition spec_insertMessage (draft : Message) (v : StoreView) (m : Message) (v' : StoreView) : Prop :=
  m = mkMessage (msg_id m) (msg_conversationId draft) (msg_sequence m)
        (msg_senderId draft) (msg_command draft) (msg_acceptedAtMs draft) /\
  v_messages v !! msg_id m = None /\
  (forall i m', v_messages v !! i = Some m' ->
     msg_conversationId m' = msg_conversationId m -> msg_sequence m' < msg_sequence m) /\
  v_messages v' = <[msg_id m := m]> (v_messages v) /\
  v_accepted v' =
    (let k := (msg_senderId m, clientMessageId (msg_command m)) in
     match v_accepted v !! k with Some _ => v_accepted v | None => <[k := m]> (v_accepted v) end) /\
  v_conversations v' = v_conversations v /\
  v_deliveries v' = v_deliveries v /\
  v_deadLetters v' = v_deadLetters v /\
  exists ev, v_outbox v !! ev_id ev = None /\
    v_outbox v' = <[ev_id ev := ev]> (v_outbox v) /\
    ev_aggregateMessageId ev = msg_id m /\
    ev_eventType ev = "MessageAccepted"%string /\
    ev_availableAtMs ev = msg_acceptedAtMs m /\
    ev_leaseOwner ev = EmptyString /\ ev_processedAtMs ev = 0.

Definition view_insertDelivery (d : Delivery) (v : StoreView) : StoreView :=
  match v_deliveries v !! dl_key d with
  | Some _ => v
  | None => set_deliveries (<[dl_key d := d]> (v_deliveries v)) v
  end.

Definition view_updateDelivery (d : Delivery) (v : StoreView) : StoreView :=
  match v_deliveries v !! dl_key d with
  | Some _ => set_deliveries (<[dl_key d := d]> (v_deliveries v)) v
  | None => v
  end.

Definition due_for_retry (now : Z) (d : Delivery) : Prop :=
  dl_state d = InFlight /\ 0 < dl_nextAttemptAtMs d <= now.

Definition spec_due (now limit : Z) (v : StoreView) (l : list Delivery) : Prop :=
  NoDup (dl_key <$> l) /\
  Z.of_nat (length l) <= limit /\
  (forall d, d ∈ l -> due_for_retry now d /\ exists k, v_deliveries v !! k = Some d) /\
  (Z.of_nat (length l) < limit ->
   forall k d, v_deliveries v !! k = Some d -> due_for_retry now d -> d ∈ l).

(** Rows past their retention deadline become Expired; a row not reported is
    untouched. *)
Definition spec_expire (now limit : Z) (v : StoreView)
    (r : Z * list ExpiredDeliveryRecord) (v' : StoreView) : Prop :=
  r.1 = Z.of_nat (length r.2) /\ r.1 <= limit /\
  v' = set_deliveries (v_deliveries v') v /\
  forall k,
    (exists x d, x ∈ r.2 /\ k = (ex_messageId x, ex_recipient x) /\
       v_deliveries v !! k = Some d /\
       isTerminal (dl_state d) = false /\ 0 < dl_expiresAtMs d <= now /\
       ex_fromState x = dl_state d /\
       v_deliveries v' !! k = Some (with_state Expired d)) \/
    ((forall x, x ∈ r.2 -> k <> (ex_messageId x, ex_recipient x)) /\
     v_deliveries v' !! k = v_deliveries v !! k).

(** Cleanup only removes terminal rows whose retention is over. *)
Definition spec_cleanup (ackedBefore expiredBefore : Z) (v v' : StoreView) : Prop :=
  v' = set_deliveries (v_deliveries v') v /\
  forall k,
    v_deliveries v' !! k = v_deliveries v !! k \/
    exists d, v_deliveries v !! k = Some d /\ v_deliveries v' !! k = None /\
      ((dl_state d = Acknowledged /\ 0 < dl_acknowledgedAtMs d <= ackedBefore) \/
       (dl_state d = Expired /\ 0 < dl_expiresAtMs d <= expiredBefore)).

(** An event can be claimed when it is visible, unprocessed and unleased (or its
    lease has run out). *)
Definition claimable_event (now : Z) (e : OutboxEvent) : Prop :=
  ev_processedAtMs e = 0 /\ ev_availableAtMs e <= now /\
  (ev_leaseOwner e = EmptyString \/ ev_leaseUntilMs e <= now).

Definition claimed_event (owner : string) (until : Z) (e : OutboxEvent) : OutboxEvent :=
  mkOutboxEvent (ev_id e) (ev_aggregateMessageId e) (ev_eventType e) (ev_payload e)
    (ev_availableAtMs e) owner until (u32 (ev_attemptCount e + 1)) (ev_processedAtMs e).

Definition spec_claim (now : Z) (owner : string) (until limit : Z) (v : StoreView)
    (l : list OutboxEvent) (v' : StoreView) : Prop :=
  v' = set_outbox (v_outbox v') v /\
  NoDup (ev_id <$> l) /\
  Z.of_nat (length l) <= limit /\
  (forall k e, v_outbox v !! k = Some e ->
     (claimable_event now e /\ claimed_event owner until e ∈ l /\
      v_outbox v' !! k = Some (claimed_event owner until e)) \/
     ((~ claimable_event now e \/ Z.of_nat (length l) = limit) /\
      (forall e', e' ∈ l -> ev_id e' <> k) /\ v_outbox v' !! k = Some e)) /\
  (forall k, v_outbox v !! k = None -> v_outbox v' !! k = None) /\
  (forall e', e' ∈ l -> v_outbox v' !! ev_id e' = Some e').

Definition processed_event (now : Z) (e : OutboxEvent) : OutboxEvent :=
  mkOutboxEvent (ev_id e) (ev_aggregateMessageId e) (ev_eventType e) (ev_payload e)
    (ev_availableAtMs e) EmptyString 0 (ev_attemptCount e) now.

Definition view_markProcessed (i now : Z) (v : StoreView) : StoreView :=
  set_outbox (alter (processed_event now) i (v_outbox v)) v.

Definition same_record (a b : DeadLetterRecord) : bool :=
  bool_decide (dlr_topic a = dlr_topic b) && (dlr_partitionId a =? dlr_partitionId b)
  && (dlr_kafkaOffset a =? dlr_kafkaOffset b).

Definition view_recordDeadLetter (r : DeadLetterRecord) (v : StoreView) : StoreView :=
  if existsb (fun x => same_record x r) (v_deadLetters v) then v
  else set_deadLetters (v_deadLetters v ++ [r]) v.

(** ** The interface *)

Section store_op.
Context {S : Type} (view : S -> StoreView) (store_wf : S -> Prop) (capacity : S -> Z).

(** From a well-formed store, [m] returns with a view related by [R], or throws
    with the view unchanged; [used] bounds how much of the identity space it
    consumes. *)
Definition store_op {A} (used : Z) (m : eff exn S A) (s : S)
    (R : A -> StoreView -> Prop) : Prop :=
  wp m
    (fun a s' => store_wf s' /\ capacity s - used <= capacity s' /\ R a (view s'))
    (fun x s' => x <> Diverges /\ store_wf s' /\ capacity s - used <= capacity s' /\ view s' = view s)
    s.

Lemma store_op_mono {A} used (m : eff exn S A) s (R R' : A -> StoreView -> Prop) :
  (forall a v, R a v -> R' a v) -> store_op used m s R -> store_op used m s R'.
Proof. intros HR Hm. eapply wp_mono; [exact Hm| |auto]. naive_solver. Qed.
End store_op.

Class MessageStoreLaws (S : Type) `{MessageStore S} := {
  view : S -> StoreView;
  store_wf : S -> Prop;
  (** how many messages can still be inserted before identities wrap *)
  capacity : S -> Z;
  outbox_keyed s : store_wf s -> forall k e, v_outbox (view s) !! k = Some e -> ev_id e = k;
  findAccepted_ok c u s : store_wf s ->
    store_op view store_wf capacity 0 (findAccepted c u) s
      (fun r v' => r = v_accepted (view s) !! (u, c) /\ v' = view s);
  getOrCreateConversation_ok p cmd s : store_wf s -> 0 < capacity s ->
    store_op view store_wf capacity 1 (getOrCreateConversation p cmd) s
      (spec_conversation (convKey p cmd) (view s));
  insertMessage_ok draft s : store_wf s -> 0 < capacity s ->
    store_op view store_wf capacity 1 (insertMessage draft) s
      (spec_insertMessage draft (view s));
  insertDelivery_ok d s : store_wf s ->
    store_op view store_wf capacity 0 (insertDelivery d) s
      (fun _ v' => v' = view_insertDelivery d (view s));
  updateDelivery_ok d s : store_wf s ->
    store_op view store_wf capacity 0 (updateDelivery d) s
      (fun _ v' => v' = view_updateDelivery d (view s));
  deliveriesByRecipient_ok u s : store_wf s ->
    store_op view store_wf capacity 0 (deliveriesByRecipient u) s
      (fun l v' => v' = view s /\ spec_rows (view s) (fun d => dl_recipient d = u) l);
  deliveriesByMessage_ok i s : store_wf s ->
    store_op view store_wf capacity 0 (deliveriesByMessage i) s
      (fun l v' => v' = view s /\ spec_rows (view s) (fun d => dl_messageId d = i) l);
  findMessage_ok i s : store_wf s ->
    store_op view store_wf capacity 0 (findMessage i) s
      (fun r v' => r = v_messages (view s) !! i /\ v' = view s);
  deliveriesDueForRetry_ok now limit s : store_wf s -> 0 <= limit ->
    store_op view store_wf capacity 0 (deliveriesDueForRetry now limit) s
      (fun l v' => v' = view s /\ spec_due now limit (view s) l);
  timeGranularityMs_ok s : 0 < timeGranularityMs s < 2 ^ 32;
  expireDeliveriesDetailed_ok now limit s : store_wf s -> 0 <= limit < 2 ^ 32 ->
    store_op view store_wf capacity 0 (expireDeliveriesDetailed now limit) s
      (spec_expire now limit (view s));
  expireDeliveries_ok now limit s : store_wf s -> 0 <= limit < 2 ^ 32 ->
    store_op view store_wf capacity 0 (expireDeliveries now limit) s
      (fun n v' => exists out, spec_expire now limit (view s) (n, out) v');
  cleanupDeliveries_ok a e limit s : store_wf s -> 0 <= limit ->
    store_op view store_wf capacity 0 (cleanupDeliveries a e limit) s
      (fun _ v' => spec_cleanup a e (view s) v');
  claimOutboxEvents_ok now owner until limit s : store_wf s -> 0 <= limit ->
    store_op view store_wf capacity 0 (claimOutboxEvents now owner until limit) s
      (spec_claim now owner until limit (view s));
  markOutboxProcessed_ok i now s : store_wf s ->
    store_op view store_wf capacity 0 (markOutboxProcessed i now) s
      (fun _ v' => v' = view_markProcessed i now (view s));
  markOutboxPoisoned_ok i now s : store_wf s ->
    store_op view store_wf capacity 0 (markOutboxPoisoned i now) s
      (fun _ v' => v' = view s);
  countUnprocessedOutboxEvents_ok s : store_wf s ->
    store_op view store_wf capacity 0 countUnprocessedOutboxEvents s
      (fun n v' => v' = view s /\
         n = u64 (Z.of_nat (size (filter (fun ke => ev_processedAtMs ke.2 = 0) (v_outbox (view s))))));
  recordDeadLetter_ok r s : store_wf s ->
    store_op view store_wf capacity 0 (recordDeadLetter r) s
      (fun _ v' => v' = view_recordDeadLetter r (view s));
}.
