(* ===== verification/Json.v ===== *)
(** * JSON values

    The sources use the vendored nlohmann::json (thirdparty/json.hpp).  Values
    and object lookup are modelled; the text codec is a parameter, [JsonLib],
    with the documented round trip as a law ([JsonLaws]). *)

From S2P Require Import Prelude.
From Stdlib Require Import QArith.

Open Scope Z_scope.

Inductive Json :=
| JNull
| JBool (b : bool)
| JInt (z : Z)                       (**r number_integer or number_unsigned *)
| JFloat (q : Q)                     (**r number_float *)
| JStr (s : string)
| JArr (l : list Json)
| JObj (fields : list (string * Json)).  (**r keys in order, each once *)

(** [j.find(key)] on an object. *)
Fixpoint assoc (k : string) (fields : list (string * Json)) : option Json :=
  match fields with
  | [] => None
  | (k', v) :: rest => if bool_decide (k = k') then Some v else assoc k rest
  end.

Definition jfield (k : string) (j : Json) : option Json :=
  match j with JObj fields => assoc k fields | _ => None end.

(** Values that survive a text round trip unchanged: no floating-point numbers,
    integers of 64 bits, strings of printable ASCII. *)
Definition asciiText (s : string) : bool :=
  forallb (fun c => (32 <=? Z.of_nat (Ascii.nat_of_ascii c)) &&
                    (Z.of_nat (Ascii.nat_of_ascii c) <=? 126))
          (String.list_ascii_of_string s).

Fixpoint plain (j : Json) : bool :=
  match j with
  | JNull | JBool _ => true
  | JInt z => (- 2 ^ 63 <=? z) && (z <? 2 ^ 64)
  | JFloat _ => false
  | JStr s => asciiText s
  | JArr l => forallb plain l
  | JObj fields => forallb (fun kv => asciiText kv.1 && plain kv.2) fields
  end.

(** The text codec: [dump] and [parse] (a parse error is [None]). *)
Class JsonLib := {
  json_dump : Json -> string;
  json_parse : string -> option Json;
}.

Class JsonLaws `{JsonLib} := {
  json_roundtrip j : plain j = true -> json_parse (json_dump j) = Some j;
}.
