(* ===== verification/InMemoryStore.v ===== *)
(** * The in-memory adapter (chatserver/src/app/InMemoryMessageStore.cpp)

    Each operation of the adapter, and the proof that the adapter is an
    instance of [MessageStoreLaws]. *)

From S2P Require Import Prelude DomainTypes Json Store.

Open Scope Z_scope.
Open Scope eff_scope.

Record InMemoryMessageStore := mkMem {
  acceptedByKey_ : gmap (Z * string) Message;
  messagesById_ : gmap Z Message;
  directConversations_ : gmap (Z * Z) Z;
  groupConversations_ : gmap Z Z;
  nextSequenceByConversation_ : gmap Z Z;
  deliveries_ : gmap (Z * Z) Delivery;
  outboxEvents_ : gmap Z OutboxEvent;
  deadLetters_ : list DeadLetterRecord;
  nextConversationId_ : Z;
  nextMessageId_ : Z;
  nextOutboxEventId_ : Z;
}.

Definition emptyMem : InMemoryMessageStore := mkMem ∅ ∅ ∅ ∅ ∅ ∅ ∅ [] 1 1 1.

Definition mem_set_deliveries (ds : gmap (Z * Z) Delivery) (s : InMemoryMessageStore) :=
  mkMem (acceptedByKey_ s) (messagesById_ s) (directConversations_ s)
    (groupConversations_ s) (nextSequenceByConversation_ s) ds
    (outboxEvents_ s) (deadLetters_ s) (nextConversationId_ s)
    (nextMessageId_ s) (nextOutboxEventId_ s).

Definition mem_set_outbox (ob : gmap Z OutboxEvent) (s : InMemoryMessageStore) :=
  mkMem (acceptedByKey_ s) (messagesById_ s) (directConversations_ s)
    (groupConversations_ s) (nextSequenceByConversation_ s) (deliveries_ s)
    ob (deadLetters_ s) (nextConversationId_ s)
    (nextMessageId_ s) (nextOutboxEventId_ s).

Definition mem_set_deadLetters (l : list DeadLetterRecord) (s : InMemoryMessageStore) :=
  mkMem (acceptedByKey_ s) (messagesById_ s) (directConversations_ s)
    (groupConversations_ s) (nextSequenceByConversation_ s) (deliveries_ s)
    (outboxEvents_ s) l (nextConversationId_ s)
    (nextMessageId_ s) (nextOutboxEventId_ s).

Module InMemory.
Section ops.
Context `{JsonLib}.

Notation mem_eff := (eff exn InMemoryMessageStore).

(** The command snapshot stored with the outbox event. *)
Definition outboxPayloadJson (cmd : SendMessageCommand) : Json :=
  match kind cmd with
  | Direct => JObj [("direct_recipient"%string, JInt (directRecipient cmd));
                    ("kind"%string, JStr "DIRECT")]
  | Group => JObj [("group_id"%string, JInt (groupId cmd));
                   ("kind"%string, JStr "GROUP");
                   ("members"%string, JArr (map JInt (members cmd)))]
  end.

Definition encodeOutboxPayload (cmd : SendMessageCommand) : string :=
  json_dump (outboxPayloadJson cmd).

Definition findAccepted (clientMessageId : string) (sender : UserId) : mem_eff (option Message) :=
  gets (fun s => acceptedByKey_ s !! (sender, clientMessageId)).

Definition getOrCreateConversation (sender : SessionIdentity) (cmd : SendMessageCommand)
  : mem_eff ConversationId :=
  fun s =>
    match kind cmd with
    | Direct =>
        let low := Z.min (userId sender) (directRecipient cmd) in
        let high := Z.max (userId sender) (directRecipient cmd) in
        match directConversations_ s !! (low, high) with
        | Some c => (s, Ret c)
        | None =>
            let id := nextConversationId_ s in
            (mkMem (acceptedByKey_ s) (messagesById_ s)
               (<[(low, high) := id]> (directConversations_ s))
               (groupConversations_ s) (nextSequenceByConversation_ s)
               (deliveries_ s) (outboxEvents_ s) (deadLetters_ s)
               (u64 (id + 1)) (nextMessageId_ s) (nextOutboxEventId_ s), Ret id)
        end
    | Group =>
        match groupConversations_ s !! groupId cmd with
        | Some c => (s, Ret c)
        | None =>
            let id := nextConversationId_ s in
            (mkMem (acceptedByKey_ s) (messagesById_ s) (directConversations_ s)
               (<[groupId cmd := id]> (groupConversations_ s))
               (nextSequenceByConversation_ s)
               (deliveries_ s) (outboxEvents_ s) (deadLetters_ s)
               (u64 (id + 1)) (nextMessageId_ s) (nextOutboxEventId_ s), Ret id)
        end
    end.

(** [std::map::insert] keeps an existing entry. *)
Definition map_insert_new {K V} `{Countable K} (k : K) (x : V) (m : gmap K V) : gmap K V :=
  match m !! k with Some _ => m | None => <[k := x]> m end.

Definition insertMessage (draft : Message) : mem_eff Message :=
  fun s =>
    let id := nextMessageId_ s in
    let conv := msg_conversationId draft in
    let next := u64 (default 0 (nextSequenceByConversation_ s !! conv) + 1) in
    let m := mkMessage id conv next (msg_senderId draft) (msg_command draft)
               (msg_acceptedAtMs draft) in
    let ev := mkOutboxEvent (nextOutboxEventId_ s) id "MessageAccepted"
                (encodeOutboxPayload (msg_command m)) (msg_acceptedAtMs m)
                EmptyString 0 0 0 in
    (mkMem
       (map_insert_new (msg_senderId m, clientMessageId (msg_command m)) m (acceptedByKey_ s))
       (map_insert_new id m (messagesById_ s))
       (directConversations_ s) (groupConversations_ s)
       (<[conv := next]> (nextSequenceByConversation_ s))
       (deliveries_ s)
       (map_insert_new (ev_id ev) ev (outboxEvents_ s))
       (deadLetters_ s) (nextConversationId_ s)
       (u64 (id + 1)) (u64 (nextOutboxEventId_ s + 1)), Ret m).

Definition insertDelivery (d : Delivery) : mem_eff unit :=
  modify (fun s => mem_set_deliveries (map_insert_new (dl_key d) d (deliveries_ s)) s).

Definition updateDelivery (d : Delivery) : mem_eff unit :=
  modify (fun s =>
    match deliveries_ s !! dl_key d with
    | Some _ => mem_set_deliveries (<[dl_key d := d]> (deliveries_ s)) s
    | None => s
    end).

(** The copy handed out carries the sequence of its message. *)
Definition fillSequence (s : InMemoryMessageStore) (d : Delivery) : Delivery :=
  match messagesById_ s !! dl_messageId d with
  | Some m => with_sequence (msg_sequence m) d
  | None => d
  end.

Fixpoint selectRows (s : InMemoryMessageStore) (sel : Delivery -> bool)
    (items : list (Z * Z * Delivery)) : list Delivery :=
  match items with
  | [] => []
  | (_, d) :: rest =>
      if sel d then fillSequence s d :: selectRows s sel rest else selectRows s sel rest
  end.

Definition deliveriesByRecipient (recipient : UserId) : mem_eff (list Delivery) :=
  gets (fun s => selectRows s (fun d => dl_recipient d =? recipient)
                   (sorted_items pair_le (deliveries_ s))).

Definition deliveriesByMessage (messageId : MessageId) : mem_eff (list Delivery) :=
  gets (fun s => selectRows s (fun d => dl_messageId d =? messageId)
                   (sorted_items pair_le (deliveries_ s))).

Definition findMessage (messageId : MessageId) : mem_eff (option Message) :=
  gets (fun s => messagesById_ s !! messageId).

Definition isDue (nowMs : Z) (d : Delivery) : bool :=
  bool_decide (dl_state d = InFlight) && (0 <? dl_nextAttemptAtMs d)
  && (dl_nextAttemptAtMs d <=? nowMs).

Fixpoint dueLoop (nowMs limit : Z) (items : list (Z * Z * Delivery)) (due : list Delivery)
  : list Delivery :=
  match items with
  | [] => due
  | (_, d) :: rest =>
      if Z.of_nat (length due) <? limit
      then dueLoop nowMs limit rest (if isDue nowMs d then due ++ [d] else due)
      else due
  end.

Definition deliveriesDueForRetry (nowMs limit : Z) : mem_eff (list Delivery) :=
  gets (fun s => dueLoop nowMs limit (sorted_items pair_le (deliveries_ s)) []).

Definition isPastDeadline (nowMs : Z) (d : Delivery) : bool :=
  bool_decide (dl_state d ≠ Acknowledged) && bool_decide (dl_state d ≠ Expired)
  && (0 <? dl_expiresAtMs d) && (dl_expiresAtMs d <? nowMs).

(** The scan of [expireDeliveriesDetailed]; [moved] is a uint32_t. *)
Fixpoint expireLoop (nowMs limit : Z) (items : list (Z * Z * Delivery)) (moved : Z)
    (ds : gmap (Z * Z) Delivery) (out : list ExpiredDeliveryRecord)
  : Z * gmap (Z * Z) Delivery * list ExpiredDeliveryRecord :=
  match items with
  | [] => (moved, ds, out)
  | (k, d) :: rest =>
      if moved <? limit then
        if isPastDeadline nowMs d then
          expireLoop nowMs limit rest (u32 (moved + 1))
            (<[k := with_state Expired d]> ds)
            (out ++ [mkExpired (dl_messageId d) (dl_recipient d) (dl_state d)])
        else expireLoop nowMs limit rest moved ds out
      else (moved, ds, out)
  end.

Definition expireDeliveriesDetailed (nowMs limit : Z)
  : mem_eff (Z * list ExpiredDeliveryRecord) :=
  fun s =>
    let '(moved, ds, out) :=
      expireLoop nowMs limit (sorted_items pair_le (deliveries_ s)) 0 (deliveries_ s) [] in
    (mem_set_deliveries ds s, Ret (moved, out)).

(** The same scan without the report. *)
Fixpoint expirePlainLoop (nowMs limit : Z) (items : list (Z * Z * Delivery)) (moved : Z)
    (ds : gmap (Z * Z) Delivery) : Z * gmap (Z * Z) Delivery :=
  match items with
  | [] => (moved, ds)
  | (k, d) :: rest =>
      if moved <? limit then
        if isPastDeadline nowMs d then
          expirePlainLoop nowMs limit rest (u32 (moved + 1))
            (<[k := with_state Expired d]> ds)
        else expirePlainLoop nowMs limit rest moved ds
      else (moved, ds)
  end.

Definition expireDeliveries (nowMs limit : Z) : mem_eff Z :=
  fun s =>
    let '(moved, ds) :=
      expirePlainLoop nowMs limit (sorted_items pair_le (deliveries_ s)) 0 (deliveries_ s) in
    (mem_set_deliveries ds s, Ret moved).

Definition dueAcked (ackedBeforeMs : Z) (d : Delivery) : bool :=
  bool_decide (dl_state d = Acknowledged) && (0 <? dl_acknowledgedAtMs d)
  && (dl_acknowledgedAtMs d <=? ackedBeforeMs).

Definition dueExpired (expiredBeforeMs : Z) (d : Delivery) : bool :=
  bool_decide (dl_state d = Expired) && (0 <? dl_expiresAtMs d)
  && (dl_expiresAtMs d <=? expiredBeforeMs).

Fixpoint cleanupLoop (ackedBeforeMs expiredBeforeMs limit : Z)
    (items : list (Z * Z * Delivery)) (removedAcked removedExpired : Z)
    (ds : gmap (Z * Z) Delivery) : Z * Z * gmap (Z * Z) Delivery :=
  match items with
  | [] => (removedAcked, removedExpired, ds)
  | (k, d) :: rest =>
      if dueAcked ackedBeforeMs d && (removedAcked <? limit) then
        cleanupLoop ackedBeforeMs expiredBeforeMs limit rest
          (u32 (removedAcked + 1)) removedExpired (delete k ds)
      else if dueExpired expiredBeforeMs d && (removedExpired <? limit) then
        cleanupLoop ackedBeforeMs expiredBeforeMs limit rest
          removedAcked (u32 (removedExpired + 1)) (delete k ds)
      else cleanupLoop ackedBeforeMs expiredBeforeMs limit rest removedAcked removedExpired ds
  end.

Definition cleanupDeliveries (ackedBeforeMs expiredBeforeMs limit : Z) : mem_eff Z :=
  fun s =>
    let '(a, e, ds) := cleanupLoop ackedBeforeMs expiredBeforeMs limit
      (sorted_items pair_le (deliveries_ s)) 0 0 (deliveries_ s) in
    (mem_set_deliveries ds s, Ret (u32 (a + e))).

Definition isClaimable (nowMs : Z) (e : OutboxEvent) : bool :=
  (ev_processedAtMs e =? 0) && (ev_availableAtMs e <=? nowMs)
  && (bool_decide (ev_leaseOwner e = EmptyString) || (ev_leaseUntilMs e <=? nowMs)).

Fixpoint claimLoop (nowMs : Z) (leaseOwner : string) (leaseUntilMs limit : Z)
    (items : list (Z * OutboxEvent)) (ob : gmap Z OutboxEvent) (out : list OutboxEvent)
  : gmap Z OutboxEvent * list OutboxEvent :=
  match items with
  | [] => (ob, out)
  | (k, e) :: rest =>
      if Z.of_nat (length out) <? limit then
        if isClaimable nowMs e then
          let e' := claimed_event leaseOwner leaseUntilMs e in
          claimLoop nowMs leaseOwner leaseUntilMs limit rest (<[k := e']> ob) (out ++ [e'])
        else claimLoop nowMs leaseOwner leaseUntilMs limit rest ob out
      else (ob, out)
  end.

Definition claimOutboxEvents (nowMs : Z) (leaseOwner : string) (leaseUntilMs limit : Z)
  : mem_eff (list OutboxEvent) :=
  fun s =>
    let '(ob, out) := claimLoop nowMs leaseOwner leaseUntilMs limit
      (sorted_items Z.le (outboxEvents_ s)) (outboxEvents_ s) [] in
    (mem_set_outbox ob s, Ret out).

Definition markOutboxProcessed (eventId nowMs : Z) : mem_eff unit :=
  modify (fun s =>
    match outboxEvents_ s !! eventId with
    | None => s
    | Some e => mem_set_outbox (<[eventId := processed_event nowMs e]> (outboxEvents_ s)) s
    end).

Definition markOutboxPoisoned (eventId nowMs : Z) : mem_eff unit := ret tt.

Definition findOutboxEvent (eventId : Z) : mem_eff (option OutboxEvent) :=
  gets (fun s => outboxEvents_ s !! eventId).

Fixpoint poisonedLoop (limit : Z) (items : list (Z * OutboxEvent)) (out : list OutboxEvent)
  : list OutboxEvent :=
  match items with
  | [] => out
  | (_, e) :: rest =>
      if Z.of_nat (length out) <? limit
      then poisonedLoop limit rest (if ev_processedAtMs e =? 0 then out ++ [e] else out)
      else out
  end.

Definition poisonedOutboxEvents (limit : Z) : mem_eff (list OutboxEvent) :=
  gets (fun s => poisonedLoop limit (sorted_items Z.le (outboxEvents_ s)) []).

Fixpoint countLoop (items : list (Z * OutboxEvent)) (n : Z) : Z :=
  match items with
  | [] => n
  | (_, e) :: rest => countLoop rest (if ev_processedAtMs e =? 0 then u64 (n + 1) else n)
  end.

Definition countUnprocessedOutboxEvents : mem_eff Z :=
  gets (fun s => countLoop (sorted_items Z.le (outboxEvents_ s)) 0).

Fixpoint hasRecord (r : DeadLetterRecord) (l : list DeadLetterRecord) : bool :=
  match l with
  | [] => false
  | x :: rest => if same_record x r then true else hasRecord r rest
  end.

Definition recordDeadLetter (r : DeadLetterRecord) : mem_eff unit :=
  modify (fun s =>
    if hasRecord r (deadLetters_ s) then s
    else mem_set_deadLetters (deadLetters_ s ++ [r]) s).

Definition deadLetters (limit : Z) : mem_eff (list DeadLetterRecord) :=
  gets (fun s => take (Z.to_nat limit) (deadLetters_ s)).

#[global] Instance store : MessageStore InMemoryMessageStore := {
  Store.findAccepted := findAccepted;
  Store.getOrCreateConversation := getOrCreateConversation;
  Store.insertMessage := insertMessage;
  Store.insertDelivery := insertDelivery;
  Store.updateDelivery := updateDelivery;
  Store.deliveriesByRecipient := deliveriesByRecipient;
  Store.deliveriesByMessage := deliveriesByMessage;
  Store.findMessage := findMessage;
  Store.deliveriesDueForRetry := deliveriesDueForRetry;
  Store.timeGranularityMs := fun _ => 1;
  Store.expireDeliveries := expireDeliveries;
  Store.expireDeliveriesDetailed := expireDeliveriesDetailed;
  Store.cleanupDeliveries := cleanupDeliveries;
  Store.claimOutboxEvents := claimOutboxEvents;
  Store.markOutboxProcessed := markOutboxProcessed;
  Store.markOutboxPoisoned := markOutboxPoisoned;
  Store.findOutboxEvent := findOutboxEvent;
  Store.poisonedOutboxEvents := poisonedOutboxEvents;
  Store.countUnprocessedOutboxEvents := countUnprocessedOutboxEvents;
  Store.recordDeadLetter := recordDeadLetter;
  Store.deadLetters := deadLetters;
}.
End ops.
End InMemory.

(** ** The adapter satisfies the laws of the port *)

Definition mem_conversations (s : InMemoryMessageStore) : gmap ConvKey Z :=
  kmap (fun p : Z * Z => DirectConv p.1 p.2) (directConversations_ s)
  ∪ kmap GroupConv (groupConversations_ s).

Definition mem_view (s : InMemoryMessageStore) : StoreView :=
  mkView (mem_conversations s) (messagesById_ s) (acceptedByKey_ s)
    (deliveries_ s) (outboxEvents_ s) (deadLetters_ s).

Record mem_wf (s : InMemoryMessageStore) : Prop := {
  wf_messages : forall i m, messagesById_ s !! i = Some m ->
    1 <= i < nextMessageId_ s /\
    msg_sequence m <= default 0 (nextSequenceByConversation_ s !! msg_conversationId m);
  wf_sequences : forall c n, nextSequenceByConversation_ s !! c = Some n ->
    0 <= n < nextMessageId_ s;
  wf_direct : forall k c, directConversations_ s !! k = Some c -> c < nextConversationId_ s;
  wf_group : forall k c, groupConversations_ s !! k = Some c -> c < nextConversationId_ s;
  wf_outbox : forall k e, outboxEvents_ s !! k = Some e -> ev_id e = k /\ k < nextOutboxEventId_ s;
  wf_rows : forall k d, deliveries_ s !! k = Some d -> dl_key d = k;
  wf_counters : 1 <= nextConversationId_ s < 2 ^ 64 /\ 1 <= nextMessageId_ s < 2 ^ 64 /\
    1 <= nextOutboxEventId_ s < 2 ^ 64;
}.

Definition mem_capacity (s : InMemoryMessageStore) : Z :=
  Z.min (2 ^ 64 - 1 - nextConversationId_ s)
    (Z.min (2 ^ 64 - 1 - nextMessageId_ s) (2 ^ 64 - 1 - nextOutboxEventId_ s)).

#[export] Instance DirectConv_inj : Inj (=) (=) (fun p : Z * Z => DirectConv p.1 p.2).
Proof. intros [] [] E. simpl in E. congruence. Qed.

#[export] Instance GroupConv_inj : Inj (=) (=) GroupConv.
Proof. intros ?? E. congruence. Qed.

Lemma mem_conversations_direct s l h :
  mem_conversations s !! DirectConv l h = directConversations_ s !! (l, h).
Proof.
  unfold mem_conversations. rewrite lookup_union.
  rewrite (lookup_kmap (fun p : Z * Z => DirectConv p.1 p.2) _ (l, h)).
  rewrite (proj2 (lookup_kmap_None GroupConv _ _)) by done.
  by destruct (directConversations_ s !! (l, h)).
Qed.

Lemma mem_conversations_group s g :
  mem_conversations s !! GroupConv g = groupConversations_ s !! g.
Proof.
  unfold mem_conversations. rewrite lookup_union, (lookup_kmap GroupConv).
  rewrite (proj2 (lookup_kmap_None (fun p : Z * Z => DirectConv p.1 p.2) _ _)) by done.
  by rewrite (left_id_L None _).
Qed.

Lemma mem_conversations_bound s k c :
  mem_wf s -> mem_conversations s !! k = Some c -> c < nextConversationId_ s.
Proof.
  intros Hwf. destruct k; rewrite ?mem_conversations_direct, ?mem_conversations_group;
    [apply (wf_direct _ Hwf)|apply (wf_group _ Hwf)].
Qed.

Lemma emptyMem_wf : mem_wf emptyMem.
Proof. split; simpl; try (intros ?? E; by rewrite lookup_empty in E). lia. Qed.

(** Rows handed out by a selecting scan. *)
Lemma fill_mem `{JsonLib} s d : fill (mem_view s) d = InMemory.fillSequence s d.
Proof. reflexivity. Qed.

Lemma dl_key_fill v d : dl_key (fill v d) = dl_key d.
Proof. unfold fill. by case_match. Qed.

Lemma selectRows_elem `{JsonLib} s (sel : Delivery -> bool) items d :
  d ∈ InMemory.selectRows s sel items <->
  exists k d0, (k, d0) ∈ items /\ sel d0 = true /\ d = fill (mem_view s) d0.
Proof.
  induction items as [|[k d1] rest IH]; simpl.
  { split; [intros Hd; by apply elem_of_nil in Hd|].
    intros (k & d0 & Hin & _). by apply elem_of_nil in Hin. }
  setoid_rewrite elem_of_cons. rewrite <- fill_mem.
  destruct (sel d1) eqn:Es; rewrite ?elem_of_cons, IH; split.
  - intros [->|(k' & d0 & ?)]; [exists k, d1; auto|]. exists k', d0. tauto.
  - intros (k' & d0 & [Heq|Hin] & Hs & ->); [simplify_eq; by left|]. right. eauto.
  - intros (k' & d0 & ?). exists k', d0. tauto.
  - intros (k' & d0 & [Heq|Hin] & Hs & ->); [simplify_eq; congruence|]. eauto.
Qed.

Lemma selectRows_nodup `{JsonLib} s (sel : Delivery -> bool) items :
  NoDup items.*1 -> (forall k d, (k, d) ∈ items -> dl_key d = k) ->
  NoDup (dl_key <$> InMemory.selectRows s sel items).
Proof.
  induction items as [|[k d] rest IH]; simpl; intros Hnd Hkey; [constructor|].
  apply NoDup_cons in Hnd as [Hk Hnd].
  assert (NoDup (dl_key <$> InMemory.selectRows s sel rest)) as IHn.
  { apply IH; [exact Hnd|intros; apply Hkey; by right]. }
  destruct (sel d); [|exact IHn]. simpl. apply NoDup_cons. split; [|exact IHn].
  intros Hin. apply list_elem_of_fmap in Hin as (d' & Ek & Hin).
  apply selectRows_elem in Hin as (k' & d0 & Hin & _ & ->).
  rewrite <- fill_mem, !dl_key_fill, (Hkey k d), (Hkey k' d0) in Ek; [|by right|by left].
  subst k'. apply Hk. apply list_elem_of_fmap. by exists (k, d0).
Qed.

Lemma selectRows_spec `{JsonLib} s (sel : Delivery -> bool) :
  mem_wf s ->
  spec_rows (mem_view s) (fun d => sel d = true)
    (InMemory.selectRows s sel (sorted_items pair_le (deliveries_ s))).
Proof.
  intros Hwf. split.
  - apply selectRows_nodup; [apply NoDup_sorted_items_keys|].
    intros k d Hin. apply elem_of_sorted_items in Hin. by apply (wf_rows _ Hwf).
  - intros d. rewrite selectRows_elem. by setoid_rewrite elem_of_sorted_items.
Qed.

(** ** Bounded scans *)

Section scans.
Context `{JsonLib}.

Lemma isDue_spec now d : InMemory.isDue now d = true <-> due_for_retry now d.
Proof.
  unfold InMemory.isDue, due_for_retry.
  rewrite !andb_true_iff, bool_decide_eq_true, Z.ltb_lt, Z.leb_le. tauto.
Qed.

(** The scan returns the first [limit] due rows, in key order. *)
Lemma dueLoop_take now limit items acc :
  Z.of_nat (length acc) <= limit ->
  InMemory.dueLoop now limit items acc =
  acc ++ take (Z.to_nat limit - length acc)
           (filter (fun d => InMemory.isDue now d = true) items.*2).
Proof.
  revert acc. induction items as [|[k d] rest IH]; intros acc Hacc; simpl.
  { change (filter _ []) with (@nil Delivery). by rewrite take_nil, app_nil_r. }
  destruct (Z.ltb_spec (Z.of_nat (length acc)) limit).
  - rewrite filter_cons. destruct (InMemory.isDue now d) eqn:Ed.
    + rewrite decide_True by done. rewrite IH by (rewrite length_app; simpl; lia).
      rewrite length_app, <- app_assoc. simpl. f_equal.
      replace (Z.to_nat limit - length acc)%nat
        with (S (Z.to_nat limit - (length acc + 1))) by lia. done.
    + rewrite decide_False by done. by apply IH.
  - replace (Z.to_nat limit - length acc)%nat with 0%nat by lia. by rewrite app_nil_r.
Qed.

Lemma dueLoop_spec now limit s :
  mem_wf s -> 0 <= limit ->
  spec_due now limit (mem_view s)
    (InMemory.dueLoop now limit (sorted_items pair_le (deliveries_ s)) []).
Proof.
  intros Hwf Hl. rewrite dueLoop_take by (simpl; lia). simpl.
  rewrite Nat.sub_0_r. set (rows := filter _ _).
  assert (forall d, d ∈ rows <-> due_for_retry now d /\ exists k, deliveries_ s !! k = Some d) as Hrows.
  { intros d. unfold rows. rewrite list_elem_of_filter, isDue_spec, list_elem_of_fmap.
    split; intros [? Hx]; split; auto.
    - destruct Hx as ([k d'] & -> & Hin). apply elem_of_sorted_items in Hin. by exists k.
    - destruct Hx as [k Hk]. exists (k, d). split; [done|]. by apply elem_of_sorted_items. }
  assert (NoDup (dl_key <$> rows)) as Hnd.
  { assert (sublist (dl_key <$> rows) (sorted_items pair_le (deliveries_ s)).*1) as Hsub.
    { replace ((sorted_items pair_le (deliveries_ s)).*1)
        with (dl_key <$> (sorted_items pair_le (deliveries_ s)).*2).
      - apply fmap_sublist, sublist_filter.
      - rewrite <- list_fmap_compose. apply list_fmap_ext. intros i [k d] Hi.
        apply list_elem_of_lookup_2, elem_of_sorted_items in Hi.
        by apply (wf_rows _ Hwf) in Hi. }
    eapply sublist_NoDup, Hsub. apply NoDup_sorted_items_keys. }
  split; [|split; [|split]].
  - rewrite fmap_take. eapply sublist_NoDup; [exact Hnd|apply sublist_take].
  - rewrite length_take. lia.
  - intros d Hd. apply elem_of_take in Hd as (i & Hi & _).
    apply Hrows. by eapply list_elem_of_lookup_2.
  - rewrite length_take. intros Hlt k d Hk Hdue. rewrite take_ge by lia.
    apply Hrows. eauto.
Qed.

(** What a scan that moves rows to Expired did, with respect to the map it
    started from. *)
Definition expired_by (now : Z) (news : list ExpiredDeliveryRecord)
    (ds ds' : gmap (Z * Z) Delivery) (k : Z * Z) : Prop :=
  (exists x d, x ∈ news /\ k = (ex_messageId x, ex_recipient x) /\
     ds !! k = Some d /\ InMemory.isPastDeadline now d = true /\
     ex_fromState x = dl_state d /\ ds' !! k = Some (with_state Expired d)) \/
  ((forall x, x ∈ news -> k <> (ex_messageId x, ex_recipient x)) /\ ds' !! k = ds !! k).

Lemma expired_by_cons now d news ds ds' k0 :
  ds !! dl_key d = Some d -> InMemory.isPastDeadline now d = true ->
  expired_by now news (<[dl_key d := with_state Expired d]> ds) ds' k0 ->
  expired_by now (mkExpired (dl_messageId d) (dl_recipient d) (dl_state d) :: news) ds ds' k0.
Proof.
  intros Hd Hpast Hby. set (x0 := mkExpired _ _ _).
  destruct (decide (k0 = dl_key d)) as [->|Hne].
  - left. destruct Hby as [(x & d0 & _ & _ & Hl & Hp & _)|[_ He]].
    { by rewrite lookup_insert_eq in Hl; simplify_eq. }
    exists x0, d. rewrite He, lookup_insert_eq. split; [by left|]. done.
  - destruct Hby as [(x & d0 & Hx & Hk & Hl & Hrest)|[Hn He]].
    + left. exists x, d0. rewrite lookup_insert_ne in Hl by done. split; [by right|]. tauto.
    + right. rewrite lookup_insert_ne in He by done. split; [|exact He].
      intros x [->|Hx]%elem_of_cons; [exact Hne|by apply Hn].
Qed.

Lemma expireLoop_spec now limit items moved ds out moved' ds' out' :
  0 <= moved <= limit -> limit < 2 ^ 32 -> NoDup items.*1 ->
  (forall k d, (k, d) ∈ items -> dl_key d = k /\ ds !! k = Some d) ->
  InMemory.expireLoop now limit items moved ds out = (moved', ds', out') ->
  exists news, out' = out ++ news /\ moved' = moved + Z.of_nat (length news) /\
    moved' <= limit /\ forall k, expired_by now news ds ds' k.
Proof.
  revert moved ds out. induction items as [|[k d] rest IH]; simpl; intros moved ds out Hm Hl Hnd Hit E.
  { simplify_eq. exists []. rewrite app_nil_r. simpl. repeat split; try lia.
    intros k. right. split; [|done]. intros x Hx. by apply elem_of_nil in Hx. }
  apply NoDup_cons in Hnd as [Hk Hnd].
  destruct (Z.ltb_spec moved limit).
  2:{ simplify_eq. exists []. rewrite app_nil_r. simpl. repeat split; try lia.
      intros k'. right. split; [|done]. intros x Hx. by apply elem_of_nil in Hx. }
  destruct (Hit k d ltac:(by left)) as [Hkd Hds].
  destruct (InMemory.isPastDeadline now d) eqn:Hp.
  - unfold u32 in E. rewrite wrapU_small in E by lia.
    apply IH in E as (news & -> & -> & Hle & Hby); [|lia|lia|done|].
    + exists (mkExpired (dl_messageId d) (dl_recipient d) (dl_state d) :: news).
      rewrite <- app_assoc. cbn [length app]. repeat split; try lia.
      intros k0. apply expired_by_cons; [by rewrite Hkd|done|]. rewrite Hkd. apply Hby.
    + intros k' d' Hin. destruct (Hit k' d' ltac:(by right)) as [? Hd']. split; [done|].
      rewrite lookup_insert_ne; [done|]. intros <-. apply Hk.
      apply list_elem_of_fmap. by exists (k, d').
  - apply IH in E; try done. intros k' d' Hin. apply Hit. by right.
Qed.

Lemma isPastDeadline_spec now d :
  InMemory.isPastDeadline now d = true ->
  isTerminal (dl_state d) = false /\ 0 < dl_expiresAtMs d <= now.
Proof.
  unfold InMemory.isPastDeadline. rewrite !andb_true_iff, !bool_decide_eq_true, !Z.ltb_lt.
  intros [[[H1 H2] H3] H4]. split; [|lia]. by destruct (dl_state d).
Qed.

(** The two scans do the same work; one also reports it. *)
Lemma expirePlainLoop_eq now limit items moved ds out :
  InMemory.expirePlainLoop now limit items moved ds =
  (InMemory.expireLoop now limit items moved ds out).1.
Proof.
  revert moved ds out. induction items as [|[k d] rest IH]; intros; simpl; [done|].
  destruct (moved <? limit); [|done]. destruct (InMemory.isPastDeadline now d); auto.
Qed.

Definition cleaned_by (a e : Z) (ds ds' : gmap (Z * Z) Delivery) (k : Z * Z) : Prop :=
  ds' !! k = ds !! k \/
  exists d, ds !! k = Some d /\ ds' !! k = None /\
    ((dl_state d = Acknowledged /\ 0 < dl_acknowledgedAtMs d <= a) \/
     (dl_state d = Expired /\ 0 < dl_expiresAtMs d <= e)).

Lemma due_cleanup_spec a e d :
  InMemory.dueAcked a d = true \/ InMemory.dueExpired e d = true ->
  (dl_state d = Acknowledged /\ 0 < dl_acknowledgedAtMs d <= a) \/
  (dl_state d = Expired /\ 0 < dl_expiresAtMs d <= e).
Proof.
  unfold InMemory.dueAcked, InMemory.dueExpired.
  rewrite !andb_true_iff, !bool_decide_eq_true, !Z.ltb_lt, !Z.leb_le. tauto.
Qed.

Lemma cleanupLoop_spec a e limit items ra re ds ra' re' ds' :
  NoDup items.*1 -> (forall k d, (k, d) ∈ items -> ds !! k = Some d) ->
  InMemory.cleanupLoop a e limit items ra re ds = (ra', re', ds') ->
  forall k, cleaned_by a e ds ds' k.
Proof.
  revert ra re ds. induction items as [|[k d] rest IH]; simpl; intros ra re ds Hnd Hit E k0.
  { simplify_eq. by left. }
  apply NoDup_cons in Hnd as [Hk Hnd].
  assert (forall k' d', (k', d') ∈ rest -> ds !! k' = Some d') as Hrest
    by (intros; apply Hit; by right).
  assert (forall k' d', (k', d') ∈ rest -> delete k ds !! k' = Some d') as Hdel.
  { intros k' d' Hin. rewrite lookup_delete_ne; [by apply Hrest|]. intros <-.
    apply Hk. apply list_elem_of_fmap. by exists (k, d'). }
  assert (InMemory.dueAcked a d = true \/ InMemory.dueExpired e d = true ->
          cleaned_by a e (delete k ds) ds' k0 -> cleaned_by a e ds ds' k0) as Hstep.
  { intros Hdue%due_cleanup_spec Hc. destruct (decide (k0 = k)) as [->|Hne].
    - right. exists d. split; [apply Hit; by left|]. split; [|exact Hdue].
      destruct Hc as [->|(? & Hx & _)]; [apply lookup_delete_eq|].
      by rewrite lookup_delete_eq in Hx.
    - unfold cleaned_by in *. rewrite lookup_delete_ne in Hc by done. exact Hc. }
  destruct (InMemory.dueAcked a d && (ra <? limit)) eqn:Ea.
  { apply andb_true_iff in Ea as [Ea _]. apply Hstep; [by left|]. eapply IH; eauto. }
  destruct (InMemory.dueExpired e d && (re <? limit)) eqn:Ee; [|eapply IH; eauto].
  apply andb_true_iff in Ee as [Ee _]. apply Hstep; [by right|]. eapply IH; eauto.
Qed.

Lemma isClaimable_spec now e : InMemory.isClaimable now e = true <-> claimable_event now e.
Proof.
  unfold InMemory.isClaimable, claimable_event.
  rewrite !andb_true_iff, orb_true_iff, bool_decide_eq_true, Z.eqb_eq, !Z.leb_le. tauto.
Qed.

(** What the claiming scan of [items] did to [ob], returning [news]. *)
Record claimed_by (now : Z) (owner : string) (until : Z) (full : Prop)
    (items : list (Z * OutboxEvent)) (news : list OutboxEvent)
    (ob ob' : gmap Z OutboxEvent) : Prop := {
  cb_nodup : NoDup (ev_id <$> news);
  cb_news : forall e', e' ∈ news -> ob' !! ev_id e' = Some e' /\ ev_id e' ∈ items.*1;
  cb_old : forall k e, ob !! k = Some e ->
    ((k, e) ∈ items /\ claimable_event now e /\ claimed_event owner until e ∈ news /\
     ob' !! k = Some (claimed_event owner until e)) \/
    (((k, e) ∉ items \/ ~ claimable_event now e \/ full) /\
     (forall e', e' ∈ news -> ev_id e' <> k) /\ ob' !! k = Some e);
  cb_none : forall k, ob !! k = None -> ob' !! k = None;
}.

Lemma claimed_by_nil now owner until full items ob :
  (items = [] \/ full) -> claimed_by now owner until full items [] ob ob.
Proof.
  intros Hf. split; [constructor| | |done].
  - intros e' He. by apply elem_of_nil in He.
  - intros k e He. right. split; [|split; [|done]].
    + destruct Hf as [->|]; [left; apply not_elem_of_nil|by right; right].
    + intros e' He'. by apply elem_of_nil in He'.
Qed.

Lemma claimed_by_skip now owner until full k e items news ob ob' :
  ~ claimable_event now e -> claimed_by now owner until full items news ob ob' ->
  claimed_by now owner until full ((k, e) :: items) news ob ob'.
Proof.
  intros Hn [H1 H2 H3 H4]. split; [done| | |done].
  - intros e' He. destruct (H2 e' He). split; [done|]. by right.
  - intros k0 e0 H0. destruct (H3 k0 e0 H0) as [(?&?&?)|(Ho&?)].
    + left. split; [by right|]. done.
    + right. split; [|done]. destruct Ho as [Ho|Ho]; [|by right].
      destruct (decide ((k0, e0) = (k, e))) as [Heq|Hne]; [|left; by intros [|]%elem_of_cons].
      simplify_eq. right. by left.
Qed.

Lemma claimed_by_cons now owner until full k e items news ob ob' :
  claimable_event now e -> ob !! k = Some e -> ev_id e = k -> k ∉ items.*1 ->
  claimed_by now owner until full items news (<[k := claimed_event owner until e]> ob) ob' ->
  claimed_by now owner until full ((k, e) :: items) (claimed_event owner until e :: news) ob ob'.
Proof.
  intros Hc Hk Hid Hnin [H1 H2 H3 H4].
  remember (claimed_event owner until e) as e' eqn:Ee'.
  assert (ob' !! k = Some e' /\ forall x, x ∈ news -> ev_id x <> k) as [Hk' Hx].
  { destruct (H3 k e' (lookup_insert_eq _ _ _)) as [(Hin & _)|(_ & ? & ?)]; [|done].
    exfalso. apply Hnin. apply list_elem_of_fmap. by exists (k, e'). }
  assert (ev_id e' = k) as Hid' by (subst e'; exact Hid).
  split.
  - rewrite fmap_cons, Hid'. apply NoDup_cons. split; [|exact H1].
    intros (x & Ex & Hin)%list_elem_of_fmap. by apply (Hx x Hin).
  - intros x [->|Hin]%elem_of_cons; [rewrite Hid'; split; [done|by left]|].
    destruct (H2 x Hin). split; [done|by right].
  - intros k0 e0 H0. destruct (decide (k0 = k)) as [->|Hne].
    + rewrite Hk in H0. injection H0 as <-. rewrite <- Ee'.
      left. split; [by left|]. split; [done|]. split; [by left|done].
    + destruct (H3 k0 e0) as [(?&?&?&?)|(Ho&?&?)].
      * by rewrite lookup_insert_ne.
      * left. split; [by right|]. split; [done|]. split; [by right|done].
      * right. split; [|split; [|done]].
        -- destruct Ho as [Ho|Ho]; [|by right]. left. intros [|]%elem_of_cons; [congruence|done].
        -- intros x [->|Hin]%elem_of_cons; [congruence|auto].
  - intros k0 H0. apply H4. rewrite lookup_insert_ne; [done|]. intros <-. congruence.
Qed.

Lemma claimLoop_spec now owner until limit items ob out ob' out' :
  Z.of_nat (length out) <= limit -> NoDup items.*1 ->
  (forall k e, (k, e) ∈ items -> ev_id e = k /\ ob !! k = Some e) ->
  InMemory.claimLoop now owner until limit items ob out = (ob', out') ->
  exists news, out' = out ++ news /\ Z.of_nat (length out') <= limit /\
    claimed_by now owner until (Z.of_nat (length out') = limit) items news ob ob'.
Proof.
  revert ob out. induction items as [|[k e] rest IH]; simpl; intros ob out Hl Hnd Hit E.
  { simplify_eq. exists []. rewrite app_nil_r. split; [done|]. split; [done|].
    apply claimed_by_nil. by left. }
  apply NoDup_cons in Hnd as [Hk Hnd].
  destruct (Hit k e ltac:(by left)) as [Hid Hob].
  destruct (Z.ltb_spec (Z.of_nat (length out)) limit).
  2:{ simplify_eq. exists []. rewrite app_nil_r. split; [done|]. split; [done|].
      apply claimed_by_nil. right. lia. }
  destruct (InMemory.isClaimable now e) eqn:Hc.
  - apply isClaimable_spec in Hc. apply IH in E as (news & -> & Hle & Hcb); [| |done|].
    + exists (claimed_event owner until e :: news). rewrite <- app_assoc in *. simpl in *.
      split; [done|]. split; [done|]. by apply claimed_by_cons.
    + rewrite length_app. simpl. lia.
    + intros k' e' Hin. destruct (Hit k' e' ltac:(by right)) as [? ?]. split; [done|].
      rewrite lookup_insert_ne; [done|]. intros <-. apply Hk.
      apply list_elem_of_fmap. by exists (k, e').
  - assert (~ claimable_event now e) by (rewrite <- isClaimable_spec; congruence).
    apply IH in E as (news & -> & Hle & Hcb); [|done|done|intros; apply Hit; by right].
    exists news. split; [done|]. split; [done|]. by apply claimed_by_skip.
Qed.

Lemma claimOutbox_view s now owner until limit ob' out' :
  mem_wf s -> 0 <= limit ->
  InMemory.claimLoop now owner until limit (sorted_items Z.le (outboxEvents_ s))
    (outboxEvents_ s) [] = (ob', out') ->
  spec_claim now owner until limit (mem_view s) out' (mem_view (mem_set_outbox ob' s)) /\
  (forall k e, ob' !! k = Some e -> ev_id e = k /\ k < nextOutboxEventId_ s).
Proof.
  intros Hwf Hl E. apply claimLoop_spec in E as (news & -> & Hle & [H1 H2 H3 H4]).
  - simpl in *. split; [split; [done|]; split; [done|]; split; [done|]; split; [|split]|].
    + intros k e He. destruct (H3 k e He) as [(?&?&?&?)|(Ho&?&?)]; [by left|right].
      split; [|done]. destruct Ho as [Ho|Ho]; [|done].
      exfalso. apply Ho. by apply elem_of_sorted_items.
    + exact H4.
    + intros e' He'. by apply H2.
    + intros k e He. destruct (outboxEvents_ s !! k) as [e0|] eqn:E0.
      * pose proof (wf_outbox _ Hwf k e0 E0) as [? ?].
        destruct (H3 k e0 E0) as [(?&?&?&?)|(Ho&?&?)]; simplify_eq; done.
      * rewrite (H4 k E0) in He. done.
  - simpl. lia.
  - apply NoDup_sorted_items_keys.
  - intros k e Hin. apply elem_of_sorted_items in Hin. split; [|done].
    by apply (wf_outbox _ Hwf).
Qed.

Lemma countLoop_spec items n :
  isU64 n ->
  InMemory.countLoop items n =
  u64 (n + Z.of_nat (length (filter (fun ke => ev_processedAtMs ke.2 = 0) items))).
Proof.
  revert n. induction items as [|[k e] rest IH]; intros n Hn; simpl.
  { change (filter _ []) with (@nil (Z * OutboxEvent)). simpl. by rewrite Z.add_0_r, u64_small. }
  rewrite filter_cons. simpl. destruct (Z.eqb_spec (ev_processedAtMs e) 0).
  - rewrite decide_True by done. rewrite IH by apply u64_range.
    cbn [length]. unfold u64. rewrite wrapU_add_l. f_equal. lia.
  - rewrite decide_False by done. by apply IH.
Qed.

Lemma size_filter_items (ob : gmap Z OutboxEvent) :
  length (filter (fun ke : Z * OutboxEvent => ev_processedAtMs ke.2 = 0) (sorted_items Z.le ob)) =
  size (filter (fun ke => ev_processedAtMs ke.2 = 0) ob).
Proof.
  rewrite <- length_map_to_list. apply Permutation_length, NoDup_Permutation.
  - apply NoDup_filter, NoDup_sorted_items.
  - apply NoDup_map_to_list.
  - intros [k e]. rewrite list_elem_of_filter, elem_of_sorted_items, elem_of_map_to_list,
      map_lookup_filter_Some. naive_solver.
Qed.

Lemma hasRecord_existsb r l :
  InMemory.hasRecord r l = existsb (fun x => same_record x r) l.
Proof. induction l as [|x l IH]; simpl; [done|]. by destruct (same_record x r). Qed.

Lemma view_same_deliveries s ds :
  mem_view (mem_set_deliveries ds s) = set_deliveries ds (mem_view s).
Proof. reflexivity. Qed.

Lemma mem_set_deliveries_wf s ds :
  mem_wf s -> (forall k d, ds !! k = Some d -> dl_key d = k) -> mem_wf (mem_set_deliveries ds s).
Proof. intros [] Hds. split; auto. Qed.

Lemma insert_rows_wf s d :
  mem_wf s -> mem_wf (mem_set_deliveries (<[dl_key d := d]> (deliveries_ s)) s).
Proof.
  intros Hwf. apply mem_set_deliveries_wf; [done|]. intros k d'.
  rewrite lookup_insert_Some. intros [[<- <-]|[_ Hd]]; [done|]. by apply (wf_rows _ Hwf).
Qed.

Lemma expired_rows_wf s now news ds' :
  mem_wf s -> (forall k, expired_by now news (deliveries_ s) ds' k) ->
  mem_wf (mem_set_deliveries ds' s).
Proof.
  intros Hwf Hby. apply mem_set_deliveries_wf; [done|]. intros k d Hd.
  destruct (Hby k) as [(x & d0 & _ & _ & H0 & _ & _ & He)|[_ He]]; rewrite He in Hd.
  - simplify_eq. by apply (wf_rows _ Hwf) in H0.
  - by apply (wf_rows _ Hwf).
Qed.

Lemma cleaned_rows_wf s a e ds' :
  mem_wf s -> (forall k, cleaned_by a e (deliveries_ s) ds' k) ->
  mem_wf (mem_set_deliveries ds' s).
Proof.
  intros Hwf Hby. apply mem_set_deliveries_wf; [done|]. intros k d Hd.
  destruct (Hby k) as [He|(d0 & _ & He & _)]; rewrite He in Hd; [|done].
  by apply (wf_rows _ Hwf).
Qed.
End scans.

Section laws.
Context `{JsonLib}.

Notation op := (store_op mem_view mem_wf mem_capacity).

(** Operations that only read. *)
Lemma gets_op {A} (f : InMemoryMessageStore -> A) s (R : A -> StoreView -> Prop) :
  mem_wf s -> R (f s) (mem_view s) -> op 0 (gets f) s R.
Proof. intros Hwf HR. split; [done|]. split; [lia|done]. Qed.

Lemma modify_op (f : InMemoryMessageStore -> InMemoryMessageStore) s (R : unit -> StoreView -> Prop) :
  mem_wf (f s) -> mem_capacity (f s) = mem_capacity s -> R tt (mem_view (f s)) ->
  op 0 (modify f) s R.
Proof. intros Hwf Hc HR. split; [done|]. split; [lia|done]. Qed.

(** The state after a new conversation was numbered. *)
Definition add_conversation (dc : gmap (Z * Z) Z) (gc : gmap Z Z) (s : InMemoryMessageStore) :=
  mkMem (acceptedByKey_ s) (messagesById_ s) dc gc (nextSequenceByConversation_ s)
    (deliveries_ s) (outboxEvents_ s) (deadLetters_ s)
    (u64 (nextConversationId_ s + 1)) (nextMessageId_ s) (nextOutboxEventId_ s).

Lemma add_conversation_op k dc gc s :
  mem_wf s -> 0 < mem_capacity s -> mem_conversations s !! k = None ->
  mem_conversations (add_conversation dc gc s) = <[k := nextConversationId_ s]> (mem_conversations s) ->
  (forall x c, dc !! x = Some c -> c <= nextConversationId_ s) ->
  (forall x c, gc !! x = Some c -> c <= nextConversationId_ s) ->
  op 1 (fun s => (add_conversation dc gc s, Ret (nextConversationId_ s))) s
    (spec_conversation k (mem_view s)).
Proof.
  intros Hwf Hcap Hk Hv Hd Hg. unfold mem_capacity in Hcap.
  destruct (wf_counters _ Hwf) as (Hc1 & Hc2 & Hc3).
  assert (u64 (nextConversationId_ s + 1) = nextConversationId_ s + 1) as Eu
    by (apply u64_small; unfold isU64; lia).
  unfold store_op, wp. split; [|split].
  - destruct Hwf. split; simpl; rewrite ?Eu; auto; try lia;
      intros x c Hx; [apply Hd in Hx|apply Hg in Hx]; lia.
  - unfold mem_capacity. simpl. rewrite Eu. lia.
  - unfold spec_conversation. simpl. rewrite Hk. split.
    + unfold mem_view, set_conversations. simpl. by rewrite Hv.
    + intros k' c' Hk'. apply mem_conversations_bound in Hk'; [lia|done].
Qed.

Lemma getOrCreateConversation_op p cmd s :
  mem_wf s -> 0 < mem_capacity s ->
  op 1 (InMemory.getOrCreateConversation p cmd) s (spec_conversation (convKey p cmd) (mem_view s)).
Proof.
  intros Hwf Hcap. unfold store_op, wp, InMemory.getOrCreateConversation, convKey.
  destruct (kind cmd).
  - set (l := Z.min _ _). set (h := Z.max _ _).
    destruct (directConversations_ s !! (l, h)) as [c|] eqn:E.
    { split; [done|]. split; [lia|]. unfold spec_conversation. simpl.
      by rewrite mem_conversations_direct, E. }
    apply (add_conversation_op (DirectConv l h) _ (groupConversations_ s)); auto.
    + by rewrite mem_conversations_direct.
    + unfold mem_conversations. simpl.
      rewrite (kmap_insert (fun p : Z * Z => DirectConv p.1 p.2)). symmetry. apply insert_union_l.
    + intros x c. rewrite lookup_insert_Some. intros [[_ <-]|[_ Hx]]; [lia|].
      apply (wf_direct _ Hwf) in Hx. lia.
    + intros x c Hx. apply (wf_group _ Hwf) in Hx. lia.
  - destruct (groupConversations_ s !! groupId cmd) as [c|] eqn:E.
    { split; [done|]. split; [lia|]. unfold spec_conversation. simpl.
      by rewrite mem_conversations_group, E. }
    apply (add_conversation_op (GroupConv (groupId cmd)) (directConversations_ s)); auto.
    + by rewrite mem_conversations_group.
    + unfold mem_conversations. simpl. rewrite (kmap_insert GroupConv). symmetry.
      apply insert_union_r.
      by apply (proj2 (lookup_kmap_None (fun p : Z * Z => DirectConv p.1 p.2) _ _)).
    + intros x c Hx. apply (wf_direct _ Hwf) in Hx. lia.
    + intros x c. rewrite lookup_insert_Some. intros [[_ <-]|[_ Hx]]; [lia|].
      apply (wf_group _ Hwf) in Hx. lia.
Qed.

Lemma insertMessage_op draft s :
  mem_wf s -> 0 < mem_capacity s ->
  op 1 (InMemory.insertMessage draft) s (spec_insertMessage draft (mem_view s)).
Proof.
  intros Hwf Hcap. pose proof Hwf as [Hm Hs Hd Hg Ho Hr (Hc1 & Hc2 & Hc3)].
  unfold mem_capacity in Hcap.
  assert (messagesById_ s !! nextMessageId_ s = None) as Hfresh.
  { destruct (messagesById_ s !! nextMessageId_ s) eqn:E; [|done]. apply Hm in E. lia. }
  assert (outboxEvents_ s !! nextOutboxEventId_ s = None) as Hfresho.
  { destruct (outboxEvents_ s !! nextOutboxEventId_ s) eqn:E; [|done]. apply Ho in E. lia. }
  assert (0 <= default 0 (nextSequenceByConversation_ s !! msg_conversationId draft)
            < nextMessageId_ s) as Hseq.
  { destruct (nextSequenceByConversation_ s !! msg_conversationId draft) eqn:E; simpl; [|lia].
    by apply Hs in E. }
  unfold store_op, wp, InMemory.insertMessage, InMemory.map_insert_new.
  cbn [ev_id]. rewrite Hfresh, Hfresho.
  rewrite !(u64_small (_ + 1)) by (unfold isU64; lia).
  set (next := default 0 _ + 1) in *. split; [|split].
  - split; simpl; auto; try lia.
    + intros i m. rewrite !lookup_insert_Some. intros [[<- <-]|[Hne Hi]]; simpl.
      { rewrite lookup_insert_eq. simpl. lia. }
      apply Hm in Hi as [? Hle]. split; [lia|].
      destruct (decide (msg_conversationId m = msg_conversationId draft)) as [Ec|Ec].
      * rewrite Ec in *. rewrite lookup_insert_eq. simpl. unfold next. lia.
      * by rewrite lookup_insert_ne.
    + intros c n. rewrite lookup_insert_Some. intros [[<- <-]|[_ Hn]]; [unfold next; lia|].
      apply Hs in Hn. lia.
    + intros k e. rewrite lookup_insert_Some. intros [[<- <-]|[_ He]]; [simpl; lia|].
      apply Ho in He. lia.
  - unfold mem_capacity. simpl. lia.
  - unfold spec_insertMessage. simpl. repeat (split; [done|]). split.
    { intros i m' Hi Hc. apply Hm in Hi as [_ Hle]. rewrite Hc in Hle. unfold next. lia. }
    do 5 (split; [done|]). eexists (mkOutboxEvent (nextOutboxEventId_ s) _ _ _ _ _ _ _ _).
    simpl. split; [exact Hfresho|]. repeat split; reflexivity.
Qed.

Lemma insertDelivery_op d s :
  mem_wf s -> op 0 (InMemory.insertDelivery d) s (fun _ v' => v' = view_insertDelivery d (mem_view s)).
Proof.
  intros Hwf. apply modify_op; [|done|].
  - unfold InMemory.map_insert_new. case_match; [by destruct s|by apply insert_rows_wf].
  - unfold InMemory.map_insert_new, view_insertDelivery. simpl. by case_match; [destruct s|].
Qed.

Lemma updateDelivery_op d s :
  mem_wf s -> op 0 (InMemory.updateDelivery d) s (fun _ v' => v' = view_updateDelivery d (mem_view s)).
Proof.
  intros Hwf. apply modify_op.
  - case_match; [by apply insert_rows_wf|done].
  - by case_match.
  - unfold view_updateDelivery. simpl. by case_match.
Qed.

Lemma deliveriesByRecipient_op u s :
  mem_wf s -> op 0 (InMemory.deliveriesByRecipient u) s
    (fun l v' => v' = mem_view s /\ spec_rows (mem_view s) (fun d => dl_recipient d = u) l).
Proof.
  intros Hwf. apply gets_op; [done|]. split; [done|].
  pose proof (selectRows_spec s (fun d => dl_recipient d =? u) Hwf) as [H1 H2].
  split; [exact H1|]. intros d. rewrite H2. by setoid_rewrite Z.eqb_eq.
Qed.

Lemma deliveriesByMessage_op i s :
  mem_wf s -> op 0 (InMemory.deliveriesByMessage i) s
    (fun l v' => v' = mem_view s /\ spec_rows (mem_view s) (fun d => dl_messageId d = i) l).
Proof.
  intros Hwf. apply gets_op; [done|]. split; [done|].
  pose proof (selectRows_spec s (fun d => dl_messageId d =? i) Hwf) as [H1 H2].
  split; [exact H1|]. intros d. rewrite H2. by setoid_rewrite Z.eqb_eq.
Qed.

Lemma expireDeliveriesDetailed_op now limit s :
  mem_wf s -> 0 <= limit < 2 ^ 32 ->
  op 0 (InMemory.expireDeliveriesDetailed now limit) s (spec_expire now limit (mem_view s)).
Proof.
  intros Hwf Hl. unfold store_op, wp, InMemory.expireDeliveriesDetailed.
  destruct (InMemory.expireLoop _ _ _ _ _ _) as [[moved ds] out] eqn:E.
  apply expireLoop_spec in E as (news & -> & -> & Hle & Hby);
    [|lia|lia|apply NoDup_sorted_items_keys|].
  - split; [by eapply expired_rows_wf|]. split; [apply Z.le_sub_nonneg; done|].
    split; [done|]. split; [done|]. split; [done|]. intros k.
    destruct (Hby k) as [(x & d & ? & ? & ? & Hp & ? & ?)|]; [left|by right].
    apply isPastDeadline_spec in Hp as [? ?]. exists x, d. done.
  - intros k d Hin. apply elem_of_sorted_items in Hin. split; [|done].
    by apply (wf_rows _ Hwf).
Qed.

Lemma expireDeliveries_op now limit s :
  mem_wf s -> 0 <= limit < 2 ^ 32 ->
  op 0 (InMemory.expireDeliveries now limit) s (fun n v' => exists out, spec_expire now limit (mem_view s) (n, out) v').
Proof.
  intros Hwf Hl. pose proof (expireDeliveriesDetailed_op now limit s Hwf Hl) as Hd.
  unfold store_op, wp, InMemory.expireDeliveriesDetailed in Hd. unfold store_op, wp, InMemory.expireDeliveries.
  rewrite (expirePlainLoop_eq _ _ _ _ _ []). destruct (InMemory.expireLoop _ _ _ _ _ _) as [[moved ds] out]. cbn [fst].
  destruct Hd as (H1 & H2 & H3). eauto.
Qed.

Lemma cleanupDeliveries_op a e limit s :
  mem_wf s -> op 0 (InMemory.cleanupDeliveries a e limit) s
    (fun _ v' => spec_cleanup a e (mem_view s) v').
Proof.
  intros Hwf. unfold store_op, wp, InMemory.cleanupDeliveries.
  destruct (InMemory.cleanupLoop _ _ _ _ _ _ _) as [[ra re] ds] eqn:E.
  assert (forall k, cleaned_by a e (deliveries_ s) ds k) as Hby.
  { refine (cleanupLoop_spec _ _ _ _ _ _ _ _ _ _ (NoDup_sorted_items_keys _ _) _ E).
    intros k d Hin. by apply elem_of_sorted_items in Hin. }
  split; [by eapply cleaned_rows_wf|]. split; [apply Z.le_sub_nonneg; done|].
  split; [done|]. exact Hby.
Qed.

Lemma claimOutboxEvents_op now owner until limit s :
  mem_wf s -> 0 <= limit ->
  op 0 (InMemory.claimOutboxEvents now owner until limit) s
    (spec_claim now owner until limit (mem_view s)).
Proof.
  intros Hwf Hl. unfold store_op, wp, InMemory.claimOutboxEvents.
  destruct (InMemory.claimLoop _ _ _ _ _ _ _) as [ob out] eqn:E.
  apply claimOutbox_view in E as [Hspec Hob]; [|done|done].
  split; [|split; [apply Z.le_sub_nonneg; done|exact Hspec]].
  destruct Hwf. by split.
Qed.

Lemma markOutboxProcessed_op i now s :
  mem_wf s -> op 0 (InMemory.markOutboxProcessed i now) s
    (fun _ v' => v' = view_markProcessed i now (mem_view s)).
Proof.
  intros Hwf. apply modify_op.
  - case_match; [|done]. destruct Hwf as [? ? ? ? Hob ? ?]. split; auto. simpl.
    intros k e. rewrite lookup_insert_Some. intros [[<- <-]|[_ He]]; [|by apply Hob].
    simpl. by apply Hob.
  - by case_match.
  - unfold view_markProcessed, mem_view, set_outbox. simpl.
    case_match eqn:E; simpl; f_equal; apply map_eq; intros k;
      destruct (decide (k = i)) as [->|?];
      by rewrite ?lookup_insert_eq, ?lookup_insert_ne, ?lookup_alter_eq, ?lookup_alter_ne, ?E.
Qed.

Lemma countUnprocessed_op s :
  mem_wf s -> op 0 InMemory.countUnprocessedOutboxEvents s
    (fun n v' => v' = mem_view s /\
       n = u64 (Z.of_nat (size (filter (fun ke => ev_processedAtMs ke.2 = 0) (outboxEvents_ s))))).
Proof.
  intros Hwf. apply gets_op; [done|]. split; [done|].
  rewrite countLoop_spec by (unfold isU64; lia). by rewrite Z.add_0_l, size_filter_items.
Qed.

Lemma recordDeadLetter_op r s :
  mem_wf s -> op 0 (InMemory.recordDeadLetter r) s
    (fun _ v' => v' = view_recordDeadLetter r (mem_view s)).
Proof.
  intros Hwf. apply modify_op.
  - case_match; [done|]. destruct Hwf. by split.
  - by case_match.
  - unfold view_recordDeadLetter. simpl. rewrite hasRecord_existsb. by case_match.
Qed.

(** The adapter implements the port. *)
#[export] Instance store_laws : MessageStoreLaws InMemoryMessageStore := {
  view := mem_view;
  store_wf := mem_wf;
  capacity := mem_capacity;
  outbox_keyed s Hwf k e Hk := proj1 (wf_outbox s Hwf k e Hk);
  findAccepted_ok c u s Hwf := gets_op _ s _ Hwf (conj eq_refl eq_refl);
  getOrCreateConversation_ok := getOrCreateConversation_op;
  insertMessage_ok := insertMessage_op;
  insertDelivery_ok := insertDelivery_op;
  updateDelivery_ok := updateDelivery_op;
  deliveriesByRecipient_ok := deliveriesByRecipient_op;
  deliveriesByMessage_ok := deliveriesByMessage_op;
  findMessage_ok i s Hwf := gets_op _ s _ Hwf (conj eq_refl eq_refl);
  deliveriesDueForRetry_ok now limit s Hwf Hl :=
    gets_op _ s _ Hwf (conj eq_refl (dueLoop_spec now limit s Hwf Hl));
  timeGranularityMs_ok s := conj eq_refl eq_refl;
  expireDeliveriesDetailed_ok := expireDeliveriesDetailed_op;
  expireDeliveries_ok := expireDeliveries_op;
  cleanupDeliveries_ok a e limit s Hwf _ := cleanupDeliveries_op a e limit s Hwf;
  claimOutboxEvents_ok := claimOutboxEvents_op;
  markOutboxProcessed_ok := markOutboxProcessed_op;
  markOutboxPoisoned_ok i now s Hwf := gets_op (fun _ => tt) s _ Hwf eq_refl;
  countUnprocessedOutboxEvents_ok := countUnprocessed_op;
  recordDeadLetter_ok := recordDeadLetter_op;
}.
End laws.
