(* ===== verification/World.v ===== *)
(** * The state shared by the messaging components

    The environment of the module (clock, sink, jitter source, metrics clock) is
    the class [Env]; its state is a parameter, so theorems hold for every sink
    and every clock.  [World] gathers what the calls of one [ReliableMessaging]
    instance read and write. *)

From S2P Require Import Prelude DomainTypes Metrics Store.
From Stdlib Require Import QArith.

Open Scope Z_scope.
Open Scope eff_scope.

(** RetryConfig (chatserver/include/app/Config.hpp). *)
Record RetryConfig := mkRetryConfig {
  ackTimeoutMs : Z;
  backoffBaseMs : Z;
  backoffCapMs : Z;
  backoffMultiplier : Z;
  jitterFraction : Q;
  jitterSeed : Z;
  messageRetentionMs : Z;
  ackedRetentionMs : Z;
  expiredRetentionMs : Z;
  cleanupBatch : Z;
  cleanupCycleMs : Z;
  retryBatchLimit : Z;
}.

Definition defaultRetryConfig : RetryConfig :=
  mkRetryConfig 30000 1000 60000 2 (1 # 5) 20260813 (7 * 24 * 3600 * 1000)
    (24 * 3600 * 1000) (24 * 3600 * 1000) 100 (60 * 1000) 500.

(** The environment: [clock_.nowMs()], [sink_.deliver(attempt)] (which may
    throw), the jitter draw [static_cast<int64_t>(delay * (1 + dist(rng_)))]
    with dist uniform on [-fraction, fraction], and the recorder's clock. *)
Class Env (E : Type) := {
  clockNow : E -> E * Z;
  sinkDeliver : DeliveryAttempt -> E -> E * outcome exn DeliverDisposition;
  jitterDraw : Q -> Z -> E -> E * Z;
  env_metrics :: MetricsClock E;
}.

(** State of the DeliveryCoordinator. *)
Record Coordinator := mkCoord {
  leaseMs_ : Z;
  config_ : RetryConfig;
  bootId_ : Z;
  paused_ : gset SessionIdentity;
  activeByUser_ : gmap UserId SessionIdentity;
  observedGenerationByUser_ : gmap UserId Z;
  tickNextAttemptsMs_ : list Z;
}.

Definition newCoordinator (leaseMs : Z) (config : RetryConfig) (bootId : Z) : Coordinator :=
  mkCoord leaseMs config bootId ∅ ∅ ∅ [].

Definition set_paused (p : gset SessionIdentity) (c : Coordinator) : Coordinator :=
  mkCoord (leaseMs_ c) (config_ c) (bootId_ c) p (activeByUser_ c)
    (observedGenerationByUser_ c) (tickNextAttemptsMs_ c).

Definition set_active (a : gmap UserId SessionIdentity) (c : Coordinator) : Coordinator :=
  mkCoord (leaseMs_ c) (config_ c) (bootId_ c) (paused_ c) a
    (observedGenerationByUser_ c) (tickNextAttemptsMs_ c).

Definition set_observed (o : gmap UserId Z) (c : Coordinator) : Coordinator :=
  mkCoord (leaseMs_ c) (config_ c) (bootId_ c) (paused_ c) (activeByUser_ c) o
    (tickNextAttemptsMs_ c).

Definition set_tick (t : list Z) (c : Coordinator) : Coordinator :=
  mkCoord (leaseMs_ c) (config_ c) (bootId_ c) (paused_ c) (activeByUser_ c)
    (observedGenerationByUser_ c) t.

(** Scheduler fields of ReliableMessaging. *)
Record Scheduler := mkScheduler {
  running_ : bool;
  stopRequested_ : bool;
  lastCleanupMs_ : Z;
}.

Record World (S E : Type) := mkWorld {
  w_store : S;
  w_coord : Coordinator;
  w_sched : Scheduler;
  w_rec : Recorder;
  w_env : E;
}.
Arguments mkWorld {S E}.
Arguments w_store {S E}.
Arguments w_coord {S E}.
Arguments w_sched {S E}.
Arguments w_rec {S E}.
Arguments w_env {S E}.

Section lifts.
Context {S E : Type} `{Env E}.

Notation W := (World S E).
Notation weff := (eff exn W).

Definition put_store (s : S) (w : W) : W :=
  mkWorld s (w_coord w) (w_sched w) (w_rec w) (w_env w).

Definition put_coord (c : Coordinator) (w : W) : W :=
  mkWorld (w_store w) c (w_sched w) (w_rec w) (w_env w).

Definition put_sched (x : Scheduler) (w : W) : W :=
  mkWorld (w_store w) (w_coord w) x (w_rec w) (w_env w).

Definition put_env (e : E) (w : W) : W :=
  mkWorld (w_store w) (w_coord w) (w_sched w) (w_rec w) e.

Definition put_rec (re : Recorder * E) (w : W) : W :=
  mkWorld (w_store w) (w_coord w) (w_sched w) re.1 re.2.

Definition onStore {A} (m : eff exn S A) : weff A := zoom w_store put_store m.

(** Every metrics call of the module is wrapped in [recordBestEffort]. *)
Definition metric (c : RecorderCall) : weff unit :=
  zoom (fun w => (w_rec w, w_env w)) put_rec (recordBestEffort (runCall c)).

Definition nowMs : weff Z :=
  fun w => let '(e, t) := clockNow (w_env w) in (put_env e w, Ret t).

Definition deliver (a : DeliveryAttempt) : weff DeliverDisposition :=
  fun w => let '(e, d) := sinkDeliver a (w_env w) in (put_env e w, d).

Definition drawJitter (f : Q) (delay : Z) : weff Z :=
  fun w => let '(e, x) := jitterDraw f delay (w_env w) in (put_env e w, Ret x).

Definition getCoord : weff Coordinator := gets w_coord.

Definition modifyCoord (f : Coordinator -> Coordinator) : weff unit :=
  modify (fun w => put_coord (f (w_coord w)) w).
End lifts.
