(* ===== verification/Coordinator.v ===== *)
(** * The delivery state machine
    (chatserver/include/app/DeliveryCoordinator.hpp)

    Every member function of [DeliveryCoordinator] over an arbitrary
    [MessageStore] and environment, metrics calls included. *)

From S2P Require Import Prelude DomainTypes Metrics Store World.
From Stdlib Require Import QArith.

Open Scope Z_scope.
Open Scope eff_scope.

Section coordinator.
Context {S E : Type} `{MessageStore S} `{Env E}.

Notation W := (World S E).
Notation weff := (eff exn W).

(** ** Backoff *)

(** The multiplication loop; [n] is the number of iterations left,
    [attempt - 1] at the start. *)
Fixpoint backoffLoop (cfg : RetryConfig) (n : nat) (delay : Z) : Z :=
  match n with
  | O => delay
  | Datatypes.S n' =>
      if delay <? backoffCapMs cfg then
        if (1 <? backoffMultiplier cfg)
           && (cdiv (backoffCapMs cfg) (backoffMultiplier cfg) <? delay)
        then backoffCapMs cfg
        else backoffLoop cfg n' (i64 (delay * backoffMultiplier cfg))
      else delay
  end.

Definition backoffBeforeJitter (cfg : RetryConfig) (attempt : Z) : Z :=
  let delay := backoffLoop cfg (Z.to_nat (attempt - 1)) (backoffBaseMs cfg) in
  if backoffCapMs cfg <? delay then backoffCapMs cfg else delay.

Definition backoffMs (attempt : Z) : weff Z :=
  c <- getCoord ;;
  let cfg := config_ c in
  let delay := backoffBeforeJitter cfg attempt in
  if (0 <? Qnum (jitterFraction cfg)) && (1 <? delay) then
    delay' <- drawJitter (jitterFraction cfg) delay ;;
    ret (if delay' <? 1 then 1 else delay')
  else ret delay.

Definition retryDelayMs (attempt : Z) : weff Z :=
  c <- getCoord ;;
  backoff <- backoffMs attempt ;;
  ret (if ackTimeoutMs (config_ c) <? backoff then backoff else ackTimeoutMs (config_ c)).

(** ** claimFor *)

(** [byConversation[c].push_back(d)]: the groups are kept in key order. *)
Fixpoint groupAdd (c : Z) (d : Delivery) (gs : list (Z * list Delivery))
  : list (Z * list Delivery) :=
  match gs with
  | [] => [(c, [d])]
  | (c', ds) :: rest =>
      if c =? c' then (c', ds ++ [d]) :: rest
      else if c <? c' then (c, [d]) :: gs
      else (c', ds) :: groupAdd c d rest
  end.

Fixpoint groupByConversation (ds : list Delivery) (gs : list (Z * list Delivery))
  : list (Z * list Delivery) :=
  match ds with
  | [] => gs
  | d :: rest =>
      groupByConversation rest
        (if isTerminal (dl_state d) then gs else groupAdd (dl_conversationId d) d gs)
  end.

(** Head of line: the unacknowledged row with the least sequence. *)
Fixpoint pickHead (i : nat) (rows : list Delivery) (head : option (nat * Delivery))
  : option (nat * Delivery) :=
  match rows with
  | [] => head
  | d :: rest =>
      pickHead (Datatypes.S i) rest
        (if isTerminal (dl_state d) then head
         else match head with
              | None => Some (i, d)
              | Some (_, h) => if dl_sequence d <? dl_sequence h then Some (i, d) else head
              end)
  end.

Definition claimable (now : Z) (d : Delivery) : bool :=
  bool_decide (dl_state d = Pending) ||
  (bool_decide (dl_state d = InFlight) && (dl_leaseUntilMs d <=? now)).

Definition mkDeliveryAttempt (d : Delivery) (m : Message) : DeliveryAttempt :=
  mkAttempt (dl_messageId d) (dl_conversationId d) (dl_sequence d) (msg_senderId m)
    (dl_recipient d) (kind (msg_command m)) (directRecipient (msg_command m))
    (groupId (msg_command m)) (content (msg_command m)) (u32 (dl_attemptCount d + 1)).

(** The row after the sink accepted the attempt. *)
Definition claimedRow (c : Coordinator) (session : SessionIdentity) (now next : Z)
    (legacy : bool) (d : Delivery) : Delivery :=
  mkDelivery (dl_messageId d) (dl_conversationId d) (dl_sequence d) (dl_recipient d)
    (if legacy then Acknowledged else InFlight) session (bootId_ c)
    (i64 (now + i64 (leaseMs_ c))) (u32 (dl_attemptCount d + 1))
    (if legacy then now else dl_acknowledgedAtMs d) (dl_expiresAtMs d) now next.

Definition metricId (d : Delivery) : Z := deliveryMetricId (dl_messageId d) (dl_recipient d).

(** Persist an accepted attempt of [head] and record it. *)
Definition commitAttempt (session : SessionIdentity) (now : Z) (head : Delivery)
    (headMessage : Message) : weff Delivery :=
  c <- getCoord ;;
  let legacy := isLegacyClientMessageId (clientMessageId (msg_command headMessage)) in
  delay <- retryDelayMs (u32 (dl_attemptCount head + 1)) ;;
  let row := claimedRow c session now (i64 (now + delay)) legacy head in
  (if legacy then ret tt
   else modifyCoord (fun c => set_tick (tickNextAttemptsMs_ c ++ [dl_nextAttemptAtMs row]) c)) ;;;
  onStore (updateDelivery row) ;;;
  metric (CallAttempt (1 <? dl_attemptCount row)) ;;;
  metric (CallTransition (metricId row) (fromDomainState (dl_state head)) InFlight) ;;;
  (if legacy then
     metric (CallTransition (metricId row) InFlight Acknowledged) ;;;
     metric (CallEviction (metricId row) (dl_messageId row))
   else ret tt) ;;;
  ret row.

(** The [while (true)] loop over one conversation; the result is true when the
    session was paused, which ends the whole claim. *)
Fixpoint claimConversation (fuel : nat) (session : SessionIdentity) (now : Z)
    (rows : list Delivery) : weff bool :=
  match fuel with
  | O => throw Diverges
  | Datatypes.S fuel' =>
      match pickHead 0 rows None with
      | None => ret false
      | Some (i, head) =>
          if negb (claimable now head) then ret false
          else
            headMessage <- onStore (findMessage (dl_messageId head)) ;;
            match headMessage with
            | None => ret false
            | Some m =>
                disposition <- deliver (mkDeliveryAttempt head m) ;;
                match disposition with
                | DispAccepted =>
                    row <- commitAttempt session now head m ;;
                    claimConversation fuel' session now (<[i := row]> rows)
                | DispPaused =>
                    modifyCoord (fun c => set_paused ({[ session ]} ∪ paused_ c) c) ;;;
                    ret true
                | DispClosed => ret false
                end
            end
      end
  end.

(** Fuel for one conversation: an accepted attempt makes its row terminal or
    leases it past [now], so a pass over the rows and one more suffice. *)
Definition claimFuel (rows : list Delivery) : nat := Datatypes.S (length rows).

Fixpoint claimGroups (session : SessionIdentity) (now : Z)
    (gs : list (Z * list Delivery)) : weff unit :=
  match gs with
  | [] => ret tt
  | (_, rows) :: rest =>
      paused <- claimConversation (claimFuel rows) session now rows ;;
      if (paused : bool) then ret tt else claimGroups session now rest
  end.

Definition claimFor (session : SessionIdentity) : weff unit :=
  c <- getCoord ;;
  if bool_decide (session ∈ paused_ c) then ret tt
  else
    deliveries <- onStore (deliveriesByRecipient (userId session)) ;;
    now <- nowMs ;;
    claimGroups session now (groupByConversation deliveries []).

(** ** acknowledge *)

(** Is the acker fenced by a newer session of the same user? *)
Definition staleAcker (c : Coordinator) (acker : SessionIdentity) : bool :=
  match activeByUser_ c !! userId acker with
  | Some active => bool_decide (active ≠ acker)
  | None => false
  end ||
  match observedGenerationByUser_ c !! userId acker with
  | Some g => generation acker <? g
  | None => false
  end.

Definition acknowledge (acker : SessionIdentity) (messageId : MessageId) : weff AckResult :=
  c <- getCoord ;;
  if staleAcker c acker then ret AckNotRecipient
  else
    deliveries <- onStore (deliveriesByMessage messageId) ;;
    match deliveries with
    | [] => ret AckNotFound
    | _ =>
        match List.find (fun d => dl_recipient d =? userId acker) deliveries with
        | None => ret AckNotRecipient
        | Some mine =>
            if bool_decide (dl_state mine = Acknowledged) then ret AckIdempotent
            else
              t <- nowMs ;;
              let row := with_acked t mine in
              onStore (updateDelivery row) ;;;
              claimFor acker ;;;
              metric (CallTransition (metricId row)
                        (fromDomainState (dl_state mine)) Acknowledged) ;;;
              metric (CallAck (dl_messageId row)) ;;;
              metric (CallEviction (metricId row) (dl_messageId row)) ;;;
              ret AckAcknowledged
        end
    end.

(** ** Sessions *)

(** Release the in-flight rows selected by [sel]. *)
Definition releaseRow (d : Delivery) : weff unit :=
  onStore (updateDelivery (with_released d)) ;;;
  metric (CallTransition (metricId d) InFlight Pending).

Definition releaseRows (sel : Delivery -> bool) (ds : list Delivery) : weff unit :=
  forM ds (fun d => if bool_decide (dl_state d = InFlight) && sel d
                    then releaseRow d else ret tt).

Definition sessionAvailable (session : SessionIdentity) : weff unit :=
  c <- getCoord ;;
  let u := userId session in
  let observed := observedGenerationByUser_ c !! u in
  if match observed with Some g => generation session <? g | None => false end
  then ret tt
  else
    (if match observed with None => true | Some g => g <? generation session end
     then modifyCoord (fun c =>
            set_observed (<[u := generation session]> (observedGenerationByUser_ c)) c)
     else ret tt) ;;;
    deliveries <- onStore (deliveriesByRecipient u) ;;
    releaseRows (fun d =>
      (userId (dl_leaseOwner d) =? u) &&
      negb (bool_decide (dl_leaseOwner d = session) && (dl_leaseBootId d =? bootId_ c)))
      deliveries ;;;
    modifyCoord (fun c => set_active (<[u := session]> (activeByUser_ c)) c) ;;;
    claimFor session.

Definition sessionClosed (session : SessionIdentity) : weff unit :=
  modifyCoord (fun c => set_paused (paused_ c ∖ {[ session ]}) c) ;;;
  c <- getCoord ;;
  let cur := activeByUser_ c !! userId session in
  cur <- (if bool_decide (cur = Some session)
          then modifyCoord (fun c => set_active (delete (userId session) (activeByUser_ c)) c) ;;;
               ret None
          else ret cur) ;;
  deliveries <- onStore (deliveriesByRecipient (userId session)) ;;
  releaseRows (fun d => bool_decide (dl_leaseOwner d = session)) deliveries ;;;
  match cur with
  | Some active => claimFor active
  | None => ret tt
  end.

Definition resume (session : SessionIdentity) : weff unit :=
  c <- getCoord ;;
  if negb (bool_decide (activeByUser_ c !! userId session = Some session)) then ret tt
  else if match observedGenerationByUser_ c !! userId session with
          | Some g => generation session <? g | None => false end
  then ret tt
  else
    modifyCoord (fun c => set_paused (paused_ c ∖ {[ session ]}) c) ;;;
    claimFor session.

Definition onAccepted (recipients : list UserId) : weff unit :=
  forM recipients (fun u =>
    c <- getCoord ;;
    match activeByUser_ c !! u with
    | Some session => claimFor session
    | None => ret tt
    end).

(** ** Retry scan *)

(** Rolls a due row back unless its recipient is offline or paused, or the lease
    belongs to another session; returns the session to claim for. *)
Definition rollBackDue (d : Delivery) : weff (option SessionIdentity) :=
  c <- getCoord ;;
  match activeByUser_ c !! dl_recipient d with
  | None => ret None
  | Some active =>
      if bool_decide (active ∈ paused_ c) then ret None
      else if negb (bool_decide (dl_leaseOwner d = active)) then ret None
      else releaseRow d ;;; ret (Some active)
  end.

(** [std::set<SessionIdentity>::insert], the set as a sorted list. *)
Fixpoint session_insert (x : SessionIdentity) (l : list SessionIdentity) : list SessionIdentity :=
  match l with
  | [] => [x]
  | y :: rest =>
      if session_ltb x y then x :: l
      else if session_ltb y x then y :: session_insert x rest
      else l
  end.

Fixpoint collectDue (due : list Delivery) (toClaim : list SessionIdentity)
  : weff (list SessionIdentity) :=
  match due with
  | [] => ret toClaim
  | d :: rest =>
      r <- rollBackDue d ;;
      collectDue rest
        (match r with Some s => session_insert s toClaim | None => toClaim end)
  end.

Definition runRetryScan (now : Z) : weff (list Z) :=
  modifyCoord (set_tick []) ;;;
  c <- getCoord ;;
  due <- onStore (deliveriesDueForRetry now (retryBatchLimit (config_ c))) ;;
  match due with
  | [] => ret []
  | _ =>
      toClaim <- collectDue due [] ;;
      forM toClaim claimFor ;;;
      c <- getCoord ;;
      ret (tickNextAttemptsMs_ c)
  end.

End coordinator.
