(* ===== verification/Messaging.v ===== *)
(** * The reliable messaging module
    (chatserver/include/app/ReliableMessaging.hpp, src/app/ReliableMessaging.cpp)

    Every public operation runs under one mutex, so an execution is a sequence
    of whole operations; the scheduler's tick is one of them. *)

From S2P Require Import Prelude DomainTypes Metrics Store World Coordinator.

Open Scope Z_scope.
Open Scope eff_scope.

(** ** Pure helpers *)

Fixpoint wakeLoop (nowMs : Z) (nextAttempts : list Z) (wakeMs : Z) : Z :=
  match nextAttempts with
  | [] => wakeMs
  | x :: rest =>
      let remain := i64 (x - nowMs) in
      let remain := if remain <? 1 then 1 else remain in
      wakeLoop nowMs rest (if remain <? wakeMs then remain else wakeMs)
  end.

Definition computeNextWakeMs (nowMs ackTimeout : Z) (nextAttempts : list Z) : Z :=
  let wakeMs := wakeLoop nowMs nextAttempts ackTimeout in
  if wakeMs <? 1 then 1 else wakeMs.

(** The boot identity mixes the process id, the clock and a counter. *)
Definition nextBootId (pid t counter : Z) : Z :=
  let c := Z.land counter 0xFFF in
  Z.lxor (Z.lxor (u64 (Z.shiftl pid 52)) (Z.land t 0xFFFFFFFFFFFFF)) (u64 (Z.shiftl c 60)).

Definition recipientsFor (cmd : SendMessageCommand) : list UserId :=
  match kind cmd with
  | Direct => [directRecipient cmd]
  | Group => members cmd
  end.

(** [((x + g - 1) / g) * g] *)
Definition alignUp (g x : Z) : Z := i64 (cdiv (i64 (x + g - 1)) g * g).

Fixpoint earliestOf (e : Z) (l : list Z) : Z :=
  match l with
  | [] => e
  | x :: rest => earliestOf (if x <? e then x else e) rest
  end.

(** The wake-up interval of a tick from the aligned next attempts. *)
Definition tickWake (now ackTimeout granularity : Z) (aligned : list Z) : Z :=
  let wake := computeNextWakeMs now ackTimeout aligned in
  match aligned with
  | [] => wake
  | x :: rest =>
      if 1 <? granularity then
        let remain := i64 (earliestOf x rest - now) in
        let ceilCap := i64 (ackTimeout + granularity - 1) in
        if (1 <=? remain) && (remain <=? ceilCap) then remain else wake
      else wake
  end.

Section messaging.
Context {S E : Type} `{MessageStore S} `{Env E}.

Notation W := (World S E).
Notation weff := (eff exn W).

Definition notifyAcceptedBestEffort (recipients : list UserId) : weff unit :=
  catchAll (onAccepted recipients) (fun _ => ret tt).

(** ** accept *)

Definition newDelivery (m : Message) (recipient expiresAt : Z) : Delivery :=
  mkDelivery (msg_id m) (msg_conversationId m) 0 recipient Pending defaultSession
    0 0 0 0 expiresAt 0 0.

Definition acceptedOutcome (duplicate : bool) (m : Message) : AcceptOutcome :=
  mkAcceptOutcome true duplicate (msg_id m) (msg_conversationId m) (msg_sequence m)
    AcceptDependencyBusy.

Definition conflictOutcome : AcceptOutcome :=
  mkAcceptOutcome false false 0 0 0 AcceptIdempotencyConflict.

(** The key was already accepted. *)
Definition acceptExisting (existing : Message) (cmd : SendMessageCommand) : weff AcceptOutcome :=
  if samePayload (msg_command existing) cmd then
    metric (CallAccept MDuplicate) ;;;
    notifyAcceptedBestEffort (recipientsFor (msg_command existing)) ;;;
    ret (acceptedOutcome true existing)
  else
    metric (CallAccept MConflict) ;;;
    ret conflictOutcome.

(** The durable part: conversation, message with its outbox event, one delivery
    per recipient. *)
Definition acceptDurably (sender : SessionIdentity) (cmd : SendMessageCommand)
  : weff (Message * Z) :=
  conv <- onStore (getOrCreateConversation sender cmd) ;;
  acceptedAt <- nowMs ;;
  accepted <- onStore (insertMessage (mkMessage 0 conv 0 (userId sender) cmd acceptedAt)) ;;
  t <- nowMs ;;
  c <- getCoord ;;
  let expiresAt := i64 (t + messageRetentionMs (config_ c)) in
  forM (recipientsFor cmd) (fun u => onStore (insertDelivery (newDelivery accepted u expiresAt))) ;;;
  ret (accepted, acceptedAt).

Definition acceptNew (sender : SessionIdentity) (cmd : SendMessageCommand) : weff AcceptOutcome :=
  r <- acceptDurably sender cmd ;;
  let '(accepted, acceptedAt) := r in
  metric (CallAccept MAccepted) ;;;
  metric (CallAcceptedTimestamp (msg_id accepted) acceptedAt) ;;;
  (if isLegacyClientMessageId (clientMessageId cmd) then metric CallLegacyMode else ret tt) ;;;
  forM (recipientsFor cmd) (fun u =>
    metric (CallCreated (deliveryMetricId (msg_id accepted) u) acceptedAt)) ;;;
  notifyAcceptedBestEffort (recipientsFor cmd) ;;;
  ret (acceptedOutcome false accepted).

(** [catch (const MessageStoreError& e)]: classify, count, rethrow. *)
Definition acceptFailed {A} (x : exn) : weff A :=
  match x with
  | MessageStoreError k =>
      (match k with
       | StoreTooManyRecipients => metric (CallAccept MTooManyRecipients)
       | StoreIdempotencyConflict => metric (CallAccept MConflict)
       | _ => ret tt
       end) ;;;
      throw x
  | _ => throw x
  end.

Definition accept (sender : SessionIdentity) (cmd : SendMessageCommand) : weff AcceptOutcome :=
  existing <- onStore (findAccepted (clientMessageId cmd) (userId sender)) ;;
  match existing with
  | Some m => acceptExisting m cmd
  | None => catch (acceptNew sender cmd) acceptFailed
  end.

(** ** The tick *)

Definition recordExpired (r : ExpiredDeliveryRecord) : weff unit :=
  let id := deliveryMetricId (ex_messageId r) (ex_recipient r) in
  metric (CallTransition id (fromDomainState (ex_fromState r)) Expired) ;;;
  metric (CallEviction id (ex_messageId r)).

Definition runTick : weff Z :=
  now <- nowMs ;;
  c <- getCoord ;;
  let cfg := config_ c in
  expired <- onStore (expireDeliveriesDetailed now (retryBatchLimit cfg)) ;;
  forM expired.2 recordExpired ;;;
  sch <- gets w_sched ;;
  (if cleanupCycleMs cfg <=? i64 (now - lastCleanupMs_ sch) then
     modify (fun w => put_sched (mkScheduler (running_ sch) (stopRequested_ sch) now) w) ;;;
     _ <- onStore (cleanupDeliveries (i64 (now - ackedRetentionMs cfg))
                     (i64 (now - expiredRetentionMs cfg)) (cleanupBatch cfg)) ;;
     ret tt
   else ret tt) ;;;
  nextAttempts <- runRetryScan now ;;
  granularity <- gets (fun w => timeGranularityMs (w_store w)) ;;
  ret (tickWake now (ackTimeoutMs cfg) granularity (map (alignUp granularity) nextAttempts)).

Definition runTickBestEffort : weff Z := catchAll runTick (fun _ => ret (-1)).

(** ** The other public operations *)

Definition rmAcknowledge (acker : SessionIdentity) (messageId : MessageId) : weff AckResult :=
  acknowledge acker messageId.

Definition rmSessionAvailable (session : SessionIdentity) : weff unit :=
  sessionAvailable session ;;;
  _ <- runTickBestEffort ;; ret tt.

Definition rmSessionClosed (session : SessionIdentity) : weff unit := sessionClosed session.

Definition rmResume (session : SessionIdentity) : weff unit := resume session.

Definition wakeupAccepted (recipients : list UserId) : weff unit := onAccepted recipients.

(** ** Scheduler *)

(** [start]: true when a scheduler thread is launched. *)
Definition start : weff bool :=
  sch <- gets w_sched ;;
  if running_ sch then ret false
  else modify (put_sched (mkScheduler true false (lastCleanupMs_ sch))) ;;; ret true.

(** [stop] up to the join, and after it. *)
Definition stopRequest : weff unit :=
  sch <- gets w_sched ;;
  if negb (running_ sch) then ret tt
  else modify (put_sched (mkScheduler (running_ sch) true (lastCleanupMs_ sch))).

Definition stopJoined : weff unit :=
  sch <- gets w_sched ;;
  modify (put_sched (mkScheduler false (stopRequested_ sch) (lastCleanupMs_ sch))).

(** One turn of the scheduler loop: [None] leaves the loop, [Some ms] is the
    time it waits. *)
Definition schedulerTurn : weff (option Z) :=
  sch <- gets w_sched ;;
  if stopRequested_ sch then ret None
  else
    c <- getCoord ;;
    waitMs <- runTickBestEffort ;;
    let waitMs := if waitMs <? 1 then ackTimeoutMs (config_ c) else waitMs in
    now <- nowMs ;;
    sch <- gets w_sched ;;
    let untilCleanup := i64 (i64 (lastCleanupMs_ sch + cleanupCycleMs (config_ c)) - now) in
    let waitMs := if (0 <? untilCleanup) && (untilCleanup <? waitMs)
                  then untilCleanup else waitMs in
    ret (Some (if waitMs <? 1 then 1 else waitMs)).

(** ** Executions *)

Inductive RMCall :=
| RMAccept (sender : SessionIdentity) (cmd : SendMessageCommand)
| RMAcknowledge (acker : SessionIdentity) (messageId : MessageId)
| RMSessionAvailable (session : SessionIdentity)
| RMSessionClosed (session : SessionIdentity)
| RMResume (session : SessionIdentity)
| RMWakeupAccepted (recipients : list UserId)
| RMStart
| RMStopRequest
| RMStopJoined
| RMSchedulerTurn.

Definition runRMCall (call : RMCall) : weff unit :=
  match call with
  | RMAccept s cmd => _ <- accept s cmd ;; ret tt
  | RMAcknowledge a i => _ <- rmAcknowledge a i ;; ret tt
  | RMSessionAvailable s => rmSessionAvailable s
  | RMSessionClosed s => rmSessionClosed s
  | RMResume s => rmResume s
  | RMWakeupAccepted us => wakeupAccepted us
  | RMStart => _ <- start ;; ret tt
  | RMStopRequest => stopRequest
  | RMStopJoined => stopJoined
  | RMSchedulerTurn => _ <- schedulerTurn ;; ret tt
  end.

(** The calls of an execution in mutex order; a call that throws reports to its
    caller and the next call starts from the state it left. *)
Definition runRMCalls (calls : list RMCall) (w : W) : W :=
  foldl (fun w call => (runRMCall call w).1) w calls.
End messaging.
