(* ===== verification/ViewInv.v ===== *)
(** * Invariants of the stored state

    [view_inv] is the well-formedness of what a store holds, including head of
    line: an in-flight delivery has every earlier delivery of the same
    conversation to the same recipient settled.  [evolves] is how the stored
    state may change: messages are only added, with sequences above those
    present, rows keep their identity, and a settled row is never reopened. *)

From S2P Require Import Prelude DomainTypes Store.

Open Scope Z_scope.

(** [d] (for message [m]) has every earlier row of its line settled. *)
Definition lower_settled (v : StoreView) (recipient conv seq : Z) : Prop :=
  forall k d m, v_deliveries v !! k = Some d -> v_messages v !! dl_messageId d = Some m ->
    dl_recipient d = recipient -> dl_conversationId d = conv -> msg_sequence m < seq ->
    isTerminal (dl_state d) = true.

Record view_inv (v : StoreView) : Prop := {
  vi_key : forall k d, v_deliveries v !! k = Some d -> dl_key d = k;
  vi_row : forall k d, v_deliveries v !! k = Some d ->
    exists m, v_messages v !! dl_messageId d = Some m /\
              msg_conversationId m = dl_conversationId d;
  vi_id : forall i m, v_messages v !! i = Some m -> msg_id m = i;
  vi_seq : forall i j m m', v_messages v !! i = Some m -> v_messages v !! j = Some m' ->
    msg_conversationId m = msg_conversationId m' -> msg_sequence m = msg_sequence m' -> i = j;
  vi_accepted : forall k m, v_accepted v !! k = Some m ->
    k = (msg_senderId m, clientMessageId (msg_command m)) /\
    v_messages v !! msg_id m = Some m;
  vi_hol : forall k d m, v_deliveries v !! k = Some d ->
    v_messages v !! dl_messageId d = Some m -> dl_state d = InFlight ->
    lower_settled v (dl_recipient d) (dl_conversationId d) (msg_sequence m);
}.

(** [full] allows everything the module does; without it, rows are neither
    added nor removed and only deliveries change (claiming and releasing). *)
Definition row_evolves (full : bool) (om : option Message) (o o' : option Delivery) : Prop :=
  match o, o' with
  | Some d, Some d' =>
      dl_key d' = dl_key d /\ dl_conversationId d' = dl_conversationId d /\
      dl_expiresAtMs d' = dl_expiresAtMs d /\
      (isTerminal (dl_state d) = true -> isTerminal (dl_state d') = true) /\
      (dl_state d = Acknowledged -> dl_state d' = Acknowledged)
  | None, Some _ => om = None /\ full = true
  | Some _, None => full = true
  | None, None => True
  end.

Record evolves (full : bool) (v v' : StoreView) : Prop := {
  ev_ledger : full = false -> v' = set_deliveries (v_deliveries v') v;
  ev_messages : v_messages v ⊆ v_messages v';
  ev_accepted : v_accepted v ⊆ v_accepted v';
  ev_new : forall i m j m', v_messages v' !! i = Some m -> v_messages v !! i = None ->
    v_messages v !! j = Some m' -> msg_conversationId m = msg_conversationId m' ->
    msg_sequence m' < msg_sequence m;
  ev_rows : forall k, row_evolves full (v_messages v !! k.1) (v_deliveries v !! k) (v_deliveries v' !! k);
}.

Lemma view_inv_empty : view_inv (mkView ∅ ∅ ∅ ∅ ∅ []).
Proof. split; simpl; intros *; rewrite lookup_empty; done. Qed.

Lemma evolves_refl full v : evolves full v v.
Proof.
  split; try done; [by destruct v|naive_solver|]. intros k. unfold row_evolves.
  by destruct (v_deliveries v !! k).
Qed.

Lemma view_inv_message v k d :
  view_inv v -> v_deliveries v !! k = Some d -> is_Some (v_messages v !! k.1).
Proof.
  intros Hv Hk. pose proof (vi_key _ Hv _ _ Hk) as <-.
  destruct (vi_row _ Hv _ _ Hk) as (m & Hm & _). by exists m.
Qed.

Lemma evolves_weaken full v v' : evolves full v v' -> evolves true v v'.
Proof.
  intros [_ H1 H2 H3 H4]. split; auto; [done|]. intros k. specialize (H4 k).
  unfold row_evolves in *.
  destruct (v_deliveries v !! k), (v_deliveries v' !! k); naive_solver.
Qed.

Lemma evolves_full full v v' : evolves false v v' -> evolves full v v'.
Proof. destruct full; [apply evolves_weaken|done]. Qed.

Lemma evolves_trans full v1 v2 v3 :
  view_inv v1 -> evolves full v1 v2 -> evolves full v2 v3 -> evolves full v1 v3.
Proof.
  intros Hv [Hl1 Hm1 Ha1 Hn1 Hr1] [Hl2 Hm2 Ha2 Hn2 Hr2]. split.
  - intros Hf. rewrite (Hl2 Hf), (Hl1 Hf). done.
  - by etransitivity.
  - by etransitivity.
  - intros i m j m' Hi Hni Hj Hc. destruct (v_messages v2 !! i) as [m2|] eqn:E.
    + pose proof (lookup_weaken _ _ _ _ E Hm2). simplify_eq. eauto.
    + eauto using lookup_weaken.
  - intros k. specialize (Hr1 k). specialize (Hr2 k). unfold row_evolves in *.
    destruct (v_deliveries v1 !! k) as [d1|] eqn:E1,
      (v_deliveries v2 !! k) as [d2|] eqn:E2, (v_deliveries v3 !! k) as [d3|] eqn:E3;
      try done.
    + destruct Hr1 as (?&?&?&?&?), Hr2 as (?&?&?&?&?). repeat split; auto; congruence.
    + destruct (view_inv_message _ _ _ Hv E1) as [m Em].
      rewrite (lookup_weaken _ _ _ _ Em Hm1) in Hr2. by destruct Hr2.
    + destruct (v_messages v1 !! k.1) eqn:Em; [|by destruct Hr2].
      rewrite (lookup_weaken _ _ _ _ Em Hm1) in Hr2. by destruct Hr2.
Qed.

(** ** Consequences *)

(** Two rows of one line that are both in flight are the same row. *)
Lemma one_in_flight v k1 k2 d1 d2 :
  view_inv v -> v_deliveries v !! k1 = Some d1 -> v_deliveries v !! k2 = Some d2 ->
  dl_recipient d1 = dl_recipient d2 -> dl_conversationId d1 = dl_conversationId d2 ->
  dl_state d1 = InFlight -> dl_state d2 = InFlight -> k1 = k2.
Proof.
  intros Hv H1 H2 Hr Hc S1 S2.
  destruct (vi_row _ Hv _ _ H1) as (m1 & M1 & C1), (vi_row _ Hv _ _ H2) as (m2 & M2 & C2).
  pose proof (vi_key _ Hv _ _ H1) as K1. pose proof (vi_key _ Hv _ _ H2) as K2.
  destruct (Z.lt_trichotomy (msg_sequence m1) (msg_sequence m2)) as [Hlt|[Heq|Hlt]].
  - pose proof (vi_hol _ Hv _ _ _ H2 M2 S2 _ _ _ H1 M1 Hr Hc Hlt) as Ht. by rewrite S1 in Ht.
  - subst. unfold dl_key. f_equal; [|done]. eapply (vi_seq _ Hv); eauto. congruence.
  - pose proof (vi_hol _ Hv _ _ _ H1 M1 S1 _ _ _ H2 M2 (eq_sym Hr) (eq_sym Hc) Hlt) as Ht.
    by rewrite S2 in Ht.
Qed.

(** ** Updating one row *)

Record row_step (v : StoreView) (d0 d : Delivery) : Prop := {
  rs_conv : dl_conversationId d = dl_conversationId d0;
  rs_expires : dl_expiresAtMs d = dl_expiresAtMs d0;
  rs_terminal : isTerminal (dl_state d0) = true -> isTerminal (dl_state d) = true;
  rs_acked : dl_state d0 = Acknowledged -> dl_state d = Acknowledged;
  rs_hol : dl_state d = InFlight -> forall m, v_messages v !! dl_messageId d = Some m ->
    lower_settled v (dl_recipient d) (dl_conversationId d) (msg_sequence m);
}.

Lemma update_lookup v d d0 :
  v_deliveries v !! dl_key d = Some d0 ->
  view_updateDelivery d v = set_deliveries (<[dl_key d := d]> (v_deliveries v)) v.
Proof. intros E. unfold view_updateDelivery. by rewrite E. Qed.

Lemma update_evolves full v d d0 :
  v_deliveries v !! dl_key d = Some d0 -> dl_key d0 = dl_key d -> row_step v d0 d ->
  evolves full v (view_updateDelivery d v).
Proof.
  intros E Ek [Hc Hx Ht Ha Hh]. rewrite (update_lookup _ _ _ E).
  split; simpl; try done; [naive_solver|].
  intros k. unfold row_evolves. destruct (decide (k = dl_key d)) as [->|Hne].
  - rewrite E, lookup_insert_eq. by repeat split.
  - rewrite lookup_insert_ne by done. by destruct (v_deliveries v !! k).
Qed.

Lemma update_inv v d d0 :
  view_inv v -> v_deliveries v !! dl_key d = Some d0 -> row_step v d0 d ->
  view_inv (view_updateDelivery d v).
Proof.
  intros Hv E [Hc Hx Ht Ha Hh]. rewrite (update_lookup _ _ _ E).
  pose proof (vi_key _ Hv _ _ E) as K0. injection K0 as Km Kr.
  destruct Hv as [Hkey Hrow Hid Hseq Hacc Hhol].
  assert (exists m, v_messages v !! dl_messageId d = Some m /\
                    msg_conversationId m = dl_conversationId d) as (m & Em & Cm).
  { destruct (Hrow _ _ E) as (m & Em & Cm). rewrite Km in Em. exists m. by rewrite Hc. }
  split; simpl; auto.
  - intros k d'. rewrite lookup_insert_Some. intros [[<- <-]|[_ Hd']]; auto.
  - intros k d'. rewrite lookup_insert_Some. intros [[<- <-]|[_ Hd']]; eauto.
  - intros k1 d1 m1 Hk1 Hm1 S1 k2 d2 m2 Hk2 Hm2 Hr Hcv Hlt. simpl in *.
    rewrite lookup_insert_Some in Hk1, Hk2.
    destruct Hk1 as [[<- <-]|[N1 Hk1]], Hk2 as [[<- <-]|[N2 Hk2]].
    + rewrite Hm1 in Hm2. injection Hm2 as <-. lia.
    + exact (Hh S1 m1 Hm1 k2 d2 m2 Hk2 Hm2 Hr Hcv Hlt).
    + apply Ht. refine (Hhol k1 d1 m1 Hk1 Hm1 S1 _ d0 m2 E _ _ _ Hlt); congruence.
    + exact (Hhol k1 d1 m1 Hk1 Hm1 S1 k2 d2 m2 Hk2 Hm2 Hr Hcv Hlt).
Qed.

(** Filling in the sequence does not change what is stored otherwise. *)
Lemma fill_state v d : dl_state (fill v d) = dl_state d.
Proof. unfold fill. by case_match. Qed.

Lemma fill_conv v d : dl_conversationId (fill v d) = dl_conversationId d.
Proof. unfold fill. by case_match. Qed.

Lemma fill_recipient v d : dl_recipient (fill v d) = dl_recipient d.
Proof. unfold fill. by case_match. Qed.

Lemma fill_messageId v d : dl_messageId (fill v d) = dl_messageId d.
Proof. unfold fill. by case_match. Qed.

Lemma fill_expires v d : dl_expiresAtMs (fill v d) = dl_expiresAtMs d.
Proof. unfold fill. by case_match. Qed.

Lemma fill_key v d : dl_key (fill v d) = dl_key d.
Proof. unfold dl_key. by rewrite fill_messageId, fill_recipient. Qed.

Lemma fill_sequence v d m :
  v_messages v !! dl_messageId d = Some m -> dl_sequence (fill v d) = msg_sequence m.
Proof. intros E. unfold fill. by rewrite E. Qed.

#[export] Hint Rewrite fill_state fill_conv fill_recipient fill_messageId fill_expires
  fill_key : domain.

(** ** Other operations *)

Lemma expire_row v now limit r v' k d :
  view_inv v -> spec_expire now limit v r v' -> v_deliveries v !! k = Some d ->
  v_deliveries v' !! k = Some d \/
  (v_deliveries v' !! k = Some (with_state Expired d) /\ isTerminal (dl_state d) = false).
Proof.
  intros Hv (_ & _ & _ & Hk) E. destruct (Hk k) as [(x & d0 & _ & _ & E0 & T0 & _ & _ & E')|[_ E']].
  - rewrite E0 in E. simplify_eq. by right.
  - left. by rewrite E'.
Qed.

Lemma expire_row_inv v now limit r v' k d' :
  spec_expire now limit v r v' -> v_deliveries v' !! k = Some d' ->
  exists d, v_deliveries v !! k = Some d /\
    (d' = d \/ (d' = with_state Expired d /\ isTerminal (dl_state d) = false)).
Proof.
  intros (_ & _ & _ & Hk) E. destruct (Hk k) as [(x & d0 & _ & _ & E0 & T0 & _ & _ & E')|[_ E']].
  - rewrite E' in E. simplify_eq. exists d0. auto.
  - rewrite E' in E. eauto.
Qed.

Lemma shrink_inv v v' :
  view_inv v -> v' = set_deliveries (v_deliveries v') v ->
  (forall k d', v_deliveries v' !! k = Some d' ->
     exists d, v_deliveries v !! k = Some d /\ dl_key d' = dl_key d /\
       dl_conversationId d' = dl_conversationId d /\
       (dl_state d' = dl_state d \/ isTerminal (dl_state d') = true)) ->
  view_inv v'.
Proof.
  intros [Hkey Hrow Hid Hseq Hacc Hhol] Ev Hd. rewrite Ev. split; simpl; auto.
  - intros k d' E. destruct (Hd _ _ E) as (d & E0 & -> & _). auto.
  - intros k d' E. destruct (Hd _ _ E) as (d & E0 & Ek & Ec & _). injection Ek as Em Er.
    rewrite Em, Ec. eauto.
  - intros k1 d1 m1 E1 M1 S1 k2 d2 m2 E2 M2 Hr Hc Hlt. simpl in *.
    destruct (Hd _ _ E1) as (d1' & E1' & Ek1 & Ec1 & St1).
    destruct (Hd _ _ E2) as (d2' & E2' & Ek2 & Ec2 & St2).
    injection Ek1 as Em1 Er1. injection Ek2 as Em2 Er2.
    destruct St2 as [St2|]; [|done]. rewrite St2.
    destruct St1 as [St1|St1]; [|by rewrite S1 in St1].
    refine (Hhol k1 d1' m1 E1' _ _ k2 d2' m2 E2' _ _ _ Hlt); congruence.
Qed.

Lemma expire_inv full v now limit r v' :
  view_inv v -> spec_expire now limit v r v' -> view_inv v' /\ evolves full v v'.
Proof.
  intros Hv Hs. pose proof Hs as (_ & _ & Ev & _). split.
  - eapply shrink_inv; [exact Hv|exact Ev|]. intros k d' E.
    destruct (expire_row_inv _ _ _ _ _ _ _ Hs E) as (d & E0 & [->|[-> _]]); exists d; auto.
  - rewrite Ev. split; simpl; try done; [naive_solver|]. intros k. unfold row_evolves.
    destruct (v_deliveries v !! k) as [d|] eqn:E.
    + destruct (expire_row _ _ _ _ _ _ _ Hv Hs E) as [->|[-> Ht]]; simpl; repeat split; auto.
      intros Ea. by rewrite Ea in Ht.
    + destruct (v_deliveries v' !! k) as [d'|] eqn:E'; [|done].
      destruct (expire_row_inv _ _ _ _ _ _ _ Hs E') as (d & E0 & _). congruence.
Qed.

Lemma cleanup_inv v a e v' :
  view_inv v -> spec_cleanup a e v v' -> view_inv v' /\ evolves true v v'.
Proof.
  intros Hv (Ev & Hk). split.
  - eapply shrink_inv; [exact Hv|exact Ev|]. intros k d' E.
    destruct (Hk k) as [E'|(d & _ & E' & _)]; [|congruence]. exists d'.
    rewrite <- E'. auto.
  - rewrite Ev. split; simpl; try done; [naive_solver|]. intros k. unfold row_evolves.
    destruct (Hk k) as [->|(d & -> & -> & _)]; [|done]. by destruct (v_deliveries v !! k).
Qed.

Lemma insertMessage_inv draft v m v' :
  view_inv v -> spec_insertMessage draft v m v' -> view_inv v' /\ evolves true v v'.
Proof.
  intros [Hkey Hrow Hid Hseq Hacc Hhol]
    (Em & Hfresh & Htop & Hms & Hac & Hcv & Hds & _).
  cbv zeta in Hac.
  assert (v_messages v ⊆ v_messages v') as Hsub by (rewrite Hms; by apply insert_subseteq).
  split.
  - split; rewrite ?Hds.
    + exact Hkey.
    + intros k d E. destruct (Hrow k d E) as (m0 & E0 & C0). exists m0. split; [|exact C0].
      by eapply lookup_weaken.
    + intros i m0. rewrite Hms, lookup_insert_Some. intros [[<- <-]|[_ Hi]]; auto.
    + intros i j m1 m2. rewrite Hms, !lookup_insert_Some.
      intros [[<- <-]|[Hi1 Hi]] [[<- <-]|[Hj1 Hj]] Hc Hs; eauto.
      * apply Htop in Hj; [lia|done].
      * apply Htop in Hi; [lia|done].
    + intros k m0. rewrite Hac. destruct (v_accepted v !! _) eqn:Ea.
      * intros Hk. destruct (Hacc _ _ Hk) as [? Hm0]. split; [done|]. by eapply lookup_weaken.
      * rewrite lookup_insert_Some. intros [[<- <-]|[_ Hk]].
        { split; [done|]. by rewrite Hms, lookup_insert_eq. }
        destruct (Hacc _ _ Hk) as [? Hm0]. split; [done|]. by eapply lookup_weaken.
    + intros k d m0 E E0 S0 k2 d2 m2. rewrite Hds. intros E2 M2.
      destruct (Hrow k d E) as (m1 & M1 & _). destruct (Hrow k2 d2 E2) as (m3 & M3 & _).
      pose proof (lookup_weaken _ _ _ _ M1 Hsub). pose proof (lookup_weaken _ _ _ _ M3 Hsub).
      simplify_eq. by eapply Hhol.
  - split; [done|exact Hsub| | |].
    + rewrite Hac. destruct (v_accepted v !! _) eqn:Ea; [done|]. by apply insert_subseteq.
    + intros i m0 j m' Hi Hni Hj Hc. rewrite Hms, lookup_insert_Some in Hi.
      destruct Hi as [[<- <-]|[_ Hi]]; [|congruence]. eauto.
    + intros k. rewrite Hds. unfold row_evolves. by destruct (v_deliveries v !! k).
Qed.

Lemma conversation_inv k v c v' :
  view_inv v -> spec_conversation k v c v' -> view_inv v' /\ evolves true v v'.
Proof.
  intros Hv Hs. unfold spec_conversation in Hs. destruct (v_conversations v !! k).
  - destruct Hs as [_ ->]. split; [done|apply evolves_refl].
  - destruct Hs as [-> _]. split; [by destruct Hv; split|].
    destruct (evolves_refl true v). by split.
Qed.

(** Inserting a pending row for a message that tops its conversation. *)
Lemma insertDelivery_step v0 v d m :
  view_inv v0 -> view_inv v -> evolves true v0 v -> v_messages v0 !! dl_messageId d = None ->
  v_messages v !! dl_messageId d = Some m -> msg_conversationId m = dl_conversationId d ->
  dl_state d = Pending ->
  (forall j m', v_messages v !! j = Some m' -> msg_conversationId m' = msg_conversationId m ->
     msg_sequence m' <= msg_sequence m) ->
  view_inv (view_insertDelivery d v) /\ evolves true v0 (view_insertDelivery d v).
Proof.
  intros Hv0 Hv Hev Hn Hm Hc Hst Htop. unfold view_insertDelivery.
  destruct (v_deliveries v !! dl_key d) eqn:E; [done|].
  pose proof Hv as [Hkey Hrow Hid Hseq Hacc Hhol]. split.
  - split; simpl; auto.
    + intros k d'. rewrite lookup_insert_Some. intros [[<- <-]|[_ ?]]; auto.
    + intros k d'. rewrite lookup_insert_Some. intros [[<- <-]|[_ ?]]; eauto.
    + intros k1 d1 m1 E1 M1 S1 k2 d2 m2 E2 M2 Hr Hcv Hlt. simpl in *.
      rewrite lookup_insert_Some in E1, E2.
      destruct E1 as [[<- <-]|[N1 E1]]; [congruence|].
      destruct E2 as [[<- <-]|[N2 E2]];
        [|exact (Hhol _ _ _ E1 M1 S1 _ _ _ E2 M2 Hr Hcv Hlt)].
      rewrite Hm in M2. injection M2 as <-. destruct (Hrow _ _ E1) as (m1' & M1' & C1).
      rewrite M1 in M1'. injection M1' as <-. apply Htop in M1; [lia|congruence].
  - destruct Hev as [_ H1 H2 H3 H4]. split; simpl; auto; [done|]. intros k. specialize (H4 k).
    destruct (decide (k = dl_key d)) as [->|Hne]; [|by rewrite lookup_insert_ne].
    rewrite lookup_insert_eq. unfold row_evolves in *. rewrite E in H4.
    destruct (v_deliveries v0 !! dl_key d) as [d0|] eqn:E0; [|by split].
    destruct (view_inv_message _ _ _ Hv0 E0) as [m0 E1]. unfold dl_key in E1. simpl in E1. congruence.
Qed.

(** ** Attempts

    An attempt handed to the sink is in order when its message is stored and
    every earlier row of its line is settled; it stays so as the state evolves,
    since settled rows are not reopened and new messages come later. *)

Definition attempt_ok (v : StoreView) (a : DeliveryAttempt) : Prop :=
  (exists m, v_messages v !! at_messageId a = Some m /\
     msg_conversationId m = at_conversationId a /\ msg_sequence m = at_sequence a) /\
  lower_settled v (at_recipient a) (at_conversationId a) (at_sequence a).

(** The row an attempt is for is present and unsettled. *)
Definition attempt_open (v : StoreView) (a : DeliveryAttempt) : Prop :=
  exists d m, v_deliveries v !! (at_messageId a, at_recipient a) = Some d /\
    v_messages v !! at_messageId a = Some m /\
    isTerminal (dl_state d) = false /\ dl_conversationId d = at_conversationId a /\
    msg_sequence m = at_sequence a.

(** On one line, an open attempt does not precede an attempt already in order. *)
Lemma attempt_open_order v a b :
  view_inv v -> attempt_ok v a -> attempt_open v b ->
  at_recipient a = at_recipient b -> at_conversationId a = at_conversationId b ->
  at_sequence a <= at_sequence b.
Proof.
  intros Hv [_ Hl] (d & m & Hd & Hm & Hu & Hc & Hs) Hr Hcv.
  destruct (Z.le_gt_cases (at_sequence a) (at_sequence b)) as [|Hlt]; [done|].
  pose proof (vi_key _ Hv _ _ Hd) as K. injection K as Km Kr.
  assert (isTerminal (dl_state d) = true); [|congruence].
  eapply (Hl _ d m Hd); [by rewrite Km|congruence|congruence|lia].
Qed.

Lemma attempt_ok_evolves full v v' a :
  view_inv v -> view_inv v' -> evolves full v v' -> attempt_ok v a -> attempt_ok v' a.
Proof.
  intros Hv Hv' [_ Hm Ha Hn Hr] [(ma & Ma & Ca & Sa) Hl]. split.
  { exists ma. split; [by eapply lookup_weaken|done]. }
  intros k d m E M Er Ec Hlt. specialize (Hr k). rewrite E in Hr.
  pose proof (vi_key _ Hv' _ _ E) as K. unfold row_evolves in Hr.
  destruct (v_deliveries v !! k) as [d0|] eqn:E0.
  - destruct Hr as (Ek & Ecv & _ & Ht & _). apply Ht. injection Ek as Ek1 Ek2.
    destruct (vi_row _ Hv _ _ E0) as (m0 & M0 & C0).
    pose proof (lookup_weaken _ _ _ _ M0 Hm) as M0'. rewrite Ek1, M0' in M. injection M as <-.
    refine (Hl k d0 m0 E0 M0 _ _ Hlt); congruence.
  - exfalso. destruct (vi_row _ Hv' _ _ E) as (m1 & M1 & C1).
    rewrite M in M1. injection M1 as <-.
    assert (k.1 = dl_messageId d) as Ek by (rewrite <- K; done).
    rewrite Ek in Hr. destruct Hr as [Hr _]. pose proof (Hn _ _ _ _ M Hr Ma ltac:(congruence)). lia.
Qed.
