(* ===== verification/ClaimFacts.v ===== *)
(** * Head selection and grouping in claimFor

    Facts about the pure parts of [claimFor]: [pickHead] finds the first row of
    least sequence among the unsettled ones, and [groupByConversation] splits
    the unsettled rows by conversation. *)

From S2P Require Import Prelude DomainTypes Store World Coordinator ViewInv.

Open Scope Z_scope.

Definition unsettled (d : Delivery) : Prop := isTerminal (dl_state d) = false.

(** [h], at index [i], is the first row of least sequence among the unsettled. *)
Definition is_head (rows : list Delivery) (i : nat) (h : Delivery) : Prop :=
  rows !! i = Some h /\ unsettled h /\
  forall j d, rows !! j = Some d -> unsettled d ->
    dl_sequence h <= dl_sequence d /\ ((j < i)%nat -> dl_sequence h < dl_sequence d).

Definition head_of (rows : list Delivery) (r : option (nat * Delivery)) : Prop :=
  match r with
  | Some (i, h) => is_head rows i h
  | None => forall d, d ∈ rows -> ~ unsettled d
  end.

Lemma head_of_snoc rows d r :
  head_of rows r ->
  head_of (rows ++ [d])
    (if isTerminal (dl_state d) then r
     else match r with
          | None => Some (length rows, d)
          | Some (_, h) => if dl_sequence d <? dl_sequence h then Some (length rows, d) else r
          end).
Proof.
  intros Hr.
  assert (forall j x, (rows ++ [d]) !! j = Some x ->
    rows !! j = Some x \/ (j = length rows /\ x = d)) as Hsplit.
  { intros j x. rewrite lookup_app_Some. intros [|[Hj Hx]]; [by left|right].
    apply list_lookup_singleton_Some in Hx as [? ?]. split; [lia|done]. }
  destruct (isTerminal (dl_state d)) eqn:Et.
  { destruct r as [[i h]|].
    - destruct Hr as (Hi & Hh & Hmin). split; [by apply lookup_app_l_Some|]. split; [done|].
      intros j x [Hj|[-> ->]]%Hsplit Hx; [by apply Hmin|]. unfold unsettled in Hx. congruence.
    - intros x [Hx|Hx]%elem_of_app; [by apply Hr|].
      apply list_elem_of_singleton in Hx as ->. unfold unsettled. congruence. }
  destruct r as [[i h]|]; cbn [head_of] in *.
  - destruct Hr as (Hi & Hh & Hmin). destruct (Z.ltb_spec (dl_sequence d) (dl_sequence h)).
    + split; [by apply list_lookup_middle|]. split; [done|].
      intros j x [Hj|[-> ->]]%Hsplit Hx; [|lia]. pose proof (Hmin j x Hj Hx). lia.
    + split; [by apply lookup_app_l_Some|]. split; [done|].
      intros j x [Hj|[-> ->]]%Hsplit Hx; [by apply Hmin|].
      apply lookup_lt_Some in Hi. lia.
  - split; [by apply list_lookup_middle|]. split; [done|].
    intros j x [Hj|[-> ->]]%Hsplit Hx; [|lia].
    exfalso. apply (Hr x); [|done]. by eapply list_elem_of_lookup_2.
Qed.

Lemma pickHead_spec pre rest r :
  head_of pre r -> head_of (pre ++ rest) (pickHead (length pre) rest r).
Proof.
  revert pre r. induction rest as [|d rest IH]; intros pre r Hr; simpl.
  { by rewrite app_nil_r. }
  replace (pre ++ d :: rest) with ((pre ++ [d]) ++ rest) by by rewrite <- app_assoc.
  replace (Datatypes.S (length pre)) with (length (pre ++ [d])) by (rewrite length_app; simpl; lia).
  apply IH. by apply head_of_snoc.
Qed.

Lemma pickHead_head rows : head_of rows (pickHead 0 rows None).
Proof. apply (pickHead_spec [] rows None). intros d Hd. by apply elem_of_nil in Hd. Qed.

Lemma is_head_unique rows i h i' h' : is_head rows i h -> is_head rows i' h' -> i = i' /\ h = h'.
Proof.
  intros (Hi & Hh & Hm) (Hi' & Hh' & Hm').
  pose proof (Hm _ _ Hi' Hh') as [? Hlt]. pose proof (Hm' _ _ Hi Hh) as [? Hlt'].
  assert (i = i') as -> by (destruct (Nat.lt_trichotomy i i') as [?|[?|?]]; [|done|];
    [specialize (Hlt' ltac:(done))|specialize (Hlt ltac:(done))]; lia).
  split; [done|]. congruence.
Qed.

(** Replacing the head by an unsettled row of the same sequence keeps it head. *)
Lemma pickHead_replace rows i h h' :
  is_head rows i h -> unsettled h' -> dl_sequence h' = dl_sequence h ->
  pickHead 0 (<[i := h']> rows) None = Some (i, h').
Proof.
  intros Hh Hu Hs. pose proof Hh as (Hi & Huh & Hm).
  assert (is_head (<[i := h']> rows) i h') as Hh'.
  { split; [apply list_lookup_insert_eq; by eapply lookup_lt_Some|]. split; [done|].
    intros j d Hj Hd. apply list_lookup_insert_Some in Hj as [(<- & <- & _)|(Hne & Hj)].
    - lia.
    - rewrite Hs. by apply Hm. }
  pose proof (pickHead_head (<[i := h']> rows)) as Hp.
  destruct (pickHead 0 (<[i := h']> rows) None) as [[i2 h2]|]; cbn [head_of] in Hp.
  - destruct (is_head_unique _ _ _ _ _ Hp Hh') as [-> ->]. done.
  - exfalso. apply (Hp h'); [|done]. destruct Hh' as [Hl _]. by eapply list_elem_of_lookup_2.
Qed.

(** How many rows are still unsettled: the measure of the claim loop. *)
Definition unsettledCount (rows : list Delivery) : nat :=
  length (filter (fun d => isTerminal (dl_state d) = false) rows).

Lemma unsettledCount_settle rows i h h' :
  rows !! i = Some h -> unsettled h -> isTerminal (dl_state h') = true ->
  (unsettledCount (<[i := h']> rows) < unsettledCount rows)%nat.
Proof.
  intros Hi Hh Hh'. unfold unsettledCount.
  rewrite insert_take_drop by (by eapply lookup_lt_Some).
  rewrite <- (take_drop_middle rows i h Hi) at 3.
  rewrite !filter_app, !length_app.
  rewrite filter_cons_False by congruence. rewrite filter_cons_True by done.
  simpl. lia.
Qed.

Lemma unsettledCount_le rows : (unsettledCount rows <= length rows)%nat.
Proof. apply length_filter. Qed.

Lemma unsettledCount_head rows i h :
  rows !! i = Some h -> unsettled h -> (1 <= unsettledCount rows)%nat.
Proof.
  intros Hi Hh. unfold unsettledCount. rewrite <- (take_drop_middle rows i h Hi).
  rewrite filter_app, length_app, filter_cons_True by done. simpl. lia.
Qed.

(** ** Grouping *)

Definition group_of (c : Z) (ds : list Delivery) : list Delivery :=
  filter (fun d => isTerminal (dl_state d) = false /\ dl_conversationId d = c) ds.

Definition groups_ok (gs : list (Z * list Delivery)) (ds : list Delivery) : Prop :=
  NoDup gs.*1 /\
  (forall c rows, (c, rows) ∈ gs -> rows = group_of c ds) /\
  (forall d, d ∈ ds -> isTerminal (dl_state d) = false -> dl_conversationId d ∈ gs.*1).

Lemma groupAdd_keys c d gs x : x ∈ (groupAdd c d gs).*1 <-> x = c \/ x ∈ gs.*1.
Proof.
  induction gs as [|[c' ds] gs IH]; simpl.
  { rewrite list_elem_of_singleton, elem_of_nil. tauto. }
  destruct (Z.eqb_spec c c') as [->|Hne]; simpl; rewrite ?elem_of_cons; [tauto|].
  destruct (c <? c'); simpl; rewrite ?elem_of_cons, ?IH; tauto.
Qed.

Definition sortedKeys (gs : list (Z * list Delivery)) : Prop := StronglySorted Z.lt gs.*1.

Lemma groupAdd_sorted c d gs : sortedKeys gs -> sortedKeys (groupAdd c d gs).
Proof.
  unfold sortedKeys. induction gs as [|[c' ds] gs IH]; simpl; intros Hs.
  { repeat constructor. }
  inversion Hs as [|? ? Hs' Hf]; subst.
  destruct (Z.eqb_spec c c') as [->|Hne]; [by constructor|].
  destruct (Z.ltb_spec c c'); simpl.
  - constructor; [done|]. constructor; [done|]. eapply Forall_impl; [exact Hf|]. simpl. lia.
  - constructor; [by apply IH|]. apply Forall_forall. intros x Hx.
    apply groupAdd_keys in Hx as [->|Hx]; [lia|]. rewrite Forall_forall in Hf. auto.
Qed.

Lemma sortedKeys_nodup gs : sortedKeys gs -> NoDup gs.*1.
Proof.
  unfold sortedKeys. induction 1 as [|x l Hs IH Hf]; constructor; [|done].
  intros Hx. rewrite Forall_forall in Hf. specialize (Hf x Hx). lia.
Qed.

Lemma groupAdd_elem c d gs c0 rows :
  sortedKeys gs ->
  (c0, rows) ∈ groupAdd c d gs ->
  (c0 <> c /\ (c0, rows) ∈ gs) \/
  (c0 = c /\ ((exists ds, (c, ds) ∈ gs /\ rows = ds ++ [d]) \/ (c ∉ gs.*1 /\ rows = [d]))).
Proof.
  unfold sortedKeys. induction gs as [|[c' ds] gs IH]; simpl; intros Hs Hin.
  { apply list_elem_of_singleton in Hin. simplify_eq. right. split; [done|]. right.
    split; [apply not_elem_of_nil|done]. }
  inversion Hs as [|? ? Hs' Hf]; subst. rewrite Forall_forall in Hf.
  destruct (Z.eqb_spec c c') as [->|Hne].
  - apply elem_of_cons in Hin as [Heq|Hin].
    + simplify_eq. right. split; [done|]. left. exists ds. split; [by left|done].
    + left. split; [|by right]. intros ->.
      assert (c' < c'); [|lia]. apply Hf. apply list_elem_of_fmap. by exists (c', rows).
  - destruct (Z.ltb_spec c c').
    + apply elem_of_cons in Hin as [Heq|Hin].
      * simplify_eq. right. split; [done|]. right. split; [|done].
        intros [|Hx]%elem_of_cons; [done|]. apply Hf in Hx. lia.
      * left. split; [|done]. intros ->. apply elem_of_cons in Hin as [Heq|Hin]; [congruence|].
        assert (c' < c); [|lia]. apply Hf. apply list_elem_of_fmap. by exists (c, rows).
    + apply elem_of_cons in Hin as [Heq|Hin].
      * simplify_eq. left. split; [done|by left].
      * destruct (IH Hs' Hin) as [[? ?]|[-> [(ds0 & ? & ->)|[Hn ->]]]].
        -- left. split; [done|by right].
        -- right. split; [done|]. left. exists ds0. split; [by right|done].
        -- right. split; [done|]. right. split; [|done].
           intros [|Hx]%elem_of_cons; [done|]. by apply Hn.
Qed.

Lemma group_of_snoc c ds d :
  group_of c (ds ++ [d]) =
  group_of c ds ++ (if isTerminal (dl_state d) then []
                    else if dl_conversationId d =? c then [d] else []).
Proof.
  unfold group_of. rewrite filter_app. f_equal. rewrite filter_cons.
  change (filter _ []) with (@nil Delivery).
  destruct (isTerminal (dl_state d)), (Z.eqb_spec (dl_conversationId d) c);
    case_decide; naive_solver.
Qed.

Lemma group_of_empty c ds :
  (forall d, d ∈ ds -> isTerminal (dl_state d) = false -> dl_conversationId d <> c) ->
  group_of c ds = [].
Proof.
  intros Hn. apply filter_Forall_nil, Forall_forall. intros d Hd [Ht Hc]. by apply (Hn d).
Qed.

Lemma groups_ok_snoc gs ds d :
  sortedKeys gs -> groups_ok gs ds ->
  groups_ok (if isTerminal (dl_state d) then gs else groupAdd (dl_conversationId d) d gs) (ds ++ [d]).
Proof.
  intros Hs (Hnd & Hrows & Hcov). destruct (isTerminal (dl_state d)) eqn:Et.
  - split; [done|]. split.
    + intros c rows Hin. rewrite group_of_snoc, Et, app_nil_r. auto.
    + intros x [Hx|Hx]%elem_of_app Hu; [auto|]. apply list_elem_of_singleton in Hx as ->. congruence.
  - split; [by apply sortedKeys_nodup, groupAdd_sorted|]. split.
    + intros c rows Hin. rewrite group_of_snoc, Et.
      destruct (groupAdd_elem _ _ _ _ _ Hs Hin) as [[Hne Hin']|[-> [(ds0 & Hin' & ->)|[Hn ->]]]].
      * rewrite (proj2 (Z.eqb_neq (dl_conversationId d) c)) by congruence.
        rewrite app_nil_r. auto.
      * rewrite Z.eqb_refl. f_equal. auto.
      * rewrite Z.eqb_refl, group_of_empty; [done|]. intros x Hx Hu Heq. apply Hn. rewrite <- Heq. auto.
    + intros x [Hx|Hx]%elem_of_app Hu; apply groupAdd_keys; [right; auto|].
      apply list_elem_of_singleton in Hx as ->. by left.
Qed.

Lemma groupByConversation_ok ds pre gs :
  sortedKeys gs -> groups_ok gs pre -> groups_ok (groupByConversation ds gs) (pre ++ ds).
Proof.
  revert pre gs. induction ds as [|d ds IH]; intros pre gs Hs Hg; simpl.
  { by rewrite app_nil_r. }
  replace (pre ++ d :: ds) with ((pre ++ [d]) ++ ds) by by rewrite <- app_assoc.
  apply IH; [|by apply groups_ok_snoc].
  destruct (isTerminal (dl_state d)); [done|by apply groupAdd_sorted].
Qed.

Lemma groupByConversation_spec ds : groups_ok (groupByConversation ds []) ds.
Proof.
  apply (groupByConversation_ok ds [] []); [constructor|].
  split; [constructor|]. split.
  - intros c rows Hin. by apply elem_of_nil in Hin.
  - intros d Hd. by apply elem_of_nil in Hd.
Qed.

(** ** The local rows of one line

    While a conversation is being claimed, the local copies agree with the
    store and contain every unsettled row of the line. *)
Record rows_ok (v : StoreView) (u c : Z) (rows : list Delivery) : Prop := {
  ro_nodup : NoDup (dl_key <$> rows);
  ro_sound : forall d, d ∈ rows -> dl_recipient d = u /\ dl_conversationId d = c /\
    exists d0, v_deliveries v !! dl_key d = Some d0 /\ d = fill v d0;
  ro_complete : forall k d0, v_deliveries v !! k = Some d0 -> unsettled d0 ->
    dl_recipient d0 = u -> dl_conversationId d0 = c -> fill v d0 ∈ rows;
}.

(** Nothing but rows of conversation [c] changed. *)
Definition only_conv (c : Z) (v v' : StoreView) : Prop :=
  v_messages v' = v_messages v /\
  forall k, v_deliveries v' !! k = v_deliveries v !! k \/
    exists d d', v_deliveries v !! k = Some d /\ v_deliveries v' !! k = Some d' /\
      dl_conversationId d = c /\ dl_conversationId d' = c.

Lemma only_conv_refl c v : only_conv c v v.
Proof. split; [done|]. by left. Qed.

Lemma only_conv_trans c v1 v2 v3 : only_conv c v1 v2 -> only_conv c v2 v3 -> only_conv c v1 v3.
Proof.
  intros [Hm1 H1] [Hm2 H2]. split; [congruence|]. intros k.
  destruct (H1 k) as [E1|(d&d'&?&?&?&?)], (H2 k) as [E2|(e&e'&?&?&?&?)].
  - left. congruence.
  - right. exists e, e'. rewrite <- E1. done.
  - right. exists d, d'. rewrite E2. done.
  - right. exists d, e'. done.
Qed.

Lemma fill_messages_eq v v' d : v_messages v' = v_messages v -> fill v' d = fill v d.
Proof. intros E. unfold fill. by rewrite E. Qed.

Lemma rows_ok_other v v' u c c' rows :
  only_conv c v v' -> c' <> c -> rows_ok v u c' rows -> rows_ok v' u c' rows.
Proof.
  intros [Hm Hk] Hne [Hn Hs Hc]. split; [done| |].
  - intros d Hd. destruct (Hs d Hd) as (Hr & Hcv & d0 & E & ->). split; [done|]. split; [done|].
    rewrite fill_key, fill_conv in *. destruct (Hk (dl_key d0)) as [E'|(x & x' & E1 & _ & C1 & _)].
    + exists d0. rewrite E', (fill_messages_eq _ _ _ Hm). done.
    + rewrite E in E1. simplify_eq.
  - intros k d0 E Hu Hr Hcv. rewrite (fill_messages_eq _ _ _ Hm).
    destruct (Hk k) as [E'|(x & x' & _ & E1 & _ & C1)].
    + rewrite E' in E. eauto.
    + rewrite E in E1. simplify_eq.
Qed.

Lemma rows_ok_group v u c ds rows :
  spec_rows v (fun d => dl_recipient d = u) ds -> view_inv v ->
  rows = group_of c ds -> rows_ok v u c rows.
Proof.
  intros [Hnd Hin] Hv ->. split.
  - unfold group_of. eapply sublist_NoDup; [exact Hnd|]. apply fmap_sublist, sublist_filter.
  - intros d Hd. apply list_elem_of_filter in Hd as [[Hu Hc] Hd].
    apply Hin in Hd as (k & d0 & E & Hr & ->). rewrite fill_recipient. split; [done|]. split; [done|].
    exists d0. rewrite fill_key, (vi_key _ Hv _ _ E). done.
  - intros k d0 E Hu Hr Hc. apply list_elem_of_filter. rewrite fill_state, fill_conv.
    split; [done|]. apply Hin. eauto.
Qed.

(** The store and the local rows after the head was rewritten. *)
Lemma rows_ok_update v u c rows i h row :
  view_inv v -> rows_ok v u c rows -> rows !! i = Some h ->
  dl_key row = dl_key h -> dl_conversationId row = dl_conversationId h ->
  dl_sequence row = dl_sequence h ->
  rows_ok (view_updateDelivery row v) u c (<[i := row]> rows).
Proof.
  intros Hv [Hn Hs Hc] Hi Hk Hcv Hsq.
  destruct (Hs h ltac:(by eapply list_elem_of_lookup_2)) as (Hr & Hch & d0 & E0 & Eh).
  assert (v_deliveries v !! dl_key row = Some d0) as E by by rewrite Hk.
  rewrite (update_lookup _ _ _ E).
  injection Hk as Hkm Hkr.
  assert (dl_key row = dl_key h) as Hk by (unfold dl_key; congruence).
  assert (fill v row = row) as Hfill.
  { destruct (vi_row _ Hv _ _ E0) as (m & Em & _).
    assert (dl_messageId d0 = dl_messageId h) as Ed by (rewrite Eh; by rewrite fill_messageId).
    assert (dl_sequence h = msg_sequence m) as Es by (rewrite Eh; by apply fill_sequence).
    unfold fill. rewrite Hkm, <- Ed, Em. rewrite <- Es, <- Hsq. by destruct row. }
  assert (forall j d, rows !! j = Some d -> j <> i -> dl_key d <> dl_key row) as Hother.
  { intros j d Hj Hne Hkd. apply Hne. rewrite Hk in Hkd.
    eapply (NoDup_lookup (dl_key <$> rows)); [exact Hn| |]; rewrite list_lookup_fmap.
    - rewrite Hj. simpl. by rewrite Hkd.
    - by rewrite Hi. }
  split.
  - replace (dl_key <$> <[i:=row]> rows) with (dl_key <$> rows); [done|].
    rewrite list_fmap_insert, Hk. symmetry. apply list_insert_id.
    by rewrite list_lookup_fmap, Hi.
  - intros d Hd. apply list_elem_of_lookup in Hd as [j Hj].
    apply list_lookup_insert_Some in Hj as [(<- & <- & _)|(Hne & Hj)]; simpl.
    + split; [congruence|]. split; [congruence|]. exists row. rewrite lookup_insert_eq.
      split; [done|]. by rewrite (fill_messages_eq v).
    + destruct (Hs d ltac:(by eapply list_elem_of_lookup_2)) as (? & ? & d1 & E1 & ?).
      split; [done|]. split; [done|]. exists d1.
      rewrite lookup_insert_ne by (apply not_eq_sym; eapply Hother; [exact Hj|congruence]).
      by rewrite (fill_messages_eq v).
  - intros k d1 Ek Hu Hr1 Hc1. simpl in Ek. rewrite (fill_messages_eq v) by done.
    apply lookup_insert_Some in Ek as [[<- <-]|[Hne Ek]].
    + rewrite Hfill. eapply list_elem_of_lookup_2. apply list_lookup_insert_eq.
      by eapply lookup_lt_Some.
    + specialize (Hc _ _ Ek Hu Hr1 Hc1). apply list_elem_of_lookup in Hc as [j Hj].
      eapply list_elem_of_lookup_2 with j. rewrite list_lookup_insert_ne; [done|].
      intros <-. rewrite Hi in Hj. injection Hj as Eh'. apply Hne.
      rewrite Hk, Eh', fill_key. by apply (vi_key _ Hv).
Qed.

Lemma only_conv_update v row d0 :
  v_deliveries v !! dl_key row = Some d0 ->
  dl_conversationId row = dl_conversationId d0 ->
  only_conv (dl_conversationId row) v (view_updateDelivery row v).
Proof.
  intros E Hc. rewrite (update_lookup _ _ _ E). split; [done|]. intros k. simpl.
  destruct (decide (k = dl_key row)) as [->|Hne].
  - right. exists d0, row. by rewrite lookup_insert_eq.
  - left. by rewrite lookup_insert_ne.
Qed.
