(* ===== verification/CoordinatorInv.v ===== *)
(** * Every coordinator operation preserves the stored-state invariant

    Proved against the [MessageStoreLaws] interface, for every environment.
    The ghost predicate [G] relates the stored state to the environment (it is
    instantiated with the log of attempts); [Live] collects the assumptions
    under which no loop runs out of fuel. *)

From S2P Require Import Prelude DomainTypes Metrics Store World Coordinator ViewInv.
From S2P Require Import ClaimFacts.
From Stdlib Require Import QArith.

Open Scope Z_scope.
Open Scope eff_scope.

Section ghost.
Context {E : Type} `{!Env E}.

(** What a predicate on (stored state, environment) must satisfy to be carried
    through the operations. *)
Record env_ghost (G : StoreView -> E -> Prop) (Live : Prop) : Prop := {
  eg_evolves : forall v v' e, view_inv v -> view_inv v' -> evolves true v v' -> G v e -> G v' e;
  eg_clock : forall v e, G v e -> G v (clockNow e).1;
  eg_jitter : forall v e f d, G v e -> G v (jitterDraw f d e).1;
  eg_metrics : forall v e, G v e -> G v (metricsNow e).1;
  eg_deliver : forall v e a, view_inv v -> attempt_ok v a -> attempt_open v a -> G v e ->
    G v (sinkDeliver a e).1;
  eg_live_clock : Live -> forall e, - 2 ^ 62 <= (clockNow e).2 < 2 ^ 62;
  eg_live_sink : Live -> forall a e, (sinkDeliver a e).2 <> Throw Diverges;
}.

(** Recorder calls change the environment only by reading its clock. *)
Lemma runCall_env (P : E -> Prop) (c : RecorderCall) :
  (forall e, P e -> P (metricsNow e).1) -> keeps (fun re => P re.2) (runCall c).
Proof.
  intros HP.
  assert (forall f, safe (fun re : Recorder * E => P re.2) (modifyRec f)) as Hmod.
  { intros f [r e] Hre. exact Hre. }
  assert (safe (fun re : Recorder * E => P re.2) readClock) as Hclk.
  { intros [r e] Hre. unfold wp, readClock. simpl. specialize (HP e Hre).
    by destruct (metricsNow e). }
  assert (forall f J, keepsOr (fun re : Recorder * E => P re.2) J (modifyRec f)) as Hmod'
    by (intros; apply safe_keepsOr, Hmod).
  assert (forall J, keepsOr (fun re : Recorder * E => P re.2) J readClock) as Hclk'
    by (intros; apply safe_keepsOr, Hclk).
  destruct c; simpl; auto;
    unfold recordAccept, recordDeliveryCreated, recordDeliveryTransition, recordAttempt,
      recordAcceptedTimestamp, recordAck, recordEviction, updateOutboxLag, recordOutboxPoison,
      recordLegacyMode, updateConsumerSeenConversations, insertPendingLocked,
      removePendingLocked, snapshot, getRec; keeps_tac.
Qed.
End ghost.

Section inv.
Context {S E : Type} `{!MessageStore S, !MessageStoreLaws S, !Env E}.
Context (G : StoreView -> E -> Prop) (Live : Prop) (HG : env_ghost G Live).

Notation W := (World S E).
Notation weff := (eff exn W).

Definition vw (w : W) : StoreView := view (w_store w).

Definition config_ok (c : Coordinator) : Prop :=
  (Live -> 0 < leaseMs_ c < 2 ^ 62) /\
  0 <= retryBatchLimit (config_ c) < 2 ^ 32 /\ 0 <= cleanupBatch (config_ c) < 2 ^ 32.

(** The invariant, relative to the stored state [v0] of some earlier moment and
    the identities [n] still available. *)
Record Inv (full : bool) (v0 : StoreView) (n : Z) (w : W) : Prop := {
  inv_wf : store_wf (w_store w);
  inv_cap : n <= capacity (w_store w);
  inv_view : view_inv (vw w);
  inv_ev : evolves full v0 (vw w);
  inv_ghost : G (vw w) (w_env w);
  inv_config : config_ok (w_coord w);
}.

Definition Exc (full : bool) (v0 : StoreView) (n : Z) (x : exn) (w : W) : Prop :=
  Inv full v0 n w /\ (Live -> x <> Diverges).

Context (full : bool) (v0 : StoreView) (Hv0 : view_inv v0) (n : Z).

Notation I := (Inv full v0 n).
Notation X := (Exc full v0 n).
Notation good := (keepsOr I X).

(** ** Primitive effects *)

Lemma Inv_coord w c : config_ok c -> I w -> I (put_coord c w).
Proof. intros Hc []. by split. Qed.

Lemma Inv_env w e : G (vw w) e -> I w -> I (put_env e w).
Proof. intros Hg []. by split. Qed.

Lemma modifyCoord_good f :
  (forall c, leaseMs_ (f c) = leaseMs_ c /\ config_ (f c) = config_ c) ->
  good (modifyCoord f).
Proof.
  intros Hf. apply keepsOr_modify. intros w HI. apply Inv_coord; [|done].
  destruct (Hf (w_coord w)) as [E1 E2]. unfold config_ok. rewrite E1, E2. apply HI.
Qed.

Lemma wp_now w (Q : Z -> W -> Prop) (Ex : exn -> W -> Prop) :
  I w ->
  (forall t e, I (put_env e w) -> (Live -> - 2 ^ 62 <= t < 2 ^ 62) ->
     (forall v, G v (w_env w) -> G v e) -> Q t (put_env e w)) ->
  wp nowMs Q Ex w.
Proof.
  intros HI HQ. unfold wp, nowMs.
  pose proof (fun v => eg_clock _ _ HG v (w_env w)) as Hg.
  pose proof (fun l => eg_live_clock _ _ HG l (w_env w)) as Hl.
  destruct (clockNow (w_env w)) as [e t]. apply HQ; [|done|done].
  apply Inv_env; [apply Hg; apply HI|done].
Qed.

Lemma nowMs_good : good nowMs.
Proof. intros w HI. apply wp_now; auto. Qed.

Lemma drawJitter_good f d : good (drawJitter f d).
Proof.
  intros w HI. unfold wp, drawJitter.
  pose proof (eg_jitter _ _ HG _ _ f d (inv_ghost _ _ _ _ HI)) as Hg.
  destruct (jitterDraw f d (w_env w)) as [e x]. by apply Inv_env.
Qed.

(** A metrics call touches neither the stored state nor the coordinator. *)
Lemma wp_metric c w (Q : unit -> W -> Prop) (Ex : exn -> W -> Prop) :
  I w ->
  (forall r e, I (put_rec (r, e) w) -> Q tt (put_rec (r, e) w)) ->
  wp (metric c) Q Ex w.
Proof.
  intros HI HQ. unfold metric. apply wp_zoom.
  assert (keepsOr (fun re : Recorder * E => G (vw w) re.2) (fun _ _ => False)
            (recordBestEffort (runCall c))) as Hk.
  { apply keepsOr_swallow, runCall_env. intros e. apply (eg_metrics _ _ HG). }
  eapply wp_mono; [apply (Hk (w_rec w, w_env w)), HI| |by intros ? ? []].
  intros [] [r e] Hg. apply HQ. destruct HI. by split.
Qed.

Lemma metric_good c : good (metric c).
Proof. intros w HI. apply wp_metric; auto. Qed.

(** A store operation. *)
Lemma wp_store {A} (m : eff exn S A) (R : A -> StoreView -> Prop) w
    (Q : A -> W -> Prop) (Ex : exn -> W -> Prop) :
  I w ->
  store_op view store_wf capacity 0 m (w_store w) R ->
  (forall a v', R a v' -> view_inv v' /\ evolves full (vw w) v') ->
  (forall a s', I (put_store s' w) -> R a (view s') -> Q a (put_store s' w)) ->
  (forall x s', X x (put_store s' w) -> view s' = vw w -> Ex x (put_store s' w)) ->
  wp (onStore m) Q Ex w.
Proof.
  intros HI Hop HR HQ HE. unfold onStore. apply wp_zoom.
  pose proof HI as [Hwf Hcap Hview Hev Hg Hc].
  eapply wp_mono; [exact Hop| |].
  - intros a s' (Hwf' & Hcap' & Ha). destruct (HR a _ Ha) as [Hv' Hev']. apply HQ; [|done].
    split; [done|simpl; lia|done| | |done].
    + by apply (evolves_trans _ _ (vw w)).
    + eapply (eg_evolves _ _ HG (vw w)); [done|done|by eapply evolves_weaken|done].
  - intros x s' (Hx & Hwf' & Hcap' & Ev). apply HE; [|done]. split; [|done].
    split; [done|simpl; lia| | | |done]; unfold vw in *; simpl; by rewrite Ev.
Qed.

Lemma wp_read {A} (m : eff exn S A) (R : A -> Prop) w (Q : A -> W -> Prop) :
  I w ->
  store_op view store_wf capacity 0 m (w_store w) (fun a v' => v' = vw w /\ R a) ->
  (forall a s', I (put_store s' w) -> view s' = vw w -> R a -> Q a (put_store s' w)) ->
  wp (onStore m) Q X w.
Proof.
  intros HI Hop HQ. eapply wp_store; [exact HI|exact Hop| | |auto].
  - intros a v' [-> _]. split; [apply HI|apply evolves_refl].
  - intros a s' HI' [Ev HR]. auto.
Qed.

(** Writing back one row. *)
Lemma wp_update d d0 w (Q : unit -> W -> Prop) :
  I w -> v_deliveries (vw w) !! dl_key d = Some d0 -> row_step (vw w) d0 d ->
  (forall s', I (put_store s' w) -> view s' = view_updateDelivery d (vw w) ->
     Q tt (put_store s' w)) ->
  wp (onStore (updateDelivery d)) Q X w.
Proof.
  intros HI Hd0 Hrow HQ.
  eapply wp_store; [exact HI|apply updateDelivery_ok; apply HI| | |auto].
  - intros _ v' ->. split; [eapply update_inv; eauto; apply HI|].
    eapply update_evolves; eauto. by apply (vi_key _ (inv_view _ _ _ _ HI)).
  - intros [] s' HI' Ev. auto.
Qed.

(** ** Claiming *)

Lemma put_env_id (w : W) : put_env (w_env w) w = w.
Proof. by destruct w. Qed.

Lemma wp_backoff a w (Q : Z -> W -> Prop) (Ex : exn -> W -> Prop) :
  I w -> (forall d e, I (put_env e w) -> Q d (put_env e w)) -> wp (backoffMs a) Q Ex w.
Proof.
  intros HI HQ. unfold backoffMs, getCoord. apply wp_bind, wp_gets.
  case_match.
  - apply wp_bind. unfold wp at 1, drawJitter.
    set (f := jitterFraction _). set (d := backoffBeforeJitter _ _).
    pose proof (eg_jitter _ _ HG _ _ f d (inv_ghost _ _ _ _ HI)) as Hg.
    destruct (jitterDraw f d (w_env w)) as [e x]. apply wp_ret. apply HQ. by apply Inv_env.
  - apply wp_ret. rewrite <- (put_env_id w). apply HQ. by rewrite put_env_id.
Qed.

Lemma wp_retryDelay a w (Q : Z -> W -> Prop) (Ex : exn -> W -> Prop) :
  I w -> (forall d e, I (put_env e w) -> Q d (put_env e w)) -> wp (retryDelayMs a) Q Ex w.
Proof.
  intros HI HQ. unfold retryDelayMs, getCoord. apply wp_bind, wp_gets, wp_bind.
  apply wp_backoff; [done|]. intros d e HI'. apply wp_ret. by apply HQ.
Qed.

(** The persisted row of an accepted attempt is a legal step from the head. *)
Lemma claimedRow_step v u c rows i h m co session now next legacy :
  view_inv v -> rows_ok v u c rows -> is_head rows i h ->
  v_messages v !! dl_messageId h = Some m ->
  exists d0, v_deliveries v !! dl_key (claimedRow co session now next legacy h) = Some d0 /\
    row_step v d0 (claimedRow co session now next legacy h) /\
    lower_settled v u c (msg_sequence m) /\
    dl_sequence h = msg_sequence m /\ msg_conversationId m = c.
Proof.
  intros Hv Hro (Hi & Hu & Hmin) Hm.
  destruct (ro_sound _ _ _ _ Hro h ltac:(by eapply list_elem_of_lookup_2))
    as (Hr & Hc & d0 & Hd0 & Eh).
  assert (dl_sequence h = msg_sequence m) as Hs.
  { rewrite Eh. apply fill_sequence. by rewrite Eh, fill_messageId in Hm. }
  assert (lower_settled v u c (msg_sequence m)) as Hlow.
  { intros k d md Hk Hmd Hdr Hdc Hlt. apply not_false_iff_true. intros Hun.
    pose proof (ro_complete _ _ _ _ Hro k d Hk Hun Hdr Hdc) as Hin.
    apply list_elem_of_lookup in Hin as [j Hj].
    destruct (Hmin _ _ Hj) as [Hle _]; [by unfold unsettled; rewrite fill_state|].
    rewrite (fill_sequence _ _ _ Hmd) in Hle. lia. }
  assert (unsettled d0) as Hu0 by (unfold unsettled in *; by rewrite Eh, fill_state in Hu).
  exists d0. split; [exact Hd0|]. split; [|split; [done|split; [done|]]].
  - split; simpl.
    + by rewrite Eh, fill_conv.
    + by rewrite Eh, fill_expires.
    + intros Ht. unfold unsettled in Hu0. congruence.
    + intros Ha. unfold unsettled in Hu0. by rewrite Ha in Hu0.
    + intros _ m' Hm'. rewrite Hr, Hc. rewrite Hm in Hm'. injection Hm' as <-. done.
  - destruct (vi_row _ Hv _ _ Hd0) as (m0 & Hm0 & Hcm).
    rewrite Eh, fill_messageId, Hm0 in Hm. injection Hm as <-.
    rewrite Hcm, <- (fill_conv v d0), <- Eh. done.
Qed.

Lemma claimedRow_lease co session now next legacy h :
  config_ok co -> Live -> - 2 ^ 62 <= now < 2 ^ 62 ->
  now < dl_leaseUntilMs (claimedRow co session now next legacy h).
Proof.
  intros [Hl _] HL Hnow. specialize (Hl HL). simpl.
  rewrite (i64_small (leaseMs_ co)) by (unfold isI64; lia).
  rewrite i64_small by (unfold isI64; lia). lia.
Qed.

(** What [commitAttempt] guarantees about the row it returns. *)
Record committed (now : Z) (h row : Delivery) : Prop := {
  cm_key : dl_key row = dl_key h;
  cm_conv : dl_conversationId row = dl_conversationId h;
  cm_seq : dl_sequence row = dl_sequence h;
  cm_state : isTerminal (dl_state row) = true \/
             (dl_state row = InFlight /\ (Live -> now < dl_leaseUntilMs row));
}.

Lemma wp_commit session now u c rows i h m w :
  I w -> rows_ok (vw w) u c rows -> is_head rows i h ->
  v_messages (vw w) !! dl_messageId h = Some m ->
  (Live -> - 2 ^ 62 <= now < 2 ^ 62) ->
  wp (commitAttempt session now h m)
    (fun row w' => I w' /\ vw w' = view_updateDelivery row (vw w) /\ committed now h row) X w.
Proof.
  intros HI Hro Hh Hm Hnow. unfold commitAttempt, getCoord.
  apply wp_bind, wp_gets, wp_bind, wp_retryDelay; [done|]. intros delay e1 HI1.
  set (legacy := isLegacyClientMessageId _).
  set (row := claimedRow _ _ _ _ _ _).
  assert (committed now h row) as Hcm.
  { split; [done..|]. destruct legacy; [by left|]. right. split; [done|]. intros HL.
    apply claimedRow_lease; auto. apply HI. }
  destruct (claimedRow_step (vw w) u c rows i h m (w_coord w) session now (i64 (now + delay))
    legacy (inv_view _ _ _ _ HI) Hro Hh Hm) as (d0 & Hd0 & Hstep & _). fold row in Hd0, Hstep.
  assert (forall w1, I w1 -> vw w1 = vw w ->
    wp (onStore (updateDelivery row) ;;;
        metric (CallAttempt (1 <? dl_attemptCount row)) ;;;
        metric (CallTransition (metricId row) (fromDomainState (dl_state h)) InFlight) ;;;
        (if legacy then
           metric (CallTransition (metricId row) InFlight Acknowledged) ;;;
           metric (CallEviction (metricId row) (dl_messageId row))
         else ret tt) ;;;
        ret row)
      (fun row w' => I w' /\ vw w' = view_updateDelivery row (vw w) /\ committed now h row) X w1)
    as Hrest.
  { intros w1 HI' Ev. apply wp_bind. eapply wp_update; [done|by rewrite Ev|by rewrite Ev|].
    intros s' HI2 Ev2. rewrite Ev in Ev2.
    apply wp_bind, wp_metric; [done|]. intros r3 e3 HI3.
    apply wp_bind, wp_metric; [done|]. intros r4 e4 HI4.
    apply wp_bind. destruct legacy.
    - apply wp_bind, wp_metric; [done|]. intros r5 e5 HI5. apply wp_metric; [done|].
      intros r6 e6 HI6. by apply wp_ret.
    - by apply wp_ret. }
  apply wp_bind. destruct legacy.
  - apply wp_ret. by apply Hrest.
  - apply wp_modify. apply Hrest; [|done]. apply Inv_coord; [apply HI1|done].
Qed.

(** The sink is only called with the head of a line whose earlier rows are
    settled. *)
Lemma wp_deliver h m u c rows i w (Q : DeliverDisposition -> W -> Prop) :
  I w -> rows_ok (vw w) u c rows -> is_head rows i h ->
  v_messages (vw w) !! dl_messageId h = Some m ->
  (forall disp e, I (put_env e w) -> Q disp (put_env e w)) ->
  wp (deliver (mkDeliveryAttempt h m)) Q X w.
Proof.
  intros HI Hro Hh Hm HQ. unfold wp, deliver.
  destruct (claimedRow_step (vw w) u c rows i h m (w_coord w) defaultSession 0 0 false
    (inv_view _ _ _ _ HI) Hro Hh Hm) as (d0 & Hd0 & _ & Hlow & Hs & Hcm).
  pose proof Hh as (Hi & Hu & _).
  destruct (ro_sound _ _ _ _ Hro h ltac:(by eapply list_elem_of_lookup_2))
    as (Hr & Hc & d1 & Hd1 & Eh).
  assert (attempt_ok (vw w) (mkDeliveryAttempt h m)) as Hok.
  { split; simpl; [exists m; rewrite Hs, Hc; done|]. by rewrite Hr, Hc, Hs. }
  assert (attempt_open (vw w) (mkDeliveryAttempt h m)) as Hop.
  { exists d1, m. simpl. split; [exact Hd1|]. split; [done|].
    unfold unsettled in Hu. rewrite Eh, fill_state in Hu. split; [done|]. split; [|done].
    by rewrite Eh, fill_conv. }
  pose proof (eg_deliver _ _ HG _ _ _ (inv_view _ _ _ _ HI) Hok Hop (inv_ghost _ _ _ _ HI)) as Hg.
  pose proof (fun l => eg_live_sink _ _ HG l (mkDeliveryAttempt h m) (w_env w)) as Hl.
  destruct (sinkDeliver _ (w_env w)) as [e [disp|x]].
  - apply HQ. by apply Inv_env.
  - split; [by apply Inv_env|]. intros HL ->. by apply (Hl HL).
Qed.

(** The head of the rows, if any, cannot be claimed now. *)
Definition blocked (now : Z) (rows : list Delivery) : Prop :=
  forall i h, pickHead 0 rows None = Some (i, h) -> claimable now h = false.

(** Enough fuel: more than the unsettled rows, or a blocked head. *)
Definition fuelled (fuel : nat) (now : Z) (rows : list Delivery) : Prop :=
  (unsettledCount rows < fuel)%nat \/ ((0 < fuel)%nat /\ blocked now rows).

Lemma fuelled_step fuel now rows i h row :
  fuelled (Datatypes.S fuel) now rows -> pickHead 0 rows None = Some (i, h) ->
  claimable now h = true -> is_head rows i h -> Live -> committed now h row ->
  fuelled fuel now (<[i := row]> rows).
Proof.
  intros Hf Hp Hc Hh HL [Hk Hcv Hs Hst].
  destruct Hf as [Hf|[_ Hb]]; [|by rewrite (Hb _ _ Hp) in Hc].
  pose proof Hh as (Hi & Hu & _). destruct Hst as [Ht|[Hst Hlease]].
  - left. pose proof (unsettledCount_settle rows i h row Hi Hu Ht). lia.
  - right. pose proof (unsettledCount_head rows i h Hi Hu). split; [lia|].
    intros i' h' Hp'. erewrite pickHead_replace in Hp'; [|exact Hh| |exact Hs].
    + injection Hp' as <- <-. unfold claimable. rewrite Hst. simpl.
      apply Z.leb_gt. by apply Hlease.
    + unfold unsettled. by rewrite Hst.
Qed.

Lemma wp_claimConversation fuel session now u c rows w :
  I w -> rows_ok (vw w) u c rows ->
  (Live -> - 2 ^ 62 <= now < 2 ^ 62) -> (Live -> fuelled fuel now rows) ->
  wp (claimConversation fuel session now rows)
    (fun _ w' => I w' /\ only_conv c (vw w) (vw w')) X w.
Proof.
  intros HI Hro Hnow Hf. revert rows w HI Hro Hf.
  induction fuel as [|fuel IH]; intros rows w HI Hro Hf; simpl.
  { apply wp_throw. split; [done|]. intros HL. by destruct (Hf HL) as [?|[? _]]; lia. }
  pose proof (pickHead_head rows) as Hph.
  destruct (pickHead 0 rows None) as [[i h]|] eqn:Hp;
    [|by apply wp_ret; split; [|apply only_conv_refl]].
  destruct (claimable now h) eqn:Hc; simpl;
    [|by apply wp_ret; split; [|apply only_conv_refl]].
  apply wp_bind. eapply wp_read; [done| |].
  { eapply store_op_mono; [|apply findMessage_ok; apply HI]. cbv beta.
    intros a v' [Ha Hv']. split; [exact Hv'|exact Ha]. }
  intros om s1 HI1 Ev1 ->. change (view (w_store w)) with (vw w).
  destruct (v_messages (vw w) !! dl_messageId h) as [m|] eqn:Hm.
  2:{ apply wp_ret. split; [done|]. unfold vw at 2. simpl. rewrite Ev1. apply only_conv_refl. }
  assert (vw (put_store s1 w) = vw w) as Ev1' by done.
  apply wp_bind. eapply wp_deliver; [done|by rewrite Ev1'|exact Hph|by rewrite Ev1'|].
  intros disp e2 HI2. destruct disp.
  - apply wp_bind. assert (vw (put_env e2 (put_store s1 w)) = vw w) as Ev2 by done.
    eapply wp_mono; [eapply wp_commit; [done|rewrite Ev2; exact Hro|exact Hph|by rewrite Ev2|done]| |auto].
    intros row w3 (HI3 & Ev3 & Hcm). rewrite Ev2 in Ev3. pose proof Hcm as [Hk Hcv Hs _].
    pose proof Hph as (Hi & _).
    destruct (ro_sound _ _ _ _ Hro h ltac:(by eapply list_elem_of_lookup_2))
      as (Hr & Hch & d0 & Hd0 & Eh).
    assert (only_conv c (vw w) (vw w3)) as Hoc.
    { rewrite Ev3, <- Hch, <- Hcv. eapply only_conv_update; [by rewrite Hk|].
      rewrite Hcv, Eh. apply fill_conv. }
    eapply wp_mono; [apply IH; [done| |]| |auto].
    + rewrite Ev3. eapply rows_ok_update; eauto. apply HI.
    + intros HL. eapply fuelled_step; eauto.
    + intros ? w4 [HI4 Hoc4]. split; [done|]. by eapply only_conv_trans.
  - apply wp_bind, wp_modify, wp_ret. split; [apply Inv_coord; [apply HI2|done]|].
    unfold vw at 2. simpl. rewrite Ev1. apply only_conv_refl.
  - apply wp_ret. split; [done|]. unfold vw at 2. simpl. rewrite Ev1. apply only_conv_refl.
Qed.

Lemma claimGroups_good session now gs w :
  I w -> NoDup gs.*1 ->
  (forall c rows, (c, rows) ∈ gs -> rows_ok (vw w) (userId session) c rows) ->
  (Live -> - 2 ^ 62 <= now < 2 ^ 62) ->
  wp (claimGroups session now gs) (fun _ => I) X w.
Proof.
  intros HI Hnd Hgs Hnow. revert w HI Hgs.
  induction gs as [|[c rows] gs IH]; intros w HI Hgs; cbn [claimGroups]; [by apply wp_ret|].
  rewrite fmap_cons in Hnd. apply NoDup_cons in Hnd as [Hc Hnd]. apply wp_bind. eapply wp_mono.
  - eapply wp_claimConversation with (c := c); [done|apply Hgs; by left|done|].
    intros _. left. unfold claimFuel. pose proof (unsettledCount_le rows). lia.
  - intros b w' [HI' Hoc]. destruct b; [by apply wp_ret|]. apply IH; [done|done|].
    intros c' rows' Hin. eapply rows_ok_other; [exact Hoc| |apply Hgs; by right].
    intros ->. apply Hc. apply list_elem_of_fmap. by exists (c, rows').
  - auto.
Qed.

Lemma claimFor_good session : good (claimFor session).
Proof.
  intros w HI. unfold claimFor, getCoord. apply wp_bind, wp_gets.
  case_bool_decide; [by apply wp_ret|]. apply wp_bind.
  eapply wp_read; [done|apply deliveriesByRecipient_ok; apply HI|].
  intros ds s1 HI1 Ev1 Hrows. apply wp_bind, wp_now; [done|]. intros t e HI2 Ht _.
  destruct (groupByConversation_spec ds) as (Hnd & Hgr & _).
  apply claimGroups_good; [done|done| |done]. intros c rows Hin.
  change (vw (put_env e (put_store s1 w))) with (view s1). rewrite Ev1.
  eapply rows_ok_group; [exact Hrows|apply HI|by apply Hgr].
Qed.

(** ** Releasing rows *)

(** The listed in-flight rows are still unsettled in the store. *)
Definition rows_current (v : StoreView) (ds : list Delivery) : Prop :=
  NoDup (dl_key <$> ds) /\
  forall d, d ∈ ds -> dl_state d = InFlight ->
    exists d0, v_deliveries v !! dl_key d = Some d0 /\ unsettled d0 /\
      dl_conversationId d0 = dl_conversationId d /\ dl_expiresAtMs d0 = dl_expiresAtMs d.

Lemma rows_current_tail v d ds : rows_current v (d :: ds) -> rows_current v ds.
Proof.
  intros [Hn Hd]. apply NoDup_cons in Hn as [_ Hn]. split; [done|].
  intros x Hx. apply Hd. by right.
Qed.

Lemma rows_current_update v d row ds :
  rows_current v (d :: ds) -> dl_key row = dl_key d ->
  rows_current (view_updateDelivery row v) ds.
Proof.
  intros [Hn Hd] Hk. apply NoDup_cons in Hn as [Hni Hn]. split; [done|].
  intros x Hx Hst. destruct (Hd x ltac:(by right) Hst) as (d0 & Hd0 & Hrest).
  exists d0. split; [|done]. unfold view_updateDelivery. case_match; [|done]. simpl.
  rewrite lookup_insert_ne; [done|]. rewrite Hk. intros Heq. apply Hni. rewrite Heq.
  by apply list_elem_of_fmap_2.
Qed.

Lemma rows_current_spec v sel ds :
  view_inv v -> spec_rows v sel ds -> rows_current v ds.
Proof.
  intros Hv [Hn Hin]. split; [done|]. intros d Hd Hst.
  apply Hin in Hd as (k & d0 & Hk & _ & ->). exists d0.
  rewrite fill_key, fill_conv, fill_expires, (vi_key _ Hv _ _ Hk).
  rewrite fill_state in Hst. unfold unsettled. by rewrite Hst.
Qed.

Lemma rows_current_due v now limit ds :
  view_inv v -> spec_due now limit v ds -> rows_current v ds.
Proof.
  intros Hv (Hn & _ & Hin & _). split; [done|]. intros d Hd Hst.
  destruct (Hin d Hd) as (_ & k & Hk). exists d. rewrite (vi_key _ Hv _ _ Hk).
  unfold unsettled. by rewrite Hst.
Qed.

Lemma wp_releaseRow d ds w :
  I w -> rows_current (vw w) (d :: ds) -> dl_state d = InFlight ->
  wp (releaseRow d)
    (fun _ w' => I w' /\ w_coord w' = w_coord w /\
       vw w' = view_updateDelivery (with_released d) (vw w) /\ rows_current (vw w') ds) X w.
Proof.
  intros HI Hrc Hst. pose proof Hrc as [_ Hd].
  destruct (Hd d ltac:(by left) Hst) as (d0 & Hd0 & Hu & Hc & Hx).
  unfold releaseRow. apply wp_bind. eapply wp_update; [done|exact Hd0| |].
  - split; simpl; [done|done| | |done].
    + unfold unsettled in Hu. congruence.
    + intros Ha. unfold unsettled in Hu. by rewrite Ha in Hu.
  - intros s' HI' Ev. apply wp_metric; [done|]. intros r e HI2.
    split; [done|]. split; [done|].
    assert (vw (put_rec (r, e) (put_store s' w)) = view_updateDelivery (with_released d) (vw w))
      as -> by done.
    split; [done|]. by eapply rows_current_update.
Qed.

Lemma releaseRows_good sel ds w :
  I w -> rows_current (vw w) ds ->
  wp (releaseRows sel ds) (fun _ w' => I w' /\ w_coord w' = w_coord w) X w.
Proof.
  intros HI Hrc. unfold releaseRows. revert w HI Hrc.
  induction ds as [|d ds IH]; intros w HI Hrc; simpl; [by apply wp_ret|].
  apply wp_bind. case_bool_decide as Hst; simpl.
  2:{ apply wp_ret. apply IH; [done|]. by eapply rows_current_tail. }
  destruct (sel d).
  - eapply wp_mono; [by apply wp_releaseRow| |auto].
    intros ? w' (HI' & Ec & _ & Hrc'). eapply wp_mono; [by apply IH| |auto].
    intros ? w2 [HI2 Ec2]. split; [done|congruence].
  - apply wp_ret. apply IH; [done|]. by eapply rows_current_tail.
Qed.

(** ** The public operations of the coordinator *)

Lemma acknowledge_good acker i : good (acknowledge acker i).
Proof.
  intros w HI. unfold acknowledge, getCoord. apply wp_bind, wp_gets.
  case_match; [by apply wp_ret|]. apply wp_bind.
  eapply wp_read; [done|apply deliveriesByMessage_ok; apply HI|].
  intros ds s1 HI1 Ev1 [Hnd Hin]. destruct ds as [|d1 ds]; [by apply wp_ret|].
  destruct (List.find _ (d1 :: ds)) as [mine|] eqn:Ef; [|by apply wp_ret].
  apply find_some in Ef as [Hmine _]. apply list_elem_of_In in Hmine.
  case_bool_decide; [by apply wp_ret|].
  apply wp_bind, wp_now; [done|]. intros t e HI2 Ht _. apply wp_bind.
  apply Hin in Hmine as (k & d0 & Hk & _ & ->).
  assert (vw (put_env e (put_store s1 w)) = vw w) as Ev by done.
  eapply wp_update with (d0 := d0); [done| | |].
  - rewrite Ev. unfold with_acked, dl_key. simpl.
    rewrite fill_messageId, fill_recipient. by rewrite <- (vi_key _ (inv_view _ _ _ _ HI) _ _ Hk) in Hk.
  - split; simpl; rewrite ?fill_conv, ?fill_expires; done.
  - intros s' HI' _. apply wp_bind. eapply wp_mono; [by apply claimFor_good| |auto].
    intros ? w4 HI4. do 3 (apply wp_bind, wp_metric; [done|]; intros ? ? ?). by apply wp_ret.
Qed.

Lemma sessionAvailable_good session : good (sessionAvailable session).
Proof.
  intros w HI. unfold sessionAvailable, getCoord. apply wp_bind, wp_gets.
  set (stale := match observedGenerationByUser_ _ !! _ with Some g => _ | None => false end).
  destruct stale; [by apply wp_ret|]. apply wp_bind.
  set (newer := match observedGenerationByUser_ _ !! _ with Some g => _ | None => true end).
  assert (good (if newer then modifyCoord (fun c => set_observed
      (<[userId session := generation session]> (observedGenerationByUser_ c)) c) else ret tt : weff unit))
    as Hobs by (destruct newer; [by apply modifyCoord_good|apply keepsOr_ret]).
  eapply wp_mono; [by apply Hobs| |auto]. intros ? w1 HI1. apply wp_bind.
  eapply wp_read; [done|apply deliveriesByRecipient_ok; apply HI1|].
  intros ds s1 HI2 Ev Hrows. apply wp_bind.
  eapply wp_mono; [apply releaseRows_good; [done|]| |auto].
  { change (vw (put_store s1 w1)) with (view s1). rewrite Ev.
    eapply rows_current_spec; [apply HI1|exact Hrows]. }
  intros ? w3 [HI3 _]. apply wp_bind. eapply wp_mono; [by apply modifyCoord_good| |auto].
  intros ? w4 HI4. by apply claimFor_good.
Qed.

Lemma sessionClosed_good session : good (sessionClosed session).
Proof.
  unfold sessionClosed, getCoord. apply keepsOr_bind; [by apply modifyCoord_good|intros _].
  apply keepsOr_bind; [apply keepsOr_gets|intros c].
  apply keepsOr_bind.
  { case_bool_decide; [|apply keepsOr_ret].
    apply keepsOr_bind; [by apply modifyCoord_good|intros; apply keepsOr_ret]. }
  intros cur w HI. apply wp_bind.
  eapply wp_read; [done|apply deliveriesByRecipient_ok; apply HI|].
  intros ds s1 HI2 Ev Hrows. apply wp_bind.
  eapply wp_mono; [apply releaseRows_good; [done|]| |auto].
  { change (vw (put_store s1 w)) with (view s1). rewrite Ev.
    eapply rows_current_spec; [apply HI|exact Hrows]. }
  intros ? w3 [HI3 _]. destruct cur; [by apply claimFor_good|by apply wp_ret].
Qed.

Lemma resume_good session : good (resume session).
Proof.
  unfold resume, getCoord. keeps_tac; [by apply modifyCoord_good|apply claimFor_good].
Qed.

Lemma onAccepted_good us : good (onAccepted us).
Proof.
  apply keepsOr_forM. intros u _. unfold getCoord. keeps_tac. apply claimFor_good.
Qed.

Lemma collectDue_good due acc w :
  I w -> rows_current (vw w) due -> (forall d, d ∈ due -> dl_state d = InFlight) ->
  wp (collectDue due acc) (fun _ => I) X w.
Proof.
  revert acc w. induction due as [|d due IH]; intros acc w HI Hrc Hst; simpl; [by apply wp_ret|].
  assert (forall acc w', I w' -> rows_current (vw w') due ->
    wp (collectDue due acc) (fun _ => I) X w') as Hnext.
  { intros acc' w' HI' Hrc'. apply IH; [done|done|]. intros x Hx. apply Hst. by right. }
  apply wp_bind. unfold rollBackDue, getCoord. apply wp_bind, wp_gets.
  pose proof (rows_current_tail _ _ _ Hrc) as Hrc'.
  case_match; [|apply wp_ret; by apply Hnext].
  case_bool_decide; [apply wp_ret; by apply Hnext|].
  case_bool_decide; simpl; [|apply wp_ret; by apply Hnext].
  apply wp_bind. eapply wp_mono; [apply wp_releaseRow; [done|exact Hrc|apply Hst; by left]| |auto].
  intros ? w' (HI' & _ & _ & Hrc2). apply wp_ret. by apply Hnext.
Qed.

Lemma runRetryScan_good now : good (runRetryScan now).
Proof.
  unfold runRetryScan, getCoord. apply keepsOr_bind; [by apply modifyCoord_good|intros _].
  intros w HI. apply wp_bind, wp_gets, wp_bind.
  eapply wp_read; [done|apply deliveriesDueForRetry_ok; [apply HI|apply (inv_config _ _ _ _ HI)]|].
  intros due s1 HI1 Ev Hdue. destruct due as [|d due]; [by apply wp_ret|].
  apply wp_bind. eapply wp_mono; [apply collectDue_good; [done| |]| |auto].
  - change (vw (put_store s1 w)) with (view s1). rewrite Ev.
    eapply rows_current_due; [apply HI|exact Hdue].
  - intros x Hx. destruct Hdue as (_ & _ & Hin & _). by apply Hin.
  - intros toClaim w2 HI2. apply wp_bind. eapply wp_mono; [| |intros x w3 H3; exact H3].
    + eapply keepsOr_forM; [|exact HI2]. intros s _. apply claimFor_good.
    + intros ? w3 HI3. by apply wp_bind, wp_gets, wp_ret.
Qed.
End inv.
