(* ===== verification/MessagingInv.v ===== *)
(** * Every messaging operation preserves the invariant; what accept does

    The durable part of [accept], its idempotency, the tick, and executions. *)

From S2P Require Import Prelude DomainTypes Metrics Store World Coordinator Messaging.
From S2P Require Import ViewInv ClaimFacts CoordinatorInv.

Open Scope Z_scope.
Open Scope eff_scope.

(** All recipients' rows, in order. *)
Definition view_insertAll (m : Message) (expiresAt : Z) (us : list UserId) (v : StoreView) : StoreView :=
  foldl (fun v u => view_insertDelivery (newDelivery m u expiresAt) v) v us.

(** [m] tops its conversation in [v]. *)
Definition tops (v : StoreView) (m : Message) : Prop :=
  v_messages v !! msg_id m = Some m /\
  forall j m', v_messages v !! j = Some m' -> msg_conversationId m' = msg_conversationId m ->
    msg_sequence m' <= msg_sequence m.

(** What the durable part of accept wrote. *)
Record accepted_durably (v : StoreView) (sender : SessionIdentity) (cmd : SendMessageCommand)
    (m : Message) (v' : StoreView) : Prop := {
  ad_fresh : v_messages v !! msg_id m = None;
  ad_sender : msg_senderId m = userId sender;
  ad_command : msg_command m = cmd;
  ad_conversation : v_conversations v' !! convKey sender cmd = Some (msg_conversationId m) /\
    v_conversations v ⊆ v_conversations v';
  ad_sequence : forall i m', v_messages v !! i = Some m' ->
    msg_conversationId m' = msg_conversationId m -> msg_sequence m' < msg_sequence m;
  ad_messages : v_messages v' = <[msg_id m := m]> (v_messages v);
  ad_accepted : v_accepted v' = <[(userId sender, clientMessageId cmd) := m]> (v_accepted v);
  ad_rows : exists expiresAt, forall k,
    v_deliveries v' !! k =
    if decide (k.1 = msg_id m /\ k.2 ∈ recipientsFor cmd)
    then Some (newDelivery m k.2 expiresAt) else v_deliveries v !! k;
  ad_outbox : exists ev, v_outbox v !! ev_id ev = None /\
    v_outbox v' = <[ev_id ev := ev]> (v_outbox v) /\
    ev_aggregateMessageId ev = msg_id m /\ ev_eventType ev = "MessageAccepted"%string /\
    ev_availableAtMs ev = msg_acceptedAtMs m /\ ev_processedAtMs ev = 0;
}.

(** The result of accept in terms of the stored state. *)
Definition accept_result (v : StoreView) (sender : SessionIdentity) (cmd : SendMessageCommand)
    (o : AcceptOutcome) (v' : StoreView) : Prop :=
  match v_accepted v !! (userId sender, clientMessageId cmd) with
  | Some m =>
      if samePayload (msg_command m) cmd
      then o = acceptedOutcome true m /\ evolves false v v'
      else o = conflictOutcome /\ v' = v
  | None => exists m v2, o = acceptedOutcome false m /\
      accepted_durably v sender cmd m v2 /\ evolves false v2 v'
  end.

Lemma view_insertAll_frame m x us v :
  v_messages (view_insertAll m x us v) = v_messages v /\
  v_accepted (view_insertAll m x us v) = v_accepted v /\
  v_conversations (view_insertAll m x us v) = v_conversations v /\
  v_outbox (view_insertAll m x us v) = v_outbox v.
Proof.
  unfold view_insertAll. revert v. induction us as [|u us IH]; intros v; simpl; [done|].
  destruct (IH (view_insertDelivery (newDelivery m u x) v)) as (-> & -> & -> & ->).
  unfold view_insertDelivery. by case_match.
Qed.

Lemma view_insertAll_rows m x us v k :
  (forall u, v_deliveries v !! (msg_id m, u) = None \/
             v_deliveries v !! (msg_id m, u) = Some (newDelivery m u x)) ->
  v_deliveries (view_insertAll m x us v) !! k =
  if decide (k.1 = msg_id m /\ k.2 ∈ us) then Some (newDelivery m k.2 x)
  else v_deliveries v !! k.
Proof.
  unfold view_insertAll. revert v. induction us as [|u us IH]; intros v Hv; simpl.
  { rewrite decide_False; [done|]. intros [_ Hx]. by apply elem_of_nil in Hx. }
  set (d := newDelivery m u x). assert (dl_key d = (msg_id m, u)) as Hk by done.
  assert (forall k', v_deliveries (view_insertDelivery d v) !! k' =
    if decide (k' = (msg_id m, u)) then Some d else v_deliveries v !! k') as Hins.
  { intros k'. unfold view_insertDelivery. rewrite Hk.
    destruct (Hv u) as [E|E]; rewrite E; cbn [v_deliveries set_deliveries];
      destruct (decide (k' = (msg_id m, u))) as [->|Hne];
      by rewrite ?lookup_insert_eq, ?lookup_insert_ne. }
  rewrite IH.
  - rewrite Hins. destruct k as [k1 k2]. simpl.
    destruct (decide (k1 = msg_id m /\ k2 ∈ us)) as [[-> ?]|Hn].
    + rewrite decide_True; [done|]. split; [done|by right].
    + destruct (decide ((k1, k2) = (msg_id m, u))) as [Heq|Hne].
      * simplify_eq. rewrite decide_True; [done|]. split; [done|by left].
      * rewrite decide_False; [done|]. intros [-> [->|?]%elem_of_cons]; tauto.
  - intros u'. rewrite Hins.
    destruct (decide ((msg_id m, u') = (msg_id m, u))) as [Heq|]; [|by apply Hv].
    simplify_eq. by right.
Qed.

Section minv.
Context {S E : Type} `{!MessageStore S, !MessageStoreLaws S, !Env E}.
Context (G : StoreView -> E -> Prop) (Live : Prop) (HG : env_ghost G Live).

Notation W := (World S E).
Notation weff := (eff exn W).
Notation Inv := (Inv G Live).
Notation Exc := (Exc G Live).

Lemma Inv_less full v0 n n' w : Inv full v0 n w -> n' <= n -> Inv full v0 n' w.
Proof. intros [] ?. split; auto. lia. Qed.

Lemma Exc_less full v0 n n' x w : Exc full v0 n x w -> n' <= n -> Exc full v0 n' x w.
Proof. intros [HI Hx] ?. split; [|done]. by eapply Inv_less. Qed.

(** A store operation that may consume identities. *)
Lemma wp_store_used {A} used (m : eff exn S A) (R : A -> StoreView -> Prop) v0 n w
    (Q : A -> W -> Prop) (Ex : exn -> W -> Prop) :
  view_inv v0 -> Inv true v0 n w -> 0 <= used ->
  store_op view store_wf capacity used m (w_store w) R ->
  (forall a v', R a v' -> view_inv v' /\ evolves true (vw w) v') ->
  (forall a s', Inv true v0 (n - used) (put_store s' w) -> R a (view s') -> Q a (put_store s' w)) ->
  (forall x w', Exc true v0 (n - used) x w' -> Ex x w') ->
  wp (onStore m) Q Ex w.
Proof.
  intros Hv0 HI Hu Hop HR HQ HE. unfold onStore. apply wp_zoom.
  pose proof HI as [Hwf Hcap Hview Hev Hg Hc].
  eapply wp_mono; [exact Hop| |].
  - intros a s' (Hwf' & Hcap' & Ha). destruct (HR a _ Ha) as [Hv' Hev']. apply HQ; [|done].
    split; [done|simpl; lia|done| | |done].
    + by apply (evolves_trans _ _ (vw w)).
    + by apply (eg_evolves _ _ HG (vw w)).
  - intros x s' (Hx & Hwf' & Hcap' & Ev). apply HE. split; [|done].
    split; [done|simpl; lia| | | |done]; unfold vw in *; simpl; by rewrite Ev.
Qed.

(** The rows of a freshly inserted message; [v1] is the state before it. *)
Lemma wp_insertAll m x us v0 v1 n w :
  view_inv v0 -> view_inv v1 -> Inv true v0 n w ->
  v_messages v0 !! msg_id m = None -> v_messages v1 !! msg_id m = None ->
  tops (vw w) m -> evolves true v1 (vw w) -> G v1 (w_env w) ->
  wp (forM us (fun u => onStore (insertDelivery (newDelivery m u x))))
    (fun _ w' => Inv true v0 n w' /\ w_coord w' = w_coord w /\
       vw w' = view_insertAll m x us (vw w)) (Exc true v0 n) w.
Proof.
  intros Hv0 Hv1 HI H0 H1 Ht Hev Hg. revert w HI Ht Hev Hg.
  induction us as [|u us IH]; intros w HI Ht Hev Hg; cbn [forM]; [by apply wp_ret|].
  apply wp_bind. unfold onStore at 1. apply wp_zoom.
  pose proof HI as [Hwf Hcap Hview Hev0 _ Hc].
  set (d := newDelivery m u x).
  destruct (insertDelivery_step v0 (vw w) d m) as [Hvi Hev0']; [done..|apply Ht|done|done|apply Ht|].
  destruct (insertDelivery_step v1 (vw w) d m) as [_ Hev1']; [done..|apply Ht|done|done|apply Ht|].
  eapply wp_mono; [apply insertDelivery_ok; apply HI| |].
  - intros [] s' (Hwf' & Hcap' & Ev).
    assert (vw (put_store s' w) = view_insertDelivery d (vw w)) as Ev' by exact Ev.
    assert (Inv true v0 n (put_store s' w)) as HI'.
    { split; [done|simpl; lia|by rewrite Ev'|by rewrite Ev'| |done]. rewrite Ev'.
      by apply (eg_evolves _ _ HG v1). }
    eapply wp_mono; [apply IH; [done| |by rewrite Ev'|done]| |auto].
    + rewrite Ev'. destruct Ht as [? ?]. unfold tops, view_insertDelivery. by case_match.
    + intros ? w' (HI2 & Hco & Hvw). split; [done|]. split; [by rewrite Hco|].
      rewrite Hvw, Ev'. done.
  - intros ex s' (Hx & Hwf' & Hcap' & Ev). split; [|done].
    split; [done|simpl; lia| | | |done]; unfold vw in *; simpl; rewrite Ev; auto. apply HI.
Qed.

(** Assembling what the durable part wrote from the store's promises. *)
Lemma accepted_durably_intro sender cmd acceptedAt v v1 v2 c m x :
  view_inv v -> v_accepted v !! (userId sender, clientMessageId cmd) = None ->
  spec_conversation (convKey sender cmd) v c v1 ->
  spec_insertMessage (mkMessage 0 c 0 (userId sender) cmd acceptedAt) v1 m v2 ->
  accepted_durably v sender cmd m (view_insertAll m x (recipientsFor cmd) v2).
Proof.
  intros Hv Hacc Hconv (Em & Hfresh & Htop & Hms & Hac & Hcv & Hds & Hdl & ev & Hev).
  assert (v_messages v1 = v_messages v /\ v_accepted v1 = v_accepted v /\
    v_deliveries v1 = v_deliveries v /\ v_outbox v1 = v_outbox v /\
    v_conversations v1 !! convKey sender cmd = Some c /\
    v_conversations v ⊆ v_conversations v1) as (Em1 & Ea1 & Ed1 & Eo1 & Ec1 & Es1).
  { unfold spec_conversation in Hconv. destruct (v_conversations v !! _) eqn:Ec.
    - destruct Hconv as [-> ->]. done.
    - destruct Hconv as [-> _]. simpl. rewrite lookup_insert_eq.
      repeat (split; [done|]). by apply insert_subseteq. }
  destruct (view_insertAll_frame m x (recipientsFor cmd) v2) as (F1 & F2 & F3 & F4).
  assert (msg_conversationId m = c /\ msg_senderId m = userId sender /\ msg_command m = cmd)
    as (Emc & Ems & Emk) by (rewrite Em; done).
  rewrite Em1 in Hfresh, Htop, Hms. cbv zeta in Hac. rewrite Ea1, Ems, Emk, Hacc in Hac.
  split; auto.
  - by rewrite F3, Hcv, Emc.
  - by rewrite F1.
  - by rewrite F2.
  - exists x. intros k. rewrite view_insertAll_rows; [by rewrite Hds, Ed1|].
    intros u. left. rewrite Hds, Ed1. destruct (v_deliveries v !! (msg_id m, u)) as [d|] eqn:E0; [|done].
    destruct (view_inv_message _ _ _ Hv E0) as [m0 Hm0]. simpl in Hm0. congruence.
  - exists ev. rewrite F4. rewrite Eo1 in Hev. naive_solver.
Qed.

(** A freshly inserted message tops its conversation. *)
Lemma insertMessage_tops draft v m v' : spec_insertMessage draft v m v' -> tops v' m.
Proof.
  intros (_ & Hf & Htop & Hms & _). split; rewrite Hms; [by rewrite lookup_insert_eq|].
  intros j m'. rewrite lookup_insert_Some. intros [[<- <-]|[_ Hj]] Hc; [lia|].
  apply Htop in Hj; [lia|done].
Qed.

Lemma wp_acceptDurably v0 n sender cmd w :
  view_inv v0 -> Inv true v0 n w -> 2 <= n ->
  v_accepted (vw w) !! (userId sender, clientMessageId cmd) = None ->
  wp (acceptDurably sender cmd)
    (fun r w' => Inv true v0 (n - 2) w' /\ accepted_durably (vw w) sender cmd r.1 (vw w'))
    (Exc true v0 (n - 2)) w.
Proof.
  intros Hv0 HI Hn Hacc. unfold acceptDurably, getCoord.
  pose proof (inv_cap _ _ _ _ _ _ HI) as Hcap.
  apply wp_bind. eapply (wp_store_used 1 _ _ v0 n); [done|exact HI|lia| | | |].
  { apply getOrCreateConversation_ok; [apply HI|lia]. }
  { intros c v' Hc. eapply conversation_inv; [apply HI|exact Hc]. }
  2:{ intros x w' HX. eapply Exc_less; [exact HX|lia]. }
  intros c s1 HI1 Hc. set (w1 := put_store s1 w) in *.
  apply wp_bind, (wp_now G Live HG true v0 (n - 1)); [done|].
  intros t1 e1 HI2 _ _. pose proof (inv_cap _ _ _ _ _ _ HI2) as Hcap2.
  set (w2 := put_env e1 w1) in *.
  apply wp_bind. eapply (wp_store_used 1 _ _ v0 (n - 1)); [done|exact HI2|lia| | | |].
  { apply insertMessage_ok; [apply HI2|lia]. }
  { intros m v' Hm. eapply insertMessage_inv; [apply HI2|exact Hm]. }
  2:{ intros x w' HX. eapply Exc_less; [exact HX|lia]. }
  intros m s3 HI3 Hm. set (w3 := put_store s3 w2) in *.
  replace (n - 1 - 1) with (n - 2) in HI3 by lia.
  apply wp_bind, (wp_now G Live HG true v0 (n - 2)); [done|]. intros t2 e2 HI4 _ Hge.
  apply wp_bind, wp_gets. apply wp_bind. set (w4 := put_env e2 w3) in *. set (x := i64 _).
  pose proof Hm as (_ & Hf & _).
  assert (v_messages v0 !! msg_id m = None) as Hf0.
  { destruct (v_messages v0 !! msg_id m) eqn:E0; [|done].
    pose proof (lookup_weaken _ _ _ _ E0 (ev_messages _ _ _ (inv_ev _ _ _ _ _ _ HI2))) as Hl.
    change (view (w_store w2)) with (vw w2) in Hf. congruence. }
  eapply wp_mono; [apply (wp_insertAll m x (recipientsFor cmd) v0 (vw w2) (n - 2) w4)| |auto].
  - done.
  - apply HI2.
  - done.
  - exact Hf0.
  - exact Hf.
  - eapply insertMessage_tops. exact Hm.
  - eapply insertMessage_inv; [apply HI2|exact Hm].
  - apply Hge. apply HI2.
  - intros ? w5 (HI5 & _ & Ev5). apply wp_ret. split; [done|]. rewrite Ev5.
    eapply accepted_durably_intro; [apply HI|done|exact Hc|exact Hm].
Qed.

(** Continuing from an intermediate state with claims only. *)
Lemma Inv_rebase full v0 n w : Inv full v0 n w -> Inv false (vw w) n w.
Proof. intros []. split; auto. apply evolves_refl. Qed.

Lemma Inv_compose full v0 n w w' :
  view_inv v0 -> Inv full v0 n w -> Inv false (vw w) n w' -> Inv full v0 n w'.
Proof.
  intros Hv0 HI []. split; auto. apply (evolves_trans _ _ (vw w)); [done|apply HI|].
  by apply evolves_full.
Qed.

Lemma wp_rebase {A} (m : weff A) full v0 n w (P : A -> StoreView -> Prop) :
  view_inv v0 -> Inv full v0 n w ->
  wp m (fun a w' => Inv false (vw w) n w' /\ P a (vw w')) (Exc false (vw w) n) w ->
  wp m (fun a w' => Inv full v0 n w' /\ evolves false (vw w) (vw w') /\ P a (vw w'))
    (Exc full v0 n) w.
Proof.
  intros Hv0 HI Hm. eapply wp_mono; [exact Hm| |].
  - intros a w' [HI' HP]. split; [by eapply Inv_compose|]. split; [apply HI'|done].
  - intros x w' [HI' Hx]. split; [by eapply Inv_compose|done].
Qed.

Lemma catchAll_good {A} full v0 n (m : weff A) (a : A) :
  keepsOr (Inv full v0 n) (Exc full v0 n) m ->
  keepsOr (Inv full v0 n) (Exc full v0 n) (catchAll m (fun _ => ret a)).
Proof.
  intros Hm. eapply keepsOr_catch; [exact Hm|]. intros x w HX.
  destruct x; try (apply wp_ret; apply HX). by apply wp_throw.
Qed.

Section fixed.
Context (full : bool) (v0 : StoreView) (Hv0 : view_inv v0) (n : Z).

Notation I := (Inv full v0 n).
Notation X := (Exc full v0 n).
Notation good := (keepsOr I X).

Lemma notify_good us : good (notifyAcceptedBestEffort us).
Proof. apply catchAll_good, onAccepted_good; done. Qed.

Lemma metric_good' c : good (metric c).
Proof. by apply metric_good. Qed.

Lemma acceptExisting_good m cmd : good (acceptExisting m cmd).
Proof.
  unfold acceptExisting. keeps_tac; auto using metric_good', notify_good.
Qed.

Lemma recordExpired_good r : good (recordExpired r).
Proof. unfold recordExpired. keeps_tac; auto using metric_good'. Qed.
End fixed.

Lemma wp_acceptNew v0 n sender cmd w :
  view_inv v0 -> Inv true v0 n w -> 2 <= n ->
  v_accepted (vw w) !! (userId sender, clientMessageId cmd) = None ->
  wp (acceptNew sender cmd)
    (fun o w' => Inv true v0 (n - 2) w' /\ accept_result (vw w) sender cmd o (vw w'))
    (Exc true v0 (n - 2)) w.
Proof.
  intros Hv0 HI Hn Hacc. unfold acceptNew. apply wp_bind.
  eapply wp_mono; [by apply (wp_acceptDurably v0 n)| |auto].
  intros [m t] w1 [HI1 Had]. simpl in Had.
  eapply wp_mono; [apply (wp_rebase _ true v0 (n - 2) w1 (fun o _ => o = acceptedOutcome false m) Hv0 HI1)| |auto].
  - pose proof (inv_view _ _ _ _ _ _ HI1) as Hv1. pose proof (Inv_rebase _ _ _ _ HI1) as HI2.
    set (J := Inv false (vw w1) (n - 2)) in *.
    apply (wp_bind_keeps J); [by apply metric_good'|done|intros _ w3 HI3].
    apply (wp_bind_keeps J); [by apply metric_good'|done|intros _ w4 HI4].
    apply (wp_bind_keeps J);
      [case_match; [by apply metric_good'|apply keepsOr_ret]|done|intros _ w5 HI5].
    apply (wp_bind_keeps J);
      [apply keepsOr_forM; intros u _; by apply metric_good'|done|intros _ w6 HI6].
    apply (wp_bind_keeps J); [by apply notify_good|done|intros _ w7 HI7].
    by apply wp_ret.
  - intros o w2 (HI2 & Hev & ->). split; [done|]. unfold accept_result. rewrite Hacc.
    exists m, (vw w1). done.
Qed.

Lemma wp_accept v0 n sender cmd w :
  view_inv v0 -> Inv true v0 n w -> 2 <= n ->
  wp (accept sender cmd)
    (fun o w' => Inv true v0 (n - 2) w' /\ accept_result (vw w) sender cmd o (vw w'))
    (Exc true v0 (n - 2)) w.
Proof.
  intros Hv0 HI Hn. unfold accept. apply wp_bind.
  eapply wp_mono; [eapply (wp_read G Live HG true v0 Hv0 n); [exact HI| |]| |].
  { eapply store_op_mono; [|apply findAccepted_ok; apply HI]. cbv beta.
    intros a v' [Ha Hv']. split; [exact Hv'|exact Ha]. }
  { intros a s1 HI1 Ev1 Ha. exact (conj HI1 (conj Ev1 Ha) : (fun a w' => Inv true v0 n w' /\
      vw w' = vw w /\ a = v_accepted (vw w) !! (userId sender, clientMessageId cmd)) a (put_store s1 w)). }
  2:{ intros x w' HX. eapply Exc_less; [exact HX|lia]. }
  intros existing w1 (HI1 & Ev1 & ->).
  destruct (v_accepted (vw w) !! (userId sender, clientMessageId cmd)) as [m|] eqn:Hacc.
  - unfold acceptExisting, accept_result. rewrite Hacc.
    destruct (samePayload (msg_command m) cmd).
    + eapply wp_mono; [apply (wp_rebase _ true v0 n w1 (fun o _ => o = acceptedOutcome true m) Hv0 HI1)| |].
      * pose proof (inv_view _ _ _ _ _ _ HI1) as Hv1. pose proof (Inv_rebase _ _ _ _ HI1) as HI2.
        set (J := Inv false (vw w1) n) in *.
        apply (wp_bind_keeps J); [by apply metric_good'|done|intros _ w3 HI3].
        apply (wp_bind_keeps J); [by apply notify_good|done|intros _ w4 HI4].
        by apply wp_ret.
      * intros o w2 (HI2 & Hev & ->). rewrite Ev1 in Hev. split; [eapply Inv_less; [done|lia]|done].
      * intros x w' HX. eapply Exc_less; [exact HX|lia].
    + apply wp_bind, (wp_metric G Live HG true v0 n); [done|]. intros r e HI2. apply wp_ret.
      split; [eapply Inv_less; [done|lia]|]. split; [done|]. exact Ev1.
  - apply wp_catch. rewrite <- Ev1 in Hacc |- *.
    eapply wp_mono; [by apply (wp_acceptNew v0 n)|auto|].
    intros x w2 [HI2 Hx]. destruct x; try by apply wp_throw.
    apply (wp_bind_keeps (Inv true v0 (n - 2))); [|done|intros _ w3 HI3; by apply wp_throw].
    destruct k; try apply keepsOr_ret; by apply metric_good'.
Qed.

(** ** Tick and scheduler *)

Lemma runTick_good v0 n : view_inv v0 -> keepsOr (Inv true v0 n) (Exc true v0 n) runTick.
Proof.
  intros Hv0. unfold runTick, getCoord. set (I := Inv true v0 n).
  apply keepsOr_bind; [by apply nowMs_good|intros now].
  intros w HI. apply wp_bind, wp_gets. set (cfg := config_ (w_coord w)).
  pose proof (inv_config _ _ _ _ _ _ HI) as (_ & Hlim & Hcb).
  apply wp_bind. eapply (wp_store G Live HG true v0 Hv0 n); [done| | | |auto].
  { by apply expireDeliveriesDetailed_ok; [apply HI|]. }
  { intros r v' Hr. eapply expire_inv; [apply HI|exact Hr]. }
  intros r s1 HI1 _.
  apply (wp_bind_keeps I);
    [apply keepsOr_forM; intros x _; by apply recordExpired_good|done|intros _ w2 HI2].
  apply wp_bind, wp_gets. apply (wp_bind_keeps I); [|done|intros _ w3 HI3].
  - apply keepsOr_if; [|apply keepsOr_ret].
    apply keepsOr_bind; [apply keepsOr_modify; intros w0 []; by split|intros _].
    apply keepsOr_bind; [|intros _; apply keepsOr_ret].
    intros w0 HI0. eapply (wp_store G Live HG true v0 Hv0 n); [done| | |auto|auto].
    + apply cleanupDeliveries_ok; [apply HI0|apply Hcb].
    + intros ? v' Hc. eapply cleanup_inv; [apply HI0|exact Hc].
  - apply (wp_bind_keeps I); [by apply runRetryScan_good|done|intros na w4 HI4].
    by apply wp_bind, wp_gets, wp_ret.
Qed.

Lemma runTickBestEffort_good v0 n :
  view_inv v0 -> keepsOr (Inv true v0 n) (Exc true v0 n) runTickBestEffort.
Proof. intros Hv0. by apply catchAll_good, runTick_good. Qed.

Lemma schedulerTurn_good v0 n :
  view_inv v0 -> keepsOr (Inv true v0 n) (Exc true v0 n) schedulerTurn.
Proof.
  intros Hv0. unfold schedulerTurn, getCoord. keeps_tac.
  - by apply runTickBestEffort_good.
  - by apply nowMs_good.
Qed.

(** The identities a call may consume. *)
Definition callCost (call : RMCall) : Z :=
  match call with RMAccept _ _ => 2 | _ => 0 end.

Lemma runRMCall_inv v0 n call w :
  view_inv v0 -> Inv true v0 n w -> callCost call <= n ->
  wp (runRMCall call) (fun _ => Inv true v0 (n - callCost call))
    (Exc true v0 (n - callCost call)) w.
Proof.
  intros Hv0 HI Hn. destruct call; cbn [runRMCall callCost] in *; try rewrite Z.sub_0_r.
  - apply wp_bind. eapply wp_mono; [by apply (wp_accept v0 n)| |auto].
    intros o w' [HI' _]. by apply wp_ret.
  - eapply wp_bind_keeps; [by apply acknowledge_good|exact HI|intros; by apply wp_ret].
  - eapply wp_bind_keeps; [by apply sessionAvailable_good|exact HI|intros _ w1 HI1].
    eapply wp_bind_keeps; [by apply runTickBestEffort_good|exact HI1|intros; by apply wp_ret].
  - by apply sessionClosed_good.
  - by apply resume_good.
  - by apply onAccepted_good.
  - unfold start. apply wp_bind, wp_bind, wp_gets. destruct (running_ _); [by do 2 apply wp_ret|].
    apply wp_bind, wp_modify, wp_ret, wp_ret. destruct HI. by split.
  - unfold stopRequest. apply wp_bind, wp_gets. case_match; [by apply wp_ret|].
    apply wp_modify. destruct HI. by split.
  - unfold stopJoined. apply wp_bind, wp_gets, wp_modify. destruct HI. by split.
  - eapply wp_bind_keeps; [by apply schedulerTurn_good|exact HI|intros; by apply wp_ret].
Qed.

Lemma runRMCall_step v0 n call w :
  view_inv v0 -> Inv true v0 n w -> callCost call <= n ->
  Inv true v0 (n - callCost call) (runRMCall call w).1.
Proof.
  intros Hv0 HI Hn. pose proof (runRMCall_inv v0 n call w Hv0 HI Hn) as Hw. unfold wp in Hw.
  destruct (runRMCall call w) as [w' [a|x]]; [exact Hw|apply Hw].
Qed.

Lemma runRMCalls_inv v0 n calls w :
  view_inv v0 -> Inv true v0 n w -> 2 * Z.of_nat (length calls) <= n ->
  Inv true v0 (n - 2 * Z.of_nat (length calls)) (runRMCalls calls w).
Proof.
  intros Hv0. revert n w. induction calls as [|call calls IH]; intros n w HI Hn.
  { eapply Inv_less; [exact HI|simpl; lia]. }
  cbn [runRMCalls foldl]. assert (0 <= callCost call <= 2) as Hc by (destruct call; simpl; lia).
  cbn [length] in *. pose proof (runRMCall_step v0 n call w Hv0 HI ltac:(lia)) as HI'.
  eapply Inv_less; [apply (IH (n - callCost call)); [exact HI'|lia]|lia].
Qed.
End minv.
