(* ===== verification/Guarantees.v ===== *)
(** * Guarantees of the messaging module over whole executions

    An execution is a list of calls in mutex order from a well-formed world.
    The theorems hold for every store that satisfies [MessageStoreLaws] and for
    every sink and clock; the witnesses run them on the in-memory adapter. *)

From S2P Require Import Prelude DomainTypes Json Metrics Store InMemoryStore World.
From S2P Require Import Coordinator Messaging ViewInv ClaimFacts CoordinatorInv.
From S2P Require Import MessagingInv.
From Stdlib Require Import QArith.

Open Scope Z_scope.
Open Scope eff_scope.

(** ** Worlds *)

Record world_ok {S E} `{!MessageStore S, !MessageStoreLaws S} (w : World S E) : Prop := {
  wo_store : store_wf (w_store w);
  wo_view : view_inv (view (w_store w));
  wo_retry : 0 <= retryBatchLimit (config_ (w_coord w)) < 2 ^ 32;
  wo_cleanup : 0 <= cleanupBatch (config_ (w_coord w)) < 2 ^ 32;
}.

(** An environment that also keeps the log of attempts handed to the sink. *)
Record LogEnv (E : Type) := mkLogEnv { le_env : E; le_log : list DeliveryAttempt }.
Arguments mkLogEnv {E}.
Arguments le_env {E}.
Arguments le_log {E}.

Section logging.
Context {E : Type} `{!Env E}.

Definition keepLog {A} (f : E -> E * A) (e : LogEnv E) : LogEnv E * A :=
  let '(e', a) := f (le_env e) in (mkLogEnv e' (le_log e), a).

#[export] Instance logMetrics : MetricsClock (LogEnv E) := {| metricsNow := keepLog metricsNow |}.

#[export] Instance logEnv : Env (LogEnv E) := {|
  clockNow := keepLog clockNow;
  sinkDeliver a e :=
    let '(e', r) := sinkDeliver a (le_env e) in (mkLogEnv e' (le_log e ++ [a]), r);
  jitterDraw f d := keepLog (jitterDraw f d);
  env_metrics := logMetrics;
|}.

(** Attempts are in order, and on each line their sequences never decrease. *)
Definition log_ordered (log : list DeliveryAttempt) : Prop :=
  forall i j a b, log !! i = Some a -> log !! j = Some b -> (i <= j)%nat ->
    at_recipient a = at_recipient b -> at_conversationId a = at_conversationId b ->
    at_sequence a <= at_sequence b.

Definition log_ghost (v : StoreView) (e : LogEnv E) : Prop :=
  (forall a, a ∈ le_log e -> attempt_ok v a) /\ log_ordered (le_log e).

Lemma keepLog_log {A} (f : E -> E * A) e : le_log (keepLog f e).1 = le_log e.
Proof. unfold keepLog. by destruct (f (le_env e)). Qed.

Lemma log_ghost_ok (Live : Prop) :
  (Live -> forall e : E, - 2 ^ 62 <= (clockNow e).2 < 2 ^ 62) ->
  (Live -> forall a (e : E), (sinkDeliver a e).2 <> Throw Diverges) ->
  env_ghost log_ghost Live.
Proof.
  intros Hclk Hsink. split; unfold log_ghost.
  - intros v v' e Hv Hv' Hev [Hok Ho]. split; [|done]. intros a Ha.
    by eapply attempt_ok_evolves, Hok.
  - intros v e. change (clockNow e).1 with (keepLog clockNow e).1. by rewrite keepLog_log.
  - intros v e f d. change (jitterDraw f d e).1 with (keepLog (jitterDraw f d) e).1.
    by rewrite keepLog_log.
  - intros v e. change (metricsNow e).1 with (keepLog metricsNow e).1. by rewrite keepLog_log.
  - intros v e a Hv Hok Hop [Hall Ho]. simpl. destruct (sinkDeliver a (le_env e)) as [e' r]. simpl.
    split; [intros b [Hb|Hb]%elem_of_app; [auto|by apply list_elem_of_singleton in Hb as ->]|].
    intros i j x y Hx Hy Hij Hr Hc.
    apply lookup_app_Some in Hy as [Hy|[Hlen Hy]].
    + apply lookup_app_Some in Hx as [Hx|[Hlen Hx]]; [by eapply (Ho i j)|].
      apply lookup_lt_Some in Hy. lia.
    + apply list_lookup_singleton_Some in Hy as [_ <-].
      apply lookup_app_Some in Hx as [Hx|[Hlen' Hx]].
      * eapply attempt_open_order; eauto. apply Hall. by eapply list_elem_of_lookup_2.
      * apply list_lookup_singleton_Some in Hx as [_ <-]. lia.
  - intros HL e. simpl. unfold keepLog. specialize (Hclk HL (le_env e)).
    by destruct (clockNow (le_env e)).
  - intros HL a e. simpl. specialize (Hsink HL a (le_env e)).
    by destruct (sinkDeliver a (le_env e)).
Qed.
End logging.

Section guarantees.
Context {S E : Type} `{!MessageStore S, !MessageStoreLaws S, !Env E}.

Notation W := (World S E).

Lemma trivial_ghost : env_ghost (E := E) (fun _ _ => True) False.
Proof. by split. Qed.

Lemma world_ok_inv (w : W) :
  world_ok w -> Inv (fun _ _ => True) False true (vw w) (capacity (w_store w)) w.
Proof.
  intros []. split; [done|lia|done|apply evolves_refl|done|]. split; [done|auto].
Qed.

(** The state after an execution, related to the state before it. *)
Lemma execution_inv (w : W) calls :
  world_ok w -> 2 * Z.of_nat (length calls) <= capacity (w_store w) ->
  Inv (fun _ _ => True) False true (vw w)
    (capacity (w_store w) - 2 * Z.of_nat (length calls)) (runRMCalls calls w).
Proof.
  intros Hw Hn. apply (runRMCalls_inv _ _ trivial_ghost); [apply Hw|by apply world_ok_inv|done].
Qed.

(** The invariant of worlds is preserved by every execution. *)
Lemma world_ok_calls (w : W) calls :
  world_ok w -> 2 * Z.of_nat (length calls) <= capacity (w_store w) ->
  world_ok (runRMCalls calls w).
Proof. intros Hw Hn. destruct (execution_inv w calls Hw Hn) as [? _ ? _ _ (_ & ? & ?)]. by split. Qed.

(** C4: After any sequence of calls, whatever the sink, the clock and a lawful
    store did, at most one delivery of a conversation to a recipient is in flight. *)
Theorem at_most_one_in_flight (w : W) calls k1 k2 d1 d2 :
  world_ok w -> 2 * Z.of_nat (length calls) <= capacity (w_store w) ->
  let rows := v_deliveries (view (w_store (runRMCalls calls w))) in
  rows !! k1 = Some d1 -> rows !! k2 = Some d2 ->
  dl_recipient d1 = dl_recipient d2 -> dl_conversationId d1 = dl_conversationId d2 ->
  dl_state d1 = InFlight -> dl_state d2 = InFlight ->
  k1 = k2.
Proof.
  intros Hw Hn rows. eapply one_in_flight. apply (execution_inv w calls Hw Hn).
Qed.

(** C10: A settled delivery is never reopened and an acknowledged one stays
    acknowledged (until retention removes the row, which never comes back),
    over any sequence of calls. *)
Theorem settled_forever (w : W) calls k d :
  world_ok w -> 2 * Z.of_nat (length calls) <= capacity (w_store w) ->
  v_deliveries (view (w_store w)) !! k = Some d -> isTerminal (dl_state d) = true ->
  match v_deliveries (view (w_store (runRMCalls calls w))) !! k with
  | Some d' => isTerminal (dl_state d') = true /\
               (dl_state d = Acknowledged -> dl_state d' = Acknowledged)
  | None => forall later, 2 * Z.of_nat (length (calls ++ later)) <= capacity (w_store w) ->
      v_deliveries (view (w_store (runRMCalls (calls ++ later) w))) !! k = None
  end.
Proof.
  intros Hw Hn Hd Ht. pose proof (execution_inv w calls Hw Hn) as HI.
  pose proof (ev_rows _ _ _ (inv_ev _ _ _ _ _ _ HI) k) as Hr. unfold row_evolves, vw in Hr.
  rewrite Hd in Hr.
  destruct (v_deliveries (view (w_store (runRMCalls calls w))) !! k) as [d'|] eqn:E'.
  { split; [by apply Hr|apply Hr]. }
  intros later Hl. unfold runRMCalls. rewrite foldl_app. fold (runRMCalls calls w).
  set (w1 := runRMCalls calls w) in *. rewrite length_app, Nat2Z.inj_add in Hl.
  assert (Inv (fun _ _ => True) False true (vw w1)
    (capacity (w_store w) - 2 * Z.of_nat (length calls)) w1) as HI1.
  { destruct HI. split; auto. apply evolves_refl. }
  pose proof (runRMCalls_inv _ _ trivial_ghost _ _ later _ (inv_view _ _ _ _ _ _ HI1) HI1 ltac:(lia)) as HI2.
  pose proof (ev_rows _ _ _ (inv_ev _ _ _ _ _ _ HI2) k) as Hr2. unfold row_evolves, vw in Hr2.
  rewrite E' in Hr2. fold (runRMCalls later w1).
  destruct (v_deliveries (view (w_store (runRMCalls later w1))) !! k); [|done].
  exfalso. destruct Hr2 as [Hn2 _].
  destruct (view_inv_message _ _ _ (wo_view _ Hw) Hd) as [m Hm].
  pose proof (lookup_weaken _ _ _ _ Hm (ev_messages _ _ _ (inv_ev _ _ _ _ _ _ HI))) as Hm'.
  unfold vw in Hm'. fold w1 in Hm'. congruence.
Qed.
End guarantees.

Section ordering.
Context {S E : Type} `{!MessageStore S, !MessageStoreLaws S, !Env E}.

Lemma logged_execution_inv (w : World S (LogEnv E)) calls :
  world_ok w -> le_log (w_env w) = [] ->
  2 * Z.of_nat (length calls) <= capacity (w_store w) ->
  Inv log_ghost False true (vw w)
    (capacity (w_store w) - 2 * Z.of_nat (length calls)) (runRMCalls calls w).
Proof.
  intros Hw Hl Hn. apply (runRMCalls_inv (E := LogEnv E) _ _ (log_ghost_ok False ltac:(done) ltac:(done)));
    [apply Hw| |done].
  destruct Hw. split; [done|lia|done|apply evolves_refl| |].
  - unfold log_ghost, log_ordered. rewrite Hl. split.
    + intros a Ha. by apply elem_of_nil in Ha.
    + intros i j a b Ha. by rewrite lookup_nil in Ha.
  - split; [done|auto].
Qed.

(** C3: Delivery is in order and head of line: over any sequence of calls, with
    any behaviour of the sink, the clock and a lawful store, the attempts handed to the sink for
    one recipient in one conversation never go back in sequence, and every
    earlier delivery of that conversation to that recipient is settled
    (acknowledged, expired, or removed by retention). *)
Theorem attempts_in_order (w : World S (LogEnv E)) calls :
  world_ok w -> le_log (w_env w) = [] ->
  2 * Z.of_nat (length calls) <= capacity (w_store w) ->
  let w' := runRMCalls calls w in
  let log := le_log (w_env w') in
  (forall i j a b, log !! i = Some a -> log !! j = Some b -> (i <= j)%nat ->
     at_recipient a = at_recipient b -> at_conversationId a = at_conversationId b ->
     at_sequence a <= at_sequence b) /\
  (forall a k d m, a ∈ log -> v_deliveries (view (w_store w')) !! k = Some d ->
     v_messages (view (w_store w')) !! dl_messageId d = Some m ->
     dl_recipient d = at_recipient a -> dl_conversationId d = at_conversationId a ->
     msg_sequence m < at_sequence a -> isTerminal (dl_state d) = true).
Proof.
  intros Hw Hl Hn w' log. pose proof (logged_execution_inv w calls Hw Hl Hn) as HI.
  destruct (inv_ghost _ _ _ _ _ _ HI) as [Hok Ho]. split; [exact Ho|].
  intros a k d m Ha Hd Hm Hr Hc Hlt. destruct (Hok a Ha) as [_ Hs]. by eapply Hs.
Qed.
End ordering.

(** ** Termination *)

Section termination.
Context {S E : Type} `{!MessageStore S, !MessageStoreLaws S, !Env E}.

(** The clock stays within 2^62 milliseconds and the sink returns or throws. *)
Definition env_live : Prop :=
  (forall e : E, - 2 ^ 62 <= (clockNow e).2 < 2 ^ 62) /\
  (forall a (e : E), (sinkDeliver a e).2 <> Throw Diverges).

Lemma live_ghost : env_live -> env_ghost (E := E) (fun _ _ => True) True.
Proof. intros [H1 H2]. by split. Qed.

(** C5: The claim loop terminates: with a positive lease, after any calls, every
    call returns or throws an exception of its own, and never runs its loops
    beyond their bound. *)
Theorem calls_terminate (w : World S E) calls call :
  env_live -> world_ok w -> 0 < leaseMs_ (w_coord w) < 2 ^ 62 ->
  2 * Z.of_nat (length calls) + 2 <= capacity (w_store w) ->
  (runRMCall call (runRMCalls calls w)).2 <> Throw Diverges.
Proof.
  intros Hlive Hw Hlease Hn. pose proof (live_ghost Hlive) as HG.
  assert (Inv (fun _ _ => True) True true (vw w) (capacity (w_store w)) w) as HI.
  { destruct Hw. split; [done|lia|done|apply evolves_refl|done|]. split; [done|auto]. }
  pose proof (runRMCalls_inv _ _ HG _ _ calls _ (wo_view _ Hw) HI ltac:(lia)) as HI'.
  pose proof (runRMCall_inv _ _ HG _ _ call _ (wo_view _ Hw) HI'
    ltac:(destruct call; simpl; lia)) as Hwp.
  unfold wp in Hwp. destruct (runRMCall call (runRMCalls calls w)) as [w' [a|x]]; [done|].
  destruct Hwp as [_ Hx]. simpl. intros [= ->]. by apply Hx.
Qed.
End termination.

(** ** Acceptance *)

Section acceptance.
Context {S E : Type} `{!MessageStore S, !MessageStoreLaws S, !Env E}.

Notation W := (World S E).

Lemma accept_wp (w : W) sender cmd :
  world_ok w -> 2 <= capacity (w_store w) ->
  wp (accept sender cmd)
    (fun o w' => Inv (fun _ _ => True) False true (vw w) (capacity (w_store w) - 2) w' /\
       accept_result (vw w) sender cmd o (vw w'))
    (Exc (fun _ _ => True) False true (vw w) (capacity (w_store w) - 2)) w.
Proof.
  intros Hw Hn. apply (wp_accept _ _ trivial_ghost); [apply Hw|by apply world_ok_inv|done].
Qed.

(** A delivery for the message to [u], whatever its state. *)
Definition has_delivery (v : StoreView) (m : Message) (u : UserId) : Prop :=
  exists d, v_deliveries v !! (msg_id m, u) = Some d /\
    dl_conversationId d = msg_conversationId m.

(** C7: Accepting a new key is durable: when accept reports success, the message
    is stored under a fresh identity with a sequence above every earlier message
    of its conversation, the key maps to it, exactly one outbox event announces
    it, every recipient has a delivery, and nothing else was added. *)
Theorem accept_new_is_durable (w w' : W) sender cmd o :
  world_ok w -> 2 <= capacity (w_store w) ->
  v_accepted (view (w_store w)) !! (userId sender, clientMessageId cmd) = None ->
  accept sender cmd w = (w', Ret o) ->
  let v := view (w_store w) in let v' := view (w_store w') in
  exists m, o = acceptedOutcome false m /\
    msg_senderId m = userId sender /\ msg_command m = cmd /\
    v_messages v !! msg_id m = None /\
    v_messages v' = <[msg_id m := m]> (v_messages v) /\
    v_accepted v' = <[(userId sender, clientMessageId cmd) := m]> (v_accepted v) /\
    v_conversations v' !! convKey sender cmd = Some (msg_conversationId m) /\
    (forall i m', v_messages v !! i = Some m' ->
       msg_conversationId m' = msg_conversationId m -> msg_sequence m' < msg_sequence m) /\
    (forall u, u ∈ recipientsFor cmd -> has_delivery v' m u) /\
    (forall k, v_deliveries v !! k = None -> is_Some (v_deliveries v' !! k) ->
       k.1 = msg_id m /\ k.2 ∈ recipientsFor cmd) /\
    (exists ev, v_outbox v !! ev_id ev = None /\ v_outbox v' = <[ev_id ev := ev]> (v_outbox v) /\
       ev_aggregateMessageId ev = msg_id m /\ ev_processedAtMs ev = 0).
Proof.
  intros Hw Hn Hacc Hrun v v'. pose proof (accept_wp w sender cmd Hw Hn) as Hwp.
  unfold wp in Hwp. rewrite Hrun in Hwp. destruct Hwp as [HI Hres].
  unfold accept_result, vw in Hres. rewrite Hacc in Hres.
  destruct Hres as (m & v2 & -> & [] & Hev). exists m.
  pose proof (ev_ledger _ _ _ Hev eq_refl) as Hl. fold v v' in Hl, Hev.
  destruct ad_rows as [x Hrows]. destruct ad_outbox as (ev & ?&?&?&?&?&?).
  destruct ad_conversation as [? ?].
  rewrite Hl. simpl. do 8 (split; [done|]). split; [|split; [|by exists ev]].
  - intros u Hu. unfold has_delivery. rewrite <- Hl.
    pose proof (ev_rows _ _ _ Hev (msg_id m, u)) as Hr. rewrite Hrows in Hr. simpl in Hr.
    rewrite decide_True in Hr by done. unfold row_evolves in Hr.
    destruct (v_deliveries v' !! (msg_id m, u)) as [d|]; [|done]. exists d. split; [done|apply Hr].
  - intros k Hk [d' Hk']. pose proof (ev_rows _ _ _ Hev k) as Hr.
    fold v in Hrows. rewrite Hrows, Hk, Hk' in Hr. unfold row_evolves in Hr.
    case_decide as Hd; [done|]. by destruct Hr.
Qed.

Lemma metric_nothrow c (w : W) (Q : unit -> W -> Prop) :
  (forall w', w_store w' = w_store w -> w_coord w' = w_coord w -> Q tt w') ->
  wp (metric c) Q (fun _ _ => False) w.
Proof.
  intros HQ. unfold wp, metric, zoom, recordBestEffort, catch.
  destruct (runCall c (w_rec w, w_env w)) as [re [[]|x]]; by apply HQ.
Qed.

(** Answering for a known key throws nothing of its own. *)
Lemma acceptExisting_throws m cmd (w : W) :
  wp (acceptExisting m cmd) (fun _ _ => True) (fun x _ => x = Diverges) w.
Proof.
  unfold acceptExisting. destruct (samePayload _ _); apply wp_bind.
  - eapply wp_mono; [apply (metric_nothrow _ _ (fun _ _ => True)); done| |by intros ? ? []].
    intros ? w1 _. apply wp_bind. unfold wp, notifyAcceptedBestEffort, catchAll, catch.
    destruct (onAccepted _ w1) as [w2 [[]|x]]; [done|]. by destruct x.
  - eapply wp_mono; [apply (metric_nothrow _ _ (fun _ _ => True)); done|done|by intros ? ? []].
Qed.

(** The stored message of an accepted key. *)
Lemma accepted_key (w w1 : W) sender cmd o :
  world_ok w -> 2 <= capacity (w_store w) ->
  accept sender cmd w = (w1, Ret o) -> ao_ok o = true ->
  Inv (fun _ _ => True) False true (vw w1) (capacity (w_store w) - 2) w1 /\
  exists m, v_accepted (vw w1) !! (userId sender, clientMessageId cmd) = Some m /\
    samePayload (msg_command m) cmd = true /\ ao_messageId o = msg_id m /\
    ao_conversationId o = msg_conversationId m /\ ao_sequence o = msg_sequence m.
Proof.
  intros Hw Hn Hrun Hok. pose proof (accept_wp w sender cmd Hw Hn) as Hwp.
  unfold wp in Hwp. rewrite Hrun in Hwp. destruct Hwp as [HI Hres]. split.
  { destruct HI. split; auto. apply evolves_refl. }
  unfold accept_result in Hres.
  destruct (v_accepted (vw w) !! (userId sender, clientMessageId cmd)) as [m|] eqn:Ha.
  - destruct (samePayload (msg_command m) cmd) eqn:Hs; destruct Hres as [-> Hv]; [|done].
    exists m. split; [|done]. eapply lookup_weaken; [exact Ha|apply (ev_accepted _ _ _ Hv)].
  - destruct Hres as (m & v2 & -> & Had & Hv). exists m. split.
    + eapply lookup_weaken; [|apply (ev_accepted _ _ _ Hv)].
      rewrite (ad_accepted _ _ _ _ _ Had). apply lookup_insert_eq.
    + rewrite (ad_command _ _ _ _ _ Had). by rewrite samePayload_refl.
Qed.

(** A delivery that may have been sent again: it is the same delivery with the same
    deadline, and a settled one stays settled. *)
Definition redelivered (o o' : option Delivery) : Prop :=
  match o, o' with
  | Some d, Some d' =>
      dl_key d' = dl_key d /\ dl_conversationId d' = dl_conversationId d /\ dl_expiresAtMs d' = dl_expiresAtMs d /\
      (isTerminal (dl_state d) = true -> isTerminal (dl_state d') = true) /\
      (dl_state d = Acknowledged -> dl_state d' = Acknowledged)
  | None, None => True
  | _, _ => False
  end.

Lemma evolves_redelivered v v' : evolves false v v' -> forall k, redelivered (v_deliveries v !! k) (v_deliveries v' !! k).
Proof.
  intros [_ _ _ _ Hr] k. specialize (Hr k). unfold row_evolves in Hr. unfold redelivered.
  destruct (v_deliveries v !! k), (v_deliveries v' !! k); naive_solver.
Qed.

(** C9: Accepting is idempotent: once a key was accepted, then after any further
    calls the same intent under the same key reports the original identity as a
    duplicate; it adds nothing to the store and removes nothing, and can only send
    deliveries that are not settled again; a different intent is a
    conflict and changes nothing in the store.  The call throws only if the key
    lookup does (or if its best-effort wake-up never ends, which [calls_terminate] excludes). *)
Theorem accept_is_idempotent (w w1 : W) sender sender' cmd cmd' o calls :
  world_ok w -> 2 * Z.of_nat (length calls) + 4 <= capacity (w_store w) ->
  accept sender cmd w = (w1, Ret o) -> ao_ok o = true ->
  userId sender' = userId sender -> clientMessageId cmd' = clientMessageId cmd ->
  let w2 := runRMCalls calls w1 in
  match accept sender' cmd' w2 with
  | (w3, Ret o') =>
      if samePayload cmd cmd' then
        o' = mkAcceptOutcome true true (ao_messageId o) (ao_conversationId o) (ao_sequence o)
               AcceptDependencyBusy /\
        view (w_store w3) = set_deliveries (v_deliveries (view (w_store w3))) (view (w_store w2)) /\
        forall k, redelivered (v_deliveries (view (w_store w2)) !! k) (v_deliveries (view (w_store w3)) !! k)
      else o' = conflictOutcome /\ view (w_store w3) = view (w_store w2)
  | (w3, Throw x) =>
      x = Diverges \/
      exists s, findAccepted (clientMessageId cmd) (userId sender) (w_store w2) = (s, Throw x)
  end.
Proof.
  intros Hw Hn Hrun Hok Hu Hk w2.
  destruct (accepted_key w w1 sender cmd o Hw ltac:(lia) Hrun Hok) as (HI1 & m & Ha & Hs & E1 & E2 & E3).
  pose proof (runRMCalls_inv _ _ trivial_ghost _ _ calls _ (inv_view _ _ _ _ _ _ HI1) HI1 ltac:(lia)) as HI2.
  fold w2 in HI2.
  assert (v_accepted (vw w2) !! (userId sender, clientMessageId cmd) = Some m) as Ha2
    by (eapply lookup_weaken; [exact Ha|apply (ev_accepted _ _ _ (inv_ev _ _ _ _ _ _ HI2))]).
  pose proof (wp_accept _ _ trivial_ghost _ _ sender' cmd' w2 (inv_view _ _ _ _ _ _ HI1) HI2 ltac:(lia)) as Hwp.
  unfold wp in Hwp. rewrite <- (samePayload_cong (msg_command m) cmd cmd' Hs).
  destruct (accept sender' cmd' w2) as [w3 [o'|x]] eqn:Hacc.
  - destruct Hwp as [_ Hres]. unfold accept_result in Hres. rewrite Hu, Hk, Ha2 in Hres.
    destruct (samePayload (msg_command m) cmd'); destruct Hres as [-> Hv].
    + rewrite E1, E2, E3. split; [done|]. split; [exact (ev_ledger _ _ _ Hv eq_refl)|exact (evolves_redelivered _ _ Hv)].
    + split; [done|]. exact Hv.
  - clear Hwp. unfold accept, bind, onStore, zoom in Hacc. rewrite Hk, Hu in Hacc.
    pose proof (findAccepted_ok (clientMessageId cmd) (userId sender) (w_store w2)
      (inv_wf _ _ _ _ _ _ HI2)) as Hf. unfold store_op, wp in Hf.
    destruct (findAccepted (clientMessageId cmd) (userId sender) (w_store w2)) as [s1 [r|y]].
    + destruct Hf as (_ & _ & -> & _). change (view (w_store w2)) with (vw w2) in Hacc.
      rewrite Ha2 in Hacc.
      pose proof (acceptExisting_throws m cmd' (put_store s1 w2)) as Ht. unfold wp in Ht.
      rewrite Hacc in Ht. by left.
    + right. exists s1. congruence.
Qed.
End acceptance.
