(* ===== verification/Fencing.v ===== *)
(** * Session fencing

    The coordinator's own state ([paused_], [activeByUser_],
    [observedGenerationByUser_]) under every operation, without any assumption
    on store, sink or clock, and the consequences for stale sessions. *)

From S2P Require Import Prelude DomainTypes Json Metrics Store InMemoryStore World.
From S2P Require Import Coordinator Messaging ViewInv ClaimFacts CoordinatorInv.
From S2P Require Import MessagingInv.

Open Scope Z_scope.
Open Scope eff_scope.

Section frame.
Context {S E : Type} `{!MessageStore S, !Env E}.
Context (P : Coordinator -> Prop).

Notation W := (World S E).
Notation weff := (eff exn W).

Definition coordP (w : W) : Prop := P (w_coord w).

(** A session coming online is recorded unless a newer one was seen. *)
Record coord_stable : Prop := {
  cs_paused : forall c p, P c -> P (set_paused p c);
  cs_tick : forall c t, P c -> P (set_tick t c);
  cs_remove : forall c u, P c -> P (set_active (delete u (activeByUser_ c)) c);
  cs_observe : forall c s,
    match observedGenerationByUser_ c !! userId s with
    | Some g => g < generation s | None => True end ->
    P c -> P (set_observed (<[userId s := generation s]> (observedGenerationByUser_ c)) c);
  cs_activate : forall c s g, observedGenerationByUser_ c !! userId s = Some g ->
    generation s <= g -> P c -> P (set_active (<[userId s := s]> (activeByUser_ c)) c);
}.

Context (HP : coord_stable).

Notation frame m := (keeps coordP (m : weff _)).

Lemma onStore_keep {A} (m : eff exn S A) : frame (onStore m).
Proof.
  intros w HI. unfold wp, onStore, zoom. by destruct (m (w_store w)) as [s [a|x]].
Qed.

Lemma metric_keep c : frame (metric c).
Proof.
  intros w HI. unfold wp, metric, zoom. destruct (recordBestEffort _ _) as [re [a|x]]; exact HI.
Qed.

Lemma nowMs_keep : frame nowMs.
Proof. intros w HI. unfold wp, nowMs. by destruct (clockNow (w_env w)). Qed.

Lemma deliver_keep a : frame (deliver a).
Proof. intros w HI. unfold wp, deliver. by destruct (sinkDeliver a (w_env w)) as [e [d|x]]. Qed.

Lemma drawJitter_keep f d : frame (drawJitter f d).
Proof. intros w HI. unfold wp, drawJitter. by destruct (jitterDraw f d (w_env w)). Qed.

Lemma modifyCoord_keep f : (forall c, P c -> P (f c)) -> frame (modifyCoord f).
Proof. intros Hf. apply keepsOr_modify. intros w HI. by apply Hf. Qed.

Hint Resolve onStore_keep metric_keep nowMs_keep deliver_keep drawJitter_keep : effects.

Lemma retryDelay_keep a : frame (retryDelayMs a).
Proof. unfold retryDelayMs, backoffMs, getCoord. keeps_tac. Qed.

Lemma setTick_keep f : frame (modifyCoord (fun c => set_tick (f c) c)).
Proof. apply modifyCoord_keep. intros c. apply (cs_tick HP). Qed.

Lemma setPaused_keep f : frame (modifyCoord (fun c => set_paused (f c) c)).
Proof. apply modifyCoord_keep. intros c. apply (cs_paused HP). Qed.

Lemma removeActive_keep u : frame (modifyCoord (fun c => set_active (delete u (activeByUser_ c)) c)).
Proof. apply modifyCoord_keep. intros c. apply (cs_remove HP). Qed.

Hint Resolve retryDelay_keep setTick_keep setPaused_keep removeActive_keep : effects.

Lemma commitAttempt_keep s now h m : frame (commitAttempt s now h m).
Proof. unfold commitAttempt, getCoord. keeps_tac. Qed.

Hint Resolve commitAttempt_keep : effects.

Lemma claimConversation_keep fuel s now rows : frame (claimConversation fuel s now rows).
Proof.
  revert rows. induction fuel as [|fuel IH]; intros rows; cbn [claimConversation]; keeps_tac.
Qed.

Hint Resolve claimConversation_keep : effects.

Lemma claimGroups_keep s now gs : frame (claimGroups s now gs).
Proof. induction gs as [|[c rows] gs IH]; cbn [claimGroups]; keeps_tac. Qed.

Hint Resolve claimGroups_keep : effects.

Lemma claimFor_keep s : frame (claimFor s).
Proof. unfold claimFor, getCoord. keeps_tac. Qed.

Hint Resolve claimFor_keep : effects.

Lemma acknowledge_keep a i : frame (acknowledge a i).
Proof. unfold acknowledge, getCoord. keeps_tac. Qed.

Lemma releaseRow_keep d : frame (releaseRow d).
Proof. unfold releaseRow. keeps_tac. Qed.

Hint Resolve releaseRow_keep : effects.

Lemma releaseRows_keep sel ds : frame (releaseRows sel ds).
Proof. apply keepsOr_forM. intros d _. keeps_tac. Qed.

Hint Resolve releaseRows_keep : effects.

Lemma resume_keep s : frame (resume s).
Proof. unfold resume, getCoord. keeps_tac. Qed.

Lemma onAccepted_keep us : frame (onAccepted us).
Proof. apply keepsOr_forM. intros u _. unfold getCoord. keeps_tac. Qed.

Lemma sessionClosed_keep s : frame (sessionClosed s).
Proof. unfold sessionClosed, getCoord. keeps_tac. Qed.

Lemma collectDue_keep due acc : frame (collectDue due acc).
Proof.
  revert acc. induction due as [|d due IH]; intros acc; cbn [collectDue]; [apply keepsOr_ret|].
  apply keepsOr_bind; [|intros; apply IH]. unfold rollBackDue, getCoord. keeps_tac.
Qed.

Hint Resolve collectDue_keep : effects.

Lemma runRetryScan_keep now : frame (runRetryScan now).
Proof.
  assert (forall l, frame (forM l claimFor)) as Hf
    by (intros l; apply keepsOr_forM; intros x _; apply claimFor_keep).
  pose proof (setTick_keep (fun _ => []) : frame (modifyCoord (set_tick []))) as Ht.
  unfold runRetryScan, getCoord. keeps_tac.
Qed.

Hint Resolve acknowledge_keep resume_keep onAccepted_keep sessionClosed_keep
  runRetryScan_keep : effects.

End frame.

(** After a session was announced its generation is on record, whatever failed
    afterwards. *)
Definition observedAtLeast (s : SessionIdentity) (c : Coordinator) : Prop :=
  exists g, observedGenerationByUser_ c !! userId s = Some g /\ generation s <= g.

Lemma observedAtLeast_stable s : coord_stable (observedAtLeast s).
Proof.
  unfold observedAtLeast. split; simpl; auto.
  intros c s' Hlt (g & Hg & Hle). destruct (decide (userId s = userId s')) as [E0|Hne].
  - rewrite <- E0 in *. rewrite Hg in Hlt. rewrite lookup_insert_eq. exists (generation s').
    split; [done|lia].
  - rewrite lookup_insert_ne by done. eauto.
Qed.

Lemma coord_stable_and P Q :
  coord_stable P -> coord_stable Q -> coord_stable (fun c => P c /\ Q c).
Proof.
  intros [] []. split; naive_solver.
Qed.

Section frame_calls.
Context {S E : Type} `{!MessageStore S, !Env E}.
Context (P : Coordinator -> Prop) (HP : coord_stable P).

Notation W := (World S E).
Notation weff := (eff exn W).

(** The part of [sessionAvailable] after the generation was recorded. *)
Lemma sessionAvailable_tail s sel :
  keeps (coordP (fun c => P c /\ observedAtLeast s c))
    (deliveries <- onStore (deliveriesByRecipient (userId s)) ;;
     releaseRows sel deliveries ;;;
     modifyCoord (fun c => set_active (<[userId s := s]> (activeByUser_ c)) c) ;;;
     claimFor s : weff unit).
Proof.
  pose proof (coord_stable_and _ _ HP (observedAtLeast_stable s)) as HPs.
  unfold keeps. apply keepsOr_bind; [apply onStore_keep|intros ds].
  apply keepsOr_bind; [by apply releaseRows_keep|intros _].
  apply keepsOr_bind; [|intros _; by apply claimFor_keep].
  apply modifyCoord_keep. intros c [Hc Ho]. pose proof Ho as (g & Hg & Hle).
  split; [by eapply (cs_activate _ HP)|exact Ho].
Qed.

Lemma wp_sessionAvailable s (w : W) :
  coordP P w ->
  wp (sessionAvailable s) (fun _ => coordP (fun c => P c /\ observedAtLeast s c))
    (fun _ => coordP (fun c => P c /\ observedAtLeast s c)) w.
Proof.
  intros HI. unfold sessionAvailable, getCoord. apply wp_bind, wp_gets.
  destruct (observedGenerationByUser_ (w_coord w) !! userId s) as [g|] eqn:Hg.
  - destruct (Z.ltb_spec (generation s) g).
    { apply wp_ret. split; [exact HI|]. exists g. split; [done|lia]. }
    apply wp_bind. destruct (Z.ltb_spec g (generation s)).
    + apply wp_modify. apply sessionAvailable_tail. split.
      * apply (cs_observe _ HP); [by rewrite Hg|exact HI].
      * exists (generation s). simpl. rewrite lookup_insert_eq. split; [done|lia].
    + apply wp_ret. apply sessionAvailable_tail. split; [exact HI|]. exists g. split; [done|lia].
  - apply wp_bind, wp_modify. apply sessionAvailable_tail. split.
    + apply (cs_observe _ HP); [by rewrite Hg|exact HI].
    + exists (generation s). simpl. rewrite lookup_insert_eq. split; [done|lia].
Qed.

Lemma catchAll_keep {A} (m : weff A) (a : A) :
  keeps (coordP P) m -> keeps (coordP P) (catchAll m (fun _ => ret a)).
Proof. intros Hm. eapply keepsOr_catch; [exact Hm|]. intros x w HI. by destruct x. Qed.

Lemma runTick_keep : keeps (coordP P) (runTick : weff Z).
Proof.
  assert (forall l, keeps (coordP P) (forM l recordExpired : weff unit)) as Hf.
  { intros l. apply keepsOr_forM. intros x _. unfold recordExpired.
    apply keepsOr_bind; [|intros _]; apply metric_keep. }
  pose proof (fun A => @onStore_keep S E P A) as Hs.
  pose proof (fun now => runRetryScan_keep P HP now : keeps _ (_ : weff _)) as Hr.
  pose proof (nowMs_keep P : keeps _ (_ : weff _)) as Hn.
  unfold runTick, getCoord. keeps_tac. apply keepsOr_modify. intros w HI. exact HI.
Qed.

Lemma tick_keep : keeps (coordP P) (runTickBestEffort : weff Z).
Proof. apply catchAll_keep, runTick_keep. Qed.

Lemma notify_keep us : keeps (coordP P) (notifyAcceptedBestEffort us : weff unit).
Proof. by apply catchAll_keep, onAccepted_keep. Qed.

Lemma accept_keep s cmd : keeps (coordP P) (accept s cmd : weff AcceptOutcome).
Proof.
  pose proof (fun A => @onStore_keep S E P A) as Hs.
  pose proof (fun us => notify_keep us) as Hn.
  pose proof (fun c => metric_keep P c : keeps _ (_ : weff _)) as Hm.
  pose proof (nowMs_keep P : keeps _ (_ : weff _)) as Hc.
  assert (forall A (l : list A) f, (forall u, keeps (coordP P) (f u)) ->
    keeps (coordP P) (forM l f : weff unit)) as Hf
    by (intros A l f Hfu; apply keepsOr_forM; intros u _; apply Hfu).
  assert (keeps (coordP P) (acceptNew s cmd : weff _)) as Hnew.
  { unfold acceptNew, acceptDurably, getCoord. keeps_tac. }
  assert (forall x, keeps (coordP P) (acceptFailed x : weff AcceptOutcome)) as Hfail.
  { intros x. unfold acceptFailed. keeps_tac. }
  unfold accept, acceptExisting, getCoord. keeps_tac.
  eapply keepsOr_catch; [exact Hnew|exact Hfail].
Qed.

Lemma rmSessionAvailable_keep s : keeps (coordP P) (rmSessionAvailable s : weff unit).
Proof.
  pose proof tick_keep as Ht. unfold rmSessionAvailable. unfold keeps. apply keepsOr_bind.
  - intros w HI. eapply wp_mono; [by apply wp_sessionAvailable| |]; intros ? w' H'; apply H'.
  - intros _. keeps_tac.
Qed.

Lemma runRMCall_keep call : keeps (coordP P) (runRMCall call : weff unit).
Proof.
  pose proof (fun s c => accept_keep s c) as Ha. pose proof rmSessionAvailable_keep as Hs.
  pose proof tick_keep as Ht. pose proof (nowMs_keep P : keeps _ (_ : weff _)) as Hc.
  assert (forall f, (forall w : W, w_coord (f w) = w_coord w) ->
    keeps (coordP P) (modify f : weff unit)) as Hmod.
  { intros f Hf. apply keepsOr_modify. intros w. unfold coordP. by rewrite Hf. }
  destruct call; cbn [runRMCall]; unfold rmAcknowledge, rmSessionClosed, rmResume,
    wakeupAccepted, start, stopRequest, stopJoined, schedulerTurn, getCoord.
  all: try first [by apply sessionClosed_keep|by apply resume_keep|by apply onAccepted_keep|apply Hs].
  2: unfold keeps; apply keepsOr_bind; [by apply acknowledge_keep|intros ?].
  all: keeps_tac; auto.
Qed.

Lemma runRMCalls_keep calls (w : W) : coordP P w -> coordP P (runRMCalls calls w).
Proof.
  unfold runRMCalls. revert w. induction calls as [|c cs IH]; intros w HI; [done|].
  cbn [foldl]. apply IH. pose proof (runRMCall_keep c w HI) as Hk.
  unfold wp in Hk. by destruct (runRMCall c w) as [w' []].
Qed.
End frame_calls.

Section fencing.
Context {S E : Type} `{!MessageStore S, !Env E}.

Lemma observed_fences (s a : SessionIdentity) c :
  observedAtLeast s c -> userId a = userId s -> generation a < generation s ->
  staleAcker c a = true.
Proof.
  intros (g & Hg & Hle) Hu Hlt. unfold staleAcker. rewrite Hu, Hg, orb_true_iff. right.
  apply Z.ltb_lt. lia.
Qed.

(** C11: once a session of a user has been announced, an acknowledgement from any
    session of the same user with an older generation is refused and changes
    nothing, however the announcement itself ended and whatever calls (further
    sessions, closings, ticks, failures of the store) came in between. *)
Theorem stale_ack_is_fenced (w : World S E) s a calls i :
  userId a = userId s -> generation a < generation s ->
  rmAcknowledge a i (runRMCalls (RMSessionAvailable s :: calls) w) =
    (runRMCalls (RMSessionAvailable s :: calls) w, Ret AckNotRecipient).
Proof.
  intros Hu Hlt. set (w' := runRMCalls (RMSessionAvailable s :: calls) w). assert (observedAtLeast s (w_coord w')) as Ho.
  { apply (runRMCalls_keep _ (observedAtLeast_stable s) calls). cbn [runRMCall].
    assert (wp (rmSessionAvailable s) (fun _ => coordP (observedAtLeast s))
              (fun _ => coordP (observedAtLeast s)) w) as Hwp.
    { apply wp_bind. eapply wp_mono.
      - apply (wp_sessionAvailable (fun _ => True)); [|done].
        split; auto.
      - intros ? w1 [_ H1]. apply wp_bind.
        pose proof (tick_keep _ (observedAtLeast_stable s) w1 H1) as Hk.
        eapply wp_mono; [exact Hk| |]; intros ? w2 H2; [by apply wp_ret|exact H2].
      - intros ? w1 [_ H1]. exact H1. }
    unfold wp in Hwp. by destruct (rmSessionAvailable s w) as [w1 []]. }
  unfold rmAcknowledge, acknowledge, getCoord, gets, bind.
  by rewrite (observed_fences s a _ Ho Hu Hlt).
Qed.
End fencing.
