(* ===== verification/AckRetry.v ===== *)
(** * Acknowledgements and the retry scan

    The result of [ReliableMessaging::acknowledge] on every branch, and the
    frame of [DeliveryCoordinator::runRetryScan]: recipients that are offline or
    paused spend no attempt. *)

From S2P Require Import Prelude DomainTypes Json Metrics Store InMemoryStore World Coordinator.
From S2P Require Import Messaging ViewInv ClaimFacts CoordinatorInv MessagingInv Guarantees.
From S2P Require Import Fencing.

Open Scope Z_scope.
Open Scope eff_scope.

Section ack.
Context {S E : Type} `{!MessageStore S, !MessageStoreLaws S, !Env E}.

Notation W := (World S E).

Definition rowOf (w : W) (i u : Z) : option Delivery := v_deliveries (view (w_store w)) !! (i, u).

(** The row of [u] became acknowledged; no row appeared or went, and nothing but
    deliveries changed. *)
Definition acked_row (w w' : W) (i u : Z) : Prop :=
  (exists d d', rowOf w i u = Some d /\ dl_state d <> Acknowledged /\
     rowOf w' i u = Some d' /\ dl_state d' = Acknowledged) /\
  evolves false (vw w) (vw w').

Definition ack_result (a : SessionIdentity) (i : Z) (w : W) (r : AckResult) (w' : W) : Prop :=
  match r with
  | AckNotFound =>
      staleAcker (w_coord w) a = false /\ vw w' = vw w /\ forall u, rowOf w i u = None
  | AckNotRecipient =>
      vw w' = vw w /\
      (staleAcker (w_coord w) a = true \/
       (rowOf w i (userId a) = None /\ exists u, is_Some (rowOf w i u)))
  | AckIdempotent =>
      staleAcker (w_coord w) a = false /\ vw w' = vw w /\
      exists d, rowOf w i (userId a) = Some d /\ dl_state d = Acknowledged
  | AckAcknowledged => staleAcker (w_coord w) a = false /\ acked_row w w' i (userId a)
  end.

Notation Iw w := (Inv (E := E) (fun _ _ => True) False false (vw w) (capacity (w_store w))).

Lemma world_ok_rebased (w : W) : world_ok w -> Iw w w.
Proof. intros Hw. eapply Inv_rebase. by apply world_ok_inv. Qed.

(** The rows [deliveriesByMessage] answers, searched for a recipient. *)
Lemma byMessage_find v i u l :
  view_inv v -> spec_rows v (fun d => dl_messageId d = i) l ->
  match List.find (fun d => dl_recipient d =? u) l with
  | Some d => exists d0, v_deliveries v !! (i, u) = Some d0 /\ d = fill v d0
  | None => v_deliveries v !! (i, u) = None
  end.
Proof.
  intros Hv [_ Hin]. destruct (List.find _ l) as [d|] eqn:Hf.
  - apply find_some in Hf as [Hd Hr%Z.eqb_eq]. apply list_elem_of_In, Hin in Hd.
    destruct Hd as (k & d0 & Hk & Hm & ->). exists d0. split; [|done].
    rewrite fill_recipient in Hr. pose proof (vi_key _ Hv _ _ Hk) as Hkey.
    unfold dl_key in Hkey. by subst k i u.
  - apply eq_None_not_Some. intros [d0 Hd0]. pose proof (vi_key _ Hv _ _ Hd0) as Hkey.
    injection Hkey as Hi Hu.
    assert (fill v d0 ∈ l) as Hl by (apply Hin; eauto).
    apply list_elem_of_In in Hl. pose proof (find_none _ _ Hf _ Hl) as Hn. simpl in Hn.
    rewrite fill_recipient, Hu, Z.eqb_refl in Hn. done.
Qed.

Lemma byMessage_nonempty v i d l :
  view_inv v -> spec_rows v (fun d => dl_messageId d = i) (d :: l) ->
  exists u, is_Some (v_deliveries v !! (i, u)).
Proof.
  intros Hv [_ Hin]. destruct (proj1 (Hin d) ltac:(by left)) as (k & d0 & Hk & <- & _).
  pose proof (vi_key _ Hv _ _ Hk) as <-. exists (dl_recipient d0). by exists d0.
Qed.

Lemma byMessage_nil v i u :
  view_inv v -> spec_rows v (fun d => dl_messageId d = i) [] -> v_deliveries v !! (i, u) = None.
Proof. intros Hv Hs. exact (byMessage_find v i u [] Hv Hs). Qed.

(** What acknowledging leaves: the row written first stays acknowledged through
    the claim that follows. *)
Lemma acked_row_after (w w1 w2 : W) i u d0 d :
  view_inv (vw w) ->
  v_deliveries (vw w) !! (i, u) = Some d0 -> dl_state d0 <> Acknowledged ->
  dl_key d = (i, u) -> dl_state d = Acknowledged -> row_step (vw w) d0 d ->
  vw w1 = view_updateDelivery d (vw w) -> evolves false (vw w1) (vw w2) ->
  acked_row w w2 i u.
Proof.
  intros Hv Hd0 Hn Hk Ha Hst Ev1 Hev. pose proof (vi_key _ Hv _ _ Hd0) as Hk0.
  rewrite <- Hk in Hd0. pose proof (update_lookup _ _ _ Hd0) as Hu. split.
  - pose proof (ev_rows _ _ _ Hev (i, u)) as Hr. rewrite Ev1, Hu in Hr. simpl in Hr.
    rewrite <- Hk, lookup_insert_eq in Hr. unfold row_evolves in Hr. unfold rowOf.
    change (view (w_store w)) with (vw w). change (view (w_store w2)) with (vw w2).
    rewrite <- Hk. destruct (v_deliveries (vw w2) !! dl_key d) as [d2|]; [|done].
    exists d0, d2. split; [done|]. split; [done|]. split; [done|]. by apply Hr.
  - eapply evolves_trans; [done| |exact Hev]. rewrite Ev1.
    eapply update_evolves; [done|congruence|done].
Qed.

Lemma metric_frame c (w : W) v :
  vw w = v -> wp (metric c) (fun _ w' => vw w' = v) (fun _ _ => False) w.
Proof. intros <-. apply metric_nothrow. intros w' E0 _. unfold vw. by rewrite E0. Qed.

(** The claim and the metrics calls after the acknowledged row was written. *)
Lemma wp_ack_tail v0 n (w : W) a c1 c2 c3 :
  Inv (fun _ _ => True) False false v0 n w ->
  wp (claimFor a ;;; metric c1 ;;; metric c2 ;;; metric c3 ;;; ret AckAcknowledged)
    (fun r w' => r = AckAcknowledged /\ evolves false (vw w) (vw w'))
    (fun _ w' => evolves false (vw w) (vw w')) w.
Proof.
  intros HI. apply wp_bind. eapply wp_mono.
  - apply (claimFor_good _ _ trivial_ghost false (vw w) (inv_view _ _ _ _ _ _ HI) n).
    by eapply Inv_rebase.
  - intros ? w1 [_ _ _ Hev _ _]. remember (vw w1) as v1 eqn:Ev1. symmetry in Ev1. revert w1 Ev1.
    do 3 (intros ? Ev1; apply wp_bind; eapply wp_mono; [apply metric_frame; exact Ev1| |done];
          intros ?; clear Ev1).
    intros ? Ev1. apply wp_ret. split; [done|]. by rewrite Ev1.
  - intros x w1 [HI1 _]. apply HI1.
Qed.

Lemma wp_acknowledge a i (w : W) :
  world_ok w ->
  wp (acknowledge a i) (ack_result a i w)
    (fun _ w' => vw w' = vw w \/ acked_row w w' i (userId a)) w.
Proof.
  intros Hw. pose proof (world_ok_rebased w Hw) as HI. pose proof (wo_view _ Hw) as Hv.
  unfold acknowledge, getCoord. apply wp_bind, wp_gets.
  destruct (staleAcker (w_coord w) a) eqn:Hs; [apply wp_ret; by split; [|left]|].
  apply wp_bind, wp_zoom. eapply wp_mono; [apply deliveriesByMessage_ok, Hw| |].
  2:{ intros x s (_ & _ & _ & Ev). by left. }
  intros ds s1 (Hwf1 & Hc1 & Ev1 & Hsp). change (view (w_store w)) with (vw w) in *.
  pose proof (byMessage_find _ _ (userId a) _ Hv Hsp) as Hf.
  destruct ds as [|d1 ds].
  { apply wp_ret. split; [done|]. split; [done|]. intros u. by apply (byMessage_nil (vw w)). }
  destruct (List.find _ (d1 :: ds)) as [mine|].
  2:{ apply wp_ret. split; [done|]. right. split; [done|]. by apply (byMessage_nonempty (vw w) i d1 ds). }
  destruct Hf as (d0 & Hd0 & ->). rewrite fill_state. case_bool_decide as Hacked.
  { apply wp_ret. split; [done|]. split; [done|]. by exists d0. }
  apply wp_bind. assert (Iw w (put_store s1 w)) as HI1.
  { destruct HI. split; auto; simpl; [lia|..]; unfold vw in *; simpl; by rewrite Ev1. }
  apply (wp_now _ _ trivial_ghost false (vw w) (capacity (w_store w))); [done|].
  intros t e HI2 _ _. apply wp_bind. set (row := with_acked t (fill (vw w) d0)).
  assert (dl_key row = (i, userId a)) as Hk.
  { unfold row, with_acked, dl_key. simpl. rewrite fill_messageId, fill_recipient.
    exact (vi_key _ Hv _ _ Hd0). }
  assert (row_step (vw w) d0 row) as Hrow.
  { split; simpl; rewrite ?fill_conv, ?fill_expires; done. }
  eapply (wp_store _ _ trivial_ghost false (vw w) Hv _) with
    (R := fun _ v' => v' = view_updateDelivery row (vw w)); [exact HI2| | | |].
  - assert (vw w = view s1) as -> by done. by apply updateDelivery_ok.
  - intros _ v' ->. assert (vw (put_env e (put_store s1 w)) = vw w) as -> by done.
    rewrite <- Hk in Hd0. split; [by eapply update_inv|].
    eapply update_evolves; [done|exact (vi_key _ Hv _ _ Hd0)|done].
  - intros [] s2 HI3 Ev3. set (w2 := put_store s2 _) in *.
    assert (forall w3, evolves false (vw w2) (vw w3) -> acked_row w w3 i (userId a)) as Hdone.
    { intros w3 Hev. by eapply (acked_row_after w w2 w3 _ _ d0 row). }
    eapply wp_mono; [eapply wp_ack_tail; exact HI3| |].
    + intros r w3 [-> Hev]. split; [done|by apply Hdone].
    + intros x w3 Hev. right. by apply Hdone.
  - intros x s2 _ Ev. left. unfold vw at 1. simpl. by rewrite Ev.
Qed.

(** C12: Acknowledging does what its result says.  NotRecipient: the acker is
    fenced, or has no delivery of a message that has some; NotFound: no delivery
    of the message exists; Idempotent: the acker's delivery was acknowledged
    before; in these three nothing stored changed.  Acknowledged: the acker's
    delivery, unacknowledged before, is acknowledged after, no delivery appeared
    or vanished and no settled one was reopened.  A call that throws either
    changed nothing or has acknowledged. *)
Theorem acknowledge_results (w w' : W) a i r :
  world_ok w -> rmAcknowledge a i w = (w', r) ->
  match r with
  | Ret o => ack_result a i w o w'
  | Throw _ => vw w' = vw w \/ acked_row w w' i (userId a)
  end.
Proof.
  intros Hw Hrun. pose proof (wp_acknowledge a i w Hw) as Hwp. unfold wp in Hwp.
  unfold rmAcknowledge in Hrun. rewrite Hrun in Hwp. by destruct r.
Qed.
End ack.

(** ** The retry scan *)

(** The user has no session, or a paused one. *)
Definition quiet (u : UserId) (c : Coordinator) : Prop :=
  match activeByUser_ c !! u with Some s => s ∈ paused_ c | None => True end.

(** Active sessions are filed under their own user. *)
Definition active_ok (c : Coordinator) : Prop :=
  forall u s, activeByUser_ c !! u = Some s -> userId s = u.

Lemma active_ok_stable : coord_stable active_ok.
Proof.
  unfold active_ok. split; simpl; auto.
  - intros c u Hc v s. rewrite lookup_delete_Some. intros [_ Hs]. auto.
  - intros c s g _ _ Hc v s'. rewrite lookup_insert_Some. intros [[<- <-]|[_ Hs]]; auto.
Qed.

Section retry.
Context {S E : Type} `{!MessageStore S, !MessageStoreLaws S, !Env E}.
Context (u : UserId) (R : gmap (Z * Z) Delivery).

Notation W := (World S E).
Notation weff := (eff exn W).

(** The rows of [u] are those of [R]. *)
Definition rows_frozen (v : StoreView) : Prop :=
  forall i, v_deliveries v !! (i, u) = R !! (i, u).

Record frozen (w : W) : Prop := {
  fz_wf : store_wf (w_store w);
  fz_rows : rows_frozen (vw w);
  fz_quiet : quiet u (w_coord w);
  fz_active : active_ok (w_coord w);
}.

Notation freezes m := (keeps frozen (m : weff _)).

Lemma wp_store_frozen {A} (m : eff exn S A) used (P : A -> StoreView -> Prop) (w : W)
    (Q : A -> W -> Prop) :
  frozen w -> store_op view store_wf capacity used m (w_store w) P ->
  (forall a v', P a v' -> rows_frozen v') ->
  (forall a w', frozen w' -> w_coord w' = w_coord w -> P a (vw w') -> Q a w') ->
  wp (onStore m) Q (fun _ => frozen) w.
Proof.
  intros [Hwf Hr Hq Ha] Hop HP HQ. apply wp_zoom. eapply wp_mono; [exact Hop| |].
  - intros a s' (Hwf' & _ & Hp). apply HQ; [|done|done]. split; [done|by apply (HP a)|done|done].
  - intros x s' (_ & Hwf' & _ & Ev). split; [done| |done|done]. unfold vw in *. simpl. by rewrite Ev.
Qed.

Lemma env_frozen (w : W) e : frozen w -> frozen (put_env e w).
Proof. by intros []. Qed.

Lemma nowMs_frozen : freezes nowMs.
Proof. intros w HI. unfold wp, nowMs. destruct (clockNow _). by apply env_frozen. Qed.

Lemma deliver_frozen a : freezes (deliver a).
Proof. intros w HI. unfold wp, deliver. destruct (sinkDeliver _ _) as [e []]; by apply env_frozen. Qed.

Lemma drawJitter_frozen f d : freezes (drawJitter f d).
Proof. intros w HI. unfold wp, drawJitter. destruct (jitterDraw _ _ _). by apply env_frozen. Qed.

Lemma metric_frozen c : freezes (metric c).
Proof.
  intros w HI. unfold wp, metric, zoom. destruct (recordBestEffort _ _) as [re []]; by destruct HI.
Qed.

Lemma coord_frozen f :
  (forall c, quiet u c -> active_ok c -> quiet u (f c) /\ active_ok (f c)) -> freezes (modifyCoord f).
Proof.
  intros Hf. apply keepsOr_modify. intros w [? ? Hq Ha].
  destruct (Hf (w_coord w) Hq Ha). by split.
Qed.

Lemma setTick_frozen f : freezes (modifyCoord (fun c => set_tick (f c) c)).
Proof. by apply coord_frozen. Qed.

Lemma pause_frozen s : freezes (modifyCoord (fun c => set_paused ({[ s ]} ∪ paused_ c) c)).
Proof. apply coord_frozen. unfold quiet. simpl. intros c Hq Ha. split; [|done]. case_match; set_solver. Qed.

Lemma update_frozen d : dl_recipient d <> u -> freezes (onStore (updateDelivery d)).
Proof.
  intros Hd w HI. eapply wp_store_frozen; [done|apply updateDelivery_ok; apply HI| |auto].
  intros _ v' -> i. unfold view_updateDelivery. destruct HI as [_ Hr _ _]. case_match; [|apply Hr].
  simpl. rewrite lookup_insert_ne; [apply Hr|]. unfold dl_key. congruence.
Qed.

Hint Resolve nowMs_frozen deliver_frozen drawJitter_frozen metric_frozen setTick_frozen
  pause_frozen update_frozen : effects.

Lemma retryDelay_frozen a : freezes (retryDelayMs a).
Proof. unfold retryDelayMs, backoffMs, getCoord. keeps_tac. Qed.

Hint Resolve retryDelay_frozen : effects.

Lemma commit_frozen s now d m :
  dl_recipient d <> u -> freezes (commitAttempt s now d m).
Proof. intros Hd. unfold commitAttempt, getCoord. keeps_tac. Qed.

Hint Resolve commit_frozen : effects.

Lemma commit_recipient s now d m (w : W) :
  wp (commitAttempt s now d m) (fun row _ => dl_recipient row = dl_recipient d) (fun _ _ => True) w.
Proof.
  unfold commitAttempt, wp, bind, getCoord, gets, ret.
  repeat (case_match; simplify_eq; try done).
Qed.

Lemma claimConversation_frozen fuel s now rows :
  Forall (fun d => dl_recipient d <> u) rows -> freezes (claimConversation fuel s now rows).
Proof.
  revert rows. induction fuel as [|fuel IH]; intros rows Hrows; cbn [claimConversation]; [keeps_tac|].
  pose proof (pickHead_head rows) as Hh.
  destruct (pickHead 0 rows None) as [[i h]|]; [|keeps_tac].
  assert (dl_recipient h <> u) as Hr by (rewrite Forall_lookup in Hrows; eapply Hrows, Hh).
  destruct (negb _); [keeps_tac|]. intros w HI. apply wp_bind.
  eapply wp_store_frozen; [done|apply findMessage_ok; apply HI| |].
  { intros a v' [_ ->]. apply HI. }
  intros om w1 HI1 _ _. destruct om as [m|]; [|by apply wp_ret].
  apply wp_bind. eapply wp_mono; [by apply deliver_frozen| |auto]. intros disp w2 HI2.
  destruct disp; [| |by apply wp_ret].
  2:{ apply wp_bind. eapply wp_mono; [by apply pause_frozen| |auto]. intros ? w3 HI3. by apply wp_ret. }
  apply wp_bind. eapply wp_mono; [apply wp_and; [by apply commit_frozen|apply commit_recipient]| |naive_solver].
  intros row w3 [HI3 Hrow]. apply IH; [|done].
  apply Forall_insert; [done|congruence].
Qed.

Lemma claimGroups_frozen s now gs :
  Forall (fun g => Forall (fun d => dl_recipient d <> u) g.2) gs -> freezes (claimGroups s now gs).
Proof.
  induction 1 as [|[c rows] gs Hg Hgs IH]; cbn [claimGroups]; [keeps_tac|].
  apply keepsOr_bind; [by apply claimConversation_frozen|intros []; [keeps_tac|exact IH]].
Qed.

Lemma claimFor_frozen s : userId s <> u -> freezes (claimFor s).
Proof.
  intros Hs w HI. unfold claimFor, getCoord. apply wp_bind, wp_gets.
  case_bool_decide; [by apply wp_ret|]. apply wp_bind.
  eapply wp_store_frozen; [done|apply deliveriesByRecipient_ok; apply HI| |].
  { intros a v' [-> _]. apply HI. }
  intros ds w1 HI1 _ [_ [_ Hin]]. apply wp_bind.
  eapply wp_mono; [by apply nowMs_frozen| |auto]. intros now w2 HI2.
  apply claimGroups_frozen; [|done]. apply Forall_forall. intros [c rows] Hg.
  apply Forall_forall. intros d Hd.
  destruct (groupByConversation_spec ds) as (_ & Hgr & _). rewrite (Hgr _ _ Hg) in Hd.
  apply list_elem_of_filter in Hd as [_ Hds].
  apply Hin in Hds as (k & d0 & _ & Hd0 & ->). rewrite fill_recipient. congruence.
Qed.

Lemma release_frozen d : dl_recipient d <> u -> freezes (releaseRow d).
Proof. intros Hd. unfold releaseRow. keeps_tac. Qed.

Lemma session_insert_elem x l y : y ∈ session_insert x l -> y = x \/ y ∈ l.
Proof.
  induction l as [|z l IH]; cbn [session_insert]; [rewrite list_elem_of_singleton; auto|].
  repeat case_match; rewrite ?elem_of_cons; naive_solver.
Qed.

(** Only rows of other recipients are rolled back, and only their sessions are
    collected. *)
Lemma collectDue_frozen due acc (w : W) :
  frozen w -> Forall (fun s => userId s <> u) acc ->
  wp (collectDue due acc) (fun l w' => frozen w' /\ Forall (fun s => userId s <> u) l)
    (fun _ => frozen) w.
Proof.
  revert acc w. induction due as [|d due IH]; intros acc w HI Hacc; cbn [collectDue];
    [by apply wp_ret|].
  apply wp_bind. unfold rollBackDue, getCoord. apply wp_bind, wp_gets.
  destruct (activeByUser_ (w_coord w) !! dl_recipient d) as [s|] eqn:Hs;
    [|apply wp_ret; by apply IH].
  case_bool_decide as Hp; [apply wp_ret; by apply IH|].
  case_bool_decide; simpl; [|apply wp_ret; by apply IH].
  assert (dl_recipient d <> u) as Hd.
  { intros E0. pose proof (fz_quiet _ HI) as Hq. unfold quiet in Hq. by rewrite <- E0, Hs in Hq. }
  apply wp_bind. eapply wp_mono; [by apply release_frozen| |auto].
  intros ? w1 HI1. apply wp_ret. apply IH; [done|]. apply Forall_forall. intros y Hy.
  apply session_insert_elem in Hy as [->|Hy].
  - rewrite (fz_active _ HI _ _ Hs). done.
  - by eapply Forall_forall in Hacc.
Qed.

Lemma runRetryScan_frozen now (w : W) :
  0 <= retryBatchLimit (config_ (w_coord w)) < 2 ^ 32 -> frozen w ->
  wp (runRetryScan now) (fun _ => frozen) (fun _ => frozen) w.
Proof.
  intros Hlim HI. unfold runRetryScan, getCoord. apply wp_bind, wp_modify, wp_bind, wp_gets, wp_bind.
  eapply wp_store_frozen with (w := put_coord _ w); [by destruct HI; split| | |].
  - apply deliveriesDueForRetry_ok; [apply HI|exact (proj1 Hlim)].
  - intros a v' [-> _]. apply HI.
  - intros due w1 HI1 _ _. destruct due as [|d due]; [by apply wp_ret|].
    apply wp_bind. eapply wp_mono; [by apply collectDue_frozen| |auto].
    intros toClaim w2 [HI2 Hall]. apply wp_bind.
    eapply wp_mono; [eapply (keepsOr_forM frozen (fun _ => frozen)); [|exact HI2]| |auto].
    + intros s Hs. apply claimFor_frozen. rewrite Forall_forall in Hall. by apply Hall, list_elem_of_In.
    + intros ? w3 HI3. by apply wp_bind, wp_gets, wp_ret.
Qed.
End retry.

(** C13: The retry scan spends no attempt on a recipient without an active session
    or with a paused one: every delivery of that recipient is left exactly as it
    was, however the scan ends. *)
Theorem retryScan_spares_offline {S E} `{!MessageStore S, !MessageStoreLaws S, !Env E}
    (w w' : World S E) now u i r :
  world_ok w -> active_ok (w_coord w) -> quiet u (w_coord w) ->
  runRetryScan now w = (w', r) ->
  v_deliveries (view (w_store w')) !! (i, u) = v_deliveries (view (w_store w)) !! (i, u).
Proof.
  intros Hw Ha Hq Hrun.
  pose proof (runRetryScan_frozen u (v_deliveries (vw w)) now w (wo_retry _ Hw)
    ltac:(by split; [apply Hw| | |])) as Hwp.
  unfold wp in Hwp. rewrite Hrun in Hwp. by destruct r; apply (fz_rows _ _ _ Hwp).
Qed.
