(* ===== verification/SessionRegistry.v ===== *)
(** * Sessions bound to connections
    (chatserver/include/app/SessionRegistry.hpp, src/app/SessionRegistry.cpp)

    Every method holds the registry's mutex, so the calls of all reactor threads
    form one sequence; the theorems hold for every such sequence. *)

From S2P Require Import Prelude.

Open Scope Z_scope.

(** A [TcpConnectionPtr] is compared by identity. *)
Abbreviation Conn := Z (only parsing).

Record BoundSession := mkBound { bs_userId : Z; bs_generation : Z }.

#[export] Instance BoundSession_eq_dec : EqDecision BoundSession.
Proof. solve_decision. Defined.

Inductive BindResult := BindOk | ConnectionInactive | ConnectionBusy | UserBusy.

#[export] Instance BindResult_eq_dec : EqDecision BindResult.
Proof. solve_decision. Defined.

Record SessionRegistry := mkRegistry {
  byConnection_ : gmap Conn BoundSession;
  byUser_ : gmap Z Conn;
  activeConnections_ : gset Conn;
  closingConnections_ : gset Conn;
}.

Module Registry.

Definition empty : SessionRegistry := mkRegistry ∅ ∅ ∅ ∅.

Definition addConnection (conn : Conn) (r : SessionRegistry) : SessionRegistry :=
  mkRegistry (byConnection_ r) (byUser_ r) ({[ conn ]} ∪ activeConnections_ r)
    (closingConnections_ r).

Definition removeConnection (conn : Conn) (r : SessionRegistry) : SessionRegistry :=
  mkRegistry (byConnection_ r) (byUser_ r) (activeConnections_ r ∖ {[ conn ]})
    (closingConnections_ r ∖ {[ conn ]}).

Definition reserveCloseIfBound (conn : Conn) (expected : BoundSession) (r : SessionRegistry)
  : SessionRegistry * bool :=
  if negb (bool_decide (conn ∈ activeConnections_ r)) then (r, false)
  else match byConnection_ r !! conn with
       | None => (r, false)
       | Some b =>
           if negb (bs_userId b =? bs_userId expected)
              || negb (bs_generation b =? bs_generation expected)
           then (r, false)
           else if bool_decide (conn ∈ closingConnections_ r) then (r, false)
           else (mkRegistry (byConnection_ r) (byUser_ r) (activeConnections_ r)
                   ({[ conn ]} ∪ closingConnections_ r), true)
       end.

Definition bind (conn : Conn) (userId generation : Z) (r : SessionRegistry)
  : SessionRegistry * BindResult :=
  if negb (bool_decide (conn ∈ activeConnections_ r)) then (r, ConnectionInactive)
  else if bool_decide (conn ∈ closingConnections_ r) then (r, ConnectionInactive)
  else match byConnection_ r !! conn with
       | Some _ => (r, ConnectionBusy)
       | None =>
           match byUser_ r !! userId with
           | Some _ => (r, UserBusy)
           | None =>
               (mkRegistry (<[conn := mkBound userId generation]> (byConnection_ r))
                  (<[userId := conn]> (byUser_ r)) (activeConnections_ r)
                  (closingConnections_ r), BindOk)
           end
       end.

Definition unbind (conn : Conn) (r : SessionRegistry) : SessionRegistry * Z :=
  match byConnection_ r !! conn with
  | None => (r, 0)
  | Some b =>
      (mkRegistry (delete conn (byConnection_ r)) (delete (bs_userId b) (byUser_ r))
         (activeConnections_ r) (closingConnections_ r), bs_userId b)
  end.

Definition unbindUser (userId : Z) (r : SessionRegistry) : SessionRegistry * Z :=
  match byUser_ r !! userId with
  | None => (r, 0)
  | Some conn =>
      (mkRegistry
         (match byConnection_ r !! conn with
          | Some b => if bs_userId b =? userId then delete conn (byConnection_ r)
                      else byConnection_ r
          | None => byConnection_ r
          end)
         (delete userId (byUser_ r)) (activeConnections_ r) (closingConnections_ r), userId)
  end.

(** [lookupByConnection(conn, &out)]: the written session, [None] for false. *)
Definition lookupByConnection (conn : Conn) (r : SessionRegistry) : option BoundSession :=
  byConnection_ r !! conn.

Definition lookupByUser (userId : Z) (r : SessionRegistry) : option Conn := byUser_ r !! userId.

Fixpoint snapshotLoop (r : SessionRegistry) (excludeUserId : Z) (userIds : list Z)
    (out : gmap Z Conn) : gmap Z Conn :=
  match userIds with
  | [] => out
  | uid :: rest =>
      snapshotLoop r excludeUserId rest
        (if uid =? excludeUserId then out
         else match byUser_ r !! uid with
              | Some conn => match out !! uid with
                             | Some _ => out      (* unordered_map::insert keeps *)
                             | None => <[uid := conn]> out
                             end
              | None => out
              end)
  end.

Definition snapshotConnections (userIds : list Z) (excludeUserId : Z) (r : SessionRegistry)
  : gmap Z Conn := snapshotLoop r excludeUserId userIds ∅.

Definition size (r : SessionRegistry) : nat := stdpp.base.size (byConnection_ r).

End Registry.

(** ** Executions *)

Inductive RegistryCall :=
| CallAdd (conn : Conn)
| CallRemove (conn : Conn)
| CallReserveClose (conn : Conn) (expected : BoundSession)
| CallBind (conn : Conn) (userId generation : Z)
| CallUnbind (conn : Conn)
| CallUnbindUser (userId : Z).

Definition runRegistryCall (r : SessionRegistry) (call : RegistryCall) : SessionRegistry :=
  match call with
  | CallAdd c => Registry.addConnection c r
  | CallRemove c => Registry.removeConnection c r
  | CallReserveClose c e => (Registry.reserveCloseIfBound c e r).1
  | CallBind c u g => (Registry.bind c u g r).1
  | CallUnbind c => (Registry.unbind c r).1
  | CallUnbindUser u => (Registry.unbindUser u r).1
  end.

Definition runRegistryCalls (calls : list RegistryCall) (r : SessionRegistry) : SessionRegistry :=
  foldl runRegistryCall r calls.

Record registry_inv (r : SessionRegistry) : Prop := {
  ri_user : forall u c, byUser_ r !! u = Some c ->
    exists g, byConnection_ r !! c = Some (mkBound u g);
  ri_connection : forall c b, byConnection_ r !! c = Some b -> byUser_ r !! bs_userId b = Some c;
  ri_closing : closingConnections_ r ⊆ activeConnections_ r;
}.

Lemma registry_inv_empty : registry_inv Registry.empty.
Proof. split; simpl; [intros ? ?|intros ? ?|done]; by rewrite lookup_empty. Qed.

(** [bind] by outcome. *)
Lemma bind_ok conn u g r r' :
  Registry.bind conn u g r = (r', BindOk) <->
  conn ∈ activeConnections_ r /\ conn ∉ closingConnections_ r /\
  byConnection_ r !! conn = None /\ byUser_ r !! u = None /\
  r' = mkRegistry (<[conn := mkBound u g]> (byConnection_ r)) (<[u := conn]> (byUser_ r))
         (activeConnections_ r) (closingConnections_ r).
Proof.
  unfold Registry.bind. repeat case_bool_decide; simpl; try naive_solver.
  repeat case_match; naive_solver.
Qed.

Lemma bind_state conn u g r :
  (Registry.bind conn u g r).1 = r \/ (Registry.bind conn u g r).2 = BindOk.
Proof. unfold Registry.bind. repeat case_match; auto. Qed.

Lemma bind_inv conn u g r : registry_inv r -> registry_inv (Registry.bind conn u g r).1.
Proof.
  intros Hr. destruct (Registry.bind conn u g r) as [r' res] eqn:Hb.
  destruct (bind_state conn u g r) as [E|E]; rewrite Hb in E; simpl in E; subst; [done|].
  apply bind_ok in Hb as (_ & _ & Hc & Hu & ->). destruct Hr as [H1 H2 H3]. split; simpl; [| |done].
  - intros u' c'. rewrite lookup_insert_Some. intros [[<- <-]|[Hne Hu']].
    + exists g. by rewrite lookup_insert_eq.
    + destruct (H1 _ _ Hu') as [g' Hg']. exists g'. rewrite lookup_insert_ne; [done|].
      intros ->. congruence.
  - intros c' b. rewrite lookup_insert_Some. intros [[<- <-]|[Hne Hb]].
    + by rewrite lookup_insert_eq.
    + rewrite lookup_insert_ne; [auto|]. intros E. apply H2 in Hb. congruence.
Qed.

Lemma unbind_inv conn r : registry_inv r -> registry_inv (Registry.unbind conn r).1.
Proof.
  intros [H1 H2 H3]. unfold Registry.unbind. destruct (byConnection_ r !! conn) as [b|] eqn:Hb;
    [|by split].
  split; simpl; [| |done].
  - intros u c. rewrite lookup_delete_Some. intros [Hne Hu]. destruct (H1 _ _ Hu) as [g Hg].
    exists g. rewrite lookup_delete_ne; [done|]. intros ->. rewrite Hb in Hg. by simplify_eq.
  - intros c b'. rewrite lookup_delete_Some. intros [Hne Hc].
    rewrite lookup_delete_ne; [auto|]. intros E. apply H2 in Hc. apply H2 in Hb.
    rewrite E in Hb. congruence.
Qed.

(** Under the invariant the two ways of unbinding agree. *)
Lemma unbindUser_unbind u r :
  registry_inv r ->
  (Registry.unbindUser u r).1 =
  match byUser_ r !! u with Some c => (Registry.unbind c r).1 | None => r end.
Proof.
  intros [H1 _ _]. unfold Registry.unbindUser, Registry.unbind.
  destruct (byUser_ r !! u) as [c|] eqn:Hu; [|done].
  destruct (H1 _ _ Hu) as [g Hg]. rewrite Hg. simpl. by rewrite Z.eqb_refl.
Qed.

Lemma reserve_state conn e r :
  let r' := (Registry.reserveCloseIfBound conn e r).1 in
  r' = r \/
  (conn ∈ activeConnections_ r /\ conn ∉ closingConnections_ r /\
   r' = mkRegistry (byConnection_ r) (byUser_ r) (activeConnections_ r)
          ({[ conn ]} ∪ closingConnections_ r)).
Proof.
  unfold Registry.reserveCloseIfBound. repeat case_bool_decide; simpl; auto.
  all: repeat case_match; auto.
Qed.

Lemma runRegistryCall_inv r call : registry_inv r -> registry_inv (runRegistryCall r call).
Proof.
  intros Hr. destruct call as [c|c|c e|c u g|c|u]; simpl.
  - destruct Hr. split; simpl; auto. set_solver.
  - destruct Hr. split; simpl; auto. set_solver.
  - destruct (reserve_state c e r) as [->|(Ha & _ & ->)]; [done|].
    destruct Hr. split; simpl; auto. set_solver.
  - by apply bind_inv.
  - by apply unbind_inv.
  - rewrite unbindUser_unbind by done. case_match; [by apply unbind_inv|done].
Qed.

Lemma runRegistryCalls_inv calls r : registry_inv r -> registry_inv (runRegistryCalls calls r).
Proof.
  revert r. induction calls as [|c cs IH]; intros r Hr; [done|]. by apply IH, runRegistryCall_inv.
Qed.

(** ** Properties *)

(** After any calls in any order the two directions of the registry agree: a
    user is bound to a connection exactly when that connection carries a session
    of the user; so a user has one connection and a connection one session. *)
Theorem registry_bijection calls u c :
  let r := runRegistryCalls calls Registry.empty in
  Registry.lookupByUser u r = Some c <->
  exists g, Registry.lookupByConnection c r = Some (mkBound u g).
Proof.
  destruct (runRegistryCalls_inv calls _ registry_inv_empty) as [H1 H2 _]. split; [apply H1|].
  intros [g Hg]. exact (H2 _ _ Hg).
Qed.

(** A binding survives every call that does not release it. *)
Definition bound_to (c u g : Z) (r : SessionRegistry) : Prop :=
  byConnection_ r !! c = Some (mkBound u g) /\ byUser_ r !! u = Some c.

Definition releases (c u : Z) (call : RegistryCall) : bool :=
  match call with
  | CallUnbind c' => c' =? c
  | CallUnbindUser u' => u' =? u
  | _ => false
  end.

Lemma bound_unbind c c' u g r :
  registry_inv r -> bound_to c u g r -> c' <> c -> bound_to c u g (Registry.unbind c' r).1.
Proof.
  intros Hr [Hc Hu] Hne. unfold Registry.unbind. destruct (byConnection_ r !! c') as [b|] eqn:Hb; [|done].
  split; simpl; rewrite lookup_delete_ne; auto.
  intros E. apply (ri_connection _ Hr) in Hb. congruence.
Qed.

Lemma bound_step c u g r call :
  registry_inv r -> bound_to c u g r -> releases c u call = false ->
  bound_to c u g (runRegistryCall r call).
Proof.
  intros Hr Hb Hrel. destruct call as [c'|c'|c' e|c' u' g'|c'|u']; simpl in *; try exact Hb.
  - by destruct (reserve_state c' e r) as [->|(_ & _ & ->)].
  - destruct (Registry.bind c' u' g' r) as [r' res] eqn:E.
    destruct (bind_state c' u' g' r) as [E1|E1]; rewrite E in E1; simpl in *; subst; [done|].
    apply bind_ok in E as (_ & _ & Hc & Hu & ->). destruct Hb as [Hb1 Hb2].
    split; simpl; rewrite lookup_insert_ne; congruence.
  - apply Z.eqb_neq in Hrel. by apply bound_unbind.
  - apply Z.eqb_neq in Hrel. rewrite unbindUser_unbind by done.
    destruct (byUser_ r !! u') as [c'|] eqn:Hu; [|done]. apply bound_unbind; [done|done|].
    intros ->. destruct (ri_user _ Hr _ _ Hu) as [g' Hg']. destruct Hb as [Hb1 _]. congruence.
Qed.

Lemma bound_calls c u g calls r :
  registry_inv r -> bound_to c u g r -> forallb (fun call => negb (releases c u call)) calls = true ->
  bound_to c u g (runRegistryCalls calls r).
Proof.
  revert r. induction calls as [|call cs IH]; intros r Hr Hb Hall; [done|].
  simpl in Hall. apply andb_true_iff in Hall as [H1%negb_true_iff H2].
  apply IH; [by apply runRegistryCall_inv|by apply bound_step|done].
Qed.

(** Login is exclusive: once a bind succeeded, until that connection or that
    user is released, whatever other calls the threads make, the binding stays as
    it was and no bind of the same user succeeds on any connection, nor any bind
    on that connection. *)
Theorem bind_is_exclusive before calls c u g r' :
  let r := runRegistryCalls before Registry.empty in
  Registry.bind c u g r = (r', BindOk) ->
  forallb (fun call => negb (releases c u call)) calls = true ->
  let r2 := runRegistryCalls calls r' in
  Registry.lookupByUser u r2 = Some c /\
  Registry.lookupByConnection c r2 = Some (mkBound u g) /\
  (forall c' g', (Registry.bind c' u g' r2).2 <> BindOk) /\
  (forall u' g', (Registry.bind c u' g' r2).2 <> BindOk).
Proof.
  intros r Hbind Hcalls r2.
  pose proof (runRegistryCalls_inv before _ registry_inv_empty) as Hr. fold r in Hr.
  pose proof (bind_inv c u g r Hr) as Hr'. rewrite Hbind in Hr'. simpl in Hr'.
  assert (bound_to c u g r') as Hb.
  { apply bind_ok in Hbind as (_ & _ & _ & _ & ->). split; simpl; by rewrite lookup_insert_eq. }
  destruct (bound_calls c u g calls r' Hr' Hb Hcalls) as [H1 H2]. fold r2 in H1, H2.
  split; [done|]. split; [done|].
  split; intros x g' E; destruct (Registry.bind _ _ _ r2) as [r3 res] eqn:E3; simpl in E; subst;
    apply bind_ok in E3 as (_ & _ & Hc & Hu & _); congruence.
Qed.

(** Two logins of user 5 race; the second wins only after the logout. *)
Lemma bind_is_exclusive_witness :
  let r := runRegistryCalls [CallAdd 1; CallAdd 2] Registry.empty in
  let r2 := runRegistryCalls [CallBind 2 5 8; CallUnbind 2; CallUnbindUser 6]
              (Registry.bind 1 5 7 r).1 in
  Registry.lookupByUser 5 r2 = Some 1 /\ (Registry.bind 2 5 8 r2).2 = UserBusy /\
  (Registry.bind 2 5 8 (Registry.unbind 1 r2).1).2 = BindOk.
Proof.
  intros r r2. split; [|split; vm_compute; reflexivity].
  exact (proj1 (bind_is_exclusive [CallAdd 1; CallAdd 2]
    [CallBind 2 5 8; CallUnbind 2; CallUnbindUser 6] 1 5 7 (Registry.bind 1 5 7 r).1
    ltac:(vm_compute; reflexivity) eq_refl)).
Defined.

Definition isRemove (c : Z) (call : RegistryCall) : bool :=
  match call with CallRemove c' => c' =? c | _ => false end.

Lemma closing_calls c calls r :
  c ∈ closingConnections_ r -> forallb (fun call => negb (isRemove c call)) calls = true ->
  c ∈ closingConnections_ (runRegistryCalls calls r).
Proof.
  revert r. induction calls as [|call cs IH]; intros r Hc Hall; [done|].
  simpl in Hall. apply andb_true_iff in Hall as [H1%negb_true_iff H2]. apply IH; [|done].
  destruct call as [c'|c'|c' e|c' u g|c'|u]; simpl in *; auto.
  - apply Z.eqb_neq in H1. set_solver.
  - destruct (reserve_state c' e r) as [->|(_ & _ & ->)]; simpl; set_solver.
  - unfold Registry.bind. repeat case_match; done.
  - unfold Registry.unbind. case_match; done.
  - unfold Registry.unbindUser. case_match; done.
Qed.

(** C25: A reserved close is a fence: after [reserveCloseIfBound] answered true,
    until the connection is removed, no bind on it succeeds and no second close
    is reserved, whatever is called meanwhile. *)
Theorem reserved_close_fences r r' c e calls u g e' :
  Registry.reserveCloseIfBound c e r = (r', true) ->
  forallb (fun call => negb (isRemove c call)) calls = true ->
  let r2 := runRegistryCalls calls r' in
  Registry.bind c u g r2 = (r2, ConnectionInactive) /\
  Registry.reserveCloseIfBound c e' r2 = (r2, false).
Proof.
  intros Hres Hall r2. assert (c ∈ closingConnections_ r2) as Hc.
  { apply closing_calls; [|done]. revert Hres. unfold Registry.reserveCloseIfBound.
    repeat case_match; intros [= <-]; simpl; set_solver. }
  split.
  - unfold Registry.bind. rewrite (bool_decide_true (c ∈ closingConnections_ r2)) by done.
    by destruct (negb _).
  - unfold Registry.reserveCloseIfBound.
    rewrite (bool_decide_true (c ∈ closingConnections_ r2)) by done. repeat case_match; done.
Qed.

(** C25: the connection of user 5 is closed while a re-login is under way. *)
Lemma reserved_close_fences_witness :
  let r := runRegistryCalls [CallAdd 1; CallBind 1 5 7] Registry.empty in
  let r' := (Registry.reserveCloseIfBound 1 (mkBound 5 7) r).1 in
  let r2 := runRegistryCalls [CallUnbind 1; CallAdd 1] r' in
  Registry.bind 1 5 8 r2 = (r2, ConnectionInactive) /\
  Registry.reserveCloseIfBound 1 (mkBound 5 7) r2 = (r2, false).
Proof.
  intros r r' r2. apply (reserved_close_fences r r' 1 (mkBound 5 7) [CallUnbind 1; CallAdd 1]);
    vm_compute; reflexivity.
Defined.
