(* ===== verification/Application.v ===== *)
(** * The application layer: repositories and session generations
    (chatserver/src/app/ChatApplication.cpp, InMemoryUserRepository.cpp,
    InMemoryFriendRepository.cpp, InMemoryGroupRepository.cpp)

    The repository ports are one class; [ChatApplication] is written against it
    and the in-memory adapters are its instance. *)

From S2P Require Import Prelude SessionRegistry.
From Stdlib Require Import Ascii.

Open Scope Z_scope.

(** ** Ports *)

Inductive UserError := NameExists | UserStorageFailure | UserDisconnected | UserTimeout | InvalidInput.
Inductive UserState := Offline | Online.
Inductive FriendError :=
| FriendNone | FriendDuplicate | FriendTargetNotFound | FriendStorageFailure
| FriendDisconnected | FriendTimeout.
Inductive GroupError :=
| GroupNone | GroupDuplicate | GroupTargetNotFound | GroupStorageFailure
| GroupDisconnected | GroupTimeout.

Record CreateUserResult := mkCreateUser { cu_ok : bool; cu_id : Z; cu_error : UserError }.
Record AuthResult := mkAuth {
  au_ok : bool; au_id : Z; au_name : string; au_state : UserState; au_error : UserError }.
Record AddFriendResult := mkAddFriend { af_ok : bool; af_error : FriendError }.
Record CreateGroupResult := mkCreateGroup { cg_ok : bool; cg_groupId : Z; cg_error : GroupError }.
Record JoinGroupResult := mkJoinGroup { jg_ok : bool; jg_error : GroupError }.
Record MembersResult := mkMembers { mr_ok : bool; mr_userIds : list Z; mr_error : GroupError }.

(** UserRepository, FriendRepository and GroupRepository over a shared state. *)
Class Repositories (R : Type) := {
  users_create : string -> string -> R -> R * CreateUserResult;
  users_authenticate : Z -> string -> R -> R * AuthResult;
  users_updateState : Z -> UserState -> R -> R * bool;
  friends_add : Z -> Z -> R -> R * AddFriendResult;
  groups_create : Z -> string -> string -> R -> R * CreateGroupResult;
  groups_join : Z -> Z -> R -> R * JoinGroupResult;
  groups_members : Z -> R -> R * MembersResult;
}.

(** ** In-memory adapters *)

Record User := mkUser { u_id : Z; u_name : string; u_password : string; u_state : UserState }.

Record InMemoryUserRepository := mkUsers {
  usersById_ : gmap Z User;
  idByName_ : gmap string Z;
  users_nextId_ : Z;
}.

Record Group := mkGroup { g_id : Z; g_name : string; g_desc : string; g_members : gset Z }.

Record InMemoryGroupRepository := mkGroups {
  groups_ : gmap Z Group;
  groups_nextId_ : Z;
}.

(** Friend and group adapters hold a reference to the user adapter. *)
Record InMemoryRepositories := mkRepositories {
  r_users : InMemoryUserRepository;
  r_edges : gset (Z * Z);
  r_groups : InMemoryGroupRepository;
}.

Module InMemoryRepo.

Fixpoint hasNul (s : string) : bool :=
  match s with
  | EmptyString => false
  | String c rest => Ascii.eqb c Ascii.zero || hasNul rest
  end.

Definition isRepositoryInputValid (name password : string) : bool :=
  if (Nat.eqb (String.length name) 0) || (Nat.eqb (String.length password) 0)
     || (Nat.ltb 50 (String.length name)) || (Nat.ltb 50 (String.length password))
  then false
  else negb (hasNul name) && negb (hasNul password).

Definition create (name password : string) (u : InMemoryUserRepository)
  : InMemoryUserRepository * CreateUserResult :=
  if negb (isRepositoryInputValid name password) then (u, mkCreateUser false 0 InvalidInput)
  else match idByName_ u !! name with
       | Some _ => (u, mkCreateUser false 0 NameExists)
       | None =>
           let id := users_nextId_ u in
           (mkUsers (insert_new id (mkUser id name password Offline) (usersById_ u))
              (insert_new name id (idByName_ u)) (i64 (id + 1)),
            mkCreateUser true id UserStorageFailure)
       end.

Definition noAuth : AuthResult := mkAuth false 0 EmptyString Offline UserStorageFailure.

Definition authenticate (id : Z) (password : string) (u : InMemoryUserRepository) : AuthResult :=
  match usersById_ u !! id with
  | None => noAuth
  | Some user =>
      if negb (String.eqb (u_password user) password) then noAuth
      else mkAuth true id (u_name user) (u_state user) UserStorageFailure
  end.

Definition updateState (id : Z) (state : UserState) (u : InMemoryUserRepository)
  : InMemoryUserRepository * bool :=
  match usersById_ u !! id with
  | None => (u, false)
  | Some user =>
      (mkUsers (<[id := mkUser (u_id user) (u_name user) (u_password user) state]> (usersById_ u))
         (idByName_ u) (users_nextId_ u), true)
  end.

Definition userExists (id : Z) (u : InMemoryUserRepository) : bool :=
  match usersById_ u !! id with Some _ => true | None => false end.

Definition add (users : InMemoryUserRepository) (userId friendId : Z) (edges : gset (Z * Z))
  : gset (Z * Z) * AddFriendResult :=
  if negb (userExists userId users) || negb (userExists friendId users)
  then (edges, mkAddFriend false FriendTargetNotFound)
  else if bool_decide ((userId, friendId) ∈ edges)
  then (edges, mkAddFriend false FriendDuplicate)
  else ({[ (userId, friendId) ]} ∪ edges, mkAddFriend true FriendStorageFailure).

Definition createGroup (users : InMemoryUserRepository) (ownerId : Z) (name desc : string)
    (g : InMemoryGroupRepository) : InMemoryGroupRepository * CreateGroupResult :=
  if negb (userExists ownerId users) then (g, mkCreateGroup false 0 GroupTargetNotFound)
  else
    let id := groups_nextId_ g in
    (mkGroups (insert_new id (mkGroup id name desc {[ ownerId ]}) (groups_ g)) (i64 (id + 1)),
     mkCreateGroup true id GroupStorageFailure).

Definition join (users : InMemoryUserRepository) (groupId userId : Z)
    (g : InMemoryGroupRepository) : InMemoryGroupRepository * JoinGroupResult :=
  match groups_ g !! groupId with
  | None => (g, mkJoinGroup false GroupTargetNotFound)
  | Some grp =>
      if negb (userExists userId users) then (g, mkJoinGroup false GroupTargetNotFound)
      else if bool_decide (userId ∈ g_members grp) then (g, mkJoinGroup false GroupDuplicate)
      else (mkGroups
              (<[groupId := mkGroup (g_id grp) (g_name grp) (g_desc grp)
                              ({[ userId ]} ∪ g_members grp)]> (groups_ g))
              (groups_nextId_ g), mkJoinGroup true GroupStorageFailure)
  end.

(** The members in the order of [std::set]. *)
Definition members (groupId : Z) (g : InMemoryGroupRepository) : MembersResult :=
  match groups_ g !! groupId with
  | None => mkMembers true [] GroupStorageFailure
  | Some grp => mkMembers true (merge_sort Z.le (elements (g_members grp))) GroupStorageFailure
  end.
End InMemoryRepo.

#[export] Instance inMemoryRepositories : Repositories InMemoryRepositories := {|
  users_create n p r := let '(u, x) := InMemoryRepo.create n p (r_users r) in
    (mkRepositories u (r_edges r) (r_groups r), x);
  users_authenticate i p r := (r, InMemoryRepo.authenticate i p (r_users r));
  users_updateState i s r := let '(u, x) := InMemoryRepo.updateState i s (r_users r) in
    (mkRepositories u (r_edges r) (r_groups r), x);
  friends_add a b r := let '(e, x) := InMemoryRepo.add (r_users r) a b (r_edges r) in
    (mkRepositories (r_users r) e (r_groups r), x);
  groups_create o n d r := let '(g, x) := InMemoryRepo.createGroup (r_users r) o n d (r_groups r) in
    (mkRepositories (r_users r) (r_edges r) g, x);
  groups_join i u r := let '(g, x) := InMemoryRepo.join (r_users r) i u (r_groups r) in
    (mkRepositories (r_users r) (r_edges r) g, x);
  groups_members i r := (r, InMemoryRepo.members i (r_groups r));
|}.

Definition emptyRepositories : InMemoryRepositories :=
  mkRepositories (mkUsers ∅ ∅ 1) ∅ (mkGroups ∅ 1).

(** ** ChatApplication *)

Inductive CommandType :=
| CmdRegister | CmdLogin | CmdLogout | CmdOneChat | CmdAddFriend | CmdCreateGroup
| CmdAddGroup | CmdGroupChat.

Record Command := mkCmd { cmd_type : CommandType; cmd_userId : Z; cmd_name : string;
  cmd_password : string; cmd_raw : string }.

Record Reply := mkReply { rp_type : CommandType; rp_errno : Z; rp_errmsg : string;
  rp_userId : Z; rp_name : string }.

Record ChatApplication (R : Type) := mkApp { app_repos : R; generations_ : gmap Z Z }.
Arguments mkApp {R}.
Arguments app_repos {R}.
Arguments generations_ {R}.

Definition emptyApp : ChatApplication InMemoryRepositories := mkApp emptyRepositories ∅.

Module App.
Section app.
Context {R : Type} `{!Repositories R}.

Notation A := (ChatApplication R).

Definition onRepos {X} (f : R -> R * X) (a : A) : A * X :=
  let '(r, x) := f (app_repos a) in (mkApp r (generations_ a), x).

(** [++generations_[userId]]: an absent entry starts at zero. *)
Definition beginSessionAttempt (userId : Z) (a : A) : A * Z :=
  let g := i64 (default 0 (generations_ a !! userId) + 1) in
  (mkApp (app_repos a) (<[userId := g]> (generations_ a)), g).

Definition isSessionCurrent (userId generation : Z) (a : A) : bool :=
  match generations_ a !! userId with Some g => g =? generation | None => false end.

Definition invalidateSessionAttempt (userId generation : Z) (a : A) : A * bool :=
  match generations_ a !! userId with
  | None => (a, false)
  | Some g =>
      if negb (g =? generation) then (a, false)
      else (mkApp (app_repos a) (<[userId := i64 (g + 1)]> (generations_ a)), true)
  end.

Definition authenticate (userId : Z) (password : string) : A -> A * AuthResult :=
  onRepos (users_authenticate userId password).

Definition updateUserState (userId : Z) (state : UserState) : A -> A * bool :=
  onRepos (users_updateState userId state).

Definition updateUserStateOfflineUnlessActive (sessions : SessionRegistry) (userId : Z) (a : A)
  : A * bool :=
  match Registry.lookupByUser userId sessions with
  | Some _ => (a, false)
  | None => updateUserState userId Offline a
  end.

Definition addFriend (userId friendId : Z) : A -> A * AddFriendResult :=
  onRepos (friends_add userId friendId).

Definition createGroup (ownerId : Z) (name desc : string) : A -> A * CreateGroupResult :=
  onRepos (groups_create ownerId name desc).

Definition joinGroup (groupId userId : Z) : A -> A * JoinGroupResult :=
  onRepos (groups_join groupId userId).

Definition groupMembers (groupId : Z) : A -> A * MembersResult :=
  onRepos (groups_members groupId).

Definition validRegistrationInput (cmd : Command) : bool :=
  negb (Nat.eqb (String.length (cmd_name cmd)) 0)
  && negb (Nat.eqb (String.length (cmd_password cmd)) 0)
  && (Nat.leb (String.length (cmd_name cmd)) 50).

(** The reply object is updated in place. *)
Definition setError (msg : string) (reply : Reply) : Reply :=
  mkReply (rp_type reply) 1 msg (rp_userId reply) (rp_name reply).

Definition registerUser (cmd : Command) (reply : Reply) (a : A) : A * Reply :=
  if negb (validRegistrationInput cmd) then (a, setError "invalid input!" reply)
  else
    let '(a', result) := onRepos (users_create (cmd_name cmd) (cmd_password cmd)) a in
    (a', if cu_ok result
         then mkReply (rp_type reply) 0 (rp_errmsg reply) (cu_id result) (rp_name reply)
         else match cu_error result with
              | NameExists => setError "this name is already exist!" reply
              | InvalidInput => setError "invalid input!" reply
              | _ => setError "register failed!" reply
              end).

Definition handle (cmd : Command) (reply : Reply) (a : A) : A * Reply :=
  let reply := mkReply (cmd_type cmd) (rp_errno reply) (rp_errmsg reply) (rp_userId reply)
                 (rp_name reply) in
  match cmd_type cmd with
  | CmdRegister => registerUser cmd reply a
  | _ => (a, setError "not supported yet" reply)
  end.
End app.
End App.

(** ** Executions *)

Inductive AppCall :=
| AppHandle (cmd : Command) (reply : Reply)
| AppBegin (userId : Z)
| AppInvalidate (userId generation : Z)
| AppUpdateState (userId : Z) (state : UserState)
| AppOfflineUnlessActive (sessions : SessionRegistry) (userId : Z)
| AppAddFriend (userId friendId : Z)
| AppCreateGroup (ownerId : Z) (name desc : string)
| AppJoinGroup (groupId userId : Z).

Definition runAppCall {R} `{!Repositories R} (a : ChatApplication R) (call : AppCall)
  : ChatApplication R :=
  match call with
  | AppHandle cmd reply => (App.handle cmd reply a).1
  | AppBegin u => (App.beginSessionAttempt u a).1
  | AppInvalidate u g => (App.invalidateSessionAttempt u g a).1
  | AppUpdateState u s => (App.updateUserState u s a).1
  | AppOfflineUnlessActive r u => (App.updateUserStateOfflineUnlessActive r u a).1
  | AppAddFriend u f => (App.addFriend u f a).1
  | AppCreateGroup o n d => (App.createGroup o n d a).1
  | AppJoinGroup g u => (App.joinGroup g u a).1
  end.

Definition runAppCalls {R} `{!Repositories R} (calls : list AppCall) (a : ChatApplication R)
  : ChatApplication R := foldl runAppCall a calls.

(** ** Session generations *)

Section generations.
Context {R : Type} `{!Repositories R}.

Lemma onRepos_generations {X} (f : R -> R * X) a :
  generations_ (App.onRepos f a).1 = generations_ a.
Proof. unfold App.onRepos. by destruct (f (app_repos a)). Qed.

Lemma handle_generations cmd reply (a : ChatApplication R) :
  generations_ (App.handle cmd reply a).1 = generations_ a.
Proof.
  unfold App.handle, App.registerUser. destruct (cmd_type cmd); try done.
  destruct (negb _); [done|]. pose proof (onRepos_generations (users_create (cmd_name cmd) (cmd_password cmd)) a).
  by destruct (App.onRepos _ a).
Qed.

(** The calls that end the attempt with generation [g] of user [u]. *)
Definition supersedes (u g : Z) (call : AppCall) : bool :=
  match call with
  | AppBegin u' => u' =? u
  | AppInvalidate u' g' => (u' =? u) && (g' =? g)
  | _ => false
  end.

(** The generation of [u] after one call. *)
Lemma generation_step u h (a : ChatApplication R) call :
  generations_ a !! u = Some h -> 0 <= h < 2 ^ 63 - 1 ->
  generations_ (runAppCall a call) !! u = Some (if supersedes u h call then h + 1 else h).
Proof.
  intros Hh Hb. destruct call as [cmd rp|u'|u' g|u' s|r u'|u' f|o n d|g u']; cbn [runAppCall supersedes].
  - by rewrite handle_generations.
  - cbn. destruct (Z.eqb_spec u' u) as [->|Hne].
    + rewrite lookup_insert_eq, Hh. simpl. by rewrite i64_small by (split; lia).
    + by rewrite lookup_insert_ne.
  - unfold App.invalidateSessionAttempt. destruct (Z.eqb_spec u' u) as [->|Hne]; simpl.
    + rewrite Hh, (Z.eqb_sym g h). destruct (Z.eqb_spec h g); simpl; [|done].
      rewrite lookup_insert_eq, i64_small; [done|split; lia].
    + destruct (generations_ a !! u') as [x|]; [|done]. destruct (negb _); [done|]. simpl.
      by rewrite lookup_insert_ne.
  - unfold App.updateUserState. by rewrite onRepos_generations.
  - unfold App.updateUserStateOfflineUnlessActive, App.updateUserState.
    case_match; [done|]. by rewrite onRepos_generations.
  - unfold App.addFriend. by rewrite onRepos_generations.
  - unfold App.createGroup. by rewrite onRepos_generations.
  - unfold App.joinGroup. by rewrite onRepos_generations.
Qed.

Lemma generation_grows u h (a : ChatApplication R) calls :
  generations_ a !! u = Some h -> 0 <= h -> h + Z.of_nat (length calls) < 2 ^ 63 ->
  exists h', generations_ (runAppCalls calls a) !! u = Some h' /\ h <= h' /\
    (h' = h <-> forallb (fun c => negb (supersedes u h c)) calls = true).
Proof.
  revert h a. induction calls as [|c cs IH]; intros h a Hh H0 Hb; [by exists h|].
  change (runAppCalls (c :: cs) a) with (runAppCalls cs (runAppCall a c)). simpl length in Hb.
  pose proof (generation_step u h a c Hh ltac:(lia)) as Hs. cbn [forallb].
  destruct (supersedes u h c); simpl.
  - destruct (IH (h + 1) _ Hs ltac:(lia) ltac:(lia)) as (h' & Hh' & Hle & _).
    exists h'. split; [done|]. split; [lia|]. split; [lia|done].
  - exact (IH h _ Hs H0 ltac:(lia)).
Qed.

(** A login attempt is current exactly until superseded: the generation that
    [beginSessionAttempt] returned is accepted by [isSessionCurrent] after any
    calls if and only if none of them began another attempt of that user or
    invalidated this one, so a completion of an older attempt never passes and an
    invalidation of an older generation never ends a newer attempt. *)
Theorem attempt_current_until_superseded u (a : ChatApplication R) calls :
  0 <= default 0 (generations_ a !! u) ->
  default 0 (generations_ a !! u) + 1 + Z.of_nat (length calls) < 2 ^ 63 ->
  let '(a1, g) := App.beginSessionAttempt u a in
  App.isSessionCurrent u g (runAppCalls calls a1) =
  forallb (fun c => negb (supersedes u g c)) calls.
Proof.
  intros H0 Hb. unfold App.beginSessionAttempt. set (g := i64 _).
  assert (g = default 0 (generations_ a !! u) + 1) as Hg by (apply i64_small; split; lia).
  destruct (generation_grows u g (mkApp (app_repos a) (<[u := g]> (generations_ a))) calls)
    as (h' & Hh' & Hle & Hiff); [by apply lookup_insert_eq|lia|lia|].
  unfold App.isSessionCurrent. rewrite Hh'.
  destruct (forallb _ calls) eqn:Hf.
  - apply Z.eqb_eq, Hiff. done.
  - apply Z.eqb_neq. intros E. apply Hiff in E. by rewrite E in Hf.
Qed.
End generations.

(** A second login of user 5 supersedes the first; the close of the first
    does not touch the second. *)
Lemma attempt_current_until_superseded_witness :
  let '(a1, g1) := App.beginSessionAttempt 5 emptyApp in
  App.isSessionCurrent 5 g1 (runAppCalls [AppBegin 6; AppInvalidate 5 9] a1) = true /\
  App.isSessionCurrent 5 g1 (runAppCalls [AppBegin 5; AppInvalidate 5 g1] a1) = false.
Proof.
  split.
  - exact (attempt_current_until_superseded 5 emptyApp
      [AppBegin 6; AppInvalidate 5 9] ltac:(vm_compute; discriminate) ltac:(vm_compute; reflexivity)).
  - exact (attempt_current_until_superseded 5 emptyApp
      [AppBegin 5; AppInvalidate 5 1] ltac:(vm_compute; discriminate) ltac:(vm_compute; reflexivity)).
Defined.

(** ** Accounts *)

Record users_inv (u : InMemoryUserRepository) : Prop := {
  us_name : forall i usr, usersById_ u !! i = Some usr -> idByName_ u !! u_name usr = Some i;
  us_id : forall n i, idByName_ u !! n = Some i -> exists usr, usersById_ u !! i = Some usr /\ u_name usr = n;
  us_next : forall i, is_Some (usersById_ u !! i) -> 1 <= i < users_nextId_ u;
}.

(** What one call may do to the accounts: nothing, a change of state, or one new
    account under the next identity. *)
Inductive users_step (u : InMemoryUserRepository) : InMemoryUserRepository -> Prop :=
| us_same : users_step u u
| us_state i s : users_step u (InMemoryRepo.updateState i s u).1
| us_create n p : users_step u (InMemoryRepo.create n p u).1.

Lemma handle_users cmd reply (a : ChatApplication InMemoryRepositories) :
  users_step (r_users (app_repos a)) (r_users (app_repos (App.handle cmd reply a).1)).
Proof.
  unfold App.handle, App.registerUser. destruct (cmd_type cmd); try apply us_same.
  destruct (negb _); [apply us_same|]. unfold App.onRepos. simpl.
  pose proof (us_create (r_users (app_repos a)) (cmd_name cmd) (cmd_password cmd)) as Hc.
  by destruct (InMemoryRepo.create _ _ _).
Qed.

Lemma runAppCall_users (a : ChatApplication InMemoryRepositories) call :
  users_step (r_users (app_repos a)) (r_users (app_repos (runAppCall a call))).
Proof.
  assert (forall i s, users_step (r_users (app_repos a))
            (r_users (app_repos (App.updateUserState i s a).1))) as Hst.
  { intros i s. unfold App.updateUserState, App.onRepos. simpl.
    pose proof (us_state (r_users (app_repos a)) i s) as Hs. by destruct (InMemoryRepo.updateState _ _ _). }
  destruct call as [cmd rp|u'|u' g|u' s|r u'|u' f|o n d|g u']; cbn [runAppCall].
  - apply handle_users.
  - apply us_same.
  - unfold App.invalidateSessionAttempt. repeat case_match; apply us_same.
  - apply Hst.
  - unfold App.updateUserStateOfflineUnlessActive. case_match; [apply us_same|apply Hst].
  - unfold App.addFriend, App.onRepos. simpl. destruct (InMemoryRepo.add _ _ _ _). apply us_same.
  - unfold App.createGroup, App.onRepos. simpl. destruct (InMemoryRepo.createGroup _ _ _ _ _).
    apply us_same.
  - unfold App.joinGroup, App.onRepos. simpl. destruct (InMemoryRepo.join _ _ _ _). apply us_same.
Qed.

(** [create] by outcome. *)
Lemma create_spec n p u :
  users_inv u ->
  (exists e, InMemoryRepo.create n p u = (u, mkCreateUser false 0 e) /\
     (e = NameExists -> is_Some (idByName_ u !! n))) \/
  (idByName_ u !! n = None /\
   InMemoryRepo.create n p u =
   (mkUsers (<[users_nextId_ u := mkUser (users_nextId_ u) n p Offline]> (usersById_ u))
      (<[n := users_nextId_ u]> (idByName_ u)) (i64 (users_nextId_ u + 1)),
    mkCreateUser true (users_nextId_ u) UserStorageFailure)).
Proof.
  intros Hu. unfold InMemoryRepo.create. destruct (negb _); [left; eexists; split; [done|done]|].
  destruct (idByName_ u !! n) as [i|] eqn:Hn; [left; eexists; split; [done|done]|].
  right. split; [done|]. unfold insert_new. rewrite Hn.
  assert (usersById_ u !! users_nextId_ u = None) as ->; [|done].
  apply eq_None_not_Some. intros Hs. apply (us_next _ Hu) in Hs. lia.
Qed.

(** An account with its name and password. *)
Definition account (u : InMemoryUserRepository) (i : Z) (n p : string) : Prop :=
  exists s, usersById_ u !! i = Some (mkUser i n p s).

Lemma users_step_inv u u' :
  users_inv u -> 1 <= users_nextId_ u < 2 ^ 63 - 1 -> users_step u u' ->
  users_inv u' /\ users_nextId_ u <= users_nextId_ u' <= users_nextId_ u + 1 /\
  forall i n p, account u i n p -> account u' i n p.
Proof.
  intros Hu Hn Hstep. destruct Hstep as [|i s|n p].
  - split; [done|]. split; [lia|done].
  - unfold InMemoryRepo.updateState. destruct (usersById_ u !! i) as [usr|] eqn:Hi; simpl;
      [|by split; [|split; [lia|]]].
    destruct Hu as [H1 H2 H3]. split; [split; simpl|split; [lia|]].
    + intros j usr'. rewrite lookup_insert_Some. intros [[<- <-]|[_ Hj]]; [exact (H1 _ _ Hi)|eauto].
    + intros n j Hj. destruct (H2 _ _ Hj) as (x & Hx & <-).
      destruct (decide (j = i)) as [->|Hne]; [|exists x; by rewrite lookup_insert_ne].
      simplify_eq. eexists. by rewrite lookup_insert_eq.
    + intros j [x Hx]. apply lookup_insert_Some in Hx as [[<- _]|[_ Hx]]; apply H3; by eexists.
    + intros j n p [st Hj]. unfold account. simpl. destruct (decide (j = i)) as [->|Hne].
      * simplify_eq. rewrite lookup_insert_eq. by exists s.
      * rewrite lookup_insert_ne by done. by exists st.
  - destruct (create_spec n p u Hu) as [(e & -> & _)|[Hfree ->]]; simpl;
      [by split; [|split; [lia|]]|].
    destruct Hu as [H1 H2 H3]. rewrite i64_small by (split; lia).
    split; [split; simpl|split; [lia|]].
    + intros j usr. rewrite lookup_insert_Some. intros [[<- <-]|[Hne Hj]]; simpl;
        [by rewrite lookup_insert_eq|].
      rewrite lookup_insert_ne; [eauto|]. intros ->. by rewrite (H1 _ _ Hj) in Hfree.
    + intros m j. rewrite lookup_insert_Some. intros [[<- <-]|[Hne Hj]].
      * eexists. by rewrite lookup_insert_eq.
      * destruct (H2 _ _ Hj) as (x & Hx & Hxn). exists x. rewrite lookup_insert_ne; [done|].
        intros <-. specialize (H3 _ (mk_is_Some _ _ Hx)). lia.
    + intros j [x Hx]. apply lookup_insert_Some in Hx as [[<- _]|[_ Hx]]; [lia|].
      specialize (H3 _ (mk_is_Some _ _ Hx)). lia.
    + intros j m q [st Hj]. exists st. simpl. rewrite lookup_insert_ne; [done|].
      intros <-. specialize (H3 _ (mk_is_Some _ _ Hj)). lia.
Qed.

Lemma runAppCalls_users calls (a : ChatApplication InMemoryRepositories) :
  users_inv (r_users (app_repos a)) -> 1 <= users_nextId_ (r_users (app_repos a)) ->
  users_nextId_ (r_users (app_repos a)) + Z.of_nat (length calls) < 2 ^ 63 - 1 ->
  let u' := r_users (app_repos (runAppCalls calls a)) in
  users_inv u' /\
  1 <= users_nextId_ u' <= users_nextId_ (r_users (app_repos a)) + Z.of_nat (length calls) /\
  forall i n p, account (r_users (app_repos a)) i n p -> account u' i n p.
Proof.
  revert a. induction calls as [|c cs IH]; intros a Hi H1 Hb; simpl length in *.
  { split; [done|]. split; [cbn; lia|done]. }
  destruct (users_step_inv _ _ Hi ltac:(lia) (runAppCall_users a c)) as (Hi' & Hn & Ha).
  destruct (IH (runAppCall a c) Hi' ltac:(lia) ltac:(lia)) as (Hi2 & Hn2 & Ha2).
  split; [done|]. split; [|auto]. change (runAppCalls (c :: cs) a) with (runAppCalls cs (runAppCall a c)).
  lia.
Qed.

Lemma users_inv_empty : users_inv (r_users (app_repos emptyApp)).
Proof.
  split; simpl; intros *; rewrite ?lookup_empty; [done|done|]. by intros [].
Qed.

(** A successful registration leaves the account; a taken name is refused. *)
Lemma register_account cmd reply (a a' : ChatApplication InMemoryRepositories) reply' :
  users_inv (r_users (app_repos a)) -> cmd_type cmd = CmdRegister ->
  App.handle cmd reply a = (a', reply') -> rp_errno reply' = 0 ->
  account (r_users (app_repos a')) (rp_userId reply') (cmd_name cmd) (cmd_password cmd).
Proof.
  intros Hi Ht. unfold App.handle, App.registerUser. rewrite Ht.
  destruct (negb _); [by intros [= <- <-]|]. unfold App.onRepos. simpl.
  destruct (create_spec (cmd_name cmd) (cmd_password cmd) _ Hi) as [(e & -> & _)|[_ ->]].
  - intros [= <- <-]. simpl. by destruct e.
  - intros [= <- <-] _. exists Offline. simpl. by rewrite lookup_insert_eq.
Qed.

Lemma register_taken cmd reply (a : ChatApplication InMemoryRepositories) :
  users_inv (r_users (app_repos a)) -> cmd_type cmd = CmdRegister ->
  is_Some (idByName_ (r_users (app_repos a)) !! cmd_name cmd) ->
  rp_errno (App.handle cmd reply a).2 = 1.
Proof.
  intros Hi Ht [i Hn]. unfold App.handle, App.registerUser. rewrite Ht.
  destruct (negb _); [done|]. unfold App.onRepos. simpl.
  destruct (create_spec (cmd_name cmd) (cmd_password cmd) _ Hi) as [(e & -> & _)|[Hf _]]; [|congruence].
  simpl. by destruct e.
Qed.

(** Registration round trip: after a registration answered success with an
    identity, then after any further calls, that identity authenticates with
    exactly the registered password and under the registered name, and the name
    cannot be registered again. *)
Theorem register_then_authenticate before after cmd reply a' reply' :
  Z.of_nat (length before) + Z.of_nat (length after) < 2 ^ 62 ->
  cmd_type cmd = CmdRegister ->
  App.handle cmd reply (runAppCalls before emptyApp) = (a', reply') -> rp_errno reply' = 0 ->
  let a2 := runAppCalls after a' in
  (forall pw, let res := (App.authenticate (rp_userId reply') pw a2).2 in
     au_ok res = String.eqb (cmd_password cmd) pw /\
     (au_ok res = true -> au_id res = rp_userId reply' /\ au_name res = cmd_name cmd)) /\
  (forall cmd2 reply2, cmd_type cmd2 = CmdRegister -> cmd_name cmd2 = cmd_name cmd ->
     rp_errno (App.handle cmd2 reply2 a2).2 = 1).
Proof.
  intros Hb Ht Hrun Hok a2.
  destruct (runAppCalls_users before emptyApp users_inv_empty ltac:(done) ltac:(simpl; lia))
    as (Hi & Hn & _).
  pose proof (handle_users cmd reply (runAppCalls before emptyApp)) as Hs. rewrite Hrun in Hs. simpl in Hs.
  destruct (users_step_inv _ _ Hi ltac:(simpl in *; lia) Hs) as (Hi' & Hn' & _).
  pose proof (register_account _ _ _ _ _ Hi Ht Hrun Hok) as Hacc.
  destruct (runAppCalls_users after a' Hi' ltac:(lia) ltac:(simpl in *; lia)) as (Hi2 & _ & Ha2).
  fold a2 in Hi2, Ha2. destruct (Ha2 _ _ _ Hacc) as [s Hs2]. split.
  - intros pw. unfold App.authenticate, App.onRepos. simpl. unfold InMemoryRepo.authenticate.
    rewrite Hs2. simpl. by destruct (String.eqb (cmd_password cmd) pw).
  - intros cmd2 reply2 Ht2 Hname. apply register_taken; [done|done|]. rewrite Hname.
    eexists. exact (us_name _ Hi2 _ _ Hs2).
Qed.

Definition emptyReply : Reply := mkReply CmdRegister 1 EmptyString 0 EmptyString.

(** An instance for the first account. *)
Lemma register_then_authenticate_witness :
  let cmd := mkCmd CmdRegister 0 "zhang" "secret" EmptyString in
  let a' := (App.handle cmd emptyReply emptyApp).1 in
  let a2 := runAppCalls [AppUpdateState 1 Online; AppBegin 1] a' in
  (au_ok (App.authenticate 1 "secret" a2).2 = true /\
   au_ok (App.authenticate 1 "guess" a2).2 = false) /\
  rp_errno (App.handle cmd emptyReply a2).2 = 1.
Proof.
  intros cmd a' a2.
  pose proof (register_then_authenticate [] [AppUpdateState 1 Online; AppBegin 1] cmd emptyReply
    a' (mkReply CmdRegister 0 EmptyString 1 EmptyString) ltac:(vm_compute; reflexivity) eq_refl
    ltac:(vm_compute; reflexivity) eq_refl) as [Hauth Hdup].
  split; [split; [exact (proj1 (Hauth "secret"))|exact (proj1 (Hauth "guess"))]|].
  exact (Hdup cmd emptyReply eq_refl eq_refl).
Defined.
