(* ===== verification/Bytes.v ===== *)
(** * Byte arithmetic

    Shifts, masks and disjunctions of bytes as sums: the facts the encoders and
    decoders of the wire formats share. *)

From S2P Require Import Prelude.

Open Scope Z_scope.

Lemma land_255 x : Z.land x 255 = x mod 256.
Proof. change 255 with (Z.ones 8). by rewrite Z.land_ones by lia. Qed.

Lemma lor_add a b n : 0 <= n -> 0 <= b < 2 ^ n -> Z.lor (a * 2 ^ n) b = a * 2 ^ n + b.
Proof.
  intros Hn Hb. assert (Z.land (a * 2 ^ n) b = 0) as Hl.
  { apply Z.bits_inj'. intros i Hi. rewrite Z.land_spec, Z.bits_0.
    destruct (Z.lt_ge_cases i n) as [Hlt|Hge].
    - by rewrite Z.mul_pow2_bits_low by lia.
    - destruct (decide (b = 0)) as [->|Hnz]; [by rewrite Z.bits_0, andb_false_r|].
      rewrite (Z.bits_above_log2 b); [by rewrite andb_false_r|lia|].
      assert (Z.log2 b < n) by (apply Z.log2_lt_pow2; lia). lia. }
  pose proof (Z.add_nocarry_lxor _ _ Hl) as Hx. rewrite Z.lxor_lor in Hx by done. lia.
Qed.

Lemma lor_shiftl a b n : 0 <= n -> 0 <= b < 2 ^ n -> Z.lor (Z.shiftl a n) b = a * 2 ^ n + b.
Proof. intros Hn Hb. rewrite Z.shiftl_mul_pow2 by done. by apply lor_add. Qed.

Lemma u8_range x : 0 <= u8 x < 256.
Proof. apply (wrapU_range 8). lia. Qed.

Lemma u8_small x : 0 <= x < 256 -> u8 x = x.
Proof. apply (wrapU_small 8). Qed.

Lemma u16_small x : 0 <= x < 65536 -> u16 x = x.
Proof. apply (wrapU_small 16). Qed.

Lemma u32_small x : 0 <= x < 2 ^ 32 -> u32 x = x.
Proof. apply (wrapU_small 32). Qed.

Lemma shiftr_div x n : 0 <= n -> Z.shiftr x n = x / 2 ^ n.
Proof. intros. by apply Z.shiftr_div_pow2. Qed.

Definition isByte (x : Z) : Prop := 0 <= x < 256.

(** Four bytes in big-endian order. *)
Lemma be32_bytes b0 b1 b2 b3 :
  isByte b0 -> isByte b1 -> isByte b2 -> isByte b3 ->
  Z.lor (Z.lor (Z.lor (u32 (Z.shiftl b0 24)) (u32 (Z.shiftl b1 16))) (u32 (Z.shiftl b2 8))) b3 =
  b0 * 2 ^ 24 + b1 * 2 ^ 16 + b2 * 2 ^ 8 + b3.
Proof.
  unfold isByte. intros H0 H1 H2 H3. rewrite !Z.shiftl_mul_pow2 by lia.
  rewrite !u32_small by lia. rewrite (lor_add b0 _ 24) by lia.
  replace (b0 * 2 ^ 24 + b1 * 2 ^ 16) with ((b0 * 2 ^ 8 + b1) * 2 ^ 16) by ring.
  rewrite (lor_add _ _ 16) by lia.
  replace ((b0 * 2 ^ 8 + b1) * 2 ^ 16 + b2 * 2 ^ 8) with
    ((b0 * 2 ^ 16 + b1 * 2 ^ 8 + b2) * 2 ^ 8) by ring.
  rewrite (lor_add _ _ 8) by lia. ring.
Qed.

Lemma be16_bytes b0 b1 : isByte b0 -> isByte b1 -> Z.lor (Z.shiftl b0 8) b1 = b0 * 2 ^ 8 + b1.
Proof. unfold isByte. intros H0 H1. by rewrite lor_shiftl by lia. Qed.

(** The bytes of a number, in big-endian order, and back. *)
Lemma be32_split v : 0 <= v < 2 ^ 32 ->
  (v / 2 ^ 24) mod 256 * 2 ^ 24 + (v / 2 ^ 16) mod 256 * 2 ^ 16 + (v / 2 ^ 8) mod 256 * 2 ^ 8
  + v mod 256 = v.
Proof. intros Hv. Z.to_euclidean_division_equations. lia. Qed.

Lemma be16_split v : 0 <= v < 2 ^ 16 -> (v / 2 ^ 8) mod 256 * 2 ^ 8 + v mod 256 = v.
Proof. intros Hv. Z.to_euclidean_division_equations. lia. Qed.

Lemma mod256_byte x : isByte (x mod 256).
Proof. apply Z.mod_pos_bound. lia. Qed.

#[export] Hint Resolve mod256_byte u8_range : core.
