(* ===== verification/Buffer.v ===== *)
(** * The connection buffer (mymuduo/Buffer.h, Buffer.cc)

    A vector of bytes with a read and a write index.  The component's contract
    is a byte queue: [readable] is the abstraction, and each operation is shown
    to act on it as the queue operation it stands for.  Sizes are [nat]: a
    vector never reaches 2^64 elements.  The code indexes the vector without
    bounds checks; the model keeps a flag [fault_] that is raised by every access
    the language leaves undefined, and a write outside the vector changes nothing
    of it. *)

From S2P Require Import Prelude.

Open Scope nat_scope.

Abbreviation byte := Z (only parsing).

Definition kCheapPrepend : nat := 8.
Definition kInitialSize : nat := 1024.

Record Buffer := mkBuffer {
  buffer_ : list byte;
  readIndex_ : nat;
  writeIndex_ : nat;
  fault_ : bool;   (** an access with undefined behaviour took place *)
}.

Definition newBuffer (initialSize : nat) : Buffer :=
  mkBuffer (replicate (kCheapPrepend + initialSize) 0%Z) kCheapPrepend kCheapPrepend false.

(** Write [data] over the bytes starting at [pos], as far as they exist; the access is
    defined when all of them do. *)
Definition overwrite (pos : nat) (data l : list byte) : list byte := list_inserts pos data l.

Definition withinVector (pos len : nat) (l : list byte) : bool := pos + len <=? length l.

(** [std::copy] within a vector is undefined when the target starts in the source range. *)
Definition copyDefined (first last target : nat) (l : list byte) : bool :=
  (first <=? last) && (last <=? length l) && withinVector target (last - first) l &&
  negb ((first <=? target) && (target <? last)).

Module Buf.

Definition readableBytes (b : Buffer) : nat := writeIndex_ b - readIndex_ b.
Definition writableBytes (b : Buffer) : nat := length (buffer_ b) - writeIndex_ b.
Definition prependableBytes (b : Buffer) : nat := readIndex_ b.

(** The bytes from [peek()] on, to the end of the vector. *)
Definition peek (b : Buffer) : list byte := drop (readIndex_ b) (buffer_ b).

Definition retrieveAll (b : Buffer) : Buffer :=
  mkBuffer (buffer_ b) kCheapPrepend kCheapPrepend (fault_ b).

Definition retrieve (len : nat) (b : Buffer) : Buffer :=
  if len <? readableBytes b then mkBuffer (buffer_ b) (readIndex_ b + len) (writeIndex_ b) (fault_ b)
  else retrieveAll b.

(** The constructor of the string reads [len] bytes from [peek()] on. *)
Definition retrieveAsString (len : nat) (b : Buffer) : Buffer * list byte :=
  let result := take len (peek b) in
  let fault := fault_ b || negb (withinVector (readIndex_ b) len (buffer_ b)) in
  (retrieve len (mkBuffer (buffer_ b) (readIndex_ b) (writeIndex_ b) fault), result).

Definition retrieveAllAsString (b : Buffer) : Buffer * list byte :=
  retrieveAsString (readableBytes b) b.

(** [vector::resize] to a larger size fills with zero. *)
Definition makeSpace (len : nat) (b : Buffer) : Buffer :=
  if writableBytes b + prependableBytes b <? len + kCheapPrepend then
    mkBuffer (take (writeIndex_ b + len) (buffer_ b)
              ++ replicate (writeIndex_ b + len - length (buffer_ b)) 0%Z)
      (readIndex_ b) (writeIndex_ b) (fault_ b)
  else
    let readable := readableBytes b in
    mkBuffer (overwrite kCheapPrepend (take readable (peek b)) (buffer_ b))
      kCheapPrepend (kCheapPrepend + readable)
      (fault_ b || negb (copyDefined (readIndex_ b) (writeIndex_ b) kCheapPrepend (buffer_ b))).

Definition ensureWritableBytes (len : nat) (b : Buffer) : Buffer :=
  if writableBytes b <? len then makeSpace len b else b.

Definition append (data : list byte) (b : Buffer) : Buffer :=
  let b := ensureWritableBytes (length data) b in
  mkBuffer (overwrite (writeIndex_ b) data (buffer_ b)) (readIndex_ b)
    (writeIndex_ b + length data)
    (fault_ b || negb (withinVector (writeIndex_ b) (length data) (buffer_ b))).

(** Size of the stack buffer of [readFd], and the bytes one [readv] may return. *)
Definition extrabufSize : nat := Z.to_nat 65536.

Definition readCapacity (b : Buffer) : nat :=
  if writableBytes b <? extrabufSize then writableBytes b + extrabufSize else writableBytes b.

(** [readFd] when [readv] returned [data]: the vector's free space is filled
    first, the rest comes through the stack buffer.  [None]: an error.  More bytes
    than the two pieces hold would be read from outside of them. *)
Definition readFd (data : option (list byte)) (b : Buffer) : Buffer * Z :=
  match data with
  | None => (b, (-1)%Z)
  | Some data =>
      let writable := writableBytes b in
      let n := length data in
      let b1 := mkBuffer (overwrite (writeIndex_ b) (take writable data) (buffer_ b))
                  (readIndex_ b) (writeIndex_ b)
                  (fault_ b || negb (n <=? readCapacity b)) in
      (if n <=? writable then mkBuffer (buffer_ b1) (readIndex_ b1) (writeIndex_ b1 + n) (fault_ b1)
       else append (drop writable data)
              (mkBuffer (buffer_ b1) (readIndex_ b1) (length (buffer_ b1)) (fault_ b1)),
       Z.of_nat n)
  end.

(** What [writeFd] offers to [write]. *)
Definition writeFdOffer (b : Buffer) : list byte := take (readableBytes b) (peek b).
End Buf.

(** ** Contract *)

(** The queue a buffer stands for. *)
Definition readable (b : Buffer) : list byte := take (Buf.readableBytes b) (Buf.peek b).

Record buffer_ok (b : Buffer) : Prop := {
  bo_prepend : kCheapPrepend <= readIndex_ b;
  bo_order : readIndex_ b <= writeIndex_ b;
  bo_size : writeIndex_ b <= length (buffer_ b);
  bo_defined : fault_ b = false;
}.

Lemma length_readable b : buffer_ok b -> length (readable b) = Buf.readableBytes b.
Proof.
  intros []. unfold readable, Buf.peek, Buf.readableBytes. rewrite length_take, length_drop. lia.
Qed.

Lemma newBuffer_ok n : buffer_ok (newBuffer n) /\ readable (newBuffer n) = [].
Proof.
  split; [split; simpl; rewrite ?length_replicate; unfold kCheapPrepend; done || lia|].
  apply nil_length_inv. rewrite length_readable; [|split; simpl; rewrite ?length_replicate; unfold kCheapPrepend; done || lia].
  unfold Buf.readableBytes. simpl. lia.
Qed.

Lemma length_overwrite pos data l : length (overwrite pos data l) = length l.
Proof. apply length_inserts. Qed.

Lemma overwrite_within pos data l :
  pos + length data <= length l ->
  overwrite pos data l = take pos l ++ data ++ drop (pos + length data) l.
Proof.
  unfold overwrite. revert pos. induction data as [|x data IH]; intros pos Hl; simpl in *.
  - rewrite Nat.add_0_r. by rewrite take_drop.
  - rewrite IH by lia. rewrite insert_take_drop; [|rewrite !length_app, length_take, length_drop; lia].
    rewrite take_app_le by (rewrite length_take; lia). rewrite take_take. replace (pos `min` S pos) with pos by lia.
    f_equal. f_equal. rewrite drop_app_ge by (rewrite length_take; lia). rewrite length_take.
    replace (S pos - S pos `min` length l) with 0 by lia. rewrite drop_0. by replace (pos + S (length data)) with (S pos + length data) by lia.
Qed.

Lemma withinVector_true pos len l : pos + len <= length l -> withinVector pos len l = true.
Proof. intros H. by apply Nat.leb_le. Qed.

Lemma copyDefined_true first last target l :
  target < first -> first <= last -> last <= length l -> copyDefined first last target l = true.
Proof.
  intros H1 H2 H3. unfold copyDefined. rewrite withinVector_true by lia.
  repeat rewrite (proj2 (Nat.leb_le _ _)) by lia. by rewrite (proj2 (Nat.leb_gt first target)) by lia.
Qed.

(** The window [[r, w)] of a vector. *)
Lemma window_overwrite r w data l :
  r <= w -> w + length data <= length l ->
  take (w + length data - r) (drop r (overwrite w data l)) = take (w - r) (drop r l) ++ data.
Proof.
  intros Hr Hw. rewrite overwrite_within by done.
  rewrite drop_app_le by (rewrite length_take; lia).
  rewrite take_app_ge by (rewrite length_drop, length_take; lia).
  rewrite length_drop, length_take. replace (w `min` length l) with w by lia.
  f_equal.
  - rewrite skipn_firstn_comm. done.
  - rewrite take_app_le by lia. rewrite take_ge; [done|lia].
Qed.

Lemma retrieve_ok len b :
  buffer_ok b -> buffer_ok (Buf.retrieve len b) /\ readable (Buf.retrieve len b) = drop len (readable b).
Proof.
  intros Hb. pose proof (length_readable b Hb) as Hl. destruct Hb as [H1 H2 H3 Hf].
  unfold Buf.retrieve. destruct (Nat.ltb_spec len (Buf.readableBytes b)) as [Hlt|Hge].
  - unfold Buf.readableBytes in *. split; [split; simpl; done || lia|].
    unfold readable, Buf.peek, Buf.readableBytes. simpl.
    rewrite skipn_firstn_comm, drop_drop. f_equal. lia.
  - split; [split; simpl; unfold kCheapPrepend in *; done || lia|].
    rewrite drop_ge by lia. unfold readable, Buf.readableBytes. simpl. done.
Qed.

Lemma makeSpace_ok len b :
  buffer_ok b -> Buf.writableBytes b < len ->
  buffer_ok (Buf.makeSpace len b) /\ readable (Buf.makeSpace len b) = readable b /\
  len <= Buf.writableBytes (Buf.makeSpace len b).
Proof.
  intros Hb Hlen. pose proof (length_readable b Hb) as Hl. destruct Hb as [H1 H2 H3 Hf].
  unfold Buf.makeSpace, Buf.writableBytes, Buf.prependableBytes in *.
  destruct (Nat.ltb_spec (length (buffer_ b) - writeIndex_ b + readIndex_ b) (len + kCheapPrepend)).
  - split; [split; simpl; [done|done|rewrite length_app, length_take, length_replicate; lia|done]|].
    split; simpl; [|rewrite length_app, length_take, length_replicate; lia].
    unfold readable, Buf.peek, Buf.readableBytes. simpl.
    rewrite (take_ge (buffer_ b)) by lia. rewrite drop_app_le by lia.
    rewrite take_app_le; [done|]. rewrite length_drop. lia.
  - fold (readable b). set (data := readable b) in *. unfold Buf.readableBytes in *.
    assert (length (overwrite kCheapPrepend data (buffer_ b)) = length (buffer_ b)) as Hlo
      by apply length_overwrite.
    split; [split; cbn [buffer_ readIndex_ writeIndex_ fault_]; rewrite ?Hlo; unfold kCheapPrepend in *; [lia..|]|].
    { rewrite Hf, copyDefined_true; [done|unfold kCheapPrepend; lia..]. }
    split; cbn [buffer_ readIndex_ writeIndex_]; [|rewrite Hlo; unfold kCheapPrepend in *; lia].
    unfold readable, Buf.peek, Buf.readableBytes. cbn [buffer_ readIndex_ writeIndex_].
    rewrite <- Hl, window_overwrite by (unfold kCheapPrepend in *; lia).
    rewrite Nat.sub_diag, take_0. done.
Qed.

Lemma write_ok data b :
  buffer_ok b -> length data <= Buf.writableBytes b ->
  let b' f := mkBuffer (overwrite (writeIndex_ b) data (buffer_ b)) (readIndex_ b)
                (writeIndex_ b + length data) f in
  withinVector (writeIndex_ b) (length data) (buffer_ b) = true /\ buffer_ok (b' false) /\
  forall f, readable (b' f) = readable b ++ data.
Proof.
  intros [H1 H2 H3 Hf] Hd. unfold Buf.writableBytes in Hd. split; [by apply withinVector_true; lia|]. split.
  - split; simpl; [done|lia|rewrite length_overwrite by lia; lia|done].
  - intros f. unfold readable, Buf.peek, Buf.readableBytes. simpl. rewrite window_overwrite by lia. done.
Qed.

Lemma append_ok data b :
  buffer_ok b -> buffer_ok (Buf.append data b) /\ readable (Buf.append data b) = readable b ++ data.
Proof.
  intros Hb. unfold Buf.append, Buf.ensureWritableBytes.
  assert (forall b1, buffer_ok b1 -> length data <= Buf.writableBytes b1 ->
    let b2 := mkBuffer (overwrite (writeIndex_ b1) data (buffer_ b1)) (readIndex_ b1)
                (writeIndex_ b1 + length data)
                (fault_ b1 || negb (withinVector (writeIndex_ b1) (length data) (buffer_ b1))) in
    buffer_ok b2 /\ readable b2 = readable b1 ++ data) as Hwrite.
  { intros b1 Hb1 Hw. destruct (write_ok data b1 Hb1 Hw) as (Hin & Hok & Hr).
    rewrite Hin, (bo_defined _ Hb1). split; [exact Hok|apply Hr]. }
  destruct (Nat.ltb_spec (Buf.writableBytes b) (length data)).
  - destruct (makeSpace_ok (length data) b Hb ltac:(done)) as (Hb' & <- & Hw). by apply Hwrite.
  - by apply Hwrite.
Qed.

Lemma readCapacity_ge b : Z.to_nat 65536 <= Buf.readCapacity b.
Proof.
  unfold Buf.readCapacity. change (Z.to_nat 65536) with Buf.extrabufSize.
  case Nat.ltb_spec; lia.
Qed.

Lemma readFd_ok data b :
  buffer_ok b -> length data <= Buf.readCapacity b ->
  buffer_ok (Buf.readFd (Some data) b).1 /\
  readable (Buf.readFd (Some data) b).1 = readable b ++ data.
Proof.
  intros Hb Hcap. unfold Buf.readFd. cbn [fst buffer_ readIndex_ writeIndex_ fault_].
  rewrite (bo_defined _ Hb), (proj2 (Nat.leb_le _ _) Hcap). cbn [orb negb].
  set (n := Buf.writableBytes b).
  destruct (write_ok (take n data) b Hb ltac:(rewrite length_take; unfold n; lia)) as (_ & Hb1 & Hr1).
  specialize (Hr1 false). destruct (Nat.leb_spec (length data) n) as [Hle|Hgt].
  - rewrite (take_ge data) in * by lia. by split.
  - rewrite length_take in Hb1, Hr1. replace (n `min` length data) with n in * by lia.
    assert (writeIndex_ b + n = length (overwrite (writeIndex_ b) (take n data) (buffer_ b))) as Hw.
    { destruct Hb. rewrite length_overwrite; unfold n, Buf.writableBytes; lia. }
    rewrite Hw in Hb1, Hr1. destruct (append_ok (drop n data) _ Hb1) as [Hb2 Hr2].
    split; [exact Hb2|]. rewrite Hr2, Hr1, <- app_assoc. by rewrite take_drop.
Qed.

Lemma retrieveAsString_ok len b :
  buffer_ok b -> len <= Buf.readableBytes b ->
  (Buf.retrieveAsString len b).1 = Buf.retrieve len b /\
  (Buf.retrieveAsString len b).2 = take len (readable b).
Proof.
  intros Hb Hlen. unfold Buf.retrieveAsString. cbn [fst snd]. split.
  - rewrite withinVector_true by (destruct Hb; unfold Buf.readableBytes in *; lia).
    cbn [negb]. rewrite orb_false_r. by destruct b.
  - unfold readable. rewrite take_take. f_equal. lia.
Qed.

(** ** Executions *)

Inductive BufferOp :=
| OpAppend (data : list byte)
| OpRetrieve (len : nat)
| OpRetrieveAll
| OpRetrieveAsString (len : nat)
| OpRetrieveAllAsString
| OpReadFd (data : option (list byte)).

Definition runBufferOp (b : Buffer) (op : BufferOp) : Buffer :=
  match op with
  | OpAppend data => Buf.append data b
  | OpRetrieve len => Buf.retrieve len b
  | OpRetrieveAll => Buf.retrieveAll b
  | OpRetrieveAsString len => (Buf.retrieveAsString len b).1
  | OpRetrieveAllAsString => (Buf.retrieveAllAsString b).1
  | OpReadFd data => (Buf.readFd data b).1
  end.

(** The queue operation each one stands for. *)
Definition queueOp (q : list byte) (op : BufferOp) : list byte :=
  match op with
  | OpAppend data => q ++ data
  | OpRetrieve len => drop len q
  | OpRetrieveAll => []
  | OpRetrieveAsString len => drop len q
  | OpRetrieveAllAsString => []
  | OpReadFd (Some data) => q ++ data
  | OpReadFd None => q
  end.

(** A string of a given length is taken only when so many bytes are there, and the
    kernel returns no more bytes than the vectors it was given hold. *)
Definition op_allowed (b : Buffer) (op : BufferOp) : Prop :=
  match op with
  | OpRetrieveAsString len => len <= Buf.readableBytes b
  | OpReadFd (Some data) => length data <= Buf.readCapacity b
  | _ => True
  end.

Lemma runBufferOp_ok b op :
  buffer_ok b -> op_allowed b op ->
  buffer_ok (runBufferOp b op) /\ readable (runBufferOp b op) = queueOp (readable b) op.
Proof.
  intros Hb Ha. pose proof (length_readable b Hb) as Hl.
  destruct op as [data|len| |len| |[data|]]; cbn [runBufferOp queueOp op_allowed] in *.
  - by apply append_ok.
  - by apply retrieve_ok.
  - pose proof (retrieve_ok (Buf.readableBytes b) b Hb) as Hr. unfold Buf.retrieve in Hr.
    rewrite Nat.ltb_irrefl in Hr. destruct Hr as [H1 H2]. split; [done|]. rewrite H2.
    apply drop_ge. by rewrite Hl.
  - destruct (retrieveAsString_ok len b Hb Ha) as [-> _]. by apply retrieve_ok.
  - destruct (retrieveAsString_ok (Buf.readableBytes b) b Hb ltac:(done)) as [E _].
    unfold Buf.retrieveAllAsString. rewrite E. destruct (retrieve_ok (Buf.readableBytes b) b Hb) as [H1 ->].
    split; [done|]. apply drop_ge. by rewrite Hl.
  - by apply readFd_ok.
  - done.
Qed.

Fixpoint ops_allowed (b : Buffer) (ops : list BufferOp) : Prop :=
  match ops with
  | [] => True
  | op :: rest => op_allowed b op /\ ops_allowed (runBufferOp b op) rest
  end.

(** C39: The buffer implements a byte queue: after any operations on a fresh
    buffer of any initial size, the readable bytes are those of the queue, the
    indices stay within the vector, no operation accessed the vector where the
    language leaves it undefined (no read or write out of bounds, no copy onto its
    own source), and a string taken from the front is the front of the queue.
    Assumed of the callers: a string is taken of bytes that are readable, and the
    kernel fills no more than the space [readv] was given. *)
Theorem buffer_refines_queue size ops :
  ops_allowed (newBuffer size) ops ->
  let b := foldl runBufferOp (newBuffer size) ops in
  let q := foldl queueOp [] ops in
  readable b = q /\ buffer_ok b /\ fault_ b = false /\
  (forall n, n <= length q -> (Buf.retrieveAsString n b).2 = take n q) /\
  (Buf.retrieveAllAsString b).2 = q.
Proof.
  intros Hall. cbv zeta.
  enough (forall ops b q, buffer_ok b -> readable b = q -> ops_allowed b ops ->
    readable (foldl runBufferOp b ops) = foldl queueOp q ops /\ buffer_ok (foldl runBufferOp b ops))
    as Hgen.
  { destruct (newBuffer_ok size) as [H0 H1].
    destruct (Hgen ops _ _ H0 H1 Hall) as [Hr Hok]. rewrite <- Hr.
    split; [done|]. split; [done|]. split; [apply Hok|].
    split; [intros n Hn; rewrite length_readable in Hn by done; by apply retrieveAsString_ok|].
    unfold Buf.retrieveAllAsString. rewrite (proj2 (retrieveAsString_ok _ _ Hok ltac:(done))).
    apply take_ge. by rewrite length_readable. }
  clear. induction ops as [|op ops IH]; intros b q Hb Hq Hall; [done|].
  destruct Hall as [Ha Hall]. destruct (runBufferOp_ok b op Hb Ha) as [Hb' Hq'].
  apply IH; [done| |done]. by rewrite Hq', Hq.
Qed.

(** An instance on a small buffer that moves its content, grows, and reads through the
    stack buffer. *)
Lemma buffer_refines_queue_witness :
  let ops := [OpAppend [1; 2; 3]%Z; OpRetrieve 2; OpAppend [4; 5]%Z; OpReadFd (Some [6; 7; 8]%Z);
              OpReadFd None; OpRetrieveAsString 1] in
  fault_ (foldl runBufferOp (newBuffer 4) ops) = false /\
  readable (foldl runBufferOp (newBuffer 4) ops) = [4; 5; 6; 7; 8]%Z.
Proof.
  intros ops. edestruct (buffer_refines_queue 4 ops) as (Hr & _ & Hf & _); [|split; [exact Hf|exact Hr]].
  repeat split; [eapply Nat.le_trans; [|apply readCapacity_ge]; simpl length; lia|vm_compute; lia].
Defined.

(** Taking more than is there reads outside of the vector. *)
Example overlong_string_faults : fault_ (Buf.retrieveAsString 5 (newBuffer 4)).1 = true.
Proof. reflexivity. Qed.
