(* ===== verification/Codec.v ===== *)
(** * Frame and line codecs
    (mymuduo/StreamCodec.cc, BinaryFrameCodec.cc, LegacyJsonLineCodec.cc, and the
    receive loop of chatserver/src/ChatServer.cpp)

    A byte is a [Z] in [0, 256).  The codecs read a [Buffer]; they are shown to
    depend only on its readable bytes, and encoding followed by any
    fragmentation of the stream and the receive loop gives the messages back. *)

From S2P Require Import Prelude Bytes Buffer.

Open Scope Z_scope.

(** ** StreamCodec *)

Inductive DecodeResult := NeedMore | FrameReady | UnsupportedVersion | DecodeProtocolError.

#[export] Instance DecodeResult_eq_dec : EqDecision DecodeResult.
Proof. solve_decision. Defined.

Inductive EncodeResult := EncOk | TooLarge | InvalidFrame.

Record Frame := mkFrame {
  fr_magic : Z; fr_version : Z; fr_flags : Z; fr_headerLength : Z; fr_bodyLength : Z;
  fr_messageType : Z; fr_contentType : Z; fr_reserved : Z; fr_requestId : Z;
  fr_body : list byte;
}.

Definition emptyFrame : Frame := mkFrame 0 0 0 0 0 0 0 0 0 [].

(** [p[i]] *)
Definition at_ (p : list byte) (i : nat) : Z := u8 (nth i p 0).

Definition readBe16 (p : list byte) (i : nat) : Z :=
  u16 (Z.lor (Z.shiftl (at_ p i) 8) (at_ p (i + 1))).

Definition readBe32 (p : list byte) (i : nat) : Z :=
  Z.lor (Z.lor (Z.lor (u32 (Z.shiftl (at_ p i) 24)) (u32 (Z.shiftl (at_ p (i + 1)) 16)))
           (u32 (Z.shiftl (at_ p (i + 2)) 8))) (at_ p (i + 3)).

Definition writeBe16 (v : Z) : list byte := [Z.land (Z.shiftr v 8) 255; Z.land v 255].

Definition writeBe32 (v : Z) : list byte :=
  [Z.land (Z.shiftr v 24) 255; Z.land (Z.shiftr v 16) 255; Z.land (Z.shiftr v 8) 255;
   Z.land v 255].

Definition kMagic : Z := 0x4D434854.
Definition kVersion : Z := 2.
Definition kHeaderLength : Z := 20.
Definition kDefaultMaxBodyLength : Z := 1024 * 1024.
Definition kHardMaxBodyLength : Z := 16 * 1024 * 1024.
Definition kContentTypeJson : Z := 1.

(** The constructor's bound. *)
Definition clampBody (maxBodyLength : Z) : Z :=
  if maxBodyLength <? kHardMaxBodyLength then maxBodyLength else kHardMaxBodyLength.

Module Stream.

Definition decode (maxBodyLength_ : Z) (input : Buffer) (frame : Frame)
  : Buffer * Frame * DecodeResult :=
  if Z.of_nat (Buf.readableBytes input) <? kHeaderLength then (input, frame, NeedMore)
  else
    let p := Buf.peek input in
    let magic := readBe32 p 0 in
    let version := at_ p 4 in
    let flags := at_ p 5 in
    let headerLength := readBe16 p 6 in
    let bodyLength := readBe32 p 8 in
    let messageType := readBe16 p 12 in
    let contentType := at_ p 14 in
    let reserved := at_ p 15 in
    let requestId := readBe32 p 16 in
    if negb (magic =? kMagic) then (input, frame, DecodeProtocolError)
    else if negb (version =? kVersion) then (input, frame, UnsupportedVersion)
    else if negb (headerLength =? kHeaderLength) then (input, frame, DecodeProtocolError)
    else if negb (flags =? 0) then (input, frame, DecodeProtocolError)
    else if negb (reserved =? 0) then (input, frame, DecodeProtocolError)
    else if maxBodyLength_ <? bodyLength then (input, frame, DecodeProtocolError)
    else if negb (contentType =? kContentTypeJson) then (input, frame, DecodeProtocolError)
    else if Z.of_nat (Buf.readableBytes input) <? u32 (kHeaderLength + bodyLength)
    then (input, frame, NeedMore)
    else
      (Buf.retrieve (Z.to_nat (u32 (kHeaderLength + bodyLength))) input,
       mkFrame magic version flags headerLength bodyLength messageType contentType reserved
         requestId (take (Z.to_nat bodyLength) (drop 20 p)),
       FrameReady).

Definition headerBytes (frame : Frame) : list byte :=
  writeBe32 (fr_magic frame) ++ [u8 (fr_version frame); u8 (fr_flags frame)]
  ++ writeBe16 (fr_headerLength frame) ++ writeBe32 (fr_bodyLength frame)
  ++ writeBe16 (fr_messageType frame) ++ [u8 (fr_contentType frame); u8 (fr_reserved frame)]
  ++ writeBe32 (fr_requestId frame).

Definition encode (maxBodyLength_ : Z) (frame : Frame) (output : Buffer) : Buffer * EncodeResult :=
  if negb (fr_magic frame =? kMagic) || negb (fr_version frame =? kVersion)
     || negb (fr_headerLength frame =? kHeaderLength) || negb (fr_flags frame =? 0)
     || negb (fr_reserved frame =? 0) || negb (fr_contentType frame =? kContentTypeJson)
  then (output, InvalidFrame)
  else if negb (fr_bodyLength frame =? Z.of_nat (length (fr_body frame)))
  then (output, InvalidFrame)
  else if maxBodyLength_ <? Z.of_nat (length (fr_body frame)) then (output, TooLarge)
  else
    let output := Buf.append (headerBytes frame) output in
    (match fr_body frame with [] => output | _ => Buf.append (fr_body frame) output end, EncOk).
End Stream.

(** ** BinaryFrameCodec *)

Inductive CodecResult := CodecMessage | CodecNeedMore | CodecProtocolError.

Module Binary.

Definition decode (maxBodyLength_ : Z) (input : Buffer) (message : list byte)
  : Buffer * list byte * CodecResult :=
  match Stream.decode maxBodyLength_ input emptyFrame with
  | (input', frame, FrameReady) => (input', fr_body frame, CodecMessage)
  | (input', _, NeedMore) => (input', message, CodecNeedMore)
  | (input', _, _) => (input', message, CodecProtocolError)
  end.

Definition frameOf (message : list byte) : Frame :=
  mkFrame kMagic kVersion 0 kHeaderLength (u32 (Z.of_nat (length message))) 1 kContentTypeJson
    0 0 message.

Definition encode (maxBodyLength_ : Z) (message : list byte) (output : Buffer)
  : Buffer * EncodeResult :=
  if maxBodyLength_ <? Z.of_nat (length message) then (output, TooLarge)
  else Stream.encode maxBodyLength_ (frameOf message) output.

Definition encodedSize (maxBodyLength_ payloadBytes : Z) : Z :=
  if maxBodyLength_ <? payloadBytes then u64 (-1) else u64 (kHeaderLength + payloadBytes).
End Binary.

(** ** LegacyJsonLineCodec *)

Module Line.

Definition newline : Z := 10.
Definition carriageReturn : Z := 13.

(** [memchr(data, '\n', len)]: the offset of the first newline. *)
Fixpoint memchrNl (l : list byte) : option nat :=
  match l with
  | [] => None
  | c :: rest => if c =? newline then Some O
                 else match memchrNl rest with Some n => Some (S n) | None => None end
  end.

(** Drop a trailing carriage return. *)
Definition popCr (line : list byte) : list byte :=
  match last line with
  | Some c => if c =? carriageReturn then removelast line else line
  | None => line
  end.

(** The loop skips empty lines; it ends because each turn retrieves a byte. *)
Fixpoint decodeLoop (fuel : nat) (input : Buffer) (message : list byte)
  : Buffer * list byte * bool :=
  match fuel with
  | O => (input, message, false)
  | S fuel' =>
      let len := Buf.readableBytes input in
      if Nat.eqb len 0 then (input, message, false)
      else
        match memchrNl (take len (Buf.peek input)) with
        | None => (input, message, false)
        | Some lineLen =>
            let line := popCr (take lineLen (Buf.peek input)) in
            let input' := Buf.retrieve (lineLen + 1) input in
            match line with
            | [] => decodeLoop fuel' input' message
            | _ => (input', line, true)
            end
        end
  end.

Definition decode (input : Buffer) (message : list byte) : Buffer * list byte * bool :=
  decodeLoop (S (Buf.readableBytes input)) input message.

Definition encode (message : list byte) (output : Buffer) : Buffer * EncodeResult :=
  (Buf.append [newline] (Buf.append message output), EncOk).

Definition encodedSize (payloadBytes : Z) : Z := u64 (payloadBytes + 1).
End Line.

(** ** The receive loop (ChatServer::onMessage) *)

(** The messages handed to [ChatService::handler] in order, and whether the
    connection was force-closed.  Each turn consumes at least a header or a
    line, so the readable bytes bound the turns. *)
Fixpoint frameLoop (maxBody : Z) (fuel : nat) (buffer : Buffer) (message : list byte)
  : Buffer * list (list byte) * bool :=
  match fuel with
  | O => (buffer, [], false)
  | S fuel' =>
      match Binary.decode maxBody buffer message with
      | (buffer', message', CodecMessage) =>
          let '(b, ms, closed) := frameLoop maxBody fuel' buffer' message' in
          (b, message' :: ms, closed)
      | (buffer', _, CodecProtocolError) => (buffer', [], true)
      | (buffer', _, CodecNeedMore) => (buffer', [], false)
      end
  end.

Fixpoint lineLoop (fuel : nat) (buffer : Buffer) (message : list byte)
  : Buffer * list (list byte) :=
  match fuel with
  | O => (buffer, [])
  | S fuel' =>
      match Line.decode buffer message with
      | (buffer', message', true) =>
          let '(b, ms) := lineLoop fuel' buffer' message' in (b, message' :: ms)
      | (buffer', _, false) => (buffer', [])
      end
  end.

Inductive WireCodec := BinaryFrame | JsonLine.

Definition onMessage (codec : WireCodec) (maxBody : Z) (buffer : Buffer)
  : Buffer * list (list byte) * bool :=
  let fuel := S (Buf.readableBytes buffer) in
  match codec with
  | BinaryFrame => frameLoop maxBody fuel buffer []
  | JsonLine => let '(b, ms) := lineLoop fuel buffer [] in (b, ms, false)
  end.

(** ** Header round trip *)

Lemma readBe32_write v p i :
  0 <= v < 2 ^ 32 -> take 4 (drop i p) = writeBe32 v -> readBe32 p i = v.
Proof.
  intros Hv Hp. unfold readBe32, at_.
  assert (forall j, (j < 4)%nat -> nth (i + j) p 0 = nth j (writeBe32 v) 0) as Hn.
  { intros j Hj. rewrite !nth_lookup, <- Hp, lookup_take_lt, lookup_drop by done. done. }
  replace i with (i + 0)%nat at 1 by lia. rewrite !Hn by lia. cbn [nth writeBe32].
  rewrite !land_255, !shiftr_div, !u8_small by (done || apply mod256_byte).
  rewrite be32_bytes by apply mod256_byte. by apply be32_split.
Qed.

Lemma readBe16_write v p i :
  0 <= v < 2 ^ 16 -> take 2 (drop i p) = writeBe16 v -> readBe16 p i = v.
Proof.
  intros Hv Hp. unfold readBe16, at_.
  assert (forall j, (j < 2)%nat -> nth (i + j) p 0 = nth j (writeBe16 v) 0) as Hn.
  { intros j Hj. rewrite !nth_lookup, <- Hp, lookup_take_lt, lookup_drop by done. done. }
  replace i with (i + 0)%nat at 1 by lia. rewrite !Hn by lia. cbn [nth writeBe16].
  rewrite !land_255, !shiftr_div, !u8_small by (done || apply mod256_byte).
  rewrite be16_bytes by apply mod256_byte. rewrite be16_split by lia. by apply u16_small.
Qed.

(** The frames [encode] accepts; the integer fields fit their types. *)
Record frame_ok (max : Z) (f : Frame) : Prop := {
  fo_magic : fr_magic f = kMagic;
  fo_version : fr_version f = kVersion;
  fo_flags : fr_flags f = 0;
  fo_header : fr_headerLength f = kHeaderLength;
  fo_reserved : fr_reserved f = 0;
  fo_content : fr_contentType f = kContentTypeJson;
  fo_body : fr_bodyLength f = Z.of_nat (length (fr_body f));
  fo_max : fr_bodyLength f <= max;
  fo_type : 0 <= fr_messageType f < 2 ^ 16;
  fo_request : 0 <= fr_requestId f < 2 ^ 32;
}.

Definition frameBytes (f : Frame) : list byte := Stream.headerBytes f ++ fr_body f.

Lemma length_headerBytes f : length (Stream.headerBytes f) = 20%nat.
Proof. done. Qed.

Lemma peek_readable b : Buf.peek b = readable b ++ drop (Buf.readableBytes b) (Buf.peek b).
Proof. unfold readable. by rewrite take_drop. Qed.

(** The fields [decode] reads when a valid header is readable. *)
Lemma header_fields max f y :
  frame_ok max f -> 0 <= max < 2 ^ 31 ->
  let p := Stream.headerBytes f ++ y in
  readBe32 p 0 = fr_magic f /\ at_ p 4 = fr_version f /\ at_ p 5 = fr_flags f /\
  readBe16 p 6 = fr_headerLength f /\ readBe32 p 8 = fr_bodyLength f /\
  readBe16 p 12 = fr_messageType f /\ at_ p 14 = fr_contentType f /\
  at_ p 15 = fr_reserved f /\ readBe32 p 16 = fr_requestId f.
Proof.
  intros [Hm Hv Hf Hh Hr Hc Hb Hmax Ht Hq] Hmx p. pose proof (Zle_0_nat (length (fr_body f))).
  unfold kMagic, kHeaderLength, kVersion, kContentTypeJson in *.
  assert (forall v, 0 <= v < 256 -> u8 (u8 v) = v) as Hu by (intros v Hv0; by rewrite !u8_small by (rewrite ?u8_small; done)).
  split; [apply readBe32_write; [lia|reflexivity]|].
  split; [unfold at_; cbn -[u8]; apply Hu; lia|].
  split; [unfold at_; cbn -[u8]; apply Hu; lia|].
  split; [apply readBe16_write; [lia|reflexivity]|].
  split; [apply readBe32_write; [lia|reflexivity]|].
  split; [apply readBe16_write; [lia|reflexivity]|].
  split; [unfold at_; cbn -[u8]; apply Hu; lia|].
  split; [unfold at_; cbn -[u8]; apply Hu; lia|].
  apply readBe32_write; [lia|reflexivity].
Qed.

(** [decode] on a buffer that starts with a valid header: it waits for the rest
    of the body, then takes exactly one frame. *)
Lemma decode_header max f b x fr0 :
  frame_ok max f -> 0 <= max < 2 ^ 31 -> buffer_ok b -> readable b = Stream.headerBytes f ++ x ->
  (length x < length (fr_body f))%nat /\ Stream.decode max b fr0 = (b, fr0, NeedMore) \/
  (length (fr_body f) <= length x)%nat /\
  exists b' f', Stream.decode max b fr0 = (b', f', FrameReady) /\
    buffer_ok b' /\ readable b' = drop (length (fr_body f)) x /\
    fr_body f' = take (length (fr_body f)) x.
Proof.
  intros Hf Hmax Hb Hr. pose proof (length_readable b Hb) as Hlen.
  rewrite Hr, length_app, length_headerBytes in Hlen.
  unfold Stream.decode. rewrite (proj2 (Z.ltb_ge _ _)) by (unfold kHeaderLength; lia).
  pose proof (peek_readable b) as Hp. rewrite Hr, <- app_assoc in Hp.
  set (y := drop _ (Buf.peek b)) in Hp. rewrite Hp.
  destruct (header_fields max f (x ++ y) Hf Hmax) as (-> & -> & -> & -> & -> & -> & -> & -> & ->).
  destruct Hf as [-> -> -> -> -> -> Hbody Hle _ _]. rewrite !Z.eqb_refl. cbn [negb].
  rewrite (proj2 (Z.ltb_ge max _)) by done.
  rewrite u32_small, Hbody by (unfold kHeaderLength; lia). unfold kHeaderLength.
  destruct (Z.ltb_spec (Z.of_nat (Buf.readableBytes b)) (20 + Z.of_nat (length (fr_body f)))).
  - left. split; [lia|done].
  - right. split; [lia|]. eexists _, _. split; [done|].
    replace (Z.to_nat (20 + Z.of_nat (length (fr_body f)))) with (20 + length (fr_body f))%nat by lia.
    destruct (retrieve_ok (20 + length (fr_body f)) b Hb) as [Hb' Hr'].
    split; [done|]. split.
    + by rewrite Hr', Hr, <- drop_drop.
    + cbn [fr_body]. rewrite Nat2Z.id. change (drop 20 (Stream.headerBytes f ++ x ++ y)) with (x ++ y).
      apply take_app_le. lia.
Qed.

(** ** Framing

    What a receive loop needs of a codec: from the front of the readable bytes
    it takes one whole message or waits, however the stream was cut. *)

Inductive Step := Got (message : list byte) (b : Buffer) | Wait (b : Buffer) | Bad (b : Buffer).

Class Framing (step : Buffer -> Step) (wire : list byte -> list byte) (valid : list byte -> Prop) := {
  framing_nonempty m : (0 < length (wire m))%nat;
  framing_idle b : buffer_ok b -> readable b = [] -> step b = Wait b;
  framing_step b m tail rest :
    buffer_ok b -> valid m -> readable b ++ rest = wire m ++ tail ->
    (step b = Wait b /\ rest <> []) \/
    (exists b', step b = Got m b' /\ buffer_ok b' /\ readable b' ++ rest = tail);
}.

(** The receive loop over an abstract step: messages, and whether it closed. *)
Fixpoint drain (step : Buffer -> Step) (fuel : nat) (b : Buffer) : Buffer * list (list byte) * bool :=
  match fuel with
  | O => (b, [], false)
  | S fuel' =>
      match step b with
      | Got m b' => let '(b2, ms, closed) := drain step fuel' b' in (b2, m :: ms, closed)
      | Wait b' => (b', [], false)
      | Bad b' => (b', [], true)
      end
  end.

(** A connection: each chunk that arrives is appended and the loop runs. *)
Fixpoint receive (loop : Buffer -> Buffer * list (list byte) * bool) (b : Buffer)
    (chunks : list (list byte)) : Buffer * list (list byte) * bool :=
  match chunks with
  | [] => (b, [], false)
  | c :: rest =>
      let '(b1, ms, closed) := loop (Buf.append c b) in
      if (closed : bool) then (b1, ms, true)
      else let '(b2, ms', closed') := receive loop b1 rest in (b2, ms ++ ms', closed')
  end.

Section framing.
Context (step : Buffer -> Step) (wire : list byte -> list byte) (valid : list byte -> Prop).
Context `{!Framing step wire valid}.

Definition wires (ms : list (list byte)) : list byte := concat (map wire ms).

Lemma drain_spec fuel b ms rest :
  buffer_ok b -> Forall valid ms -> readable b ++ rest = wires ms ->
  (length (readable b) < fuel)%nat ->
  exists b' ms1 ms2, drain step fuel b = (b', ms1, false) /\ ms = ms1 ++ ms2 /\
    buffer_ok b' /\ readable b' ++ rest = wires ms2 /\ (rest = [] -> ms2 = []).
Proof.
  revert b ms. induction fuel as [|fuel IH]; intros b ms Hb Hv Hr Hfuel; [lia|]. cbn [drain].
  destruct ms as [|m ms].
  { apply app_eq_nil in Hr as [Hr ->]. rewrite framing_idle by done.
    exists b, [], []. by rewrite Hr. }
  apply Forall_cons in Hv as [Hm Hv]. unfold wires in Hr. cbn [map concat] in Hr.
  destruct (framing_step b m (wires ms) rest Hb Hm Hr) as [[-> Hne]|(b1 & -> & Hb1 & Hr1)].
  { exists b, [], (m :: ms). repeat split; auto; try done; intros; apply Hb. }
  destruct (IH b1 ms Hb1 Hv Hr1) as (b2 & ms1 & ms2 & -> & -> & Hb2 & Hr2 & Hend).
  { pose proof (f_equal length Hr) as Hl1. pose proof (f_equal length Hr1) as Hl2.
    unfold wires in Hl2. rewrite !length_app in Hl1. rewrite length_app in Hl2.
    pose proof (framing_nonempty m). lia. }
  exists b2, (m :: ms1), ms2. repeat split; auto; apply Hb2.
Qed.

(** Any cut of the stream gives the messages back, once each and in order. *)
Lemma receive_all chunks b ms :
  buffer_ok b -> Forall valid ms -> readable b ++ concat chunks = wires ms ->
  (chunks = [] -> ms = []) ->
  exists b', receive (fun b => drain step (S (Buf.readableBytes b)) b) b chunks = (b', ms, false) /\
    readable b' = [].
Proof.
  revert b ms. induction chunks as [|c chunks IH]; intros b ms Hb Hv Hr Hnil; cbn [receive].
  { rewrite (Hnil eq_refl) in *. rewrite app_nil_r in Hr. by exists b. }
  destruct (append_ok c b Hb) as [Hb1 Hr1].
  destruct (drain_spec (S (Buf.readableBytes (Buf.append c b))) (Buf.append c b) ms (concat chunks))
    as (b2 & ms1 & ms2 & -> & -> & Hb2 & Hr2 & Hend); [done|done| |rewrite length_readable by done; lia|].
  { rewrite Hr1, <- app_assoc. exact Hr. }
  apply Forall_app in Hv as [_ Hv2].
  destruct (IH b2 ms2 Hb2 Hv2 Hr2) as (b3 & -> & Hr3); [intros ->; by apply Hend|].
  by exists b3.
Qed.
End framing.

(** ** Binary frames *)

Definition binaryStep (max : Z) (b : Buffer) : Step :=
  match Binary.decode max b [] with
  | (b', m, CodecMessage) => Got m b'
  | (b', _, CodecNeedMore) => Wait b'
  | (b', _, CodecProtocolError) => Bad b'
  end.

Definition binaryWire (m : list byte) : list byte := frameBytes (Binary.frameOf m).

Definition binaryValid (max : Z) (m : list byte) : Prop := Z.of_nat (length m) <= max.

Lemma frameLoop_drain max fuel b msg : frameLoop max fuel b msg = drain (binaryStep max) fuel b.
Proof.
  revert b msg. induction fuel as [|fuel IH]; intros b msg; [done|]. cbn [frameLoop drain].
  unfold binaryStep at 1, Binary.decode.
  destruct (Stream.decode max b emptyFrame) as [[b' f] []]; try done.
  rewrite IH. by destruct (drain _ fuel b') as [[? ?] ?].
Qed.

Lemma frameOf_ok max m : 0 <= max < 2 ^ 31 -> binaryValid max m -> frame_ok max (Binary.frameOf m).
Proof.
  unfold binaryValid. intros Hmax Hm.
  assert (u32 (Z.of_nat (length m)) = Z.of_nat (length m)) as Hu by (apply u32_small; lia).
  split; cbn; rewrite ?Hu; lia || done.
Qed.

(** A prefix that covers the first part contains it. *)
Lemma app_prefix {A} (q rest h t : list A) :
  q ++ rest = h ++ t -> (length h <= length q)%nat -> exists x, q = h ++ x /\ x ++ rest = t.
Proof.
  intros E Hl. exists (drop (length h) q).
  assert (take (length h) q = h) as Ht.
  { rewrite <- (take_app_le q rest) by done. by rewrite E, take_app_length. }
  split; [by rewrite <- Ht at 1; rewrite take_drop|].
  rewrite <- (take_drop (length h) q), Ht, <- app_assoc in E. by simplify_list_eq.
Qed.

Lemma binaryFraming max :
  0 <= max < 2 ^ 31 -> Framing (binaryStep max) binaryWire (binaryValid max).
Proof.
  intros Hm. split.
  - intros m. unfold binaryWire, frameBytes. rewrite length_app, length_headerBytes. lia.
  - intros b Hb Hr. unfold binaryStep, Binary.decode, Stream.decode.
    rewrite <- length_readable, Hr by done. done.
  - intros b m tail rest Hb Hv E. unfold binaryStep, Binary.decode.
    destruct (Nat.le_gt_cases 20 (Buf.readableBytes b)) as [Hge|Hlt].
    + unfold binaryWire, frameBytes in E. rewrite <- app_assoc in E.
      destruct (app_prefix _ _ _ _ E) as (x & Hx & Hxt);
        [by rewrite length_headerBytes, length_readable|].
      destruct (decode_header max _ b x emptyFrame (frameOf_ok max m Hm Hv) Hm Hb Hx)
        as [[Hl ->]|[Hl (b' & f' & -> & Hb' & Hr' & Hbody)]]; cbn [fr_body Binary.frameOf] in *.
      * left. split; [done|]. intros ->. rewrite app_nil_r in Hxt. subst x.
        rewrite length_app in Hl. lia.
      * right. destruct (app_prefix _ _ _ _ Hxt Hl) as (z & -> & Hz). exists b'.
        rewrite take_app_length in Hbody. rewrite drop_app_length in Hr'. rewrite Hbody. by rewrite Hr'.
    + left. unfold Stream.decode, kHeaderLength. rewrite (proj2 (Z.ltb_lt _ _)) by lia.
      split; [done|]. intros ->. rewrite app_nil_r in E. apply (f_equal length) in E.
      rewrite length_readable in E by done. unfold binaryWire, frameBytes in E.
      rewrite !length_app, length_headerBytes in E. lia.
Qed.

(** Encoding a message appends its frame. *)
Lemma binary_encode_ok max m b :
  0 <= max < 2 ^ 31 -> binaryValid max m -> buffer_ok b ->
  exists b', Binary.encode max m b = (b', EncOk) /\ buffer_ok b' /\
    readable b' = readable b ++ binaryWire m.
Proof.
  intros Hmax Hv Hb. unfold Binary.encode. rewrite (proj2 (Z.ltb_ge _ _)) by done.
  unfold Stream.encode.
  destruct (frameOf_ok max m Hmax Hv) as [-> -> -> -> -> -> -> _ _ _]. rewrite !Z.eqb_refl.
  cbn [negb orb]. cbn [fr_body Binary.frameOf]. rewrite (proj2 (Z.ltb_ge _ _)) by done.
  destruct (append_ok (Stream.headerBytes (Binary.frameOf m)) b Hb) as [Hb1 Hr1].
  unfold binaryWire, frameBytes. cbn [fr_body Binary.frameOf]. destruct m as [|c m].
  - eexists. split; [done|]. split; [done|]. by rewrite app_nil_r.
  - destruct (append_ok (c :: m) _ Hb1) as [Hb2 Hr2]. eexists. split; [done|].
    split; [done|]. by rewrite Hr2, Hr1, <- app_assoc.
Qed.

(** The output buffer after sending [ms]. *)
Definition sendAll (encode : list byte -> Buffer -> Buffer * EncodeResult)
    (ms : list (list byte)) (output : Buffer) : Buffer :=
  foldl (fun b m => (encode m b).1) output ms.

Lemma sendAll_wires encode wire valid ms b :
  (forall m b, valid m -> buffer_ok b -> exists b', encode m b = (b', EncOk) /\ buffer_ok b' /\
     readable b' = readable b ++ wire m) ->
  Forall valid ms -> buffer_ok b ->
  readable (sendAll encode ms b) = readable b ++ concat (map wire ms).
Proof.
  intros Henc Hv. revert b. induction Hv as [|m ms Hm Hv IH]; intros b Hb; simpl;
    [by rewrite app_nil_r|].
  destruct (Henc m b Hm Hb) as (b' & -> & Hb' & Hr). simpl. rewrite IH by done.
  by rewrite Hr, <- app_assoc.
Qed.

(** A stream of frames, cut in any way, gives the messages back. *)
Lemma receive_frames max ms chunks size :
  0 <= max < 2 ^ 31 -> Forall (binaryValid max) ms -> concat chunks = wires binaryWire ms ->
  exists b, receive (onMessage BinaryFrame max) (newBuffer size) chunks = (b, ms, false) /\
    readable b = [].
Proof.
  intros Hmax Hv Hc. destruct (newBuffer_ok size) as [Hb2 Hr2]. pose proof (binaryFraming max Hmax) as HF.
  destruct (receive_all (binaryStep max) binaryWire (binaryValid max) chunks (newBuffer size) ms)
    as (b & Hrec & Hr); [done|done|by rewrite Hr2| |].
  { intros ->. destruct ms as [|m ms]; [done|]. apply (f_equal length) in Hc. simpl in Hc.
    rewrite length_app in Hc. pose proof (framing_nonempty (step := binaryStep max) m). lia. }
  exists b. split; [|done]. rewrite <- Hrec. clear. generalize (newBuffer size).
  induction chunks as [|c cs IH]; intros b0; [done|]. cbn [receive]. unfold onMessage.
  rewrite frameLoop_drain. destruct (drain _ _ _) as [[b1 ms1] []]; [done|]. by rewrite IH.
Qed.

(** C37: Frames survive any fragmentation: messages within the body limit, encoded
    one after the other, then cut into chunks in any way and received chunk by
    chunk, reach the handler unchanged, once each and in order; the connection is
    never closed and no byte is left over. *)
Theorem frames_roundtrip max ms chunks size1 size2 :
  0 <= max < 2 ^ 31 -> Forall (fun m : list byte => Z.of_nat (length m) <= max) ms ->
  concat chunks = readable (sendAll (Binary.encode max) ms (newBuffer size1)) ->
  exists b, receive (onMessage BinaryFrame max) (newBuffer size2) chunks = (b, ms, false) /\
    readable b = [].
Proof.
  intros Hmax Hv Hc. destruct (newBuffer_ok size1) as [Hb1 Hr1]. apply receive_frames; [done|done|].
  pose proof (sendAll_wires (Binary.encode max) binaryWire (binaryValid max) ms (newBuffer size1)
    (fun m b Hm Hb => binary_encode_ok max m b Hmax Hm Hb) Hv Hb1) as Hs. rewrite Hr1 in Hs.
  by rewrite Hc, Hs.
Qed.

Definition hello : list byte := [72; 105].
Definition world : list byte := [123; 125; 0; 255].

(** C37 for two messages and a cut inside each header. *)
Lemma frames_roundtrip_witness :
  let bytes := readable (sendAll (Binary.encode kDefaultMaxBodyLength) [hello; world] (newBuffer 16)) in
  exists b, receive (onMessage BinaryFrame kDefaultMaxBodyLength) (newBuffer 4)
      [take 7 bytes; take 18 (drop 7 bytes); drop 25 bytes] = (b, [hello; world], false) /\
    readable b = [].
Proof.
  intros bytes. apply (frames_roundtrip kDefaultMaxBodyLength [hello; world]
    [take 7 bytes; take 18 (drop 7 bytes); drop 25 bytes] 16 4).
  - by vm_compute.
  - repeat constructor; by vm_compute.
  - vm_compute. reflexivity.
Defined.

(** ** Lines *)

Definition lineStep (b : Buffer) : Step :=
  match Line.decode b [] with
  | (b', m, true) => Got m b'
  | (b', _, false) => Wait b'
  end.

Definition lineWire (m : list byte) : list byte := m ++ [Line.newline].

(** What the line format can carry: no newline inside, not empty, and no
    carriage return at the end (the decoder strips one). *)
Definition lineValid (m : list byte) : Prop :=
  m <> [] /\ Line.newline ∉ m /\ last m <> Some Line.carriageReturn.

Lemma decodeLoop_message fuel b m1 m2 b' l :
  Line.decodeLoop fuel b m1 = (b', l, true) -> Line.decodeLoop fuel b m2 = (b', l, true).
Proof.
  revert b. induction fuel as [|fuel IH]; intros b; [done|]. cbn [Line.decodeLoop].
  repeat case_match; try done. apply IH.
Qed.

Lemma decodeLoop_wait fuel b m1 m2 b' l :
  Line.decodeLoop fuel b m1 = (b', l, false) -> Line.decodeLoop fuel b m2 = (b', m2, false).
Proof.
  revert b. induction fuel as [|fuel IH]; intros b; cbn [Line.decodeLoop]; [by intros [= <- _]|].
  repeat case_match; try (by intros [= <- _]); try done. apply IH.
Qed.

Lemma lineLoop_drain fuel b msg :
  lineLoop fuel b msg = (drain lineStep fuel b).1 /\ (drain lineStep fuel b).2 = false.
Proof.
  revert b msg. induction fuel as [|fuel IH]; intros b msg; [done|]. cbn [lineLoop drain].
  destruct (Line.decode b []) as [[b' m] r] eqn:E.
  assert (lineStep b = if r then Got m b' else Wait b') as ->
    by (unfold lineStep; rewrite E; by destruct r).
  unfold Line.decode in *. destruct r.
  - rewrite (decodeLoop_message _ _ _ msg _ _ E). destruct (IH b' m) as [-> IH2].
    destruct (drain lineStep fuel b') as [[? ?] ?]. done.
  - rewrite (decodeLoop_wait _ _ _ msg _ _ E). done.
Qed.

Lemma memchrNl_none l : Line.newline ∉ l -> Line.memchrNl l = None.
Proof.
  induction l as [|c l IH]; intros Hn; [done|]. cbn [Line.memchrNl].
  apply not_elem_of_cons in Hn as [Hc Hn]. rewrite IH by done.
  by rewrite (proj2 (Z.eqb_neq _ _)) by congruence.
Qed.

Lemma memchrNl_first m tail :
  Line.newline ∉ m -> Line.memchrNl (m ++ Line.newline :: tail) = Some (length m).
Proof.
  induction m as [|c m IH]; intros Hn; cbn [Line.memchrNl app]; [done|].
  apply not_elem_of_cons in Hn as [Hc Hn]. rewrite IH by done.
  by rewrite (proj2 (Z.eqb_neq _ _)) by congruence.
Qed.

Lemma popCr_id m : last m <> Some Line.carriageReturn -> Line.popCr m = m.
Proof.
  intros Hl. unfold Line.popCr. destruct (last m) as [c|]; [|done].
  rewrite (proj2 (Z.eqb_neq _ _)); [done|congruence].
Qed.

Lemma lineFraming : Framing lineStep lineWire lineValid.
Proof.
  split.
  - intros m. unfold lineWire. rewrite length_app. simpl. lia.
  - intros b Hb Hr. unfold lineStep, Line.decode. cbn [Line.decodeLoop].
    by rewrite <- length_readable, Hr by done.
  - intros b m tail rest Hb (Hne & Hnl & Hcr) E. unfold lineWire in E. rewrite <- app_assoc in E.
    unfold lineStep, Line.decode. cbn [Line.decodeLoop]. fold (readable b).
    destruct (Nat.eqb_spec (Buf.readableBytes b) 0) as [H0|H0].
    { left. split; [done|]. intros ->. apply (f_equal length) in E.
      rewrite !length_app, length_readable in E by done. simpl in E. lia. }
    destruct (Nat.le_gt_cases (Buf.readableBytes b) (length m)) as [Hle|Hgt].
    + destruct (app_prefix (m) ([Line.newline] ++ tail) (readable b) rest) as (x & Hx & Hxt);
        [done|by rewrite length_readable|].
      rewrite memchrNl_none. 2:{ intros Hin. apply Hnl. rewrite Hx. apply elem_of_app. by left. }
      left. split; [done|]. intros ->. by destruct x.
    + destruct (app_prefix (readable b) rest (m ++ [Line.newline]) tail) as (x & Hx & Hxt);
        [by rewrite <- app_assoc|rewrite length_app, length_readable by done; simpl; lia|].
      rewrite Hx, <- app_assoc. cbn [app]. rewrite memchrNl_first by done.
      assert (take (length m) (Buf.peek b) = m) as ->.
      { rewrite peek_readable, Hx, <- !app_assoc. by rewrite take_app_length. }
      rewrite popCr_id by done. destruct m as [|c m']; [done|].
      destruct (retrieve_ok (length (c :: m') + 1) b Hb) as [Hb' Hr']. right. eexists.
      split; [done|]. split; [done|]. rewrite Hr', Hx. rewrite drop_app_length'; [done|].
      rewrite length_app. done.
Qed.

Lemma line_encode_ok m b :
  buffer_ok b ->
  exists b', Line.encode m b = (b', EncOk) /\ buffer_ok b' /\ readable b' = readable b ++ lineWire m.
Proof.
  intros Hb. unfold Line.encode, lineWire. destruct (append_ok m b Hb) as [Hb1 Hr1].
  destruct (append_ok [Line.newline] _ Hb1) as [Hb2 Hr2]. eexists. split; [done|]. split; [done|].
  by rewrite Hr2, Hr1, <- app_assoc.
Qed.

(** Lines survive any fragmentation: non-empty messages without newline and
    without a final carriage return, sent one after the other and received in any
    chunks, reach the handler unchanged, once each and in order, with no byte
    left over. *)
Theorem lines_roundtrip ms chunks max size1 size2 :
  Forall lineValid ms ->
  concat chunks = readable (sendAll Line.encode ms (newBuffer size1)) ->
  exists b, receive (onMessage JsonLine max) (newBuffer size2) chunks = (b, ms, false) /\
    readable b = [].
Proof.
  intros Hv Hc. destruct (newBuffer_ok size1) as [Hb1 Hr1]. destruct (newBuffer_ok size2) as [Hb2 Hr2].
  pose proof lineFraming as HF.
  pose proof (sendAll_wires Line.encode lineWire lineValid ms (newBuffer size1)
    (fun m b Hm Hb => line_encode_ok m b Hb) Hv Hb1) as Hs. rewrite Hr1 in Hs. rewrite Hs in Hc.
  destruct (receive_all lineStep lineWire lineValid chunks (newBuffer size2) ms)
    as (b & Hrec & Hr); [done|done|by rewrite Hr2| |].
  { intros ->. destruct ms as [|m ms]; [done|]. apply (f_equal length) in Hc. simpl in Hc.
    rewrite length_app in Hc. pose proof (framing_nonempty (step := lineStep) m). lia. }
  exists b. split; [|done]. rewrite <- Hrec. clear. generalize (newBuffer size2).
  induction chunks as [|c cs IH]; intros b0; [done|]. cbn [receive]. unfold onMessage.
  destruct (lineLoop_drain (S (Buf.readableBytes (Buf.append c b0))) (Buf.append c b0) []) as [-> Hcl].
  destruct (drain _ _ _) as [[b1 ms1] cl]. cbn [fst snd] in *. subst cl. by rewrite IH.
Qed.

(** An instance for two lines cut in the middle of the first. *)
Lemma lines_roundtrip_witness :
  exists b, receive (onMessage JsonLine 0) (newBuffer 4) [[72]; [105; 10; 123]; [125; 10]]
      = (b, [hello; [123; 125]], false) /\ readable b = [].
Proof.
  apply (lines_roundtrip [hello; [123; 125]] [[72]; [105; 10; 123]; [125; 10]] 0 16 4).
  - repeat constructor; try done; unfold Line.newline, hello; set_solver by lia.
  - vm_compute. reflexivity.
Defined.

(** ** Arbitrary input *)

Lemma readBe32_range p i : 0 <= readBe32 p i < 2 ^ 32.
Proof.
  unfold readBe32. rewrite be32_bytes by apply u8_range. unfold at_.
  pose proof (u8_range (nth i p 0)). pose proof (u8_range (nth (i + 1) p 0)).
  pose proof (u8_range (nth (i + 2) p 0)). pose proof (u8_range (nth (i + 3) p 0)). lia.
Qed.

(** Whatever the bytes: a frame is taken whole and within the limit, or the
    buffer is left as it is. *)
Lemma decode_any max b fr0 :
  0 <= max < 2 ^ 31 -> buffer_ok b ->
  let '(b', f, r) := Stream.decode max b fr0 in
  match r with
  | FrameReady =>
      let n := length (fr_body f) in
      buffer_ok b' /\ Z.of_nat n <= max /\ (20 + n <= length (readable b))%nat /\
      readable b' = drop (20 + n) (readable b) /\ fr_body f = take n (drop 20 (readable b))
  | _ => b' = b
  end.
Proof.
  intros Hmax Hb. pose proof (length_readable b Hb) as Hlen. unfold Stream.decode.
  set (body := readBe32 (Buf.peek b) 8). pose proof (readBe32_range (Buf.peek b) 8 : 0 <= body < _) as Hr.
  destruct (_ <? kHeaderLength); [done|].
  do 5 (destruct (negb _); [done|]). destruct (Z.ltb_spec max body); [done|].
  destruct (negb _); [done|]. rewrite u32_small by (unfold kHeaderLength; lia).
  unfold kHeaderLength. destruct (Z.ltb_spec (Z.of_nat (Buf.readableBytes b)) (20 + body)); [done|].
  cbn [fr_body].
  assert (take (Z.to_nat body) (drop 20 (Buf.peek b)) =
          take (Z.to_nat body) (drop 20 (readable b))) as ->.
  { rewrite peek_readable, drop_app_le by lia. apply take_app_le. rewrite length_drop. lia. }
  rewrite length_take, length_drop.
  replace (Z.to_nat body `min` (length (readable b) - 20))%nat with (Z.to_nat body) by lia.
  replace (Z.to_nat (20 + body)) with (20 + Z.to_nat body)%nat by lia.
  destruct (retrieve_ok (20 + Z.to_nat body) b Hb) as [Hb' Hr']. repeat split; try done; try lia; apply Hb'.
Qed.

(** The bytes a list of messages occupied as frames. *)
Definition consumed (ms : list (list byte)) : nat := sum_list (map (fun m => 20 + length m)%nat ms).

Definition drained (max : Z) (b : Buffer) (res : Buffer * list (list byte) * bool) : Prop :=
  let '(b', ms, closed) := res in
  buffer_ok b' /\ Forall (fun m : list byte => Z.of_nat (length m) <= max) ms /\
  readable b' = drop (consumed ms) (readable b) /\ (consumed ms <= length (readable b))%nat /\
  (Binary.decode max b' []).2 = if closed then CodecProtocolError else CodecNeedMore.

Lemma drained_stop max b (closed : bool) :
  buffer_ok b -> (Binary.decode max b []).2 = (if closed then CodecProtocolError else CodecNeedMore) ->
  drained max b (b, [], closed).
Proof. intros Hb Hd. split; [done|]. split; [done|]. split; [done|]. split; [apply Nat.le_0_l|done]. Qed.

Lemma frameLoop_any max fuel b msg :
  0 <= max < 2 ^ 31 -> buffer_ok b -> (length (readable b) < fuel)%nat ->
  drained max b (frameLoop max fuel b msg).
Proof.
  intros Hmax. revert b msg. induction fuel as [|fuel IH]; intros b msg Hb Hfuel; [lia|].
  cbn [frameLoop]. unfold Binary.decode at 1. pose proof (decode_any max b emptyFrame Hmax Hb) as Hd.
  destruct (Stream.decode max b emptyFrame) as [[b1 f] r] eqn:E.
  destruct (decide (r = FrameReady)) as [->|Hr].
  2:{ assert (b1 = b) as -> by (by destruct r).
      destruct r; try done; apply drained_stop; try done; unfold Binary.decode; by rewrite E. }
  destruct Hd as (Hb1 & Hn & Hle & Hr1 & _). set (n := length (fr_body f)) in *.
  assert (length (readable b1) < fuel)%nat as Hf1 by (rewrite Hr1, length_drop; lia).
  specialize (IH b1 (fr_body f) Hb1 Hf1).
  destruct (frameLoop max fuel b1 (fr_body f)) as [[b2 ms] closed].
  destruct IH as (Hb2 & Hall & Hr2 & Hc & Hend). rewrite Hr1, length_drop in Hc.
  assert (consumed (fr_body f :: ms) = (20 + n) + consumed ms)%nat as Hcons by done.
  split; [done|]. split; [by constructor|]. split; [by rewrite Hr2, Hr1, drop_drop, Hcons|].
  split; [lia|done].
Qed.

(** The receive loop of binary frames is safe on every input: whatever bytes a peer sends, the
    loop ends, hands over only messages within the body limit, removes exactly
    the frames it handed over, stays inside the buffer, and stops either because
    more bytes are needed or because the next bytes violate the protocol, in
    which case the connection is closed. *)
Theorem receive_loop_total max b b' ms closed :
  0 <= max < 2 ^ 31 -> buffer_ok b -> onMessage BinaryFrame max b = (b', ms, closed) ->
  buffer_ok b' /\ Forall (fun m : list byte => Z.of_nat (length m) <= max) ms /\
  readable b' = drop (consumed ms) (readable b) /\ (consumed ms <= length (readable b))%nat /\
  (Binary.decode max b' []).2 = if closed then CodecProtocolError else CodecNeedMore.
Proof.
  intros Hmax Hb Hrun. unfold onMessage in Hrun.
  pose proof (frameLoop_any max (S (Buf.readableBytes b)) b [] Hmax Hb) as Hl.
  rewrite Hrun in Hl. apply Hl. rewrite length_readable by done. lia.
Qed.

(** An instance on garbage after a valid frame: the message is handed over, then the
    connection is closed. *)
Lemma receive_loop_total_witness :
  let b := Buf.append (replicate 20 255) (sendAll (Binary.encode 100) [hello] (newBuffer 4)) in
  let '(b', ms, closed) := onMessage BinaryFrame 100 b in
  ms = [hello] /\ closed = true /\ readable b' = drop 22 (readable b).
Proof.
  cbv zeta. set (b := Buf.append (replicate 20 255) (sendAll (Binary.encode 100) [hello] (newBuffer 4))).
  assert (buffer_ok b) as Hb by (apply append_ok; vm_compute; repeat split; repeat constructor).
  assert (Hms : (onMessage BinaryFrame 100 b).1.2 = [hello]) by (vm_compute; reflexivity).
  assert (Hcl : (onMessage BinaryFrame 100 b).2 = true) by (vm_compute; reflexivity).
  destruct (onMessage BinaryFrame 100 b) as [[b' ms] closed] eqn:E. cbn [fst snd] in Hms, Hcl. subst.
  split; [done|]. split; [done|].
  exact (proj1 (proj2 (proj2 (receive_loop_total 100 b b' [hello] true ltac:(lia) Hb E)))).
Defined.
