(* ===== verification/OutboxLease.v ===== *)
(** * Leases on outbox events

    Whatever components use the store, every change goes through the operations
    of the [MessageStore] port, each of which is atomic.  The theorem here is
    about every sequence of such operations on every lawful store: an event that
    is leased is not handed out again while the lease runs. *)

From S2P Require Import Prelude DomainTypes Json Store InMemoryStore.

Open Scope Z_scope.
Open Scope eff_scope.

(** The operations that change a store. *)
Inductive StoreCall :=
| StGetOrCreateConversation (p : SessionIdentity) (cmd : SendMessageCommand)
| StInsertMessage (draft : Message)
| StInsertDelivery (d : Delivery)
| StUpdateDelivery (d : Delivery)
| StExpire (now limit : Z)
| StExpireDetailed (now limit : Z)
| StCleanup (ackedBefore expiredBefore limit : Z)
| StClaim (now : Z) (owner : string) (until limit : Z)
| StMarkProcessed (id now : Z)
| StMarkPoisoned (id now : Z)
| StRecordDeadLetter (r : DeadLetterRecord).

Section lease.
Context {S : Type} `{!MessageStore S, !MessageStoreLaws S}.

Definition runStoreCall (call : StoreCall) : eff exn S unit :=
  match call with
  | StGetOrCreateConversation p cmd => _ <- getOrCreateConversation p cmd ;; ret tt
  | StInsertMessage m => _ <- insertMessage m ;; ret tt
  | StInsertDelivery d => _ <- insertDelivery d ;; ret tt
  | StUpdateDelivery d => _ <- updateDelivery d ;; ret tt
  | StExpire now limit => _ <- expireDeliveries now limit ;; ret tt
  | StExpireDetailed now limit => _ <- expireDeliveriesDetailed now limit ;; ret tt
  | StCleanup a e limit => _ <- cleanupDeliveries a e limit ;; ret tt
  | StClaim now owner until limit => _ <- claimOutboxEvents now owner until limit ;; ret tt
  | StMarkProcessed id now => _ <- markOutboxProcessed id now ;; ret tt
  | StMarkPoisoned id now => _ <- markOutboxPoisoned id now ;; ret tt
  | StRecordDeadLetter r => _ <- recordDeadLetter r ;; ret tt
  end.

(** Calls of any number of threads, in the order the store serves them; a call
    that throws leaves the state it reached. *)
Definition runStoreCalls (calls : list StoreCall) (s : S) : S :=
  foldl (fun s call => (runStoreCall call s).1) s calls.

(** Calls made before [bound]: batch limits are in range, claims come earlier and
    processing times are real times. *)
Definition call_before (bound : Z) (call : StoreCall) : Prop :=
  match call with
  | StExpire _ limit | StExpireDetailed _ limit => 0 <= limit < 2 ^ 32
  | StCleanup _ _ limit => 0 <= limit
  | StClaim now _ _ limit => now < bound /\ 0 <= limit
  | StMarkProcessed _ now => now <> 0
  | _ => True
  end.

Definition callUse (call : StoreCall) : Z :=
  match call with
  | StGetOrCreateConversation _ _ | StInsertMessage _ => 1
  | _ => 0
  end.

(** The event cannot be claimed before [bound]. *)
Definition held (bound k : Z) (v : StoreView) : Prop :=
  exists e, v_outbox v !! k = Some e /\
    (ev_processedAtMs e <> 0 \/ (ev_leaseOwner e <> EmptyString /\ bound <= ev_leaseUntilMs e)).

Lemma held_not_claimable bound k v e now :
  held bound k v -> v_outbox v !! k = Some e -> now < bound -> ~ claimable_event now e.
Proof.
  intros (e' & He' & Hh) He Hlt (Hp & _ & Ho). simplify_eq.
  destruct Hh as [Hh|[Hh1 Hh2]], Ho as [Ho|Ho]; try done. lia.
Qed.

Lemma held_same bound k v v' : v_outbox v' = v_outbox v -> held bound k v -> held bound k v'.
Proof. intros E. unfold held. by rewrite E. Qed.

Lemma held_claim bound k v v' now owner until limit l :
  now < bound -> spec_claim now owner until limit v l v' -> held bound k v -> held bound k v'.
Proof.
  intros Hlt (_ & _ & _ & Hs & _ & _) Hh. pose proof Hh as (e & He & Hc).
  destruct (Hs k e He) as [(Hcl & _)|(_ & _ & Hk)]; [|by exists e].
  by destruct (held_not_claimable bound k v e now Hh He Hlt).
Qed.

Lemma held_processed bound k i now v :
  now <> 0 -> held bound k v -> held bound k (view_markProcessed i now v).
Proof.
  intros Hn (e & He & Hh). unfold held, view_markProcessed. simpl.
  destruct (decide (k = i)) as [->|Hne].
  - exists (processed_event now e). rewrite lookup_alter_eq, He. split; [done|by left].
  - exists e. by rewrite lookup_alter_ne.
Qed.

(** What is left after a call that promises [R]. *)
Lemma step_held {A} used (m : eff exn S A) (R : A -> StoreView -> Prop) s n bound k :
  store_op view store_wf capacity used m s R -> n + used <= capacity s ->
  (forall a v', R a v' -> held bound k v') -> held bound k (view s) ->
  let s' := ((_ <- m ;; ret tt) s).1 in
  store_wf s' /\ n <= capacity s' /\ held bound k (view s').
Proof.
  intros Hm Hn HR Hh. unfold store_op, wp in Hm. unfold bind.
  destruct (m s) as [s' [a|x]].
  - destruct Hm as (Hwf' & Hc & Ha). simpl. split; [done|]. split; [lia|]. by eapply HR.
  - destruct Hm as (_ & Hwf' & Hc & Ev). simpl. rewrite Ev. split; [done|]. split; [lia|done].
Qed.

(** One call: the store stays well-formed and held events stay held. *)
Lemma runStoreCall_held call s n bound k :
  store_wf s -> 0 <= n -> n + callUse call <= capacity s -> call_before bound call ->
  held bound k (view s) ->
  let s' := (runStoreCall call s).1 in
  store_wf s' /\ n <= capacity s' /\ held bound k (view s').
Proof.
  intros Hwf H0 Hn Hb Hh.
  destruct call; cbn [runStoreCall callUse call_before] in *.
  - eapply step_held; [apply getOrCreateConversation_ok; [done|lia]|done| |done].
    intros c v'. unfold spec_conversation. case_match; [by intros [_ ->]|].
    intros [-> _]. by eapply held_same, Hh.
  - eapply step_held; [apply insertMessage_ok; [done|lia]|done| |done].
    intros m v' (_ & _ & _ & _ & _ & _ & _ & _ & ev & Hnone & Hob & _).
    destruct Hh as (e & He & Hc). exists e. rewrite Hob, lookup_insert_ne; [done|congruence].
  - eapply step_held; [by apply insertDelivery_ok|done| |done].
    intros _ v' ->. unfold view_insertDelivery. case_match; [done|by eapply held_same, Hh].
  - eapply step_held; [by apply updateDelivery_ok|done| |done].
    intros _ v' ->. unfold view_updateDelivery. case_match; [by eapply held_same, Hh|done].
  - eapply step_held; [by apply expireDeliveries_ok|done| |done].
    intros r v' (out & _ & _ & -> & _). by eapply held_same, Hh.
  - eapply step_held; [by apply expireDeliveriesDetailed_ok|done| |done].
    intros r v' (_ & _ & -> & _). by eapply held_same, Hh.
  - eapply step_held; [by apply cleanupDeliveries_ok|done| |done].
    intros r v' (-> & _). by eapply held_same, Hh.
  - destruct Hb as [Hlt Hlim]. eapply step_held; [by apply claimOutboxEvents_ok|done| |done].
    intros l v' Hs. by eapply held_claim.
  - eapply step_held; [by apply markOutboxProcessed_ok|done| |done].
    intros _ v' ->. by apply held_processed.
  - eapply step_held; [by apply markOutboxPoisoned_ok|done| |done]. by intros _ v' ->.
  - eapply step_held; [by apply recordDeadLetter_ok|done| |done].
    intros _ v' ->. unfold view_recordDeadLetter. case_match; [done|by eapply held_same, Hh].
Qed.

Lemma runStoreCalls_held calls s n bound k :
  store_wf s -> 0 <= n -> n + Z.of_nat (length calls) <= capacity s ->
  Forall (call_before bound) calls -> held bound k (view s) ->
  let s' := runStoreCalls calls s in
  store_wf s' /\ n <= capacity s' /\ held bound k (view s').
Proof.
  revert s. induction calls as [|c cs IH]; intros s Hwf H0 Hn Hall Hh; simpl length in *.
  { split; [done|]. split; [cbn; lia|done]. }
  apply Forall_cons in Hall as [Hc Hall].
  destruct (runStoreCall_held c s (n + Z.of_nat (length cs)) bound k) as (Hwf' & Hn' & Hh');
    [done|lia|destruct c; simpl; lia|done|done|].
  change (runStoreCalls (c :: cs) s) with (runStoreCalls cs (runStoreCall c s).1). by apply IH.
Qed.

(** A claimed event is held until its lease ends. *)
Lemma claimed_held now owner until limit v l v' e :
  owner <> EmptyString -> spec_claim now owner until limit v l v' ->
  (forall k x, v_outbox v !! k = Some x -> ev_id x = k) ->
  e ∈ l -> held until (ev_id e) v'.
Proof.
  intros Ho (_ & _ & _ & Hs & Hn & Hin) Hid He. pose proof (Hin e He) as Hk.
  destruct (v_outbox v !! ev_id e) as [x|] eqn:Hx; [|by rewrite (Hn _ Hx) in Hk].
  exists e. split; [done|]. right.
  destruct (Hs _ _ Hx) as [(_ & _ & Hk')|(_ & Hno & _)]; [|by destruct (Hno e He)].
  rewrite Hk in Hk'. injection Hk' as ->. done.
Qed.

(** C15: Claims are exclusive: an event claimed by one relay under a lease is not
    handed to any claim made before that lease ends, whichever operations of
    whichever components the store served in between, and whether they succeeded
    or threw; once it is marked processed, at a time other than zero, it is not handed
    out at all.  This holds for every store that keeps the promises of the port, such
    as the in-memory one. *)
Theorem outbox_claims_exclusive s s1 s3 now1 owner1 until1 limit1 l1 calls now2 owner2 until2 limit2 l2 :
  store_wf s -> Z.of_nat (length calls) <= capacity s ->
  owner1 <> EmptyString -> 0 <= limit1 -> 0 <= limit2 ->
  claimOutboxEvents now1 owner1 until1 limit1 s = (s1, Ret l1) ->
  Forall (call_before until1) calls -> now2 < until1 ->
  claimOutboxEvents now2 owner2 until2 limit2 (runStoreCalls calls s1) = (s3, Ret l2) ->
  forall e1 e2, e1 ∈ l1 -> e2 ∈ l2 -> ev_id e1 <> ev_id e2.
Proof.
  intros Hwf Hcap Ho Hl1 Hl2 Hc1 Hall Hlt Hc2 e1 e2 He1 He2 Heq.
  pose proof (claimOutboxEvents_ok now1 owner1 until1 limit1 s Hwf Hl1) as H1.
  unfold store_op, wp in H1. rewrite Hc1 in H1. destruct H1 as (Hwf1 & Hcap1 & Hs1).
  pose proof (claimed_held _ _ _ _ _ _ _ e1 Ho Hs1 (outbox_keyed s Hwf) He1) as Hh.
  destruct (runStoreCalls_held calls s1 0 until1 (ev_id e1)) as (Hwf2 & _ & Hh2);
    [done|lia|lia|done|done|].
  pose proof (claimOutboxEvents_ok now2 owner2 until2 limit2 _ Hwf2 Hl2) as H3.
  unfold store_op, wp in H3. rewrite Hc2 in H3. destruct H3 as (_ & _ & Hs3).
  destruct Hs3 as (_ & _ & _ & Hs3 & _ & Hin3). pose proof Hh2 as (x & Hx & _).
  destruct (Hs3 _ _ Hx) as [(Hcl & _)|(_ & Hno & _)].
  - by destruct (held_not_claimable until1 _ _ x now2 Hh2 Hx Hlt).
  - by destruct (Hno e2 He2).
Qed.
End lease.
