(* ===== verification/Relay.v ===== *)
(** * The outbox relay and its publishers
    (chatserver/src/app/LocalOutboxRelay.cpp, include/app/LocalWakeupPublisher.hpp,
    include/app/WakeupProgressHandler.hpp, src/app/RecordingPublisher.cpp)

    The relay claims outbox events under a lease, publishes them through the
    [OutboxPublisher] port and marks an event processed only when its publish
    succeeded.  A publisher is an arbitrary effect on the world; the local
    wake-up publisher and the consumer-side progress handler drive the messaging
    module. *)

From S2P Require Import Prelude DomainTypes Metrics Store World Coordinator Messaging.
From stdpp Require Import pretty.

Open Scope Z_scope.
Open Scope eff_scope.

Record OutboxConfig := mkOutboxConfig {
  claimBatchSize : Z;
  scanIntervalMs : Z;
  claimLeaseMs : Z;
}.

Definition defaultOutboxConfig : OutboxConfig := mkOutboxConfig 100 5000 30000.

Record OutboxPublishRequest := mkRequest {
  rq_event : OutboxEvent;
  rq_conversationId : ConversationId;
  rq_sequence : Z;
  rq_topic : string;
}.

Inductive PublishFailure :=
| PubNone | PubTimeout | PubBrokerUnavailable | PubPayloadTooLarge | PubOther.

Record OutboxPublishOutcome := mkOutcome {
  oc_ok : bool;
  oc_failure : PublishFailure;
  oc_error : string;
}.

(** The configuration and flags of one relay. *)
Record LocalOutboxRelay := mkRelay {
  rl_config : OutboxConfig;
  rl_topic : string;
  rl_publishDeadlineMs : Z;
  rl_leaseOwner : string;
  rl_running : bool;
  rl_stopRequested : bool;
}.

Record RelayBatch := mkBatch { rb_claimedCount : Z; rb_requests : list OutboxPublishRequest }.

Definition emptyBatch : RelayBatch := mkBatch 0 [].

(** [std::to_string] of an unsigned integer. *)
Definition to_string (x : Z) : string := pretty (Z.to_N x).

Definition nextLeaseOwner (pid t counter : Z) : string :=
  let c := Z.land counter 0xFFF in
  let boot := Z.lxor (Z.lxor (u64 (Z.shiftl pid 52)) (Z.land t 0xFFFFFFFFFFFFF))
                (u64 (Z.shiftl c 60)) in
  ("relay:" +:+ to_string boot +:+ ":" +:+ to_string c)%string.

(** [start]: true when the worker thread is launched; [stop] up to the join and
    after it. *)
Definition set_flags (running stopRequested : bool) (r : LocalOutboxRelay) : LocalOutboxRelay :=
  mkRelay (rl_config r) (rl_topic r) (rl_publishDeadlineMs r) (rl_leaseOwner r) running stopRequested.

Definition relayStart (r : LocalOutboxRelay) : LocalOutboxRelay * bool :=
  if rl_running r then (r, false) else (set_flags true false r, true).

Definition relayStopRequest (r : LocalOutboxRelay) : LocalOutboxRelay :=
  if negb (rl_running r) then r else set_flags (rl_running r) true r.

Definition relayStopJoined (r : LocalOutboxRelay) : LocalOutboxRelay :=
  set_flags false (rl_stopRequested r) r.

(** ** RecordingPublisher *)

Record RecordingPublisher := mkRecording {
  batches_ : list (list OutboxPublishRequest);
  requests_ : list OutboxPublishRequest;
  lastOutcomes_ : list OutboxPublishOutcome;
  lastDeadlineMs_ : Z;
  failByEvent_ : gmap Z PublishFailure;
  failByTopic_ : gmap string PublishFailure;
}.

Definition failureFor (p : RecordingPublisher) (req : OutboxPublishRequest) : PublishFailure :=
  match failByEvent_ p !! ev_id (rq_event req) with
  | Some f => f
  | None => match failByTopic_ p !! rq_topic req with Some f => f | None => PubNone end
  end.

Definition recordedOutcome (p : RecordingPublisher) (req : OutboxPublishRequest)
  : OutboxPublishOutcome :=
  match failureFor p req with
  | PubNone => mkOutcome true PubNone EmptyString
  | f => mkOutcome false f "recording publisher injected failure"
  end.

Definition recordingPublish (batch : list OutboxPublishRequest) (deadlineMs : Z)
    (p : RecordingPublisher) : RecordingPublisher * list OutboxPublishOutcome :=
  let outcomes := map (recordedOutcome p) batch in
  (mkRecording (batches_ p ++ [batch]) (requests_ p ++ batch) outcomes deadlineMs
     (failByEvent_ p) (failByTopic_ p), outcomes).

Definition failEvent (eventId : Z) (f : PublishFailure) (p : RecordingPublisher) : RecordingPublisher :=
  mkRecording (batches_ p) (requests_ p) (lastOutcomes_ p) (lastDeadlineMs_ p)
    (<[eventId := f]> (failByEvent_ p)) (failByTopic_ p).

Definition failTopic (topic : string) (f : PublishFailure) (p : RecordingPublisher) : RecordingPublisher :=
  mkRecording (batches_ p) (requests_ p) (lastOutcomes_ p) (lastDeadlineMs_ p)
    (failByEvent_ p) (<[topic := f]> (failByTopic_ p)).

Definition clearFailures (p : RecordingPublisher) : RecordingPublisher :=
  mkRecording (batches_ p) (requests_ p) (lastOutcomes_ p) (lastDeadlineMs_ p) ∅ ∅.

(** ** Consumed records *)

Record ConsumedOutboxRecord := mkConsumed {
  cr_topic : string;
  cr_partition : Z;
  cr_offset : Z;
  cr_messageId : MessageId;
  cr_conversationId : ConversationId;
  cr_sequence : Z;
  cr_eventType : string;
  cr_payload : string;
}.

Inductive ConsumeDisposition := Advanced | DuplicateNoOp | DeadLettered.

(** A double quote. *)
Definition quote : string := String (Ascii.ascii_of_nat 34) EmptyString.

Definition rebuildEnvelope (r : ConsumedOutboxRecord) : string :=
  ("{" +:+ quote +:+ "message_id" +:+ quote +:+ ":" +:+ to_string (cr_messageId r)
   +:+ "," +:+ quote +:+ "conversation_id" +:+ quote +:+ ":" +:+ to_string (cr_conversationId r)
   +:+ "," +:+ quote +:+ "sequence" +:+ quote +:+ ":" +:+ to_string (cr_sequence r)
   +:+ "," +:+ quote +:+ "event_type" +:+ quote +:+ ":" +:+ quote +:+ cr_eventType r +:+ quote
   +:+ "," +:+ quote +:+ "payload" +:+ quote +:+ ":" +:+ cr_payload r +:+ "}")%string.

Definition missingRecord (r : ConsumedOutboxRecord) : DeadLetterRecord :=
  mkDeadLetter (cr_topic r) (cr_partition r) (cr_offset r) (cr_messageId r) (cr_conversationId r)
    (cr_sequence r) (cr_eventType r) "message_missing" (rebuildEnvelope r).

(** recipient -> (state, attempts); a later row of a recipient replaces it. *)
Definition snapshotRows (before : list Delivery) : gmap UserId (DeliveryState * Z) :=
  foldl (fun m d => <[dl_recipient d := (dl_state d, dl_attemptCount d)]> m) ∅ before.

Definition rowChanged (snapshot : gmap UserId (DeliveryState * Z)) (d : Delivery) : bool :=
  match snapshot !! dl_recipient d with
  | None => true
  | Some (st, attempts) =>
      negb (bool_decide (st = dl_state d)) || negb (attempts =? dl_attemptCount d)
  end.

Definition progressed (before after : list Delivery) : bool :=
  negb (Nat.eqb (length before) (length after)) || existsb (rowChanged (snapshotRows before)) after.

Section relay.
Context {S E : Type} `{MessageStore S} `{Env E}.

Notation W := (World S E).
Notation weff := (eff exn W).

(** OutboxPublisher::publish *)
Definition Publisher : Type :=
  list OutboxPublishRequest -> Z -> weff (list OutboxPublishOutcome).

(** ** Claiming a batch *)

(** One claimed event: [None] when its message is missing or cannot be loaded. *)
Definition buildRequest (relay : LocalOutboxRelay) (e : OutboxEvent)
  : weff (option OutboxPublishRequest) :=
  msg <- catchAll (onStore (findMessage (ev_aggregateMessageId e))) (fun _ => ret None) ;;
  match msg with
  | None => metric CallOutboxPoison ;;; ret None
  | Some m => ret (Some (mkRequest e (msg_conversationId m) (msg_sequence m) (rl_topic relay)))
  end.

Fixpoint buildRequests (relay : LocalOutboxRelay) (claimed : list OutboxEvent)
  : weff (list OutboxPublishRequest) :=
  match claimed with
  | [] => ret []
  | e :: rest =>
      r <- buildRequest relay e ;;
      rs <- buildRequests relay rest ;;
      ret (match r with Some req => req :: rs | None => rs end)
  end.

Definition scanLocked (relay : LocalOutboxRelay) : weff RelayBatch :=
  now <- nowMs ;;
  claimed <- onStore (claimOutboxEvents now (rl_leaseOwner relay)
                        (i64 (now + claimLeaseMs (rl_config relay)))
                        (claimBatchSize (rl_config relay))) ;;
  requests <- buildRequests relay claimed ;;
  ret (mkBatch (Z.of_nat (length claimed)) requests).

(** ** Publishing and marking *)

(** The gauge of unprocessed events, best effort. *)
Definition refreshLag : weff unit :=
  catchAll (lag <- onStore countUnprocessedOutboxEvents ;; metric (CallOutboxLag lag))
    (fun _ => ret tt).

(** [publisher_.publish] with the defensive catch. *)
Definition publishGuarded (publisher : Publisher) (relay : LocalOutboxRelay)
    (requests : list OutboxPublishRequest) : weff (list OutboxPublishOutcome) :=
  catchAll (publisher requests (rl_publishDeadlineMs relay))
    (fun _ => forM requests (fun _ => metric CallOutboxPoison) ;;; ret []).

(** A result list of the wrong length counts as none. *)
Definition checkedOutcomes (requests : list OutboxPublishRequest)
    (outcomes : list OutboxPublishOutcome) : list OutboxPublishOutcome :=
  if Nat.eqb (length outcomes) (length requests) then outcomes else [].

Definition markOne (req : OutboxPublishRequest) (ok : bool) : weff unit :=
  if ok then
    catchAll (t <- nowMs ;; onStore (markOutboxProcessed (ev_id (rq_event req)) t))
      (fun _ => metric CallOutboxPoison)
  else metric CallOutboxPoison.

(** The loop over the requests by index; [outcomes] is empty or as long. *)
Fixpoint markLoop (requests : list OutboxPublishRequest) (outcomes : list OutboxPublishOutcome)
  : weff unit :=
  match requests with
  | [] => ret tt
  | req :: rest =>
      markOne req (match outcomes with oc :: _ => oc_ok oc | [] => false end) ;;;
      markLoop rest (tl outcomes)
  end.

Definition publishAndMark (publisher : Publisher) (relay : LocalOutboxRelay) (plan : RelayBatch)
  : weff unit :=
  match rb_requests plan with
  | [] => refreshLag
  | requests =>
      outcomes <- publishGuarded publisher relay requests ;;
      markLoop requests (checkedOutcomes requests outcomes) ;;;
      refreshLag
  end.

Definition runScan (publisher : Publisher) (relay : LocalOutboxRelay) : weff Z :=
  plan <- scanLocked relay ;;
  publishAndMark publisher relay plan ;;;
  ret (rb_claimedCount plan).

(** ** The worker *)

(** One turn of [workerLoop]: [None] leaves the loop, [Some ms] is the wait. *)
Definition workerTurn (publisher : Publisher) (relay : LocalOutboxRelay) : weff (option Z) :=
  if rl_stopRequested relay then ret None
  else
    plan <- catchAll (scanLocked relay) (fun _ => ret emptyBatch) ;;
    catchAll (publishAndMark publisher relay plan) (fun _ => ret tt) ;;;
    let waitMs := scanIntervalMs (rl_config relay) in
    ret (Some (if waitMs <? 1 then 1 else waitMs)).

(** ** The local wake-up publisher *)

Context (what : exn -> string).

Definition outboxRecipientsFor (cmd : SendMessageCommand) : list UserId :=
  match kind cmd with
  | Direct => [directRecipient cmd]
  | Group => members cmd
  end.

Definition wakeOne (req : OutboxPublishRequest) : weff OutboxPublishOutcome :=
  catchAll
    (msg <- onStore (findMessage (ev_aggregateMessageId (rq_event req))) ;;
     match msg with
     | None => ret (mkOutcome false PubOther "outbox event without message")
     | Some m =>
         wakeupAccepted (outboxRecipientsFor (msg_command m)) ;;;
         ret (mkOutcome true PubNone EmptyString)
     end)
    (fun x => ret (mkOutcome false PubOther (what x))).

Fixpoint wakeBatch (batch : list OutboxPublishRequest) : weff (list OutboxPublishOutcome) :=
  match batch with
  | [] => ret []
  | req :: rest =>
      oc <- wakeOne req ;;
      ocs <- wakeBatch rest ;;
      ret (oc :: ocs)
  end.

Definition LocalWakeupPublisher : Publisher := fun batch _ => wakeBatch batch.

(** ** WakeupProgressHandler *)

Definition handleRecord (record : ConsumedOutboxRecord) : weff ConsumeDisposition :=
  msg <- onStore (findMessage (cr_messageId record)) ;;
  match msg with
  | None =>
      onStore (recordDeadLetter (missingRecord record)) ;;;
      ret DeadLettered
  | Some m =>
      before <- onStore (deliveriesByMessage (cr_messageId record)) ;;
      wakeupAccepted (outboxRecipientsFor (msg_command m)) ;;;
      after <- onStore (deliveriesByMessage (cr_messageId record)) ;;
      ret (if progressed before after then Advanced else DuplicateNoOp)
  end.
End relay.
