(* ===== verification/RelayInv.v ===== *)
(** * Guarantees of the relay and the progress handler

    What publishing and marking leave in the outbox, and what the consumer-side
    handler may do to deliveries. *)

From S2P Require Import Prelude DomainTypes Json Metrics Store InMemoryStore World Coordinator.
From S2P Require Import Messaging ViewInv ClaimFacts CoordinatorInv MessagingInv Guarantees.
From S2P Require Import Relay.

Open Scope Z_scope.
Open Scope eff_scope.

Section relay.
Context {S E : Type} `{!MessageStore S, !MessageStoreLaws S, !Env E}.

Notation W := (World S E).
Notation weff := (eff exn W).

(** ** Marking *)

(** Event [k] is one of the requests, and its outcome is ok. *)
Definition published_ok (requests : list OutboxPublishRequest) (outcomes : list OutboxPublishOutcome)
    (k : Z) : Prop :=
  exists i req oc, requests !! i = Some req /\ outcomes !! i = Some oc /\
    ev_id (rq_event req) = k /\ oc_ok oc = true.

(** Only the outbox changed, and there only events in [P], by being marked. *)
Definition marked (P : Z -> Prop) (v v' : StoreView) : Prop :=
  v' = set_outbox (v_outbox v') v /\
  forall k, v_outbox v' !! k = v_outbox v !! k \/
    (P k /\ exists e t, v_outbox v !! k = Some e /\ v_outbox v' !! k = Some (processed_event t e)).

Lemma marked_refl P v : marked P v v.
Proof. split; [by destruct v|by left]. Qed.

Lemma marked_mono (P P' : Z -> Prop) v v' : (forall k, P k -> P' k) -> marked P v v' -> marked P' v v'.
Proof. intros HP [H1 H2]. split; [done|]. intros k. destruct (H2 k) as [?|(?&?)]; auto. Qed.

Lemma marked_trans P v1 v2 v3 : marked P v1 v2 -> marked P v2 v3 -> marked P v1 v3.
Proof.
  intros [E1 H1] [E2 H2]. split; [rewrite E2, E1; done|]. intros k.
  destruct (H1 k) as [K1|(HP & e & t & K1 & K1')], (H2 k) as [K2|(HP' & e' & t' & K2 & K2')].
  - left. congruence.
  - right. split; [done|]. exists e', t'. split; congruence.
  - right. split; [done|]. exists e, t. split; congruence.
  - right. split; [done|]. exists e, t'. split; [done|]. rewrite K1' in K2. injection K2 as <-.
    by rewrite K2'.
Qed.

(** Well-formed and marked since [v0]. *)
Definition since (P : Z -> Prop) (v0 : StoreView) (w : W) : Prop :=
  store_wf (w_store w) /\ marked P v0 (vw w).

Lemma metric_since P v0 c :
  keepsOr (since P v0) (fun _ _ => False) (metric c : weff unit).
Proof. intros w HI. apply metric_nothrow. intros w' Es _. unfold since, vw. by rewrite Es. Qed.

(** A mark either takes effect or leaves the outbox as it was. *)
Lemma markOne_since (P : Z -> Prop) v0 req ok :
  (ok = true -> P (ev_id (rq_event req))) ->
  keepsOr (since P v0) (fun _ _ => False) (markOne req ok : weff unit).
Proof.
  intros HP w HI. unfold markOne. destruct ok; [|by apply metric_since].
  unfold catchAll. apply wp_catch, wp_bind. unfold wp at 1, nowMs. destruct (clockNow (w_env w)) as [e t].
  apply wp_zoom. destruct HI as [Hwf Hm].
  eapply wp_mono; [by apply markOutboxProcessed_ok| |].
  - intros _ s' (Hwf' & _ & Ev). split; [done|].
    eapply marked_trans; [exact Hm|]. unfold vw in *. simpl in *. rewrite Ev. split; [done|].
    intros k. unfold view_markProcessed. simpl. destruct (decide (k = ev_id (rq_event req))) as [->|Hne].
    + rewrite lookup_alter_eq. destruct (v_outbox (view (w_store w)) !! _) as [x|] eqn:Hx; [|by left].
      right. split; [by apply HP|]. by exists x, t.
    + left. by rewrite lookup_alter_ne.
  - intros x s' (Hx & Hwf' & _ & Ev). destruct x; try done; apply metric_since;
      (split; [done|]; unfold vw in *; simpl in *; by rewrite Ev).
Qed.

Lemma markLoop_since (P : Z -> Prop) v0 requests outcomes :
  (forall k, published_ok requests outcomes k -> P k) ->
  keepsOr (since P v0) (fun _ _ => False) (markLoop requests outcomes : weff unit).
Proof.
  revert outcomes. induction requests as [|req rest IH]; intros outcomes HP; cbn [markLoop];
    [apply keepsOr_ret|].
  apply keepsOr_bind; [apply markOne_since|intros _; apply IH].
  - intros Hok. apply HP. destruct outcomes as [|oc ocs]; [done|]. by exists O, req, oc.
  - intros k (i & r & oc & Hr & Ho & Hk & Hok). apply HP.
    exists (Datatypes.S i), r, oc. destruct outcomes; [done|]. done.
Qed.

Lemma refreshLag_since P v0 : keepsOr (since P v0) (fun _ _ => False) (refreshLag : weff unit).
Proof.
  intros w HI. unfold refreshLag, catchAll. apply wp_catch, wp_bind, wp_zoom.
  eapply wp_mono; [apply countUnprocessedOutboxEvents_ok, HI| |].
  - intros n s' (Hwf' & _ & Ev & _). eapply wp_mono; [apply (metric_since P v0)| |done].
    + split; [done|]. unfold vw. simpl. rewrite Ev. apply HI.
    + intros ? w' HI'. exact HI'.
  - intros x s' (Hx & Hwf' & _ & Ev). destruct x; try done; apply wp_ret;
      (split; [done|]; unfold vw; simpl; rewrite Ev; apply HI).
Qed.

(** The outcomes the relay acts on. *)
Definition effective (requests : list OutboxPublishRequest)
    (r : outcome exn (list OutboxPublishOutcome)) : list OutboxPublishOutcome :=
  match r with Ret outs => checkedOutcomes requests outs | Throw _ => [] end.

(** C16: The relay marks an event processed only after its publish succeeded:
    whatever the publisher did and returned (also when it threw, or returned
    results for the wrong number of events), the relay itself never throws, the
    publisher's effect stands, and the only further change is that some of the
    events whose own outcome was ok are marked processed.  Every other event
    stays unprocessed and leased, to be claimed again when the lease runs out. *)
Theorem relay_marks_only_published publisher relay plan (w w1 : W) r :
  rb_requests plan <> [] ->
  publisher (rb_requests plan) (rl_publishDeadlineMs relay) w = (w1, r) ->
  r <> Throw Diverges -> store_wf (w_store w1) ->
  exists w', publishAndMark publisher relay plan w = (w', Ret tt) /\
    marked (published_ok (rb_requests plan) (effective (rb_requests plan) r))
      (view (w_store w1)) (view (w_store w')).
Proof.
  intros Hne Hpub Hdiv Hwf. set (P := published_ok _ _).
  assert (wp (publishAndMark publisher relay plan) (fun _ => since P (vw w1)) (fun _ _ => False) w) as Hwp.
  { unfold publishAndMark. destruct (rb_requests plan) as [|req0 rest] eqn:Hreqs; [done|].
    set (requests := req0 :: rest) in *. apply wp_bind.
    assert (wp (publishGuarded publisher relay requests)
      (fun outs w2 => checkedOutcomes requests outs = effective requests r /\ since P (vw w1) w2)
      (fun _ _ => False) w) as Hg.
    { unfold publishGuarded, catchAll. apply wp_catch. unfold wp at 1. rewrite Hpub.
      assert (since P (vw w1) w1) as H1 by (split; [done|apply marked_refl]).
      destruct r as [outs|x]; [done|].
      assert (wp (forM requests (fun _ => metric CallOutboxPoison) ;;; ret [])
        (fun outs w2 => checkedOutcomes requests outs = effective requests (Throw x) /\ since P (vw w1) w2)
        (fun _ _ => False) w1) as Hf.
      { apply wp_bind. eapply wp_mono; [apply (keepsOr_forM (since P (vw w1)) (fun _ _ => False));
          [intros y _; apply metric_since|exact H1]| |done].
        intros ? w2 H2. apply wp_ret. by split. }
      by destruct x. }
    eapply wp_mono; [exact Hg| |done]. intros outs w2 [-> H2]. apply wp_bind.
    eapply wp_mono; [apply (markLoop_since P (vw w1)); [by intros k Hk|exact H2]| |done].
    intros ? w3 H3. by apply refreshLag_since. }
  unfold wp in Hwp. destruct (publishAndMark publisher relay plan w) as [w' [[]|x]]; [|done].
  exists w'. split; [done|]. apply Hwp.
Qed.
End relay.

(** ** The progress handler *)

Lemma snapshotRows_snoc l d :
  snapshotRows (l ++ [d]) = <[dl_recipient d := (dl_state d, dl_attemptCount d)]> (snapshotRows l).
Proof. unfold snapshotRows. by rewrite foldl_app. Qed.

Lemma snapshotRows_in l d :
  NoDup (dl_recipient <$> l) -> d ∈ l ->
  snapshotRows l !! dl_recipient d = Some (dl_state d, dl_attemptCount d).
Proof.
  induction l as [|x l IH] using rev_ind; [by intros _ ?%elem_of_nil|].
  rewrite fmap_app, NoDup_app, snapshotRows_snoc. simpl. intros (Hnd & Hdis & _) Hd.
  apply elem_of_app in Hd as [Hd| ->%list_elem_of_singleton]; [|by rewrite lookup_insert_eq].
  rewrite lookup_insert_ne; [by apply IH|]. intros E0.
  apply (Hdis (dl_recipient d)); [by apply list_elem_of_fmap_2|]. rewrite E0. by left.
Qed.

(** What the handler compares of a row. *)
Definition rowStatus (v : StoreView) (i u : Z) : option (DeliveryState * Z) :=
  (fun d => (dl_state d, dl_attemptCount d)) <$> v_deliveries v !! (i, u).

(** The rows of message [i], by recipient. *)
Lemma rows_of_message v i l :
  view_inv v -> spec_rows v (fun d => dl_messageId d = i) l ->
  NoDup (dl_recipient <$> l) /\
  (forall d, d ∈ l -> rowStatus v i (dl_recipient d) = Some (dl_state d, dl_attemptCount d)) /\
  (forall u, u ∈ (dl_recipient <$> l) <-> is_Some (v_deliveries v !! (i, u))).
Proof.
  intros Hv [Hnd Hin].
  assert (forall d, d ∈ l -> exists d0, v_deliveries v !! (i, dl_recipient d) = Some d0 /\ d = fill v d0) as Hl.
  { intros d Hd. apply Hin in Hd as (k & d0 & Hk & Hm & ->). exists d0. rewrite fill_recipient.
    pose proof (vi_key _ Hv _ _ Hk) as <-. unfold dl_key in Hk. by rewrite Hm in Hk. }
  split; [|split].
  - assert (dl_key <$> l = (fun u => (i, u)) <$> (dl_recipient <$> l)) as Ek.
    { rewrite <- list_fmap_compose. apply list_fmap_ext. intros n d Hd.
      apply list_elem_of_lookup_2, Hin in Hd as (k & d0 & Hk & Hm & ->).
      unfold dl_key. simpl. by rewrite fill_messageId, Hm. }
    rewrite Ek in Hnd. by apply NoDup_fmap_1 in Hnd.
  - intros d Hd. destruct (Hl d Hd) as (d0 & Hk & ->). rewrite fill_recipient in *.
    unfold rowStatus. rewrite Hk. simpl. rewrite fill_state. unfold fill. by case_match.
  - intros u. rewrite list_elem_of_fmap. split.
    + intros (d & -> & Hd). destruct (Hl d Hd) as (d0 & Hk & _). by exists d0.
    + intros [d0 Hk]. pose proof (vi_key _ Hv _ _ Hk) as Ek. injection Ek as Ei Eu.
      exists (fill v d0). rewrite fill_recipient. split; [done|]. apply Hin. by exists (i, u), d0.
Qed.

(** [progressed] compares the rows of a message before and after. *)
Lemma progressed_spec v v' i before after :
  view_inv v -> view_inv v' ->
  (forall u, is_Some (v_deliveries v !! (i, u)) <-> is_Some (v_deliveries v' !! (i, u))) ->
  spec_rows v (fun d => dl_messageId d = i) before -> spec_rows v' (fun d => dl_messageId d = i) after ->
  if progressed before after then exists u, rowStatus v i u <> rowStatus v' i u
  else forall u, rowStatus v i u = rowStatus v' i u.
Proof.
  intros Hv Hv' Hdom Hb Ha. destruct (rows_of_message v i before Hv Hb) as (Nb & Sb & Db).
  destruct (rows_of_message v' i after Hv' Ha) as (Na & Sa & Da).
  assert (length before = length after) as Hlen.
  { rewrite <- (length_fmap dl_recipient before), <- (length_fmap dl_recipient after).
    apply Permutation_length, NoDup_Permutation; [done|done|]. intros u. by rewrite Db, Da. }
  assert (forall d, d ∈ after -> rowChanged (snapshotRows before) d =
    bool_decide (rowStatus v i (dl_recipient d) <> rowStatus v' i (dl_recipient d))) as Hch.
  { intros d Hd. rewrite (Sa d Hd).
    assert (dl_recipient d ∈ (dl_recipient <$> before)) as Hu
      by (apply Db, Hdom, Da; by apply list_elem_of_fmap_2).
    apply list_elem_of_fmap in Hu as (d0 & E0 & Hd0). unfold rowChanged.
    rewrite E0, (snapshotRows_in before d0 Nb Hd0), (Sb d0 Hd0).
    symmetry. destruct (decide (dl_state d0 = dl_state d)), (Z.eqb_spec (dl_attemptCount d0) (dl_attemptCount d));
      repeat case_bool_decide; simpl; congruence. }
  unfold progressed. rewrite Hlen, Nat.eqb_refl. cbn [negb orb].
  destruct (existsb _ after) eqn:Hex.
  - apply existsb_exists in Hex as (d & Hd%list_elem_of_In & Hc). rewrite Hch in Hc by done.
    apply bool_decide_eq_true in Hc. by exists (dl_recipient d).
  - intros u. destruct (decide (u ∈ (dl_recipient <$> after))) as [Hu|Hu].
    + apply list_elem_of_fmap in Hu as (d & -> & Hd).
      destruct (decide (rowStatus v i (dl_recipient d) = rowStatus v' i (dl_recipient d))) as [|Hn]; [done|].
      assert (existsb (rowChanged (snapshotRows before)) after = true) as He.
      { apply existsb_exists. exists d. split; [by apply list_elem_of_In|]. rewrite Hch by done.
        by apply bool_decide_eq_true. }
      congruence.
    + unfold rowStatus.
      assert (v_deliveries v' !! (i, u) = None) as -> by (apply eq_None_not_Some; by rewrite <- Da).
      assert (v_deliveries v !! (i, u) = None) as ->; [|done].
      apply eq_None_not_Some. rewrite Hdom, <- Da. done.
Qed.

Section handler.
Context {S E : Type} `{!MessageStore S, !MessageStoreLaws S, !Env E}.

Notation W := (World S E).

Definition handle_result (record : ConsumedOutboxRecord) (w : W) (d : ConsumeDisposition) (w' : W) : Prop :=
  let i := cr_messageId record in
  match d with
  | DeadLettered =>
      v_messages (vw w) !! i = None /\
      vw w' = view_recordDeadLetter (missingRecord record) (vw w)
  | Advanced =>
      is_Some (v_messages (vw w) !! i) /\ evolves false (vw w) (vw w') /\
      exists u, rowStatus (vw w) i u <> rowStatus (vw w') i u
  | DuplicateNoOp =>
      is_Some (v_messages (vw w) !! i) /\ evolves false (vw w) (vw w') /\
      forall u, rowStatus (vw w) i u = rowStatus (vw w') i u
  end.

Lemma evolves_rows v v' i u :
  evolves false v v' -> is_Some (v_deliveries v !! (i, u)) <-> is_Some (v_deliveries v' !! (i, u)).
Proof.
  intros Hev. pose proof (ev_rows _ _ _ Hev (i, u)) as Hr. unfold row_evolves in Hr.
  destruct (v_deliveries v !! (i, u)), (v_deliveries v' !! (i, u)); try done; naive_solver.
Qed.

Notation Iw w := (Inv (E := E) (fun _ _ => True) False false (vw w) (capacity (w_store w))).

Lemma wp_read_ev {A} (m : eff exn S A) (R : A -> Prop) (w0 w : W) (Q : A -> W -> Prop) :
  view_inv (vw w0) -> Iw w0 w ->
  store_op view store_wf capacity 0 m (w_store w) (fun a v' => v' = vw w /\ R a) ->
  (forall a s', Iw w0 (put_store s' w) -> view s' = vw w -> R a -> Q a (put_store s' w)) ->
  wp (onStore m) Q (fun _ w' => evolves false (vw w0) (vw w')) w.
Proof.
  intros Hv HI Hop HQ. eapply wp_mono;
    [apply (wp_read _ _ trivial_ghost false (vw w0) Hv _ m R w Q HI Hop HQ)|auto|].
  intros x w' [HI' _]. apply HI'.
Qed.

Lemma wp_handleRecord record (w : W) :
  world_ok w ->
  wp (handleRecord record) (handle_result record w) (fun _ w' => evolves false (vw w) (vw w')) w.
Proof.
  intros Hw. pose proof (wo_view _ Hw) as Hv. pose proof (world_ok_inv w Hw) as HI0.
  apply Inv_rebase in HI0. unfold handleRecord. apply wp_bind.
  eapply (wp_store _ _ trivial_ghost false (vw w) Hv _) with
    (R := fun r v' => r = v_messages (vw w) !! cr_messageId record /\ v' = vw w);
    [exact HI0|apply findMessage_ok, Hw| | |intros x s' [HI' _] _; apply HI'].
  { intros a v' [_ ->]. split; [done|apply evolves_refl]. }
  intros om s1 HI1 [-> Ev1]. assert (vw (put_store s1 w) = vw w) as Ev1' by done.
  destruct (v_messages (vw w) !! cr_messageId record) as [m|] eqn:Hm.
  - apply wp_bind.
    eapply (wp_read_ev _ (spec_rows (vw w) (fun d => dl_messageId d = cr_messageId record)) w);
      [done|done| |].
    { rewrite Ev1'. rewrite <- Ev1. apply deliveriesByMessage_ok, HI1. }
    intros before s2 HI2 Ev2 Hb. apply wp_bind.
    eapply wp_mono; [apply (onAccepted_good _ _ trivial_ghost false (vw w) Hv (capacity (w_store w))); exact HI2| |intros x w' [HI' _]; apply HI'].
    intros ? w3 HI3. apply wp_bind.
    eapply (wp_read_ev _ (spec_rows (vw w3) (fun d => dl_messageId d = cr_messageId record)) w);
      [done|done|apply deliveriesByMessage_ok, HI3|].
    intros after s4 HI4 Ev4 Ha. apply wp_ret.
    pose proof (inv_ev _ _ _ _ _ _ HI3) as Hev. pose proof (inv_view _ _ _ _ _ _ HI3) as Hv3.
    pose proof (progressed_spec (vw w) (vw w3) (cr_messageId record) before after Hv Hv3
      (fun u => evolves_rows _ _ _ u Hev) Hb Ha) as Hp.
    assert (vw (put_store s4 w3) = vw w3) as Ev4' by done.
    unfold handle_result. rewrite Ev4', Hm.
    destruct (progressed before after); (split; [by eexists|]; split; [done|exact Hp]).
  - apply wp_bind, wp_zoom. eapply wp_mono; [apply recordDeadLetter_ok, HI1| |].
    + intros _ s2 (_ & _ & Ev2). apply wp_ret. split; [done|].
      change (view s2 = view_recordDeadLetter (missingRecord record) (vw w)). rewrite Ev2.
      change (view (w_store (put_store s1 w))) with (view s1). by rewrite Ev1.
    + intros x s2 (_ & _ & _ & Ev2). change (evolves false (vw w) (view s2)). rewrite Ev2.
      change (view (w_store (put_store s1 w))) with (view s1). rewrite Ev1. apply evolves_refl.
Qed.

(** Consuming a record only advances: the handler never creates a message or
    a delivery and never reopens a settled one, also when it throws; it reports
    DeadLettered exactly when the message does not exist, having recorded the
    dead letter once, Advanced when the state or attempt count of some delivery of
    the message changed, and DuplicateNoOp when none did. *)
Theorem consuming_only_advances (w w' : W) record r :
  world_ok w -> handleRecord record w = (w', r) ->
  match r with
  | Ret d => handle_result record w d w'
  | Throw _ => evolves false (vw w) (vw w')
  end.
Proof.
  intros Hw Hrun. pose proof (wp_handleRecord record w Hw) as Hwp. unfold wp in Hwp.
  rewrite Hrun in Hwp. by destruct r.
Qed.
End handler.

(** ** Progress on the in-memory store *)

Section progress.
Context {E : Type} `{!JsonLib, !Env E}.

Notation W := (World InMemoryMessageStore E).

(** A publisher whose broker acknowledges everything. *)
Definition acksAll (publisher : Publisher (S := InMemoryMessageStore) (E := E)) : Prop :=
  forall requests deadline w, exists w1,
    publisher requests deadline w =
      (w1, Ret (map (fun _ => mkOutcome true PubNone EmptyString) requests)) /\
    w_store w1 = w_store w.

Definition clock_positive : Prop := forall e : E, 0 < (clockNow e).2.

(** The event is processed and its lease given up. *)
Definition settledEvent (k : Z) (w : W) : Prop :=
  exists e, outboxEvents_ (w_store w) !! k = Some e /\ 0 < ev_processedAtMs e /\
    ev_leaseOwner e = EmptyString.

Lemma buildRequest_spec relay e (w : W) :
  wp (buildRequest relay e)
    (fun r w' => w_store w' = w_store w /\
       (is_Some (messagesById_ (w_store w) !! ev_aggregateMessageId e) ->
        exists req, r = Some req /\ rq_event req = e))
    (fun _ _ => False) w.
Proof.
  unfold buildRequest. apply wp_bind. unfold catchAll. apply wp_catch.
  unfold wp at 1, onStore, zoom. cbn. set (w0 := put_store (w_store w) w).
  destruct (messagesById_ (w_store w) !! ev_aggregateMessageId e) as [m|] eqn:Hm.
  - apply wp_ret. split; [done|]. intros _. by eexists.
  - apply wp_bind. apply metric_nothrow. intros w' Es _. apply wp_ret. split; [done|]. by intros [].
Qed.

Lemma buildRequests_spec relay l (w : W) :
  wp (buildRequests relay l)
    (fun rs w' => w_store w' = w_store w /\
       forall e, e ∈ l -> is_Some (messagesById_ (w_store w) !! ev_aggregateMessageId e) ->
         exists req, req ∈ rs /\ rq_event req = e)
    (fun _ _ => False) w.
Proof.
  revert w. induction l as [|e l IH]; intros w; cbn [buildRequests].
  { apply wp_ret. split; [done|]. by intros e ?%elem_of_nil. }
  apply wp_bind. eapply wp_mono; [apply buildRequest_spec| |done]. intros r w1 [E1 H1].
  apply wp_bind. eapply wp_mono; [apply IH| |done]. intros rs w2 [E2 H2]. apply wp_ret.
  split; [congruence|]. intros e' He' Hm. rewrite <- E1 in Hm.
  apply elem_of_cons in He' as [->|He'].
  - rewrite E1 in Hm. destruct (H1 Hm) as (req & -> & Hreq). exists req. split; [by left|done].
  - destruct (H2 e' He' Hm) as (req & Hin & Hreq). exists req. split; [|done].
    destruct r; [by right|done].
Qed.

Lemma markOne_settles (Hclk : clock_positive) req (w : W) :
  wp (markOne req true)
    (fun _ w' => (forall k, settledEvent k w -> settledEvent k w') /\
       (forall k, is_Some (outboxEvents_ (w_store w) !! k) -> is_Some (outboxEvents_ (w_store w') !! k)) /\
       (is_Some (outboxEvents_ (w_store w) !! ev_id (rq_event req)) -> settledEvent (ev_id (rq_event req)) w'))
    (fun _ _ => False) w.
Proof.
  unfold markOne, catchAll. apply wp_catch, wp_bind. unfold wp at 1, nowMs.
  pose proof (Hclk (w_env w)) as Ht. destruct (clockNow (w_env w)) as [e t].
  apply wp_zoom. unfold wp. cbn. unfold settledEvent. cbn.
  destruct (outboxEvents_ (w_store w) !! ev_id (rq_event req)) as [x|] eqn:Hx; cbn; [|by rewrite Hx].
  split; [|split].
  - intros k Hk. destruct (decide (k = ev_id (rq_event req))) as [->|Hne].
    + rewrite lookup_insert_eq. by eexists.
    + by rewrite lookup_insert_ne.
  - intros k Hk. rewrite lookup_insert_is_Some. destruct (decide (ev_id (rq_event req) = k)); auto.
  - intros _. rewrite lookup_insert_eq. by eexists.
Qed.

Lemma markLoop_settles (Hclk : clock_positive) rs (w : W) :
  wp (markLoop rs (map (fun _ => mkOutcome true PubNone EmptyString) rs))
    (fun _ w' => (forall k, settledEvent k w -> settledEvent k w') /\
       forall req, req ∈ rs -> is_Some (outboxEvents_ (w_store w) !! ev_id (rq_event req)) ->
         settledEvent (ev_id (rq_event req)) w')
    (fun _ _ => False) w.
Proof.
  revert w. induction rs as [|r rs IH]; intros w; cbn [markLoop map tl].
  { apply wp_ret. split; [done|]. by intros req ?%elem_of_nil. }
  apply wp_bind. eapply wp_mono; [by apply markOne_settles| |done].
  intros ? w1 (H1 & H2 & H3). eapply wp_mono; [apply IH| |done]. intros ? w2 (H4 & H5).
  split; [auto|]. intros req Hreq Hsome. apply elem_of_cons in Hreq as [->|Hreq]; [auto|].
  apply H5; [done|]. by apply H2.
Qed.

Lemma refreshLag_store (w : W) :
  wp refreshLag (fun _ w' => w_store w' = w_store w) (fun _ _ => False) w.
Proof.
  unfold refreshLag, catchAll. apply wp_catch, wp_bind. unfold wp at 1, onStore, zoom. by cbn.
Qed.

Lemma publishAndMark_settles publisher relay plan (w : W) :
  clock_positive -> acksAll publisher ->
  wp (publishAndMark publisher relay plan)
    (fun _ w' => forall req, req ∈ rb_requests plan ->
       is_Some (outboxEvents_ (w_store w) !! ev_id (rq_event req)) ->
       settledEvent (ev_id (rq_event req)) w')
    (fun _ _ => False) w.
Proof.
  intros Hclk Hacks. unfold publishAndMark. destruct (rb_requests plan) as [|r0 rest].
  { eapply wp_mono; [apply refreshLag_store| |done]. by intros ? w' _ req ?%elem_of_nil. }
  set (reqs := r0 :: rest). apply wp_bind. unfold publishGuarded, catchAll. apply wp_catch.
  unfold wp at 1. destruct (Hacks reqs (rl_publishDeadlineMs relay) w) as (w1 & -> & Es).
  apply wp_bind. unfold checkedOutcomes. rewrite length_map, Nat.eqb_refl.
  eapply wp_mono; [by apply markLoop_settles| |done]. intros ? w2 [_ H2].
  eapply wp_mono; [apply refreshLag_store| |done]. intros ? w3 E3 req Hreq Hsome.
  rewrite <- Es in Hsome. specialize (H2 req Hreq Hsome). unfold settledEvent in *. by rewrite E3.
Qed.

(** C17: The relay makes progress: on the in-memory store, with a publisher whose
    broker acknowledges, one scan returns without throwing; it has taken a batch of
    events that were visible, unprocessed and not leased, as many as it returns, and
    processed each of them whose message exists.  All such events are in the batch
    when there are fewer than the batch size. *)
Theorem relay_scan_processes publisher relay (w : W) :
  clock_positive -> acksAll publisher -> mem_wf (w_store w) ->
  0 <= claimBatchSize (rl_config relay) ->
  let now := (clockNow (w_env w)).2 in
  exists w' taken, runScan publisher relay w = (w', Ret (Z.of_nat (length taken))) /\
    Z.of_nat (length taken) <= claimBatchSize (rl_config relay) /\ NoDup taken /\
    (forall k, k ∈ taken -> exists e, outboxEvents_ (w_store w) !! k = Some e /\ claimable_event now e /\
       (is_Some (messagesById_ (w_store w) !! ev_aggregateMessageId e) -> settledEvent k w')) /\
    (Z.of_nat (length taken) < claimBatchSize (rl_config relay) -> forall k e,
       outboxEvents_ (w_store w) !! k = Some e -> claimable_event now e -> k ∈ taken).
Proof.
  intros Hclk Hacks Hwf Hlim now. set (limit := claimBatchSize (rl_config relay)) in *.
  assert (wp (runScan publisher relay) (fun n w' => exists taken, n = Z.of_nat (length taken) /\ n <= limit /\ NoDup taken /\
    (forall k, k ∈ taken -> exists e, outboxEvents_ (w_store w) !! k = Some e /\ claimable_event now e /\
       (is_Some (messagesById_ (w_store w) !! ev_aggregateMessageId e) -> settledEvent k w')) /\
    (n < limit -> forall k e, outboxEvents_ (w_store w) !! k = Some e -> claimable_event now e -> k ∈ taken))
    (fun _ _ => False) w) as Hwp.
  { unfold runScan, scanLocked. apply wp_bind, wp_bind. unfold wp at 1, nowMs. subst now.
    destruct (clockNow (w_env w)) as [e0 now]. cbn [snd]. apply wp_bind, wp_zoom.
    pose proof (claimOutboxEvents_op now (rl_leaseOwner relay)
      (i64 (now + claimLeaseMs (rl_config relay))) limit (w_store w) Hwf Hlim) as Hop.
    unfold store_op, wp in Hop. unfold wp at 1. cbn. fold limit.
    destruct (InMemory.claimOutboxEvents now (rl_leaseOwner relay)
      (i64 (now + claimLeaseMs (rl_config relay))) limit (w_store w)) as [s1 [l|x]] eqn:Hrun.
    2:{ unfold InMemory.claimOutboxEvents in Hrun. by destruct (InMemory.claimLoop _ _ _ _ _ _ _). }
    destruct Hop as (Hwf1 & _ & Hsp). apply wp_bind.
    eapply wp_mono; [apply buildRequests_spec| |done]. intros rs w2 [E2 Hrs]. apply wp_ret.
    apply wp_bind. eapply wp_mono; [by apply publishAndMark_settles| |done].
    intros ? w3 H3. apply wp_ret. cbn [rb_requests rb_claimedCount] in *.
    destruct Hsp as (Hframe & Hnd & Hlen & Hev & Hnone & Hin). exists (ev_id <$> l). rewrite length_fmap.
    split; [done|]. split; [done|]. split; [done|]. split.
    - intros k Hk. apply list_elem_of_fmap in Hk as (e' & -> & He'). pose proof (Hin e' He') as Hk'.
      destruct (v_outbox (mem_view (w_store w)) !! ev_id e') as [e|] eqn:He; [|by rewrite (Hnone _ He) in Hk'].
      destruct (Hev _ e He) as [(Hcl & Hel & Hk)|(_ & Hno & _)]; [|by destruct (Hno e' He')].
      exists e. split; [exact He|]. split; [exact Hcl|]. intros Hmsg.
      destruct (Hrs _ Hel) as (req & Hreq & Ereq).
      { cbn in *. assert (messagesById_ s1 = messagesById_ (w_store w)) as ->; [|exact Hmsg].
        exact (f_equal v_messages Hframe). }
      assert (ev_id (rq_event req) = ev_id e') as Hkid by (rewrite Ereq; exact (proj1 (wf_outbox _ Hwf _ _ He))).
      rewrite <- Hkid. apply H3; [done|]. rewrite E2, Hkid. by eexists.
    - intros Hlt k e He Hcl. destruct (Hev k e He) as [(_ & Hel & Hk)|([Hno|Hfull] & _)]; [|done|lia].
      apply list_elem_of_fmap. exists (claimed_event (rl_leaseOwner relay) (i64 (now + claimLeaseMs (rl_config relay))) e).
      split; [|done]. symmetry. exact (proj1 (wf_outbox _ Hwf _ _ He)). }
  unfold wp in Hwp. destruct (runScan publisher relay w) as [w' [n|x]]; [|done].
  destruct Hwp as (taken & -> & H1 & H2 & H3 & H4). by exists w', taken.
Qed.
End progress.

(** ** A publisher that throws

    The poison counter is meant to count each failed event once.  When the
    publisher throws, every event of the batch is counted in the handler and
    again in the marking loop. *)

Section poison.
Context {S E : Type} `{!MessageStore S, !Env E}.

Notation W := (World S E).

Definition poison (w : W) : Z := outboxPoison_ (w_rec w).

Lemma metric_poison (w : W) :
  exists w', metric CallOutboxPoison w = (w', Ret tt) /\ poison w' = u64 (poison w + 1) /\
    w_store w' = w_store w.
Proof. eexists. split; [reflexivity|]. split; reflexivity. Qed.

Lemma poison_loop {A} (l : list A) (w : W) :
  isU64 (poison w) ->
  exists w', forM l (fun _ => metric CallOutboxPoison) w = (w', Ret tt) /\
    poison w' = u64 (poison w + Z.of_nat (length l)) /\ w_store w' = w_store w.
Proof.
  revert w. induction l as [|a l IH]; intros w Hu; cbn [forM].
  { exists w. split; [done|]. rewrite Z.add_0_r. by rewrite u64_small. }
  destruct (metric_poison w) as (w1 & H1 & P1 & S1). unfold bind. rewrite H1.
  destruct (IH w1) as (w2 & -> & P2 & S2); [rewrite P1; apply u64_range|].
  exists w2. split; [done|]. split; [|congruence]. rewrite P2, P1. unfold u64. rewrite wrapU_add_l.
  f_equal. simpl length. lia.
Qed.

Lemma markLoop_poison (l : list OutboxPublishRequest) (w : W) :
  markLoop l [] w = forM l (fun _ => metric CallOutboxPoison) w.
Proof.
  revert w. induction l as [|a l IH]; intros w; [done|]. cbn [markLoop forM markOne tl]. unfold bind.
  destruct (metric_poison w) as (w1 & H1 & _). rewrite H1. apply IH.
Qed.

(** When the publisher throws after leaving the recorder alone, a batch of n
    events raises the poison counter by 2n. *)
Theorem throwing_publisher_counts_twice publisher relay plan (w w1 : W) x :
  rb_requests plan <> [] ->
  publisher (rb_requests plan) (rl_publishDeadlineMs relay) w = (w1, Throw x) -> x <> Diverges ->
  isU64 (poison w1) ->
  let w' := (publishAndMark publisher relay plan w).1 in
  poison w' = u64 (poison w1 + 2 * Z.of_nat (length (rb_requests plan))).
Proof.
  intros Hne Hpub Hx Hu. unfold publishAndMark. destruct (rb_requests plan) as [|r0 rest] eqn:Hr; [done|].
  set (reqs := r0 :: rest) in *. destruct (poison_loop reqs w1 Hu) as (w2 & H2 & P2 & _).
  assert (publishGuarded publisher relay reqs w = (w2, Ret [])) as Hg.
  { unfold publishGuarded, catchAll, catch. rewrite Hpub. unfold bind.
    destruct x; try done; by rewrite H2. }
  unfold bind. rewrite Hg.
  unfold checkedOutcomes. cbn [length Nat.eqb reqs]. fold reqs.
  rewrite markLoop_poison. destruct (poison_loop reqs w2) as (w3 & -> & P3 & _).
  { rewrite P2. apply u64_range. }
  assert (poison (refreshLag w3).1 = poison w3) as ->.
  { unfold refreshLag, catchAll, catch, bind, onStore, zoom.
    destruct (countUnprocessedOutboxEvents (w_store w3)) as [s [n|y]]; [reflexivity|]. by destruct y. }
  rewrite P3, P2. unfold u64. rewrite wrapU_add_l. f_equal. subst reqs. cbn [length]. lia.
Qed.
End poison.
