(* ===== verification/Config.v ===== *)
(** * Configuration
    (chatserver/include/app/Config.hpp, src/app/Config.cpp)

    Loading a parsed JSON file over a configuration collects every field error
    and succeeds when there is none; the command line and the environment then
    override.  The JSON text parser is the parameter [JsonLib]; reading the file
    is an argument. *)

From S2P Require Import Prelude DomainTypes Json World Relay.
From Stdlib Require Import QArith Qround Ascii.
From stdpp Require Import pretty.

Open Scope Z_scope.
Open Scope eff_scope.

(** ** The configuration record *)

Record ServerEndpointConfig := mkEndpoint { ep_ip : string; ep_port : Z; ep_threads : Z }.

Record DbConfig := mkDb {
  db_host : string; db_port : Z; db_user : string; db_password : string;
  db_dbname : string; db_poolSize : Z }.

Record ExecutorConfig := mkExecutor { ex_workers : Z; ex_queueCapacity : Z }.

Record PresenceConfig := mkPresenceConfig {
  pr_host : string; pr_port : Z; pr_db : Z; pr_ttlMs : Z;
  pr_connectTimeoutMs : Z; pr_commandTimeoutMs : Z }.

Record KafkaConfig := mkKafka { kf_host : string; kf_port : Z }.

Record ConsumerConfig := mkConsumer {
  cs_topic : string; cs_groupId : string; cs_fetchBatchLimit : Z; cs_pollDeadlineMs : Z }.

Record GatewayConfig := mkGateway {
  gw_id : Z; gw_presence : PresenceConfig; gw_kafka : KafkaConfig; gw_consumer : ConsumerConfig }.

Record MetricsConfig := mkMetricsConfig { me_enabled : bool; me_port : Z }.

Record AppConfig := mkApp {
  v1 : ServerEndpointConfig;
  v2 : ServerEndpointConfig;
  db : DbConfig;
  executor : ExecutorConfig;
  reliable : RetryConfig;
  outbox : OutboxConfig;
  gateway : GatewayConfig;
  metrics : MetricsConfig;
}.

Definition defaultGatewayConfig : GatewayConfig :=
  mkGateway 1 (mkPresenceConfig "127.0.0.1" 6379 0 30000 1000 1000) (mkKafka "127.0.0.1" 9092)
    (mkConsumer "muduo-outbox" EmptyString 100 5000).

Definition defaultAppConfig : AppConfig :=
  mkApp (mkEndpoint "127.0.0.1" 6000 1) (mkEndpoint "127.0.0.1" 7000 1)
    (mkDb "127.0.0.1" 3306 "root" "123456" "chat" 5) (mkExecutor 1 64)
    defaultRetryConfig defaultOutboxConfig defaultGatewayConfig (mkMetricsConfig false 7001).

Definition effectiveConsumerGroupId (g : GatewayConfig) : string :=
  if negb (bool_decide (cs_groupId (gw_consumer g) = EmptyString)) then cs_groupId (gw_consumer g)
  else ("muduo-outbox-consumer-" +:+ pretty (gw_id g))%string.

(** Assignments to members. *)
Definition on_v1 (f : ServerEndpointConfig -> ServerEndpointConfig) (c : AppConfig) : AppConfig :=
  mkApp (f (v1 c)) (v2 c) (db c) (executor c) (reliable c) (outbox c) (gateway c) (metrics c).
Definition on_v2 (f : ServerEndpointConfig -> ServerEndpointConfig) (c : AppConfig) : AppConfig :=
  mkApp (v1 c) (f (v2 c)) (db c) (executor c) (reliable c) (outbox c) (gateway c) (metrics c).
Definition on_db (f : DbConfig -> DbConfig) (c : AppConfig) : AppConfig :=
  mkApp (v1 c) (v2 c) (f (db c)) (executor c) (reliable c) (outbox c) (gateway c) (metrics c).
Definition on_executor (f : ExecutorConfig -> ExecutorConfig) (c : AppConfig) : AppConfig :=
  mkApp (v1 c) (v2 c) (db c) (f (executor c)) (reliable c) (outbox c) (gateway c) (metrics c).
Definition on_reliable (f : RetryConfig -> RetryConfig) (c : AppConfig) : AppConfig :=
  mkApp (v1 c) (v2 c) (db c) (executor c) (f (reliable c)) (outbox c) (gateway c) (metrics c).
Definition on_outbox (f : OutboxConfig -> OutboxConfig) (c : AppConfig) : AppConfig :=
  mkApp (v1 c) (v2 c) (db c) (executor c) (reliable c) (f (outbox c)) (gateway c) (metrics c).
Definition on_gateway (f : GatewayConfig -> GatewayConfig) (c : AppConfig) : AppConfig :=
  mkApp (v1 c) (v2 c) (db c) (executor c) (reliable c) (outbox c) (f (gateway c)) (metrics c).
Definition on_metrics (f : MetricsConfig -> MetricsConfig) (c : AppConfig) : AppConfig :=
  mkApp (v1 c) (v2 c) (db c) (executor c) (reliable c) (outbox c) (gateway c) (f (metrics c)).
Definition on_presence (f : PresenceConfig -> PresenceConfig) : AppConfig -> AppConfig :=
  on_gateway (fun g => mkGateway (gw_id g) (f (gw_presence g)) (gw_kafka g) (gw_consumer g)).
Definition on_kafka (f : KafkaConfig -> KafkaConfig) : AppConfig -> AppConfig :=
  on_gateway (fun g => mkGateway (gw_id g) (gw_presence g) (f (gw_kafka g)) (gw_consumer g)).
Definition on_consumer (f : ConsumerConfig -> ConsumerConfig) : AppConfig -> AppConfig :=
  on_gateway (fun g => mkGateway (gw_id g) (gw_presence g) (gw_kafka g) (f (gw_consumer g))).

(** ** Reading fields *)

Record FieldError := mkFieldError { fe_field : string; fe_what : string }.

(** The configuration being filled and the errors so far. *)
Definition LoadState : Type := AppConfig * list FieldError.

Abbreviation load := (eff exn LoadState) (only parsing).

Definition err (field what : string) : load unit :=
  modify (fun s => (s.1, s.2 ++ [mkFieldError field what])).

Definition assign (f : AppConfig -> AppConfig) : load unit := modify (fun s => (f s.1, s.2)).

Definition fieldError (field what : string) : load bool := err field what ;;; ret false.

(** A field that is a JSON integer, read as long long, between [lo] and [hi]. *)
Definition getInteger (lo hi : Z) (range : string) (obj : Json) (key : string)
    (out : Z -> AppConfig -> AppConfig) (path : string) : load bool :=
  match jfield key obj with
  | None => ret true
  | Some (JInt z) =>
      let v := i64 z in
      if (v <? lo) || (hi <? v) then fieldError (path +:+ key) range
      else assign (out v) ;;; ret true
  | Some _ => fieldError (path +:+ key) "must be an integer"
  end.

Definition getUint16 := getInteger 1 65535 "must be in [1,65535]".
Definition getIntMin1 := getInteger 1 2147483647 "must be in [1,2147483647]".
Definition getInt64Positive := getInteger 1 (2 ^ 63 - 1) "must be >= 1".
Definition getUint32Positive := getInteger 1 4294967295 "must be in [1,4294967295]".
Definition getUint64Positive := getInteger 1 (2 ^ 63 - 1) "must be >= 1".

Definition numberOf (j : Json) : option Q :=
  match j with JInt z => Some (inject_Z z) | JFloat q => Some q | _ => None end.

Definition getJitterFraction (obj : Json) (key : string) (out : Q -> AppConfig -> AppConfig)
    (path : string) : load bool :=
  match jfield key obj with
  | None => ret true
  | Some j =>
      match numberOf j with
      | None => fieldError (path +:+ key) "must be a number"
      | Some v => if negb (Qle_bool 0 v) || negb (Qle_bool v 1)
                  then fieldError (path +:+ key) "must be in [0,1]"
                  else assign (out v) ;;; ret true
      end
  end.

Definition getNonEmptyString (obj : Json) (key : string) (out : string -> AppConfig -> AppConfig)
    (path : string) : load bool :=
  match jfield key obj with
  | None => ret true
  | Some (JStr v) =>
      if bool_decide (v = EmptyString) then fieldError (path +:+ key) "must not be empty"
      else assign (out v) ;;; ret true
  | Some _ => fieldError (path +:+ key) "must be a string"
  end.

Definition getBool (obj : Json) (key : string) (out : bool -> AppConfig -> AppConfig)
    (path : string) : load bool :=
  match jfield key obj with
  | None => ret true
  | Some (JBool b) => assign (out b) ;;; ret true
  | Some _ => fieldError (path +:+ key) "must be a boolean"
  end.

Definition objFields (j : Json) : list (string * Json) := match j with JObj fs => fs | _ => [] end.

Fixpoint checkKeys (keys : list string) (known : list string) (path : string) (ok : bool) : load bool :=
  match keys with
  | [] => ret ok
  | k :: rest =>
      if existsb (String.eqb k) known then checkKeys rest known path ok
      else err (path +:+ k) "unknown field" ;;; checkKeys rest known path false
  end.

Definition checkKnownFields (obj : Json) (known : list string) (path : string) : load bool :=
  checkKeys (objFields obj).*1 known path true.

(** [ok = get(...) && ok] *)
Definition andThen (ok : bool) (m : load bool) : load bool := b <- m ;; ret (b && ok).

(** A member that is an object: [must be an object] or its own parser. *)
Definition subObject (obj : Json) (key field : string) (k : Json -> load bool) : load bool :=
  match jfield key obj with
  | None => ret true
  | Some (JObj fs) => k (JObj fs)
  | Some _ => fieldError field "must be an object"
  end.

Definition contains (obj : Json) (key : string) : bool :=
  match jfield key obj with Some _ => true | None => false end.

(** ** Sections *)

Definition parseServerSection (server : Json) : load bool :=
  _ <- checkKnownFields server ["v1"; "v2"] "server." ;;
  ok1 <- subObject server "v1" "server.v1" (fun o =>
    _ <- checkKnownFields o ["ip"; "port"; "threads"] "server.v1." ;;
    _ <- getNonEmptyString o "ip"
           (fun s => on_v1 (fun e => mkEndpoint s (ep_port e) (ep_threads e))) "server.v1." ;;
    _ <- getUint16 o "port" (fun z => on_v1 (fun e => mkEndpoint (ep_ip e) z (ep_threads e)))
           "server.v1." ;;
    _ <- getIntMin1 o "threads" (fun z => on_v1 (fun e => mkEndpoint (ep_ip e) (ep_port e) z))
           "server.v1." ;;
    ret true) ;;
  ok2 <- subObject server "v2" "server.v2" (fun o =>
    _ <- checkKnownFields o ["port"] "server.v2." ;;
    _ <- getUint16 o "port" (fun z => on_v2 (fun e => mkEndpoint (ep_ip e) z (ep_threads e)))
           "server.v2." ;;
    ret true) ;;
  if contains server "v1" || contains server "v2" then
    same <- gets (fun s : LoadState => ep_port (v1 s.1) =? ep_port (v2 s.1)) ;;
    if same then fieldError "server.v1.port" "must differ from server.v2.port"
    else ret (ok2 && ok1)
  else ret (ok2 && ok1).

Definition getPassword (o : Json) : load bool :=
  match jfield "password" o with
  | None => ret true
  | Some (JStr s) =>
      assign (on_db (fun d => mkDb (db_host d) (db_port d) (db_user d) s (db_dbname d) (db_poolSize d))) ;;;
      ret true
  | Some _ => fieldError "db.password" "must be a string"
  end.

Definition parseDbSection (o : Json) : load bool :=
  _ <- checkKnownFields o ["host"; "port"; "user"; "password"; "dbname"; "pool_size"] "db." ;;
  ok <- getNonEmptyString o "host" (fun s => on_db (fun d =>
          mkDb s (db_port d) (db_user d) (db_password d) (db_dbname d) (db_poolSize d))) "db." ;;
  ok <- andThen ok (getUint16 o "port" (fun z => on_db (fun d =>
          mkDb (db_host d) z (db_user d) (db_password d) (db_dbname d) (db_poolSize d))) "db.") ;;
  ok <- andThen ok (getNonEmptyString o "user" (fun s => on_db (fun d =>
          mkDb (db_host d) (db_port d) s (db_password d) (db_dbname d) (db_poolSize d))) "db.") ;;
  ok <- andThen ok (getPassword o) ;;
  ok <- andThen ok (getNonEmptyString o "dbname" (fun s => on_db (fun d =>
          mkDb (db_host d) (db_port d) (db_user d) (db_password d) s (db_poolSize d))) "db.") ;;
  andThen ok (getIntMin1 o "pool_size" (fun z => on_db (fun d =>
          mkDb (db_host d) (db_port d) (db_user d) (db_password d) (db_dbname d) z)) "db.").

Definition parseExecutorSection (o : Json) : load bool :=
  _ <- checkKnownFields o ["workers"; "queue_capacity"] "executor." ;;
  ok <- getIntMin1 o "workers"
          (fun z => on_executor (fun e => mkExecutor z (ex_queueCapacity e))) "executor." ;;
  ok <- andThen ok (getIntMin1 o "queue_capacity"
          (fun z => on_executor (fun e => mkExecutor (ex_workers e) z)) "executor.") ;;
  many <- gets (fun s : LoadState => 8 <? ex_workers (executor s.1)) ;;
  if ok && many then fieldError "executor.workers" "must be in [1,8]" else ret ok.

(** The members of [RetryConfig], in its order. *)
Definition set_ackTimeoutMs z r := mkRetryConfig z (backoffBaseMs r) (backoffCapMs r)
  (backoffMultiplier r) (jitterFraction r) (jitterSeed r) (messageRetentionMs r) (ackedRetentionMs r)
  (expiredRetentionMs r) (cleanupBatch r) (cleanupCycleMs r) (retryBatchLimit r).
Definition set_backoffBaseMs z r := mkRetryConfig (ackTimeoutMs r) z (backoffCapMs r)
  (backoffMultiplier r) (jitterFraction r) (jitterSeed r) (messageRetentionMs r) (ackedRetentionMs r)
  (expiredRetentionMs r) (cleanupBatch r) (cleanupCycleMs r) (retryBatchLimit r).
Definition set_backoffCapMs z r := mkRetryConfig (ackTimeoutMs r) (backoffBaseMs r) z
  (backoffMultiplier r) (jitterFraction r) (jitterSeed r) (messageRetentionMs r) (ackedRetentionMs r)
  (expiredRetentionMs r) (cleanupBatch r) (cleanupCycleMs r) (retryBatchLimit r).
Definition set_backoffMultiplier z r := mkRetryConfig (ackTimeoutMs r) (backoffBaseMs r)
  (backoffCapMs r) z (jitterFraction r) (jitterSeed r) (messageRetentionMs r) (ackedRetentionMs r)
  (expiredRetentionMs r) (cleanupBatch r) (cleanupCycleMs r) (retryBatchLimit r).
Definition set_jitterFraction q r := mkRetryConfig (ackTimeoutMs r) (backoffBaseMs r)
  (backoffCapMs r) (backoffMultiplier r) q (jitterSeed r) (messageRetentionMs r) (ackedRetentionMs r)
  (expiredRetentionMs r) (cleanupBatch r) (cleanupCycleMs r) (retryBatchLimit r).
Definition set_jitterSeed z r := mkRetryConfig (ackTimeoutMs r) (backoffBaseMs r)
  (backoffCapMs r) (backoffMultiplier r) (jitterFraction r) z (messageRetentionMs r)
  (ackedRetentionMs r) (expiredRetentionMs r) (cleanupBatch r) (cleanupCycleMs r) (retryBatchLimit r).
Definition set_messageRetentionMs z r := mkRetryConfig (ackTimeoutMs r) (backoffBaseMs r)
  (backoffCapMs r) (backoffMultiplier r) (jitterFraction r) (jitterSeed r) z
  (ackedRetentionMs r) (expiredRetentionMs r) (cleanupBatch r) (cleanupCycleMs r) (retryBatchLimit r).
Definition set_ackedRetentionMs z r := mkRetryConfig (ackTimeoutMs r) (backoffBaseMs r)
  (backoffCapMs r) (backoffMultiplier r) (jitterFraction r) (jitterSeed r) (messageRetentionMs r)
  z (expiredRetentionMs r) (cleanupBatch r) (cleanupCycleMs r) (retryBatchLimit r).
Definition set_expiredRetentionMs z r := mkRetryConfig (ackTimeoutMs r) (backoffBaseMs r)
  (backoffCapMs r) (backoffMultiplier r) (jitterFraction r) (jitterSeed r) (messageRetentionMs r)
  (ackedRetentionMs r) z (cleanupBatch r) (cleanupCycleMs r) (retryBatchLimit r).
Definition set_cleanupBatch z r := mkRetryConfig (ackTimeoutMs r) (backoffBaseMs r)
  (backoffCapMs r) (backoffMultiplier r) (jitterFraction r) (jitterSeed r) (messageRetentionMs r)
  (ackedRetentionMs r) (expiredRetentionMs r) z (cleanupCycleMs r) (retryBatchLimit r).
Definition set_cleanupCycleMs z r := mkRetryConfig (ackTimeoutMs r) (backoffBaseMs r)
  (backoffCapMs r) (backoffMultiplier r) (jitterFraction r) (jitterSeed r) (messageRetentionMs r)
  (ackedRetentionMs r) (expiredRetentionMs r) (cleanupBatch r) z (retryBatchLimit r).
Definition set_retryBatchLimit z r := mkRetryConfig (ackTimeoutMs r) (backoffBaseMs r)
  (backoffCapMs r) (backoffMultiplier r) (jitterFraction r) (jitterSeed r) (messageRetentionMs r)
  (ackedRetentionMs r) (expiredRetentionMs r) (cleanupBatch r) (cleanupCycleMs r) z.

(** [uint32_t jitterSeed = 0; if (get(...)) out->reliable.jitterSeed = jitterSeed;]: a
    missing field assigns the local zero. *)
Definition getJitterSeed (o : Json) : load bool :=
  match jfield "jitter_seed" o with
  | None => assign (on_reliable (set_jitterSeed 0)) ;;; ret true
  | Some _ => getUint32Positive o "jitter_seed" (fun z => on_reliable (set_jitterSeed z)) "reliable."
  end.

Definition parseReliableSection (o : Json) : load bool :=
  _ <- checkKnownFields o
    ["ack_timeout_ms"; "backoff_base_ms"; "backoff_cap_ms"; "backoff_multiplier"; "jitter_fraction";
     "jitter_seed"; "message_retention_ms"; "acked_retention_ms"; "expired_retention_ms";
     "cleanup_batch"; "cleanup_cycle_ms"; "retry_batch_limit"] "reliable." ;;
  ok <- getInt64Positive o "ack_timeout_ms" (fun z => on_reliable (set_ackTimeoutMs z)) "reliable." ;;
  ok <- andThen ok (getInt64Positive o "backoff_base_ms"
          (fun z => on_reliable (set_backoffBaseMs z)) "reliable.") ;;
  ok <- andThen ok (getInt64Positive o "backoff_cap_ms"
          (fun z => on_reliable (set_backoffCapMs z)) "reliable.") ;;
  ok <- andThen ok (getInt64Positive o "backoff_multiplier"
          (fun z => on_reliable (set_backoffMultiplier z)) "reliable.") ;;
  ok <- andThen ok (getJitterFraction o "jitter_fraction"
          (fun q => on_reliable (set_jitterFraction q)) "reliable.") ;;
  ok <- andThen ok (getJitterSeed o) ;;
  ok <- andThen ok (getInt64Positive o "message_retention_ms"
          (fun z => on_reliable (set_messageRetentionMs z)) "reliable.") ;;
  ok <- andThen ok (getInt64Positive o "acked_retention_ms"
          (fun z => on_reliable (set_ackedRetentionMs z)) "reliable.") ;;
  ok <- andThen ok (getInt64Positive o "expired_retention_ms"
          (fun z => on_reliable (set_expiredRetentionMs z)) "reliable.") ;;
  ok <- andThen ok (getUint32Positive o "cleanup_batch"
          (fun z => on_reliable (set_cleanupBatch z)) "reliable.") ;;
  ok <- andThen ok (getInt64Positive o "cleanup_cycle_ms"
          (fun z => on_reliable (set_cleanupCycleMs z)) "reliable.") ;;
  andThen ok (getUint32Positive o "retry_batch_limit"
          (fun z => on_reliable (set_retryBatchLimit z)) "reliable.").

Definition parseOutboxSection (o : Json) : load bool :=
  _ <- checkKnownFields o ["claim_batch"; "scan_interval_ms"; "claim_lease_ms"] "outbox." ;;
  ok <- getUint32Positive o "claim_batch" (fun z => on_outbox (fun b =>
          mkOutboxConfig z (scanIntervalMs b) (claimLeaseMs b))) "outbox." ;;
  ok <- andThen ok (getInt64Positive o "scan_interval_ms" (fun z => on_outbox (fun b =>
          mkOutboxConfig (claimBatchSize b) z (claimLeaseMs b))) "outbox.") ;;
  andThen ok (getInt64Positive o "claim_lease_ms" (fun z => on_outbox (fun b =>
          mkOutboxConfig (claimBatchSize b) (scanIntervalMs b) z)) "outbox.").

(** [gateway.presence.db]: 0 to 15. *)
Definition getPresenceDb (p : Json) : load bool :=
  match jfield "db" p with
  | None => ret true
  | Some (JInt z) =>
      let v := i64 z in
      if (v <? 0) || (15 <? v) then fieldError "gateway.presence.db" "must be in [0,15]"
      else assign (on_presence (fun c => mkPresenceConfig (pr_host c) (pr_port c) v (pr_ttlMs c)
             (pr_connectTimeoutMs c) (pr_commandTimeoutMs c))) ;;; ret true
  | Some _ => fieldError "gateway.presence.db" "must be an integer"
  end.

Definition parsePresence (p : Json) : load bool :=
  _ <- checkKnownFields p ["host"; "port"; "db"; "ttl_ms"; "connect_timeout_ms"; "command_timeout_ms"]
         "gateway.presence." ;;
  ok <- getNonEmptyString p "host" (fun s => on_presence (fun c =>
          mkPresenceConfig s (pr_port c) (pr_db c) (pr_ttlMs c) (pr_connectTimeoutMs c)
            (pr_commandTimeoutMs c))) "gateway.presence." ;;
  ok <- andThen ok (getUint16 p "port" (fun z => on_presence (fun c =>
          mkPresenceConfig (pr_host c) z (pr_db c) (pr_ttlMs c) (pr_connectTimeoutMs c)
            (pr_commandTimeoutMs c))) "gateway.presence.") ;;
  ok <- andThen ok (getPresenceDb p) ;;
  ok <- andThen ok (getInt64Positive p "ttl_ms" (fun z => on_presence (fun c =>
          mkPresenceConfig (pr_host c) (pr_port c) (pr_db c) z (pr_connectTimeoutMs c)
            (pr_commandTimeoutMs c))) "gateway.presence.") ;;
  ok <- andThen ok (getInt64Positive p "connect_timeout_ms" (fun z => on_presence (fun c =>
          mkPresenceConfig (pr_host c) (pr_port c) (pr_db c) (pr_ttlMs c) z
            (pr_commandTimeoutMs c))) "gateway.presence.") ;;
  andThen ok (getInt64Positive p "command_timeout_ms" (fun z => on_presence (fun c =>
          mkPresenceConfig (pr_host c) (pr_port c) (pr_db c) (pr_ttlMs c) (pr_connectTimeoutMs c) z))
          "gateway.presence.").

Definition parseKafka (k : Json) : load bool :=
  _ <- checkKnownFields k ["host"; "port"] "gateway.kafka." ;;
  ok <- getNonEmptyString k "host" (fun s => on_kafka (fun c => mkKafka s (kf_port c))) "gateway.kafka." ;;
  andThen ok (getUint16 k "port" (fun z => on_kafka (fun c => mkKafka (kf_host c) z)) "gateway.kafka.").

Definition parseConsumer (o : Json) : load bool :=
  _ <- checkKnownFields o ["topic"; "group_id"; "fetch_batch_limit"; "poll_deadline_ms"]
         "gateway.consumer." ;;
  ok <- getNonEmptyString o "topic" (fun s => on_consumer (fun c =>
          mkConsumer s (cs_groupId c) (cs_fetchBatchLimit c) (cs_pollDeadlineMs c))) "gateway.consumer." ;;
  ok <- andThen ok (getNonEmptyString o "group_id" (fun s => on_consumer (fun c =>
          mkConsumer (cs_topic c) s (cs_fetchBatchLimit c) (cs_pollDeadlineMs c))) "gateway.consumer.") ;;
  ok <- andThen ok (getUint32Positive o "fetch_batch_limit" (fun z => on_consumer (fun c =>
          mkConsumer (cs_topic c) (cs_groupId c) z (cs_pollDeadlineMs c))) "gateway.consumer.") ;;
  andThen ok (getInt64Positive o "poll_deadline_ms" (fun z => on_consumer (fun c =>
          mkConsumer (cs_topic c) (cs_groupId c) (cs_fetchBatchLimit c) z)) "gateway.consumer.").

Definition parseGatewaySection (o : Json) : load bool :=
  _ <- checkKnownFields o ["id"; "presence"; "kafka"; "consumer"] "gateway." ;;
  ok <- getUint64Positive o "id" (fun z => on_gateway (fun g =>
          mkGateway z (gw_presence g) (gw_kafka g) (gw_consumer g))) "gateway." ;;
  ok <- andThen ok (subObject o "presence" "gateway.presence" parsePresence) ;;
  ok <- andThen ok (subObject o "kafka" "gateway.kafka" parseKafka) ;;
  andThen ok (subObject o "consumer" "gateway.consumer" parseConsumer).

Definition parseMetricsSection (o : Json) : load bool :=
  _ <- checkKnownFields o ["enabled"; "port"] "metrics." ;;
  ok <- getBool o "enabled" (fun b => on_metrics (fun m => mkMetricsConfig b (me_port m))) "metrics." ;;
  andThen ok (getUint16 o "port" (fun z => on_metrics (fun m => mkMetricsConfig (me_enabled m) z))
                "metrics.").

(** ** loadConfigFile *)

Definition parseRoot (root : Json) : load unit :=
  _ <- checkKnownFields root
         ["server"; "db"; "executor"; "reliable"; "outbox"; "gateway"; "metrics"] EmptyString ;;
  _ <- subObject root "server" "server" parseServerSection ;;
  _ <- subObject root "db" "db" parseDbSection ;;
  _ <- subObject root "executor" "executor" parseExecutorSection ;;
  _ <- subObject root "reliable" "reliable" parseReliableSection ;;
  _ <- subObject root "outbox" "outbox" parseOutboxSection ;;
  _ <- subObject root "gateway" "gateway" parseGatewaySection ;;
  _ <- subObject root "metrics" "metrics" parseMetricsSection ;;
  ret tt.

Definition errorText (path : string) (errors : list FieldError) : string :=
  foldl (fun msg e => msg +:+ " field '" +:+ fe_field e +:+ "' " +:+ fe_what e +:+ ";")%string
    ("config error: '" +:+ path +:+ "'")%string errors.

(** [content]: the file's text, [None] when it cannot be opened; [what]: the parser's
    message for a text it rejects.  The result is [*out] and, on failure, [*err]. *)
Definition loadConfigFile `{JsonLib} (what : string -> string) (path : string)
    (content : option string) (out : AppConfig) : AppConfig * option string :=
  match content with
  | None => (out, Some ("config error: cannot open config file '" +:+ path +:+ "'")%string)
  | Some text =>
      match json_parse text with
      | None => (out, Some ("config error: invalid json in '" +:+ path +:+ "': " +:+ what text)%string)
      | Some (JObj fs) =>
          let s := (parseRoot (JObj fs) (out, [])).1 in
          match s.2 with
          | [] => (s.1, None)
          | errors => (s.1, Some (errorText path errors))
          end
      | Some _ => (out, Some ("config error: invalid json in '" +:+ path +:+
                              "': root must be an object")%string)
      end
  end.

(** ** Overrides *)

Definition isSpace (c : ascii) : bool :=
  let n := Z.of_nat (nat_of_ascii c) in (n =? 32) || ((9 <=? n) && (n <=? 13)).

Definition digitOf (c : ascii) : option Z :=
  let n := Z.of_nat (nat_of_ascii c) in
  if (48 <=? n) && (n <=? 57) then Some (n - 48) else None.

Fixpoint skipSpaces (s : string) : string :=
  match s with
  | String c rest => if isSpace c then skipSpaces rest else s
  | EmptyString => EmptyString
  end.

(** The digits in front and what follows them. *)
Fixpoint scanDigits (acc : Z) (s : string) : Z * string :=
  match s with
  | String c rest => match digitOf c with
                     | Some d => scanDigits (acc * 10 + d) rest
                     | None => (acc, s)
                     end
  | EmptyString => (acc, EmptyString)
  end.

Definition clampI64 (z : Z) : Z := Z.max (- 2 ^ 63) (Z.min (2 ^ 63 - 1) z).

Definition startsWithDigit (s : string) : bool :=
  match s with
  | String c _ => match digitOf c with Some _ => true | None => false end
  | EmptyString => false
  end.

(** [strtoll(s, &end, 10)]: the value and the text at [end]; without digits nothing
    is consumed, out of range saturates. *)
Definition strtoll (s : string) : Z * string :=
  let t := skipSpaces s in
  let '(neg, u) := match t with
                   | String c rest =>
                       if bool_decide (c = "-"%char) then (true, rest)
                       else if bool_decide (c = "+"%char) then (false, rest) else (false, t)
                   | EmptyString => (false, t)
                   end in
  if startsWithDigit u
  then let '(v, rest) := scanDigits 0 u in (clampI64 (if neg then - v else v), rest)
  else (0, s).

(** [None] for a null pointer; the result is [*cfg] and, on failure, [*err]. *)
Definition applyThreads (threads : option string) (cfg : AppConfig) : AppConfig + string :=
  match threads with
  | None => inl cfg
  | Some t =>
      let '(v, rest) := strtoll t in
      if negb (bool_decide (rest = EmptyString)) || (v <? 1)
      then inr ("config error: threads '" +:+ t +:+ "' must be >= 1")%string
      else if 2147483647 <? v
      then inr ("config error: threads '" +:+ t +:+ "' must be <= 2147483647")%string
      else inl (on_v1 (fun e => mkEndpoint (ep_ip e) (ep_port e) v) cfg)
  end.

Definition applyCliOverrides (cfg : AppConfig) (ip port threads : option string)
    : AppConfig * option string :=
  match ip with
  | None | Some EmptyString => (cfg, Some "config error: ip must not be empty"%string)
  | Some ip =>
      match port with
      | None => (cfg, Some "config error: port is required"%string)
      | Some p =>
          let '(portValue, rest) := strtoll p in
          if negb (bool_decide (rest = EmptyString)) || (portValue <? 1) || (65535 <? portValue)
          then (cfg, Some ("config error: port '" +:+ p +:+ "' must be in [1,65535]")%string)
          else
            match applyThreads threads cfg with
            | inr e => (cfg, Some e)
            | inl cfg =>
                let cfg := on_v1 (fun e => mkEndpoint ip portValue (ep_threads e)) cfg in
                if ep_port (v2 cfg) =? ep_port (v1 cfg)
                then (cfg, Some "config error: server.v1.port must differ from server.v2.port"%string)
                else (on_v2 (fun e => mkEndpoint (ep_ip (v1 cfg)) (ep_port e) (ep_threads e)) cfg, None)
            end
      end
  end.

(** [getenv("DB_PASSWORD")] *)
Definition applyEnvOverrides (pwd : option string) (cfg : AppConfig) : AppConfig :=
  match pwd with
  | None => cfg
  | Some p => on_db (fun d => mkDb (db_host d) (db_port d) (db_user d) p (db_dbname d) (db_poolSize d)) cfg
  end.
