(* ===== verification/ConfigInv.v ===== *)
(** * What a loaded configuration satisfies

    Every configuration a load or an override accepts is within the documented
    ranges; a file that spells out a valid configuration loads to it. *)

From S2P Require Import Prelude DomainTypes Json World Relay Config.
From Stdlib Require Import QArith Qround.
From stdpp Require Import pretty.

Open Scope Z_scope.
Open Scope eff_scope.

(** ** Ranges *)

Definition isPort (z : Z) : Prop := 1 <= z <= 65535.
Definition isCount (z : Z) : Prop := 1 <= z <= 2147483647.
Definition isMillis (z : Z) : Prop := 1 <= z <= 2 ^ 63 - 1.
Definition isLimit (z : Z) : Prop := 1 <= z <= 4294967295.

(** [unseeded] says when the seed may be 0, which is below the documented range. *)
Definition retryValid (unseeded : Prop) (r : RetryConfig) : Prop :=
  isMillis (ackTimeoutMs r) /\ isMillis (backoffBaseMs r) /\ isMillis (backoffCapMs r) /\
  isMillis (backoffMultiplier r) /\ (0 <= jitterFraction r <= 1)%Q /\ (isLimit (jitterSeed r) \/ jitterSeed r = 0 /\ unseeded) /\
  isMillis (messageRetentionMs r) /\ isMillis (ackedRetentionMs r) /\ isMillis (expiredRetentionMs r) /\
  isLimit (cleanupBatch r) /\ isMillis (cleanupCycleMs r) /\ isLimit (retryBatchLimit r).

Definition outboxValid (o : OutboxConfig) : Prop :=
  isLimit (claimBatchSize o) /\ isMillis (scanIntervalMs o) /\ isMillis (claimLeaseMs o).

Definition presenceValid (p : PresenceConfig) : Prop :=
  pr_host p <> EmptyString /\ isPort (pr_port p) /\ 0 <= pr_db p <= 15 /\ isMillis (pr_ttlMs p) /\
  isMillis (pr_connectTimeoutMs p) /\ isMillis (pr_commandTimeoutMs p).

Definition gatewayValid (g : GatewayConfig) : Prop :=
  isMillis (gw_id g) /\ presenceValid (gw_presence g) /\
  (kf_host (gw_kafka g) <> EmptyString /\ isPort (kf_port (gw_kafka g))) /\
  (cs_topic (gw_consumer g) <> EmptyString /\ isLimit (cs_fetchBatchLimit (gw_consumer g)) /\
   isMillis (cs_pollDeadlineMs (gw_consumer g))).

(** Field by field. *)
Record fieldsValid (unseeded : Prop) (c : AppConfig) : Prop := {
  fv_v1 : ep_ip (v1 c) <> EmptyString /\ isPort (ep_port (v1 c)) /\ isCount (ep_threads (v1 c));
  fv_v2 : isPort (ep_port (v2 c));
  fv_db : db_host (db c) <> EmptyString /\ isPort (db_port (db c)) /\ db_user (db c) <> EmptyString /\
          db_dbname (db c) <> EmptyString /\ isCount (db_poolSize (db c));
  fv_executor : isCount (ex_workers (executor c)) /\ isCount (ex_queueCapacity (executor c));
  fv_reliable : retryValid unseeded (reliable c);
  fv_outbox : outboxValid (outbox c);
  fv_gateway : gatewayValid (gateway c);
  fv_metrics : isPort (me_port (metrics c));
}.

(** Across fields. *)
Definition portsDiffer (c : AppConfig) : Prop := ep_port (v1 c) <> ep_port (v2 c).
Definition workersBounded (c : AppConfig) : Prop := ex_workers (executor c) <= 8.

Definition validConfig (unseeded : Prop) (c : AppConfig) : Prop :=
  fieldsValid unseeded c /\ portsDiffer c /\ workersBounded c.

Lemma fieldsValid_weaken (P Q : Prop) c : (P -> Q) -> fieldsValid P c -> fieldsValid Q c.
Proof. intros H []. split; try done. unfold retryValid in *. tauto. Qed.

Lemma default_valid : validConfig False defaultAppConfig.
Proof.
  split; [|split; vm_compute; congruence].
  split; cbn; unfold retryValid, outboxValid, gatewayValid, presenceValid, isPort, isCount, isMillis, isLimit;
    cbn; repeat split; try (left; lia); try lia; try done.
Qed.

(** ** Getters keep what their assignments keep *)

Section getters.
Context (I : LoadState -> Prop).
Hypothesis I_err : forall c es e, I (c, es) -> I (c, es ++ [e]).

Lemma keeps_err f w : safe I (err f w).
Proof. apply keepsOr_modify. intros [c es] H. by apply I_err. Qed.

Lemma keeps_fieldError f w : safe I (fieldError f w).
Proof. apply keepsOr_bind; [apply keeps_err|]. intros _. apply keepsOr_ret. Qed.

Lemma keeps_assign f : (forall c es, I (c, es) -> I (f c, es)) -> safe I (assign f).
Proof. intros H. apply keepsOr_modify. intros [c es]. apply H. Qed.

Lemma keeps_assignTrue f : (forall c es, I (c, es) -> I (f c, es)) -> safe I (assign f ;;; ret true).
Proof. intros H. apply keepsOr_bind; [by apply keeps_assign|]. intros _. apply keepsOr_ret. Qed.

Lemma keeps_getInteger lo hi r obj key out path :
  (forall z c es, lo <= z <= hi -> I (c, es) -> I (out z c, es)) ->
  safe I (getInteger lo hi r obj key out path).
Proof.
  intros H. unfold getInteger. destruct (jfield key obj) as [[]|];
    try apply keeps_fieldError; [|apply keepsOr_ret]. cbv zeta.
  destruct (_ || _) eqn:Hb; [apply keeps_fieldError|]. apply keeps_assignTrue. intros c es. apply H. lia.
Qed.

Lemma keeps_getJitterFraction obj key out path :
  (forall q c es, (0 <= q <= 1)%Q -> I (c, es) -> I (out q c, es)) ->
  safe I (getJitterFraction obj key out path).
Proof.
  intros H. unfold getJitterFraction. destruct (jfield key obj); [|apply keepsOr_ret].
  destruct (numberOf _); [|apply keeps_fieldError]. destruct (_ || _) eqn:Hb; [apply keeps_fieldError|].
  apply keeps_assignTrue. intros c es. apply H. apply orb_false_iff in Hb as [H1 H2].
  apply negb_false_iff, Qle_bool_iff in H1, H2. done.
Qed.

Lemma keeps_getNonEmptyString obj key out path :
  (forall s c es, s <> EmptyString -> I (c, es) -> I (out s c, es)) ->
  safe I (getNonEmptyString obj key out path).
Proof.
  intros H. unfold getNonEmptyString. destruct (jfield key obj) as [[]|];
    try apply keeps_fieldError; [|apply keepsOr_ret].
  destruct (bool_decide _) eqn:Hb; [apply keeps_fieldError|]. apply keeps_assignTrue.
  intros c es. apply H. by apply bool_decide_eq_false in Hb.
Qed.

Lemma keeps_getBool obj key out path :
  (forall b c es, I (c, es) -> I (out b c, es)) -> safe I (getBool obj key out path).
Proof.
  intros H. unfold getBool. destruct (jfield key obj) as [[]|];
    try apply keeps_fieldError; [|apply keepsOr_ret]. apply keeps_assignTrue. apply H.
Qed.

Lemma keeps_checkKeys keys known path ok : safe I (checkKeys keys known path ok).
Proof.
  revert ok. induction keys as [|k keys IH]; intros ok; cbn [checkKeys]; [apply keepsOr_ret|].
  destruct (existsb _ _); [apply IH|]. apply keepsOr_bind; [apply keeps_err|]. intros _. apply IH.
Qed.

Lemma keeps_andThen ok m : safe I m -> safe I (andThen ok m).
Proof. intros H. apply keepsOr_bind; [exact H|]. intros b. apply keepsOr_ret. Qed.

Lemma keeps_subObject obj key f k :
  (forall o, jfield key obj = Some o -> safe I (k o)) -> safe I (subObject obj key f k).
Proof.
  intros H. unfold subObject. destruct (jfield key obj) as [[]|] eqn:E;
    try apply keeps_fieldError; [by apply H|apply keepsOr_ret].
Qed.
End getters.

(** ** The sections *)

(** Every field in range (a zero seed only when [unseeded]); without errors so far also the conditions across fields
    that [ports] and [workers] select. *)
Definition loadInv (unseeded : Prop) (ports workers : bool) (s : LoadState) : Prop :=
  fieldsValid unseeded s.1 /\
  (s.2 = [] -> (ports = true -> portsDiffer s.1) /\ (workers = true -> workersBounded s.1)).

Section keeps.
Context (unseeded : Prop).

Lemma loadInv_err a b c es e : loadInv unseeded a b (c, es) -> loadInv unseeded a b (c, es ++ [e]).
Proof. intros [H _]. split; [exact H|]. cbn. by destruct es. Qed.

(** Fields the cross-field conditions do not mention. *)
Lemma loadInv_field a b f c es :
  (fieldsValid unseeded c -> fieldsValid unseeded (f c)) ->
  ep_port (v1 (f c)) = ep_port (v1 c) -> ep_port (v2 (f c)) = ep_port (v2 c) ->
  ex_workers (executor (f c)) = ex_workers (executor c) ->
  loadInv unseeded a b (c, es) -> loadInv unseeded a b (f c, es).
Proof.
  unfold loadInv, portsDiffer, workersBounded. cbn [fst snd]. intros Hf -> -> -> [H1 H2]. auto.
Qed.

(** One member changed: the others are kept, the changed record is rebuilt. *)
Ltac field_valid :=
  intros [Hv1 Hv2 Hdb Hex Hre Hou Hga Hme]; split; try assumption; cbn;
  unfold retryValid, outboxValid, gatewayValid, presenceValid, isPort, isCount, isMillis, isLimit in *;
  repeat match goal with H : _ /\ _ |- _ => destruct H end; repeat split; cbn;
  (done || lia || (left; lia) || (right; split; auto)).

Ltac load_step :=
  lazymatch goal with
  | |- safe _ (bind _ _) => apply keepsOr_bind; [|intros ?]
  | |- safe _ (ret _) => apply keepsOr_ret
  | |- safe _ (gets _) => apply keepsOr_gets
  | |- keepsOr _ _ (bind _ _) => apply keepsOr_bind; [|intros ?]
  | |- keepsOr _ _ (ret _) => apply keepsOr_ret
  | |- keepsOr ?I _ ?m => change (safe I m)
  | |- safe _ (andThen _ _) => apply keeps_andThen
  | |- safe _ (subObject _ _ _ _) => apply keeps_subObject; [apply loadInv_err|intros ? ?]
  | |- safe _ (checkKnownFields _ _ _) => apply keeps_checkKeys, loadInv_err
  | |- safe _ (getUint16 _ _ _ _) => apply keeps_getInteger; [apply loadInv_err|intros ???? ]
  | |- safe _ (getIntMin1 _ _ _ _) => apply keeps_getInteger; [apply loadInv_err|intros ????]
  | |- safe _ (getInt64Positive _ _ _ _) => apply keeps_getInteger; [apply loadInv_err|intros ????]
  | |- safe _ (getUint32Positive _ _ _ _) => apply keeps_getInteger; [apply loadInv_err|intros ????]
  | |- safe _ (getUint64Positive _ _ _ _) => apply keeps_getInteger; [apply loadInv_err|intros ????]
  | |- safe _ (getJitterFraction _ _ _ _) => apply keeps_getJitterFraction; [apply loadInv_err|intros ????]
  | |- safe _ (getNonEmptyString _ _ _ _) => apply keeps_getNonEmptyString; [apply loadInv_err|intros ????]
  | |- safe _ (getBool _ _ _ _) => apply keeps_getBool; [apply loadInv_err|intros ???]
  | |- safe _ (fieldError _ _) => apply keeps_fieldError, loadInv_err
  | |- safe _ (assign _) => apply keeps_assign; intros ??
  end.

Lemma db_keeps a b o : safe (loadInv unseeded a b) (parseDbSection o).
Proof.
  unfold parseDbSection. repeat load_step; try (apply loadInv_field; [field_valid|done|done|done]).
  unfold getPassword. destruct (jfield _ o) as [[]|]; repeat load_step.
  apply loadInv_field; [field_valid|done|done|done].
Qed.

Ltac load_tac := repeat load_step; try (apply loadInv_field; [field_valid|done|done|done]).

Lemma reliable_keeps a b o : (jfield "jitter_seed" o = None -> unseeded) -> safe (loadInv unseeded a b) (parseReliableSection o).
Proof.
  intros Hseed. unfold parseReliableSection. load_tac.
  unfold getJitterSeed. destruct (jfield _ o) eqn:E; load_tac.
Qed.

Lemma outbox_keeps a b o : safe (loadInv unseeded a b) (parseOutboxSection o).
Proof. unfold parseOutboxSection. load_tac. Qed.

Lemma presence_keeps a b o : safe (loadInv unseeded a b) (parsePresence o).
Proof.
  unfold parsePresence. load_tac. unfold getPresenceDb. destruct (jfield _ o) as [[]|]; load_tac.
  cbv zeta. destruct (_ || _) eqn:Hb; load_tac.
Qed.

Lemma gateway_keeps a b o : safe (loadInv unseeded a b) (parseGatewaySection o).
Proof.
  unfold parseGatewaySection. load_tac; [apply presence_keeps|unfold parseKafka; load_tac|
    unfold parseConsumer; load_tac].
Qed.

Lemma metrics_keeps a b o : safe (loadInv unseeded a b) (parseMetricsSection o).
Proof. unfold parseMetricsSection. load_tac. Qed.

Lemma loadInv_weaken a b a' b' s :
  loadInv unseeded a b s -> (a' = true -> a = true) -> (b' = true -> b = true) -> loadInv unseeded a' b' s.
Proof. intros [H1 H2] Ha Hb. split; [done|]. intros He. destruct (H2 He). auto. Qed.

(** Fields that only one of the cross-field conditions mentions. *)
Lemma loadInv_executor a f c es :
  (fieldsValid unseeded c -> fieldsValid unseeded (f c)) ->
  ep_port (v1 (f c)) = ep_port (v1 c) -> ep_port (v2 (f c)) = ep_port (v2 c) ->
  loadInv unseeded a false (c, es) -> loadInv unseeded a false (f c, es).
Proof.
  unfold loadInv, portsDiffer, workersBounded. cbn [fst snd]. intros Hf -> -> [H1 H2].
  split; [auto|]. intros He. destruct (H2 He). split; (done || auto).
Qed.

Lemma loadInv_server b f c es :
  (fieldsValid unseeded c -> fieldsValid unseeded (f c)) -> ex_workers (executor (f c)) = ex_workers (executor c) ->
  loadInv unseeded false b (c, es) -> loadInv unseeded false b (f c, es).
Proof.
  unfold loadInv, portsDiffer, workersBounded. cbn [fst snd]. intros Hf -> [H1 H2].
  split; [auto|]. intros He. destruct (H2 He). split; (done || auto).
Qed.

(** A getter that answers false has reported an error. *)
Definition reports (es : list FieldError) (ok : bool) (s : LoadState) : Prop :=
  (es <> [] -> s.2 <> []) /\ (ok = false -> s.2 <> []).

Lemma getInteger_reports lo hi r obj key out path (s : LoadState) :
  wp (getInteger lo hi r obj key out path) (reports s.2) (fun _ _ => False) s.
Proof.
  destruct s as [c es]. unfold getInteger, fieldError, err, assign, reports. cbn [fst snd].
  destruct (jfield key obj) as [[]|]; cbv zeta; try destruct (_ || _);
    unfold wp, bind, modify, ret; cbn; by destruct es.
Qed.

Lemma getIntMin1_spec I o key out path (w : LoadState) :
  (forall c es e, I (c, es) -> I (c, es ++ [e])) -> I w ->
  (forall z c es, 1 <= z <= 2147483647 -> I (c, es) -> I (out z c, es)) ->
  wp (getIntMin1 o key out path) (fun ok w' => I w' /\ reports w.2 ok w') (fun _ _ => False) w.
Proof.
  intros Herr Hw Hout. eapply wp_mono; [apply wp_and; [|apply getInteger_reports]| |].
  - by apply (keeps_getInteger I).
  - done.
  - cbv beta. tauto.
Qed.

(** An error settles the cross-field conditions. *)
Lemma fieldError_inv a b a' b' f w s :
  loadInv unseeded a b s -> wp (fieldError f w) (fun _ => loadInv unseeded a' b') (fun _ _ => False) s.
Proof.
  destruct s as [c es]. intros [H _]. unfold wp, fieldError, err, bind, modify, ret.
  split; [exact H|]. cbn. by destruct es.
Qed.

Lemma executor_keeps a o : safe (loadInv unseeded a true) (parseExecutorSection o).
Proof.
  intros s Hs. apply (loadInv_weaken a true a false) in Hs; [|done|done].
  unfold parseExecutorSection. apply wp_bind.
  eapply wp_mono; [apply (keeps_checkKeys (loadInv unseeded a false)); [apply loadInv_err|exact Hs]| |done].
  intros ok0 s1 H1. apply wp_bind.
  eapply wp_mono; [apply (getIntMin1_spec (loadInv unseeded a false)); [apply loadInv_err|exact H1|]| |done].
  { intros z c es Hz. apply loadInv_executor; [field_valid|done|done]. }
  intros ok1 s2 [H2 [_ R2]]. apply wp_bind, wp_bind.
  eapply wp_mono; [apply (getIntMin1_spec (loadInv unseeded a false)); [apply loadInv_err|exact H2|]| |done].
  { intros z c es Hz. apply loadInv_executor; [field_valid|done|done]. }
  intros ok2 s3 [H3 [M3 R3]]. apply wp_ret, wp_bind, wp_gets.
  destruct (Z.ltb_spec 8 (ex_workers (executor s3.1))) as [Hb|Hb].
  - destruct (ok2 && ok1) eqn:Hok; cbn [andb]; [exact (fieldError_inv _ _ _ _ _ _ _ H3)|]. apply wp_ret.
    destruct H3 as [H3 _]. split; [done|]. intros He. exfalso.
    apply andb_false_iff in Hok as [->| ->]; [by apply R3|by apply (M3 (R2 eq_refl))].
  - rewrite andb_false_r. apply wp_ret. destruct H3 as [H3 H4]. split; [done|]. intros He.
    destruct (H4 He). auto.
Qed.

Lemma endpoint_keeps b o :
  safe (loadInv unseeded false b) (
    _ <- checkKnownFields o ["ip"; "port"; "threads"] "server.v1." ;;
    _ <- getNonEmptyString o "ip"
           (fun s => on_v1 (fun e => mkEndpoint s (ep_port e) (ep_threads e))) "server.v1." ;;
    _ <- getUint16 o "port" (fun z => on_v1 (fun e => mkEndpoint (ep_ip e) z (ep_threads e)))
           "server.v1." ;;
    _ <- getIntMin1 o "threads" (fun z => on_v1 (fun e => mkEndpoint (ep_ip e) (ep_port e) z))
           "server.v1." ;;
    ret true).
Proof. repeat load_step; apply loadInv_server; (done || field_valid). Qed.

Lemma server_keeps b o : safe (loadInv unseeded true b) (parseServerSection o).
Proof.
  intros s Hs. unfold parseServerSection. apply wp_bind.
  eapply wp_mono; [apply (keeps_checkKeys (loadInv unseeded true b)); [apply loadInv_err|exact Hs]| |done].
  intros ok0 s1 H1. unfold contains. destruct (jfield "v1" o) eqn:E1; [|destruct (jfield "v2" o) eqn:E2].
  3: { unfold subObject. rewrite E1, E2. cbn. by repeat (apply wp_bind, wp_ret). }
  all: apply (loadInv_weaken true b false b) in H1; [|done|done].
  all: apply wp_bind; eapply wp_mono; [eapply (keeps_subObject (loadInv unseeded false b));
         [apply loadInv_err|intros ? _; apply endpoint_keeps|exact H1]| |done].
  all: intros ok1 s2 H2; apply wp_bind; eapply wp_mono; [eapply (keeps_subObject (loadInv unseeded false b));
         [apply loadInv_err| |exact H2]| |done].
  1, 3: intros o2 _; repeat load_step; apply loadInv_server; [field_valid|done].
  all: intros ok2 s3 H3; cbn [orb]; apply wp_bind, wp_gets;
    destruct (Z.eqb_spec (ep_port (v1 s3.1)) (ep_port (v2 s3.1))); [exact (fieldError_inv _ _ _ _ _ _ _ H3)|].
  all: apply wp_ret; destruct H3 as [H3 H4]; split; [done|]; intros He; destruct (H4 He); auto.
Qed.

Lemma root_keeps root :
  (forall o, jfield "reliable" root = Some o -> jfield "jitter_seed" o = None -> unseeded) ->
  safe (loadInv unseeded true true) (parseRoot root).
Proof.
  intros Hseed. unfold parseRoot. repeat load_step; eauto using server_keeps, db_keeps, executor_keeps, reliable_keeps,
    outbox_keeps, gateway_keeps, metrics_keeps.
Qed.

Lemma threads_valid threads cfg cfg' :
  fieldsValid unseeded cfg -> workersBounded cfg -> applyThreads threads cfg = inl cfg' ->
  fieldsValid unseeded cfg' /\ workersBounded cfg'.
Proof.
  intros Hf Hw. unfold applyThreads. destruct threads as [t|]; [|by intros [= <-]].
  destruct (strtoll t) as [v rest]. destruct (_ || _) eqn:Hb; [done|].
  destruct (Z.ltb_spec 2147483647 v); [done|]. intros [= <-]. split; [|done].
  apply orb_false_iff in Hb as [_ Hv]. revert Hf. field_valid.
Qed.

Lemma cli_valid cfg ip port threads cfg' :
  validConfig unseeded cfg -> applyCliOverrides cfg ip port threads = (cfg', None) -> validConfig unseeded cfg'.
Proof.
  intros (Hf & _ & Hw). unfold applyCliOverrides. destruct ip as [[|c ip]|]; [done| |done].
  destruct port as [p|]; [|done]. destruct (strtoll p) as [pv rest].
  destruct (_ || _) eqn:Hb; [done|]. destruct (applyThreads threads cfg) as [cfg1|] eqn:Ht; [|done].
  destruct (threads_valid _ _ _ Hf Hw Ht) as [Hf1 Hw1].
  destruct (Z.eqb_spec (ep_port (v2 (on_v1 (fun e => mkEndpoint (String c ip) pv (ep_threads e)) cfg1)))
    (ep_port (v1 (on_v1 (fun e => mkEndpoint (String c ip) pv (ep_threads e)) cfg1)))) as [|Hne]; [done|].
  intros [= <-]. split; [|split; [by intros ?; apply Hne|exact Hw1]].
  apply orb_false_iff in Hb as [[_ H1]%orb_false_iff H2]. revert Hf1. field_valid.
Qed.
End keeps.

(** The file has a "reliable" section without a seed. *)
Definition seedOmitted `{JsonLib} (content : option string) : Prop :=
  exists text root o, content = Some text /\ json_parse text = Some root /\
    jfield "reliable" root = Some o /\ jfield "jitter_seed" o = None.

(** C40: Whatever the file holds, a configuration that loads is within the documented
    ranges, with one exception: starting from valid values, as the built-in defaults
    are, [loadConfigFile] succeeds only with ports in 1..65535 and different for the
    two servers, at most 8 workers, positive timeouts and limits of their widths, a
    jitter fraction in [0,1], a jitter seed in 1..4294967295 and no empty host, user,
    database or topic name; the
    seed is 0 only when the file has a "reliable" section without a "jitter_seed".
    The command-line overrides keep all that when they succeed. *)
Theorem loaded_config_is_valid `{JsonLib} what path content cfg cfg' :
  validConfig False cfg -> loadConfigFile what path content cfg = (cfg', None) ->
  validConfig False defaultAppConfig /\
  validConfig (seedOmitted content) cfg' /\
  forall ip port threads cfg'', applyCliOverrides cfg' ip port threads = (cfg'', None) ->
    validConfig (seedOmitted content) cfg''.
Proof.
  intros Hv Hload. split; [apply default_valid|].
  assert (validConfig (seedOmitted content) cfg') as Hv'; [|split; [done|]].
  - unfold loadConfigFile in Hload. destruct content as [text|]; [|done].
    destruct (json_parse text) as [[| | | | | |fields]|] eqn:Hp; try done.
    assert (loadInv (seedOmitted (Some text)) true true (cfg, [])) as Hs.
    { destruct Hv as [? [? ?]]. split; [|done]. by eapply (fieldsValid_weaken False). }
    pose proof (root_keeps (seedOmitted (Some text)) (JObj fields)
      ltac:(intros o H1 H2; by exists text, (JObj fields), o) _ Hs) as Hw. unfold wp in Hw.
    destruct (parseRoot (JObj fields) (cfg, [])) as [[c' es] [u|]]; [|done]. cbn [fst snd] in Hload.
    destruct es; [|done]. injection Hload as <-. destruct Hw as [H1 H2]. destruct (H2 eq_refl). by split; auto.
  - intros ip port threads cfg'' Hcli. by eapply cli_valid.
Qed.

(** ** A file that spells out a configuration *)

Definition renderRetry (r : RetryConfig) : Json := JObj
  [("ack_timeout_ms", JInt (ackTimeoutMs r)); ("acked_retention_ms", JInt (ackedRetentionMs r));
   ("backoff_base_ms", JInt (backoffBaseMs r)); ("backoff_cap_ms", JInt (backoffCapMs r));
   ("backoff_multiplier", JInt (backoffMultiplier r)); ("cleanup_batch", JInt (cleanupBatch r));
   ("cleanup_cycle_ms", JInt (cleanupCycleMs r)); ("expired_retention_ms", JInt (expiredRetentionMs r));
   ("jitter_fraction", JFloat (jitterFraction r)); ("jitter_seed", JInt (jitterSeed r));
   ("message_retention_ms", JInt (messageRetentionMs r)); ("retry_batch_limit", JInt (retryBatchLimit r))]%string.

Definition renderGateway (g : GatewayConfig) : Json :=
  let c := gw_consumer g in let p := gw_presence g in JObj
  [("consumer", JObj [("fetch_batch_limit", JInt (cs_fetchBatchLimit c)); ("group_id", JStr (cs_groupId c));
      ("poll_deadline_ms", JInt (cs_pollDeadlineMs c)); ("topic", JStr (cs_topic c))]);
   ("id", JInt (gw_id g));
   ("kafka", JObj [("host", JStr (kf_host (gw_kafka g))); ("port", JInt (kf_port (gw_kafka g)))]);
   ("presence", JObj [("command_timeout_ms", JInt (pr_commandTimeoutMs p));
      ("connect_timeout_ms", JInt (pr_connectTimeoutMs p)); ("db", JInt (pr_db p));
      ("host", JStr (pr_host p)); ("port", JInt (pr_port p)); ("ttl_ms", JInt (pr_ttlMs p))])]%string.

Definition renderConfig (c : AppConfig) : Json := JObj
  [("db", JObj [("dbname", JStr (db_dbname (db c))); ("host", JStr (db_host (db c)));
      ("password", JStr (db_password (db c))); ("pool_size", JInt (db_poolSize (db c)));
      ("port", JInt (db_port (db c))); ("user", JStr (db_user (db c)))]);
   ("executor", JObj [("queue_capacity", JInt (ex_queueCapacity (executor c)));
      ("workers", JInt (ex_workers (executor c)))]);
   ("gateway", renderGateway (gateway c));
   ("metrics", JObj [("enabled", JBool (me_enabled (metrics c))); ("port", JInt (me_port (metrics c)))]);
   ("outbox", JObj [("claim_batch", JInt (claimBatchSize (outbox c)));
      ("claim_lease_ms", JInt (claimLeaseMs (outbox c)));
      ("scan_interval_ms", JInt (scanIntervalMs (outbox c)))]);
   ("reliable", renderRetry (reliable c));
   ("server", JObj [("v1", JObj [("ip", JStr (ep_ip (v1 c))); ("port", JInt (ep_port (v1 c)));
                                 ("threads", JInt (ep_threads (v1 c)))]);
                    ("v2", JObj [("port", JInt (ep_port (v2 c)))])])]%string.

(** Running a getter on a field that is present and in range. *)
Section runs.
Context (s : LoadState) (obj : Json) (key path : string).

Lemma run_getInteger lo hi r out z :
  jfield key obj = Some (JInt z) -> lo <= z <= hi -> isI64 z ->
  getInteger lo hi r obj key out path s = ((out z s.1, s.2), Ret true).
Proof.
  intros Hj Hz Hi. unfold getInteger. rewrite Hj. cbv zeta. rewrite i64_small by done.
  destruct (Z.ltb_spec z lo); [lia|]. destruct (Z.ltb_spec hi z); [lia|]. done.
Qed.

Lemma run_getNonEmptyString out v :
  jfield key obj = Some (JStr v) -> v <> EmptyString ->
  getNonEmptyString obj key out path s = ((out v s.1, s.2), Ret true).
Proof. intros Hj Hv. unfold getNonEmptyString. rewrite Hj. by rewrite bool_decide_false. Qed.

Lemma run_getJitterFraction out q :
  jfield key obj = Some (JFloat q) -> (0 <= q <= 1)%Q ->
  getJitterFraction obj key out path s = ((out q s.1, s.2), Ret true).
Proof.
  intros Hj [H1 H2]. unfold getJitterFraction. rewrite Hj. cbn [numberOf].
  apply Qle_bool_iff in H1, H2. by rewrite H1, H2.
Qed.

(** All keys known: no change. *)
Lemma run_checkKnownFields known :
  forallb (fun k => existsb (String.eqb k) known) (objFields obj).*1 = true ->
  checkKnownFields obj known path s = (s, Ret true).
Proof.
  unfold checkKnownFields. generalize true at 2 3 as ok. revert s. induction (objFields obj).*1 as [|k ks IH];
    intros s' ok; [done|]. cbn [forallb checkKeys]. intros [H1 H2]%andb_true_iff. rewrite H1. by apply IH.
Qed.
End runs.

Lemma run_bind {A B} (m : eff exn LoadState A) (f : A -> eff exn LoadState B) s s' a :
  m s = (s', Ret a) -> bind m f s = f a s'.
Proof. intros H. unfold bind. by rewrite H. Qed.

Lemma run_andThen ok m s s' : m s = (s', Ret true) -> andThen ok m s = (s', Ret ok).
Proof. intros H. unfold andThen. by rewrite (run_bind _ _ _ _ _ H). Qed.

Lemma run_getJitterSeed obj z s :
  jfield "jitter_seed" obj = Some (JInt z) -> isLimit z ->
  getJitterSeed obj s = ((on_reliable (set_jitterSeed z) s.1, s.2), Ret true).
Proof.
  intros Hj Hz. unfold getJitterSeed. rewrite Hj. unfold isLimit in Hz.
  apply (run_getInteger s obj _ _ _ _ _ (fun z => on_reliable (set_jitterSeed z)));
    [done|lia|unfold isI64; lia].
Qed.

Lemma run_getPresenceDb obj z s :
  jfield "db" obj = Some (JInt z) -> 0 <= z <= 15 ->
  getPresenceDb obj s = ((on_presence (fun c => mkPresenceConfig (pr_host c) (pr_port c) z (pr_ttlMs c)
    (pr_connectTimeoutMs c) (pr_commandTimeoutMs c)) s.1, s.2), Ret true).
Proof.
  intros Hj Hz. unfold getPresenceDb. rewrite Hj. cbv zeta. rewrite i64_small by (split; lia).
  destruct (Z.ltb_spec z 0); [lia|]. destruct (Z.ltb_spec 15 z); [lia|]. done.
Qed.

Lemma run_subObject obj key f k fs s r :
  jfield key obj = Some (JObj fs) -> k (JObj fs) s = r -> subObject obj key f k s = r.
Proof. intros Hj <-. unfold subObject. by rewrite Hj. Qed.

Lemma run_getPassword obj v s :
  jfield "password" obj = Some (JStr v) ->
  getPassword obj s = ((on_db (fun d => mkDb (db_host d) (db_port d) (db_user d) v (db_dbname d)
    (db_poolSize d)) s.1, s.2), Ret true).
Proof. intros Hj. unfold getPassword. by rewrite Hj. Qed.

Lemma run_getBool obj key out path b s :
  jfield key obj = Some (JBool b) -> getBool obj key out path s = ((out b s.1, s.2), Ret true).
Proof. intros Hj. unfold getBool. by rewrite Hj. Qed.

Ltac in_range := unfold isPort, isCount, isMillis, isLimit, isI64 in *; lia.
Ltac run_getter :=
  first [ apply run_checkKnownFields; reflexivity
        | eapply run_getInteger; [reflexivity|in_range|in_range]
        | eapply run_getNonEmptyString; [reflexivity|assumption]
        | eapply run_getJitterFraction; [reflexivity|assumption]
        | eapply run_getJitterSeed; [reflexivity|in_range]
        | eapply run_getPresenceDb; [reflexivity|assumption]
        | apply run_getPassword; reflexivity
        | apply run_getBool; reflexivity ].
Ltac run_section :=
  repeat (erewrite run_bind; [|first [run_getter | eapply run_andThen; run_getter]]);
  try (erewrite run_andThen; [|run_getter]).

Lemma run_reliable r c es :
  retryValid False r ->
  parseReliableSection (renderRetry r) (c, es) = ((on_reliable (fun _ => r) c, es), Ret true).
Proof.
  intros (?&?&?&?&?&[?|[_ []]]&?&?&?&?&?&?). unfold parseReliableSection. run_section. by destruct r.
Qed.

Lemma run_gateway g c es :
  gatewayValid g -> cs_groupId (gw_consumer g) <> EmptyString ->
  parseGatewaySection (renderGateway g) (c, es) = ((on_gateway (fun _ => g) c, es), Ret true).
Proof.
  intros (?&(?&?&?&?&?&?)&[? ?]&(?&?&?)) Hs. unfold parseGatewaySection. run_section.
  erewrite run_bind; [|eapply run_andThen, run_subObject; [reflexivity|unfold parsePresence; run_section; reflexivity]].
  erewrite run_bind; [|eapply run_andThen, run_subObject; [reflexivity|unfold parseKafka; run_section; reflexivity]].
  erewrite run_andThen; [|eapply run_subObject; [reflexivity|unfold parseConsumer; run_section; reflexivity]].
  by destruct g as [? [] [] []].
Qed.

Definition renderEndpoint (e : ServerEndpointConfig) : Json := JObj
  [("ip", JStr (ep_ip e)); ("port", JInt (ep_port e)); ("threads", JInt (ep_threads e))]%string.

Lemma run_server e1 e2 c es :
  ep_ip e1 <> EmptyString -> isPort (ep_port e1) -> isCount (ep_threads e1) -> isPort (ep_port e2) ->
  ep_port e1 <> ep_port e2 ->
  parseServerSection (JObj [("v1", renderEndpoint e1); ("v2", JObj [("port", JInt (ep_port e2))])])%string
    (c, es) =
  ((on_v2 (fun e => mkEndpoint (ep_ip e) (ep_port e2) (ep_threads e)) (on_v1 (fun _ => e1) c), es), Ret true).
Proof.
  intros ? ? ? ? Hp. unfold parseServerSection. run_section.
  erewrite run_bind; [|eapply run_subObject; [reflexivity|run_section; reflexivity]].
  erewrite run_bind; [|eapply run_subObject; [reflexivity|run_section; reflexivity]].
  apply Z.eqb_neq in Hp.
  transitivity (if ep_port e1 =? ep_port e2
    then fieldError "server.v1.port" "must differ from server.v2.port"
      (on_v2 (fun e => mkEndpoint (ep_ip e) (ep_port e2) (ep_threads e)) (on_v1 (fun _ => e1) c), es)
    else (on_v2 (fun e => mkEndpoint (ep_ip e) (ep_port e2) (ep_threads e)) (on_v1 (fun _ => e1) c), es, Ret true)).
  - replace (contains _ "v1") with true by reflexivity. unfold bind, gets, ret. destruct e1.
    cbn -[Z.eqb fieldError]. by destruct (_ =? _).
  - by rewrite Hp.
Qed.

Lemma run_db x c es :
  db_host x <> EmptyString -> isPort (db_port x) -> db_user x <> EmptyString ->
  db_dbname x <> EmptyString -> isCount (db_poolSize x) ->
  parseDbSection (JObj [("dbname", JStr (db_dbname x)); ("host", JStr (db_host x));
    ("password", JStr (db_password x)); ("pool_size", JInt (db_poolSize x));
    ("port", JInt (db_port x)); ("user", JStr (db_user x))])%string (c, es) =
  ((on_db (fun _ => x) c, es), Ret true).
Proof. intros. unfold parseDbSection. run_section. by destruct x. Qed.

Lemma run_executor x c es :
  isCount (ex_workers x) -> isCount (ex_queueCapacity x) -> ex_workers x <= 8 ->
  parseExecutorSection (JObj [("queue_capacity", JInt (ex_queueCapacity x));
    ("workers", JInt (ex_workers x))])%string (c, es) = ((on_executor (fun _ => x) c, es), Ret true).
Proof.
  intros ? ? Hw. unfold parseExecutorSection. run_section. unfold bind, gets. cbn -[Z.ltb].
  destruct (Z.ltb_spec 8 (ex_workers x)); [lia|]. by destruct x.
Qed.

Lemma run_outbox x c es :
  outboxValid x ->
  parseOutboxSection (JObj [("claim_batch", JInt (claimBatchSize x)); ("claim_lease_ms", JInt (claimLeaseMs x));
    ("scan_interval_ms", JInt (scanIntervalMs x))])%string (c, es) = ((on_outbox (fun _ => x) c, es), Ret true).
Proof. intros (?&?&?). unfold parseOutboxSection. run_section. by destruct x. Qed.

Lemma run_metrics x c es :
  isPort (me_port x) ->
  parseMetricsSection (JObj [("enabled", JBool (me_enabled x)); ("port", JInt (me_port x))])%string (c, es) =
  ((on_metrics (fun _ => x) c, es), Ret true).
Proof. intros. unfold parseMetricsSection. run_section. by destruct x. Qed.

(** A file that spells out a valid configuration (with an explicit consumer group
    and jitter seed) loads to exactly that configuration, whatever the values were
    before; only the second server's address and threads, which no field sets,
    keep theirs. *)
Theorem rendered_config_loads `{JsonLib} what path text c d :
  validConfig False c -> cs_groupId (gw_consumer (gateway c)) <> EmptyString ->
  json_parse text = Some (renderConfig c) ->
  loadConfigFile what path (Some text) d =
  (on_v2 (fun e => mkEndpoint (ep_ip (v2 d)) (ep_port e) (ep_threads (v2 d))) c, None).
Proof.
  intros [[(?&?&?) ? (?&?&?&?&?) [? ?] Hr Ho Hg ?] [Hp Hw]] Hgroup Hparse.
  unfold loadConfigFile. rewrite Hparse. unfold renderConfig, parseRoot. run_section.
  erewrite run_bind; [|eapply run_subObject; [reflexivity|by apply (run_server (v1 c) (v2 c))]].
  erewrite run_bind; [|eapply run_subObject; [reflexivity|by apply (run_db (db c))]].
  erewrite run_bind; [|eapply run_subObject; [reflexivity|by apply (run_executor (executor c))]].
  erewrite run_bind; [|eapply run_subObject; [reflexivity|by apply run_reliable]].
  erewrite run_bind; [|eapply run_subObject; [reflexivity|by apply (run_outbox (outbox c))]].
  erewrite run_bind; [|eapply run_subObject; [reflexivity|by apply run_gateway]].
  erewrite run_bind; [|eapply run_subObject; [reflexivity|by apply (run_metrics (metrics c))]].
  by destruct c as [[] [] ? ? ? ? ? ?].
Qed.

(** ** Concrete files *)

(** A JSON library that knows one text. *)
Definition oneText (text : string) (j : Json) : JsonLib :=
  {| json_dump _ := text; json_parse t := if bool_decide (t = text) then Some j else None |}.

Definition noWhat (text : string) : string := EmptyString.

Definition sampleJson : Json := JObj
  [("executor", JObj [("workers", JInt 4)]);
   ("reliable", JObj [("ack_timeout_ms", JInt 15000); ("jitter_fraction", JFloat (1 # 10))]);
   ("server", JObj [("v1", JObj [("port", JInt 6100)])])]%string.

Definition sampleLoaded : AppConfig :=
  (@loadConfigFile (oneText "sample" sampleJson) noWhat "chat.json" (Some "sample"%string) defaultAppConfig).1.

(** A partial file over the defaults, then a port and thread count from the
    command line. *)
Lemma loaded_config_is_valid_witness :
  let unseeded := @seedOmitted (oneText "sample" sampleJson) (Some "sample"%string) in
  validConfig unseeded sampleLoaded /\
  validConfig unseeded
    (applyCliOverrides sampleLoaded (Some "10.0.0.1") (Some " +8080") (Some "16")).1%string.
Proof.
  intros unseeded.
  destruct (@loaded_config_is_valid (oneText "sample" sampleJson) noWhat "chat.json" (Some "sample"%string)
    defaultAppConfig sampleLoaded) as [_ [H1 H2]].
  - apply default_valid.
  - vm_compute. reflexivity.
  - split; [exact H1|]. eapply (H2 (Some "10.0.0.1") (Some " +8080") (Some "16"))%string. vm_compute. reflexivity.
Defined.

(** The defaults with a consumer group, another jitter and a second port. *)
Definition groupConfig : AppConfig :=
  on_consumer (fun c => mkConsumer (cs_topic c) "group-a" 50 (cs_pollDeadlineMs c))
    (on_v2 (fun e => mkEndpoint (ep_ip e) 7010 (ep_threads e)) defaultAppConfig).

(** The configuration above, spelled out. *)
Lemma rendered_config_loads_witness :
  @loadConfigFile (oneText "full" (renderConfig groupConfig)) noWhat "chat.json" (Some "full"%string)
    defaultAppConfig = (groupConfig, None).
Proof.
  apply (@rendered_config_loads (oneText "full" (renderConfig groupConfig)) noWhat "chat.json" "full"
    groupConfig defaultAppConfig).
  - split; [|split; vm_compute; congruence]. split; cbn;
    unfold retryValid, outboxValid, gatewayValid, presenceValid, isPort, isCount, isMillis, isLimit; cbn;
      repeat split; (lia || done || (left; lia)).
  - vm_compute. congruence.
  - vm_compute. reflexivity.
Defined.

(** A file with a "reliable" section but no jitter seed sets the seed to 0 instead of
    keeping the default. *)
Theorem missing_seed_becomes_zero :
  jitterSeed (reliable sampleLoaded) = 0 /\ jitterSeed (reliable defaultAppConfig) = 20260813.
Proof. by vm_compute. Qed.

(** Two gateways without an explicit group consume in different groups. *)
Lemma derived_groups_differ g g' :
  cs_groupId (gw_consumer g) = EmptyString -> cs_groupId (gw_consumer g') = EmptyString ->
  gw_id g <> gw_id g' -> effectiveConsumerGroupId g <> effectiveConsumerGroupId g'.
Proof.
  intros H1 H2 Hne. unfold effectiveConsumerGroupId. rewrite H1, H2, bool_decide_true by done.
  cbn [negb]. intros Heq. apply Hne. by apply (inj (String.append _)), (inj pretty) in Heq.
Qed.
