(* ===== verification/Presence.v ===== *)
(** * The presence directory
    (chatserver/include/app/PresenceDirectory.hpp,
    src/app/InMemoryPresenceDirectory.cpp)

    The port is the class [PresenceDirectory]; the in-memory adapter is its
    instance.  A claim always wins and gets a fresh epoch; renew and release act
    only for the holder of the current epoch. *)

From S2P Require Import Prelude DomainTypes.

Open Scope Z_scope.
Open Scope eff_scope.

Abbreviation GatewayId := Z (only parsing).
Abbreviation ConnectionId := Z (only parsing).
Abbreviation SessionEpoch := Z (only parsing).

Record DeliveryRoute := mkRoute {
  rt_user : UserId;
  rt_gatewayId : GatewayId;
  rt_connectionId : ConnectionId;
  rt_sessionEpoch : SessionEpoch;
}.

Inductive PresenceError := NotEpoch | PresNotFound | DependencyUnavailable.

#[export] Instance PresenceError_eq_dec : EqDecision PresenceError.
Proof. solve_decision. Defined.

Record ClaimResult := mkClaimResult { cl_ok : bool; cl_epoch : SessionEpoch; cl_error : PresenceError }.
Record RenewResult := mkRenewResult { rn_ok : bool; rn_expiresAtMs : Z; rn_error : PresenceError }.
Record ReleaseResult := mkReleaseResult { rl_ok : bool; rl_error : PresenceError }.
Record LocateResult := mkLocateResult {
  lc_ok : bool; lc_expired : bool; lc_route : DeliveryRoute; lc_error : PresenceError }.

Definition noRoute : DeliveryRoute := mkRoute 0 0 0 0.

(** The clock of the cluster and the local sinks of its gateways. *)
Class ClusterEnv (E : Type) := {
  clusterNow : E -> E * Z;
  localDeliver : GatewayId -> DeliveryAttempt -> E -> E * outcome exn DeliverDisposition;
}.

(** The port; a call may read the clock. *)
Class PresenceDirectory (P E : Type) := {
  presenceClaim : UserId -> GatewayId -> ConnectionId -> eff exn (P * E) ClaimResult;
  presenceRenew : UserId -> GatewayId -> ConnectionId -> SessionEpoch -> eff exn (P * E) RenewResult;
  presenceRelease : UserId -> GatewayId -> ConnectionId -> SessionEpoch -> eff exn (P * E) ReleaseResult;
  presenceLocate : UserId -> eff exn (P * E) LocateResult;
}.

(** ** The in-memory adapter *)

Record Entry := mkEntry {
  en_gatewayId : GatewayId;
  en_connectionId : ConnectionId;
  en_sessionEpoch : SessionEpoch;
  en_expiresAtMs : Z;
}.

Record InMemoryPresenceDirectory := mkPresence {
  ttlMs_ : Z;
  nextEpoch_ : Z;
  failure_ : bool;
  entries_ : gmap UserId Entry;
}.

Module InMemoryPresence.
Section ops.
Context {E : Type} `{!ClusterEnv E}.

Notation peff := (eff exn (InMemoryPresenceDirectory * E)).

Definition new (ttlMs : Z) : InMemoryPresenceDirectory := mkPresence ttlMs 1 false ∅.

Definition now : peff Z := fun pe => let '(e, t) := clusterNow pe.2 in ((pe.1, e), Ret t).

Definition getDir : peff InMemoryPresenceDirectory := gets fst.

Definition setEntries (f : gmap UserId Entry -> gmap UserId Entry) : peff unit :=
  modify (fun pe => (mkPresence (ttlMs_ pe.1) (nextEpoch_ pe.1) (failure_ pe.1) (f (entries_ pe.1)), pe.2)).

Definition claim (user : UserId) (gateway : GatewayId) (conn : ConnectionId) : peff ClaimResult :=
  d <- getDir ;;
  if failure_ d then ret (mkClaimResult false 0 DependencyUnavailable)
  else
    let epoch := nextEpoch_ d in
    modify (fun pe => (mkPresence (ttlMs_ pe.1) (u64 (nextEpoch_ pe.1 + 1)) (failure_ pe.1)
                         (entries_ pe.1), pe.2)) ;;;
    t <- now ;;
    setEntries (<[user := mkEntry gateway conn epoch (i64 (t + ttlMs_ d))]>) ;;;
    ret (mkClaimResult true epoch PresNotFound).

Definition renew (user : UserId) (gateway : GatewayId) (conn : ConnectionId) (epoch : SessionEpoch)
  : peff RenewResult :=
  d <- getDir ;;
  if failure_ d then ret (mkRenewResult false 0 DependencyUnavailable)
  else match entries_ d !! user with
       | None => ret (mkRenewResult false 0 PresNotFound)
       | Some en =>
           t <- now ;;
           if en_expiresAtMs en <=? t then ret (mkRenewResult false 0 PresNotFound)
           else if negb (en_sessionEpoch en =? epoch) then ret (mkRenewResult false 0 NotEpoch)
           else
             t' <- now ;;
             let expires := i64 (t' + ttlMs_ d) in
             setEntries (<[user := mkEntry (en_gatewayId en) (en_connectionId en)
                                     (en_sessionEpoch en) expires]>) ;;;
             ret (mkRenewResult true expires PresNotFound)
       end.

Definition release (user : UserId) (gateway : GatewayId) (conn : ConnectionId) (epoch : SessionEpoch)
  : peff ReleaseResult :=
  d <- getDir ;;
  if failure_ d then ret (mkReleaseResult false DependencyUnavailable)
  else match entries_ d !! user with
       | None => ret (mkReleaseResult false PresNotFound)
       | Some en =>
           t <- now ;;
           if en_expiresAtMs en <=? t then ret (mkReleaseResult false PresNotFound)
           else if negb (en_sessionEpoch en =? epoch) then ret (mkReleaseResult false NotEpoch)
           else setEntries (delete user) ;;; ret (mkReleaseResult true PresNotFound)
       end.

Definition locate (user : UserId) : peff LocateResult :=
  d <- getDir ;;
  if failure_ d then ret (mkLocateResult false false noRoute DependencyUnavailable)
  else match entries_ d !! user with
       | None => ret (mkLocateResult false false noRoute PresNotFound)
       | Some en =>
           t <- now ;;
           if en_expiresAtMs en <=? t then ret (mkLocateResult false true noRoute PresNotFound)
           else ret (mkLocateResult true false
                       (mkRoute user (en_gatewayId en) (en_connectionId en) (en_sessionEpoch en))
                       PresNotFound)
       end.

Definition injectFailure (fail : bool) : peff unit :=
  modify (fun pe => (mkPresence (ttlMs_ pe.1) (nextEpoch_ pe.1) fail (entries_ pe.1), pe.2)).
End ops.
End InMemoryPresence.

#[export] Instance inMemoryPresence {E} `{!ClusterEnv E} :
  PresenceDirectory InMemoryPresenceDirectory E := {|
  presenceClaim := InMemoryPresence.claim;
  presenceRenew := InMemoryPresence.renew;
  presenceRelease := InMemoryPresence.release;
  presenceLocate := InMemoryPresence.locate;
|}.

(** ** Executions *)

Inductive PresenceCall :=
| PresClaim (user : UserId) (gateway : GatewayId) (conn : ConnectionId)
| PresRenew (user : UserId) (gateway : GatewayId) (conn : ConnectionId) (epoch : SessionEpoch)
| PresRelease (user : UserId) (gateway : GatewayId) (conn : ConnectionId) (epoch : SessionEpoch)
| PresLocate (user : UserId)
| PresInject (fail : bool).

Section properties.
Context {E : Type} `{!ClusterEnv E}.

Notation PE := (InMemoryPresenceDirectory * E)%type.

Definition runPresenceCall (pe : PE) (call : PresenceCall) : PE :=
  match call with
  | PresClaim u g c => (InMemoryPresence.claim u g c pe).1
  | PresRenew u g c ep => (InMemoryPresence.renew u g c ep pe).1
  | PresRelease u g c ep => (InMemoryPresence.release u g c ep pe).1
  | PresLocate u => (InMemoryPresence.locate u pe).1
  | PresInject f => (InMemoryPresence.injectFailure f pe).1
  end.

Definition runPresenceCalls (calls : list PresenceCall) (pe : PE) : PE :=
  foldl runPresenceCall pe calls.

Lemma now_run (pe : PE) :
  InMemoryPresence.now pe = ((pe.1, (clusterNow pe.2).1), Ret (clusterNow pe.2).2).
Proof. unfold InMemoryPresence.now. by destruct (clusterNow pe.2). Qed.

(** The entry of [u] keeps its holder: gateway, connection and epoch. *)
Definition heldBy (u g c ep : Z) (d : InMemoryPresenceDirectory) : Prop :=
  exists x, entries_ d !! u = Some (mkEntry g c ep x).

(** Calls that may end the holding of epoch [ep] by [u]. *)
Definition ends (u ep : Z) (call : PresenceCall) : bool :=
  match call with
  | PresClaim u' _ _ => u' =? u
  | PresRelease u' _ _ ep' => (u' =? u) && (ep' =? ep)
  | _ => false
  end.

Lemma claim_run u g c (pe : PE) :
  failure_ pe.1 = false ->
  let t := (clusterNow pe.2).2 in
  InMemoryPresence.claim u g c pe =
  ((mkPresence (ttlMs_ pe.1) (u64 (nextEpoch_ pe.1 + 1)) false
      (<[u := mkEntry g c (nextEpoch_ pe.1) (i64 (t + ttlMs_ pe.1))]> (entries_ pe.1)),
    (clusterNow pe.2).1), Ret (mkClaimResult true (nextEpoch_ pe.1) PresNotFound)).
Proof.
  intros Hf. unfold InMemoryPresence.claim, bind, InMemoryPresence.getDir, gets, modify.
  rewrite Hf. rewrite now_run. cbn. by rewrite Hf.
Qed.

Lemma claim_failed u g c (pe : PE) :
  failure_ pe.1 = true ->
  InMemoryPresence.claim u g c pe = (pe, Ret (mkClaimResult false 0 DependencyUnavailable)).
Proof. intros Hf. unfold InMemoryPresence.claim, bind, InMemoryPresence.getDir, gets. by rewrite Hf. Qed.

(** Renewing: no effect, or a new expiry for the holder of the current epoch. *)
Lemma renew_run u g c ep (pe : PE) :
  exists pe' r, InMemoryPresence.renew u g c ep pe = (pe', Ret r) /\
    ((rn_ok r = false /\ pe'.1 = pe.1) \/
     exists en x, entries_ pe.1 !! u = Some en /\ en_sessionEpoch en = ep /\
       pe'.1 = mkPresence (ttlMs_ pe.1) (nextEpoch_ pe.1) (failure_ pe.1)
                 (<[u := mkEntry (en_gatewayId en) (en_connectionId en) ep x]> (entries_ pe.1))).
Proof.
  unfold InMemoryPresence.renew, bind, InMemoryPresence.getDir, gets.
  destruct (failure_ pe.1) eqn:Hf; [eexists _, _; split; [done|by left]|].
  destruct (entries_ pe.1 !! u) as [en|] eqn:Hen; [|eexists _, _; split; [done|by left]].
  rewrite now_run. destruct (_ <=? _); [eexists _, _; split; [done|by left]|].
  destruct (Z.eqb_spec (en_sessionEpoch en) ep) as [<-|Hne]; cbn [negb];
    [|eexists _, _; split; [done|by left]].
  rewrite now_run. eexists _, _. split; [done|]. right. eexists _, _. cbn. by rewrite Hf.
Qed.

Lemma release_run u g c ep (pe : PE) :
  exists pe' r, InMemoryPresence.release u g c ep pe = (pe', Ret r) /\
    ((rl_ok r = false /\ pe'.1 = pe.1) \/
     exists en, entries_ pe.1 !! u = Some en /\ en_sessionEpoch en = ep /\
       pe'.1 = mkPresence (ttlMs_ pe.1) (nextEpoch_ pe.1) (failure_ pe.1) (delete u (entries_ pe.1))).
Proof.
  unfold InMemoryPresence.release, bind, InMemoryPresence.getDir, gets.
  destruct (failure_ pe.1) eqn:Hf; [eexists _, _; split; [done|by left]|].
  destruct (entries_ pe.1 !! u) as [en|] eqn:Hen; [|eexists _, _; split; [done|by left]].
  rewrite now_run. destruct (_ <=? _); [eexists _, _; split; [done|by left]|].
  destruct (Z.eqb_spec (en_sessionEpoch en) ep) as [<-|Hne]; cbn [negb];
    [|eexists _, _; split; [done|by left]].
  eexists _, _. split; [done|]. right. eexists. cbn. by rewrite Hf.
Qed.

Lemma locate_run u (pe : PE) : exists pe' r, InMemoryPresence.locate u pe = (pe', Ret r) /\ pe'.1 = pe.1.
Proof.
  unfold InMemoryPresence.locate, bind, InMemoryPresence.getDir, gets.
  destruct (failure_ pe.1); [by eexists _, _|].
  destruct (entries_ pe.1 !! u) as [en|]; [|by eexists _, _].
  rewrite now_run. destruct (_ <=? _); by eexists _, _.
Qed.

Lemma held_step u g c ep (pe : PE) call :
  heldBy u g c ep pe.1 -> ends u ep call = false -> heldBy u g c ep (runPresenceCall pe call).1.
Proof.
  intros [x Hx] He. unfold heldBy. destruct call as [u' g' c'|u' g' c' ep'|u' g' c' ep'|u'|f];
    cbn [runPresenceCall ends] in *.
  - apply Z.eqb_neq in He. destruct (failure_ pe.1) eqn:Hf.
    + rewrite claim_failed by done. by exists x.
    + rewrite claim_run by done. cbn. exists x. by rewrite lookup_insert_ne.
  - destruct (renew_run u' g' c' ep' pe) as (pe' & r & -> & Hc); cbn [fst];
      destruct Hc as [[_ ->]|(en & y & Hen & <- & ->)]; cbn;
      [by exists x|].
    destruct (decide (u' = u)) as [->|Hne].
    + rewrite Hx in Hen. injection Hen as <-. rewrite lookup_insert_eq. by exists y.
    + rewrite lookup_insert_ne by done. by exists x.
  - destruct (release_run u' g' c' ep' pe) as (pe' & r & -> & Hc); cbn [fst];
      destruct Hc as [[_ ->]|(en & Hen & <- & ->)]; cbn;
      [by exists x|].
    destruct (decide (u' = u)) as [->|Hne]; [|rewrite lookup_delete_ne by done; by exists x].
    rewrite Hx in Hen. injection Hen as <-. cbn in He. by rewrite !Z.eqb_refl in He.
  - destruct (locate_run u' pe) as (pe' & r & -> & Hc). cbn [fst]. rewrite Hc. by exists x.
  - by exists x.
Qed.

Lemma held_calls u g c ep calls (pe : PE) :
  heldBy u g c ep pe.1 -> forallb (fun call => negb (ends u ep call)) calls = true ->
  heldBy u g c ep (runPresenceCalls calls pe).1.
Proof.
  revert pe. induction calls as [|call cs IH]; intros pe Hh Hall; [done|].
  simpl in Hall. apply andb_true_iff in Hall as [H1%negb_true_iff H2].
  apply IH; [by apply held_step|done].
Qed.

(** Every epoch in the directory was handed out before. *)
Definition epochs_ok (d : InMemoryPresenceDirectory) : Prop :=
  forall u en, entries_ d !! u = Some en -> 1 <= en_sessionEpoch en < nextEpoch_ d.

Lemma epochs_step (pe : PE) call :
  epochs_ok pe.1 -> 1 <= nextEpoch_ pe.1 < 2 ^ 64 - 1 ->
  epochs_ok (runPresenceCall pe call).1 /\
  nextEpoch_ pe.1 <= nextEpoch_ (runPresenceCall pe call).1 <= nextEpoch_ pe.1 + 1.
Proof.
  intros Hok Hn. destruct call as [u g c|u g c ep|u g c ep|u|f]; cbn [runPresenceCall].
  - destruct (failure_ pe.1) eqn:Hf; [rewrite claim_failed by done; split; [done|cbn; lia]|].
    rewrite claim_run by done. cbn. rewrite u64_small by (split; lia). split; [|lia].
    intros u' en. cbn. rewrite lookup_insert_Some. intros [[<- <-]|[_ He]]; cbn; [lia|].
    specialize (Hok _ _ He). lia.
  - destruct (renew_run u g c ep pe) as (pe' & r & -> & Hc); cbn [fst];
      destruct Hc as [[_ ->]|(en & y & Hen & <- & ->)]; cbn;
      [split; [done|lia]|]. split; [|lia].
    intros u' en'. cbn. rewrite lookup_insert_Some. intros [[<- <-]|[_ He]]; [exact (Hok _ _ Hen)|eauto].
  - destruct (release_run u g c ep pe) as (pe' & r & -> & Hc); cbn [fst];
      destruct Hc as [[_ ->]|(en & Hen & <- & ->)]; cbn;
      [split; [done|lia]|]. split; [|lia].
    intros u' en'. cbn. rewrite lookup_delete_Some. intros [_ He]. eauto.
  - destruct (locate_run u pe) as (pe' & r & -> & Hc). cbn [fst]. rewrite Hc. split; [done|lia].
  - split; [exact Hok|cbn; lia].
Qed.

Lemma epochs_calls calls (pe : PE) :
  epochs_ok pe.1 -> 1 <= nextEpoch_ pe.1 -> nextEpoch_ pe.1 + Z.of_nat (length calls) < 2 ^ 64 - 1 ->
  epochs_ok (runPresenceCalls calls pe).1 /\
  1 <= nextEpoch_ (runPresenceCalls calls pe).1 <= nextEpoch_ pe.1 + Z.of_nat (length calls).
Proof.
  revert pe. induction calls as [|c cs IH]; intros pe Hok H1 Hn; simpl length in *.
  { split; [done|cbn; lia]. }
  destruct (epochs_step pe c Hok ltac:(lia)) as [Hok' Hn'].
  destruct (IH (runPresenceCall pe c) Hok' ltac:(lia) ltac:(lia)) as [H3 H4]. split; [done|].
  change (runPresenceCalls (c :: cs) pe) with (runPresenceCalls cs (runPresenceCall pe c)). lia.
Qed.

(** The epochs that the claims of a run were given. *)
Fixpoint handedOut (calls : list PresenceCall) (pe : PE) : list SessionEpoch :=
  match calls with
  | [] => []
  | call :: rest =>
      (match call with
       | PresClaim u g c =>
           match (InMemoryPresence.claim u g c pe).2 with
           | Ret r => if cl_ok r then [cl_epoch r] else []
           | Throw _ => []
           end
       | _ => []
       end) ++ handedOut rest (runPresenceCall pe call)
  end.

Lemma handedOut_below calls (pe : PE) :
  epochs_ok pe.1 -> 1 <= nextEpoch_ pe.1 -> nextEpoch_ pe.1 + Z.of_nat (length calls) < 2 ^ 64 - 1 ->
  forall ep, ep ∈ handedOut calls pe -> ep < nextEpoch_ (runPresenceCalls calls pe).1.
Proof.
  assert (forall calls (pe : PE), epochs_ok pe.1 -> 1 <= nextEpoch_ pe.1 ->
    nextEpoch_ pe.1 + Z.of_nat (length calls) < 2 ^ 64 - 1 -> nextEpoch_ pe.1 <= nextEpoch_ (runPresenceCalls calls pe).1) as Hmono.
  { clear. induction calls as [|c cs IH]; intros pe Hok H1 Hn; simpl length in *; [done|].
    destruct (epochs_step pe c Hok ltac:(lia)) as [Hok' Hn']. etrans; [apply Hn'|]. apply IH; [done|lia|lia]. }
  revert pe. induction calls as [|c cs IH]; intros pe Hok H1 Hn ep Hep; [by apply elem_of_nil in Hep|]. simpl length in Hn.
  destruct (epochs_step pe c Hok ltac:(lia)) as [Hok' Hn'].
  change (runPresenceCalls (c :: cs) pe) with (runPresenceCalls cs (runPresenceCall pe c)).
  cbn [handedOut] in Hep. apply elem_of_app in Hep as [Hep|Hep]; [|apply IH; [done|lia|lia|done]].
  eapply Z.lt_le_trans; [|apply Hmono; [done|lia|lia]]. destruct c as [u g c| | | |]; try (by apply elem_of_nil in Hep).
  cbn [runPresenceCall]. destruct (failure_ pe.1) eqn:Hf.
  { rewrite claim_failed in Hep by done. by apply elem_of_nil in Hep. }
  rewrite claim_run in Hep |- * by done. cbn in Hep |- *. apply list_elem_of_singleton in Hep as ->.
  rewrite u64_small by (unfold isU64; lia). lia.
Qed.

(** C19: Presence is fenced by epochs: a claim that succeeds gets an epoch never
    handed out before; then, until the user is claimed again or that very epoch
    is released, whatever other claims, renewals, releases and failures happen,
    the entry keeps its gateway, connection and epoch, and no renewal or release
    with another epoch succeeds or changes anything. *)
Theorem presence_fenced_by_epoch ttl (e0 : E) before u g c pe1 r calls :
  Z.of_nat (length before) < 2 ^ 62 ->
  let pe := runPresenceCalls before (InMemoryPresence.new ttl, e0) in
  InMemoryPresence.claim u g c pe = (pe1, Ret r) -> cl_ok r = true ->
  forallb (fun call => negb (ends u (cl_epoch r) call)) calls = true ->
  let pe2 := runPresenceCalls calls pe1 in
  (forall ep, ep ∈ handedOut before (InMemoryPresence.new ttl, e0) -> ep < cl_epoch r) /\
  heldBy u g c (cl_epoch r) pe2.1 /\
  (forall g' c' ep', ep' <> cl_epoch r ->
     exists pe3 rn, InMemoryPresence.renew u g' c' ep' pe2 = (pe3, Ret rn) /\
       rn_ok rn = false /\ pe3.1 = pe2.1) /\
  (forall g' c' ep', ep' <> cl_epoch r ->
     exists pe3 rl, InMemoryPresence.release u g' c' ep' pe2 = (pe3, Ret rl) /\
       rl_ok rl = false /\ pe3.1 = pe2.1).
Proof.
  intros Hlen pe Hclaim Hok Hcalls pe2.
  destruct (epochs_calls before (InMemoryPresence.new ttl, e0)) as [He Hn];
    [intros ? ?; cbn; by rewrite lookup_empty|done|cbn; lia|]. fold pe in He, Hn.
  destruct (failure_ pe.1) eqn:Hf; [rewrite claim_failed in Hclaim by done; by simplify_eq|].
  rewrite claim_run in Hclaim by done. injection Hclaim as <- <-. cbn [cl_epoch] in *.
  assert (heldBy u g c (nextEpoch_ pe.1) pe2.1) as Hh.
  { apply held_calls; [|done]. eexists. cbn. by rewrite lookup_insert_eq. }
  split; [apply handedOut_below; [intros ? ?; cbn; by rewrite lookup_empty|done|cbn; lia]|]. split; [exact Hh|].
  destruct Hh as [x Hx]. split; intros g' c' ep' Hne.
  - destruct (renew_run u g' c' ep' pe2) as (pe3 & rn & Hr & [[H1 H2]|(en & y & Hen & Hep & _)]); [eauto|].
    rewrite Hx in Hen. injection Hen as <-. cbn in Hep. congruence.
  - destruct (release_run u g' c' ep' pe2) as (pe3 & rl & Hr & [[H1 H2]|(en & Hen & Hep & _)]); [eauto|].
    rewrite Hx in Hen. injection Hen as <-. cbn in Hep. congruence.
Qed.
End properties.

(** A clock that stands still and sinks that accept. *)
#[export] Instance stillEnv : ClusterEnv Z := {|
  clusterNow t := (t, t);
  localDeliver _ _ t := (t, Ret DispAccepted);
|}.

(** C19: the user moves from gateway 1 to gateway 2; gateway 1 can neither renew
    nor release the new entry. *)
Lemma presence_fenced_by_epoch_witness :
  let pe := runPresenceCalls [PresClaim 5 1 10] (InMemoryPresence.new 30000, 100) in
  let pe1 := (InMemoryPresence.claim 5 2 20 pe).1 in
  let pe2 := runPresenceCalls [PresRelease 5 1 10 1; PresRenew 5 1 10 1; PresClaim 6 1 11] pe1 in
  heldBy 5 2 20 2 pe2.1.
Proof.
  intros pe pe1 pe2.
  exact (proj1 (proj2 (presence_fenced_by_epoch 30000 100 [PresClaim 5 1 10] 5 2 20 pe1
    (mkClaimResult true 2 PresNotFound)
    [PresRelease 5 1 10 1; PresRenew 5 1 10 1; PresClaim 6 1 11]
    ltac:(vm_compute; reflexivity) ltac:(vm_compute; reflexivity) eq_refl
    ltac:(vm_compute; reflexivity)))).
Defined.
