(* ===== verification/Gateway.v ===== *)
(** * Delivery across gateways
    (chatserver/src/app/GatewayAwareDeliverySink.cpp,
    src/app/InProcessGatewayTransport.cpp, include/app/DeliverySink.hpp)

    A gateway keeps a shadow of the sessions it claimed.  [deliver] serves a
    shadowed user locally, otherwise asks the presence directory and hands the
    attempt to the gateway it names; that gateway checks the session epoch
    before its own sink sees the attempt.  A cluster is any number of such
    gateways over one directory and one in-process transport. *)

From S2P Require Import Prelude DomainTypes Presence.

Open Scope Z_scope.
Open Scope eff_scope.

Record Shadow := mkShadow { sh_connectionId : ConnectionId; sh_epoch : SessionEpoch }.

#[export] Instance Shadow_eq_dec : EqDecision Shadow.
Proof. solve_decision. Defined.

(** The state of one GatewayAwareDeliverySink; [gs_clock]: a clock is set. *)
Record GatewaySink := mkSink {
  gs_localGateway : GatewayId;
  gs_clock : bool;
  gs_shadow : gmap UserId Shadow;
  gs_nextRenewAtMs : gmap UserId Z;
  gs_renewBackoffMs : gmap UserId Z;
}.

Definition newSink (g : GatewayId) : GatewaySink := mkSink g false ∅ ∅ ∅.

Definition set_shadow (s : gmap UserId Shadow) (g : GatewaySink) : GatewaySink :=
  mkSink (gs_localGateway g) (gs_clock g) s (gs_nextRenewAtMs g) (gs_renewBackoffMs g).

(** [nextRenewAtMs_.erase(user); renewBackoffMs_.erase(user)] *)
Definition clearBackoff (user : UserId) (g : GatewaySink) : GatewaySink :=
  mkSink (gs_localGateway g) (gs_clock g) (gs_shadow g) (delete user (gs_nextRenewAtMs g))
    (delete user (gs_renewBackoffMs g)).

Record GatewayDeliverResult := mkGatewayResult {
  gr_ok : bool;
  gr_staleEpoch : bool;
  gr_unreachable : bool;
  gr_error : string;
}.

Definition kRenewBackoffBaseMs : Z := 2000.
Definition kRenewBackoffCapMs : Z := 60000.

(** Gateways by identity; the transport's table names the registered ones. *)
Record Cluster (P E : Type) := mkCluster {
  c_presence : P;
  c_gateways : gmap GatewayId GatewaySink;
  c_targets : gmap GatewayId GatewayId;
  c_env : E;
}.
Arguments mkCluster {P E}.
Arguments c_presence {P E}.
Arguments c_gateways {P E}.
Arguments c_targets {P E}.
Arguments c_env {P E}.

Section gateway.
Context {P E : Type} `{!PresenceDirectory P E, !ClusterEnv E}.

Notation C := (Cluster P E).
Notation ceff := (eff exn C).

Definition put_presence (pe : P * E) (c : C) : C :=
  mkCluster pe.1 (c_gateways c) (c_targets c) pe.2.

Definition onPresence {A} (m : eff exn (P * E) A) : ceff A :=
  zoom (fun c => (c_presence c, c_env c)) put_presence m.

Definition gatewayNow : ceff Z :=
  fun c => let '(e, t) := clusterNow (c_env c) in
           (mkCluster (c_presence c) (c_gateways c) (c_targets c) e, Ret t).

Definition sinkOf (me : GatewayId) (c : C) : GatewaySink :=
  default (newSink me) (c_gateways c !! me).

Definition getSink (me : GatewayId) : ceff GatewaySink := gets (sinkOf me).

Definition modifySink (me : GatewayId) (f : GatewaySink -> GatewaySink) : ceff unit :=
  modify (fun c => mkCluster (c_presence c) (<[me := f (sinkOf me c)]> (c_gateways c))
                     (c_targets c) (c_env c)).

(** [localSink_->deliver(attempt)] *)
Definition deliverLocal (me : GatewayId) (attempt : DeliveryAttempt) : ceff DeliverDisposition :=
  fun c => let '(e, r) := localDeliver me attempt (c_env c) in
           (mkCluster (c_presence c) (c_gateways c) (c_targets c) e, r).

(** ** Claiming and releasing *)

Definition bindUser (me : GatewayId) (user : UserId) (conn : ConnectionId) : ceff ClaimResult :=
  g <- getSink me ;;
  r <- onPresence (presenceClaim user (gs_localGateway g) conn) ;;
  if negb (cl_ok r) then ret r
  else
    modifySink me (fun g => clearBackoff user
      (set_shadow (<[user := mkShadow conn (cl_epoch r)]> (gs_shadow g)) g)) ;;;
    ret r.

Definition unbindUser (me : GatewayId) (user : UserId) (conn : ConnectionId) (epoch : SessionEpoch)
  : ceff ReleaseResult :=
  g <- getSink me ;;
  r <- onPresence (presenceRelease user (gs_localGateway g) conn epoch) ;;
  (if rl_ok r then
     modifySink me (fun g => clearBackoff user
       (match gs_shadow g !! user with
        | Some s => if sh_epoch s =? epoch then set_shadow (delete user (gs_shadow g)) g else g
        | None => g
        end))
   else ret tt) ;;;
  ret r.

Definition releaseUser (me : GatewayId) (user : UserId) (conn : ConnectionId) : ceff ReleaseResult :=
  g <- getSink me ;;
  match gs_shadow g !! user with
  | None => ret (mkReleaseResult false PresNotFound)
  | Some s =>
      if negb (sh_connectionId s =? conn) then ret (mkReleaseResult false NotEpoch)
      else
        r <- onPresence (presenceRelease user (gs_localGateway g) conn (sh_epoch s)) ;;
        (if rl_ok r then
           modifySink me (fun g => clearBackoff user (set_shadow (delete user (gs_shadow g)) g))
         else ret tt) ;;;
        ret r
  end.

(** ** Renewing *)

(** After the unlocked [presence_.renew] succeeded. *)
Definition renewCommit (me : GatewayId) (user : UserId) (snap : Shadow) (r : RenewResult)
  : ceff RenewResult :=
  g <- getSink me ;;
  match gs_shadow g !! user with
  | Some s => if negb (sh_epoch s =? sh_epoch snap) then ret (mkRenewResult false 0 NotEpoch)
              else modifySink me (clearBackoff user) ;;; ret r
  | None => ret (mkRenewResult false 0 NotEpoch)
  end.

(** After the claim that replaces a lost entry succeeded. *)
Definition reclaimCommit (me : GatewayId) (user : UserId) (snap : Shadow) (epoch : SessionEpoch)
  : ceff RenewResult :=
  g <- getSink me ;;
  (match gs_shadow g !! user with
   | Some s =>
       if sh_epoch s =? sh_epoch snap
       then modifySink me (fun g => clearBackoff user
              (set_shadow (<[user := mkShadow (sh_connectionId s) epoch]> (gs_shadow g)) g))
       else ret tt
   | None => ret tt
   end) ;;;
  ret (mkRenewResult true 0 PresNotFound).

(** The exponential window after a failed dependency. *)
Definition backOff (me : GatewayId) (user : UserId) (now : Z) : ceff unit :=
  modifySink me (fun g =>
    let backoff := match gs_renewBackoffMs g !! user with
                   | Some b => if 0 <? b then b else kRenewBackoffBaseMs
                   | None => kRenewBackoffBaseMs
                   end in
    let doubled := i64 (backoff * 2) in
    mkSink (gs_localGateway g) (gs_clock g) (gs_shadow g)
      (<[user := i64 (now + backoff)]> (gs_nextRenewAtMs g))
      (<[user := if kRenewBackoffCapMs <? doubled then kRenewBackoffCapMs else doubled]>
         (gs_renewBackoffMs g))).

Definition finishRenew (me : GatewayId) (user : UserId) (now : Z) (r : RenewResult)
  : ceff RenewResult :=
  g <- getSink me ;;
  (if bool_decide (rn_error r = DependencyUnavailable) && gs_clock g
   then backOff me user now else ret tt) ;;;
  ret r.

(** The stretches of [renew] between two points where it holds no lock.  First the
    clock, then under the lock either an answer or the entry to renew. *)
Definition renewTime (me : GatewayId) : ceff Z :=
  g <- getSink me ;;
  if gs_clock g then gatewayNow else ret 0.

Definition renewCheck (me : GatewayId) (user : UserId) (now : Z) : ceff (RenewResult + Shadow) :=
  g <- getSink me ;;
  if gs_clock g && match gs_nextRenewAtMs g !! user with Some t => now <? t | None => false end
  then ret (inl (mkRenewResult false 0 DependencyUnavailable))
  else ret (match gs_shadow g !! user with
            | None => inl (mkRenewResult false 0 PresNotFound)
            | Some snap => inr snap
            end).

(** The two calls of the directory, made without the lock. *)
Definition renewAsk (me : GatewayId) (user : UserId) (snap : Shadow) : ceff RenewResult :=
  g <- getSink me ;;
  onPresence (presenceRenew user (gs_localGateway g) (sh_connectionId snap) (sh_epoch snap)).

Definition renewReclaim (me : GatewayId) (user : UserId) (snap : Shadow) : ceff ClaimResult :=
  g <- getSink me ;;
  onPresence (presenceClaim user (gs_localGateway g) (sh_connectionId snap)).

(** What follows the second call. *)
Definition renewReclaimed (me : GatewayId) (user : UserId) (now : Z) (snap : Shadow) (c : ClaimResult)
  : ceff RenewResult :=
  if cl_ok c then reclaimCommit me user snap (cl_epoch c)
  else finishRenew me user now (mkRenewResult false 0 (cl_error c)).

(** The rest of [renew], at the time it read before taking the lock. *)
Definition renewAt (me : GatewayId) (user : UserId) (now : Z) : ceff RenewResult :=
  check <- renewCheck me user now ;;
  match check with
  | inl r => ret r
  | inr snap =>
      r <- renewAsk me user snap ;;
      if rn_ok r then renewCommit me user snap r
      else if bool_decide (rn_error r = PresNotFound) then
        c <- renewReclaim me user snap ;;
        renewReclaimed me user now snap c
      else finishRenew me user now r
  end.

(** A renewal that no other thread interrupts. *)
Definition renew (me : GatewayId) (user : UserId) : ceff RenewResult :=
  now <- renewTime me ;;
  renewAt me user now.

Fixpoint renewEach (me : GatewayId) (users : list UserId) : ceff unit :=
  match users with
  | [] => ret tt
  | u :: rest => _ <- renew me u ;; renewEach me rest
  end.

Definition renewAllClaimed (me : GatewayId) : ceff unit :=
  g <- getSink me ;;
  renewEach me (sorted_items Z.le (gs_shadow g)).*1.

Definition setClock (me : GatewayId) (on : bool) : ceff unit :=
  modifySink me (fun g => mkSink (gs_localGateway g) on (gs_shadow g) (gs_nextRenewAtMs g)
                            (gs_renewBackoffMs g)).

Definition shadowEpoch (me : GatewayId) (user : UserId) (c : C) : SessionEpoch :=
  match gs_shadow (sinkOf me c) !! user with Some s => sh_epoch s | None => 0 end.

Definition locallyClaimed (me : GatewayId) (user : UserId) (c : C) : bool :=
  match gs_shadow (sinkOf me c) !! user with Some _ => true | None => false end.

(** ** The receiving side *)

Definition matchesRoute (g : GatewaySink) (user : UserId) (route : DeliveryRoute) : bool :=
  match gs_shadow g !! user with
  | Some s => (sh_epoch s =? rt_sessionEpoch route) && (sh_connectionId s =? rt_connectionId route)
  | None => false
  end.

Definition deliverCrossNode (me : GatewayId) (route : DeliveryRoute) (attempt : DeliveryAttempt)
  : ceff GatewayDeliverResult :=
  g <- getSink me ;;
  if negb (rt_gatewayId route =? gs_localGateway g)
  then ret (mkGatewayResult false false true "cross-node route targets a different gateway")
  else if negb (matchesRoute g (rt_user route) route)
  then ret (mkGatewayResult false true false "stale session epoch (dropped)")
  else
    d <- deliverLocal me attempt ;;
    ret (match d with
         | DispAccepted => mkGatewayResult true false false EmptyString
         | _ => mkGatewayResult false false false "local sink disposition is not accepted"
         end).

(** ** The in-process transport *)

Definition registerTarget (gateway : GatewayId) (target : option GatewayId) : ceff bool :=
  match target with
  | None => ret false
  | Some t => modify (fun c => mkCluster (c_presence c) (c_gateways c)
                                (<[gateway := t]> (c_targets c)) (c_env c)) ;;; ret true
  end.

Definition unregisterTarget (gateway : GatewayId) : ceff unit :=
  modify (fun c => mkCluster (c_presence c) (c_gateways c) (delete gateway (c_targets c)) (c_env c)).

(** The table is read under the lock of the transport, the target is called without. *)
Definition findTarget (route : DeliveryRoute) : ceff (option GatewayId) :=
  gets (fun c => c_targets c !! rt_gatewayId route).

Definition transportDeliver (route : DeliveryRoute) (attempt : DeliveryAttempt)
  : ceff GatewayDeliverResult :=
  target <- findTarget route ;;
  match target with
  | None => ret (mkGatewayResult false false true "target gateway not registered in-process")
  | Some target => deliverCrossNode target route attempt
  end.

(** ** The sending side *)

(** The critical sections of [deliver]: the shadow, the directory, and for a route
    to the own gateway the shadow again. *)
Definition deliverShadowed (me : GatewayId) (attempt : DeliveryAttempt)
  : ceff (option DeliverDisposition) :=
  g <- getSink me ;;
  match gs_shadow g !! at_recipient attempt with
  | Some _ => d <- deliverLocal me attempt ;; ret (Some d)
  | None => ret None
  end.

Definition locateRecipient (attempt : DeliveryAttempt) : ceff (option DeliveryRoute) :=
  l <- onPresence (presenceLocate (at_recipient attempt)) ;;
  ret (if lc_ok l then Some (lc_route l) else None).

Definition deliverMatching (me : GatewayId) (route : DeliveryRoute) (attempt : DeliveryAttempt)
  : ceff DeliverDisposition :=
  g <- getSink me ;;
  if negb (matchesRoute g (at_recipient attempt) route) then ret DispClosed
  else deliverLocal me attempt.

Definition remoteRoute (me : GatewayId) (route : DeliveryRoute) : ceff bool :=
  gets (fun c => negb (rt_gatewayId route =? gs_localGateway (sinkOf me c))).

Definition remoteDisposition (r : GatewayDeliverResult) : DeliverDisposition :=
  if gr_ok r then DispAccepted else DispClosed.

(** A delivery that no other thread interrupts. *)
Definition gatewayDeliver (me : GatewayId) (attempt : DeliveryAttempt) : ceff DeliverDisposition :=
  here <- deliverShadowed me attempt ;;
  match here with
  | Some d => ret d
  | None =>
      route <- locateRecipient attempt ;;
      match route with
      | None => ret DispClosed
      | Some route =>
          remote <- remoteRoute me route ;;
          if (remote : bool) then
            r <- transportDeliver route attempt ;;
            ret (remoteDisposition r)
          else deliverMatching me route attempt
      end
  end.
End gateway.

Lemma sinkOf_modify {P E} me f (c : Cluster P E) g :
  sinkOf g (modifySink me f c).1 = if decide (g = me) then f (sinkOf me c) else sinkOf g c.
Proof.
  unfold sinkOf, modifySink, modify. cbn. destruct (decide (g = me)) as [->|Hne].
  - by rewrite lookup_insert_eq.
  - by rewrite lookup_insert_ne by done.
Qed.

(** ** DelegatingDeliverySink *)

Module Delegating.
(** [delegate_]: the bound sink, by identity. *)
Definition bind (delegate : option Z) (delegate_ : option Z) : option Z * bool :=
  match delegate with
  | None => (delegate_, false)
  | Some d => match delegate_ with
              | None => (Some d, true)
              | Some d0 => (delegate_, d0 =? d)
              end
  end.

Definition deliver {W} (run : Z -> DeliveryAttempt -> eff exn W DeliverDisposition)
    (delegate_ : option Z) (attempt : DeliveryAttempt) : eff exn W DeliverDisposition :=
  match delegate_ with
  | None => ret DispClosed
  | Some d => run d attempt
  end.
End Delegating.
