(* ===== verification/GatewayInv.v ===== *)
(** * What a cluster of gateways guarantees

    Over the in-memory presence directory, every operation keeps the epochs in the
    gateways' shadows distinct, also from epochs that a call under way was given.
    The last parts are the backoff of renewals, and what the local shortcut of
    [deliver] does to a user who moved. *)

From S2P Require Import Prelude DomainTypes Presence Gateway.

Open Scope Z_scope.
Open Scope eff_scope.

Inductive ClusterCall :=
| CallBind (me : GatewayId) (user : UserId) (conn : ConnectionId)
| CallUnbind (me : GatewayId) (user : UserId) (conn : ConnectionId) (epoch : SessionEpoch)
| CallRelease (me : GatewayId) (user : UserId) (conn : ConnectionId)
| CallRenew (me : GatewayId) (user : UserId)
| CallDeliver (me : GatewayId) (attempt : DeliveryAttempt)
| CallSetClock (me : GatewayId) (on : bool)
| CallRegister (gateway : GatewayId) (target : option GatewayId)
| CallUnregister (gateway : GatewayId)
| CallInjectFailure (fail : bool).

Section cluster.
Context {E : Type} `{!ClusterEnv E}.

Notation C := (Cluster InMemoryPresenceDirectory E).
Notation ceff := (eff exn C).

Definition forget {A} (m : ceff A) : ceff unit := m ;;; ret tt.

Definition clusterCall (call : ClusterCall) : ceff unit :=
  match call with
  | CallBind me u conn => forget (bindUser me u conn)
  | CallUnbind me u conn ep => forget (unbindUser me u conn ep)
  | CallRelease me u conn => forget (releaseUser me u conn)
  | CallRenew me u => forget (renew me u)
  | CallDeliver me a => forget (gatewayDeliver me a)
  | CallSetClock me on => setClock me on
  | CallRegister g t => forget (registerTarget g t)
  | CallUnregister g => unregisterTarget g
  | CallInjectFailure f => onPresence (InMemoryPresence.injectFailure f)
  end.

Definition runCluster (calls : list ClusterCall) (c : C) : C :=
  foldl (fun c call => (clusterCall call c).1) c calls.

Definition newCluster (ttl : Z) (e : E) : C := mkCluster (InMemoryPresence.new ttl) ∅ ∅ e.

Definition shadowAt (c : C) (g : GatewayId) (u : UserId) : option Shadow :=
  gs_shadow (sinkOf g c) !! u.

(** ** Epochs in the shadows *)

Definition nE (c : C) : Z := nextEpoch_ (c_presence c).

(** [R]: epochs that a call under way was given and has not entered into a shadow. *)
Record shadows_ok (R : SessionEpoch -> Prop) (c : C) : Prop := {
  so_local : forall g, gs_localGateway (sinkOf g c) = g;
  so_below : forall g u s, shadowAt c g u = Some s -> sh_epoch s < nE c;
  so_inj : forall g g' u u' s s', shadowAt c g u = Some s -> shadowAt c g' u' = Some s' ->
    sh_epoch s = sh_epoch s' -> g = g' /\ u = u';
  so_reserved : forall ep, R ep -> ep < nE c /\ forall g u s, shadowAt c g u = Some s -> sh_epoch s <> ep;
}.

Lemma shadows_weaken (R R' : SessionEpoch -> Prop) c :
  (forall ep, R' ep -> R ep) -> shadows_ok R c -> shadows_ok R' c.
Proof. intros HR [H1 H2 H3 H4]. split; try done. auto. Qed.

Section reserved.
Context (R : SessionEpoch -> Prop).

(** At most one epoch handed out since [c]. *)
Definition next_to (c c' : C) : Prop := shadows_ok R c' /\ nE c <= nE c' <= nE c + 1.

Lemma next_to_refl c : shadows_ok R c -> next_to c c.
Proof. intros H. split; [done|lia]. Qed.

(** The shadows depend on the gateways only. *)
Lemma shadows_frame (c c' : C) :
  shadows_ok R c -> c_gateways c' = c_gateways c -> nE c <= nE c' -> shadows_ok R c'.
Proof.
  intros [H1 H2 H3 H4] Hg Hn.
  assert (forall g, sinkOf g c' = sinkOf g c) as Hs by (intros g; unfold sinkOf; by rewrite Hg).
  split.
  - intros g. by rewrite Hs.
  - intros g u s. unfold shadowAt. rewrite Hs. intros H. specialize (H2 g u s H). lia.
  - intros g g' u u' s s'. unfold shadowAt. rewrite !Hs. apply H3.
  - intros ep Hep. destruct (H4 ep Hep) as [Hb Hne]. split; [lia|]. intros g u s. unfold shadowAt. rewrite Hs. apply Hne.
Qed.

(** A change of one sink that adds no shadow, or one with an unused epoch. *)
Lemma shadows_modify me f (c : C) :
  shadows_ok R c -> (forall g, gs_localGateway (f g) = gs_localGateway g) ->
  (forall u s, gs_shadow (f (sinkOf me c)) !! u = Some s ->
     shadowAt c me u = Some s \/
     (sh_epoch s < nE c /\ ~ R (sh_epoch s)) /\
     (forall g' u' s', shadowAt c g' u' = Some s' -> sh_epoch s' <> sh_epoch s) /\
     (forall u' s', gs_shadow (f (sinkOf me c)) !! u' = Some s' -> sh_epoch s' = sh_epoch s -> u' = u)) ->
  shadows_ok R (modifySink me f c).1.
Proof.
  intros [H1 H2 H3 H4] Hl Hf.
  assert (forall g u s, shadowAt (modifySink me f c).1 g u = Some s ->
    shadowAt c g u = Some s \/ g = me /\ gs_shadow (f (sinkOf me c)) !! u = Some s /\
      (sh_epoch s < nE c /\ ~ R (sh_epoch s)) /\
     (forall g' u' s', shadowAt c g' u' = Some s' -> sh_epoch s' <> sh_epoch s) /\
      (forall u' s', gs_shadow (f (sinkOf me c)) !! u' = Some s' -> sh_epoch s' = sh_epoch s -> u' = u))
    as Hs.
  { intros g u s. unfold shadowAt at 1. rewrite sinkOf_modify.
    destruct (decide (g = me)) as [->|]; [|by left]. intros H. destruct (Hf u s H); [by left|tauto]. }
  split.
  - intros g. rewrite sinkOf_modify. destruct (decide (g = me)) as [->|]; [by rewrite Hl|done].
  - intros g u s H. change (nE _) with (nE c). destruct (Hs _ _ _ H) as [?|?]; [eauto|tauto].
  - intros g g' u u' s s' H H' Heq.
    destruct (Hs _ _ _ H) as [Ha|(-> & Hu & _ & Hn & Hi)], (Hs _ _ _ H') as [Hb|(-> & Hu' & _ & Hn' & Hi')].
    + eauto.
    + by destruct (Hn' _ _ _ Ha).
    + by destruct (Hn _ _ _ Hb).
    + split; [done|]. symmetry. eauto.
  - intros ep Hep. destruct (H4 ep Hep) as [Hb Hne]. split; [exact Hb|]. intros g u s Hsh.
    destruct (Hs _ _ _ Hsh) as [Ha|(_ & _ & [_ Hr] & _)]; [by eapply Hne|congruence].
Qed.

Lemma shadows_shrink me f (c : C) :
  shadows_ok R c -> (forall g, gs_localGateway (f g) = gs_localGateway g) ->
  (forall g u s, gs_shadow (f g) !! u = Some s -> gs_shadow g !! u = Some s) ->
  next_to c (modifySink me f c).1.
Proof.
  intros H Hl Hf. split; [|change (nE (modifySink me f c).1) with (nE c); lia].
  apply shadows_modify; [done|done|]. intros u s Hs. left. by apply Hf.
Qed.

Lemma wp_modifySink me f (Q : unit -> C -> Prop) X (c : C) :
  Q tt (modifySink me f c).1 -> wp (modifySink me f) Q X c.
Proof. exact id. Qed.

(** ** Calls into the directory *)

Lemma wp_presence {A} (m : eff exn (InMemoryPresenceDirectory * E) A) (Q : A -> C -> Prop) X (c : C) pe r :
  m (c_presence c, c_env c) = (pe, Ret r) -> Q r (put_presence pe c) -> wp (onPresence m) Q X c.
Proof. intros Hm HQ. apply wp_zoom. unfold wp. by rewrite Hm. Qed.

Lemma wp_claim u g conn (Q : ClaimResult -> C -> Prop) X (c : C) :
  0 <= nE c < 2 ^ 64 - 1 ->
  (forall c' r, c_gateways c' = c_gateways c ->
     (cl_ok r = false /\ nE c' = nE c \/ cl_epoch r = nE c /\ nE c' = nE c + 1) -> Q r c') ->
  wp (onPresence (presenceClaim u g conn)) Q X c.
Proof.
  intros Hn HQ. destruct (failure_ (c_presence c)) eqn:Hf.
  - eapply wp_presence; [by apply claim_failed|]. apply HQ; [done|by left].
  - eapply wp_presence; [by apply claim_run|]. apply HQ; [done|]. right.
    unfold nE. cbn. by rewrite u64_small by (split; unfold nE in Hn; lia).
Qed.

Lemma wp_renew u g conn ep (Q : RenewResult -> C -> Prop) X (c : C) :
  (forall c' r, c_gateways c' = c_gateways c -> nE c' = nE c -> Q r c') ->
  wp (onPresence (presenceRenew u g conn ep)) Q X c.
Proof.
  intros HQ. destruct (renew_run u g conn ep (c_presence c, c_env c)) as (pe & r & Hr & Hc).
  eapply wp_presence; [exact Hr|]. apply HQ; [done|]. unfold nE; cbn.
  destruct Hc as [[_ ->]|(en & x & _ & _ & ->)]; done.
Qed.

Lemma wp_release u g conn ep (Q : ReleaseResult -> C -> Prop) X (c : C) :
  (forall c' r, c_gateways c' = c_gateways c -> nE c' = nE c -> Q r c') ->
  wp (onPresence (presenceRelease u g conn ep)) Q X c.
Proof.
  intros HQ. destruct (release_run u g conn ep (c_presence c, c_env c)) as (pe & r & Hr & Hc).
  eapply wp_presence; [exact Hr|]. apply HQ; [done|]. unfold nE; cbn.
  destruct Hc as [[_ ->]|(en & _ & _ & ->)]; done.
Qed.

Lemma next_to_frame (c c' : C) :
  shadows_ok R c -> c_gateways c' = c_gateways c -> nE c <= nE c' <= nE c + 1 -> next_to c c'.
Proof. intros H1 H2 H3. split; [eapply shadows_frame; [done|done|lia]|lia]. Qed.

Lemma next_to_trans (c c1 c2 : C) : nE c1 = nE c -> next_to c1 c2 -> next_to c c2.
Proof. intros Heq [H1 H2]. split; [done|lia]. Qed.

Lemma shadows_shrink_from (c c1 : C) me f :
  next_to c c1 -> (forall g, gs_localGateway (f g) = gs_localGateway g) ->
  (forall g u s, gs_shadow (f g) !! u = Some s -> gs_shadow g !! u = Some s) ->
  next_to c (modifySink me f c1).1.
Proof.
  intros [H Hn] Hl Hf. split; [apply shadows_shrink; done|].
  change (nE (modifySink me f c1).1) with (nE c1). lia.
Qed.

(** Writing a shadow with the epoch just claimed. *)
Lemma shadows_claimed (c c1 : C) me u conn f :
  shadows_ok R c -> c_gateways c1 = c_gateways c -> nE c1 = nE c + 1 ->
  (forall g, gs_localGateway (f g) = gs_localGateway g) ->
  gs_shadow (f (sinkOf me c1)) = <[u := mkShadow conn (nE c)]> (gs_shadow (sinkOf me c1)) ->
  next_to c (modifySink me f c1).1.
Proof.
  intros Hok Hg Hn Hl Hf. split; [|change (nE (modifySink me f c1).1) with (nE c1); lia].
  assert (forall g' u' s', shadowAt c1 g' u' = Some s' -> sh_epoch s' < nE c) as Hb.
  { intros g' u' s' Hs. apply (so_below R c Hok g' u'). unfold shadowAt, sinkOf in *. by rewrite <- Hg. }
  apply shadows_modify; [eapply shadows_frame; [done|done|lia]|done|].
  intros u' s. rewrite Hf, lookup_insert_Some. intros [[<- <-]|[_ Hs]]; [|by left].
  right. cbn. split; [split; [lia|intros Hr; destruct (so_reserved R c Hok _ Hr); lia]|]. split; [intros g' u' s' Hs'; specialize (Hb _ _ _ Hs'); lia|].
  intros u' s'. rewrite lookup_insert_Some. intros [[<- _]|[_ Hs']] He; [done|].
  specialize (Hb me u' s' Hs'). lia.
Qed.

(** ** Every call keeps the shadows distinct *)

Notation grows m c := (wp m (fun _ c' => next_to c c') (fun _ c' => next_to c c') c).

Lemma grows_forget {A} (m : ceff A) c : grows m c -> grows (forget m) c.
Proof. intros H. apply wp_bind. eapply wp_mono; [exact H|auto|auto]. Qed.

Lemma bindUser_grows me u conn (c : C) :
  shadows_ok R c -> 0 <= nE c < 2 ^ 64 - 1 -> grows (bindUser me u conn) c.
Proof.
  intros Hok Hn. apply wp_bind, wp_gets, wp_bind, wp_claim; [done|].
  intros c1 r Hg Hr. destruct (cl_ok r) eqn:Hcl; cbn [negb].
  - destruct Hr as [[? _]|[Hep Hn1]]; [done|]. apply wp_bind, wp_modifySink, wp_ret.
    eapply (shadows_claimed c c1 me u conn); [done|done|done|done|]. cbn. by rewrite Hep.
  - apply wp_ret, next_to_frame; [done|done|lia].
Qed.

Lemma unbindUser_grows me u conn ep (c : C) : shadows_ok R c -> grows (unbindUser me u conn ep) c.
Proof.
  intros Hok. apply wp_bind, wp_gets, wp_bind, wp_release. intros c1 r Hg Hn.
  assert (next_to c c1) by (apply next_to_frame; [done|done|lia]).
  apply wp_bind. destruct (rl_ok r); [|by apply wp_ret, wp_ret].
  apply wp_modifySink, wp_ret, shadows_shrink_from; [done| |].
  - intros g. cbn. by repeat case_match.
  - intros g u' s. cbn. repeat case_match; try done. cbn. rewrite lookup_delete_Some. tauto.
Qed.

Lemma releaseUser_grows me u conn (c : C) : shadows_ok R c -> grows (releaseUser me u conn) c.
Proof.
  intros Hok. apply wp_bind, wp_gets. destruct (_ !! u) as [s|]; [|by apply wp_ret, next_to_refl].
  destruct (negb _); [by apply wp_ret, next_to_refl|].
  apply wp_bind, wp_release. intros c1 r Hg Hn.
  assert (next_to c c1) by (apply next_to_frame; [done|done|lia]).
  apply wp_bind. destruct (rl_ok r); [|by apply wp_ret, wp_ret].
  apply wp_modifySink, wp_ret, shadows_shrink_from; [done|done|].
  intros g u' s'. cbn. rewrite lookup_delete_Some. tauto.
Qed.

Lemma finishRenew_grows me u now r (c c1 : C) :
  next_to c c1 ->
  wp (finishRenew me u now r) (fun _ c' => next_to c c') (fun _ c' => next_to c c') c1.
Proof.
  intros H. apply wp_bind, wp_gets, wp_bind. destruct (_ && _); [|by apply wp_ret, wp_ret].
  apply wp_modifySink, wp_ret, shadows_shrink_from; done.
Qed.

Lemma reclaimCommit_grows me u snap (c c1 : C) :
  shadows_ok R c -> c_gateways c1 = c_gateways c -> nE c1 = nE c + 1 ->
  wp (reclaimCommit me u snap (nE c)) (fun _ c' => next_to c c') (fun _ c' => next_to c c') c1.
Proof.
  intros Hok Hg Hn. apply wp_bind, wp_gets, wp_bind.
  destruct (_ !! u) as [s|] eqn:Hs;
    [|by apply wp_ret, wp_ret, next_to_frame; [done|done|lia]].
  destruct (_ =? _); [|by apply wp_ret, wp_ret, next_to_frame; [done|done|lia]].
  apply wp_modifySink, wp_ret. by eapply shadows_claimed.
Qed.

Lemma renewAt_grows me u now (c c0 : C) :
  shadows_ok R c -> 0 <= nE c < 2 ^ 64 - 1 -> c_gateways c0 = c_gateways c -> nE c0 = nE c ->
  wp (renewAt me u now) (fun _ c' => next_to c c') (fun _ c' => next_to c c') c0.
Proof.
  intros Hok Hn Hg0 Hn0. assert (next_to c c0) by (apply next_to_frame; [done|done|lia]).
  apply wp_bind, wp_bind, wp_gets. destruct (_ && _); [by apply wp_ret, wp_ret|].
  apply wp_ret. destruct (_ !! u) as [snap|]; [|by apply wp_ret].
  apply wp_bind, wp_bind, wp_gets, wp_renew. intros c1 r Hg1 Hn1.
  assert (next_to c c1) by (apply next_to_frame; [done|congruence|lia]).
  destruct (rn_ok r).
  - apply wp_bind, wp_gets. destruct (_ !! u); [|by apply wp_ret].
    destruct (negb _); [by apply wp_ret|]. apply wp_bind, wp_modifySink, wp_ret.
    by apply shadows_shrink_from.
  - destruct (bool_decide _); [|by apply finishRenew_grows].
    apply wp_bind, wp_bind, wp_gets, wp_claim; [lia|]. intros c2 cr Hg2 Hcr. unfold renewReclaimed.
    destruct (cl_ok cr) eqn:Hcl.
    + destruct Hcr as [[? _]|[-> Hn2]]; [done|]. rewrite Hn1, Hn0 in *.
      apply reclaimCommit_grows; [done|congruence|lia].
    + apply finishRenew_grows, next_to_frame; [done|congruence|lia].
Qed.

Lemma wp_renewTime me (Q : Z -> C -> Prop) X (c : C) :
  (forall c' t, c_gateways c' = c_gateways c -> c_presence c' = c_presence c -> Q t c') -> wp (renewTime me) Q X c.
Proof.
  intros HQ. apply wp_bind, wp_gets. destruct (gs_clock _); [|by apply wp_ret, HQ].
  unfold wp, gatewayNow. destruct (clusterNow (c_env c)) as [e t]. by apply HQ.
Qed.

Lemma renew_grows me u (c : C) :
  shadows_ok R c -> 0 <= nE c < 2 ^ 64 - 1 -> grows (renew me u) c.
Proof.
  intros Hok Hn. apply wp_bind, wp_renewTime. intros c' t Hg Hp.
  apply renewAt_grows; [done|done|done|]. unfold nE. by rewrite Hp.
Qed.

Lemma wp_deliverLocal me a (Q : DeliverDisposition -> C -> Prop) X (c : C) :
  (forall e o, localDeliver me a (c_env c) = (e, o) ->
     match o with
     | Ret d => Q d (mkCluster (c_presence c) (c_gateways c) (c_targets c) e)
     | Throw x => X x (mkCluster (c_presence c) (c_gateways c) (c_targets c) e)
     end) ->
  wp (deliverLocal me a) Q X c.
Proof.
  intros H. unfold wp, deliverLocal. destruct (localDeliver me a (c_env c)) as [e o] eqn:Hd.
  exact (H e o eq_refl).
Qed.

(** The directory answers with [route] for the user. *)
Definition locatedAt (c : C) (u : UserId) (route : DeliveryRoute) : Prop :=
  exists pe l, InMemoryPresence.locate u (c_presence c, c_env c) = (pe, Ret l) /\
    lc_ok l = true /\ lc_route l = route.

(** The route is that of the user's entry, which is there and has not expired. *)
Lemma located_entry c u route :
  locatedAt c u route ->
  exists en, entries_ (c_presence c) !! u = Some en /\
    route = mkRoute u (en_gatewayId en) (en_connectionId en) (en_sessionEpoch en).
Proof.
  intros (pe & l & Hl & Hok & <-). revert Hl.
  unfold InMemoryPresence.locate, bind, InMemoryPresence.getDir, gets. cbn [fst].
  destruct (failure_ _); [by intros [= <- <-]|].
  destruct (entries_ _ !! u) as [en|]; [|by intros [= <- <-]].
  rewrite now_run. destruct (_ <=? _); intros [= <- <-]; [done|]. by exists en.
Qed.

Lemma wp_locate u (Q : LocateResult -> C -> Prop) X (c : C) :
  (forall c' r, c_gateways c' = c_gateways c -> c_presence c' = c_presence c ->
     c_targets c' = c_targets c -> (lc_ok r = true -> locatedAt c u (lc_route r)) -> Q r c') ->
  wp (onPresence (presenceLocate u)) Q X c.
Proof.
  intros HQ. cbn [presenceLocate inMemoryPresence].
  assert (exists e r, InMemoryPresence.locate u (c_presence c, c_env c) = ((c_presence c, e), Ret r)) as (e & r & Hr).
  { unfold InMemoryPresence.locate, bind, InMemoryPresence.getDir, gets. cbn [fst].
    destruct (failure_ _); [by eexists _, _|].
    destruct (entries_ _ !! u) as [en|]; [|by eexists _, _].
    rewrite now_run. destruct (_ <=? _); by eexists _, _. }
  eapply wp_presence; [exact Hr|]. apply HQ; [done|done|done|]. intros Hok. by eexists _, r.
Qed.

Lemma crossNode_grows t route a (c : C) : shadows_ok R c -> grows (deliverCrossNode t route a) c.
Proof.
  intros Hok. apply wp_bind, wp_gets. destruct (negb _); [by apply wp_ret, next_to_refl|].
  destruct (negb _); [by apply wp_ret, next_to_refl|].
  apply wp_bind, wp_deliverLocal. intros e o _.
  destruct o; [apply wp_ret|]; apply next_to_frame; (done || (unfold nE; cbn; lia)).
Qed.

Lemma deliverLocal_grows me a (c c1 : C) :
  next_to c c1 ->
  wp (deliverLocal me a) (fun _ c' => next_to c c') (fun _ c' => next_to c c') c1.
Proof.
  intros [Hok Hn]. apply wp_deliverLocal. intros e o _.
  assert (next_to c (mkCluster (c_presence c1) (c_gateways c1) (c_targets c1) e)).
  { split; [eapply shadows_frame; [done|done|unfold nE; cbn; lia]|exact Hn]. }
  by destruct o.
Qed.

Lemma deliverShadowed_grows me a (c : C) : shadows_ok R c -> grows (deliverShadowed me a) c.
Proof.
  intros Hok. apply wp_bind, wp_gets. destruct (_ !! _) as [s|]; [|by apply wp_ret, next_to_refl].
  apply wp_bind. eapply wp_mono; [by apply deliverLocal_grows, next_to_refl| |done].
  intros d c' Hc'. by apply wp_ret.
Qed.

Lemma deliverMatching_grows me route a (c c1 : C) :
  next_to c c1 ->
  wp (deliverMatching me route a) (fun _ c' => next_to c c') (fun _ c' => next_to c c') c1.
Proof.
  intros H. apply wp_bind, wp_gets. destruct (negb _); [by apply wp_ret|by apply deliverLocal_grows].
Qed.

Lemma gatewayDeliver_grows me a (c : C) : shadows_ok R c -> grows (gatewayDeliver me a) c.
Proof.
  intros Hok. apply wp_bind, wp_bind, wp_gets. destruct (_ !! _) as [s|].
  { apply wp_bind. eapply wp_mono; [by apply deliverLocal_grows, next_to_refl| |done].
    intros d c' Hc'. by apply wp_ret, wp_ret. }
  apply wp_ret, wp_bind, wp_bind, wp_locate. intros c1 l Hg Hp _ _. apply wp_ret.
  assert (next_to c c1) as Hc1 by (apply next_to_frame; [done|done|unfold nE; rewrite Hp; lia]).
  destruct (lc_ok l); [|by apply wp_ret]. apply wp_bind, wp_gets. destruct (negb _).
  - apply wp_bind, wp_bind, wp_gets. destruct (_ !! _); [|by apply wp_ret, wp_ret].
    assert (nE c1 = nE c) as Hn by (unfold nE; by rewrite Hp).
    eapply wp_mono; [apply crossNode_grows, Hc1| |]; intros ? ? ?; [apply wp_ret|];
      by eapply next_to_trans.
  - by apply deliverMatching_grows.
Qed.

Lemma clusterCall_grows call (c : C) :
  shadows_ok R c -> 0 <= nE c < 2 ^ 64 - 1 -> next_to c (clusterCall call c).1.
Proof.
  intros Hok Hn. assert (grows (clusterCall call) c) as H.
  { destruct call; cbn [clusterCall].
    - by apply grows_forget, bindUser_grows.
    - by apply grows_forget, unbindUser_grows.
    - by apply grows_forget, releaseUser_grows.
    - by apply grows_forget, renew_grows.
    - by apply grows_forget, gatewayDeliver_grows.
    - apply wp_modifySink. by apply shadows_shrink.
    - apply grows_forget. destruct target; [|by apply wp_ret, next_to_refl].
      apply wp_bind, wp_modify, wp_ret, next_to_frame; (done || (unfold nE; cbn; lia)).
    - apply wp_modify, next_to_frame; (done || (unfold nE; cbn; lia)).
    - eapply wp_presence; [done|]. apply next_to_frame; (done || (unfold nE; cbn; lia)). }
  unfold wp in H. by destruct (clusterCall call c) as [c' []].
Qed.

End reserved.

Lemma newCluster_ok ttl e : shadows_ok (fun _ => False) (newCluster ttl e).
Proof.
  split.
  - intros g. unfold sinkOf. cbn. by rewrite lookup_empty.
  - intros g u s. unfold shadowAt, sinkOf. cbn. rewrite lookup_empty. cbn. by rewrite lookup_empty.
  - intros g g' u u' s s'. unfold shadowAt, sinkOf. cbn. rewrite !lookup_empty. cbn. by rewrite lookup_empty.
  - done.
Qed.

Lemma matchesRoute_true g u route :
  matchesRoute g u route = true ->
  gs_shadow g !! u = Some (mkShadow (rt_connectionId route) (rt_sessionEpoch route)).
Proof.
  unfold matchesRoute. destruct (gs_shadow g !! u) as [[]|]; [|done]. cbn.
  intros [->%Z.eqb_eq ->%Z.eqb_eq]%andb_true_iff. done.
Qed.
End cluster.

(** ** The renewal backoff *)

(** One failed renewal after another, at the given times. *)
Definition failRenewals {P E} (me : GatewayId) (user : UserId) (times : list Z) (c : Cluster P E)
  : Cluster P E :=
  foldl (fun c now => (finishRenew me user now (mkRenewResult false 0 DependencyUnavailable) c).1) c times.

Section backoff.
Context {P E : Type} (me : GatewayId) (user : UserId).

(** The window the next failure opens after [n] failures. *)
Definition window (n : nat) : Z := Z.min kRenewBackoffCapMs (kRenewBackoffBaseMs * 2 ^ Z.of_nat n).

Definition failedTimes (n : nat) (c : Cluster P E) : Prop :=
  gs_clock (sinkOf me c) = true /\
  gs_renewBackoffMs (sinkOf me c) !! user = match n with O => None | S _ => Some (window n) end.

Lemma window_range n : 2000 <= window n <= 60000.
Proof.
  unfold window, kRenewBackoffCapMs, kRenewBackoffBaseMs.
  assert (0 < 2 ^ Z.of_nat n) by (apply Z.pow_pos_nonneg; lia). lia.
Qed.

Lemma window_succ n :
  (if kRenewBackoffCapMs <? window n * 2 then kRenewBackoffCapMs else window n * 2) = window (S n).
Proof.
  unfold window, kRenewBackoffCapMs, kRenewBackoffBaseMs.
  rewrite Nat2Z.inj_succ, Z.pow_succ_r by lia.
  assert (0 < 2 ^ Z.of_nat n) by (apply Z.pow_pos_nonneg; lia).
  destruct (Z.ltb_spec 60000 (Z.min 60000 (2000 * 2 ^ Z.of_nat n) * 2)); lia.
Qed.

Lemma fail_once n now (c : Cluster P E) :
  failedTimes n c ->
  failedTimes (S n) (failRenewals me user [now] c) /\
  gs_nextRenewAtMs (sinkOf me (failRenewals me user [now] c)) !! user = Some (i64 (now + window n)).
Proof.
  intros [Hc Hb]. pose proof (window_range n) as Hr. pose proof (window_succ n) as Hs.
  assert (match gs_renewBackoffMs (sinkOf me c) !! user with
          | Some b => if 0 <? b then b else kRenewBackoffBaseMs | None => kRenewBackoffBaseMs end
          = window n) as Hw.
  { rewrite Hb. destruct n; [done|]. by destruct (Z.ltb_spec 0 (window (S n))); [|lia]. }
  assert (failRenewals me user [now] c = (backOff me user now c).1) as ->.
  { unfold failRenewals, finishRenew, bind, getSink, gets. cbn [foldl]. by rewrite Hc. }
  unfold failedTimes, backOff. rewrite sinkOf_modify, decide_True by done. cbn.
  rewrite !lookup_insert_eq, Hw, Hc, (i64_small (window n * 2)) by (split; lia). by rewrite Hs.
Qed.

Lemma fail_many times n (c : Cluster P E) :
  failedTimes n c -> failedTimes (length times + n) (failRenewals me user times c).
Proof.
  revert n c. induction times as [|t ts IH]; intros n c H; [done|].
  change (failRenewals me user (t :: ts) c) with (failRenewals me user ts (failRenewals me user [t] c)).
  simpl length. rewrite Nat.add_succ_l, <- Nat.add_succ_r. apply IH, fail_once, H.
Qed.

(** When the presence directory is down, the renewals of a user back off: the
    [n]-th failure in a row at time [now] keeps the gateway from asking again
    before [now] plus 2 seconds doubled [n - 1] times and capped at 60 seconds,
    and until then a renewal answers DependencyUnavailable without any call to
    the directory. *)
Theorem renewals_back_off `{!PresenceDirectory P E, !ClusterEnv E} (c : Cluster P E) times now :
  gs_clock (sinkOf me c) = true -> gs_renewBackoffMs (sinkOf me c) !! user = None ->
  isI64 (now + 60000) -> isI64 now ->
  let c' := failRenewals me user (times ++ [now]) c in
  let until := now + Z.min 60000 (2000 * 2 ^ Z.of_nat (length times)) in
  gs_nextRenewAtMs (sinkOf me c') !! user = Some until /\
  (forall t, t < until ->
     renewAt me user t c' = (c', Ret (mkRenewResult false 0 DependencyUnavailable))).
Proof.
  intros Hc Hb H1 H2 c' until.
  assert (failedTimes (length times) (failRenewals me user times c)) as Hf.
  { rewrite <- (Nat.add_0_r (length times)). by apply fail_many. }
  assert (c' = failRenewals me user [now] (failRenewals me user times c)) as Hc'.
  { unfold c', failRenewals. by rewrite foldl_app. }
  destruct (fail_once _ now _ Hf) as [[Hclk _] Hn]. rewrite <- Hc' in Hclk, Hn. clear Hc'. clearbody c'.
  pose proof (window_range (length times)) as Hr.
  rewrite i64_small in Hn by (unfold isI64 in *; lia). split; [exact Hn|].
  intros t Ht. unfold renewAt, renewCheck, bind, getSink, gets. rewrite Hclk, Hn. cbn [andb].
  change (now + window (length times)) with until. by destruct (Z.ltb_spec t until); [|lia].
Qed.
End backoff.

(** ** Concrete clusters *)

Definition attemptFor (u : UserId) : DeliveryAttempt := mkAttempt 1 1 1 4 u Direct u 0 EmptyString 1.

(** The third failure in a row at 9000 opens a window of 8 seconds. *)
Lemma renewals_back_off_witness :
  let c := runCluster [CallSetClock 1 true; CallBind 1 5 10] (newCluster 30000 100) in
  gs_nextRenewAtMs (sinkOf 1 (failRenewals 1 5 ([1000; 4000] ++ [9000]) c)) !! 5 = Some 17000.
Proof.
  intros c.
  exact (proj1 (renewals_back_off 1 5 c [1000; 4000] 9000 eq_refl eq_refl
    ltac:(unfold isI64; lia) ltac:(unfold isI64; lia))).
Defined.

(** User 5 moves from gateway 1 to gateway 2; then the old connection at gateway 1
    closes. *)
Definition movedCalls : list ClusterCall :=
  [CallRegister 1 (Some 1); CallRegister 2 (Some 2); CallBind 1 5 10; CallBind 2 5 20;
   CallRelease 1 5 10; CallRenew 1 5].

(** The release and the renewal at gateway 1 are refused with NotEpoch and leave its
    shadow entry behind: presence names gateway 2, but gateway 1 hands every
    message for the user to its own sink. *)
Theorem moved_user_stays_shadowed :
  let c := runCluster movedCalls (newCluster 30000 100) in
  en_gatewayId <$> entries_ (c_presence c) !! 5 = Some 2 /\
  locallyClaimed 1 5 c = true /\
  gatewayDeliver 1 (attemptFor 5) c = deliverLocal 1 (attemptFor 5) c.
Proof. vm_compute. repeat split. Qed.
