(* ===== verification/GatewayThreads.v ===== *)
(** * Gateways whose calls interleave

    [deliver] and [renew] of GatewayAwareDeliverySink give up their lock between
    their critical sections and around the calls of the directory and of the
    transport.  Here a call is a thread that does one such section at a time, with
    any steps of other threads in between.  [bindUser], [unbindUser] and
    [releaseUser] hold the lock of their gateway throughout, the directory does one
    operation at a time, and what other gateways do at the directory meanwhile does
    not touch the shadow that they change: they are one step each. *)

From S2P Require Import Prelude DomainTypes Presence Gateway GatewayInv.

Open Scope Z_scope.
Open Scope eff_scope.

(** Where a call stands.  [remote]: the recipient was not in the shadow of the
    sending gateway when the call looked. *)
Inductive Phase :=
| PhDeliver (a : DeliveryAttempt)
| PhLocate (a : DeliveryAttempt)
| PhRouted (a : DeliveryAttempt) (route : DeliveryRoute)
| PhHanded (target : GatewayId) (a : DeliveryAttempt) (route : DeliveryRoute)
| PhAnswered (a : DeliveryAttempt) (remote : bool) (d : DeliverDisposition)
| PhRenew (user : UserId)
| PhRenewAt (user : UserId) (now : Z)
| PhRenewAsk (user : UserId) (now : Z) (snap : Shadow)
| PhRenewed (user : UserId) (now : Z) (snap : Shadow) (r : RenewResult)
| PhReclaimed (user : UserId) (now : Z) (snap : Shadow) (c : ClaimResult)
| PhRenewDone (user : UserId) (r : RenewResult).

(** [ca_begin]: the number of steps before the call began. *)
Record Call := mkCall {
  ca_begin : nat;
  ca_gateway : GatewayId;
  ca_phase : Phase;
}.

Record Threads (P E : Type) := mkThreads {
  th_cluster : Cluster P E;
  th_calls : gmap nat Call;
  th_time : nat;
}.
Arguments mkThreads {P E}.
Arguments th_cluster {P E}.
Arguments th_calls {P E}.
Arguments th_time {P E}.

Inductive ThreadStep :=
| BeginDeliver (p : nat) (me : GatewayId) (a : DeliveryAttempt)
| BeginRenew (p : nat) (me : GatewayId) (user : UserId)
| Advance (p : nat)
| WholeCall (call : ClusterCall).

Definition finished (ph : Phase) : bool :=
  match ph with PhAnswered _ _ _ | PhRenewDone _ _ => true | _ => false end.

Section sections.
Context {P E : Type} `{!PresenceDirectory P E, !ClusterEnv E}.

Notation ceff := (eff exn (Cluster P E)).

(** The next section of a call. *)
Definition section (me : GatewayId) (ph : Phase) : ceff Phase :=
  match ph with
  | PhDeliver a =>
      here <- deliverShadowed me a ;;
      ret (match here with Some d => PhAnswered a false d | None => PhLocate a end)
  | PhLocate a =>
      route <- locateRecipient a ;;
      ret (match route with None => PhAnswered a true DispClosed | Some route => PhRouted a route end)
  | PhRouted a route =>
      remote <- remoteRoute me route ;;
      if (remote : bool) then
        target <- findTarget route ;;
        ret (match target with None => PhAnswered a true DispClosed | Some t => PhHanded t a route end)
      else
        d <- deliverMatching me route a ;; ret (PhAnswered a true d)
  | PhHanded t a route =>
      r <- deliverCrossNode t route a ;; ret (PhAnswered a true (remoteDisposition r))
  | PhAnswered _ _ _ => ret ph
  | PhRenew u => now <- renewTime me ;; ret (PhRenewAt u now)
  | PhRenewAt u now =>
      check <- renewCheck me u now ;;
      ret (match check with inl r => PhRenewDone u r | inr snap => PhRenewAsk u now snap end)
  | PhRenewAsk u now snap => r <- renewAsk me u snap ;; ret (PhRenewed u now snap r)
  | PhRenewed u now snap r =>
      if rn_ok r then r' <- renewCommit me u snap r ;; ret (PhRenewDone u r')
      else if bool_decide (rn_error r = PresNotFound) then
        c <- renewReclaim me u snap ;; ret (PhReclaimed u now snap c)
      else r' <- finishRenew me u now r ;; ret (PhRenewDone u r')
  | PhReclaimed u now snap c => r <- renewReclaimed me u now snap c ;; ret (PhRenewDone u r)
  | PhRenewDone _ _ => ret ph
  end.

(** A call whose sections run one after the other. *)
Fixpoint runSections (n : nat) (me : GatewayId) (ph : Phase) : ceff Phase :=
  match n with
  | O => ret ph
  | S n => ph <- section me ph ;; runSections n me ph
  end.

Definition answerOf (ph : Phase) : option DeliverDisposition :=
  match ph with PhAnswered _ _ d => Some d | _ => None end.

Definition renewalOf (ph : Phase) : option RenewResult :=
  match ph with PhRenewDone _ r => Some r | _ => None end.

Definition omapOutcome {A B} (f : A -> B) (o : outcome exn A) : outcome exn B :=
  match o with Ret a => Ret (f a) | Throw x => Throw x end.

#[local] Ltac ended := cbn; split; reflexivity.

(** The sections put together are the calls of [Gateway]. *)
Lemma deliver_sections me a (c : Cluster P E) :
  let r := runSections 4 me (PhDeliver a) c in
  let d := gatewayDeliver me a c in
  r.1 = d.1 /\ omapOutcome answerOf r.2 = omapOutcome Some d.2.
Proof.
  cbn [runSections section]. unfold gatewayDeliver, bind.
  destruct (deliverShadowed me a c) as [c1 [[d|]|x]]; [ended| |ended]. cbn [section ret]; unfold bind.
  destruct (locateRecipient a c1) as [c2 [[route|]|x]]; [|ended|ended]. cbn [section ret]; unfold bind.
  unfold remoteRoute, gets. destruct (negb _).
  - unfold transportDeliver, findTarget, bind, gets. destruct (c_targets c2 !! _) as [t|]; [|ended]. cbn [section ret]; unfold bind.
    destruct (deliverCrossNode t route a c2) as [c3 [r|x]]; ended.
  - destruct (deliverMatching me route a c2) as [c3 [r|x]]; ended.
Qed.

Lemma renew_sections me u (c : Cluster P E) :
  let r := runSections 5 me (PhRenew u) c in
  let d := renew me u c in
  r.1 = d.1 /\ omapOutcome renewalOf r.2 = omapOutcome Some d.2.
Proof.
  cbn [runSections section]. unfold renew, renewAt, bind.
  destruct (renewTime me c) as [c1 [now|x]]; [|ended]. cbn [section ret]; unfold bind.
  destruct (renewCheck me u now c1) as [c2 [[r|snap]|x]]; [ended| |ended]. cbn [section ret]; unfold bind.
  destruct (renewAsk me u snap c2) as [c3 [r|x]]; [|ended]. cbn [section ret]; unfold bind.
  destruct (rn_ok r).
  { unfold bind. destruct (renewCommit me u snap r c3) as [c4 [r'|x]]; ended. }
  destruct (bool_decide _); unfold bind.
  - destruct (renewReclaim me u snap c3) as [c4 [cl|x]]; [|ended]. cbn [section ret]; unfold bind.
    destruct (renewReclaimed me u now snap cl c4) as [c5 [r'|x]]; ended.
  - destruct (finishRenew me u now r c3) as [c4 [r'|x]]; ended.
Qed.
End sections.

(** ** Executions *)

Section threads.
Context {E : Type} `{!ClusterEnv E}.

Notation C := (Cluster InMemoryPresenceDirectory E).
Notation T := (Threads InMemoryPresenceDirectory E).

(** A thread begins a call when it has none under way. *)
Definition beginCall (p : nat) (me : GatewayId) (ph : Phase) (n : T) : T :=
  let free := match th_calls n !! p with Some call => finished (ca_phase call) | None => true end in
  mkThreads (th_cluster n)
    (if free then <[p := mkCall (th_time n) me ph]> (th_calls n) else th_calls n) (S (th_time n)).

(** A call that throws is over. *)
Definition advance (p : nat) (n : T) : T :=
  match th_calls n !! p with
  | None => mkThreads (th_cluster n) (th_calls n) (S (th_time n))
  | Some call =>
      let '(c, o) := section (ca_gateway call) (ca_phase call) (th_cluster n) in
      mkThreads c
        (match o with
         | Ret ph => <[p := mkCall (ca_begin call) (ca_gateway call) ph]> (th_calls n)
         | Throw _ => delete p (th_calls n)
         end) (S (th_time n))
  end.

Definition threadStep (n : T) (st : ThreadStep) : T :=
  match st with
  | BeginDeliver p me a => beginCall p me (PhDeliver a) n
  | BeginRenew p me u => beginCall p me (PhRenew u) n
  | Advance p => advance p n
  | WholeCall call => mkThreads (clusterCall call (th_cluster n)).1 (th_calls n) (S (th_time n))
  end.

Definition runThreads (steps : list ThreadStep) (n : T) : T := foldl threadStep n steps.

Definition newThreads (ttl : Z) (e : E) : T := mkThreads (newCluster ttl e) ∅ 0.

(** ** The epochs stay distinct *)

Definition phaseEpoch (ph : Phase) : option SessionEpoch :=
  match ph with PhReclaimed _ _ _ c => if cl_ok c then Some (cl_epoch c) else None | _ => None end.

(** Epochs that a renewal was given and has not entered yet. *)
Definition reserved (calls : gmap nat Call) (ep : SessionEpoch) : Prop :=
  exists p call, calls !! p = Some call /\ phaseEpoch (ca_phase call) = Some ep.

Record threads_ok (n : T) : Prop := {
  to_shadows : shadows_ok (reserved (th_calls n)) (th_cluster n);
  to_once : forall p p' call call' ep, th_calls n !! p = Some call -> th_calls n !! p' = Some call' ->
    phaseEpoch (ca_phase call) = Some ep -> phaseEpoch (ca_phase call') = Some ep -> p = p';
  to_epochs : 1 <= nE (th_cluster n) <= 1 + Z.of_nat (th_time n);
}.

(** Calls that hold an epoch after a step held it before. *)
Definition narrows (calls calls' : gmap nat Call) : Prop :=
  forall p call ep, calls' !! p = Some call -> phaseEpoch (ca_phase call) = Some ep ->
    exists call0, calls !! p = Some call0 /\ phaseEpoch (ca_phase call0) = Some ep.

Lemma narrows_refl calls : narrows calls calls.
Proof. intros p call ep Hc He. by exists call. Qed.

Lemma narrows_insert calls p call : phaseEpoch (ca_phase call) = None -> narrows calls (<[p := call]> calls).
Proof.
  intros Hn q call' ep Hq He. apply lookup_insert_Some in Hq as [[<- <-]|[_ Hq]]; [congruence|by exists call'].
Qed.

Lemma narrows_delete calls p : narrows calls (delete p calls).
Proof. intros q call ep Hq He. apply lookup_delete_Some in Hq as [_ Hq]. by exists call. Qed.

Lemma threads_ok_step n c calls :
  threads_ok n -> shadows_ok (reserved calls) c -> narrows (th_calls n) calls ->
  nE (th_cluster n) <= nE c <= nE (th_cluster n) + 1 -> threads_ok (mkThreads c calls (S (th_time n))).
Proof.
  intros [H1 H2 H3] Hs Hnar Hn. split; cbn; [done| |lia].
  intros p p' call call' ep Hp Hp' He He'. destruct (Hnar _ _ _ Hp He) as (c0 & ? & ?).
  destruct (Hnar _ _ _ Hp' He') as (c1 & ? & ?). eauto.
Qed.

Lemma narrows_next n c calls :
  threads_ok n -> next_to (reserved (th_calls n)) (th_cluster n) c -> narrows (th_calls n) calls ->
  threads_ok (mkThreads c calls (S (th_time n))).
Proof.
  intros Hok [Hs Hn] Hnar. apply threads_ok_step; [done| |done|done].
  eapply shadows_weaken; [|exact Hs]. intros ep (p & call & Hp & He).
  destruct (Hnar _ _ _ Hp He) as (call0 & ? & ?). by exists p, call0.
Qed.

Notation kept R c m := (wp m (fun ph c' => next_to R c c' /\ phaseEpoch ph = None) (fun _ c' => next_to R c c') c).

(** Sections that neither get nor enter an epoch. *)
Definition plain (ph : Phase) : Prop :=
  match ph with
  | PhReclaimed _ _ _ _ => False
  | PhRenewed _ _ _ r => rn_ok r = true \/ rn_error r <> PresNotFound
  | _ => True
  end.

Lemma kept_bind {A} R (m : eff exn C A) (f : A -> Phase) c :
  wp m (fun _ c' => next_to R c c') (fun _ c' => next_to R c c') c ->
  (forall x, phaseEpoch (f x) = None) -> kept R c (x <- m ;; ret (f x)).
Proof. intros Hm Hf. apply wp_bind. eapply wp_mono; [exact Hm| |done]. intros x c' Hc'. by apply wp_ret. Qed.

Lemma next_to_locate R a (c : C) :
  shadows_ok R c -> wp (locateRecipient a) (fun _ c' => next_to R c c') (fun _ c' => next_to R c c') c.
Proof.
  intros Hok. apply wp_bind, wp_locate. intros c1 l Hg Hp _ _.
  apply wp_ret, next_to_frame; [done|done|unfold nE; rewrite Hp; lia].
Qed.

Lemma next_to_renewAsk R me u snap (c : C) :
  shadows_ok R c -> wp (renewAsk me u snap) (fun _ c' => next_to R c c') (fun _ c' => next_to R c c') c.
Proof.
  intros Hok. apply wp_bind, wp_gets, wp_renew. intros c1 r Hg Hn. apply next_to_frame; [done|done|lia].
Qed.

Lemma next_to_renewCommit R me u snap r (c : C) :
  shadows_ok R c -> wp (renewCommit me u snap r) (fun _ c' => next_to R c c') (fun _ c' => next_to R c c') c.
Proof.
  intros Hok. apply wp_bind, wp_gets. destruct (_ !! u); [|by apply wp_ret, next_to_refl].
  destruct (negb _); [by apply wp_ret, next_to_refl|]. apply wp_bind, wp_modifySink, wp_ret.
  apply shadows_shrink_from; [by apply next_to_refl|done|done].
Qed.

Lemma section_plain R me ph (c : C) : plain ph -> shadows_ok R c -> kept R c (section me ph).
Proof.
  intros Hph Hok. pose proof (next_to_refl R c Hok) as Hrefl.
  destruct ph as [a|a|a route|t a route|a b d|u|u now|u now snap|u now snap r|u now snap cl|u r]; cbn [section].
  - apply kept_bind; [by apply deliverShadowed_grows|by intros []].
  - apply kept_bind; [by apply next_to_locate|by intros []].
  - apply wp_bind, wp_gets. destruct (negb _).
    + apply kept_bind; [by apply wp_gets|by intros []].
    + apply kept_bind; [by apply deliverMatching_grows|done].
  - apply kept_bind; [by apply crossNode_grows|done].
  - by apply wp_ret.
  - apply kept_bind; [|done]. apply wp_renewTime. intros c' t Hg Hp.
    apply next_to_frame; [done|done|unfold nE; rewrite Hp; lia].
  - apply kept_bind; [|by intros []]. apply wp_bind, wp_gets. destruct (_ && _); by apply wp_ret.
  - apply kept_bind; [by apply next_to_renewAsk|done].
  - destruct (rn_ok r) eqn:Hr; [apply kept_bind; [by apply next_to_renewCommit|done]|].
    destruct Hph as [?|Hph]; [congruence|]. rewrite bool_decide_false by done.
    apply kept_bind; [by apply finishRenew_grows|done].
  - done.
  - by apply wp_ret.
Qed.

(** Entering an epoch that was reserved. *)
Lemma reclaimCommit_enters (R R' : SessionEpoch -> Prop) me u snap ep (c : C) :
  shadows_ok R c -> R ep -> (forall x, R' x -> R x /\ x <> ep) ->
  wp (reclaimCommit me u snap ep) (fun _ c' => shadows_ok R' c' /\ nE c' = nE c) (fun _ _ => False) c.
Proof.
  intros Hok Hep HR. assert (shadows_ok R' c) as Hok' by (eapply shadows_weaken; [|exact Hok]; by intros x [? _]%HR).
  destruct (so_reserved R c Hok ep Hep) as [Hlt Hne]. apply wp_bind, wp_gets, wp_bind.
  destruct (_ !! u) as [s|]; [|by apply wp_ret, wp_ret]. destruct (_ =? _); [|by apply wp_ret, wp_ret].
  apply wp_modifySink, wp_ret. split; [|done]. apply shadows_modify; [done|done|].
  intros u' s'. cbn. rewrite lookup_insert_Some. intros [[<- <-]|[_ Hs]]; [|by left].
  right. cbn. split; [split; [done|by intros [_ ?]%HR]|]. split; [done|].
  intros v s'. rewrite lookup_insert_Some. intros [[<- _]|[_ Hs']] He; [done|].
  by destruct (Hne me v s' Hs').
Qed.

(** The claim of a renewal reserves the epoch it gets. *)
Lemma renewReclaim_reserves R me u snap (c : C) :
  shadows_ok R c -> 0 <= nE c < 2 ^ 64 - 1 ->
  wp (renewReclaim me u snap)
    (fun cl c' => nE c <= nE c' <= nE c + 1 /\ (cl_ok cl = true -> cl_epoch cl = nE c) /\
       shadows_ok (fun ep => R ep \/ (cl_ok cl = true /\ ep = nE c)) c') (fun _ _ => False) c.
Proof.
  intros Hok Hn. apply wp_bind, wp_gets, wp_claim; [done|]. intros c' cl Hg Hcl.
  split; [lia|]. split; [intros Ho; destruct Hcl as [[? _]|[? _]]; congruence|].
  assert (shadows_ok R c') as [H1 H2 H3 H4] by (eapply shadows_frame; [done|done|lia]). split; [done..|].
  intros ep [Hep|[Ho ->]]; [by apply H4|]. destruct Hcl as [[? _]|[_ Hn']]; [congruence|]. split; [lia|].
  intros g v s Hs He. assert (shadowAt c g v = Some s) as Hs0 by (unfold shadowAt, sinkOf in *; by rewrite <- Hg).
  pose proof (so_below R c Hok g v s Hs0). lia.
Qed.

Lemma reserved_insert calls p call ep :
  reserved (<[p := call]> calls) ep -> reserved calls ep \/ phaseEpoch (ca_phase call) = Some ep.
Proof.
  intros (q & call' & Hq & He). apply lookup_insert_Some in Hq as [[<- <-]|[_ Hq]]; [by right|left; by exists q, call'].
Qed.

Lemma advance_plain n p call :
  threads_ok n -> th_calls n !! p = Some call -> plain (ca_phase call) -> threads_ok (advance p n).
Proof.
  intros Hok Hp Hpl. unfold advance. rewrite Hp.
  pose proof (section_plain _ (ca_gateway call) _ _ Hpl (to_shadows n Hok)) as Hw. unfold wp in Hw.
  destruct (section _ _ (th_cluster n)) as [c [ph|x]].
  - destruct Hw as [Hnext Hnone]. apply narrows_next; [done|done|by apply narrows_insert].
  - apply narrows_next; [done|done|apply narrows_delete].
Qed.

Lemma advance_reclaims n p b me u now snap r :
  threads_ok n -> th_calls n !! p = Some (mkCall b me (PhRenewed u now snap r)) ->
  rn_ok r = false -> rn_error r = PresNotFound -> nE (th_cluster n) < 2 ^ 64 - 1 -> threads_ok (advance p n).
Proof.
  intros Hok Hp Hr He Hn. unfold advance. rewrite Hp. cbn [ca_gateway ca_phase section ca_begin].
  rewrite Hr, bool_decide_true by done. destruct Hok as [Hs Honce Hep].
  pose proof (renewReclaim_reserves _ me u snap _ Hs ltac:(lia)) as Hw. unfold wp in Hw. unfold bind.
  destruct (renewReclaim me u snap (th_cluster n)) as [c [cl|x]]; [|done]. destruct Hw as (Hgrow & Hcl & Hsc). cbn.
  assert (forall q call ep, th_calls n !! q = Some call -> phaseEpoch (ca_phase call) = Some ep -> ep < nE (th_cluster n)) as Hold.
  { intros q call ep Hq Hqe. apply (so_reserved _ _ Hs). by exists q, call. }
  assert (forall ep, phaseEpoch (PhReclaimed u now snap cl) = Some ep -> cl_ok cl = true /\ ep = nE (th_cluster n)) as Hnew.
  { intros ep. cbn. destruct (cl_ok cl); [|done]. intros [= <-]. auto. }
  split; cbn; [| |lia].
  - eapply shadows_weaken; [|exact Hsc]. intros ep [?|?%Hnew]%reserved_insert; auto.
  - intros q q' call call' ep Hq Hq' Hqe Hqe'. apply lookup_insert_Some in Hq as [[<- <-]|[? Hq]];
      apply lookup_insert_Some in Hq' as [[<- <-]|[? Hq']]; [done| | |eauto].
    + apply Hnew in Hqe as [_ ->]. specialize (Hold _ _ _ Hq' Hqe'). lia.
    + apply Hnew in Hqe' as [_ ->]. specialize (Hold _ _ _ Hq Hqe). lia.
Qed.

Lemma advance_enters n p b me u now snap cl :
  threads_ok n -> th_calls n !! p = Some (mkCall b me (PhReclaimed u now snap cl)) -> threads_ok (advance p n).
Proof.
  intros Hok Hp. unfold advance. rewrite Hp. cbn [ca_gateway ca_phase section ca_begin].
  unfold bind, renewReclaimed. destruct (cl_ok cl) eqn:Hcl.
  - assert (reserved (th_calls n) (cl_epoch cl)) as Hres by (exists p; eexists; split; [exact Hp|cbn; by rewrite Hcl]).
    set (calls := fun r => <[p := mkCall b me (PhRenewDone u r)]> (th_calls n)).
    assert (forall r x, reserved (calls r) x -> reserved (th_calls n) x /\ x <> cl_epoch cl) as HR.
    { intros r x (q & call & Hq & He). apply lookup_insert_Some in Hq as [[<- <-]|[Hne Hq]]; [done|].
      split; [by exists q, call|]. intros ->. apply Hne. eapply (to_once n Hok); [exact Hp|exact Hq| |exact He].
      cbn. by rewrite Hcl. }
    pose proof (reclaimCommit_enters _ (fun x => reserved (th_calls n) x /\ x <> cl_epoch cl) me u snap _ _
      (to_shadows n Hok) Hres ltac:(done)) as Hw.
    unfold wp in Hw. destruct (reclaimCommit me u snap (cl_epoch cl) (th_cluster n)) as [c [r|x]]; [|done].
    destruct Hw as [Hs Hn]. cbn.
    apply threads_ok_step; [done|by eapply shadows_weaken; [apply (HR r)|]|by apply narrows_insert|lia].
  - pose proof (finishRenew_grows _ me u now (mkRenewResult false 0 (cl_error cl)) _ _
      (next_to_refl _ _ (to_shadows n Hok))) as Hw. unfold wp in Hw.
    destruct (finishRenew me u now (mkRenewResult false 0 (cl_error cl)) (th_cluster n)) as [c [r|x]]; cbn;
      (apply narrows_next; [done|done|by apply narrows_insert || apply narrows_delete]).
Qed.

Lemma advanceCall_ok n p : threads_ok n -> nE (th_cluster n) < 2 ^ 64 - 1 -> threads_ok (advance p n).
Proof.
  intros Hok Hn. destruct (th_calls n !! p) as [[b me ph]|] eqn:Hp.
  - destruct ph as [| | | | | | | |u now snap r|u now snap cl|] eqn:Hph; try (by eapply advance_plain).
    + destruct (rn_ok r) eqn:Hr; [eapply advance_plain; [done|done|by left]|].
      destruct (decide (rn_error r = PresNotFound)); [by eapply advance_reclaims|].
      eapply advance_plain; [done|done|by right].
    + by eapply advance_enters.
  - unfold advance. rewrite Hp. apply narrows_next; [done|apply next_to_refl, Hok|apply narrows_refl].
Qed.

Lemma threadStep_ok n st : threads_ok n -> nE (th_cluster n) < 2 ^ 64 - 1 -> threads_ok (threadStep n st).
Proof.
  intros Hok Hn. pose proof (to_epochs n Hok) as He.
  assert (forall p me ph, phaseEpoch ph = None -> threads_ok (beginCall p me ph n)) as Hbegin.
  { intros p me ph Hph. apply narrows_next; [done|apply next_to_refl, Hok|].
    destruct (match th_calls n !! p with Some _ => _ | None => _ end); [by apply narrows_insert|apply narrows_refl]. }
  destruct st as [p me a|p me u|p|call]; cbn [threadStep]; [by apply Hbegin|by apply Hbegin|by apply advanceCall_ok|].
  apply narrows_next; [done|apply clusterCall_grows; [apply Hok|lia]|apply narrows_refl].
Qed.

Lemma step_time n st : th_time (threadStep n st) = S (th_time n).
Proof.
  destruct st as [p me a|p me u|p|call]; try done. cbn [threadStep]. unfold advance.
  destruct (th_calls n !! p); [|done]. by destruct (section _ _ _).
Qed.

Lemma runThreads_ok steps ttl e0 :
  Z.of_nat (length steps) < 2 ^ 63 ->
  threads_ok (runThreads steps (newThreads ttl e0)) /\ th_time (runThreads steps (newThreads ttl e0)) = length steps.
Proof.
  induction steps as [|st steps IH] using rev_ind; intros Hlen.
  { split; [|done]. split; cbn; [|done|lia]. eapply shadows_weaken; [|apply newCluster_ok].
    intros ep (p & call & Hp & _). done. }
  rewrite length_app in *. cbn [length] in *. destruct IH as [Hok Ht]; [lia|].
  unfold runThreads in *. rewrite foldl_app. cbn [foldl]. rewrite step_time, Ht. split; [|lia].
  pose proof (to_epochs _ Hok) as He. rewrite Ht in He. apply threadStep_ok; [done|lia].
Qed.

(** ** What the sections of a delivery do *)

Definition routeTo (u : UserId) (en : Entry) : DeliveryRoute :=
  mkRoute u (en_gatewayId en) (en_connectionId en) (en_sessionEpoch en).

(** The gateway of the route finds the route's session in its shadow, and its sink
    accepts the attempt. *)
Definition acceptsAt (route : DeliveryRoute) (a : DeliveryAttempt) (c c' : C) : Prop :=
  shadowAt c (rt_gatewayId route) (at_recipient a) = Some (mkShadow (rt_connectionId route) (rt_sessionEpoch route)) /\
  localDeliver (rt_gatewayId route) a (c_env c) = (c_env c', Ret DispAccepted).

(** How a call came to its phase. *)
Definition cameFrom (ph ph' : Phase) (c c' : C) : Prop :=
  match ph' with
  | PhRouted a route => ph = PhLocate a /\ locatedAt c (at_recipient a) route
  | PhHanded t a route => ph = PhRouted a route
  | PhAnswered a true DispAccepted =>
      ph = ph' \/ exists route, (ph = PhRouted a route \/ exists t, ph = PhHanded t a route) /\
        (rt_user route = at_recipient a -> acceptsAt route a c c')
  | _ => True
  end.

Lemma deliverLocal_accepts me a (c : C) :
  wp (deliverLocal me a)
    (fun d c' => d = DispAccepted -> localDeliver me a (c_env c) = (c_env c', Ret DispAccepted)) (fun _ _ => True) c.
Proof. apply wp_deliverLocal. intros e [d|x] Hd; [|done]. by intros ->. Qed.

Lemma section_cameFrom R me ph (c : C) :
  shadows_ok R c -> wp (section me ph) (fun ph' c' => cameFrom ph ph' c c') (fun _ _ => True) c.
Proof.
  intros Hok. assert (forall A (m : eff exn C A) (f : A -> Phase),
    (forall x c', cameFrom ph (f x) c c') -> wp (x <- m ;; ret (f x)) (fun ph' c' => cameFrom ph ph' c c') (fun _ _ => True) c) as Hany.
  { intros A m f Hf. unfold wp, bind. destruct (m c) as [c' [x|x]]; [apply Hf|done]. }
  destruct ph as [a|a|a route|t a route|a b d|u|u now|u now snap|u now snap r|u now snap cl|u r]; cbn [section];
    try (by apply Hany; intros; repeat case_match).
  - apply wp_bind, wp_bind, wp_locate. intros c1 l _ _ _ Hl. apply wp_ret, wp_ret. destruct (lc_ok l); cbn; auto.
  - apply wp_bind, wp_gets. destruct (Z.eqb_spec (rt_gatewayId route) (gs_localGateway (sinkOf me c))) as [Hg|]; cbn [negb].
    2:{ apply wp_bind, wp_gets, wp_ret. by destruct (_ !! _). }
    rewrite (so_local R c Hok) in Hg. apply wp_bind, wp_bind, wp_gets.
    destruct (matchesRoute _ _ _) eqn:Hm; cbn [negb]; [|by apply wp_ret, wp_ret]. apply matchesRoute_true in Hm.
    eapply wp_mono; [apply deliverLocal_accepts| |done]. intros d c' Hd. apply wp_ret. destruct d; try done.
    right. exists route. split; [by left|]. intros _. unfold acceptsAt. rewrite Hg. auto.
  - apply wp_bind, wp_bind, wp_gets. rewrite (so_local R c Hok).
    destruct (Z.eqb_spec (rt_gatewayId route) t) as [Hg|]; cbn [negb]; [|by apply wp_ret, wp_ret].
    destruct (matchesRoute _ _ _) eqn:Hm; cbn [negb]; [|by apply wp_ret, wp_ret]. apply matchesRoute_true in Hm.
    apply wp_bind. eapply wp_mono; [apply deliverLocal_accepts| |done]. intros d c' Hd. apply wp_ret, wp_ret.
    destruct d; try done. right. exists route. split; [right; by exists t|]. intros Hu. unfold acceptsAt.
    rewrite Hg, <- Hu. auto.
  - apply wp_ret. destruct b, d; cbn; auto.
  - destruct (rn_ok r); [by apply Hany|]. destruct (bool_decide _); by apply Hany.
  - by apply wp_ret.
Qed.

(** ** The history of a delivery *)

Section history.
Context (ttl : Z) (e0 : E).

(** The cluster after the first [i] steps. *)
Definition clusterAfter (steps : list ThreadStep) (i : nat) : C :=
  th_cluster (runThreads (take i steps) (newThreads ttl e0)).

(** Step [i] of thread [p] located the recipient. *)
Definition routed (steps : list ThreadStep) (p since : nat) (a : DeliveryAttempt) (route : DeliveryRoute)
    (i : nat) : Prop :=
  (since <= i < length steps)%nat /\ steps !! i = Some (Advance p) /\
  locatedAt (clusterAfter steps i) (at_recipient a) route.

Definition history (steps : list ThreadStep) (p : nat) (call : Call) : Prop :=
  (ca_begin call <= length steps)%nat /\
  match ca_phase call with
  | PhRouted a route | PhHanded _ a route => exists i, routed steps p (ca_begin call) a route i
  | PhAnswered a true DispAccepted =>
      exists route i j, routed steps p (ca_begin call) a route i /\ (i < j < length steps)%nat /\
        steps !! j = Some (Advance p) /\ acceptsAt route a (clusterAfter steps j) (clusterAfter steps (S j))
  | _ => True
  end.

Lemma clusterAfter_app steps st i : (i <= length steps)%nat -> clusterAfter (steps ++ [st]) i = clusterAfter steps i.
Proof. intros Hi. unfold clusterAfter. by rewrite take_app_le. Qed.

Lemma routed_app steps st p since a route i :
  routed steps p since a route i -> routed (steps ++ [st]) p since a route i.
Proof.
  intros (Hi & Hs & Hl). split; [rewrite length_app; cbn; lia|].
  split; [by apply lookup_app_l_Some|]. by rewrite clusterAfter_app by lia.
Qed.

Lemma history_app steps st p call : history steps p call -> history (steps ++ [st]) p call.
Proof.
  intros [Hb Hph]. split; [rewrite length_app; lia|].
  destruct (ca_phase call) as [a|a|a route|t a route|a [] []|u|u now|u now snap|u now snap r|u now snap cl|u r]; try done.
  - destruct Hph as [i Hi]. exists i. by apply routed_app.
  - destruct Hph as [i Hi]. exists i. by apply routed_app.
  - destruct Hph as (route & i & j & Hi & Hj & Hs & Hacc). exists route, i, j.
    split; [by apply routed_app|]. split; [rewrite length_app; cbn; lia|].
    split; [by apply lookup_app_l_Some|]. by rewrite !clusterAfter_app by lia.
Qed.

(** A located route is for the recipient. *)
Lemma routed_user steps p since a route i : routed steps p since a route i -> rt_user route = at_recipient a.
Proof. intros (_ & _ & Hl). by destruct (located_entry _ _ _ Hl) as (en & _ & ->). Qed.

(** One section more. *)
Lemma history_advance steps p b me ph ph' :
  history steps p (mkCall b me ph) ->
  cameFrom ph ph' (clusterAfter (steps ++ [Advance p]) (length steps))
    (clusterAfter (steps ++ [Advance p]) (S (length steps))) ->
  history (steps ++ [Advance p]) p (mkCall b me ph').
Proof.
  intros Hh Hc. pose proof (history_app steps (Advance p) p _ Hh) as Hh'.
  assert ((steps ++ [Advance p]) !! length steps = Some (Advance p)) as Hlast
    by (by apply list_lookup_middle).
  assert (length (steps ++ [Advance p]) = S (length steps)) as Hl by (rewrite length_app; cbn; lia).
  destruct Hh as [Hb Hph], Hh' as [Hb' Hph']. split; [done|]. cbn [ca_phase ca_begin] in *.
  destruct ph' as [a|a|a route|t a route|a [] []|u|u now|u now snap|u now snap r|u now snap cl|u r]; try done; cbn [cameFrom] in Hc.
  - destruct Hc as [-> Hloc]. exists (length steps). split; [lia|]. done.
  - subst ph. exact Hph'.
  - destruct Hc as [->|(route & Hph0 & Hacc)]; [exact Hph'|].
    assert (exists i, routed steps p b a route i) as [i Hi].
    { destruct Hph0 as [->|[t ->]]; exact Hph. }
    exists route, i, (length steps). split; [by apply routed_app|]. split; [destruct Hi as [? _]; lia|].
    split; [done|]. apply Hacc. by eapply routed_user.
Qed.

Lemma clusterAfter_last steps st :
  clusterAfter (steps ++ [st]) (length steps) = th_cluster (runThreads steps (newThreads ttl e0)) /\
  clusterAfter (steps ++ [st]) (S (length steps)) = th_cluster (threadStep (runThreads steps (newThreads ttl e0)) st).
Proof.
  unfold clusterAfter. rewrite take_app_le, take_ge by lia. rewrite take_ge by (rewrite length_app; cbn; lia).
  unfold runThreads. by rewrite foldl_app.
Qed.

Lemma run_history steps p call :
  Z.of_nat (length steps) < 2 ^ 63 -> th_calls (runThreads steps (newThreads ttl e0)) !! p = Some call ->
  history steps p call.
Proof.
  revert call. induction steps as [|st steps IH] using rev_ind; intros call Hlen Hcall; [done|].
  rewrite length_app in Hlen. cbn [length] in Hlen. specialize (fun call => IH call ltac:(lia)).
  destruct (runThreads_ok steps ttl e0) as [Hok Ht]; [lia|].
  destruct (clusterAfter_last steps st) as [Hc0 Hc1].
  unfold runThreads in Hcall. rewrite foldl_app in Hcall. cbn [foldl] in Hcall. fold (runThreads steps (newThreads ttl e0)) in Hcall.
  set (n := runThreads steps (newThreads ttl e0)) in *.
  assert (forall q me ph, match ph with PhDeliver _ | PhRenew _ => True | _ => False end ->
    th_calls (beginCall q me ph n) !! p = Some call -> history (steps ++ [st]) p call) as Hbegin.
  { intros q me ph Hph Hb. cbn in Hb. destruct (match th_calls n !! q with Some _ => _ | None => _ end); [|by apply history_app, IH].
    apply lookup_insert_Some in Hb as [[<- <-]|[_ Hb]]; [|by apply history_app, IH].
    split; [rewrite length_app; cbn; lia|]. by destruct ph. }
  destruct st as [q me a|q me u|q|w]; cbn [threadStep] in *.
  - by apply (Hbegin q me (PhDeliver a)).
  - by apply (Hbegin q me (PhRenew u)).
  - unfold advance in *. destruct (th_calls n !! q) as [[b me ph]|] eqn:Hq; [|by apply history_app, IH].
    cbn [ca_gateway ca_phase ca_begin] in *.
    pose proof (section_cameFrom _ me ph _ (to_shadows n Hok)) as Hw. unfold wp in Hw.
    destruct (section me ph (th_cluster n)) as [c [ph'|x]]; cbn in Hcall, Hc1.
    + apply lookup_insert_Some in Hcall as [[<- <-]|[_ Hcall]]; [|by apply history_app, IH].
      eapply history_advance; [by apply IH|]. by rewrite Hc0, Hc1.
    + apply lookup_delete_Some in Hcall as [_ Hcall]. by apply history_app, IH.
  - by apply history_app, IH.
Qed.
End history.

(** C18: However the calls of any number of gateways interleave, a delivery whose
    recipient the sending gateway had not claimed is answered as accepted only if,
    during the call, the directory answered with the recipient's presence entry, and
    later, still during the call, the sink of the gateway in that entry accepted the
    attempt while that gateway's shadow held the entry's own connection and epoch; at
    that moment no other gateway and no other user held the epoch.  The calls are
    logins, logouts, renewals that lose and regain entries, deliveries, directory
    failures and (even wrong) transport registrations. *)
Theorem remote_delivery_reaches_current_session ttl e0 steps p call a :
  Z.of_nat (length steps) < 2 ^ 63 ->
  th_calls (runThreads steps (newThreads ttl e0)) !! p = Some call ->
  ca_phase call = PhAnswered a true DispAccepted ->
  exists i j en, (ca_begin call <= i < j)%nat /\ (j < length steps)%nat /\
    steps !! i = Some (Advance p) /\ steps !! j = Some (Advance p) /\
    let ci := clusterAfter ttl e0 steps i in
    let cj := clusterAfter ttl e0 steps j in
    entries_ (c_presence ci) !! at_recipient a = Some en /\
    locatedAt ci (at_recipient a) (routeTo (at_recipient a) en) /\
    acceptsAt (routeTo (at_recipient a) en) a cj (clusterAfter ttl e0 steps (S j)) /\
    forall g u s, shadowAt cj g u = Some s -> sh_epoch s = en_sessionEpoch en ->
      g = en_gatewayId en /\ u = at_recipient a.
Proof.
  intros Hlen Hcall Hph. destruct (run_history ttl e0 steps p call Hlen Hcall) as [_ Hh]. rewrite Hph in Hh.
  destruct Hh as (route & i & j & (Hi & Hsi & Hloc) & Hj & Hsj & Hacc).
  destruct (located_entry _ _ _ Hloc) as (en & Hen & ->). exists i, j, en.
  split; [lia|]. split; [lia|]. split; [done|]. split; [done|]. cbv zeta.
  split; [exact Hen|]. split; [exact Hloc|]. split; [exact Hacc|]. intros g u s Hs He.
  destruct (runThreads_ok (take j steps) ttl e0) as [Hok _]; [rewrite length_take; lia|].
  destruct Hacc as [Hsh _]. exact (so_inj _ _ (to_shadows _ Hok) _ _ _ _ _ _ Hs Hsh He).
Qed.
End threads.

(** ** Concrete executions *)

(** Thread 0 delivers from gateway 1 to user 5 at gateway 2; in between, thread 1
    renews the user's entry and another user logs in. *)
Definition interleavedSteps : list ThreadStep :=
  [WholeCall (CallRegister 2 (Some 2)); WholeCall (CallBind 2 5 20);
   BeginDeliver 0 1 (attemptFor 5); Advance 0; BeginRenew 1 2 5; Advance 1; Advance 0; Advance 1;
   WholeCall (CallBind 1 6 30); Advance 0; Advance 1; Advance 1; Advance 0].

(** C18: the delivery is accepted at gateway 2. *)
Lemma remote_delivery_reaches_current_session_witness :
  exists i j en, (2 <= i < j)%nat /\
    acceptsAt (routeTo 5 en) (attemptFor 5) (clusterAfter 30000 100 interleavedSteps j)
      (clusterAfter 30000 100 interleavedSteps (S j)) /\
    (forall g u s, shadowAt (clusterAfter 30000 100 interleavedSteps j) g u = Some s ->
       sh_epoch s = en_sessionEpoch en -> g = en_gatewayId en /\ u = 5).
Proof.
  destruct (remote_delivery_reaches_current_session 30000 100 interleavedSteps 0
    (mkCall 2 1 (PhAnswered (attemptFor 5) true DispAccepted)) (attemptFor 5))
    as (i & j & en & Hij & _ & _ & _ & _ & _ & Hacc & Huniq);
    [vm_compute; reflexivity|vm_compute; reflexivity|reflexivity|].
  exists i, j, en. split; [exact Hij|]. split; [exact Hacc|exact Huniq].
Defined.

(** The user logs in again at another connection between the locating and the handing
    over: the route is stale, and the target drops the attempt. *)
Example moved_meanwhile_is_dropped :
  let n := runThreads [WholeCall (CallRegister 2 (Some 2)); WholeCall (CallBind 2 5 20);
    BeginDeliver 0 1 (attemptFor 5); Advance 0; Advance 0; Advance 0; WholeCall (CallBind 2 5 21); Advance 0]
    (newThreads 30000 100) in
  th_calls n !! 0%nat = Some (mkCall 2 1 (PhAnswered (attemptFor 5) true DispClosed)).
Proof. reflexivity. Qed.

(** The user moves to gateway 3 between the two: gateway 2 does not know, and its sink
    still gets the attempt. *)
Example moved_away_meanwhile :
  let n := runThreads [WholeCall (CallRegister 2 (Some 2)); WholeCall (CallBind 2 5 20);
    BeginDeliver 0 1 (attemptFor 5); Advance 0; Advance 0; WholeCall (CallBind 3 5 22); Advance 0; Advance 0]
    (newThreads 30000 100) in
  th_calls n !! 0%nat = Some (mkCall 2 1 (PhAnswered (attemptFor 5) true DispAccepted)) /\
  en_gatewayId <$> entries_ (c_presence (th_cluster n)) !! 5 = Some 3.
Proof. split; reflexivity. Qed.

(** A clock that shows the given times one after the other. *)
#[local] Instance scriptedEnv : ClusterEnv (list Z) := {|
  clusterNow l := match l with t :: rest => (rest, t) | [] => ([], 0) end;
  localDeliver _ _ l := (l, Ret DispAccepted);
|}.

(** A renewal finds the entry of user 5 expired; before it claims the user again, the
    user logs in anew at the same gateway, with connection 21.  The claim of the
    renewal then overwrites the entry of the login, with the old connection and an
    epoch that no shadow gets: presence and shadow differ, and an attempt from
    another gateway is dropped as stale although the user is connected. *)
Example reclaim_overwrites_login :
  let n := runThreads [WholeCall (CallRegister 2 (Some 2)); WholeCall (CallBind 2 5 20);
    BeginRenew 1 2 5; Advance 1; Advance 1; Advance 1; WholeCall (CallBind 2 5 21); Advance 1; Advance 1;
    BeginDeliver 0 1 (attemptFor 5); Advance 0; Advance 0; Advance 0; Advance 0]
    (newThreads 30000 [100; 60000; 60001; 60002; 60003]) in
  entries_ (c_presence (th_cluster n)) !! 5 = Some (mkEntry 2 20 3 90002) /\
  shadowAt (th_cluster n) 2 5 = Some (mkShadow 21 2) /\
  th_calls n !! 0%nat = Some (mkCall 9 1 (PhAnswered (attemptFor 5) true DispClosed)).
Proof. vm_compute. repeat split. Qed.
