(* ===== verification/KafkaWire.v ===== *)
(** * The Kafka wire format
    (chatserver/src/app/KafkaWire.cpp; parseRecordSet of
    src/app/KafkaEventConsumer.cpp)

    Bytes are integers from 0 to 255.  A reader is a function of the data and the
    position: besides [true] with a value and [false], a read may be undefined
    (an index past the terminator), throw std::out_of_range, or, for the batch
    loop, still be running when its fuel is spent. *)

From S2P Require Import Prelude Bytes.

Open Scope Z_scope.

Abbreviation bytes := (list Z) (only parsing).

Definition size (b : bytes) : Z := Z.of_nat (length b).

(** ** Big-endian encoding *)

Definition byteOf (v n : Z) : Z := Z.land (Z.shiftr v n) 255.

Definition appendI16 (b : bytes) (v : Z) : bytes := b ++ [byteOf v 8; byteOf v 0].

Definition appendI32 (b : bytes) (v : Z) : bytes :=
  b ++ [byteOf v 24; byteOf v 16; byteOf v 8; byteOf v 0].

Definition appendI64 (b : bytes) (v : Z) : bytes :=
  b ++ map (fun i => byteOf v (56 - 8 * i)) [0; 1; 2; 3; 4; 5; 6; 7].

Definition patchI32 (b : bytes) (at_ : nat) (v : Z) : bytes :=
  <[(at_ + 3)%nat := byteOf v 0]> (<[(at_ + 2)%nat := byteOf v 8]>
    (<[(at_ + 1)%nat := byteOf v 16]> (<[at_ := byteOf v 24]> b))).

(** [(b0 << 24) | (b1 << 16) | (b2 << 8) | b3] as an int. *)
Definition beI32 (b0 b1 b2 b3 : Z) : Z :=
  i32 (Z.lor (Z.lor (Z.lor (Z.shiftl b0 24) (Z.shiftl b1 16)) (Z.shiftl b2 8)) b3).

Definition readI32 (b : bytes) : option Z :=
  match b with
  | b0 :: b1 :: b2 :: b3 :: _ => Some (beI32 b0 b1 b2 b3)
  | _ => None
  end.

(** ** CRC-32C *)

Definition crcStep (c : Z) : Z :=
  if Z.odd c then Z.lxor 0x82F63B78 (Z.shiftr c 1) else Z.shiftr c 1.

Definition crcEntry (i : Z) : Z := Nat.iter 8 crcStep i.

Definition buildCrc32cTable : list Z := map (fun i => crcEntry (Z.of_nat i)) (seq 0 256).

Definition crcByte (table : list Z) (crc b : Z) : Z :=
  Z.lxor (Z.shiftr crc 8) (nth (Z.to_nat (Z.land (Z.lxor crc b) 255)) table 0).

Definition crc32c (data : bytes) : Z :=
  Z.lxor (foldl (crcByte buildCrc32cTable) 0xFFFFFFFF data) 0xFFFFFFFF.

(** ** ByteWriter *)

Module ByteWriter.
Definition i8 (v : Z) (buf_ : bytes) : bytes := buf_ ++ [u8 v].

Definition i16 (v : Z) (buf_ : bytes) : bytes := appendI16 buf_ v.

Definition i32 (v : Z) (buf_ : bytes) : bytes := appendI32 buf_ v.

Definition i64 (v : Z) (buf_ : bytes) : bytes := appendI64 buf_ v.

Definition append (s : bytes) (buf_ : bytes) : bytes := buf_ ++ s.

Definition str (s : bytes) (buf_ : bytes) : bytes := append s (i16 (wrapS 16 (size s)) buf_).

Definition nullableStrNull (buf_ : bytes) : bytes := i16 (-1) buf_.

Definition bytes_ (b : bytes) (buf_ : bytes) : bytes := append b (i32 (Prelude.i32 (size b)) buf_).

(** [while (u >= 0x80)]: a 64-bit [u] takes at most ten rounds. *)
Fixpoint varintLoop (rounds : nat) (u : Z) (buf_ : bytes) : bytes :=
  match rounds with
  | O => buf_
  | S r => if 0x80 <=? u
           then varintLoop r (Z.shiftr u 7) (buf_ ++ [Z.lor (Z.land u 0x7F) 0x80])
           else buf_ ++ [u8 u]
  end.

Definition zigzag (v : Z) : Z := Z.lxor (u64 (Z.shiftl (u64 v) 1)) (u64 (Z.shiftr v 63)).

Definition varint (v : Z) (buf_ : bytes) : bytes := varintLoop 10 (zigzag v) buf_.
End ByteWriter.

(** ** Reading *)

Inductive rres (A : Type) :=
| RTrue (a : A)
| RFalse
| RUndefined
| ROutOfRange
| ROutOfFuel.
Arguments RTrue {A}.
Arguments RFalse {A}.
Arguments RUndefined {A}.
Arguments ROutOfRange {A}.
Arguments ROutOfFuel {A}.

Definition rd (A : Type) : Type := bytes -> Z -> Z * rres A.

Definition rret {A} (a : A) : rd A := fun _ pos => (pos, RTrue a).

Definition rstop {A} (r : rres A) : rd A := fun _ pos => (pos, r).

Definition rbind {A B} (m : rd A) (f : A -> rd B) : rd B :=
  fun data pos =>
    match m data pos with
    | (pos', RTrue a) => f a data pos'
    | (pos', RFalse) => (pos', RFalse)
    | (pos', RUndefined) => (pos', RUndefined)
    | (pos', ROutOfRange) => (pos', ROutOfRange)
    | (pos', ROutOfFuel) => (pos', ROutOfFuel)
    end.

Declare Scope rd_scope.
Delimit Scope rd_scope with rd.
Notation "x <-- m ;; k" := (rbind m (fun x => k))
  (at level 100, m at next level, right associativity) : rd_scope.
Notation "m ;;; k" := (rbind m (fun _ => k)) (at level 100, right associativity) : rd_scope.
Open Scope rd_scope.

Definition getPos : rd Z := fun _ pos => (pos, RTrue pos).
Definition setPos (p : Z) : rd unit := fun _ _ => (p, RTrue tt).
Definition dataSize : rd Z := fun data pos => (pos, RTrue (size data)).

(** [pos += n] on a size_t. *)
Definition advance (n : Z) : rd unit := fun _ pos => (u64 (pos + n), RTrue tt).

(** [data[pos + i]]: the terminator at the end, undefined beyond. *)
Definition charAt (i : Z) : rd Z :=
  fun data pos =>
    if pos + i =? size data then (pos, RTrue 0)
    else if pos + i <? size data
         then (pos, match data !! Z.to_nat (pos + i) with Some b => RTrue b | None => RUndefined end)
         else (pos, RUndefined).

(** [out->assign(data, pos, len)]; the copy is cut at the end of the data. *)
Definition assign (len : Z) : rd bytes :=
  fun data pos => if size data <? pos then (pos, ROutOfRange)
                  else (pos, RTrue (take (Z.to_nat len) (drop (Z.to_nat pos) data))).

Definition require (b : bool) : rd unit := if b then rret tt else rstop RFalse.

Module ByteReader.
Definition remaining : rd Z := fun data pos => (pos, RTrue (u64 (size data - pos))).

Definition skip (n : Z) : rd unit := advance n.

Definition i8 : rd Z :=
  r <-- remaining ;;
  require (1 <=? r) ;;;
  b <-- charAt 0 ;;
  advance 1 ;;;
  rret (wrapS 8 b).

Definition bool_ : rd bool := v <-- i8 ;; rret (negb (v =? 0)).

Definition i16 : rd Z :=
  r <-- remaining ;;
  require (2 <=? r) ;;;
  b0 <-- charAt 0 ;;
  b1 <-- charAt 1 ;;
  advance 2 ;;;
  rret (wrapS 16 (Z.lor (Z.shiftl b0 8) b1)).

Definition i32 : rd Z :=
  r <-- remaining ;;
  require (4 <=? r) ;;;
  b0 <-- charAt 0 ;;
  b1 <-- charAt 1 ;;
  b2 <-- charAt 2 ;;
  b3 <-- charAt 3 ;;
  advance 4 ;;;
  rret (beI32 b0 b1 b2 b3).

Fixpoint i64Loop (n : nat) (i v : Z) : rd Z :=
  match n with
  | O => rret v
  | S n => b <-- charAt i ;; i64Loop n (i + 1) (Z.lor (u64 (Z.shiftl v 8)) b)
  end.

Definition i64 : rd Z :=
  r <-- remaining ;;
  require (8 <=? r) ;;;
  v <-- i64Loop 8 0 0 ;;
  advance 8 ;;;
  rret (Prelude.i64 v).

(** The checked copy of [len] bytes. *)
Definition takeBytes (len : Z) : rd bytes :=
  r <-- remaining ;;
  require (len <=? r) ;;;
  s <-- assign len ;;
  advance len ;;;
  rret s.

Definition str : rd bytes :=
  len <-- i16 ;;
  require (negb (len <? 0)) ;;;
  takeBytes len.

(** [None]: null. *)
Definition nullableStr : rd (option bytes) :=
  len <-- i16 ;;
  if len <? 0 then rret None else s <-- takeBytes len ;; rret (Some s).

Definition bytes_ : rd bytes :=
  len <-- i32 ;;
  require (negb (len <? 0)) ;;;
  takeBytes len.

Definition nullableBytes : rd (option bytes) :=
  len <-- i32 ;;
  if len <? 0 then rret None else s <-- takeBytes len ;; rret (Some s).
End ByteReader.

(** ** Varints *)

Fixpoint readVarintLoop (n : nat) (result shift : Z) : rd Z :=
  match n with
  | O => rret result
  | S n =>
      pos <-- getPos ;;
      len <-- dataSize ;;
      require (pos <? len) ;;;
      b <-- charAt 0 ;;
      advance 1 ;;;
      let result := Z.lor result (u64 (Z.shiftl (Z.land b 0x7F) shift)) in
      if Z.land b 0x80 =? 0 then rret result else readVarintLoop n result (shift + 7)
  end.

Definition readVarint : rd Z :=
  result <-- readVarintLoop 10 0 0 ;;
  let decoded := Prelude.i64 (Z.shiftr result 1) in
  rret (if Z.odd result then Z.lnot decoded else decoded).

(** ** Record batches *)

Definition encodeRecord (i : Z) (kv : bytes * bytes) : bytes :=
  let rec := ByteWriter.varint 0 (ByteWriter.append kv.2 (ByteWriter.varint (size kv.2)
    (ByteWriter.append kv.1 (ByteWriter.varint (size kv.1)
      (ByteWriter.varint i (ByteWriter.varint 0 (ByteWriter.varint 0 []))))))) in
  ByteWriter.append rec (ByteWriter.varint (size rec) []).

Fixpoint encodeRecords (i : Z) (pairs : list (bytes * bytes)) (records : bytes) : bytes :=
  match pairs with
  | [] => records
  | kv :: rest => encodeRecords (i + 1) rest (ByteWriter.append (encodeRecord i kv) records)
  end.

(** [ts]: the wall clock. *)
Definition encodeRecordBatch (ts : Z) (pairs : list (bytes * bytes)) : bytes :=
  let records := encodeRecords 0 pairs [] in
  let count := Z.of_nat (length pairs) in
  let b := replicate 8 0 in
  let b := b ++ replicate 4 0 in
  let b := appendI32 b (-1) in
  let b := b ++ [2] in
  let b := b ++ replicate 4 0 in
  let b := appendI16 b 0 in
  let b := appendI32 b (i32 (u64 (count - 1))) in
  let b := appendI64 b ts in
  let b := appendI64 b ts in
  let b := appendI64 b (-1) in
  let b := appendI16 b (-1) in
  let b := appendI32 b (-1) in
  let b := appendI32 b (i32 count) in
  let b := b ++ records in
  let b := patchI32 b 8 (i32 (size b - 12)) in
  let crc := crc32c (drop 21 b) in
  patchI32 b 17 (i32 crc).

(** ** parseRecordSet *)

Record FetchedRecord := mkFetched {
  fr_partition : Z;
  fr_offset : Z;
  fr_value : bytes;
}.

(** Eight bytes at [pos], disjoined from the most significant. *)
Definition readBaseOffset : rd Z :=
  b0 <-- charAt 0 ;; b1 <-- charAt 1 ;; b2 <-- charAt 2 ;; b3 <-- charAt 3 ;;
  b4 <-- charAt 4 ;; b5 <-- charAt 5 ;; b6 <-- charAt 6 ;; b7 <-- charAt 7 ;;
  rret (i64 (Z.lor (Z.lor (Z.lor (Z.lor (Z.lor (Z.lor (Z.lor (Z.shiftl b0 56) (Z.shiftl b1 48))
    (Z.shiftl b2 40)) (Z.shiftl b3 32)) (Z.shiftl b4 24)) (Z.shiftl b5 16)) (Z.shiftl b6 8)) b7)).

(** Four bytes at [pos + i]. *)
Definition readInt32At (i : Z) : rd Z :=
  b0 <-- charAt i ;; b1 <-- charAt (i + 1) ;; b2 <-- charAt (i + 2) ;; b3 <-- charAt (i + 3) ;;
  rret (beI32 b0 b1 b2 b3).

(** [if (len >= 0) pos += len]: null when negative. *)
Definition skipField (len : Z) : rd unit := if 0 <=? len then advance len else rret tt.

Definition skipHeader : rd unit :=
  hkLen <-- readVarint ;;
  skipField hkLen ;;;
  hvLen <-- readVarint ;;
  skipField hvLen.

(** The header loop: every round reads two bytes at least, so the fuel is the
    length of the data. *)
Fixpoint skipHeaders (fuel : nat) (headerCount : Z) : rd unit :=
  if headerCount <=? 0 then rret tt
  else match fuel with
       | O => rstop ROutOfFuel
       | S f => skipHeader ;;; skipHeaders f (headerCount - 1)
       end.

Definition readValue (valueLen : Z) : rd bytes :=
  if 0 <=? valueLen then v <-- assign valueLen ;; advance valueLen ;;; rret v else rret [].

Definition parseRecord (partition baseOffset batchEnd : Z) : rd FetchedRecord :=
  recLen <-- readVarint ;;
  require (negb (recLen <? 0)) ;;;
  pos <-- getPos ;;
  let recEnd := u64 (pos + recLen) in
  require (negb (batchEnd <? recEnd)) ;;;
  _ <-- readVarint ;;
  _ <-- readVarint ;;
  offsetDelta <-- readVarint ;;
  keyLen <-- readVarint ;;
  skipField keyLen ;;;
  valueLen <-- readVarint ;;
  value <-- readValue valueLen ;;
  headerCount <-- readVarint ;;
  n <-- dataSize ;;
  skipHeaders (S (Z.to_nat n)) headerCount ;;;
  setPos recEnd ;;;
  rret (mkFetched partition (i64 (baseOffset + offsetDelta)) value).

Fixpoint parseRecords (recordCount : nat) (partition baseOffset batchEnd : Z) : rd (list FetchedRecord) :=
  match recordCount with
  | O => rret []
  | S n => rec <-- parseRecord partition baseOffset batchEnd ;;
           rest <-- parseRecords n partition baseOffset batchEnd ;;
           rret (rec :: rest)
  end.

Definition parseBatch (partition : Z) : rd (list FetchedRecord) :=
  baseOffset <-- readBaseOffset ;;
  batchLength <-- readInt32At 8 ;;
  advance 12 ;;;
  pos <-- getPos ;;
  n <-- dataSize ;;
  let batchEnd := u64 (pos + u64 batchLength) in
  require (negb (n <? batchEnd)) ;;;
  advance 4 ;;;
  magic <-- charAt 0 ;;
  advance 1 ;;;
  require (magic =? 2) ;;;
  advance (4 + 2 + 4 + 8 + 8 + 8 + 2 + 4) ;;;
  recordCount <-- readInt32At 0 ;;
  advance 4 ;;;
  recs <-- parseRecords (Z.to_nat recordCount) partition baseOffset batchEnd ;;
  setPos batchEnd ;;;
  rret recs.

(** [while (pos + 12 <= n)] *)
Fixpoint parseBatches (fuel : nat) (partition : Z) : rd (list FetchedRecord) :=
  pos <-- getPos ;;
  n <-- dataSize ;;
  if negb (u64 (pos + 12) <=? n) then rret []
  else match fuel with
       | O => rstop ROutOfFuel
       | S f => recs <-- parseBatch partition ;;
                rest <-- parseBatches f partition ;;
                rret (recs ++ rest)
       end.

Definition parseRecordSet (fuel : nat) (data : bytes) (partition : Z) : rres (list FetchedRecord) :=
  match data with
  | [] => RTrue []
  | [0] => RTrue []
  | _ => (parseBatches fuel partition data 0).2
  end.
