(* ===== verification/KafkaWireInv.v ===== *)
(** * Round trips of the Kafka wire format

    What ByteWriter writes ByteReader reads back; the record batches a publisher
    encodes are parsed by the consumer into the same records, in order; the
    table-driven CRC is the bitwise one.  The last part shows the input on which
    the batch loop never ends. *)

From S2P Require Import Prelude Bytes KafkaWire.

Open Scope Z_scope.
Open Scope rd_scope.

Lemma size_app a b : size (a ++ b) = size a + size b.
Proof. unfold size. rewrite length_app. lia. Qed.

Lemma size_nonneg b : 0 <= size b.
Proof. unfold size. lia. Qed.

Lemma size_cons x b : size (x :: b) = 1 + size b.
Proof. unfold size. simpl length. lia. Qed.

#[export] Hint Resolve size_nonneg : core.

Ltac sizes := rewrite ?size_app, ?size_cons in *.

(** ** Reading an encoding in context *)

(** [reads m enc a]: wherever [enc] stands, [m] started there returns [a] and ends
    behind it. *)
Definition reads {A} (m : rd A) (enc : bytes) (a : A) : Prop :=
  forall pre post, size (pre ++ enc ++ post) < 2 ^ 62 ->
    m (pre ++ enc ++ post) (size pre) = (size pre + size enc, RTrue a).

(** [peeks m enc a]: the same, without moving. *)
Definition peeks {A} (m : rd A) (enc : bytes) (a : A) : Prop :=
  forall pre post, size (pre ++ enc ++ post) < 2 ^ 62 ->
    m (pre ++ enc ++ post) (size pre) = (size pre, RTrue a).

Lemma reads_ret {A} (a : A) : reads (rret a) [] a.
Proof. intros pre post _. unfold rret, size at 3. simpl. by rewrite Z.add_0_r. Qed.

Lemma reads_bind {A B} (m : rd A) (f : A -> rd B) e1 e2 a b :
  reads m e1 a -> reads (f a) e2 b -> reads (rbind m f) (e1 ++ e2) b.
Proof.
  intros H1 H2 pre post Hs. unfold rbind. rewrite <- (app_assoc e1) in *.
  rewrite (H1 pre (e2 ++ post)) by done. specialize (H2 (pre ++ e1) post).
  rewrite <- (app_assoc pre) in H2. rewrite <- size_app, H2 by done.
  rewrite !size_app. f_equal. lia.
Qed.

(** The last step returns without reading. *)
Lemma reads_map {A B} (m : rd A) (f : A -> rd B) e a b :
  reads m e a -> reads (f a) [] b -> reads (rbind m f) e b.
Proof. intros H1 H2. rewrite <- (app_nil_r e). by eapply reads_bind. Qed.

Lemma peeks_bind {A B} (m : rd A) (f : A -> rd B) enc a b :
  peeks m enc a -> reads (f a) enc b -> reads (rbind m f) enc b.
Proof. intros H1 H2 pre post Hs. unfold rbind. by rewrite H1, H2. Qed.

Lemma peeks_bind_peeks {A B} (m : rd A) (f : A -> rd B) enc a b :
  peeks m enc a -> peeks (f a) enc b -> peeks (rbind m f) enc b.
Proof. intros H1 H2 pre post Hs. unfold rbind. by rewrite H1, H2. Qed.

Lemma peeks_ret {A} (a : A) enc : peeks (rret a) enc a.
Proof. by intros pre post _. Qed.

Lemma peeks_require b enc : b = true -> peeks (require b) enc tt.
Proof. intros ->. by intros pre post _. Qed.

Lemma peeks_more {A} (m : rd A) e1 e2 a : peeks m e1 a -> peeks m (e1 ++ e2) a.
Proof.
  intros H pre post Hs. rewrite <- (app_assoc e1) in *. by apply H.
Qed.

Lemma peeks_charAt enc (i : nat) b : enc !! i = Some b -> peeks (charAt (Z.of_nat i)) enc b.
Proof.
  intros Hi pre post Hs. pose proof (lookup_lt_Some _ _ _ Hi) as Hl. unfold charAt. sizes.
  pose proof (size_nonneg post). assert (Z.of_nat i < size enc) by (unfold size; lia).
  destruct (Z.eqb_spec (size pre + Z.of_nat i) (size pre + (size enc + size post))); [lia|].
  destruct (Z.ltb_spec (size pre + Z.of_nat i) (size pre + (size enc + size post))); [|lia].
  unfold size at 2. rewrite <- Nat2Z.inj_add, Nat2Z.id, lookup_app_r by lia.
  replace (length pre + i - length pre)%nat with i by lia.
  by rewrite lookup_app_l, Hi by done.
Qed.

Lemma reads_advance n enc : n = size enc -> reads (advance n) enc tt.
Proof.
  intros -> pre post Hs. unfold advance. sizes. pose proof (size_nonneg pre).
  pose proof (size_nonneg enc). pose proof (size_nonneg post). rewrite u64_small; [done|split; lia].
Qed.

Lemma reads_remaining {B} (f : Z -> rd B) enc b :
  (forall r, size enc <= r -> reads (f r) enc b) -> reads (rbind ByteReader.remaining f) enc b.
Proof.
  intros H pre post Hs. unfold rbind, ByteReader.remaining. apply H; [|done]. sizes.
  pose proof (size_nonneg pre). pose proof (size_nonneg enc). pose proof (size_nonneg post).
  rewrite u64_small by (split; lia). lia.
Qed.

(** ** Bytes of an integer *)

Lemma byteOf_div v n : 0 <= n -> byteOf v n = (v / 2 ^ n) mod 256.
Proof. intros. unfold byteOf. by rewrite land_255, shiftr_div. Qed.

Lemma byteOf_byte v n : isByte (byteOf v n).
Proof. unfold byteOf. rewrite land_255. auto. Qed.

Lemma wrapS_eqm w x y : 0 < w -> x mod 2 ^ w = y mod 2 ^ w -> wrapS w x = wrapS w y.
Proof.
  intros Hw H. unfold wrapS. f_equal. rewrite (Z.add_mod x), (Z.add_mod y), H by lia. done.
Qed.

Lemma wrapS_mod w x y : 0 < w -> - 2 ^ (w - 1) <= y < 2 ^ (w - 1) -> x mod 2 ^ w = y mod 2 ^ w ->
  wrapS w x = y.
Proof. intros Hw Hy H. rewrite (wrapS_eqm w x y) by done. by apply wrapS_small. Qed.

(** The base-256 digits of [v], most significant first. *)
Fixpoint digits (n : nat) (v : Z) : bytes :=
  match n with O => [] | S n => byteOf v (8 * Z.of_nat n) :: digits n v end.

Fixpoint undigits (acc : Z) (b : bytes) : Z :=
  match b with [] => acc | x :: b => undigits (acc * 256 + x) b end.

Lemma undigits_digits n v acc :
  undigits acc (digits n v) = acc * 256 ^ Z.of_nat n + v mod 256 ^ Z.of_nat n.
Proof.
  revert acc. induction n as [|n IH]; intros acc; [simpl; rewrite Z.mod_1_r; lia|].
  cbn [digits undigits]. rewrite IH, byteOf_div by lia.
  rewrite Nat2Z.inj_succ, Z.pow_succ_r by lia.
  replace (2 ^ (8 * Z.of_nat n)) with (256 ^ Z.of_nat n) by (rewrite Z.pow_mul_r by lia; done).
  assert (0 < 256 ^ Z.of_nat n) by (apply Z.pow_pos_nonneg; lia).
  rewrite (Z.mul_comm 256 (256 ^ _)), Z.rem_mul_r by lia. ring.
Qed.

Lemma digits_byte n v : Forall isByte (digits n v).
Proof. induction n; cbn [digits]; constructor; auto using byteOf_byte. Qed.

Lemma size_digits n v : size (digits n v) = Z.of_nat n.
Proof. unfold size. f_equal. induction n; simpl; congruence. Qed.

Lemma lor_byte x b : isByte b -> Z.lor (Z.shiftl x 8) b = x * 256 + b.
Proof. intros Hb. by rewrite lor_shiftl by (unfold isByte in Hb; lia). Qed.

Lemma beI32_undigits b0 b1 b2 b3 :
  isByte b0 -> isByte b1 -> isByte b2 -> isByte b3 ->
  beI32 b0 b1 b2 b3 = i32 (undigits 0 [b0; b1; b2; b3]).
Proof.
  intros H0 H1 H2 H3. unfold beI32. f_equal. cbn [undigits].
  replace (Z.shiftl b0 24) with (Z.shiftl (Z.shiftl (Z.shiftl b0 8) 8) 8) by by rewrite !Z.shiftl_shiftl.
  replace (Z.shiftl b1 16) with (Z.shiftl (Z.shiftl b1 8) 8) by by rewrite Z.shiftl_shiftl.
  rewrite <- !Z.shiftl_lor, !lor_byte by done. ring.
Qed.

Lemma undigits_mod n v : undigits 0 (digits n v) = v mod 256 ^ Z.of_nat n.
Proof. rewrite undigits_digits. lia. Qed.

Lemma beI32_digits v : - 2 ^ 31 <= v < 2 ^ 31 ->
  beI32 (byteOf v 24) (byteOf v 16) (byteOf v 8) (byteOf v 0) = v.
Proof.
  intros Hv. rewrite beI32_undigits by apply byteOf_byte.
  change [_; _; _; _] with (digits 4 v). rewrite undigits_mod.
  apply (wrapS_mod 32); [lia|done|]. change (256 ^ Z.of_nat 4) with (2 ^ 32). by rewrite Z.mod_mod.
Qed.

(** ** What ByteWriter appends *)

Ltac peek i := eapply peeks_bind; [apply (peeks_charAt _ i); reflexivity|].
Ltac remaining_ok :=
  apply reads_remaining; intros ? ?;
  eapply peeks_bind; [apply peeks_require, Z.leb_le; unfold size in *; simpl length in *; lia|].
Ltac advanced := eapply reads_map; [by apply reads_advance|].

Lemma reads_i8 v : - 2 ^ 7 <= v < 2 ^ 7 -> reads ByteReader.i8 [u8 v] v.
Proof.
  intros Hv. unfold ByteReader.i8. remaining_ok. peek 0%nat. advanced.
  replace (wrapS 8 (u8 v)) with v; [apply reads_ret|].
  symmetry. apply wrapS_mod; [lia|done|]. unfold u8, wrapU. by rewrite Z.mod_mod.
Qed.

Lemma reads_i16 v : - 2 ^ 15 <= v < 2 ^ 15 -> reads ByteReader.i16 (digits 2 v) v.
Proof.
  intros Hv. unfold ByteReader.i16. remaining_ok. peek 0%nat. peek 1%nat. advanced.
  replace (wrapS 16 _) with v; [apply reads_ret|]. symmetry.
  rewrite lor_byte by apply byteOf_byte. apply wrapS_mod; [lia|done|].
  pose proof (undigits_mod 2 v) as Hu. cbn [undigits digits] in Hu.
  rewrite Z.mul_0_l, Z.add_0_l in Hu. setoid_rewrite Hu. apply Z.mod_mod. done.
Qed.

Lemma reads_i32 v : - 2 ^ 31 <= v < 2 ^ 31 -> reads ByteReader.i32 (digits 4 v) v.
Proof.
  intros Hv. unfold ByteReader.i32. remaining_ok.
  peek 0%nat. peek 1%nat. peek 2%nat. peek 3%nat. advanced.
  change (beI32 _ _ _ _) with (beI32 (byteOf v 24) (byteOf v 16) (byteOf v 8) (byteOf v 0)).
  rewrite beI32_digits by done. apply reads_ret.
Qed.

Lemma peeks_i64Loop enc n (i : nat) acc :
  Forall isByte enc -> (i + n <= length enc)%nat -> (i + n <= 8)%nat -> 0 <= acc < 256 ^ Z.of_nat i ->
  peeks (ByteReader.i64Loop n (Z.of_nat i) acc) enc (undigits acc (take n (drop i enc))).
Proof.
  intros Hb. revert i acc. induction n as [|n IH]; intros i acc Hl H8 Ha.
  { rewrite take_0. apply peeks_ret. }
  destruct (lookup_lt_is_Some_2 enc i) as [b Hi]; [lia|].
  rewrite (drop_S enc b i) by done. cbn [ByteReader.i64Loop firstn undigits].
  assert (isByte b) as Hbb by (by eapply Forall_lookup_1).
  assert (256 ^ Z.of_nat i <= 256 ^ 7) by (apply Z.pow_le_mono_r; lia).
  assert (acc * 256 + b < 256 ^ Z.of_nat (S i)).
  { rewrite Nat2Z.inj_succ, Z.pow_succ_r by lia. unfold isByte in Hbb. lia. }
  eapply peeks_bind_peeks; [by apply peeks_charAt|].
  rewrite u64_small by (rewrite Z.shiftl_mul_pow2; unfold isU64; lia).
  rewrite lor_byte by done. replace (Z.of_nat i + 1) with (Z.of_nat (S i)) by lia.
  apply IH; [lia|lia|]. unfold isByte in Hbb. lia.
Qed.

Lemma reads_i64 v : isI64 v -> reads ByteReader.i64 (digits 8 v) v.
Proof.
  intros Hv. unfold ByteReader.i64. remaining_ok.
  eapply peeks_bind; [apply (peeks_i64Loop _ 8 0 0); [apply digits_byte|done|done|lia]|].
  advanced. rewrite drop_0, take_ge, undigits_mod by done.
  replace (i64 _) with v; [apply reads_ret|]. symmetry. apply (wrapS_mod 64); [lia|exact Hv|].
  change (256 ^ Z.of_nat 8) with (2 ^ 64). by rewrite Z.mod_mod.
Qed.

Lemma peeks_assign s : peeks (assign (size s)) s s.
Proof.
  intros pre post Hs. unfold assign. sizes. pose proof (size_nonneg s). pose proof (size_nonneg post).
  destruct (Z.ltb_spec (size pre + (size s + size post)) (size pre)); [lia|].
  unfold size. rewrite !Nat2Z.id, drop_app_length, take_app_length. done.
Qed.

Lemma reads_takeBytes s : reads (ByteReader.takeBytes (size s)) s s.
Proof.
  unfold ByteReader.takeBytes. apply reads_remaining. intros r Hr.
  eapply peeks_bind; [by apply peeks_require, Z.leb_le|].
  eapply peeks_bind; [apply peeks_assign|]. advanced. apply reads_ret.
Qed.

Lemma reads_str s : size s < 2 ^ 15 -> reads ByteReader.str (digits 2 (size s) ++ s) s.
Proof.
  intros Hs. pose proof (size_nonneg s). eapply reads_bind; [apply reads_i16; lia|].
  eapply peeks_bind; [|apply reads_takeBytes]. apply peeks_require. by destruct (Z.ltb_spec (size s) 0); [lia|].
Qed.

Lemma reads_bytes s : size s < 2 ^ 31 -> reads ByteReader.bytes_ (digits 4 (size s) ++ s) s.
Proof.
  intros Hs. pose proof (size_nonneg s). eapply reads_bind; [apply reads_i32; lia|].
  eapply peeks_bind; [|apply reads_takeBytes]. apply peeks_require. by destruct (Z.ltb_spec (size s) 0); [lia|].
Qed.

Lemma reads_nullableStr s : size s < 2 ^ 15 -> reads ByteReader.nullableStr (digits 2 (size s) ++ s) (Some s).
Proof.
  intros Hs. pose proof (size_nonneg s). eapply reads_bind; [apply reads_i16; lia|].
  destruct (Z.ltb_spec (size s) 0); [lia|]. eapply reads_map; [apply reads_takeBytes|apply reads_ret].
Qed.

Lemma reads_null : reads ByteReader.nullableStr (digits 2 (-1)) None.
Proof. eapply reads_map; [apply reads_i16; lia|apply reads_ret]. Qed.

(** ** Varints *)

Lemma lxor_ones x n : 0 <= n -> 0 <= x < 2 ^ n -> Z.lxor x (Z.ones n) = Z.ones n - x.
Proof.
  intros Hn Hx. rewrite Z.sub_nocarry_ldiff.
  - apply Z.bits_inj'. intros i Hi. rewrite Z.lxor_spec, Z.ldiff_spec.
    destruct (Z.lt_ge_cases i n) as [Hl|Hl].
    + rewrite Z.ones_spec_low by lia. by destruct (Z.testbit x i).
    + rewrite Z.ones_spec_high by lia. rewrite xorb_false_r. cbn [andb].
      destruct (decide (x = 0)) as [->|]; [apply Z.bits_0|]. apply Z.bits_above_log2; [lia|].
      assert (Z.log2 x < n) by (apply Z.log2_lt_pow2; lia). lia.
  - apply Z.bits_inj'. intros i Hi. rewrite Z.ldiff_spec, Z.bits_0.
    destruct (Z.lt_ge_cases i n) as [Hl|Hl].
    + rewrite Z.ones_spec_low by lia. apply andb_false_r.
    + destruct (decide (x = 0)) as [->|]; [by rewrite Z.bits_0|]. rewrite Z.bits_above_log2; [done|lia|].
      assert (Z.log2 x < n) by (apply Z.log2_lt_pow2; lia). lia.
Qed.

Lemma zigzag_spec v : isI64 v -> ByteWriter.zigzag v = if v <? 0 then - 2 * v - 1 else 2 * v.
Proof.
  unfold isI64, ByteWriter.zigzag. intros Hv. rewrite shiftr_div, Z.shiftl_mul_pow2 by lia.
  unfold u64, wrapU. destruct (Z.ltb_spec v 0) as [Hn|Hn].
  - replace (v / 2 ^ 63) with (-1) by (Z.to_euclidean_division_equations; lia).
    replace (-1 mod 2 ^ 64) with (Z.ones 64) by done.
    replace ((v mod 2 ^ 64 * 2 ^ 1) mod 2 ^ 64) with (2 * v + 2 ^ 64)
      by (Z.to_euclidean_division_equations; lia).
    rewrite lxor_ones by lia. change (Z.ones 64) with (2 ^ 64 - 1). lia.
  - rewrite (Z.div_small v) by lia. rewrite Z.mod_0_l, Z.lxor_0_r by lia.
    rewrite (Z.mod_small v) by lia. rewrite Z.mod_small by lia. lia.
Qed.

Lemma byte_cases (P : Z -> bool) b : forallb P (seqZ 0 256) = true -> isByte b -> P b = true.
Proof.
  intros H Hb. apply forallb_forall with (x := b) in H; [done|].
  apply list_elem_of_In, elem_of_seqZ. unfold isByte in Hb. lia.
Qed.

Lemma land_128 b : isByte b -> (Z.land b 0x80 =? 0) = (b <? 128).
Proof.
  intros Hb. apply eqb_prop, (byte_cases (fun b => eqb (Z.land b 0x80 =? 0) (b <? 128))); [|done].
  vm_compute. reflexivity.
Qed.

Lemma land_127 b : Z.land b 0x7F = b mod 128.
Proof. change 0x7F with (Z.ones 7). by rewrite Z.land_ones by lia. Qed.

Lemma lor_128 x : 0 <= x < 128 -> Z.lor x 0x80 = x + 128.
Proof. intros Hx. rewrite Z.lor_comm. change 0x80 with (1 * 2 ^ 7). rewrite lor_add by lia. lia. Qed.

Lemma varintLoop_app r u buf : ByteWriter.varintLoop r u buf = buf ++ ByteWriter.varintLoop r u [].
Proof.
  revert u buf. induction r as [|r IH]; intros u buf; cbn [ByteWriter.varintLoop].
  - by rewrite app_nil_r.
  - destruct (_ <=? u); [|done]. rewrite IH, (IH _ ([] ++ _)). by rewrite <- app_assoc.
Qed.

(** One byte of a varint. *)
Lemma reads_varintByte {B} (f : Z -> rd B) b enc c :
  reads (f b) enc c ->
  reads (pos <-- getPos ;; len <-- dataSize ;; require (pos <? len) ;;; b <-- charAt 0 ;;
         advance 1 ;;; f b) (b :: enc) c.
Proof.
  intros Hf pre post Hs. unfold rbind at 1 2, getPos, dataSize. revert pre post Hs.
  assert (forall pre post, size pre <? size (pre ++ (b :: enc) ++ post) = true) as Hlt.
  { intros pre post. pose proof (size_nonneg enc). pose proof (size_nonneg post). sizes.
    apply Z.ltb_lt. cbn [app] in *. sizes. lia. }
  intros pre post Hs. rewrite Hlt. revert pre post Hs.
  apply (peeks_bind _ _ _ tt); [by apply peeks_require|].
  eapply peeks_bind; [by apply (peeks_charAt _ 0%nat)|].
  change (b :: enc) with ([b] ++ enc). eapply reads_bind; [by apply reads_advance|done].
Qed.

Lemma lor_shifted acc x shift :
  0 <= shift -> 0 <= acc < 2 ^ shift -> 0 <= x -> x * 2 ^ shift < 2 ^ 64 ->
  Z.lor acc (u64 (Z.shiftl x shift)) = acc + x * 2 ^ shift.
Proof.
  intros Hs Ha Hx Hb. rewrite Z.shiftl_mul_pow2 by done. rewrite u64_small by (split; nia).
  rewrite Z.lor_comm, lor_add by done. lia.
Qed.

Lemma reads_varintLoop k n u acc shift :
  (1 <= k <= n)%nat -> 0 <= u < 2 ^ (7 * Z.of_nat k) -> 0 <= shift -> 0 <= acc < 2 ^ shift ->
  u * 2 ^ shift < 2 ^ 64 ->
  reads (readVarintLoop n acc shift) (ByteWriter.varintLoop k u []) (acc + u * 2 ^ shift).
Proof.
  revert n u acc shift. induction k as [|k IH]; intros n u acc shift Hk Hu Hs Ha Hb; [lia|].
  destruct n as [|n]; [lia|]. cbn [readVarintLoop ByteWriter.varintLoop].
  assert (0 < 2 ^ shift) by lia.
  destruct (Z.leb_spec 0x80 u) as [Hge|Hlt].
  - destruct k as [|k]; [simpl in Hu; lia|]. rewrite varintLoop_app, land_127.
    assert (0 <= u mod 128 < 128) as Hm by (apply Z.mod_pos_bound; lia). rewrite lor_128 by done.
    cbn [app]. apply reads_varintByte. cbv zeta.
    rewrite land_128 by (unfold isByte; lia). destruct (Z.ltb_spec (u mod 128 + 128) 128); [lia|].
    rewrite land_127. replace ((u mod 128 + 128) mod 128) with (u mod 128)
      by (Z.to_euclidean_division_equations; lia).
    pose proof (Z.div_mod u 128 ltac:(lia)) as Hdm.
    assert (0 <= u / 128) by (apply Z.div_pos; lia).
    rewrite lor_shifted by (first [done | nia]). rewrite shiftr_div by lia. change (2 ^ 7) with 128.
    replace (acc + u * 2 ^ shift) with (acc + u mod 128 * 2 ^ shift + u / 128 * 2 ^ (shift + 7))
      by (rewrite Z.pow_add_r by lia; nia).
    apply IH; [lia| |lia| |rewrite Z.pow_add_r by lia; nia].
    + split; [done|]. apply Z.div_lt_upper_bound; [lia|].
      replace (7 * Z.of_nat (S (S k))) with (7 + 7 * Z.of_nat (S k)) in Hu by lia.
      rewrite Z.pow_add_r in Hu by lia. lia.
    + rewrite Z.pow_add_r by lia. nia.
  - cbn [app]. rewrite u8_small by lia. apply reads_varintByte. cbv zeta.
    rewrite land_128 by (unfold isByte; lia). destruct (Z.ltb_spec u 128); [|lia].
    rewrite land_127, Z.mod_small, lor_shifted by lia. apply reads_ret.
Qed.

Lemma varint_app v buf : ByteWriter.varint v buf = buf ++ ByteWriter.varint v [].
Proof. apply varintLoop_app. Qed.

Lemma reads_varint v : isI64 v -> reads readVarint (ByteWriter.varint v []) v.
Proof.
  intros Hv. unfold readVarint, ByteWriter.varint. pose proof (zigzag_spec v Hv) as Hz.
  unfold isI64 in Hv. eapply reads_map.
  - apply reads_varintLoop; [lia| |lia|lia|]; rewrite Hz; destruct (Z.ltb_spec v 0); lia.
  - cbv zeta. rewrite Z.add_0_l, Z.mul_1_r, Hz, shiftr_div by lia. change (2 ^ 1) with 2.
    destruct (Z.ltb_spec v 0) as [Hn|Hn].
    + replace (Z.odd (-2 * v - 1)) with true
        by (replace (-2 * v - 1) with (1 + 2 * (-v - 1)) by lia; by rewrite Z.odd_add_mul_2).
      replace ((-2 * v - 1) / 2) with (- v - 1) by (Z.to_euclidean_division_equations; lia).
      rewrite i64_small by (split; lia). unfold Z.lnot, Z.pred.
      replace (- (- v - 1) + -1) with v by lia. apply reads_ret.
    + replace (Z.odd (2 * v)) with false by (by rewrite Z.odd_mul).
      rewrite (Z.mul_comm 2), Z.div_mul, i64_small by (try split; lia). apply reads_ret.
Qed.

(** ** Messages of fields *)

Inductive Field :=
| FI8 (v : Z)
| FI16 (v : Z)
| FI32 (v : Z)
| FI64 (v : Z)
| FStr (s : bytes)
| FNullableStr (s : option bytes)
| FBytes (b : bytes)
| FVarint (v : Z).

(** The values a field of the source's types can have. *)
Definition fieldOk (f : Field) : Prop :=
  match f with
  | FI8 v => - 2 ^ 7 <= v < 2 ^ 7
  | FI16 v => - 2 ^ 15 <= v < 2 ^ 15
  | FI32 v => - 2 ^ 31 <= v < 2 ^ 31
  | FI64 v | FVarint v => isI64 v
  | FStr s | FNullableStr (Some s) => size s < 2 ^ 15
  | FNullableStr None => True
  | FBytes b => size b < 2 ^ 31
  end.

Definition writeField (buf : bytes) (f : Field) : bytes :=
  match f with
  | FI8 v => ByteWriter.i8 v buf
  | FI16 v => ByteWriter.i16 v buf
  | FI32 v => ByteWriter.i32 v buf
  | FI64 v => ByteWriter.i64 v buf
  | FStr s | FNullableStr (Some s) => ByteWriter.str s buf
  | FNullableStr None => ByteWriter.nullableStrNull buf
  | FBytes b => ByteWriter.bytes_ b buf
  | FVarint v => ByteWriter.varint v buf
  end.

(** Reading a field of the same kind; the value of the argument is not used. *)
Definition readField (f : Field) : rd Field :=
  match f with
  | FI8 _ => v <-- ByteReader.i8 ;; rret (FI8 v)
  | FI16 _ => v <-- ByteReader.i16 ;; rret (FI16 v)
  | FI32 _ => v <-- ByteReader.i32 ;; rret (FI32 v)
  | FI64 _ => v <-- ByteReader.i64 ;; rret (FI64 v)
  | FStr _ => s <-- ByteReader.str ;; rret (FStr s)
  | FNullableStr _ => s <-- ByteReader.nullableStr ;; rret (FNullableStr s)
  | FBytes _ => b <-- ByteReader.bytes_ ;; rret (FBytes b)
  | FVarint _ => v <-- readVarint ;; rret (FVarint v)
  end.

Fixpoint readFields (fs : list Field) : rd (list Field) :=
  match fs with
  | [] => rret []
  | f :: rest => v <-- readField f ;; vs <-- readFields rest ;; rret (v :: vs)
  end.

(** What one field adds to the buffer. *)
Definition fieldBytes (f : Field) : bytes :=
  match f with
  | FI8 v => [u8 v]
  | FI16 v => digits 2 v
  | FI32 v => digits 4 v
  | FI64 v => digits 8 v
  | FStr s | FNullableStr (Some s) => digits 2 (size s) ++ s
  | FNullableStr None => digits 2 (-1)
  | FBytes b => digits 4 (size b) ++ b
  | FVarint v => ByteWriter.varint v []
  end.

Lemma writeField_bytes buf f : fieldOk f -> writeField buf f = buf ++ fieldBytes f.
Proof.
  pose proof size_nonneg as Hnn.
  assert (forall s, size s < 2 ^ 15 -> ByteWriter.str s buf = buf ++ digits 2 (size s) ++ s) as Hstr.
  { intros s Hs. specialize (Hnn s). unfold ByteWriter.str, ByteWriter.append, ByteWriter.i16, appendI16.
    rewrite wrapS_small by (try split; lia). by rewrite <- app_assoc. }
  destruct f as [| | | | |[]| |]; cbn [fieldOk writeField fieldBytes]; intros Hf; try done.
  - by apply Hstr.
  - by apply Hstr.
  - specialize (Hnn b). unfold ByteWriter.bytes_, ByteWriter.append, ByteWriter.i32, appendI32.
    unfold i32. rewrite wrapS_small by (try split; lia). by rewrite <- app_assoc.
  - apply varint_app.
Qed.

Lemma reads_field f : fieldOk f -> reads (readField f) (fieldBytes f) f.
Proof.
  destruct f as [| | | | |[]| |]; cbn [fieldOk readField fieldBytes]; intros Hf; eapply reads_map;
    eauto using reads_i8, reads_i16, reads_i32, reads_i64, reads_str, reads_nullableStr, reads_null,
      reads_bytes, reads_varint, reads_ret.
Qed.

Lemma reads_fields fs : Forall fieldOk fs -> reads (readFields fs) (concat (map fieldBytes fs)) fs.
Proof.
  induction 1 as [|f fs Hf _ IH]; [apply reads_ret|]. cbn [readFields map concat].
  eapply reads_bind; [by apply reads_field|]. eapply reads_map; [exact IH|apply reads_ret].
Qed.

Lemma writeFields_bytes fs buf :
  Forall fieldOk fs -> foldl writeField buf fs = buf ++ concat (map fieldBytes fs).
Proof.
  intros H. revert buf. induction H as [|f fs Hf _ IH]; intros buf; cbn [foldl map concat].
  - by rewrite app_nil_r.
  - rewrite writeField_bytes, IH by done. by rewrite <- app_assoc.
Qed.

(** ByteReader inverts ByteWriter: a message of any fields whose values fit their
    wire types, written in order, is read back field by field to the same values,
    and the reader ends exactly at the end of the message, whatever follows it. *)
Theorem wire_fields_roundtrip fs rest :
  Forall fieldOk fs -> size (foldl writeField [] fs) + size rest < 2 ^ 62 ->
  readFields fs (foldl writeField [] fs ++ rest) 0 = (size (foldl writeField [] fs), RTrue fs).
Proof.
  intros Hok Hs. rewrite writeFields_bytes in * by done. cbn [app] in *.
  apply (reads_fields fs Hok [] rest). cbn [app]. by rewrite size_app.
Qed.

(** A request header with a null field and negative numbers. *)
Lemma wire_fields_roundtrip_witness :
  let fs := [FI16 3; FI32 (-7); FStr [107; 97]; FNullableStr None; FI64 (-1); FVarint (-300); FBytes [1; 2]] in
  readFields fs (foldl writeField [] fs ++ [9]) 0 = (size (foldl writeField [] fs), RTrue fs).
Proof.
  intros fs. apply (wire_fields_roundtrip fs [9]).
  - repeat constructor; cbn; unfold isI64; lia.
  - vm_compute. reflexivity.
Defined.

(** ** CRC-32C *)

(** The checksum bit by bit. *)
Definition crcBitwise (data : bytes) : Z :=
  Z.lxor (foldl (fun c b => Nat.iter 8 crcStep (Z.lxor c b)) 0xFFFFFFFF data) 0xFFFFFFFF.

Lemma crcStep_lxor x y : crcStep (Z.lxor x y) = Z.lxor (crcStep x) (crcStep y).
Proof.
  unfold crcStep. rewrite <- !Z.bit0_odd, Z.lxor_spec, Z.shiftr_lxor.
  destruct (Z.testbit x 0), (Z.testbit y 0); cbn [xorb]; [|by rewrite Z.lxor_assoc| |done].
  - rewrite (Z.lxor_comm 0x82F63B78 (Z.shiftr y 1)).
    rewrite (Z.lxor_comm 0x82F63B78 (Z.shiftr x 1)), Z.lxor_assoc.
    rewrite <- (Z.lxor_assoc 0x82F63B78 (Z.shiftr y 1)), (Z.lxor_comm 0x82F63B78 (Z.shiftr y 1)).
    by rewrite (Z.lxor_assoc (Z.shiftr y 1)), Z.lxor_nilpotent, Z.lxor_0_r.
  - rewrite <- !Z.lxor_assoc. by rewrite (Z.lxor_comm 0x82F63B78).
Qed.

Lemma iter_crcStep_lxor n x y :
  Nat.iter n crcStep (Z.lxor x y) = Z.lxor (Nat.iter n crcStep x) (Nat.iter n crcStep y).
Proof. induction n as [|n IH]; [done|]. simpl. by rewrite IH, crcStep_lxor. Qed.

Lemma iter_crcStep_shiftl n y : Nat.iter n crcStep (Z.shiftl y (Z.of_nat n)) = y.
Proof.
  induction n as [|n IH]; [done|]. rewrite Nat.iter_succ_r.
  replace (crcStep (Z.shiftl y (Z.of_nat (S n)))) with (Z.shiftl y (Z.of_nat n)); [done|].
  unfold crcStep. rewrite <- Z.bit0_odd, Z.shiftl_spec_low by lia.
  rewrite Z.shiftr_shiftl_l by lia. f_equal. lia.
Qed.

Lemma crc_split x : x = Z.lxor (Z.land x 255) (Z.shiftl (Z.shiftr x 8) (Z.of_nat 8)).
Proof.
  apply Z.bits_inj'. intros i Hi. rewrite Z.lxor_spec, Z.land_spec. change 255 with (Z.ones 8).
  destruct (Z.lt_ge_cases i 8) as [Hl|Hl].
  - rewrite Z.ones_spec_low, Z.shiftl_spec_low by lia. by rewrite andb_true_r, xorb_false_r.
  - rewrite Z.ones_spec_high, Z.shiftl_spec, Z.shiftr_spec by lia.
    rewrite andb_false_r, xorb_false_l. f_equal. lia.
Qed.

Lemma iter_crcStep_table x :
  Nat.iter 8 crcStep x =
  Z.lxor (Z.shiftr x 8) (nth (Z.to_nat (Z.land x 255)) buildCrc32cTable 0).
Proof.
  rewrite (crc_split x) at 1. rewrite iter_crcStep_lxor, iter_crcStep_shiftl, Z.lxor_comm. f_equal.
  assert (isByte (Z.land x 255)) as Hb by (rewrite land_255; auto).
  generalize dependent (Z.land x 255). intros b Hb. symmetry. apply Z.eqb_eq.
  apply (byte_cases (fun b => nth (Z.to_nat b) buildCrc32cTable 0 =? Nat.iter 8 crcStep b)); [|done].
  vm_compute. reflexivity.
Qed.

(** C38: The table-driven CRC-32C of the record batches is the bitwise CRC: on bytes,
    the table look-up per byte equals eight steps of the shift register with the
    Castagnoli polynomial. *)
Theorem crc32c_is_bitwise data : Forall isByte data -> crc32c data = crcBitwise data.
Proof.
  intros Hd. unfold crc32c, crcBitwise. f_equal. generalize 0xFFFFFFFF.
  induction Hd as [|b data Hb _ IH]; intros c; [done|]. cbn [foldl]. rewrite IH. f_equal.
  unfold crcByte. rewrite iter_crcStep_table, Z.shiftr_lxor. f_equal.
  rewrite (shiftr_div b), (Z.div_small b), Z.lxor_0_r by (unfold isByte in Hb; lia). done.
Qed.

(** The check value of the standard: the digits 1 to 9. *)
Lemma crc32c_is_bitwise_witness :
  crcBitwise [49; 50; 51; 52; 53; 54; 55; 56; 57] = 0xE3069283.
Proof.
  rewrite <- (crc32c_is_bitwise [49; 50; 51; 52; 53; 54; 55; 56; 57]).
  - vm_compute. reflexivity.
  - repeat constructor; unfold isByte; lia.
Defined.

(** ** Record batches *)

(** [m] reads [enc] between [pre] and [post]. *)
Definition reads_at {A} (pre post : bytes) (m : rd A) (enc : bytes) (a : A) : Prop :=
  m (pre ++ enc ++ post) (size pre) = (size pre + size enc, RTrue a).

Lemma reads_at_bind {A B} pre post (m : rd A) (f : A -> rd B) e1 e2 a b :
  size (pre ++ (e1 ++ e2) ++ post) < 2 ^ 62 ->
  reads m e1 a -> reads_at (pre ++ e1) post (f a) e2 b -> reads_at pre post (rbind m f) (e1 ++ e2) b.
Proof.
  unfold reads_at. intros Hs H1 H2. unfold rbind. rewrite <- (app_assoc e1) in *.
  rewrite (H1 pre (e2 ++ post)) by done. rewrite <- (app_assoc pre) in H2.
  rewrite <- size_app, H2, !size_app. f_equal. lia.
Qed.

Lemma reads_at_peek {A B} pre post (m : rd A) (f : A -> rd B) e a b :
  m (pre ++ e ++ post) (size pre) = (size pre, RTrue a) ->
  reads_at pre post (f a) e b -> reads_at pre post (rbind m f) e b.
Proof. unfold reads_at, rbind. intros H1 H2. by rewrite H1. Qed.

(** Both parts read where they stand. *)
Lemma reads_at_seq {A B} pre post (m : rd A) (f : A -> rd B) e1 e2 a b :
  reads_at pre (e2 ++ post) m e1 a -> reads_at (pre ++ e1) post (f a) e2 b ->
  reads_at pre post (rbind m f) (e1 ++ e2) b.
Proof.
  unfold reads_at. intros H1 H2. unfold rbind. rewrite <- (app_assoc e1), H1.
  rewrite <- (app_assoc pre) in H2. rewrite <- size_app, H2, !size_app. f_equal. lia.
Qed.

Lemma reads_at_map {A B} pre post (m : rd A) (f : A -> B) e a :
  reads_at pre post m e a -> reads_at pre post (x <-- m ;; rret (f x)) e (f a).
Proof. unfold reads_at, rbind. intros H. by rewrite H. Qed.

Lemma reads_skipField s : reads (skipField (size s)) s tt.
Proof.
  pose proof (size_nonneg s). unfold skipField. destruct (Z.leb_spec 0 (size s)); [|lia].
  by apply reads_advance.
Qed.

Lemma reads_readValue s : reads (readValue (size s)) s s.
Proof.
  pose proof (size_nonneg s). unfold readValue. destruct (Z.leb_spec 0 (size s)); [|lia].
  eapply peeks_bind; [apply peeks_assign|]. advanced. apply reads_ret.
Qed.

Lemma small_i64 b : size b < 2 ^ 62 -> isI64 (size b).
Proof. pose proof (size_nonneg b). unfold isI64. lia. Qed.

Lemma zero_i64 : isI64 0.
Proof. unfold isI64. lia. Qed.

#[local] Hint Resolve zero_i64 small_i64 : core.

(** The part of a record after its length. *)
Definition recordBody (i : Z) (kv : bytes * bytes) : bytes :=
  ByteWriter.varint 0 [] ++ ByteWriter.varint 0 [] ++ ByteWriter.varint i [] ++
  ByteWriter.varint (size kv.1) [] ++ kv.1 ++ ByteWriter.varint (size kv.2) [] ++ kv.2 ++
  ByteWriter.varint 0 [] ++ [].

Lemma encodeRecord_body i kv :
  encodeRecord i kv = ByteWriter.varint (size (recordBody i kv)) [] ++ recordBody i kv.
Proof.
  unfold encodeRecord, recordBody, ByteWriter.append.
  rewrite (varint_app 0 (_ ++ kv.2)), (varint_app (size kv.2)), (varint_app (size kv.1)),
    (varint_app i), (varint_app 0 (ByteWriter.varint 0 [])).
  rewrite <- !app_assoc. by rewrite !app_nil_r.
Qed.

Ltac split_size := sizes; repeat match goal with b : bytes |- _ =>
  lazymatch goal with _ : 0 <= size b |- _ => fail | _ => pose proof (size_nonneg b) end end.

Lemma reads_record partition base batchEnd i kv pre post :
  size (pre ++ encodeRecord i kv ++ post) < 2 ^ 62 -> isI64 i ->
  size pre + size (encodeRecord i kv) <= batchEnd ->
  reads_at pre post (parseRecord partition base batchEnd) (encodeRecord i kv)
    (mkFetched partition (i64 (base + i)) kv.2).
Proof.
  rewrite encodeRecord_body. set (body := recordBody i kv). set (lb := ByteWriter.varint (size body) []).
  intros Hs Hi Hend. pose proof (size_nonneg pre). pose proof (size_nonneg post).
  pose proof (size_nonneg body). pose proof (size_nonneg lb).
  assert (size body < 2 ^ 62) as Hb by (sizes; lia).
  assert (size kv.1 < 2 ^ 62 /\ size kv.2 < 2 ^ 62) as [Hk Hv].
  { revert Hb. unfold body, recordBody. destruct kv as [k v]; cbn [fst snd].
    generalize (ByteWriter.varint 0 []) (ByteWriter.varint i []) (ByteWriter.varint (size k) [])
      (ByteWriter.varint (size v) []). intros. split_size. change (size []) with 0 in *. split; lia. }
  eapply reads_at_bind; [done|by apply reads_varint, small_i64|].
  eapply reads_at_peek. { destruct (Z.ltb_spec (size body) 0); [lia|done]. }
  eapply reads_at_peek; [done|]. cbv zeta.
  rewrite (u64_small (size (pre ++ lb) + _)) by (split; sizes; lia).
  eapply reads_at_peek.
  { destruct (Z.ltb_spec batchEnd (size (pre ++ lb) + size body)) as [Hlt|_]; [|done].
    sizes. lia. }
  assert (size ((pre ++ lb) ++ body ++ post) < 2 ^ 62) as Hs' by (rewrite !size_app in *; lia).
  clear Hs Hend. revert Hs'. generalize (pre ++ lb) as p. intros p Hs'.
  replace (size p + size body) with (size (p ++ body)) by apply size_app.
  generalize (eq_refl : p ++ body = p ++ body). generalize (p ++ body) at 1 3 as q. intros q Hq.
  unfold body, recordBody in *.
  repeat (eapply reads_at_bind;
    [rewrite <- ?app_assoc in *; done|solve [eauto using reads_varint, reads_skipField, reads_readValue]|]).
  eapply reads_at_peek; [done|]. unfold skipHeaders. cbn [Z.leb Z.compare].
  unfold reads_at, rbind, setPos, rret. cbn. rewrite Hq, <- !app_assoc, Z.add_0_r.
  done.
Qed.

(** The records of a batch, from index [i] on. *)
Fixpoint recordBytes (i : Z) (pairs : list (bytes * bytes)) : bytes :=
  match pairs with [] => [] | kv :: rest => encodeRecord i kv ++ recordBytes (i + 1) rest end.

Fixpoint fetched (partition base i : Z) (pairs : list (bytes * bytes)) : list FetchedRecord :=
  match pairs with
  | [] => []
  | kv :: rest => mkFetched partition (i64 (base + i)) kv.2 :: fetched partition base (i + 1) rest
  end.

Lemma encodeRecords_bytes i pairs buf : encodeRecords i pairs buf = buf ++ recordBytes i pairs.
Proof.
  revert i buf. induction pairs as [|kv pairs IH]; intros i buf; cbn [encodeRecords recordBytes].
  - by rewrite app_nil_r.
  - rewrite IH. unfold ByteWriter.append. by rewrite <- app_assoc.
Qed.

Lemma parseRecords_S n partition base batchEnd :
  parseRecords (S n) partition base batchEnd =
  (rec <-- parseRecord partition base batchEnd ;;
   rest <-- parseRecords n partition base batchEnd ;;
   rret (rec :: rest)).
Proof. reflexivity. Qed.

Lemma recordBytes_cons i kv pairs :
  recordBytes i (kv :: pairs) = encodeRecord i kv ++ recordBytes (i + 1) pairs.
Proof. reflexivity. Qed.

Lemma fetched_cons partition base i kv pairs :
  fetched partition base i (kv :: pairs) =
  mkFetched partition (i64 (base + i)) kv.2 :: fetched partition base (i + 1) pairs.
Proof. reflexivity. Qed.

Lemma reads_records partition base batchEnd i pairs pre post :
  size (pre ++ recordBytes i pairs ++ post) < 2 ^ 62 -> 0 <= i -> i + Z.of_nat (length pairs) < 2 ^ 63 ->
  size pre + size (recordBytes i pairs) <= batchEnd ->
  reads_at pre post (parseRecords (length pairs) partition base batchEnd) (recordBytes i pairs)
    (fetched partition base i pairs).
Proof.
  revert i pre. induction pairs as [|kv pairs IH]; intros i pre Hs Hi Hn Hend.
  { unfold reads_at. cbn. by rewrite Z.add_0_r. }
  simpl length in *. rewrite parseRecords_S, fetched_cons, recordBytes_cons in *. rewrite size_app in Hend.
  pose proof (size_nonneg (recordBytes (i + 1) pairs)).
  eapply reads_at_seq; [|apply (reads_at_map _ _ _ (cons _)), IH].
  - apply reads_record; [by rewrite <- app_assoc in Hs|unfold isI64; lia|lia].
  - by rewrite <- !app_assoc in *.
  - lia.
  - lia.
  - rewrite size_app. lia.
Qed.

(** Where the fields of an encoded batch stand. *)
Lemma batch_layout ts pairs :
  exists crc mid, size crc = 4 /\ size mid = 36 /\
    encodeRecordBatch ts pairs =
    digits 8 0 ++ digits 4 (i32 (49 + size (recordBytes 0 pairs))) ++ digits 4 (-1) ++ [2] ++ crc ++ mid ++
    digits 4 (i32 (Z.of_nat (length pairs))) ++ recordBytes 0 pairs.
Proof.
  unfold encodeRecordBatch. rewrite encodeRecords_bytes. cbn [app].
  set (recs := recordBytes 0 pairs).
  eexists [_; _; _; _], (_ :: _ :: _ :: _ :: _ :: _ :: _ :: _ :: _ :: _ :: _ :: _ :: _ :: _ :: _ :: _ :: _ :: _ ::
    _ :: _ :: _ :: _ :: _ :: _ :: _ :: _ :: _ :: _ :: _ :: _ :: _ :: _ :: _ :: _ :: _ :: _ :: []).
  split; [reflexivity|]. split; [reflexivity|].
  match goal with |- patchI32 (patchI32 ?b _ (i32 (size ?b - 12))) _ _ = _ =>
    replace (size b - 12) with (49 + size recs) end.
  - reflexivity.
  - unfold appendI64, appendI32, appendI16. rewrite !size_app. generalize (size recs). intros z.
    unfold size. rewrite !length_replicate, length_map. simpl length. lia.
Qed.

Lemma be64_undigits b0 b1 b2 b3 b4 b5 b6 b7 :
  Forall isByte [b0; b1; b2; b3; b4; b5; b6; b7] ->
  Z.lor (Z.lor (Z.lor (Z.lor (Z.lor (Z.lor (Z.lor (Z.shiftl b0 56) (Z.shiftl b1 48))
    (Z.shiftl b2 40)) (Z.shiftl b3 32)) (Z.shiftl b4 24)) (Z.shiftl b5 16)) (Z.shiftl b6 8)) b7 =
  undigits 0 [b0; b1; b2; b3; b4; b5; b6; b7].
Proof.
  intros Hb. repeat (apply Forall_cons in Hb as [? Hb]). clear Hb.
  change 56 with (8 + 48). rewrite <- (Z.shiftl_shiftl b0 8 48) by lia.
  rewrite <- Z.shiftl_lor, lor_byte by done.
  change 48 with (8 + 40). rewrite <- (Z.shiftl_shiftl _ 8 40), <- Z.shiftl_lor, lor_byte by (done || lia).
  change 40 with (8 + 32). rewrite <- (Z.shiftl_shiftl _ 8 32), <- Z.shiftl_lor, lor_byte by (done || lia).
  change 32 with (8 + 24). rewrite <- (Z.shiftl_shiftl _ 8 24), <- Z.shiftl_lor, lor_byte by (done || lia).
  change 24 with (8 + 16). rewrite <- (Z.shiftl_shiftl _ 8 16), <- Z.shiftl_lor, lor_byte by (done || lia).
  change 16 with (8 + 8). rewrite <- (Z.shiftl_shiftl _ 8 8), <- Z.shiftl_lor, lor_byte by (done || lia).
  rewrite lor_byte by done. cbn [undigits]. ring.
Qed.

Lemma peeks_readBaseOffset v : isI64 v -> peeks readBaseOffset (digits 8 v) v.
Proof.
  intros Hv. unfold readBaseOffset.
  do 8 (eapply peeks_bind_peeks; [first
    [by apply (peeks_charAt _ 0%nat)|by apply (peeks_charAt _ 1%nat)|by apply (peeks_charAt _ 2%nat)
    |by apply (peeks_charAt _ 3%nat)|by apply (peeks_charAt _ 4%nat)|by apply (peeks_charAt _ 5%nat)
    |by apply (peeks_charAt _ 6%nat)|by apply (peeks_charAt _ 7%nat)]|]).
  replace (i64 _) with v; [apply peeks_ret|]. symmetry. apply (wrapS_mod 64); [lia|exact Hv|].
  rewrite be64_undigits by apply (digits_byte 8 v). setoid_rewrite (undigits_mod 8 v).
  by apply Z.mod_mod.
Qed.

Lemma peeks_readInt32At e v :
  - 2 ^ 31 <= v < 2 ^ 31 -> peeks (readInt32At (size e)) (e ++ digits 4 v) v.
Proof.
  intros Hv.
  assert (forall j b, digits 4 v !! j = Some b -> peeks (charAt (size e + Z.of_nat j)) (e ++ digits 4 v) b) as Hc.
  { intros j b Hj. unfold size. rewrite <- Nat2Z.inj_add. apply peeks_charAt.
    rewrite lookup_app_r by lia. by replace (length e + j - length e)%nat with j by lia. }
  unfold readInt32At.
  eapply peeks_bind_peeks; [rewrite <- (Z.add_0_r (size e)); by apply (Hc 0%nat)|].
  eapply peeks_bind_peeks; [by apply (Hc 1%nat)|].
  eapply peeks_bind_peeks; [by apply (Hc 2%nat)|].
  eapply peeks_bind_peeks; [by apply (Hc 3%nat)|].
  change (beI32 _ _ _ _) with (beI32 (byteOf v 24) (byteOf v 16) (byteOf v 8) (byteOf v 0)).
  rewrite beI32_digits by done. apply peeks_ret.
Qed.

(** A batch as the broker stores it: with the base offset it assigned. *)
Definition storedBatch (base : Z) (batch : bytes) : bytes := digits 8 base ++ drop 8 batch.

Lemma storedBatch_layout base ts pairs :
  exists crc mid, size crc = 4 /\ size mid = 36 /\
    storedBatch base (encodeRecordBatch ts pairs) =
    (digits 8 base ++ digits 4 (i32 (49 + size (recordBytes 0 pairs)))) ++ digits 4 (-1) ++ [2] ++
    (crc ++ mid) ++ digits 4 (i32 (Z.of_nat (length pairs))) ++ recordBytes 0 pairs.
Proof.
  destruct (batch_layout ts pairs) as (crc & mid & H1 & H2 & Hb). exists crc, mid. repeat split; [done|done|].
  unfold storedBatch. rewrite Hb. change (digits 8 0) with (replicate 8 0).
  rewrite (drop_app_length' (replicate 8 0)) by done. by rewrite <- !app_assoc.
Qed.

Lemma reads_at_peeks {A B} pre post (m : rd A) (f : A -> rd B) e1 e2 a b :
  size (pre ++ (e1 ++ e2) ++ post) < 2 ^ 62 ->
  peeks m e1 a -> reads_at pre post (f a) (e1 ++ e2) b -> reads_at pre post (rbind m f) (e1 ++ e2) b.
Proof. intros Hs Hp. apply reads_at_peek. by apply (peeks_more _ _ e2) in Hp; apply Hp. Qed.

Lemma varint_nonempty v : 0 < size (ByteWriter.varint v []).
Proof.
  unfold ByteWriter.varint. generalize 9%nat, (ByteWriter.zigzag v). intros r u.
  change (0 < size (if 0x80 <=? u
    then ByteWriter.varintLoop r (Z.shiftr u 7) [Z.lor (Z.land u 0x7F) 0x80] else [u8 u])).
  destruct (_ <=? u); [|done]. rewrite varintLoop_app, size_app, size_cons.
  pose proof (size_nonneg (ByteWriter.varintLoop r (Z.shiftr u 7) [])). change (size []) with 0. lia.
Qed.

Lemma length_records i pairs : Z.of_nat (length pairs) <= size (recordBytes i pairs).
Proof.
  revert i. induction pairs as [|kv pairs IH]; intros i; cbn [recordBytes length]; [done|].
  rewrite size_app, encodeRecord_body, size_app. specialize (IH (i + 1)).
  pose proof (size_nonneg (recordBody i kv)). pose proof (varint_nonempty (size (recordBody i kv))). lia.
Qed.

(** The end of [parseBatch]: everything after the twelve bytes of the frame. *)
Lemma reads_batch partition base ts pairs pre post :
  isI64 base -> 49 + size (recordBytes 0 pairs) < 2 ^ 31 ->
  size (pre ++ storedBatch base (encodeRecordBatch ts pairs) ++ post) < 2 ^ 62 ->
  reads_at pre post (parseBatch partition) (storedBatch base (encodeRecordBatch ts pairs))
    (fetched partition base 0 pairs).
Proof.
  intros Hbase Hlen. destruct (storedBatch_layout base ts pairs) as (crc & mid & Hcrc & Hmid & ->).
  pose proof (length_records 0 pairs) as Hcount. pose proof (size_nonneg pre). pose proof (size_nonneg post).
  set (recs := recordBytes 0 pairs) in *. pose proof (size_nonneg recs).
  unfold i32. rewrite !wrapS_small by (try split; lia). intros Hs.
  unfold parseBatch.
  eapply reads_at_peeks; [done|by apply peeks_more, peeks_readBaseOffset|].
  eapply reads_at_peeks; [done|by apply (peeks_readInt32At (digits 8 base)); lia|].
  eapply reads_at_bind; [done|by apply reads_advance|].
  assert (size (pre ++ digits 8 base ++ digits 4 (49 + size recs)) = size pre + 12) as Hp12
    by by rewrite size_app.
  revert Hs. rewrite <- (app_assoc (digits 8 base ++ _)), app_assoc.
  revert Hp12. generalize (pre ++ digits 8 base ++ digits 4 (49 + size recs)) as p. intros p Hp Hs.
  set (rest := digits 4 (-1) ++ _) in *.
  assert (size rest = 49 + size recs) as Hrest.
  { unfold rest. rewrite !size_app, Hcrc, Hmid, !size_digits. change (size [2]) with 1. lia. }
  assert (size p + size rest + size post < 2 ^ 62) as Hs' by (rewrite !size_app in Hs; lia).
  eapply reads_at_peek; [done|]. eapply reads_at_peek; [done|]. cbv zeta.
  rewrite (u64_small (49 + size recs)), u64_small by (split; lia).
  eapply reads_at_peek.
  { apply peeks_require; [|exact Hs]. apply negb_true_iff, Z.ltb_ge. rewrite !size_app. lia. }
  remember (size p + (49 + size recs)) as batchEnd eqn:HB. unfold rest in *. clear Hrest Hs' rest.
  assert (forall b : bytes, size b = size (p ++ (digits 4 (-1) ++ [2] ++ (crc ++ mid) ++
    digits 4 (Z.of_nat (length pairs)) ++ recs) ++ post) -> size b < 2 ^ 62) as Hsz by congruence.
  clear Hs. rewrite !size_app in Hsz.
  eapply reads_at_bind; [apply Hsz; rewrite !size_app; lia|by apply reads_advance|].
  eapply reads_at_peeks; [apply Hsz; rewrite !size_app; lia|by apply (peeks_charAt _ 0%nat)|].
  eapply reads_at_bind; [apply Hsz; rewrite !size_app; lia|by apply reads_advance|].
  eapply reads_at_peek; [done|].
  eapply reads_at_bind; [apply Hsz; rewrite !size_app; lia| |].
  { apply reads_advance. rewrite size_app. lia. }
  eapply reads_at_peeks; [apply Hsz; rewrite !size_app; lia|by apply (peeks_readInt32At []); lia|].
  eapply reads_at_bind; [apply Hsz; rewrite !size_app; lia|by apply reads_advance|].
  set (q := _ ++ digits 4 (Z.of_nat (length pairs))).
  assert (size q + size recs = batchEnd) as Hq.
  { subst batchEnd. unfold q. rewrite !size_app, Hcrc, Hmid, !size_digits. change (size [2]) with 1. lia. }
  rewrite Nat2Z.id. unfold reads_at, rbind. rewrite (reads_records partition base batchEnd 0).
  - unfold setPos, rret. fold recs. by rewrite Hq.
  - apply Hsz. unfold q. fold recs. rewrite !size_app. lia.
  - lia.
  - lia.
  - fold recs. lia.
Qed.

(** ** Record sets *)

Record StoredBatch := mkStored {
  sb_base : Z;
  sb_ts : Z;
  sb_pairs : list (bytes * bytes);
}.

Definition batchOk (b : StoredBatch) : Prop :=
  isI64 (sb_base b) /\ size (encodeRecordBatch (sb_ts b) (sb_pairs b)) < 2 ^ 31.

Definition batchBytes (b : StoredBatch) : bytes :=
  storedBatch (sb_base b) (encodeRecordBatch (sb_ts b) (sb_pairs b)).

(** What a partition's log answers a fetch with. *)
Definition recordSet (batches : list StoredBatch) : bytes := concat (map batchBytes batches).

Definition recordsOf (partition : Z) (b : StoredBatch) : list FetchedRecord :=
  fetched partition (sb_base b) 0 (sb_pairs b).

Lemma size_batch b :
  size (encodeRecordBatch (sb_ts b) (sb_pairs b)) = 61 + size (recordBytes 0 (sb_pairs b)) /\
  size (batchBytes b) = 61 + size (recordBytes 0 (sb_pairs b)).
Proof.
  split.
  - destruct (batch_layout (sb_ts b) (sb_pairs b)) as (crc & mid & Hc & Hm & ->).
    rewrite !size_app, Hc, Hm, !size_digits. change (size [2]) with 1. lia.
  - unfold batchBytes.
    destruct (storedBatch_layout (sb_base b) (sb_ts b) (sb_pairs b)) as (crc & mid & Hc & Hm & ->).
    rewrite !size_app, Hc, Hm, !size_digits. change (size [2]) with 1. lia.
Qed.

(** Whole batches with something behind them. *)
Lemma parseBatches_app fuel partition batches pre post :
  Forall batchOk batches -> size (pre ++ recordSet batches ++ post) < 2 ^ 62 ->
  (length batches <= fuel)%nat ->
  parseBatches fuel partition (pre ++ recordSet batches ++ post) (size pre) =
  match parseBatches (fuel - length batches) partition (pre ++ recordSet batches ++ post)
          (size (pre ++ recordSet batches)) with
  | (pos, RTrue rest) => (pos, RTrue (concat (map (recordsOf partition) batches) ++ rest))
  | (pos, RFalse) => (pos, RFalse)
  | (pos, RUndefined) => (pos, RUndefined)
  | (pos, ROutOfRange) => (pos, ROutOfRange)
  | (pos, ROutOfFuel) => (pos, ROutOfFuel)
  end.
Proof.
  intros Hok. revert fuel pre. induction Hok as [|b bs [Hb Hsb] _ IH]; intros fuel pre Hs Hf.
  - unfold recordSet in *. cbn [map concat length] in *. rewrite Nat.sub_0_r, app_nil_r.
    by destruct (parseBatches _ _ _ _) as [? []].
  - destruct fuel as [|fuel]; simpl length in Hf; [lia|]. destruct (size_batch b) as [H1 H2].
    change (recordSet (b :: bs)) with (batchBytes b ++ recordSet bs) in *. rewrite <- app_assoc in *.
    pose proof (size_nonneg pre). pose proof (size_nonneg (recordSet bs)). pose proof (size_nonneg post).
    pose proof (size_nonneg (recordBytes 0 (sb_pairs b))).
    assert (size pre + size (batchBytes b) + size (recordSet bs) + size post < 2 ^ 62)
      by (rewrite !size_app in Hs; lia).
    cbn [parseBatches map concat length Nat.sub]. unfold rbind at 1 2, getPos, dataSize.
    rewrite u64_small by (split; lia).
    destruct (Z.leb_spec (size pre + 12) (size (pre ++ batchBytes b ++ recordSet bs ++ post))) as [_|Hbad];
      [|rewrite !size_app in Hbad; lia]. cbn [negb].
    pose proof (reads_batch partition (sb_base b) (sb_ts b) (sb_pairs b) pre (recordSet bs ++ post) Hb
      ltac:(lia) Hs) as Hr. unfold reads_at in Hr. fold (batchBytes b) in Hr.
    unfold rbind at 1. rewrite Hr. rewrite <- size_app. rewrite !(app_assoc pre) in *. unfold rbind.
    rewrite IH by (done || lia). destruct (parseBatches _ _ _ _) as [? []]; try done.
    cbn [rret]. by rewrite app_assoc.
Qed.

(** Nothing is left to read. *)
Lemma parseBatches_end fuel partition pre : size pre < 2 ^ 62 ->
  parseBatches fuel partition pre (size pre) = (size pre, RTrue []).
Proof.
  intros Hs. pose proof (size_nonneg pre).
  destruct fuel; cbn [parseBatches]; unfold rbind, getPos, dataSize;
    (rewrite u64_small by (split; lia)); by destruct (Z.leb_spec (size pre + 12) (size pre)); [lia|].
Qed.

Lemma parseBatches_at fuel partition batches pre :
  Forall batchOk batches -> size (pre ++ recordSet batches) < 2 ^ 62 ->
  (length batches <= fuel)%nat ->
  parseBatches fuel partition (pre ++ recordSet batches) (size pre) =
  (size (pre ++ recordSet batches), RTrue (concat (map (recordsOf partition) batches))).
Proof.
  intros Hok Hs Hf. pose proof (parseBatches_app fuel partition batches pre [] Hok) as H.
  rewrite app_nil_r in H. rewrite H by done. rewrite parseBatches_end by done. by rewrite app_nil_r.
Qed.

(** C36: The consumer reads what the publisher wrote: for any batches encoded by
    encodeRecordBatch and stored with the base offsets the broker assigned, each
    shorter than 2 GiB, parsing their concatenation returns every value once, in
    order, at base offset plus index; one round per batch suffices. *)
Theorem record_batches_roundtrip partition batches fuel :
  Forall batchOk batches -> size (recordSet batches) < 2 ^ 62 -> (length batches <= fuel)%nat ->
  parseRecordSet fuel (recordSet batches) partition =
  RTrue (concat (map (recordsOf partition) batches)).
Proof.
  intros Hok Hs Hf. pose proof (parseBatches_at fuel partition batches [] Hok Hs Hf) as H.
  destruct batches as [|b bs]; [done|]. unfold parseRecordSet. cbn [app] in H.
  destruct (recordSet (b :: bs)) as [|x [|y rest]] eqn:Hrs.
  - destruct (size_batch b) as [_ Hsz]. pose proof (size_nonneg (recordBytes 0 (sb_pairs b))).
    pose proof (f_equal size Hrs) as Hz. unfold recordSet in Hz. cbn [map concat] in Hz.
    rewrite size_app in Hz. pose proof (size_nonneg (concat (map batchBytes bs))).
    change (size []) with 0 in Hz. lia.
  - destruct (size_batch b) as [_ Hsz]. pose proof (size_nonneg (recordBytes 0 (sb_pairs b))).
    pose proof (f_equal size Hrs) as Hz. unfold recordSet in Hz. cbn [map concat] in Hz.
    rewrite size_app in Hz. pose proof (size_nonneg (concat (map batchBytes bs))).
    change (size [x]) with 1 in Hz. lia.
  - change (size []) with 0 in H. rewrite H. by destruct x.
Qed.

(** C36: two batches, the second after a gap in the offsets. *)
Lemma record_batches_roundtrip_witness :
  parseRecordSet 2 (recordSet [mkStored 0 1700000000000 [([107], [118; 49]); ([], [])];
                               mkStored 40 1700000000001 [([107], [200; 0; 255])]]) 3 =
  RTrue [mkFetched 3 0 [118; 49]; mkFetched 3 1 []; mkFetched 3 40 [200; 0; 255]].
Proof.
  apply (record_batches_roundtrip 3 [mkStored 0 1700000000000 [([107], [118; 49]); ([], [])];
                               mkStored 40 1700000000001 [([107], [200; 0; 255])]] 2).
  - repeat constructor; vm_compute; congruence.
  - vm_compute. reflexivity.
  - vm_compute. lia.
Defined.

(** ** A negative batch length *)

(** An empty batch whose length field is -12. *)
Definition negativeBatch : bytes :=
  replicate 8 0 ++ digits 4 (-12) ++ replicate 4 0 ++ [2] ++ replicate 40 0 ++ digits 4 0.

(** The batch loop never ends on a batch that claims length -12: the conversion to
    size_t wraps, the end of the batch is its own start, and every round begins
    again at the same position. *)
Theorem negative_batch_loops fuel partition :
  parseRecordSet fuel negativeBatch partition = ROutOfFuel.
Proof.
  assert (parseBatches fuel partition negativeBatch 0 = (0, ROutOfFuel)) as H.
  { assert (parseBatch partition negativeBatch 0 = (0, RTrue [])) as Hb by (vm_compute; reflexivity).
    induction fuel as [|fuel IH]; [done|].
    transitivity (rbind (parseBatch partition) (fun recs => rbind (parseBatches fuel partition)
      (fun rest => rret (recs ++ rest))) negativeBatch 0); [done|].
    unfold rbind. by rewrite Hb, IH. }
  unfold parseRecordSet. rewrite H. by vm_compute.
Qed.
