(* ===== verification/Executor.v ===== *)
(** * The worker executors
    (chatserver/include/app/SessionSerialExecutor.hpp,
    src/app/SessionSerialExecutor.cpp, src/app/BlockingExecutor.cpp)

    Threads interleave at the mutex: an execution is a sequence of atomic steps,
    the critical sections of [submit], [shutdown] and [workerLoop] and the parts
    of the loop outside the lock.  A step that is not enabled changes nothing.
    Tasks and completions are opaque; running them is recorded in a log. *)

From S2P Require Import Prelude.
From stdpp Require Import countable.

Open Scope Z_scope.

Inductive SubmitResult := Accepted | RejectedFull | RejectedShutdown.

(** A task and its completion, each possibly empty. *)
Record Pending := mkPending {
  pd_task : option Z;
  pd_completion : option Z;
  pd_submitAtMs : Z;
  pd_deadlineMs : Z;
}.

#[export] Instance Pending_eq_dec : EqDecision Pending.
Proof. solve_decision. Defined.

(** [deadlineMs > 0 && nowMs() - submitAtMs > deadlineMs] *)
Definition expired (now : Z) (p : Pending) : bool :=
  (0 <? pd_deadlineMs p) && (pd_deadlineMs p <? i64 (now - pd_submitAtMs p)).

(** ** SessionSerialExecutor *)

(** The two kinds of key; the fields another kind does not use are left out, as
    [operator==] and [operator<] ignore them. *)
Inductive SessionExecutorKey :=
| Connection (connectionId : Z)
| Session (userId generation : Z).

#[export] Instance SessionExecutorKey_eq_dec : EqDecision SessionExecutorKey.
Proof. solve_decision. Defined.

#[export] Instance SessionExecutorKey_countable : Countable SessionExecutorKey.
Proof.
  refine (inj_countable'
    (fun k => match k with Connection c => inl c | Session u g => inr (u, g) end)
    (fun x => match x with inl c => Connection c | inr (u, g) => Session u g end) _).
  by intros [].
Defined.

Inductive LaneState := Idle | Queued | Running.

#[export] Instance LaneState_eq_dec : EqDecision LaneState.
Proof. solve_decision. Defined.

Record Lane := mkLane { ln_queue : list Pending; ln_state : LaneState }.

(** Where a worker thread is: at the top of its loop; holding a task it took; running
    it; about to take the lock again; returned. *)
Inductive Worker :=
| WWaiting
| WTaken (key : SessionExecutorKey) (p : Pending)
| WRunning (key : SessionExecutorKey) (p : Pending)
| WFinishing (key : SessionExecutorKey)
| WExited.

Inductive Event :=
| EvAccept (key : SessionExecutorKey) (p : Pending)     (**r submit answered Accepted *)
| EvStart (key : SessionExecutorKey) (p : Pending)
| EvEnd (key : SessionExecutorKey) (p : Pending)        (**r the completion is posted to the loop *)
| EvExpired (key : SessionExecutorKey) (p : Pending).   (**r skipped, no callback *)

Record SessionSerialExecutor := mkSerial {
  globalQueueCapacity_ : Z;
  laneCapacity_ : Z;
  workers_ : gmap nat Worker;
  lanes_ : gmap SessionExecutorKey Lane;
  ready_ : list SessionExecutorKey;
  shuttingDown_ : bool;
  droppedFull_ : Z;
  droppedShutdown_ : Z;
  log : list Event;
}.

Module Serial.
Definition new (workerCount : nat) (globalQueueCapacity laneCapacity : Z) : SessionSerialExecutor :=
  mkSerial globalQueueCapacity laneCapacity
    (list_to_map ((fun i => (i, WWaiting)) <$> seq 0 workerCount)) ∅ [] false 0 0 [].

Definition set_lanes (l : gmap SessionExecutorKey Lane) (e : SessionSerialExecutor) :=
  mkSerial (globalQueueCapacity_ e) (laneCapacity_ e) (workers_ e) l (ready_ e) (shuttingDown_ e)
    (droppedFull_ e) (droppedShutdown_ e) (log e).
Definition set_ready (r : list SessionExecutorKey) (e : SessionSerialExecutor) :=
  mkSerial (globalQueueCapacity_ e) (laneCapacity_ e) (workers_ e) (lanes_ e) r (shuttingDown_ e)
    (droppedFull_ e) (droppedShutdown_ e) (log e).
Definition set_worker (w : nat) (s : Worker) (e : SessionSerialExecutor) :=
  mkSerial (globalQueueCapacity_ e) (laneCapacity_ e) (<[w := s]> (workers_ e)) (lanes_ e) (ready_ e)
    (shuttingDown_ e) (droppedFull_ e) (droppedShutdown_ e) (log e).
Definition add_log (evs : list Event) (e : SessionSerialExecutor) :=
  mkSerial (globalQueueCapacity_ e) (laneCapacity_ e) (workers_ e) (lanes_ e) (ready_ e)
    (shuttingDown_ e) (droppedFull_ e) (droppedShutdown_ e) (log e ++ evs).
Definition countFull (e : SessionSerialExecutor) :=
  mkSerial (globalQueueCapacity_ e) (laneCapacity_ e) (workers_ e) (lanes_ e) (ready_ e)
    (shuttingDown_ e) (u64 (droppedFull_ e + 1)) (droppedShutdown_ e) (log e).
Definition countShutdown (e : SessionSerialExecutor) :=
  mkSerial (globalQueueCapacity_ e) (laneCapacity_ e) (workers_ e) (lanes_ e) (ready_ e)
    (shuttingDown_ e) (droppedFull_ e) (u64 (droppedShutdown_ e + 1)) (log e).

Definition depth {A} (l : list A) : Z := Z.of_nat (length l).

Definition submit (key : SessionExecutorKey) (task completion : option Z) (deadlineMs now : Z)
    (e : SessionSerialExecutor) : SessionSerialExecutor * SubmitResult :=
  if shuttingDown_ e then (countShutdown e, RejectedShutdown)
  else
    (* [lanes_[key]] creates the lane *)
    let lane := default (mkLane [] Idle) (lanes_ e !! key) in
    let e := set_lanes (<[key := lane]> (lanes_ e)) e in
    if laneCapacity_ e <=? depth (ln_queue lane) then (countFull e, RejectedFull)
    else if bool_decide (ln_state lane = Idle) && (globalQueueCapacity_ e <=? depth (ready_ e))
    then (countFull e, RejectedFull)
    else
      let p := mkPending task completion now deadlineMs in
      let queue := ln_queue lane ++ [p] in
      let e := add_log [EvAccept key p] e in
      if bool_decide (ln_state lane = Idle)
      then (set_ready (ready_ e ++ [key]) (set_lanes (<[key := mkLane queue Queued]> (lanes_ e)) e), Accepted)
      else (set_lanes (<[key := mkLane queue (ln_state lane)]> (lanes_ e)) e, Accepted).

Definition shutdown (e : SessionSerialExecutor) : SessionSerialExecutor :=
  mkSerial (globalQueueCapacity_ e) (laneCapacity_ e) (workers_ e) (lanes_ e) (ready_ e) true
    (droppedFull_ e) (droppedShutdown_ e) (log e).

Definition queueDepth (e : SessionSerialExecutor) : Z := depth (ready_ e).

(** Dropping expired heads; [clock i] is the i-th reading of the clock. *)
Fixpoint skipExpired (clock : nat -> Z) (i : nat) (queue : list Pending) : list Pending * list Pending :=
  match queue with
  | [] => ([], [])
  | head :: rest =>
      if expired (clock i) head
      then let '(dropped, kept) := skipExpired clock (S i) rest in (head :: dropped, kept)
      else ([], queue)
  end.

(** The first critical section of [workerLoop]. *)
Definition take (w : nat) (clock : nat -> Z) (e : SessionSerialExecutor) : SessionSerialExecutor :=
  match workers_ e !! w with
  | Some WWaiting =>
      match ready_ e with
      | [] => if shuttingDown_ e then set_worker w WExited e else e
      | key :: ready =>
          let e := set_ready ready e in
          match lanes_ e !! key with
          | None => e
          | Some lane =>
              let '(dropped, queue) := skipExpired clock 0 (ln_queue lane) in
              let e := add_log (EvExpired key <$> dropped) e in
              match queue with
              | [] => set_lanes (delete key (lanes_ e)) e
              | p :: rest =>
                  set_worker w (WTaken key p) (set_lanes (<[key := mkLane rest Running]> (lanes_ e)) e)
              end
          end
      end
  | _ => e
  end.

(** [if (p.task) p.task()], exceptions caught. *)
Definition startTask (w : nat) (e : SessionSerialExecutor) : SessionSerialExecutor :=
  match workers_ e !! w with
  | Some (WTaken key p) => add_log [EvStart key p] (set_worker w (WRunning key p) e)
  | _ => e
  end.

(** [if (p.completion) loop_->runInLoop(p.completion)] *)
Definition endTask (w : nat) (e : SessionSerialExecutor) : SessionSerialExecutor :=
  match workers_ e !! w with
  | Some (WRunning key p) => add_log [EvEnd key p] (set_worker w (WFinishing key) e)
  | _ => e
  end.

(** The second critical section. *)
Definition finish (w : nat) (e : SessionSerialExecutor) : SessionSerialExecutor :=
  match workers_ e !! w with
  | Some (WFinishing key) =>
      let e := set_worker w WWaiting e in
      match lanes_ e !! key with
      | None => e
      | Some lane =>
          match ln_queue lane with
          | _ :: _ => set_ready (ready_ e ++ [key])
                        (set_lanes (<[key := mkLane (ln_queue lane) Queued]> (lanes_ e)) e)
          | [] => set_lanes (delete key (lanes_ e)) e
          end
      end
  | _ => e
  end.

Inductive Step :=
| Submit (key : SessionExecutorKey) (task completion : option Z) (deadlineMs now : Z)
| Shutdown
| Take (w : nat) (clock : nat -> Z)
| Start (w : nat)
| End_ (w : nat)
| Finish (w : nat).

Definition step (e : SessionSerialExecutor) (s : Step) : SessionSerialExecutor :=
  match s with
  | Submit key task completion deadlineMs now => (submit key task completion deadlineMs now e).1
  | Shutdown => shutdown e
  | Take w clock => take w clock e
  | Start w => startTask w e
  | End_ w => endTask w e
  | Finish w => finish w e
  end.

Definition run (steps : list Step) (e : SessionSerialExecutor) : SessionSerialExecutor :=
  foldl step e steps.
End Serial.

(** The inline adapter: run both in place. *)
Definition inlineSubmit (key : SessionExecutorKey) (task completion : option Z) (deadlineMs : Z)
  : list Z * SubmitResult := (option_list task ++ option_list completion, Accepted).

(** ** BlockingExecutor *)

Inductive BlockingWorker := BWaiting | BTaken (p : Pending) | BExited.

Inductive BlockingEvent := BRun (p : Pending) | BExpired (p : Pending).

Record BlockingExecutor := mkBlocking {
  queueCapacity_ : Z;
  bworkers_ : gmap nat BlockingWorker;
  queue_ : list Pending;
  bshuttingDown_ : bool;
  bdroppedFull_ : Z;
  bdroppedShutdown_ : Z;
  blog : list BlockingEvent;
}.

Module Blocking.
Definition new (workerCount : nat) (queueCapacity : Z) : BlockingExecutor :=
  mkBlocking queueCapacity (list_to_map ((fun i => (i, BWaiting)) <$> seq 0 workerCount)) [] false 0 0 [].

Definition submit (task completion : option Z) (deadlineMs now : Z) (e : BlockingExecutor)
  : BlockingExecutor * SubmitResult :=
  if bshuttingDown_ e
  then (mkBlocking (queueCapacity_ e) (bworkers_ e) (queue_ e) true (bdroppedFull_ e)
          (u64 (bdroppedShutdown_ e + 1)) (blog e), RejectedShutdown)
  else if queueCapacity_ e <=? Z.of_nat (length (queue_ e))
  then (mkBlocking (queueCapacity_ e) (bworkers_ e) (queue_ e) false (u64 (bdroppedFull_ e + 1))
          (bdroppedShutdown_ e) (blog e), RejectedFull)
  else (mkBlocking (queueCapacity_ e) (bworkers_ e)
          (queue_ e ++ [mkPending task completion now deadlineMs]) false (bdroppedFull_ e)
          (bdroppedShutdown_ e) (blog e), Accepted).

Definition shutdown (e : BlockingExecutor) : BlockingExecutor :=
  mkBlocking (queueCapacity_ e) (bworkers_ e) (queue_ e) true (bdroppedFull_ e) (bdroppedShutdown_ e)
    (blog e).

Definition queueDepth (e : BlockingExecutor) : Z := Z.of_nat (length (queue_ e)).

(** The critical section of [workerLoop]. *)
Definition take (w : nat) (e : BlockingExecutor) : BlockingExecutor :=
  match bworkers_ e !! w with
  | Some BWaiting =>
      match queue_ e with
      | [] => if bshuttingDown_ e
              then mkBlocking (queueCapacity_ e) (<[w := BExited]> (bworkers_ e)) [] true
                     (bdroppedFull_ e) (bdroppedShutdown_ e) (blog e)
              else e
      | p :: rest => mkBlocking (queueCapacity_ e) (<[w := BTaken p]> (bworkers_ e)) rest
                       (bshuttingDown_ e) (bdroppedFull_ e) (bdroppedShutdown_ e) (blog e)
      end
  | _ => e
  end.

(** The deadline check, the task and the completion, outside the lock. *)
Definition execute (w : nat) (now : Z) (e : BlockingExecutor) : BlockingExecutor :=
  match bworkers_ e !! w with
  | Some (BTaken p) =>
      mkBlocking (queueCapacity_ e) (<[w := BWaiting]> (bworkers_ e)) (queue_ e) (bshuttingDown_ e)
        (bdroppedFull_ e) (bdroppedShutdown_ e)
        (blog e ++ [if expired now p then BExpired p else BRun p])
  | _ => e
  end.
End Blocking.
