(* ===== verification/ExecutorInv.v ===== *)
(** * Serial execution per key

    Whatever the interleaving of submitters and workers, the tasks of one key run
    one at a time in the order they were accepted, none is lost, and a worker
    leaves only when nothing is ready. *)

From S2P Require Import Prelude Executor.

Open Scope Z_scope.

(** ** The log of one key *)

Definition evKey (ev : Event) : SessionExecutorKey :=
  match ev with EvAccept k _ | EvStart k _ | EvEnd k _ | EvExpired k _ => k end.

(** Accepted tasks of [k], in order. *)
Definition accepted (k : SessionExecutorKey) (l : list Event) : list Pending :=
  omap (fun ev => match ev with EvAccept k' p => if decide (k' = k) then Some p else None | _ => None end) l.

(** Tasks of [k] that were started or dropped as expired, in order. *)
Definition handled (k : SessionExecutorKey) (l : list Event) : list Pending :=
  omap (fun ev => match ev with
                  | EvStart k' p | EvExpired k' p => if decide (k' = k) then Some p else None
                  | _ => None
                  end) l.

(** One event against the task of [k] that is running: a start needs none running, an
    end needs that task.  [None]: two tasks overlapped. *)
Definition serialStep (k : SessionExecutorKey) (open : option (option Pending)) (ev : Event)
  : option (option Pending) :=
  match ev with
  | EvStart k' p => if decide (k' = k) then match open with Some None => Some (Some p) | _ => None end else open
  | EvEnd k' p => if decide (k' = k)
                  then match open with
                       | Some (Some p') => if bool_decide (p = p') then Some None else None
                       | _ => None
                       end
                  else open
  | _ => open
  end.

Definition serial (k : SessionExecutorKey) (l : list Event) : option (option Pending) :=
  foldl (serialStep k) (Some None) l.

Lemma accepted_app k l l' : accepted k (l ++ l') = accepted k l ++ accepted k l'.
Proof. apply omap_app. Qed.

Lemma handled_app k l l' : handled k (l ++ l') = handled k l ++ handled k l'.
Proof. apply omap_app. Qed.

Lemma serial_app k l l' : serial k (l ++ l') = foldl (serialStep k) (serial k l) l'.
Proof. apply foldl_app. Qed.

(** Events of other keys do not count. *)
Lemma other_events k l :
  Forall (fun ev => evKey ev <> k) l ->
  accepted k l = [] /\ handled k l = [] /\ forall o, foldl (serialStep k) o l = o.
Proof.
  induction 1 as [|ev l Hev _ (IH1 & IH2 & IH3)]; [done|].
  destruct ev; cbn in *; rewrite ?decide_False by done; repeat split; auto; intros o;
    rewrite ?decide_False by done; auto.
Qed.

Lemma handled_one k p : handled k [EvStart k p] = [p] /\ handled k [EvExpired k p] = [p].
Proof. unfold handled. cbn. by rewrite decide_True. Qed.

Lemma expired_events k ps :
  accepted k (EvExpired k <$> ps) = [] /\ handled k (EvExpired k <$> ps) = ps /\
  forall o, foldl (serialStep k) o (EvExpired k <$> ps) = o.
Proof.
  induction ps as [|p ps (IH1 & IH2 & IH3)]; [done|].
  change (EvExpired k <$> p :: ps) with ([EvExpired k p] ++ (EvExpired k <$> ps)).
  rewrite accepted_app, handled_app, IH1, IH2. split_and!; [done| |apply IH3].
  by rewrite (proj2 (handled_one k p)).
Qed.

#[local] Arguments accepted : simpl never.
#[local] Arguments handled : simpl never.
#[local] Arguments serial : simpl never.

(** ** The invariant *)

Definition heldKey (w : option Worker) : option SessionExecutorKey :=
  match w with
  | Some (WTaken k _) | Some (WRunning k _) | Some (WFinishing k) => Some k
  | _ => None
  end.

Definition free (e : SessionSerialExecutor) (k : SessionExecutorKey) : Prop :=
  forall w, heldKey (workers_ e !! w) <> Some k.

Definition heldOnlyBy (e : SessionSerialExecutor) (k : SessionExecutorKey) (w : nat) : Prop :=
  forall w', heldKey (workers_ e !! w') = Some k -> w' = w.

(** What the lane of [k], the ready queue, the workers and the log say about each
    other. *)
Inductive keyInv (e : SessionSerialExecutor) (k : SessionExecutorKey) : Prop :=
| KIdle :
    lanes_ e !! k = None \/ lanes_ e !! k = Some (mkLane [] Idle) -> k ∉ ready_ e -> free e k ->
    accepted k (log e) = handled k (log e) -> serial k (log e) = Some None -> keyInv e k
| KQueued p q :
    lanes_ e !! k = Some (mkLane (p :: q) Queued) -> k ∈ ready_ e -> free e k ->
    accepted k (log e) = handled k (log e) ++ p :: q -> serial k (log e) = Some None -> keyInv e k
| KTaken w p q :
    lanes_ e !! k = Some (mkLane q Running) -> k ∉ ready_ e -> workers_ e !! w = Some (WTaken k p) ->
    heldOnlyBy e k w -> accepted k (log e) = handled k (log e) ++ p :: q ->
    serial k (log e) = Some None -> keyInv e k
| KRunning w p q :
    lanes_ e !! k = Some (mkLane q Running) -> k ∉ ready_ e -> workers_ e !! w = Some (WRunning k p) ->
    heldOnlyBy e k w -> accepted k (log e) = handled k (log e) ++ q ->
    serial k (log e) = Some (Some p) -> keyInv e k
| KFinishing w q :
    lanes_ e !! k = Some (mkLane q Running) -> k ∉ ready_ e -> workers_ e !! w = Some (WFinishing k) ->
    heldOnlyBy e k w -> accepted k (log e) = handled k (log e) ++ q ->
    serial k (log e) = Some None -> keyInv e k.

Record execInv (e : SessionSerialExecutor) : Prop := {
  ei_nodup : NoDup (ready_ e);
  ei_key : forall k, keyInv e k;
}.

(** ** Frame: a step about another key *)

Lemma keyInv_frame e e' k evs :
  lanes_ e' !! k = lanes_ e !! k -> (k ∈ ready_ e' <-> k ∈ ready_ e) ->
  log e' = log e ++ evs -> Forall (fun ev => evKey ev <> k) evs ->
  (forall w, workers_ e' !! w = workers_ e !! w \/
     heldKey (workers_ e !! w) <> Some k /\ heldKey (workers_ e' !! w) <> Some k) ->
  keyInv e k -> keyInv e' k.
Proof.
  intros Hl Hr Hlog Hev Hw Hk. destruct (other_events k evs Hev) as (Ha & Hh & Hs).
  assert (accepted k (log e') = accepted k (log e)) as Ha'
    by (rewrite Hlog, accepted_app, Ha; apply app_nil_r).
  assert (handled k (log e') = handled k (log e)) as Hh'
    by (rewrite Hlog, handled_app, Hh; apply app_nil_r).
  assert (serial k (log e') = serial k (log e)) as Hs' by (by rewrite Hlog, serial_app, Hs).
  assert (free e k -> free e' k) as Hfree.
  { intros Hf w. destruct (Hw w) as [-> |[_ ?]]; [apply Hf|done]. }
  assert (forall w, heldOnlyBy e k w -> heldOnlyBy e' k w) as Honly.
  { intros w Ho w' Hw'. destruct (Hw w') as [Heq|[_ ?]]; [|done]. apply Ho. by rewrite <- Heq. }
  assert (forall w x, workers_ e !! w = Some x -> heldKey (Some x) = Some k -> workers_ e' !! w = Some x) as Hsame.
  { intros w x Hx Hk'. destruct (Hw w) as [-> |[Hn _]]; [done|]. rewrite Hx in Hn. done. }
  destruct Hk.
  - apply KIdle; rewrite ?Hl, ?Ha', ?Hh', ?Hs'; auto. by rewrite Hr.
  - eapply KQueued; rewrite ?Hl, ?Ha', ?Hh', ?Hs'; eauto. by rewrite Hr.
  - eapply KTaken; rewrite ?Hl, ?Ha', ?Hh', ?Hs'; eauto. by rewrite Hr.
  - eapply KRunning; rewrite ?Hl, ?Ha', ?Hh', ?Hs'; eauto. by rewrite Hr.
  - eapply KFinishing; rewrite ?Hl, ?Ha', ?Hh', ?Hs'; eauto. by rewrite Hr.
Qed.

(** ** Steps keep the invariant *)

Lemma accept_log k p l :
  accepted k (l ++ [EvAccept k p]) = accepted k l ++ [p] /\ handled k (l ++ [EvAccept k p]) = handled k l /\
  serial k (l ++ [EvAccept k p]) = serial k l.
Proof.
  rewrite accepted_app, handled_app, serial_app. unfold accepted at 2, handled at 2. cbn.
  rewrite decide_True by done. by rewrite app_nil_r.
Qed.

Lemma start_log k p l :
  accepted k (l ++ [EvStart k p]) = accepted k l /\ handled k (l ++ [EvStart k p]) = handled k l ++ [p] /\
  (serial k l = Some None -> serial k (l ++ [EvStart k p]) = Some (Some p)).
Proof.
  rewrite accepted_app, handled_app, serial_app, (proj1 (handled_one k p)). unfold accepted at 2. cbn.
  rewrite decide_True by done. rewrite app_nil_r. split_and!; [done|done|]. by intros ->.
Qed.

Lemma end_log k p l :
  accepted k (l ++ [EvEnd k p]) = accepted k l /\ handled k (l ++ [EvEnd k p]) = handled k l /\
  (serial k l = Some (Some p) -> serial k (l ++ [EvEnd k p]) = Some None).
Proof.
  rewrite accepted_app, handled_app, serial_app. unfold accepted at 2, handled at 2. cbn.
  rewrite decide_True, !app_nil_r by done.
  split_and!; [done|done|]. intros ->. by rewrite bool_decide_true.
Qed.

(** Creating an idle lane, or writing a lane back, changes nothing. *)
Lemma touch_lane e k :
  execInv e -> let lane := default (mkLane [] Idle) (lanes_ e !! k) in
  execInv (Serial.set_lanes (<[k := lane]> (lanes_ e)) e).
Proof.
  intros [Hnd Hk] lane. split; [done|]. intros k'. destruct (decide (k' = k)) as [->|Hne].
  - destruct (lanes_ e !! k) as [l|] eqn:Hl.
    + assert (Serial.set_lanes (<[k := lane]> (lanes_ e)) e = e) as ->; [|apply Hk].
      unfold lane. cbn. rewrite insert_id by done. by destruct e.
    + destruct (Hk k); try congruence. apply KIdle; auto. right. cbn. by rewrite lookup_insert_eq.
  - apply (keyInv_frame e _ _ []); cbn;
      [by rewrite lookup_insert_ne|done|by rewrite app_nil_r|constructor|by left|apply Hk].
Qed.

Lemma countFull_ok e : execInv e -> execInv (Serial.countFull e).
Proof.
  intros [Hnd Hk]. split; [done|]. intros k.
  apply (keyInv_frame e _ _ []); cbn; [done|done|by rewrite app_nil_r|constructor|by left|apply Hk].
Qed.

Lemma countShutdown_ok e : execInv e -> execInv (Serial.countShutdown e).
Proof.
  intros [Hnd Hk]. split; [done|]. intros k.
  apply (keyInv_frame e _ _ []); cbn; [done|done|by rewrite app_nil_r|constructor|by left|apply Hk].
Qed.

Lemma shutdown_ok e : execInv e -> execInv (Serial.shutdown e).
Proof.
  intros [Hnd Hk]. split; [done|]. intros k.
  apply (keyInv_frame e _ _ []); cbn; [done|done|by rewrite app_nil_r|constructor|by left|apply Hk].
Qed.

(** A new task for an idle lane takes a ready slot. *)
Lemma enqueue_idle e k lane p :
  execInv e -> lanes_ e !! k = Some lane -> ln_state lane = Idle ->
  execInv (Serial.set_ready (ready_ e ++ [k])
    (Serial.set_lanes (<[k := mkLane (ln_queue lane ++ [p]) Queued]> (lanes_ e))
       (Serial.add_log [EvAccept k p] e))).
Proof.
  intros [Hnd Hk] Hl Hst. destruct (accept_log k p (log e)) as (Ha & Hh & Hs).
  assert (k ∉ ready_ e /\ free e k /\ ln_queue lane = [] /\ accepted k (log e) = handled k (log e) /\
    serial k (log e) = Some None) as (Hr & Hf & Hq & Hacc & Hser).
  { destruct (Hk k) as [[?|?]| | | |]; try congruence; simplify_eq/=; done. }
  split; cbn.
  - apply NoDup_app. split_and!; [done| |apply NoDup_singleton]. intros x Hx ->%list_elem_of_singleton. done.
  - intros k'. destruct (decide (k' = k)) as [->|Hne].
    + apply (KQueued _ k p []); cbn; rewrite ?Ha, ?Hh, ?Hs, ?Hacc; try first [done|exact Hf].
      * by rewrite lookup_insert_eq, Hq.
      * set_solver.
    + apply (keyInv_frame e _ _ [EvAccept k p]); cbn.
      * by rewrite lookup_insert_ne.
      * set_solver.
      * done.
      * by repeat constructor.
      * by left.
      * apply Hk.
Qed.

(** A new task behind the others of its lane. *)
Lemma enqueue_busy e k lane p :
  execInv e -> lanes_ e !! k = Some lane -> ln_state lane <> Idle ->
  execInv (Serial.set_lanes (<[k := mkLane (ln_queue lane ++ [p]) (ln_state lane)]> (lanes_ e))
       (Serial.add_log [EvAccept k p] e)).
Proof.
  intros [Hnd Hk] Hl Hst. destruct (accept_log k p (log e)) as (Ha & Hh & Hs).
  split; [done|]. intros k'. destruct (decide (k' = k)) as [->|Hne].
  - destruct (Hk k) as [[?|?]|p0 q|w p0 q|w p0 q|w q]; try congruence; rewrite Hl in *; simplify_eq/=.
    + apply (KQueued _ k p0 (q ++ [p])); cbn; rewrite ?lookup_insert_eq, ?Ha, ?Hh, ?Hs; try done.
      rewrite H2. by rewrite <- app_assoc.
    + apply (KTaken _ k w p0 (q ++ [p])); cbn; rewrite ?lookup_insert_eq, ?Ha, ?Hh, ?Hs; try done.
      rewrite H3. by rewrite <- app_assoc.
    + apply (KRunning _ k w p0 (q ++ [p])); cbn; rewrite ?lookup_insert_eq, ?Ha, ?Hh, ?Hs; try done.
      rewrite H3. by rewrite <- app_assoc.
    + apply (KFinishing _ k w (q ++ [p])); cbn; rewrite ?lookup_insert_eq, ?Ha, ?Hh, ?Hs; try done.
      rewrite H3. by rewrite <- app_assoc.
  - apply (keyInv_frame e _ _ [EvAccept k p]); cbn.
    + by rewrite lookup_insert_ne.
    + done.
    + done.
    + by repeat constructor.
    + by left.
    + apply Hk.
Qed.

Lemma submit_ok key task completion deadlineMs now e :
  execInv e -> execInv (Serial.submit key task completion deadlineMs now e).1.
Proof.
  intros He. unfold Serial.submit. destruct (shuttingDown_ e); [by apply countShutdown_ok|].
  pose proof (touch_lane e key He) as Ht. cbv zeta in *.
  set (lane := default (mkLane [] Idle) (lanes_ e !! key)) in *.
  set (e0 := Serial.set_lanes (<[key := lane]> (lanes_ e)) e) in *.
  assert (lanes_ e0 !! key = Some lane) as Hl by (apply lookup_insert_eq).
  destruct (_ <=? _); [by apply countFull_ok|]. destruct (_ && _); [by apply countFull_ok|].
  destruct (bool_decide (ln_state lane = Idle)) eqn:Hb.
  - apply bool_decide_eq_true in Hb. by apply (enqueue_idle e0 key lane).
  - apply bool_decide_eq_false in Hb. by apply (enqueue_busy e0 key lane).
Qed.

Lemma skipExpired_split clock i queue :
  (Serial.skipExpired clock i queue).1 ++ (Serial.skipExpired clock i queue).2 = queue.
Proof.
  revert i. induction queue as [|p q IH]; intros i; [done|]. cbn [Serial.skipExpired].
  destruct (expired _ p); [|done]. specialize (IH (S i)).
  destruct (Serial.skipExpired clock (S i) q) as [d l]. cbn in *. by rewrite IH.
Qed.

(** The worker [w] moves on; nobody else holds the key. *)
Lemma free_only e e' k w x :
  free e k -> workers_ e' = <[w := x]> (workers_ e) -> heldOnlyBy e' k w.
Proof.
  intros Hf Hw w' Hw'. rewrite Hw in Hw'. destruct (decide (w' = w)) as [|Hne]; [done|].
  rewrite lookup_insert_ne in Hw' by done. by destruct (Hf w').
Qed.

Lemma other_worker e w x y k w' :
  workers_ e !! w = Some x -> heldKey (Some x) <> Some k -> heldKey (Some y) <> Some k ->
  <[w := y]> (workers_ e) !! w' = workers_ e !! w' \/
  heldKey (workers_ e !! w') <> Some k /\ heldKey (<[w := y]> (workers_ e) !! w') <> Some k.
Proof.
  intros Hx H1 H2. destruct (decide (w' = w)) as [->|Hne].
  - right. by rewrite Hx, lookup_insert_eq.
  - left. by rewrite lookup_insert_ne.
Qed.

Lemma expired_other k k' ps : k' <> k -> Forall (fun ev => evKey ev <> k') (EvExpired k <$> ps).
Proof. intros Hne. apply Forall_fmap, Forall_true. intros p. cbn. congruence. Qed.

Lemma take_ok w clock e : execInv e -> execInv (Serial.take w clock e).
Proof.
  intros He. unfold Serial.take. destruct (workers_ e !! w) as [[]|] eqn:Hw; try exact He.
  destruct He as [Hnd Hk]. destruct (ready_ e) as [|k r] eqn:Hr.
  { destruct (shuttingDown_ e); [|by split; [rewrite Hr|]]. split; [cbn; by rewrite Hr|]. intros k.
    apply (keyInv_frame e _ _ []); cbn; [done|done|by rewrite app_nil_r|constructor| |apply Hk].
    intros w'. by eapply other_worker. }
  apply NoDup_cons in Hnd as [Hkr Hnd].
  destruct (Hk k) as [_ Hn _ _ _|p0 q0 Hl _ Hf Hacc Hser|? ? ? _ Hn|? ? ? _ Hn|? ? _ Hn];
    try (exfalso; apply Hn; rewrite Hr; set_solver). cbn [lanes_ Serial.set_ready]. rewrite Hl.
  cbn [ln_queue]. pose proof (skipExpired_split clock 0 (p0 :: q0)) as Hsplit.
  destruct (Serial.skipExpired clock 0 (p0 :: q0)) as [dropped kept]. cbn [fst snd] in Hsplit.
  destruct (expired_events k dropped) as (Ea & Eh & Es).
  assert (forall k', k' <> k -> k' ∈ r <-> k' ∈ ready_ e) as Hrk by (rewrite Hr; set_solver).
  destruct kept as [|p rest].
  - split; [done|]. intros k'. destruct (decide (k' = k)) as [->|Hne].
    + apply KIdle; cbn; [left; apply lookup_delete_eq|done|exact Hf| |by rewrite serial_app, Es].
      rewrite accepted_app, handled_app, Ea, Eh, app_nil_r, Hacc, <- Hsplit. by rewrite app_nil_r.
    + apply (keyInv_frame e _ _ (EvExpired k <$> dropped)); cbn;
        [by rewrite lookup_delete_ne|auto|done|by apply expired_other|by left|apply Hk].
  - split; [done|]. intros k'. destruct (decide (k' = k)) as [->|Hne].
    + apply (KTaken _ k w p rest); cbn;
        [apply lookup_insert_eq|done|apply lookup_insert_eq|by eapply free_only| |by rewrite serial_app, Es].
      rewrite accepted_app, handled_app, Ea, Eh, app_nil_r, Hacc, <- Hsplit. by rewrite <- app_assoc.
    + apply (keyInv_frame e _ _ (EvExpired k <$> dropped)); cbn;
        [by rewrite lookup_insert_ne|auto|done|by apply expired_other| |apply Hk].
      intros w'. eapply other_worker; [done|done|]. cbn. congruence.
Qed.

(** The key a worker holds is in the matching case of the invariant. *)
Lemma held_key e k w x :
  keyInv e k -> workers_ e !! w = Some x -> heldKey (Some x) = Some k ->
  heldOnlyBy e k w /\ k ∉ ready_ e /\ exists q, lanes_ e !! k = Some (mkLane q Running) /\
  match x with
  | WTaken _ p => accepted k (log e) = handled k (log e) ++ p :: q /\ serial k (log e) = Some None
  | WRunning _ p => accepted k (log e) = handled k (log e) ++ q /\ serial k (log e) = Some (Some p)
  | WFinishing _ => accepted k (log e) = handled k (log e) ++ q /\ serial k (log e) = Some None
  | _ => False
  end.
Proof.
  intros Hk Hw Hx. assert (heldKey (workers_ e !! w) = Some k) as Hh by by rewrite Hw.
  destruct Hk as [_ _ Hf _ _|p q _ _ Hf _ _|w0 p q Hl Hr Hw0 Ho Ha Hs|w0 p q Hl Hr Hw0 Ho Ha Hs
    |w0 q Hl Hr Hw0 Ho Ha Hs]; try (by destruct (Hf w)).
  all: pose proof (Ho w Hh) as ->; rewrite Hw in Hw0; injection Hw0 as ->; eauto 10.
Qed.

(** A worker that keeps its key moves on. *)
Lemma keep_only e k w x y :
  heldOnlyBy e k w -> workers_ e !! w = Some x -> forall e', workers_ e' = <[w := y]> (workers_ e) ->
  heldOnlyBy e' k w.
Proof.
  intros Ho Hx e' He' w' Hw'. destruct (decide (w' = w)) as [|Hne]; [done|]. apply Ho.
  by rewrite He', lookup_insert_ne in Hw'.
Qed.

Lemma start_ok w e : execInv e -> execInv (Serial.startTask w e).
Proof.
  intros He. unfold Serial.startTask. destruct (workers_ e !! w) as [[|k p| | |]|] eqn:Hw; try exact He.
  destruct He as [Hnd Hk]. destruct (held_key e k w _ (Hk k) Hw eq_refl) as (Ho & Hr & q & Hl & Ha & Hs).
  destruct (start_log k p (log e)) as (La & Lh & Ls). split; [done|]. intros k'.
  destruct (decide (k' = k)) as [->|Hne].
  - apply (KRunning _ k w p q); cbn; rewrite ?La, ?Lh, ?Ls by done;
      [done|done|apply lookup_insert_eq|by eapply keep_only| |done]. by rewrite Ha, <- app_assoc.
  - apply (keyInv_frame e _ _ [EvStart k p]); cbn;
      [done|done|done|repeat constructor; cbn; congruence| |apply Hk].
    intros w'. eapply other_worker; [done|cbn; congruence|cbn; congruence].
Qed.

Lemma end_ok w e : execInv e -> execInv (Serial.endTask w e).
Proof.
  intros He. unfold Serial.endTask. destruct (workers_ e !! w) as [[| |k p| |]|] eqn:Hw; try exact He.
  destruct He as [Hnd Hk]. destruct (held_key e k w _ (Hk k) Hw eq_refl) as (Ho & Hr & q & Hl & Ha & Hs).
  destruct (end_log k p (log e)) as (La & Lh & Ls). split; [done|]. intros k'.
  destruct (decide (k' = k)) as [->|Hne].
  - apply (KFinishing _ k w q); cbn; rewrite ?La, ?Lh, ?Ls by done;
      [done|done|apply lookup_insert_eq|by eapply keep_only|done|done].
  - apply (keyInv_frame e _ _ [EvEnd k p]); cbn;
      [done|done|done|repeat constructor; cbn; congruence| |apply Hk].
    intros w'. eapply other_worker; [done|cbn; congruence|cbn; congruence].
Qed.

Lemma finish_ok w e : execInv e -> execInv (Serial.finish w e).
Proof.
  intros He. unfold Serial.finish. destruct (workers_ e !! w) as [[| | |k|]|] eqn:Hw; try exact He.
  destruct He as [Hnd Hk]. destruct (held_key e k w _ (Hk k) Hw eq_refl) as (Ho & Hr & q & Hl & Ha & Hs).
  cbn [lanes_ Serial.set_worker]. rewrite Hl. cbn [ln_queue].
  assert (forall e', workers_ e' = <[w := WWaiting]> (workers_ e) -> free e' k) as Hfree.
  { intros e' He' w' Hw'. rewrite He' in Hw'. destruct (decide (w' = w)) as [->|Hne].
    - by rewrite lookup_insert_eq in Hw'.
    - rewrite lookup_insert_ne in Hw' by done. by apply Hne, Ho. }
  assert (forall e' k', k' <> k -> workers_ e' = <[w := WWaiting]> (workers_ e) ->
    lanes_ e' !! k' = lanes_ e !! k' -> (k' ∈ ready_ e' <-> k' ∈ ready_ e) -> log e' = log e ->
    keyInv e' k') as Hframe.
  { intros e' k' Hne Hw' Hl' Hr' Hlog. apply (keyInv_frame e _ _ []); try done.
    - by rewrite app_nil_r.
    - rewrite Hw'. intros w'. eapply other_worker; [done|cbn; congruence|done]. }
  destruct q as [|p q].
  - split; [done|]. intros k'. destruct (decide (k' = k)) as [->|Hne].
    + apply KIdle; cbn; [left; apply lookup_delete_eq|done|by apply Hfree|by rewrite app_nil_r in Ha|done].
    + apply Hframe; cbn; [done|done|by rewrite lookup_delete_ne|done|done].
  - split; cbn.
    { apply NoDup_app. split_and!; [done| |apply NoDup_singleton]. by intros x Hx ->%list_elem_of_singleton. }
    intros k'. destruct (decide (k' = k)) as [->|Hne].
    + apply (KQueued _ k p q); cbn; [apply lookup_insert_eq|set_solver|by apply Hfree|done|done].
    + apply Hframe; cbn; [done|done|by rewrite lookup_insert_ne|set_solver|done].
Qed.

Lemma step_ok e s : execInv e -> execInv (Serial.step e s).
Proof.
  destruct s; cbn [Serial.step];
    auto using submit_ok, shutdown_ok, take_ok, start_ok, end_ok, finish_ok.
Qed.

Lemma run_ok steps e : execInv e -> execInv (Serial.run steps e).
Proof. revert e. induction steps as [|s steps IH]; intros e He; [done|]. by apply IH, step_ok. Qed.

Lemma new_workers n w x : workers_ (Serial.new n 0 0) !! w = Some x -> x = WWaiting.
Proof.
  cbn. intros Hx. apply elem_of_list_to_map_2 in Hx. apply list_elem_of_fmap in Hx as (i & [= _ ->] & _). done.
Qed.

Lemma new_ok n gcap lcap : execInv (Serial.new n gcap lcap).
Proof.
  split; [constructor|]. intros k.
  apply KIdle; [left; apply lookup_empty|apply not_elem_of_nil| |done|done].
  intros w Hw. destruct (workers_ (Serial.new n 0 0) !! w) as [x|] eqn:Hx.
  - pose proof (new_workers n w x Hx) as ->. cbn in Hx, Hw. by rewrite Hx in Hw.
  - cbn in Hx, Hw. by rewrite Hx in Hw.
Qed.

(** ** Shutting down *)

Definition allExited (e : SessionSerialExecutor) : Prop :=
  (exists w, workers_ e !! w = Some WExited) /\ forall w x, workers_ e !! w = Some x -> x = WExited.

(** Workers leave only during shutdown, the last one when nothing is ready. *)
Record drainInv (e : SessionSerialExecutor) : Prop := {
  di_shut : forall w, workers_ e !! w = Some WExited -> shuttingDown_ e = true;
  di_ready : allExited e -> ready_ e = [];
}.

Lemma insert_alive e w x y :
  workers_ e !! w = Some x -> y <> WExited ->
  ~ (forall w' z, <[w := y]> (workers_ e) !! w' = Some z -> z = WExited).
Proof. intros _ Hy Hall. by apply Hy, (Hall w), lookup_insert_eq. Qed.

(** A worker that does not leave: it moves to another live state. *)
Lemma drain_move e e' w x y :
  drainInv e -> workers_ e !! w = Some x -> workers_ e' = <[w := y]> (workers_ e) ->
  shuttingDown_ e' = shuttingDown_ e -> y <> WExited -> drainInv e'.
Proof.
  intros [Hs _] Hx Hw Hsh Hy. split.
  - intros w'. rewrite Hw, Hsh. intros [[_ ?]|[_ ?]]%lookup_insert_Some; [done|eauto].
  - intros [_ Hall]. rewrite Hw in Hall. exfalso. by eapply insert_alive.
Qed.

(** A step that moves no worker and, once shutting down, readies nothing. *)
Lemma drain_keep e e' :
  drainInv e -> workers_ e' = workers_ e -> (shuttingDown_ e = true -> shuttingDown_ e' = true) ->
  (shuttingDown_ e = true -> ready_ e = [] -> ready_ e' = []) -> drainInv e'.
Proof.
  intros [Hs Hr] Hw Hsh Hrd. split.
  - intros w. rewrite Hw. eauto.
  - unfold allExited. rewrite Hw. intros [[w Hex] Hall]. apply Hrd; [eauto|]. apply Hr. split; eauto.
Qed.

Lemma drain_step e s : drainInv e -> drainInv (Serial.step e s).
Proof.
  intros Hd. destruct s as [key task completion dl now| |w clock|w|w|w]; cbn [Serial.step].
  - unfold Serial.submit. destruct (shuttingDown_ e) eqn:Hsh; [by eapply drain_keep|].
    cbv zeta. repeat case_match; eapply drain_keep; try done; cbn; by rewrite Hsh.
  - by eapply drain_keep.
  - unfold Serial.take. destruct (workers_ e !! w) as [[]|] eqn:Hw; try done.
    destruct (ready_ e) as [|k r] eqn:Hr.
    + destruct (shuttingDown_ e) eqn:Hsh; [|done]. split; cbn; [|by rewrite Hr].
      intros w' _. exact Hsh.
    + assert (forall e', workers_ e' = workers_ e -> shuttingDown_ e' = shuttingDown_ e -> drainInv e') as Hsame.
      { intros e' H1 H2. split; rewrite ?H1, ?H2; [by destruct Hd|]. intros [_ Hall].
        rewrite H1 in Hall. by specialize (Hall w _ Hw). }
      cbn [lanes_ Serial.set_ready]. destruct (lanes_ e !! k) as [lane|]; [|by apply Hsame].
      destruct (Serial.skipExpired clock 0 (ln_queue lane)) as [d [|p q]]; [by apply Hsame|].
      eapply (drain_move e _ w); [done|done|reflexivity|done|done].
  - unfold Serial.startTask. destruct (workers_ e !! w) as [[]|] eqn:Hw; try done. eapply (drain_move e _ w); [done|done|reflexivity|done|done].
  - unfold Serial.endTask. destruct (workers_ e !! w) as [[]|] eqn:Hw; try done. eapply (drain_move e _ w); [done|done|reflexivity|done|done].
  - unfold Serial.finish. destruct (workers_ e !! w) as [[]|] eqn:Hw; try done.
    repeat case_match; (eapply (drain_move e _ w); [done|done|reflexivity|done|done]).
Qed.

Lemma drain_run steps e : drainInv e -> drainInv (Serial.run steps e).
Proof. revert e. induction steps as [|s steps IH]; intros e He; [done|]. by apply IH, drain_step. Qed.

Lemma drain_new n gcap lcap : drainInv (Serial.new n gcap lcap).
Proof. split; [|done]. intros w Hw. apply (new_workers n) in Hw. done. Qed.

(** ** Guarantees *)

Lemma key_serial e k : keyInv e k -> serial k (log e) <> None.
Proof. intros []; congruence. Qed.

Lemma key_fifo e k :
  keyInv e k -> exists rest, accepted k (log e) = handled k (log e) ++ rest /\
    (rest <> [] -> k ∈ ready_ e \/ exists w, heldKey (workers_ e !! w) = Some k).
Proof.
  intros [_ _ _ -> _|p q _ Hr _ -> _|w p q _ _ Hw _ -> _|w p q _ _ Hw _ -> _|w q _ _ Hw _ -> _].
  1: exists []; by rewrite app_nil_r.
  all: eexists; split; [reflexivity|]; intros _; first [by left|right; exists w; by rewrite Hw].
Qed.

(** C20: The keyed executor runs the tasks of one key one at a time and in order: under
    every interleaving of submitters and workers, with any capacities and number
    of workers, no two tasks of a key overlap; the started or expired ones are a
    prefix of the accepted ones, each once; and while accepted tasks remain, their
    key waits in the ready queue or a worker is busy with it. *)
Theorem executor_serial_per_key n gcap lcap steps k :
  serial k (log (Serial.run steps (Serial.new n gcap lcap))) <> None /\
  exists rest,
    accepted k (log (Serial.run steps (Serial.new n gcap lcap))) =
    handled k (log (Serial.run steps (Serial.new n gcap lcap))) ++ rest /\
    (rest <> [] ->
       k ∈ ready_ (Serial.run steps (Serial.new n gcap lcap)) \/
       exists w, heldKey (workers_ (Serial.run steps (Serial.new n gcap lcap)) !! w) = Some k).
Proof.
  destruct (run_ok steps _ (new_ok n gcap lcap)) as [_ Hk].
  split; [by apply key_serial|by apply key_fifo].
Qed.

(** C21: Shutting the keyed executor down loses nothing: when all its workers have
    returned, which is what shutdown waits for, every task that was accepted has
    been run to its end or has passed its deadline. *)
Theorem executor_shutdown_drains n gcap lcap steps k :
  allExited (Serial.run steps (Serial.new n gcap lcap)) ->
  accepted k (log (Serial.run steps (Serial.new n gcap lcap))) =
  handled k (log (Serial.run steps (Serial.new n gcap lcap))) /\
  serial k (log (Serial.run steps (Serial.new n gcap lcap))) = Some None.
Proof.
  intros Hall. destruct (run_ok steps _ (new_ok n gcap lcap)) as [_ Hk].
  pose proof (di_ready _ (drain_run steps _ (drain_new n gcap lcap)) Hall) as Hr.
  destruct Hall as [_ Hall]. destruct (Hk k) as [_ _ _ Ha Hs|? ? _ Hin|w ? ? _ _ Hw|w ? ? _ _ Hw|w ? _ _ Hw].
  - done.
  - rewrite Hr in Hin. by apply not_elem_of_nil in Hin.
  - by apply Hall in Hw.
  - by apply Hall in Hw.
  - by apply Hall in Hw.
Qed.

(** Two workers, two tasks of one session and one of a connection. *)
Definition demoSteps : list Serial.Step :=
  let clock := fun _ : nat => 5 in
  [Serial.Submit (Session 7 1) (Some 1) (Some 2) 0 0; Serial.Submit (Connection 9) (Some 3) None 100 0;
   Serial.Take 0 clock; Serial.Submit (Session 7 1) (Some 4) None 0 1; Serial.Take 1 clock;
   Serial.Start 1; Serial.Start 0; Serial.Shutdown; Serial.End_ 0; Serial.Finish 0; Serial.Take 0 clock;
   Serial.End_ 1; Serial.Finish 1; Serial.Take 1 clock; Serial.Start 0; Serial.End_ 0; Serial.Finish 0;
   Serial.Take 0 clock].

(** C21: the run above ends with both workers returned. *)
Lemma executor_shutdown_drains_witness :
  accepted (Session 7 1) (log (Serial.run demoSteps (Serial.new 2 64 64))) =
  handled (Session 7 1) (log (Serial.run demoSteps (Serial.new 2 64 64))) /\
  length (accepted (Session 7 1) (log (Serial.run demoSteps (Serial.new 2 64 64)))) = 2%nat.
Proof.
  split; [|vm_compute; reflexivity].
  refine (proj1 (executor_shutdown_drains 2 64 64 demoSteps (Session 7 1) _)).
  split; [exists 0%nat; vm_compute; reflexivity|].
  assert (workers_ (Serial.run demoSteps (Serial.new 2 64 64)) = {[0%nat := WExited; 1%nat := WExited]})
    as Hw by (vm_compute; reflexivity).
  intros w x. rewrite Hw, lookup_insert_Some, lookup_singleton_Some. intros [[_ <-]|(_ & _ & <-)]; reflexivity.
Defined.

(** A submit that the full ready queue rejects leaves an idle lane behind, which no
    later step of the executor removes unless the same key is submitted again. *)
Theorem rejected_submit_leaves_lane :
  let e := Serial.run [Serial.Submit (Session 1 1) (Some 1) None 0 0] (Serial.new 1 1 64) in
  let '(e', r) := Serial.submit (Session 2 1) (Some 2) None 0 0 e in
  r = RejectedFull /\ lanes_ e' !! Session 2 1 = Some (mkLane [] Idle).
Proof. vm_compute. done. Qed.
