(* ===== verification/Timing.v ===== *)
(** * Timing: backoff, wake-up intervals, boot identities

    The arithmetic of the retry schedule ([DeliveryCoordinator::backoffMs],
    [computeNextWakeMs], the alignment in [runTick], the wait of
    [schedulerLoop]) and of [nextBootId], against closed forms. *)

From S2P Require Import Prelude DomainTypes Json Metrics Store InMemoryStore World Coordinator.
From S2P Require Import Messaging.
From Stdlib Require Import QArith.

Open Scope Z_scope.
Open Scope eff_scope.

(** ** Backoff *)

Lemma backoffLoop_closed cfg n delay :
  1 <= backoffMultiplier cfg -> 1 <= delay -> delay <= backoffCapMs cfg < 2 ^ 63 ->
  backoffLoop cfg n delay =
  Z.min (backoffCapMs cfg) (delay * backoffMultiplier cfg ^ Z.of_nat n).
Proof.
  intros Hm. revert delay. induction n as [|n IH]; intros delay Hd Hc; cbn [backoffLoop].
  { rewrite Z.pow_0_r. lia. }
  rewrite Nat2Z.inj_succ, Z.pow_succ_r by lia.
  assert (0 < backoffMultiplier cfg ^ Z.of_nat n) as Hp by (apply Z.pow_pos_nonneg; lia).
  destruct (Z.ltb_spec delay (backoffCapMs cfg)).
  2: { assert (1 <= backoffMultiplier cfg * backoffMultiplier cfg ^ Z.of_nat n) by nia.
       rewrite Z.min_l by nia. lia. }
  unfold cdiv. rewrite Z.quot_div_nonneg by lia.
  destruct (Z.ltb_spec 1 (backoffMultiplier cfg)) as [Hgt|Hone]; cbn [andb].
  - destruct (Z.ltb_spec (backoffCapMs cfg / backoffMultiplier cfg) delay) as [Hlt|Hge].
    + assert (backoffCapMs cfg < delay * backoffMultiplier cfg).
      { pose proof (Z.mul_succ_div_gt (backoffCapMs cfg) (backoffMultiplier cfg)). nia. }
      symmetry. apply Z.min_l. nia.
    + assert (delay * backoffMultiplier cfg <= backoffCapMs cfg).
      { pose proof (Z.mul_div_le (backoffCapMs cfg) (backoffMultiplier cfg)). nia. }
      rewrite i64_small by (split; nia). rewrite IH by nia. f_equal. ring.
  - assert (backoffMultiplier cfg = 1) as Hm1 by lia.
    rewrite i64_small by (rewrite Hm1; split; lia). rewrite IH by (rewrite Hm1; lia).
    rewrite Hm1. f_equal. ring.
Qed.

(** Exponential backoff is saturating and never overflows: for a positive
    base and multiplier the delay before jitter of the n-th attempt is
    exactly min(cap, base * multiplier^(n-1)), for every attempt number. *)
Theorem backoff_is_capped_exponential cfg attempt :
  1 <= backoffBaseMs cfg < 2 ^ 63 -> 1 <= backoffMultiplier cfg ->
  1 <= backoffCapMs cfg < 2 ^ 63 -> 1 <= attempt ->
  backoffBeforeJitter cfg attempt =
  Z.min (backoffCapMs cfg) (backoffBaseMs cfg * backoffMultiplier cfg ^ (attempt - 1)).
Proof.
  intros Hb Hm Hc Ha. unfold backoffBeforeJitter.
  assert (0 < backoffMultiplier cfg ^ (attempt - 1)) as Hp by (apply Z.pow_pos_nonneg; lia).
  destruct (Z.le_gt_cases (backoffBaseMs cfg) (backoffCapMs cfg)).
  - rewrite backoffLoop_closed, Z2Nat.id by lia. case Z.ltb_spec; lia.
  - assert (forall n, backoffLoop cfg n (backoffBaseMs cfg) = backoffBaseMs cfg) as ->.
    { intros []; cbn [backoffLoop]; [done|]. case Z.ltb_spec; [lia|done]. }
    case Z.ltb_spec; nia.
Qed.

(** An instance with the default configuration: the fourth attempt, and one so late that
    the uncapped product would overflow. *)
Lemma backoff_is_capped_exponential_witness :
  backoffBeforeJitter defaultRetryConfig 4 = Z.min 60000 (1000 * 2 ^ 3) /\
  backoffBeforeJitter defaultRetryConfig 80 = Z.min 60000 (1000 * 2 ^ 79).
Proof.
  split; [apply (backoff_is_capped_exponential defaultRetryConfig 4)|
          apply (backoff_is_capped_exponential defaultRetryConfig 80)]; simpl; lia.
Defined.

(** ** Wake-up intervals *)

(** The time until [x], at least one millisecond. *)
Definition remaining (now x : Z) : Z := Z.max 1 (x - now).

Definition minimum (l : list Z) (x : Z) : Z := foldr Z.min x l.

Lemma minimum_le l x : minimum l x <= x.
Proof. induction l; simpl; lia. Qed.

Lemma minimum_lower l x y : y ∈ l -> minimum l x <= y.
Proof. intros Hy. induction Hy; simpl; lia. Qed.

Lemma minimum_min l x y : minimum l (Z.min x y) = Z.min (minimum l x) y.
Proof. induction l; simpl; lia. Qed.

Lemma minimum_in l x : minimum l x = x \/ minimum l x ∈ l.
Proof.
  induction l as [|y l IH]; simpl; [by left|].
  destruct (Z.min_spec y (minimum l x)) as [[_ ->]|[_ ->]]; [right; by left|].
  destruct IH as [->|IH]; [by left|right; by right].
Qed.

(** No overflow in the subtraction of two readings. *)
Definition reading (x : Z) : Prop := - 2 ^ 62 <= x < 2 ^ 62.

Lemma wakeLoop_minimum now l wake :
  reading now -> Forall reading l ->
  wakeLoop now l wake = minimum (map (remaining now) l) wake.
Proof.
  unfold reading. intros Hn Hl. revert wake.
  induction Hl as [|x l Hx Hl IH]; intros wake; cbn [wakeLoop]; [done|].
  rewrite i64_small by (split; lia). rewrite IH. cbn [map minimum foldr].
  fold (minimum (map (remaining now) l) wake). unfold remaining at 2.
  rewrite Z.min_comm, <- minimum_min. f_equal. repeat case Z.ltb_spec; lia.
Qed.

(** The wake-up interval is the least of the acknowledgement timeout and the
    times to the next attempts, each at least one millisecond: the scheduler
    neither spins nor sleeps past an attempt that is due within the timeout. *)
Theorem computeNextWake_is_minimum now ackTimeout attempts :
  reading now -> Forall reading attempts ->
  computeNextWakeMs now ackTimeout attempts =
  Z.max 1 (minimum (map (remaining now) attempts) ackTimeout).
Proof.
  intros Hn Hl. unfold computeNextWakeMs. rewrite wakeLoop_minimum by done.
  case Z.ltb_spec; lia.
Qed.

(** An instance with an overdue attempt and a later one. *)
Lemma computeNextWake_is_minimum_witness :
  computeNextWakeMs 1000 30000 [2500; 4000] = Z.max 1 (minimum [1500; 3000] 30000) /\
  computeNextWakeMs 1000 30000 [900; 4000] = 1.
Proof.
  split; [|reflexivity].
  apply (computeNextWake_is_minimum 1000 30000 [2500; 4000]); [by split|].
  repeat constructor; unfold reading; lia.
Defined.

Lemma alignUp_spec g x :
  1 <= g < 2 ^ 32 -> 0 <= x < 2 ^ 62 ->
  x <= alignUp g x < x + g /\ alignUp g x mod g = 0.
Proof.
  intros Hg Hx. unfold alignUp, cdiv. rewrite (i64_small (x + g - 1)) by (split; lia).
  rewrite Z.quot_div_nonneg by lia.
  pose proof (Z.div_mod (x + g - 1) g ltac:(lia)).
  pose proof (Z.mod_pos_bound (x + g - 1) g ltac:(lia)).
  rewrite i64_small by (split; nia). split; [nia|]. by apply Z.mod_mul; lia.
Qed.

Lemma earliestOf_minimum l e : earliestOf e l = minimum l e.
Proof.
  revert e. induction l as [|x l IH]; intros e; cbn [earliestOf]; [done|].
  rewrite IH. cbn [minimum foldr]. fold (minimum l e).
  rewrite Z.min_comm, <- minimum_min. f_equal. case Z.ltb_spec; lia.
Qed.

Lemma minimum_remaining now l x ack :
  minimum (map (remaining now) (x :: l)) ack = Z.min (remaining now (minimum l x)) ack.
Proof.
  induction l as [|z l IH]; cbn [map minimum foldr]; [done|].
  cbn [map minimum foldr] in IH. fold (minimum (map (remaining now) l) ack) in *.
  fold (minimum l x) in *. unfold remaining in *. lia.
Qed.

(** On a store that keeps times in coarse units, a tick wakes exactly at the
    first aligned retry boundary when that lies within the acknowledgement
    timeout plus the rounding, so that the retry scan of that tick finds the
    row due; only a longer backoff is cut to the timeout. *)
Theorem tickWake_hits_boundary now ack g x rest :
  reading now -> Forall reading (x :: rest) -> 1 <= ack < 2 ^ 62 -> 1 < g < 2 ^ 32 ->
  let earliest := minimum rest x in
  tickWake now ack g (x :: rest) =
  if earliest - now <=? ack + g - 1 then remaining now earliest else ack.
Proof.
  intros Hn Hl Ha Hg e. unfold tickWake, computeNextWakeMs.
  rewrite wakeLoop_minimum, minimum_remaining, earliestOf_minimum by done. fold e.
  assert (reading e) as He.
  { destruct (minimum_in rest x) as [E0|Hin]; unfold e.
    - rewrite E0. by inversion Hl.
    - rewrite Forall_forall in Hl. apply Hl. by right. }
  unfold reading in *. rewrite (i64_small (e - now)), (i64_small (ack + g - 1)) by (split; lia).
  unfold remaining. repeat (case Z.ltb_spec || case Z.leb_spec; cbn [andb]; try lia).
Qed.

(** An instance with the one-second granularity: the retry at 31.2 s is found at 32 s. *)
Lemma tickWake_hits_boundary_witness :
  tickWake 1500 30000 1000 (map (alignUp 1000) [31200; 45000]) = 32000 - 1500 /\
  tickWake 1500 30000 1000 [32000; 45000] =
    if 32000 - 1500 <=? 30000 + 1000 - 1 then remaining 1500 32000 else 30000.
Proof.
  split; [vm_compute; reflexivity|].
  apply (tickWake_hits_boundary 1500 30000 1000 32000 [45000]);
    [by split|repeat constructor; unfold reading; lia|lia|lia].
Defined.

(** ** The scheduler *)

Section scheduler.
Context {S E : Type} `{!MessageStore S, !Env E}.

Lemma tick_throws (w : World S E) :
  wp runTickBestEffort (fun _ _ => True) (fun x _ => x = Diverges) w.
Proof.
  unfold wp, runTickBestEffort, catchAll, catch.
  destruct (runTick w) as [w1 [?|[]]]; done.
Qed.

(** No failure of store, sink or metrics ends the scheduler: a turn leaves
    the loop exactly when a stop was requested, and otherwise waits at least one
    millisecond before the next turn, also when the tick threw. *)
Theorem scheduler_survives (w : World S E) :
  match schedulerTurn w with
  | (w', Ret None) => stopRequested_ (w_sched w) = true /\ w' = w
  | (_, Ret (Some ms)) => stopRequested_ (w_sched w) = false /\ 1 <= ms
  | (_, Throw x) => x = Diverges
  end.
Proof.
  unfold schedulerTurn, getCoord, nowMs, gets, bind. cbn beta iota.
  destruct (stopRequested_ (w_sched w)); [done|].
  pose proof (tick_throws w) as Ht. unfold wp in Ht.
  destruct (runTickBestEffort w) as [w1 [waitMs|x]]; [|exact Ht].
  destruct (clockNow (w_env w1)) as [e now]. split; [done|].
  case Z.ltb_spec; lia.
Qed.
End scheduler.

(** ** Boot identities *)

Lemma testbit_wrapU w x i : 0 <= w -> 0 <= i -> Z.testbit (wrapU w x) i = (i <? w) && Z.testbit x i.
Proof.
  intros Hw Hi. unfold wrapU. case Z.ltb_spec; intros.
  - by rewrite Z.mod_pow2_bits_low by lia.
  - by rewrite Z.mod_pow2_bits_high by lia.
Qed.

Lemma nextBootId_bits pid t c i :
  0 <= i ->
  Z.testbit (nextBootId pid t c) i =
  xorb (xorb ((i <? 64) && Z.testbit pid (i - 52)) ((i <? 52) && Z.testbit t i))
    ((i <? 64) && Z.testbit c (i - 60)).
Proof.
  intros Hi. unfold nextBootId, u64.
  change 0xFFFFFFFFFFFFF with (Z.ones 52). change 0xFFF with (Z.ones 12).
  rewrite !Z.lxor_spec, !testbit_wrapU, !Z.shiftl_spec, Z.land_ones by lia.
  fold (wrapU 52 t). rewrite testbit_wrapU by lia. f_equal.
  destruct (Z.ltb_spec i 64), (Z.le_gt_cases 60 i); cbn [andb]; [|  |done|done].
  - rewrite Z.land_spec, Z.testbit_ones_nonneg by lia.
    destruct (Z.ltb_spec (i - 60) 12); [by rewrite andb_true_r|lia].
  - by rewrite !Z.testbit_neg_r by lia.
Qed.

Lemma wrapU_eq w x y :
  0 <= w -> (forall i, 0 <= i < w -> Z.testbit x i = Z.testbit y i) <-> wrapU w x = wrapU w y.
Proof.
  intros Hw. split.
  - intros Hb. apply Z.bits_inj'. intros i Hi. rewrite !testbit_wrapU by lia.
    destruct (Z.ltb_spec i w); [|done]. simpl. apply Hb. lia.
  - intros He i Hi. apply (f_equal (fun z => Z.testbit z i)) in He.
    rewrite !testbit_wrapU in He by lia. by destruct (Z.ltb_spec i w); [|lia].
Qed.

(** Boot identities of one process collide only if both the low 52 bits of
    the clock and the low four bits of the construction counter agree: sixteen
    constructions in a row are pairwise distinct whatever the clock reads. *)
Theorem bootId_collision pid t1 t2 c1 c2 :
  nextBootId pid t1 c1 = nextBootId pid t2 c2 <->
  wrapU 52 t1 = wrapU 52 t2 /\ wrapU 4 c1 = wrapU 4 c2.
Proof.
  rewrite <- !wrapU_eq by lia. split.
  - intros He. assert (forall i, 0 <= i ->
      Z.testbit (nextBootId pid t1 c1) i = Z.testbit (nextBootId pid t2 c2) i) as Hb
      by (intros i Hi; by rewrite He).
    split; intros i Hi.
    + specialize (Hb i ltac:(lia)). rewrite !nextBootId_bits in Hb by lia.
      rewrite !(Z.testbit_neg_r _ (i - 60)) in Hb by lia.
      destruct (Z.ltb_spec i 64), (Z.ltb_spec i 52); try lia.
      by destruct (Z.testbit t1 i), (Z.testbit t2 i), (Z.testbit pid (i - 52)).
    + specialize (Hb (i + 60) ltac:(lia)). rewrite !nextBootId_bits in Hb by lia.
      replace (i + 60 - 60) with i in Hb by lia.
      destruct (Z.ltb_spec (i + 60) 64), (Z.ltb_spec (i + 60) 52); try lia.
      by destruct (Z.testbit c1 i), (Z.testbit c2 i), (Z.testbit pid (i + 60 - 52)).
  - intros [Ht Hc]. apply Z.bits_inj'. intros i Hi. rewrite !nextBootId_bits by lia. f_equal.
    + f_equal. destruct (Z.ltb_spec i 52); [|done]. simpl. apply Ht. lia.
    + destruct (Z.ltb_spec i 64); [|done]. simpl.
      destruct (Z.le_gt_cases 60 i); [apply Hc; lia|]. by rewrite !Z.testbit_neg_r by lia.
Qed.
