(* ===== verification/EventLoop.v ===== *)
(** * Event loops (mymuduo/EventLoop.cc, Channel.cc, EPollPoller.cc)

    The functor queue of a loop with its wake-up descriptor, and the channels
    with their registration in epoll.  A functor is a number.  The loop thread
    alternates between waiting in [poll], handling events and running the
    functors it swapped out; other threads queue functors in two steps, the push
    under the mutex and the write to the eventfd. *)

From S2P Require Import Prelude.

Open Scope Z_scope.

(** ** The loop *)

Inductive LoopPhase :=
| Starting                        (**r before [loop()] *)
| Polling                         (**r in [poll] *)
| Handling                        (**r in the callbacks of active channels *)
| Calling (functors : list nat)   (**r in [doPendingFunctors] *)
| Stopped.

Record EventLoop := mkLoop {
  lp_phase : LoopPhase;
  quit_ : bool;
  pendingFunctors_ : list nat;
  wakeupFd : Z;                      (**r the counter of the eventfd *)
  lp_waking : nat;                   (**r threads about to write to the eventfd *)
  lp_early : bool;                   (**r the loop thread queued before [loop()] *)
  lp_queued : list nat;              (**r every functor queued, in order *)
  lp_ran : list nat;                 (**r every functor begun, in order *)
}.

Definition newLoop : EventLoop := mkLoop Starting false [] 0 0 false [] [].

Module Loop.

Definition callingPendingFunctors (l : EventLoop) : bool :=
  match lp_phase l with Calling _ => true | _ => false end.

Definition set_phase (p : LoopPhase) (l : EventLoop) : EventLoop :=
  mkLoop p (quit_ l) (pendingFunctors_ l) (wakeupFd l) (lp_waking l) (lp_early l) (lp_queued l) (lp_ran l).

(** A write adds one; at the maximum the write fails and the descriptor stays
    readable. *)
Definition wakeup (l : EventLoop) : EventLoop :=
  mkLoop (lp_phase l) (quit_ l) (pendingFunctors_ l)
    (if wakeupFd l <? 2 ^ 64 - 2 then wakeupFd l + 1 else wakeupFd l) (lp_waking l) (lp_early l)
    (lp_queued l) (lp_ran l).

(** [handleRead]: the read resets the counter. *)
Definition handleRead (l : EventLoop) : EventLoop :=
  mkLoop (lp_phase l) (quit_ l) (pendingFunctors_ l) 0 (lp_waking l) (lp_early l) (lp_queued l) (lp_ran l).

Definition push (f : nat) (waking : nat) (early : bool) (l : EventLoop) : EventLoop :=
  mkLoop (lp_phase l) (quit_ l) (pendingFunctors_ l ++ [f]) (wakeupFd l) waking early (lp_queued l ++ [f])
    (lp_ran l).

(** [queueInLoop] of another thread, up to the wake-up. *)
Definition queueFromOther (f : nat) (l : EventLoop) : EventLoop := push f (S (lp_waking l)) (lp_early l) l.

Definition wakeupFromOther (l : EventLoop) : EventLoop :=
  match lp_waking l with
  | O => l
  | S n => wakeup (mkLoop (lp_phase l) (quit_ l) (pendingFunctors_ l) (wakeupFd l) n (lp_early l)
                     (lp_queued l) (lp_ran l))
  end.

(** [queueInLoop] of the loop's own thread. *)
Definition queueFromLoop (f : nat) (l : EventLoop) : EventLoop :=
  let early := match lp_phase l with Starting => true | _ => lp_early l end in
  let l := push f (lp_waking l) early l in
  if callingPendingFunctors l then wakeup l else l.

(** [quit]; another thread wakes the loop up after it. *)
Definition quit (other : bool) (l : EventLoop) : EventLoop :=
  mkLoop (lp_phase l) true (pendingFunctors_ l) (wakeupFd l)
    (if other then S (lp_waking l) else lp_waking l) (lp_early l) (lp_queued l) (lp_ran l).

(** The head of [while (!quit_)]. *)
Definition turn (l : EventLoop) : EventLoop := set_phase (if quit_ l then Stopped else Polling) l.

(** [doPendingFunctors] swaps the queue out under the mutex. *)
Definition swap (l : EventLoop) : EventLoop :=
  mkLoop (Calling (pendingFunctors_ l)) (quit_ l) [] (wakeupFd l) (lp_waking l) false
    (lp_queued l) (lp_ran l).

Definition callNext (f : nat) (rest : list nat) (l : EventLoop) : EventLoop :=
  mkLoop (Calling rest) (quit_ l) (pendingFunctors_ l) (wakeupFd l) (lp_waking l) (lp_early l)
    (lp_queued l) (lp_ran l ++ [f]).
End Loop.

Inductive LoopStep :=
| LStart
| LPollReturns (wakeupReadable : bool)
| LHandlersDone
| LCall
| LQueueOther (f : nat)
| LWakeupOther
| LQueueLoop (f : nat)
| LQuit (other : bool).

Definition loopStep (l : EventLoop) (st : LoopStep) : EventLoop :=
  match st, lp_phase l with
  | LStart, Starting => Loop.turn l
  | LPollReturns readable, Polling =>
      let l := if readable && (0 <? wakeupFd l) then Loop.handleRead l else l in
      Loop.set_phase Handling l
  | LHandlersDone, Handling => Loop.swap l
  | LCall, Calling (f :: rest) => Loop.callNext f rest l
  | LCall, Calling [] => Loop.turn l
  | LQueueOther f, _ => Loop.queueFromOther f l
  | LWakeupOther, _ => Loop.wakeupFromOther l
  | LQueueLoop f, (Starting | Handling | Calling _) => Loop.queueFromLoop f l
  | LQuit true, _ => Loop.quit true l
  | LQuit false, (Starting | Handling | Calling _) => Loop.quit false l
  | _, _ => l
  end.

Definition loopRun (steps : list LoopStep) (l : EventLoop) : EventLoop := foldl loopStep l steps.

(** ** What the loop guarantees *)

Definition calling (l : EventLoop) : list nat :=
  match lp_phase l with Calling fs => fs | _ => [] end.

Record loop_ok (l : EventLoop) : Prop := {
  lo_order : lp_queued l = lp_ran l ++ calling l ++ pendingFunctors_ l;
  lo_counter : 0 <= wakeupFd l;
  lo_wake : pendingFunctors_ l <> [] ->
    match lp_phase l with
    | Starting | Polling | Calling _ => 0 < wakeupFd l \/ (0 < lp_waking l)%nat \/ lp_early l = true
    | _ => True
    end;
  lo_early : lp_early l = true -> pendingFunctors_ l <> [];
  lo_quit : lp_phase l = Polling -> quit_ l = true -> 0 < wakeupFd l \/ (0 < lp_waking l)%nat;
}.

Lemma push_nonempty (l : list nat) f : l ++ [f] <> [].
Proof. by intros [_ ?]%app_nil. Qed.

Lemma queueFromOther_ok f l : loop_ok l -> loop_ok (Loop.queueFromOther f l).
Proof.
  intros [Ho Hc Hw He Hq]. split; cbn in *.
  - unfold calling in *. cbn. rewrite Ho. by rewrite <- !app_assoc.
  - done.
  - intros _. destruct (lp_phase l); auto with lia.
  - intros _. apply push_nonempty.
  - intros H1 H2. right. lia.
Qed.

Lemma wakeup_pos l : 0 <= wakeupFd l -> 0 < wakeupFd (Loop.wakeup l).
Proof. cbn. intros ?. destruct (Z.ltb_spec (wakeupFd l) (2 ^ 64 - 2)); lia. Qed.

Lemma wakeupFromOther_ok l : loop_ok l -> loop_ok (Loop.wakeupFromOther l).
Proof.
  intros [Ho Hc Hw He Hq]. unfold Loop.wakeupFromOther. destruct (lp_waking l) as [|n] eqn:Hn.
  { split; rewrite ?Hn; done. }
  set (l' := mkLoop _ _ _ _ _ _ _ _). pose proof (wakeup_pos l' Hc) as Hpos.
  split; [done|lia| |done|by left]. intros Hp. destruct (lp_phase (Loop.wakeup l')); auto.
Qed.

Lemma queueFromLoop_ok f l :
  loop_ok l -> (lp_phase l = Starting \/ lp_phase l = Handling \/ exists fs, lp_phase l = Calling fs) ->
  loop_ok (Loop.queueFromLoop f l).
Proof.
  intros [Ho Hc Hw He Hq] Hph. unfold Loop.queueFromLoop, Loop.callingPendingFunctors. cbn.
  set (l' := Loop.push _ _ _ _).
  assert (lp_queued l' = lp_ran l' ++ calling l' ++ pendingFunctors_ l') as Ho'.
  { unfold calling in *. cbn. rewrite Ho. by rewrite <- !app_assoc. }
  assert (pendingFunctors_ l' <> []) as Hne by apply push_nonempty.
  destruct Hph as [Hp|[Hp|[fs Hp]]]; rewrite Hp.
  - split; try done; cbn; rewrite Hp; auto.
  - split; try done; cbn; rewrite Hp; auto.
  - pose proof (wakeup_pos l' Hc). split; try done; [lia|..]; cbn; rewrite ?Hp; auto.
Qed.

Lemma turn_ok l : loop_ok l -> lp_phase l = Starting \/ lp_phase l = Calling [] -> loop_ok (Loop.turn l).
Proof.
  intros [Ho Hc Hw He Hq] Hph. unfold Loop.turn.
  assert (calling l = []) as Hcall by (unfold calling; by destruct Hph as [->| ->]).
  rewrite Hcall in Ho.
  destruct (quit_ l) eqn:Hquit; split; cbn; try done; try (by rewrite Hquit).
  intros Hp. specialize (Hw Hp). by destruct Hph as [Hl|Hl]; rewrite Hl in Hw.
Qed.

Lemma loopStep_ok l st : loop_ok l -> loop_ok (loopStep l st).
Proof.
  intros Hok. pose proof Hok as [Ho Hc Hw He Hq].
  destruct st as [|readable| | |f| |f|[]]; cbn.
  - destruct (lp_phase l) eqn:Hp; try done. apply turn_ok; auto.
  - destruct (lp_phase l) eqn:Hp; try done. unfold calling in Ho. rewrite Hp in Ho.
    destruct (readable && (0 <? wakeupFd l)); by split.
  - destruct (lp_phase l) eqn:Hp; try done. unfold calling in Ho. rewrite Hp in Ho.
    split; cbn; [by rewrite app_nil_r|done|done|done|done].
  - destruct (lp_phase l) as [| | |[|g fs]|] eqn:Hp; try done; [apply turn_ok; auto|].
    unfold calling in Ho. rewrite Hp in Ho. split; cbn; try done. by rewrite Ho, <- app_assoc.
  - by apply queueFromOther_ok.
  - by apply wakeupFromOther_ok.
  - destruct (lp_phase l) eqn:Hp; try done; apply queueFromLoop_ok; eauto.
  - split; try done; cbn; [intros Hpd; specialize (Hw Hpd); destruct (lp_phase l); auto with lia|]. intros _ _. right. lia.
  - destruct (lp_phase l) eqn:Hp; try done; split; cbn; rewrite ?Hp in *; done.
Qed.

Lemma loopRun_ok steps : loop_ok (loopRun steps newLoop).
Proof.
  assert (loop_ok newLoop) as H0 by by split.
  revert H0. generalize newLoop. induction steps as [|st steps IH]; intros l Hl; [done|].
  simpl. by apply IH, loopStep_ok.
Qed.

(** Functors run once each and in the order in which they were queued, and
    none is left behind: while the loop waits in [poll] with functors queued, its
    eventfd is readable or a thread is about to write to it.  The exception is a
    functor that the loop's own thread queued before it called [loop()], which
    waits for the poll to time out. *)
Theorem functors_are_not_stranded steps :
  let l := loopRun steps newLoop in
  lp_queued l = lp_ran l ++ calling l ++ pendingFunctors_ l /\
  (lp_phase l = Polling -> pendingFunctors_ l <> [] \/ quit_ l = true ->
   0 < wakeupFd l \/ (0 < lp_waking l)%nat \/ lp_early l = true).
Proof.
  intros l. destruct (loopRun_ok steps) as [Ho _ Hw _ Hq]. split; [done|].
  fold l in Hw, Hq. intros Hp. rewrite Hp in Hw, Hq. intros [Hpd|Hquit]; [by apply Hw|].
  destruct (Hq eq_refl Hquit); auto.
Qed.

(** A functor queued by the loop's own thread before [loop()]: the loop waits
    with nothing to wake it up. *)
Lemma early_functor_waits :
  let l := loopRun [LQueueLoop 7; LStart] newLoop in
  (lp_phase l, pendingFunctors_ l, wakeupFd l, lp_waking l) = (Polling, [7%nat], 0, 0%nat).
Proof. done. Qed.
