(* ===== verification/Poller.v ===== *)
(** * Channels and the epoll poller (mymuduo/Channel.cc, Channel.h, EPollPoller.cc)

    A channel is named by its descriptor.  The poller keeps the channels it
    knows; the kernel keeps the interest set of the epoll descriptor, on which
    [epoll_ctl] fails as documented: adding what is there, and changing or
    deleting what is not. *)

From S2P Require Import Prelude.

Open Scope Z_scope.

Definition EPOLLIN : Z := 1.
Definition EPOLLPRI : Z := 2.
Definition EPOLLOUT : Z := 4.
Definition EPOLLERR : Z := 8.
Definition EPOLLHUP : Z := 16.
Definition EPOLLRDHUP : Z := 0x2000.

Definition kNoneEvent : Z := 0.
Definition kReadEvent : Z := Z.lor EPOLLIN EPOLLPRI.
Definition kWriteEvent : Z := EPOLLOUT.

Definition knew : Z := -1.
Definition kadded : Z := 1.
Definition kdeleted : Z := 2.

Record Channel := mkChannel { events_ : Z; revents_ : Z; index_ : Z }.

Definition newChannel : Channel := mkChannel 0 0 knew.

Definition isNoneEvent (c : Channel) : bool := events_ c =? kNoneEvent.
Definition isWriting (c : Channel) : bool := negb (Z.land (events_ c) kWriteEvent =? 0).
Definition isReading (c : Channel) : bool := negb (Z.land (events_ c) kReadEvent =? 0).

(** [handleEventWithGuard]: the callbacks that are called, in order. *)
Inductive ChannelCallback := CloseCb | ErrorCb | ReadCb | WriteCb.

Definition handleEventWithGuard (revents : Z) : list ChannelCallback :=
  let has e := negb (Z.land revents e =? 0) in
  (if has EPOLLHUP && negb (has EPOLLIN) then [CloseCb] else []) ++
  (if has EPOLLERR then [ErrorCb] else []) ++
  (if has (Z.lor (Z.lor EPOLLIN EPOLLPRI) EPOLLRDHUP) then [ReadCb] else []) ++
  (if has EPOLLOUT then [WriteCb] else []).

(** [handleEvent]: nothing when the tied owner is gone. *)
Definition handleEvent (tied ownerAlive : bool) (revents : Z) : list ChannelCallback :=
  if tied && negb ownerAlive then [] else handleEventWithGuard revents.

Inductive CtlOp := CtlAdd | CtlMod | CtlDel.

Record EPollPoller := mkPoller {
  po_channels : gmap Z Channel;      (**r the live channels, by descriptor *)
  channels_ : gset Z;                (**r those the poller knows *)
  po_kernel : gmap Z Z;              (**r the interest set of the epoll descriptor *)
  po_fatal : bool;                   (**r LOG_FATAL was reached *)
}.

Module Poll.

Definition epoll_ctl (op : CtlOp) (fd ev : Z) (k : gmap Z Z) : option (gmap Z Z) :=
  match op, k !! fd with
  | CtlAdd, None => Some (<[fd := ev]> k)
  | CtlMod, Some _ => Some (<[fd := ev]> k)
  | CtlDel, Some _ => Some (delete fd k)
  | _, _ => None
  end.

Definition update (op : CtlOp) (fd : Z) (ch : Channel) (p : EPollPoller) : EPollPoller :=
  match epoll_ctl op fd (events_ ch) (po_kernel p) with
  | Some k => mkPoller (po_channels p) (channels_ p) k (po_fatal p)
  | None =>
      mkPoller (po_channels p) (channels_ p) (po_kernel p)
        (po_fatal p || match op with CtlDel => false | _ => true end)
  end.

Definition put (fd : Z) (ch : Channel) (p : EPollPoller) : EPollPoller :=
  mkPoller (<[fd := ch]> (po_channels p)) (channels_ p) (po_kernel p) (po_fatal p).

Definition updateChannel (fd : Z) (ch : Channel) (p : EPollPoller) : EPollPoller :=
  let index := index_ ch in
  if (index =? knew) || (index =? kdeleted) then
    let known := if index =? knew then {[fd]} ∪ channels_ p else channels_ p in
    let ch := mkChannel (events_ ch) (revents_ ch) kadded in
    update CtlAdd fd ch (put fd ch (mkPoller (po_channels p) known (po_kernel p) (po_fatal p)))
  else if isNoneEvent ch then
    put fd (mkChannel (events_ ch) (revents_ ch) kdeleted) (update CtlDel fd ch p)
  else update CtlMod fd ch p.

Definition removeChannel (fd : Z) (ch : Channel) (p : EPollPoller) : EPollPoller :=
  let p := mkPoller (po_channels p) (channels_ p ∖ {[fd]}) (po_kernel p) (po_fatal p) in
  let p := if index_ ch =? kadded then update CtlDel fd ch p else p in
  put fd (mkChannel (events_ ch) (revents_ ch) knew) p.

(** The setters of Channel.h: they change the interest and update. *)
Definition setEvents (f : Z -> Z) (fd : Z) (p : EPollPoller) : EPollPoller :=
  match po_channels p !! fd with
  | None => p
  | Some ch =>
      let ch := mkChannel (f (events_ ch)) (revents_ ch) (index_ ch) in
      updateChannel fd ch (put fd ch p)
  end.

Definition enableReading : Z -> EPollPoller -> EPollPoller := setEvents (fun e => Z.lor e kReadEvent).
Definition disableReading : Z -> EPollPoller -> EPollPoller := setEvents (fun e => Z.ldiff e kReadEvent).
Definition enableWriting : Z -> EPollPoller -> EPollPoller := setEvents (fun e => Z.lor e kWriteEvent).
Definition disableWriting : Z -> EPollPoller -> EPollPoller := setEvents (fun e => Z.ldiff e kWriteEvent).
Definition disableAll : Z -> EPollPoller -> EPollPoller := setEvents (fun _ => kNoneEvent).

Definition remove (fd : Z) (p : EPollPoller) : EPollPoller :=
  match po_channels p !! fd with Some ch => removeChannel fd ch p | None => p end.
End Poll.

Inductive PollStep :=
| PNew (fd : Z)
| PEnableReading (fd : Z) | PDisableReading (fd : Z)
| PEnableWriting (fd : Z) | PDisableWriting (fd : Z)
| PDisableAll (fd : Z)
| PRemove (fd : Z).

(** A descriptor gets a new channel when it has none, or when its last channel
    was removed. *)
Definition pollStep (p : EPollPoller) (st : PollStep) : EPollPoller :=
  match st with
  | PNew fd =>
      match po_channels p !! fd with
      | Some ch => if index_ ch =? knew then Poll.put fd newChannel p else p
      | None => Poll.put fd newChannel p
      end
  | PEnableReading fd => Poll.enableReading fd p
  | PDisableReading fd => Poll.disableReading fd p
  | PEnableWriting fd => Poll.enableWriting fd p
  | PDisableWriting fd => Poll.disableWriting fd p
  | PDisableAll fd => Poll.disableAll fd p
  | PRemove fd => Poll.remove fd p
  end.

Definition pollRun (steps : list PollStep) (p : EPollPoller) : EPollPoller := foldl pollStep p steps.

Definition newPoller : EPollPoller := mkPoller ∅ ∅ ∅ false.

(** ** The interest set follows the channels *)

(** What the kernel must hold for a channel. *)
Definition registered (ch : Channel) : option Z := if index_ ch =? kadded then Some (events_ ch) else None.

Record poller_ok (p : EPollPoller) : Prop := {
  pk_kernel : forall fd, po_kernel p !! fd = po_channels p !! fd ≫= registered;
  pk_index : forall fd ch, po_channels p !! fd = Some ch ->
    index_ ch = knew \/ index_ ch = kadded \/ index_ ch = kdeleted;
  pk_fatal : po_fatal p = false;
}.

Lemma put_ok fd ch k p :
  poller_ok p -> index_ ch = knew \/ index_ ch = kadded \/ index_ ch = kdeleted ->
  k = partial_alter (fun _ => registered ch) fd (po_kernel p) -> forall known,
  poller_ok (mkPoller (<[fd := ch]> (po_channels p)) known k (po_fatal p)).
Proof.
  intros [Hk Hi Hf] Hch -> known. split; cbn; [| |done].
  - intros fd'. destruct (decide (fd' = fd)) as [->|Hne].
    + by rewrite lookup_partial_alter_eq, lookup_insert_eq.
    + by rewrite lookup_partial_alter_ne, lookup_insert_ne, Hk.
  - intros fd' ch' [[<- <-]|[_ ?]]%lookup_insert_Some; eauto.
Qed.

Lemma setEvents_ok f fd p : poller_ok p -> poller_ok (Poll.setEvents f fd p).
Proof.
  intros Hok. unfold Poll.setEvents. destruct (po_channels p !! fd) as [ch|] eqn:Hch; [|done].
  pose proof Hok as [Hk Hi Hf]. pose proof (Hk fd) as Hfd. rewrite Hch in Hfd. cbn in Hfd.
  unfold Poll.updateChannel. cbn [index_ events_ revents_].
  assert (index_ ch <> kadded -> forall known,
    poller_ok (Poll.update CtlAdd fd (mkChannel (f (events_ ch)) (revents_ ch) kadded)
      (Poll.put fd (mkChannel (f (events_ ch)) (revents_ ch) kadded)
        (mkPoller (<[fd := mkChannel (f (events_ ch)) (revents_ ch) (index_ ch)]> (po_channels p)) known
          (po_kernel p) (po_fatal p))))) as Hadd.
  { intros Hne known. unfold registered in Hfd. rewrite (proj2 (Z.eqb_neq _ _) Hne) in Hfd.
    unfold Poll.update, Poll.epoll_ctl. cbn. rewrite Hfd, insert_insert_eq. cbn. apply put_ok; [done|auto|done]. }
  destruct (Hi fd ch Hch) as [E|[E|E]]; rewrite E in *.
  - apply Hadd. done.
  - unfold registered in Hfd. rewrite E in Hfd. cbn in Hfd. change ((kadded =? knew) || (kadded =? kdeleted)) with false.
    cbn iota. destruct (isNoneEvent _).
    + unfold Poll.update, Poll.epoll_ctl. cbn. rewrite Hfd. cbn. unfold Poll.put. cbn.
      rewrite insert_insert_eq. apply put_ok; [done|auto|done].
    + unfold Poll.update, Poll.epoll_ctl. cbn. rewrite Hfd. cbn. apply put_ok; [done|auto|done].
  - apply Hadd. done.
Qed.

Lemma pollStep_ok p st : poller_ok p -> poller_ok (pollStep p st).
Proof.
  intros Hok. pose proof Hok as [Hk Hi Hf].
  assert (forall fd, po_kernel p !! fd = None -> poller_ok (Poll.put fd newChannel p)) as Hnew.
  { intros fd Hn. unfold Poll.put. apply put_ok; [done|auto|]. apply map_eq. intros fd'.
    destruct (decide (fd' = fd)) as [->|]; [by rewrite lookup_partial_alter_eq|by rewrite lookup_partial_alter_ne]. }
  destruct st as [fd|fd|fd|fd|fd|fd|fd]; cbn [pollStep]; try by apply setEvents_ok.
  - pose proof (Hk fd) as Hfd. destruct (po_channels p !! fd) as [ch|] eqn:Hch; [|by apply Hnew].
    destruct (Z.eqb_spec (index_ ch) knew) as [E|]; [|done]. apply Hnew. rewrite Hfd. cbn. unfold registered.
    by rewrite E.
  - unfold Poll.remove. destruct (po_channels p !! fd) as [ch|] eqn:Hch; [|done].
    pose proof (Hk fd) as Hfd. rewrite Hch in Hfd. cbn in Hfd. unfold Poll.removeChannel, registered in *.
    destruct (index_ ch =? kadded).
    + unfold Poll.update, Poll.epoll_ctl, Poll.put. cbn. rewrite Hfd. cbn. apply put_ok; [done|auto|done].
    + apply put_ok; [done|auto|]. apply map_eq. intros fd'.
      destruct (decide (fd' = fd)) as [->|]; [by rewrite lookup_partial_alter_eq|by rewrite lookup_partial_alter_ne].
Qed.

(** The epoll interest set follows the channels: after any sequence of
    creating, enabling, disabling and removing channels, the kernel watches
    exactly the channels the poller has added, each for the events it asks for;
    no [epoll_ctl] call fails, so the fatal error is not reached. *)
Theorem interest_follows_channels steps fd :
  let p := pollRun steps newPoller in
  po_fatal p = false /\ po_kernel p !! fd = po_channels p !! fd ≫= registered.
Proof.
  intros p. assert (poller_ok p) as [Hk _ Hf]; [|done].
  subst p. assert (poller_ok newPoller) as H0 by (split; [done|intros fd0 ch Hch; cbn in Hch; by rewrite lookup_empty in Hch|done]).
  revert H0. generalize newPoller. induction steps as [|st steps IH]; intros p Hp; [done|].
  simpl. by apply IH, pollStep_ok.
Qed.

(** Disabling a channel twice registers it again, with no events; the kernel
    reports errors and hang-ups even then. *)
Lemma disabled_twice_is_registered :
  po_kernel (pollRun [PNew 5; PEnableReading 5; PDisableAll 5; PDisableAll 5] newPoller) = {[5 := 0]}.
Proof. by vm_compute. Qed.
