(* ===== verification/TimerQueue.v ===== *)
(** * The timer queue of an event loop (mymuduo/TimerQueue.cc, TimerQueue.h)

    Timers ordered by expiration, armed in one timerfd.  Any thread adds and
    cancels; the loop thread handles expirations.  A step is one critical section
    of the queue's mutex or one callback, and steps interleave freely: [addTimer]
    inserts and then sets the timerfd, [handleRead] collects, restarts periodic
    timers, runs the callbacks one by one and sets the timerfd.

    A timer is named by its sequence number, which stands for the shared pointer
    in a TimerId as well.  Time is in nanoseconds, unbounded. *)

From S2P Require Import Prelude.

Open Scope Z_scope.

Definition milliseconds (ms : Z) : Z := ms * 1000000.

Record Timer := mkTimer {
  tm_expiration : Z;
  tm_intervalMs : Z;
  tm_cancelled : bool;
}.

Definition repeat (t : Timer) : bool := 0 <? tm_intervalMs t.

Definition restart (now : Z) (t : Timer) : Timer :=
  if repeat t then
    let interval := milliseconds (tm_intervalMs t) in
    let e := tm_expiration t + interval in
    let e := if e <=? now
             then let skips := cdiv (now - e) interval + 1 in e + skips * interval
             else e in
    mkTimer e (tm_intervalMs t) (tm_cancelled t)
  else mkTimer 0 (tm_intervalMs t) (tm_cancelled t).

(** [handleRead] in progress: the time it read and the entries it collected,
    before and after the periodic timers are restarted. *)
Inductive Handling :=
| Collected (now : Z) (entries : list (Z * Z))
| Running (now : Z) (entries : list (Z * Z)).

(** A callback that ran: its timer, the expiration it ran for, and the time
    [handleRead] had read. *)
Record Firing := mkFiring { fi_id : Z; fi_due : Z; fi_now : Z }.

Record TimerQueue := mkQueue {
  tq_timers : gmap Z Timer;             (**r every timer, by sequence number *)
  timers_ : gset (Z * Z);               (**r the ordered set of entries *)
  nextSequence_ : Z;
  tq_armed : option Z;                  (**r when the timerfd fires *)
  tq_adding : nat;                      (**r calls of [addTimer] before their reset *)
  tq_handling : option Handling;
  tq_fired : list Firing;
}.

Definition newQueue : TimerQueue := mkQueue ∅ ∅ 0 None 0 None [].

Module TQ.

(** [timers_.begin()] *)
Definition begin (s : gset (Z * Z)) : option (Z * Z) := head (merge_sort pair_le (elements s)).

(** [resetTimerfd(now)], called when the clock shows [at_]. *)
Definition armAt (now at_ : Z) (s : gset (Z * Z)) : option Z :=
  match begin s with
  | Some (first, _) => let ns := first - now in Some (at_ + (if ns <? 1 then 1 else ns))
  | None => None
  end.

Definition resetTimerfd (now at_ : Z) (q : TimerQueue) : TimerQueue :=
  mkQueue (tq_timers q) (timers_ q) (nextSequence_ q) (armAt now at_ (timers_ q)) (tq_adding q)
    (tq_handling q) (tq_fired q).

(** [addTimer] up to the reset. *)
Definition addTimer (delayMs intervalMs now : Z) (q : TimerQueue) : TimerQueue :=
  let id := nextSequence_ q in
  let deadline := now + milliseconds delayMs in
  mkQueue (<[id := mkTimer deadline intervalMs false]> (tq_timers q)) ({[(deadline, id)]} ∪ timers_ q)
    (id + 1) (tq_armed q) (S (tq_adding q)) (tq_handling q) (tq_fired q).

Definition addTimerReset (now at_ : Z) (q : TimerQueue) : TimerQueue :=
  match tq_adding q with
  | O => q
  | S n => resetTimerfd now at_
             (mkQueue (tq_timers q) (timers_ q) (nextSequence_ q) (tq_armed q) n (tq_handling q) (tq_fired q))
  end.

Definition cancel (id : Z) (q : TimerQueue) : TimerQueue :=
  match tq_timers q !! id with
  | None => q
  | Some t =>
      mkQueue (<[id := mkTimer (tm_expiration t) (tm_intervalMs t) true]> (tq_timers q))
        (timers_ q ∖ {[(tm_expiration t, id)]}) (nextSequence_ q) (tq_armed q) (tq_adding q)
        (tq_handling q) (tq_fired q)
  end.

(** The entries before [lower_bound(Entry(now + 1ns, {nullptr, -1}))]. *)
Definition expired (now : Z) (e : Z * Z) : bool :=
  negb (pair_leb (now + 1, -1) e).

(** The first critical section of [getExpired].  Reading the timerfd disarms it
    when it has fired; the read fails when it was set again meanwhile. *)
Definition collect (now : Z) (q : TimerQueue) : TimerQueue :=
  let armed := match tq_armed q with Some t => if t <=? now then None else Some t | None => None end in
  let old := filter (fun e => expired now e = true) (timers_ q) in
  mkQueue (tq_timers q) (timers_ q ∖ old) (nextSequence_ q) armed (tq_adding q)
    (Some (Collected now (merge_sort pair_le (elements old)))) (tq_fired q).

Definition restartOne (clock : Z) (q : TimerQueue) (id : Z) : TimerQueue :=
  match tq_timers q !! id with
  | Some t =>
      if repeat t && negb (tm_cancelled t)
      then let t' := restart clock t in
           mkQueue (<[id := t']> (tq_timers q)) ({[(tm_expiration t', id)]} ∪ timers_ q) (nextSequence_ q)
             (tq_armed q) (tq_adding q) (tq_handling q) (tq_fired q)
      else q
  | None => q
  end.

(** Its second critical section; the clock is read for each timer. *)
Definition reinsert (clock : Z -> Z) (now : Z) (entries : list (Z * Z)) (q : TimerQueue) : TimerQueue :=
  let q := foldl (fun q e => restartOne (clock e.2) q e.2) q entries in
  mkQueue (tq_timers q) (timers_ q) (nextSequence_ q) (tq_armed q) (tq_adding q)
    (Some (Running now entries)) (tq_fired q).

(** One turn of the loop over the collected timers. *)
Definition runNext (now due id : Z) (rest : list (Z * Z)) (q : TimerQueue) : TimerQueue :=
  let run := match tq_timers q !! id with Some t => negb (tm_cancelled t) | None => false end in
  mkQueue (tq_timers q) (timers_ q) (nextSequence_ q) (tq_armed q) (tq_adding q) (Some (Running now rest))
    (if run then tq_fired q ++ [mkFiring id due now] else tq_fired q).

Definition finish (now at_ : Z) (q : TimerQueue) : TimerQueue :=
  resetTimerfd now at_
    (mkQueue (tq_timers q) (timers_ q) (nextSequence_ q) (tq_armed q) (tq_adding q) None (tq_fired q)).
End TQ.

Inductive TimerStep :=
| TAdd (delayMs intervalMs now : Z)
| TAddReset (now at_ : Z)
| TCancel (id : Z)
| THandle (now : Z)
| TReinsert (clock : Z -> Z)
| TRun
| TFinish (at_ : Z).

Definition timerStep (q : TimerQueue) (st : TimerStep) : TimerQueue :=
  match st with
  | TAdd delayMs intervalMs now => TQ.addTimer delayMs intervalMs now q
  | TAddReset now at_ => TQ.addTimerReset now at_ q
  | TCancel id => TQ.cancel id q
  | THandle now =>
      match tq_handling q with
      | None => TQ.collect now q
      | Some _ => q
      end
  | TReinsert clock =>
      match tq_handling q with
      | Some (Collected now entries) => TQ.reinsert clock now entries q
      | _ => q
      end
  | TRun =>
      match tq_handling q with
      | Some (Running now ((due, id) :: rest)) => TQ.runNext now due id rest q
      | _ => q
      end
  | TFinish at_ =>
      match tq_handling q with
      | Some (Running now []) => TQ.finish now at_ q
      | _ => q
      end
  end.

Definition timerRun (steps : list TimerStep) (q : TimerQueue) : TimerQueue := foldl timerStep q steps.
