(* ===== verification/TimerQueueInv.v ===== *)
(** * What the timer queue guarantees

    For every interleaving of the critical sections: callbacks run only when
    due, periodic ones in phase and one-shot ones once, and none after its timer
    was cancelled; no timer is forgotten; and the timerfd is armed whenever a
    timer waits. *)

From S2P Require Import Prelude TimerQueue.

Open Scope Z_scope.

(** [e] is an expiration of the periodic timer [t] after [d], in phase. *)
Definition later (t : Timer) (d e : Z) : Prop :=
  repeat t = true /\ exists k, 0 < k /\ e = d + k * milliseconds (tm_intervalMs t).

Lemma later_trans t d e f : later t d e -> later t e f -> later t d f.
Proof. intros [Hr (k & Hk & ->)] [_ (l & Hl & ->)]. split; [done|]. exists (k + l). lia. Qed.

Lemma later_same t t' d e :
  tm_intervalMs t' = tm_intervalMs t -> later t d e -> later t' d e.
Proof. unfold later, repeat. by intros ->. Qed.

(** [restart] moves to the first expiration in phase after the clock. *)
Lemma restart_later clock t :
  repeat t = true ->
  tm_intervalMs (restart clock t) = tm_intervalMs t /\
  tm_cancelled (restart clock t) = tm_cancelled t /\
  later t (tm_expiration t) (tm_expiration (restart clock t)) /\
  clock < tm_expiration (restart clock t) /\
  tm_expiration (restart clock t) <= Z.max clock (tm_expiration t) + milliseconds (tm_intervalMs t).
Proof.
  intros Hr. unfold restart. rewrite Hr. cbn [tm_intervalMs tm_cancelled tm_expiration].
  assert (0 < milliseconds (tm_intervalMs t)) as Hi by (unfold repeat, milliseconds in *; lia).
  set (i := milliseconds (tm_intervalMs t)) in *.
  destruct (Z.leb_spec (tm_expiration t + i) clock) as [Hle|Hlt].
  - unfold cdiv. rewrite Z.quot_div_nonneg by lia.
    pose proof (Z.div_mod (clock - (tm_expiration t + i)) i ltac:(lia)) as Hdm.
    pose proof (Z.mod_pos_bound (clock - (tm_expiration t + i)) i Hi).
    pose proof (Z.div_pos (clock - (tm_expiration t + i)) i ltac:(lia) Hi).
    set (k := (clock - (tm_expiration t + i)) / i) in *.
    split; [done|]. split; [done|]. split; [|nia].
    split; [done|]. exists (k + 2). fold i. lia.
  - split; [done|]. split; [done|]. split; [|lia]. split; [done|]. exists 1. fold i. lia.
Qed.

(** The entries of a running [handleRead]: those whose periodic timers have
    been restarted, [run], and those still to restart, [col]. *)
Record qinv (tms : gmap Z Timer) (ents : gset (Z * Z)) (next : Z) (fired : list Firing)
    (now : Z) (run col : list (Z * Z)) : Prop := {
  q_next : 0 <= next /\ forall id t, tms !! id = Some t -> 0 <= id < next;
  q_entries : forall e id, (e, id) ∈ ents -> exists t, tms !! id = Some t /\ tm_expiration t = e /\
    tm_cancelled t = false /\
    (repeat t = false -> (forall f, f ∈ fired -> fi_id f <> id) /\ id ∉ run.*2);
  q_nodup : NoDup (run ++ col).*2;
  q_run : forall due id, (due, id) ∈ run -> due <= now /\ exists t, tms !! id = Some t /\
    (tm_cancelled t = false -> if repeat t then later t due (tm_expiration t) else tm_expiration t = due) /\
    (forall f, f ∈ fired -> fi_id f = id -> later t (fi_due f) due);
  q_col : forall due id, (due, id) ∈ col -> due <= now /\ exists t, tms !! id = Some t /\
    tm_expiration t = due /\ (forall e, (e, id) ∉ ents) /\
    (forall f, f ∈ fired -> fi_id f = id -> later t (fi_due f) due);
  q_fired : forall f, f ∈ fired -> fi_due f <= fi_now f /\ exists t, tms !! fi_id f = Some t /\
    if repeat t then later t (fi_due f) (tm_expiration t) else tm_expiration t = fi_due f;
  q_order : forall i j f g, (i < j)%nat -> fired !! i = Some f -> fired !! j = Some g ->
    fi_id f = fi_id g -> exists t, tms !! fi_id f = Some t /\ later t (fi_due f) (fi_due g);
  q_cover : forall id t, tms !! id = Some t -> tm_cancelled t = false ->
    (tm_expiration t, id) ∈ ents \/ (tm_expiration t, id) ∈ col \/
    (repeat t = false /\ ((tm_expiration t, id) ∈ run \/ exists f, f ∈ fired /\ fi_id f = id));
}.

Lemma add_qinv tms ents next fired now run col deadline interval :
  qinv tms ents next fired now run col ->
  qinv (<[next := mkTimer deadline interval false]> tms) ({[(deadline, next)]} ∪ ents) (next + 1)
    fired now run col.
Proof.
  intros [[H0 H1] H2 H3 H4 H5 H6 H7 H8].
  assert (forall id t, tms !! id = Some t -> <[next := mkTimer deadline interval false]> tms !! id = Some t) as Hkeep.
  { intros id t Ht. rewrite lookup_insert_ne; [done|]. apply H1 in Ht. lia. }
  assert (forall id t, tms !! id = Some t -> id <> next) as Hne by (intros id t Ht; apply H1 in Ht; lia).
  assert (forall f, f ∈ fired -> fi_id f <> next) as Hf.
  { intros f Hf. destruct (H6 f Hf) as (_ & t & Ht & _). by eapply Hne. }
  split.
  - split; [lia|]. intros id t. destruct (decide (id = next)) as [->|?]; [lia|].
    rewrite lookup_insert_ne by done. intros Ht. apply H1 in Ht. lia.
  - intros e id [[= -> ->]%elem_of_singleton|He]%elem_of_union.
    + eexists. rewrite lookup_insert_eq. split_and!; [done..|]. intros _. split; [done|].
      intros ([due i] & Heq & Hin)%list_elem_of_fmap. simpl in Heq. subst i.
      destruct (H4 _ _ Hin) as (_ & t & Ht & _). by eapply Hne.
    + destruct (H2 _ _ He) as (t & Ht & Hrest). exists t. split; [by apply Hkeep|done].
  - done.
  - intros due id Hin. destruct (H4 _ _ Hin) as (? & t & Ht & Hrest). split; [done|].
    exists t. split; [by apply Hkeep|done].
  - intros due id Hin. destruct (H5 _ _ Hin) as (? & t & Ht & He & Hno & Hrest). split; [done|].
    exists t. split; [by apply Hkeep|]. split; [done|]. split; [|done].
    intros e [[= -> ->]%elem_of_singleton|?]%elem_of_union; [by eapply Hne|by eapply Hno].
  - intros f Hin. destruct (H6 f Hin) as (? & t & Ht & Hrest). split; [done|].
    exists t. split; [by apply Hkeep|done].
  - intros i j f g Hij Hi Hj Hid. destruct (H7 i j f g Hij Hi Hj Hid) as (t & Ht & Hl).
    exists t. split; [by apply Hkeep|done].
  - intros id t. destruct (decide (id = next)) as [->|?].
    + rewrite lookup_insert_eq. intros [= <-] _. left. simpl. set_solver.
    + rewrite lookup_insert_ne by done. intros Ht Hc. destruct (H8 id t Ht Hc) as [?|?]; [left; set_solver|by right].
Qed.

Lemma cancel_qinv tms ents next fired now run col id t :
  qinv tms ents next fired now run col -> tms !! id = Some t ->
  qinv (<[id := mkTimer (tm_expiration t) (tm_intervalMs t) true]> tms) (ents ∖ {[(tm_expiration t, id)]})
    next fired now run col.
Proof.
  intros [[H0 H1] H2 H3 H4 H5 H6 H7 H8] Ht. set (t' := mkTimer _ _ true).
  assert (forall i x, tms !! i = Some x -> exists x', <[id := t']> tms !! i = Some x' /\
    tm_expiration x' = tm_expiration x /\ tm_intervalMs x' = tm_intervalMs x /\
    (i <> id -> x' = x) /\ (tm_cancelled x' = false -> x' = x)) as Hkeep.
  { intros i x Hx. destruct (decide (i = id)) as [->|Hne].
    - rewrite lookup_insert_eq. exists t'. simplify_eq. done.
    - rewrite lookup_insert_ne by done. by exists x. }
  assert (forall x x', tm_intervalMs x' = tm_intervalMs x -> repeat x' = repeat x) as Hrep by (by unfold repeat; intros ? ? ->).
  split.
  - split; [done|]. intros i x. rewrite lookup_insert_Some. intros [[<- _]|[_ Hx]]; eauto.
  - intros e i [He Hnot]%elem_of_difference. destruct (H2 _ _ He) as (x & Hx & <- & Hc & Hone).
    assert (i <> id) as Hne. { intros ->. simplify_eq. set_solver. }
    exists x. rewrite lookup_insert_ne by done. done.
  - done.
  - intros due i Hin. destruct (H4 _ _ Hin) as (? & x & Hx & Hexp & Hf). split; [done|].
    destruct (Hkeep i x Hx) as (x' & Hx' & He & Hi & _ & Hsame). exists x'. split; [done|]. split.
    + intros Hc. pose proof (Hsame Hc) as ->. by apply Hexp.
    + intros f Hf1 Hf2. eapply later_same; [exact Hi|auto].
  - intros due i Hin. destruct (H5 _ _ Hin) as (? & x & Hx & Hexp & Hno & Hf). split; [done|].
    destruct (Hkeep i x Hx) as (x' & Hx' & He & Hi & _ & _). exists x'. split; [done|]. split; [congruence|].
    split; [set_solver|]. intros f Hf1 Hf2. eapply later_same; [exact Hi|auto].
  - intros f Hin. destruct (H6 f Hin) as (? & x & Hx & Hrest). split; [done|].
    destruct (Hkeep _ x Hx) as (x' & Hx' & He & Hi & _ & _). exists x'. split; [done|].
    rewrite (Hrep x x' Hi), He. destruct (repeat x); [by eapply later_same|done].
  - intros i j f g Hij Hi Hj Hid. destruct (H7 i j f g Hij Hi Hj Hid) as (x & Hx & Hl).
    destruct (Hkeep _ x Hx) as (x' & Hx' & _ & Hi' & _). exists x'. split; [done|by eapply later_same].
  - intros i x. rewrite lookup_insert_Some. intros [[<- <-]|[Hne Hx]]; [done|]. intros Hc.
    destruct (H8 i x Hx Hc) as [?|?]; [|by right]. left. set_solver.
Qed.

Lemma expired_spec now e : 0 <= e.2 -> TQ.expired now e = true -> e.1 <= now.
Proof.
  destruct e as [e1 e2]. unfold TQ.expired, pair_leb. cbn [fst snd]. intros He2. rewrite negb_true_iff.
  destruct (Z.eqb_spec (now + 1) e1); [|intros ?%Z.ltb_ge; lia]. intros ?%Z.leb_gt. lia.
Qed.

Lemma collect_qinv tms ents next fired now now' :
  qinv tms ents next fired now [] [] ->
  let old := filter (fun e => TQ.expired now' e = true) ents in
  qinv tms (ents ∖ old) next fired now' [] (merge_sort pair_le (elements old)).
Proof.
  intros [[H0 H1] H2 H3 H4 H5 H6 H7 H8] old.
  assert (forall e, e ∈ merge_sort pair_le (elements old) <-> e ∈ old) as Hin.
  { intros e. rewrite merge_sort_Permutation. apply elem_of_elements. }
  assert (forall e1 e2 id, (e1, id) ∈ ents -> (e2, id) ∈ ents -> e1 = e2) as Huniq.
  { intros e1 e2 id He1 He2. destruct (H2 _ _ He1) as (t & Ht & <- & _).
    destruct (H2 _ _ He2) as (t' & Ht' & <- & _). by simplify_eq. }
  assert (forall e, e ∈ old -> TQ.expired now' e = true /\ e ∈ ents) as Hold by (intros e He; by apply elem_of_filter in He).
  split; try done.
  - intros e id [He _]%elem_of_difference. destruct (H2 _ _ He) as (t & Ht & Hexp & Hc & Hone).
    by exists t.
  - cbn [app]. apply NoDup_fmap_2_strong; [|rewrite merge_sort_Permutation; apply NoDup_elements].
    intros [e1 i1] [e2 i2] Hx%Hin Hy%Hin Heq. simpl in Heq. subst i2. f_equal.
    apply Hold in Hx as [_ Hx]. apply Hold in Hy as [_ Hy]. by eapply Huniq.
  - by intros due id ?%elem_of_nil.
  - intros due id Hcol'. pose proof (proj1 (Hin _) Hcol') as Hcol.
    apply Hold in Hcol as [Hexp Hcol]. destruct (H2 _ _ Hcol) as (t & Ht & He & Hc & Hone).
    apply expired_spec in Hexp; [|simpl; apply H1 in Ht; lia]. split; [done|]. exists t. split; [done|]. split; [done|]. split.
    + intros e [He1 He2]%elem_of_difference. apply He2. assert (e = due) as -> by (eapply (Huniq e due id); done).
      by apply Hin.
    + intros f Hf Hid. destruct (H6 f Hf) as (_ & x & Hx & Hph). rewrite Hid in Hx. simplify_eq.
      destruct (repeat t) eqn:Hr; [done|]. by destruct (proj1 (Hone eq_refl) f Hf).
  - intros id t Ht Hc. destruct (H8 id t Ht Hc) as [He|[[]%elem_of_nil|Hone]]; [|by right; right].
    destruct (decide ((tm_expiration t, id) ∈ old)) as [Ho|Ho]; [right; left; by apply Hin|left; set_solver].
Qed.

(** A collected entry whose timer is not restarted. *)
Lemma pass_qinv tms ents next fired now run col due id t :
  qinv tms ents next fired now run ((due, id) :: col) -> tms !! id = Some t ->
  repeat t = false \/ tm_cancelled t = true ->
  qinv tms ents next fired now (run ++ [(due, id)]) col.
Proof.
  intros [H1 H2 H3 H4 H5 H6 H7 H8] Ht Hno.
  destruct (H5 due id) as (Hdue & t0 & Ht0 & Hexp & Hent & Hf); [left|]. simplify_eq.
  split; try done.
  - intros e i He. destruct (H2 _ _ He) as (x & Hx & Hx1 & Hx2 & Hx3). exists x. split_and!; try done.
    intros Hr. destruct (Hx3 Hr) as [Hx4 Hx5]. split; [done|].
    rewrite fmap_app, elem_of_app. intros [?|Hi%list_elem_of_singleton]; [done|].
    simpl in Hi. subst i. by eapply Hent.
  - by rewrite <- app_assoc.
  - intros due' i [Hin|[= -> ->]%list_elem_of_singleton]%elem_of_app; [by apply H4|].
    split; [done|]. exists t. split; [done|]. split; [|done]. intros Hc.
    destruct Hno as [->|?]; [done|congruence].
  - intros due' i Hin. apply H5. by right.
  - intros i x Hx Hc. destruct (H8 i x Hx Hc) as [?|[[[= Heq ->]|Hin]%elem_of_cons|(Hr & Hcase)]]; [by left| |by right; left|].
    + simplify_eq. right. right. destruct Hno as [Hr|?]; [|congruence]. split; [done|]. left.
      apply elem_of_app. right. by left.
    + right. right. split; [done|]. destruct Hcase; [left; apply elem_of_app; by left|by right].
Qed.

(** A collected entry whose periodic timer is restarted. *)
Lemma restart_qinv tms ents next fired now run col due id t clock :
  qinv tms ents next fired now run ((due, id) :: col) -> tms !! id = Some t ->
  repeat t = true -> tm_cancelled t = false ->
  qinv (<[id := restart clock t]> tms) ({[(tm_expiration (restart clock t), id)]} ∪ ents) next fired now
    (run ++ [(due, id)]) col.
Proof.
  intros [H1 H2 H3 H4 H5 H6 H7 H8] Ht Hr Hc.
  destruct (H5 due id) as (Hdue & t0 & Ht0 & Hexp & Hent & Hf); [left|]. simplify_eq.
  destruct (restart_later clock t Hr) as (Hint & Hcan & Hlater & _). set (t' := restart clock t) in *.
  assert (repeat t' = true) as Hr' by (unfold repeat in *; by rewrite Hint).
  assert (forall d, later t d (tm_expiration t) -> later t' d (tm_expiration t')) as Hnext.
  { intros d Hd. eapply later_same; [exact Hint|]. by eapply later_trans. }
  assert (id ∉ run.*2 /\ id ∉ col.*2) as [Hnr Hnc].
  { rewrite fmap_app, fmap_cons in H3. apply NoDup_app in H3 as (_ & Hd & Hnd).
    apply NoDup_cons in Hnd as [? _]. split; [|done]. intros Hin. apply (Hd _ Hin). left. }
  assert (forall i x, tms !! i = Some x -> i <> id -> <[id := t']> tms !! i = Some x) as Hkeep
    by (intros; by rewrite lookup_insert_ne).
  split.
  - destruct H1 as [H0 H1]. split; [done|]. intros i x. rewrite lookup_insert_Some. intros [[<- _]|[_ Hx]]; eauto.
  - intros e i [[= -> ->]%elem_of_singleton|He]%elem_of_union.
    + exists t'. rewrite lookup_insert_eq. split_and!; [done|done|congruence|congruence].
    + destruct (H2 _ _ He) as (x & Hx & Hx1 & Hx2 & Hx3).
      assert (i <> id) as Hne by (intros ->; by eapply Hent).
      exists x. split; [by apply Hkeep|]. split_and!; try done. intros Hrx. destruct (Hx3 Hrx) as [? Hx5].
      split; [done|]. rewrite fmap_app, elem_of_app. intros [?|?%list_elem_of_singleton]; done.
  - by rewrite <- app_assoc.
  - intros due' i [Hin|[= -> ->]%list_elem_of_singleton]%elem_of_app.
    + destruct (H4 _ _ Hin) as (? & x & Hx & Hrest). split; [done|]. exists x. split; [|done].
      apply Hkeep; [done|]. intros ->. apply Hnr. apply list_elem_of_fmap. by exists (due', id).
    + split; [done|]. exists t'. rewrite lookup_insert_eq. split; [done|]. rewrite Hr'. split.
      * intros _. by eapply later_same.
      * intros f Hf1 Hf2. eapply later_same; [exact Hint|auto].
  - intros due' i Hin. destruct (H5 due' i) as (? & x & Hx & Hx1 & Hx2 & Hx3); [by right|].
    assert (i <> id) as Hne. { intros ->. apply Hnc. apply list_elem_of_fmap. by exists (due', id). }
    split; [done|]. exists x. split; [by apply Hkeep|]. split_and!; try done. set_solver.
  - intros f Hin. destruct (H6 f Hin) as (? & x & Hx & Hrest). split; [done|].
    destruct (decide (fi_id f = id)) as [Heq|Hne]; [|exists x; split; [by apply Hkeep|done]].
    exists t'. rewrite Heq, lookup_insert_eq, Hr'. split; [done|]. apply Hnext. by apply Hf.
  - intros i j f g Hij Hi Hj Hid. destruct (H7 i j f g Hij Hi Hj Hid) as (x & Hx & Hl).
    destruct (decide (fi_id f = id)) as [Heq|Hne]; [|exists x; split; [by apply Hkeep|done]].
    exists t'. rewrite Heq in *. rewrite lookup_insert_eq. split; [done|]. simplify_eq. by eapply later_same.
  - intros i x. rewrite lookup_insert_Some. intros [[<- <-]|[Hne Hx]] Hcx; [left; set_solver|].
    destruct (H8 i x Hx Hcx) as [?|[[[= Heq ->]|Hin]%elem_of_cons|(Hrx & Hcase)]]; [left; set_solver|done|by right; left|].
    right. right. split; [done|]. destruct Hcase; [left; apply elem_of_app; by left|by right].
Qed.

(** The next collected entry is skipped, its timer being cancelled, or run. *)
Lemma skip_qinv tms ents next fired now run due id t :
  qinv tms ents next fired now ((due, id) :: run) [] -> tms !! id = Some t -> tm_cancelled t = true ->
  qinv tms ents next fired now run [].
Proof.
  intros [H1 H2 H3 H4 H5 H6 H7 H8] Ht Hc. split; try done.
  - intros e i He. destruct (H2 _ _ He) as (x & Hx & Hx1 & Hx2 & Hx3). exists x. split_and!; try done.
    intros Hr. destruct (Hx3 Hr) as [? Hx5]. split; [done|]. intros ?. apply Hx5. by right.
  - rewrite !app_nil_r in *. by apply NoDup_cons in H3 as [_ ?].
  - intros due' i Hin. apply H4. by right.
  - intros i x Hx Hcx. destruct (H8 i x Hx Hcx) as [?|[?|(Hr & [[[= ? ->]|Hin]%elem_of_cons|?])]];
      [by left|by right; left|congruence|right; right; auto..].
Qed.

Lemma fire_qinv tms ents next fired now run due id t :
  qinv tms ents next fired now ((due, id) :: run) [] -> tms !! id = Some t -> tm_cancelled t = false ->
  qinv tms ents next (fired ++ [mkFiring id due now]) now run [].
Proof.
  intros [H1 H2 H3 H4 H5 H6 H7 H8] Ht Hc.
  destruct (H4 due id) as (Hdue & t0 & Ht0 & Hexp & Hf); [left|]. simplify_eq. specialize (Hexp Hc).
  rewrite app_nil_r in H3. apply NoDup_cons in H3 as [Hnin Hnd].
  set (g := mkFiring id due now).
  assert (forall f, f ∈ fired ++ [g] -> f ∈ fired \/ f = g) as Hnew.
  { intros f [?|?%list_elem_of_singleton]%elem_of_app; auto. }
  split; try done.
  - intros e i He. destruct (H2 _ _ He) as (x & Hx & Hx1 & Hx2 & Hx3). exists x. split_and!; try done.
    intros Hr. destruct (Hx3 Hr) as [Hx4 Hx5]. split; [|intros ?; apply Hx5; by right].
    intros f [?| ->]%Hnew; [by apply Hx4|]. simpl. intros ->. apply Hx5. left.
  - by rewrite app_nil_r.
  - intros due' i Hin. destruct (H4 due' i) as (? & x & Hx & Hx1 & Hx2); [by right|]. split; [done|].
    exists x. split_and!; try done. intros f [?| ->]%Hnew; [by apply Hx2|]. simpl. intros ->.
    destruct Hnin. apply list_elem_of_fmap. by exists (due', i).
  - by intros due' i ?%elem_of_nil.
  - intros f [?| ->]%Hnew; [by apply H6|]. split; [done|]. exists t. split; [done|]. exact Hexp.
  - intros i j f f' Hij Hi Hj Hid. apply lookup_app_Some in Hj as [Hj|[Hlen Hj]].
    + apply (H7 i j f f'); [done| |done|done]. rewrite lookup_app_l in Hi; [done|].
      apply lookup_lt_Some in Hj. lia.
    + destruct (j - length fired)%nat eqn:Hj0; [|done]. simplify_eq/=.
      rewrite lookup_app_l in Hi by lia. exists t. split; [done|].
      apply Hf; [by eapply list_elem_of_lookup_2|done].
  - intros i x Hx Hcx.
    destruct (H8 i x Hx Hcx) as [?|[?|(Hr & [[[= ? ->]|Hin]%elem_of_cons|(f & Hf1 & Hf2)])]];
      [by left|by right; left| |right; right; auto|].
    + right. right. split; [done|]. right. exists g. split; [|done]. apply elem_of_app. right. left.
    + right. right. split; [done|]. right. exists f. split; [|done]. apply elem_of_app. by left.
Qed.

Definition handlingNow (q : TimerQueue) : Z :=
  match tq_handling q with Some (Collected now _) | Some (Running now _) => now | None => 0 end.

Definition toRun (q : TimerQueue) : list (Z * Z) :=
  match tq_handling q with Some (Running _ l) => l | _ => [] end.

Definition toRestart (q : TimerQueue) : list (Z * Z) :=
  match tq_handling q with Some (Collected _ l) => l | _ => [] end.

Definition queue_ok (q : TimerQueue) : Prop :=
  qinv (tq_timers q) (timers_ q) (nextSequence_ q) (tq_fired q) (handlingNow q) (toRun q) (toRestart q) /\
  (timers_ q <> ∅ -> tq_armed q <> None \/ tq_adding q <> 0%nat \/ tq_handling q <> None).

Lemma begin_some s : s <> ∅ -> TQ.begin s <> None.
Proof.
  intros Hs Hnone. unfold TQ.begin in Hnone. apply head_None in Hnone.
  pose proof (merge_sort_Permutation pair_le (elements s)) as Hp. rewrite Hnone in Hp.
  symmetry in Hp. apply Permutation_nil_r in Hp. by apply elements_empty_inv in Hp as ->%leibniz_equiv.
Qed.

Lemma armAt_some now at_ s : s <> ∅ -> TQ.armAt now at_ s <> None.
Proof. intros Hs. unfold TQ.armAt. pose proof (begin_some s Hs). by destruct (TQ.begin s) as [[]|]. Qed.

(** Restarting the collected timers one after the other. *)
Lemma restartAll_qinv clock now col q run :
  qinv (tq_timers q) (timers_ q) (nextSequence_ q) (tq_fired q) now run col ->
  let q' := foldl (fun q e => TQ.restartOne (clock e.2) q e.2) q col in
  qinv (tq_timers q') (timers_ q') (nextSequence_ q') (tq_fired q') now (run ++ col) [].
Proof.
  revert q run. induction col as [|[due id] col IH]; intros q run Hq; [by rewrite app_nil_r|].
  cbn [foldl snd]. replace (run ++ (due, id) :: col) with ((run ++ [(due, id)]) ++ col) by by rewrite <- app_assoc.
  apply IH. unfold TQ.restartOne. pose proof Hq as [_ _ _ _ H5 _ _ _].
  destruct (H5 due id) as (_ & t & Ht & _); [left|]. rewrite Ht.
  destruct (repeat t) eqn:Hr; [destruct (tm_cancelled t) eqn:Hc|]; cbn [negb andb].
  - eapply pass_qinv; [done|done|by right].
  - by eapply restart_qinv.
  - eapply pass_qinv; [done|done|by left].
Qed.

Lemma qinv_now tms ents next fired now now' :
  qinv tms ents next fired now [] [] -> qinv tms ents next fired now' [] [].
Proof. intros [H1 H2 H3 H4 H5 H6 H7 H8]. split; try done; by intros ? ? ?%elem_of_nil. Qed.

Lemma timerStep_ok q st : queue_ok q -> queue_ok (timerStep q st).
Proof.
  intros [Hq Ha]. unfold queue_ok, handlingNow, toRun, toRestart in *.
  destruct st as [delay interval now|now at_|id|now|clock| |at_]; cbn [timerStep].
  - split; [by apply add_qinv|]. intros _. by right; left.
  - unfold TQ.addTimerReset. destruct (tq_adding q) eqn:Hadd; [by rewrite Hadd|]. split; [exact Hq|].
    intros Hs. left. by apply armAt_some.
  - unfold TQ.cancel. destruct (tq_timers q !! id) as [t|] eqn:Ht; [|done].
    split; [by apply cancel_qinv|]. cbn. intros Hs. apply Ha. set_solver.
  - destruct (tq_handling q) as [h|] eqn:Hh; [by rewrite Hh|]. split; [|by intros _; right; right].
    by apply collect_qinv with (now := 0).
  - destruct (tq_handling q) as [[now l|now l]|] eqn:Hh; [|by rewrite Hh..].
    split; [|by intros _; right; right]. by apply (restartAll_qinv clock now l q []).
  - destruct (tq_handling q) as [[now l|now [|[due id] l]]|] eqn:Hh; [by rewrite Hh..| |by rewrite Hh].
    split; [|by intros _; right; right]. unfold TQ.runNext. cbn.
    pose proof Hq as [_ _ _ H4 _ _ _ _]. destruct (H4 due id) as (_ & t & Ht & _); [left|]. rewrite Ht.
    destruct (tm_cancelled t) eqn:Hc; cbn [negb]; [by eapply skip_qinv|by eapply fire_qinv].
  - destruct (tq_handling q) as [[now l|now [|e l]]|] eqn:Hh; [by rewrite Hh| |by rewrite Hh..].
    split; [by eapply qinv_now|]. cbn. intros Hs. left. by apply armAt_some.
Qed.

Lemma timerRun_ok steps : queue_ok (timerRun steps newQueue).
Proof.
  assert (queue_ok newQueue) as H0.
  { split; [|done]. split; try done; try by intros ? ? ?%elem_of_nil.
    all: try (intros f ?%elem_of_nil; done). by apply NoDup_nil. }
  revert H0. generalize newQueue. induction steps as [|st steps IH]; intros q Hq; [done|].
  simpl. by apply IH, timerStep_ok.
Qed.

(** Callbacks run only when due: for every interleaving, a callback runs for
    an expiration that [handleRead]'s clock had reached; two runs of one timer
    are for different expirations, the later one a whole number of intervals
    after the earlier one, so a one-shot timer runs once and a periodic one
    keeps its phase. *)
Theorem timers_fire_when_due steps i j f g :
  let q := timerRun steps newQueue in
  tq_fired q !! i = Some f ->
  fi_due f <= fi_now f /\
  ((i < j)%nat -> tq_fired q !! j = Some g -> fi_id f = fi_id g ->
   exists t, tq_timers q !! fi_id f = Some t /\ later t (fi_due f) (fi_due g)).
Proof.
  intros q Hi. destruct (timerRun_ok steps) as [[_ _ _ _ _ H6 H7 _] _]. fold q in H6, H7. split.
  - by destruct (H6 f) as [? _]; [by eapply list_elem_of_lookup_2|].
  - intros Hij Hj Hid. by eapply H7.
Qed.

(** No timer is forgotten: a timer that is not cancelled is in the ordered
    set under its current expiration, or is being handled by [handleRead], or is
    one-shot and has run; and while the set is not empty the timerfd is armed, or
    a call that is about to arm it is under way. *)
Theorem no_timer_is_lost steps id t :
  let q := timerRun steps newQueue in
  tq_timers q !! id = Some t -> tm_cancelled t = false ->
  ((tm_expiration t, id) ∈ timers_ q \/ (tm_expiration t, id) ∈ toRestart q \/
   (repeat t = false /\ ((tm_expiration t, id) ∈ toRun q \/ exists f, f ∈ tq_fired q /\ fi_id f = id))) /\
  (timers_ q <> ∅ -> tq_armed q <> None \/ tq_adding q <> 0%nat \/ tq_handling q <> None).
Proof.
  intros q Ht Hc. destruct (timerRun_ok steps) as [[_ _ _ _ _ _ _ H8] Ha]. split; [by apply H8|exact Ha].
Qed.

(** ** Cancelling *)

Lemma restartOne_cancelled clock q id i t :
  tq_timers q !! i = Some t -> tm_cancelled t = true ->
  tq_timers (TQ.restartOne clock q id) !! i = Some t /\ tq_fired (TQ.restartOne clock q id) = tq_fired q.
Proof.
  intros Ht Hc. unfold TQ.restartOne. destruct (tq_timers q !! id) as [x|] eqn:Hx; [|done].
  destruct (repeat x && negb (tm_cancelled x)) eqn:E; [|done]. cbn. split; [|done].
  rewrite lookup_insert_ne; [done|]. intros ->. simplify_eq. rewrite Hc in E. by rewrite andb_false_r in E.
Qed.

Lemma restartAll_cancelled clock col q i t :
  tq_timers q !! i = Some t -> tm_cancelled t = true ->
  let q' := foldl (fun q (e : Z * Z) => TQ.restartOne (clock e.2) q e.2) q col in
  tq_timers q' !! i = Some t /\ tq_fired q' = tq_fired q.
Proof.
  revert q. induction col as [|[due id] col IH]; intros q Ht Hc; [done|]. cbn [foldl snd].
  destruct (restartOne_cancelled (clock id) q id i t Ht Hc) as [H1 H2].
  destruct (IH _ H1 Hc) as [H3 H4]. split; [done|]. by rewrite H4.
Qed.

(** What a step does when timer [i] is cancelled. *)
Lemma timerStep_cancelled q st i :
  queue_ok q -> (exists t, tq_timers q !! i = Some t /\ tm_cancelled t = true) ->
  (exists t, tq_timers (timerStep q st) !! i = Some t /\ tm_cancelled t = true) /\
  exists l, tq_fired (timerStep q st) = tq_fired q ++ l /\ forall f, f ∈ l -> fi_id f <> i.
Proof.
  intros [Hq _] (t & Ht & Hc).
  assert (exists l, tq_fired q = tq_fired q ++ l /\ forall f, f ∈ l -> fi_id f <> i) as Hsame.
  { exists []. rewrite app_nil_r. split; [done|]. by intros f ?%elem_of_nil. }
  destruct st as [delay interval now|now at_|id|now|clock| |at_]; cbn [timerStep].
  - split; [|exact Hsame]. exists t. split; [|done]. cbn. rewrite lookup_insert_ne; [done|].
    destruct Hq as [[_ H1] _ _ _ _ _ _ _]. apply H1 in Ht. lia.
  - unfold TQ.addTimerReset. destruct (tq_adding q); (split; [by exists t|exact Hsame]).
  - unfold TQ.cancel. destruct (tq_timers q !! id) as [x|] eqn:Hx; [|by split; [exists t|]].
    split; [|exact Hsame]. cbn. destruct (decide (id = i)) as [->|Hne].
    + eexists. by rewrite lookup_insert_eq.
    + exists t. by rewrite lookup_insert_ne.
  - destruct (tq_handling q); (split; [by exists t|exact Hsame]).
  - destruct (tq_handling q) as [[now l|now l]|]; try (split; [by exists t|exact Hsame]).
    destruct (restartAll_cancelled clock l q i t Ht Hc) as [H1 H2]. split; [by exists t|].
    unfold TQ.reinsert. cbn [tq_fired]. rewrite H2. exact Hsame.
  - destruct (tq_handling q) as [[now l|now [|[due id] l]]|]; try (split; [by exists t|exact Hsame]).
    split; [by exists t|]. unfold TQ.runNext. cbn [tq_fired].
    destruct (tq_timers q !! id) as [x|] eqn:Hx; [|exact Hsame].
    destruct (tm_cancelled x) eqn:Hcx; cbn [negb]; [exact Hsame|].
    eexists. split; [done|]. intros f ->%list_elem_of_singleton. simpl. intros ->. congruence.
  - destruct (tq_handling q) as [[now l|now [|e l]]|]; (split; [by exists t|exact Hsame]).
Qed.

(** A cancelled timer stays silent: once [cancel] has returned, in whatever
    phase of whatever call it came, the timer's callback is not started again. *)
Theorem cancelled_timer_is_silent before id after :
  let q := timerRun before newQueue in
  is_Some (tq_timers q !! id) ->
  exists new, tq_fired (timerRun (TCancel id :: after) q) = tq_fired q ++ new /\
    forall f, f ∈ new -> fi_id f <> id.
Proof.
  intros q [t Ht]. change (timerRun (TCancel id :: after) q) with (timerRun after (timerStep q (TCancel id))).
  pose proof (timerStep_ok q (TCancel id) (timerRun_ok before)) as Hok.
  assert (exists t, tq_timers (timerStep q (TCancel id)) !! id = Some t /\ tm_cancelled t = true) as Hc.
  { cbn [timerStep]. unfold TQ.cancel. rewrite Ht. eexists. cbn. by rewrite lookup_insert_eq. }
  assert (tq_fired (timerStep q (TCancel id)) = tq_fired q) as Hf.
  { cbn [timerStep]. unfold TQ.cancel. by destruct (tq_timers q !! id). }
  rewrite <- Hf. clear Hf Ht. revert Hok Hc. generalize (timerStep q (TCancel id)). clear.
  induction after as [|st after IH]; intros q Hok Hc.
  - exists []. rewrite app_nil_r. split; [done|]. by intros f ?%elem_of_nil.
  - destruct (timerStep_cancelled q st id Hok Hc) as [Hc' (l & Hl & Hno)].
    destruct (IH (timerStep q st) (timerStep_ok q st Hok) Hc') as (l' & Hl' & Hno').
    exists (l ++ l'). split; [by rewrite app_assoc, <- Hl, <- Hl'|].
    intros f [?|?]%elem_of_app; auto.
Qed.

(** ** Executions *)

(** A periodic timer of 10 ms and a one-shot timer of 5 ms; the loop is late, so
    the periodic timer skips two expirations. *)
Definition demoSteps : list TimerStep :=
  [TAdd 10 10 0; TAddReset 0 0; TAdd 5 0 1; TAddReset 1 1;
   THandle 6000000; TReinsert (fun _ => 6000000); TRun; TFinish 6000001;
   THandle 35000000; TReinsert (fun _ => 35000000); TRun; TFinish 35000001;
   THandle 40000000; TReinsert (fun _ => 40000000); TRun; TFinish 40000001].

(** An instance for the two runs of the periodic timer. *)
Lemma timers_fire_when_due_witness :
  let q := timerRun demoSteps newQueue in
  tq_fired q = [mkFiring 1 5000001 6000000; mkFiring 0 10000000 35000000; mkFiring 0 40000000 40000000] /\
  (10000000 <= 35000000 /\
   ((1 < 2)%nat -> tq_fired q !! 2%nat = Some (mkFiring 0 40000000 40000000) -> 0 = 0 ->
    exists t, tq_timers q !! 0 = Some t /\ later t 10000000 40000000)).
Proof.
  intros q. split; [by vm_compute|].
  apply (timers_fire_when_due demoSteps 1 2 (mkFiring 0 10000000 35000000) (mkFiring 0 40000000 40000000)).
  by vm_compute.
Defined.

(** An instance for the periodic timer after three rounds. *)
Lemma no_timer_is_lost_witness :
  let q := timerRun demoSteps newQueue in
  let t := mkTimer 50000000 10 false in
  tq_armed q = Some 50000001 /\
  (((tm_expiration t, 0) ∈ timers_ q \/ (tm_expiration t, 0) ∈ toRestart q \/
    (repeat t = false /\ ((tm_expiration t, 0) ∈ toRun q \/ exists f, f ∈ tq_fired q /\ fi_id f = 0))) /\
   (timers_ q <> ∅ -> tq_armed q <> None \/ tq_adding q <> 0%nat \/ tq_handling q <> None)).
Proof.
  intros q t. split; [by vm_compute|]. apply (no_timer_is_lost demoSteps 0 t).
  - by vm_compute.
  - done.
Defined.

(** An instance for a timer cancelled after it was collected and before it ran. *)
Lemma cancelled_timer_is_silent_witness :
  let q := timerRun [TAdd 5 0 0; TAddReset 0 0; THandle 6000000; TReinsert (fun _ => 0)] newQueue in
  exists new, tq_fired (timerRun [TCancel 0; TRun; TFinish 0] q) = tq_fired q ++ new /\
    forall f, f ∈ new -> fi_id f <> 0.
Proof.
  intros q.
  apply (cancelled_timer_is_silent [TAdd 5 0 0; TAddReset 0 0; THandle 6000000; TReinsert (fun _ => 0)] 0
    [TRun; TFinish 0]).
  vm_compute. by eexists.
Defined.

(** [handleRead] arms the timerfd relative to the time it read before it ran the
    callbacks: after a callback of three seconds a timer due at 2 ms is armed for
    3 s later than its expiration. *)
Lemma slow_callback_delays_timers :
  let q := timerRun [TAdd 1 0 0; TAddReset 0 0; TAdd 2 0 0; TAddReset 0 0;
                     THandle 1000000; TReinsert (fun _ => 1000000); TRun; TFinish 3001000000] newQueue in
  (timers_ q, tq_armed q) = ({[(2000000, 1)]}, Some 3002000000).
Proof. by vm_compute. Qed.
