(* ===== verification/TcpServer.v ===== *)
(** * The server and its acceptor
    (mymuduo/TcpServer.cc, Acceptor.cc, EventLoopThreadPool.cc)

    Accepting connections: the limit on connections, their names and loops, and
    the pause of the acceptor when descriptors run out.  The results of [accept]
    and [open] and the decision of the rate limiter, which computes in floating
    point, are arguments. *)

From S2P Require Import Prelude.
From stdpp Require Import pretty.

Open Scope Z_scope.

(** ** EventLoopThreadPool *)

Record EventLoopThreadPool := mkPool { loops_ : nat; next_ : Z }.

(** [getNextLoop]: [None] is the base loop.  [next_] is a size_t that wraps. *)
Definition getNextLoop (p : EventLoopThreadPool) : EventLoopThreadPool * option nat :=
  match loops_ p with
  | O => (p, None)
  | S _ => (mkPool (loops_ p) (u64 (next_ p + 1)),
            Some (Z.to_nat (next_ p mod Z.of_nat (loops_ p))))
  end.

(** ** TcpServer *)

Record TcpServer := mkServer {
  sv_name : string;
  sv_ipPort : string;
  maxConnections_ : Z;
  sv_pool : EventLoopThreadPool;
  rejectedConnections_ : Z;
  nextConnId_ : Z;
  connections_ : gmap string (option nat);     (**r the loop of each connection *)
  sv_closed : nat;                             (**r sockets closed at once *)
}.

Definition connectionCount (s : TcpServer) : Z := Z.of_nat (size (connections_ s)).

(** [name_ + snprintf("-%s#%d")] *)
Definition connName (s : TcpServer) (id : Z) : string :=
  (sv_name s +:+ "-" +:+ sv_ipPort s +:+ "#" +:+ pretty id)%string.

Definition newConnection (s : TcpServer) : TcpServer :=
  if (0 <? maxConnections_ s) && (maxConnections_ s <=? connectionCount s) then
    mkServer (sv_name s) (sv_ipPort s) (maxConnections_ s) (sv_pool s) (rejectedConnections_ s + 1)
      (nextConnId_ s) (connections_ s) (S (sv_closed s))
  else
    let '(pool, loop) := getNextLoop (sv_pool s) in
    mkServer (sv_name s) (sv_ipPort s) (maxConnections_ s) pool (rejectedConnections_ s) (nextConnId_ s + 1)
      (<[connName s (nextConnId_ s) := loop]> (connections_ s)) (sv_closed s).

Definition removeConnectionInLoop (name : string) (s : TcpServer) : TcpServer :=
  mkServer (sv_name s) (sv_ipPort s) (maxConnections_ s) (sv_pool s) (rejectedConnections_ s)
    (nextConnId_ s) (delete name (connections_ s)) (sv_closed s).

(** ** Acceptor *)

(** What [accept] returns; [Exhausted] is EMFILE or ENFILE. *)
Inductive AcceptResult := AcceptedFd | Exhausted | AcceptError.

Record Acceptor := mkAcceptor {
  listening_ : bool;
  ac_reading : bool;                 (**r the interest of [acceptChannel_] *)
  acceptPaused_ : bool;
  acceptErrors_ : Z;
  rateRejected_ : Z;
  idleFd_ : bool;                    (**r the spare descriptor is open *)
  ac_retries : nat;                  (**r retry timers that have not fired *)
}.

Definition newAcceptor (idle : bool) : Acceptor := mkAcceptor false false false 0 0 idle 0.

Module Accept.

Definition listen (a : Acceptor) : Acceptor :=
  mkAcceptor true true (acceptPaused_ a) (acceptErrors_ a) (rateRejected_ a) (idleFd_ a) (ac_retries a).

Definition stopListen (a : Acceptor) : Acceptor :=
  mkAcceptor false false (acceptPaused_ a) (acceptErrors_ a) (rateRejected_ a) (idleFd_ a) (ac_retries a).

(** [handleRead]: the acceptor, and whether a connection is passed on.
    [token]: the rate limiter lets it through; [reopened]: the spare descriptor
    could be opened again. *)
Definition handleRead (r : AcceptResult) (token reopened : bool) (a : Acceptor) : Acceptor * bool :=
  match r with
  | AcceptedFd =>
      if token then (a, true)
      else (mkAcceptor (listening_ a) (ac_reading a) (acceptPaused_ a) (acceptErrors_ a)
              (rateRejected_ a + 1) (idleFd_ a) (ac_retries a), false)
  | AcceptError => (a, false)
  | Exhausted =>
      let idle := if idleFd_ a then reopened else false in
      let errors := acceptErrors_ a + 1 in
      (if acceptPaused_ a
       then mkAcceptor (listening_ a) (ac_reading a) true errors (rateRejected_ a) idle (ac_retries a)
       else mkAcceptor (listening_ a) false true errors (rateRejected_ a) idle (S (ac_retries a)),
       false)
  end.

Definition retryAccept (a : Acceptor) : Acceptor :=
  mkAcceptor (listening_ a) (if listening_ a then true else ac_reading a) false (acceptErrors_ a)
    (rateRejected_ a) (idleFd_ a) (pred (ac_retries a)).
End Accept.

(** ** Executions *)

Record Listener := mkListener { li_server : TcpServer; li_acceptor : Acceptor }.

Inductive ServerStep :=
| AListen
| AStopListen
| AReadable (r : AcceptResult) (token reopened : bool)
| ARetry
| AClosed (name : string).

Definition serverStep (l : Listener) (st : ServerStep) : Listener :=
  let a := li_acceptor l in
  match st with
  | AListen => if listening_ a then l else mkListener (li_server l) (Accept.listen a)
  | AStopListen => mkListener (li_server l) (Accept.stopListen a)
  | AReadable r token reopened =>
      if ac_reading a then
        let '(a', pass) := Accept.handleRead r token reopened a in
        mkListener (if (pass : bool) then newConnection (li_server l) else li_server l) a'
      else l
  | ARetry =>
      match ac_retries a with
      | O => l
      | S _ => mkListener (li_server l) (Accept.retryAccept a)
      end
  | AClosed name => mkListener (removeConnectionInLoop name (li_server l)) a
  end.

Definition serverRun (steps : list ServerStep) (l : Listener) : Listener := foldl serverStep l steps.

Definition freshServer (name ipPort : string) (maxConns : Z) (threads : nat) : TcpServer :=
  mkServer name ipPort maxConns (mkPool threads 0) 0 1 ∅ 0.

(** ** Invariants *)

(** Every name in use was made from a smaller number. *)
Record server_ok (name ipPort : string) (maxConns : Z) (s : TcpServer) : Prop := {
  so_name : sv_name s = name /\ sv_ipPort s = ipPort /\ maxConnections_ s = maxConns;
  so_next : 1 <= nextConnId_ s;
  so_names : forall n, n ∈ dom (connections_ s) -> exists id, 1 <= id < nextConnId_ s /\ n = connName s id;
  so_count : 0 < maxConns -> connectionCount s <= maxConns;
  so_loops : forall n loop, connections_ s !! n = Some loop ->
    match loop with Some i => (i < loops_ (sv_pool s))%nat | None => loops_ (sv_pool s) = O end;
}.

Lemma append_inj_l (p a b : string) : (p +:+ a)%string = (p +:+ b)%string -> a = b.
Proof. induction p as [|c p IH]; simpl; [done|]. intros [= ?]. auto. Qed.

Lemma connName_inj s id id' : connName s id = connName s id' -> id = id'.
Proof.
  unfold connName. intros H. do 4 apply append_inj_l in H. by apply (inj pretty) in H.
Qed.

Lemma getNextLoop_ok p :
  loops_ (getNextLoop p).1 = loops_ p /\
  match (getNextLoop p).2 with Some i => (i < loops_ p)%nat | None => loops_ p = O end.
Proof.
  unfold getNextLoop. destruct (loops_ p) as [|n] eqn:E; [cbn; by rewrite E|]. cbn -[Z.of_nat]. split; [done|].
  pose proof (Z.mod_pos_bound (next_ p) (Z.of_nat (S n)) ltac:(lia)). lia.
Qed.

Lemma newConnection_ok name ipPort maxConns s :
  server_ok name ipPort maxConns s -> server_ok name ipPort maxConns (newConnection s).
Proof.
  intros [(Hn & Hip & Hm) Hx Hnames Hcount Hloops]. unfold newConnection.
  destruct ((0 <? maxConnections_ s) && (maxConnections_ s <=? connectionCount s)) eqn:E; [by split|].
  destruct (getNextLoop_ok (sv_pool s)) as [Hl1 Hl2].
  destruct (getNextLoop (sv_pool s)) as [pool loop]. cbn in Hl1, Hl2. split; cbn.
  - done.
  - lia.
  - intros n. rewrite dom_insert. intros [->%elem_of_singleton|Hin]%elem_of_union.
    + exists (nextConnId_ s). split; [lia|done].
    + destruct (Hnames n Hin) as (id & Hid & ->). exists id. split; [lia|done].
  - intros Hpos. assert (connections_ s !! connName s (nextConnId_ s) = None) as Hfresh.
    { apply not_elem_of_dom. intros Hin. destruct (Hnames _ Hin) as (id & Hid & Heq).
      apply connName_inj in Heq. lia. }
    unfold connectionCount in *. cbn. rewrite map_size_insert_None by done. rewrite Hm in E. lia.
  - rewrite Hl1. intros n loop' [[_ <-]|[_ Hlk]]%lookup_insert_Some; [done|by apply (Hloops n)].
Qed.

Record acceptor_ok (a : Acceptor) : Prop := {
  ao_paused : acceptPaused_ a = true <-> ac_retries a = 1%nat;
  ao_retries : (ac_retries a <= 1)%nat;
  ao_awake : listening_ a = true -> ac_reading a = true \/ ac_retries a = 1%nat;
  ao_silent : listening_ a = false -> ac_reading a = false;
}.

Lemma exhausted_ok a errors idle :
  acceptor_ok a ->
  acceptor_ok (if acceptPaused_ a
               then mkAcceptor (listening_ a) (ac_reading a) true errors (rateRejected_ a) idle (ac_retries a)
               else mkAcceptor (listening_ a) false true errors (rateRejected_ a) idle (S (ac_retries a))).
Proof.
  intros [Hp Hr Hw Hq]. destruct (acceptPaused_ a) eqn:Hpa.
  - by split.
  - assert (ac_retries a = O) as Hz.
    { destruct (ac_retries a) as [|[]]; [done| |lia]. destruct Hp as [_ Hp]. by specialize (Hp eq_refl). }
    rewrite Hz. split; cbn; auto with lia; done.
Qed.

Lemma serverStep_ok name ipPort maxConns l st :
  server_ok name ipPort maxConns (li_server l) /\ acceptor_ok (li_acceptor l) ->
  server_ok name ipPort maxConns (li_server (serverStep l st)) /\ acceptor_ok (li_acceptor (serverStep l st)).
Proof.
  intros [Hs Ha]. pose proof Ha as [Hp Hr Hw Hq]. destruct st as [| |r token reopened| |n]; cbn [serverStep].
  - destruct (listening_ (li_acceptor l)); [done|]. split; [done|]. split; cbn; auto; done.
  - split; [done|]. split; cbn; auto; done.
  - destruct (ac_reading (li_acceptor l)) eqn:Hrd; [|done].
    assert (listening_ (li_acceptor l) = true) as Hlis by (by destruct (listening_ (li_acceptor l)); [|specialize (Hq eq_refl)]).
    destruct r; cbn.
    + destruct token; cbn; [split; [by apply newConnection_ok|done]|]. split; [done|].
      split; cbn; rewrite ?Hrd; done.
    + split; [done|]. by apply exhausted_ok.
    + done.
  - destruct (ac_retries (li_acceptor l)) as [|k] eqn:Hk; [done|]. split; [done|].
    assert (k = O) as -> by lia. split; cbn; rewrite ?Hk; cbn; try done; [lia| |].
    + intros ->. by left.
    + intros Hl. rewrite Hl. by apply Hq.
  - split; [|done]. destruct Hs as [Hn Hx Hnames Hcount Hloops]. split; cbn; try done.
    + intros m. rewrite dom_delete. intros [Hin _]%elem_of_difference. by apply Hnames.
    + intros Hpos. specialize (Hcount Hpos). unfold connectionCount in *. cbn.
      pose proof (map_subseteq_size _ _ (delete_subseteq (connections_ (li_server l)) n)). lia.
    + intros m loop Hm. apply lookup_delete_Some in Hm as [_ Hm]. by apply (Hloops m).
Qed.

Lemma fresh_ok name ipPort maxConns threads idle :
  server_ok name ipPort maxConns (freshServer name ipPort maxConns threads) /\ acceptor_ok (newAcceptor idle).
Proof.
  split; [|split; cbn; auto with lia; done]. split; cbn.
  - done.
  - lia.
  - intros n Hn. cbn in Hn. set_solver.
  - unfold connectionCount. cbn. rewrite map_size_empty. lia.
  - intros n loop Hn. by rewrite lookup_empty in Hn.
Qed.

Lemma serverRun_ok name ipPort maxConns threads idle steps :
  let l := serverRun steps (mkListener (freshServer name ipPort maxConns threads) (newAcceptor idle)) in
  server_ok name ipPort maxConns (li_server l) /\ acceptor_ok (li_acceptor l).
Proof.
  assert (forall l, server_ok name ipPort maxConns (li_server l) /\ acceptor_ok (li_acceptor l) ->
    server_ok name ipPort maxConns (li_server (serverRun steps l)) /\
    acceptor_ok (li_acceptor (serverRun steps l))) as Hrun.
  { induction steps as [|st steps IH]; intros l Hl; [done|]. simpl. by apply IH, serverStep_ok. }
  apply Hrun. apply fresh_ok.
Qed.

(** The server stays within its limits and never stops listening for good:
    after any sequence of accepts, failures, retries and closes, there are at most
    [maxConnections_] connections, each on a loop of the pool; and while the
    server listens, its acceptor is enabled or the one retry timer that enables it
    is running, and once it has stopped it stays disabled. *)
Theorem server_within_limits name ipPort maxConns threads idle steps :
  let l := serverRun steps (mkListener (freshServer name ipPort maxConns threads) (newAcceptor idle)) in
  let s := li_server l in
  let a := li_acceptor l in
  (0 < maxConns -> connectionCount s <= maxConns) /\
  (forall n loop, connections_ s !! n = Some loop ->
     match loop with Some i => (i < loops_ (sv_pool s))%nat | None => loops_ (sv_pool s) = O end) /\
  (listening_ a = true -> ac_reading a = true \/ ac_retries a = 1%nat) /\
  (listening_ a = false -> ac_reading a = false).
Proof.
  intros l s a.
  assert (server_ok name ipPort maxConns s /\ acceptor_ok a) as [[_ _ _ H1 H2] [_ _ H3 H4]]; [|done].
  subst s a l. apply serverRun_ok.
Qed.
