(* ===== verification/KafkaClient.v ===== *)
(** * The Kafka client connection (chatserver/src/app/KafkaWire.cpp, TcpClient,
    sendRequest, recvResponse)

    The system calls are the class [Sockets]; the loops over partial sends and
    receives, the request frame and the response frame are the code's.  What the
    consumer and the publisher need of a connection is the class [Transport],
    which [socketTransport] implements. *)

From S2P Require Import Prelude Bytes KafkaWire KafkaWireInv.
From Stdlib Require Import Ascii.

Open Scope Z_scope.

(** ** Text and bytes *)

Definition bytesOf (s : string) : bytes := map (fun c => Z.of_N (N_of_ascii c)) (String.list_ascii_of_string s).

Definition textOf (b : bytes) : string := String.string_of_list_ascii (map (fun x => ascii_of_N (Z.to_N x)) b).

Lemma textOf_bytesOf s : textOf (bytesOf s) = s.
Proof.
  unfold textOf, bytesOf. rewrite map_map. rewrite <- (String.string_of_list_ascii_of_string s) at 2. f_equal.
  induction (String.list_ascii_of_string s) as [|c l IH]; [done|]. simpl. rewrite IH.
  by rewrite N2Z.id, ascii_N_embedding.
Qed.

(** ** System calls *)

Inductive ConnectResult := ConnDone | ConnInProgress | ConnFailed.

(** [pollRetry]: interrupted calls are repeated and do not show. *)
Inductive PollResult :=
| PollReady (errorOrHangup : bool)
| PollTimedOut
| PollFailed.

Class Sockets (N : Type) := {
  sysSocket : N -> N * bool;
  inet_pton : string -> bool;
  sysConnect : string -> Z -> N -> N * ConnectResult;
  sysPoll : Z -> N -> N * PollResult;
  sysSend : bytes -> N -> N * Z;
  sysRecv : Z -> N -> N * option bytes;      (**r [None]: an error; empty: closed *)
  sysClose : N -> N;
  steadyMs : N -> N * Z;
  systemMs : N -> N * Z;
  sleepFor : Z -> N -> N;
}.

Record TcpClient (N : Type) := mkTcp { tc_open : bool; tc_net : N }.
Arguments mkTcp {N}.
Arguments tc_open {N}.
Arguments tc_net {N}.

Module Tcp.
Section tcp.
Context {N : Type} `{!Sockets N}.

Notation T := (TcpClient N).

Definition close (t : T) : T := if tc_open t then mkTcp false (sysClose (tc_net t)) else t.

(** Setting the descriptor non-blocking and back does not show. *)
Definition connectTo (host : string) (port timeoutMs : Z) (t : T) : T * bool :=
  let '(n, ok) := sysSocket (tc_net t) in
  if negb ok then (mkTcp false n, false)
  else
    let t := mkTcp true n in
    if negb (inet_pton host) then (close t, false)
    else
      let '(n, rc) := sysConnect host (u16 port) (tc_net t) in
      let t := mkTcp true n in
      match rc with
      | ConnFailed => (close t, false)
      | ConnDone => (t, true)
      | ConnInProgress =>
          let '(n, p) := sysPoll (i32 timeoutMs) n in
          match p with
          | PollReady false => (mkTcp true n, true)
          | _ => (close (mkTcp true n), false)
          end
      end.

(** [while (sent < len)]: a round sends one byte at least. *)
Fixpoint sendLoop (rounds : nat) (data : bytes) (timeoutMs : Z) (t : T) : T * bool :=
  match data, rounds with
  | [], _ => (t, true)
  | _, O => (t, false)
  | _, S r =>
      let '(n, p) := sysPoll (i32 timeoutMs) (tc_net t) in
      match p with
      | PollReady _ =>
          let '(n, k) := sysSend data n in
          let t := mkTcp (tc_open t) n in
          if k <=? 0 then (t, false) else sendLoop r (drop (Z.to_nat k) data) timeoutMs t
      | _ => (mkTcp (tc_open t) n, false)
      end
  end.

Definition sendAll (data : bytes) (timeoutMs : Z) (t : T) : T * bool :=
  if negb (tc_open t) then (t, false) else sendLoop (length data) data timeoutMs t.

(** [while (got < len)] *)
Fixpoint recvLoop (rounds : nat) (len : Z) (got : bytes) (timeoutMs : Z) (t : T) : T * option bytes :=
  if len <=? size got then (t, Some got)
  else
    match rounds with
    | O => (t, None)
    | S r =>
        let '(n, p) := sysPoll (i32 timeoutMs) (tc_net t) in
        match p with
        | PollReady _ =>
            let '(n, b) := sysRecv (len - size got) n in
            let t := mkTcp (tc_open t) n in
            match b with
            | Some (x :: b) => recvLoop r len (got ++ x :: b) timeoutMs t
            | _ => (t, None)
            end
        | _ => (mkTcp (tc_open t) n, None)
        end
    end.

Definition recvExact (len timeoutMs : Z) (t : T) : T * option bytes :=
  if negb (tc_open t) then (t, None) else recvLoop (Z.to_nat len) len [] timeoutMs t.

(** ** Frames *)

Definition requestPayload (apiKey apiVersion : Z) (clientId body : bytes) (correlation : Z) : bytes :=
  ByteWriter.append body (ByteWriter.str clientId (ByteWriter.i32 correlation
    (ByteWriter.i16 apiVersion (ByteWriter.i16 apiKey [])))).

Definition sendRequest (apiKey apiVersion : Z) (clientId body : bytes) (correlation timeoutMs : Z) (t : T)
  : T * bool :=
  let payload := requestPayload apiKey apiVersion clientId body correlation in
  if 0x7FFFFFFF <? size payload then (t, false)
  else sendAll (ByteWriter.i32 (i32 (size payload)) [] ++ payload) timeoutMs t.

Definition recvResponse (correlation timeoutMs : Z) (t : T) : T * option bytes :=
  match recvExact 4 timeoutMs t with
  | (t, Some sz) =>
      match readI32 sz with
      | Some respSize =>
          if respSize <? 4 then (t, None)
          else
            match recvExact respSize timeoutMs t with
            | (t, Some resp) =>
                match readI32 resp with
                | Some corr => if negb (corr =? correlation) then (t, None) else (t, Some (drop 4 resp))
                | None => (t, None)
                end
            | (t, None) => (t, None)
            end
      | None => (t, None)
      end
  | (t, None) => (t, None)
  end.
End tcp.
End Tcp.

(** ** The interface of the clients *)

Class Transport (N : Type) := {
  steadyNow : N -> N * Z;
  wallNow : N -> N * Z;
  pause : Z -> N -> N;
  connectTo : string -> Z -> Z -> N -> N * bool;
  sendRequest : Z -> Z -> bytes -> bytes -> Z -> Z -> N -> N * bool;
  recvResponse : Z -> Z -> N -> N * option bytes;
  disconnect : N -> N;
}.

Definition overNet {N A} (f : N -> N * A) (t : TcpClient N) : TcpClient N * A :=
  let '(n, a) := f (tc_net t) in (mkTcp (tc_open t) n, a).

#[export] Instance socketTransport {N} `{!Sockets N} : Transport (TcpClient N) := {
  steadyNow := overNet steadyMs;
  wallNow := overNet systemMs;
  pause ms t := mkTcp (tc_open t) (sleepFor ms (tc_net t));
  connectTo := Tcp.connectTo;
  sendRequest := Tcp.sendRequest;
  recvResponse := Tcp.recvResponse;
  disconnect := Tcp.close;
}.

(** ** A byte stream *)

(** What TCP promises: [outbound] is what the socket has taken, [inbound] what the
    peer sends from here on. *)
Class SocketLaws (N : Type) `{!Sockets N} := {
  outbound : N -> bytes;
  inbound : N -> bytes;
  poll_ok t n n' p : sysPoll t n = (n', p) -> outbound n' = outbound n /\ inbound n' = inbound n;
  send_ok data n n' k : sysSend data n = (n', k) ->
    k <= size data /\ inbound n' = inbound n /\ outbound n' = outbound n ++ take (Z.to_nat k) data;
  recv_ok len n n' r : sysRecv len n = (n', r) -> 0 < len ->
    outbound n' = outbound n /\
    match r with
    | Some b => size b <= len /\ inbound n = b ++ inbound n'
    | None => inbound n' = inbound n
    end;
}.

Section stream.
Context {N : Type} `{!Sockets N, !SocketLaws N}.

Notation out t := (outbound (tc_net t)).
Notation inb t := (inbound (tc_net t)).

Lemma sendLoop_ok r data timeout (t t' : TcpClient N) :
  (length data <= r)%nat -> Tcp.sendLoop r data timeout t = (t', true) ->
  tc_open t' = tc_open t /\ inb t' = inb t /\ out t' = out t ++ data.
Proof.
  revert data t. induction r as [|r IH]; intros data t Hr H; destruct data as [|x data]; try done.
  - cbn in H. injection H as <-. by rewrite app_nil_r.
  - cbn in H. injection H as <-. by rewrite app_nil_r.
  - cbn [Tcp.sendLoop] in H. destruct (sysPoll _ _) as [n p] eqn:Hp. apply poll_ok in Hp as [Hpo Hpi].
    destruct p; try done. destruct (sysSend _ n) as [n2 k] eqn:Hs. apply send_ok in Hs as (Hk & Hsi & Hso).
    destruct (Z.leb_spec k 0); [done|]. apply IH in H as (H1 & H2 & H3).
    + cbn in H1, H2, H3. split; [done|]. split; [congruence|].
      rewrite H3, Hso, Hpo, <- app_assoc. by rewrite take_drop.
    + rewrite length_drop. simpl in *. lia.
Qed.

Lemma recvLoop_ok r len got timeout (t t' : TcpClient N) b :
  Tcp.recvLoop r len got timeout t = (t', Some b) -> size got <= len ->
  tc_open t' = tc_open t /\ out t' = out t /\ size b = len /\ exists more, b = got ++ more /\ inb t = more ++ inb t'.
Proof.
  revert got t. induction r as [|r IH]; intros got t H Hg; cbn [Tcp.recvLoop] in H;
    destruct (Z.leb_spec len (size got)).
  1,3: injection H as <- <-; repeat split; [lia|]; exists []; by rewrite app_nil_r.
  { done. }
  destruct (sysPoll _ _) as [n p] eqn:Hp. apply poll_ok in Hp as [Hpo Hpi]. destruct p; try done.
  destruct (sysRecv _ n) as [n2 o] eqn:Hs. apply recv_ok in Hs as [Hso Hsi]; [|lia].
  destruct o as [[|x b']|]; try done. destruct Hsi as [Hsz Hin].
  apply IH in H as (H1 & H2 & H3 & more & -> & H4); [|rewrite size_app; lia]. cbn in *.
  split; [done|]. split; [congruence|]. split; [done|]. exists ((x :: b') ++ more).
  rewrite <- !app_assoc. split; [done|]. cbn in *. rewrite <- Hpi, Hin. cbn. by rewrite H4.
Qed.

Lemma recvExact_ok len timeout (t t' : TcpClient N) b :
  0 <= len -> Tcp.recvExact len timeout t = (t', Some b) ->
  tc_open t' = tc_open t /\ out t' = out t /\ size b = len /\ inb t = b ++ inb t'.
Proof.
  intros Hl H. unfold Tcp.recvExact in H. destruct (tc_open t) eqn:Ho; [|done]. cbn [negb] in H.
  apply recvLoop_ok in H as (H1 & H2 & H3 & more & -> & H4); [by rewrite Ho in H1|done].
Qed.

(** A successful exchange moves exactly one frame each way, however the kernel
    splits them: the request with its length before it, and a response that
    carries the correlation number of the request and whose length prefix is its
    length; the next response starts where this one ends. *)
Theorem exchange_is_framed apiKey apiVersion clientId body correlation t1 t2 (t t' t'' : TcpClient N) resp :
  Tcp.sendRequest apiKey apiVersion clientId body correlation t1 t = (t', true) ->
  Tcp.recvResponse correlation t2 t' = (t'', Some resp) ->
  let payload := Tcp.requestPayload apiKey apiVersion clientId body correlation in
  out t'' = out t ++ digits 4 (size payload) ++ payload /\
  exists sz corr, inb t = sz ++ corr ++ resp ++ inb t'' /\
    size sz = 4 /\ size corr = 4 /\ readI32 sz = Some (4 + size resp) /\ readI32 (corr ++ resp) = Some correlation.
Proof.
  intros Hs Hr payload. unfold Tcp.sendRequest in Hs. fold payload in Hs.
  destruct (Z.ltb_spec 0x7FFFFFFF (size payload)); [done|].
  unfold Tcp.sendAll in Hs. destruct (tc_open t) eqn:Ho; [|done]. cbn [negb] in Hs.
  apply sendLoop_ok in Hs as (H1 & H2 & H3); [|done].
  assert (i32 (size payload) = size payload) as Hsz.
  { pose proof (size_nonneg payload). apply wrapS_small; [lia|]. split; lia. }
  rewrite Hsz in H3. unfold Tcp.recvResponse in Hr.
  destruct (Tcp.recvExact 4 t2 t') as [ta [sz|]] eqn:Ha; [|done].
  apply recvExact_ok in Ha as (Ha1 & Ha2 & Ha3 & Ha4); [|done].
  destruct (readI32 sz) as [respSize|] eqn:Hrd; [|done]. destruct (Z.ltb_spec respSize 4); [done|].
  destruct (Tcp.recvExact respSize t2 ta) as [tb [full|]] eqn:Hb; [|done].
  apply recvExact_ok in Hb as (Hb1 & Hb2 & Hb3 & Hb4); [|lia].
  destruct (readI32 full) as [c|] eqn:Hc; [|done].
  destruct (Z.eqb_spec c correlation) as [->|]; [|done]. cbn [negb] in Hr. injection Hr as <- <-.
  split; [by rewrite Hb2, Ha2, H3|]. exists sz, (take 4 full).
  assert (size (take 4 full) = 4) as H4 by (unfold size in *; rewrite length_take; lia).
  assert (size (drop 4 full) = respSize - 4) as H5 by (unfold size in *; rewrite length_drop; lia).
  rewrite (app_assoc (take 4 full)), take_drop, <- H2, Ha4, Hb4. repeat split; [done|done|rewrite Hrd; f_equal; lia|done].
Qed.
End stream.
