(* ===== verification/KafkaReplies.v ===== *)
(** * Replies of the broker (chatserver/src/app/KafkaEventConsumer.cpp and
    KafkaPublisher.cpp)

    The loops that read the Metadata, ListOffsets, OffsetFetch, OffsetCommit and
    Fetch replies, and what they read from a reply that a broker encodes: every
    reply is read to its end, and the result is the one its content means. *)

From S2P Require Import Prelude Bytes KafkaWire KafkaWireInv.

Open Scope Z_scope.
Open Scope rd_scope.

(** ** Loops *)

Fixpoint rtimes {A} (n : nat) (body : A -> rd A) (a : A) : rd A :=
  match n with
  | O => rret a
  | S n => a <-- body a ;; rtimes n body a
  end.

(** [int32_t n; r.i32(&n); for (i < n) body] *)
Definition rcount {A} (body : A -> rd A) (a : A) : rd A :=
  n <-- ByteReader.i32 ;; rtimes (Z.to_nat n) body a.

(** The result of reading something else. *)
Definition rlift {A} (r : rres A) : rd A := fun _ pos => (pos, r).

(** [if (r.read(&x) && ...)]: [None] when the read fails. *)
Definition rtry {A} (m : rd A) : rd (option A) :=
  fun data pos =>
    match m data pos with
    | (pos', RTrue a) => (pos', RTrue (Some a))
    | (pos', RFalse) => (pos', RTrue None)
    | (pos', RUndefined) => (pos', RUndefined)
    | (pos', ROutOfRange) => (pos', ROutOfRange)
    | (pos', ROutOfFuel) => (pos', ROutOfFuel)
    end.

(** ** Metadata v1 *)

Definition skipBroker (u : unit) : rd unit :=
  _ <-- ByteReader.i32 ;;
  _ <-- ByteReader.str ;;
  _ <-- ByteReader.i32 ;;
  _ <-- ByteReader.nullableStr ;;
  rret tt.

Definition skipInt (u : unit) : rd unit := _ <-- ByteReader.i32 ;; rret tt.

(** Brokers and controller. *)
Definition skipBrokers : rd unit :=
  rcount skipBroker tt ;;;
  _ <-- ByteReader.i32 ;;
  rret tt.

Record PartitionMeta := mkPartitionMeta { pa_err : Z; pa_index : Z; pa_leader : Z }.

Definition readPartitionMeta : rd PartitionMeta :=
  perr <-- ByteReader.i16 ;;
  idx <-- ByteReader.i32 ;;
  leader <-- ByteReader.i32 ;;
  rcount skipInt tt ;;;
  rcount skipInt tt ;;;
  rret (mkPartitionMeta perr idx leader).

Record Assignment := mkAssignment { as_parts : list Z; as_found : bool; as_ready : bool }.

Definition notePartition (mine : bool) (acc : Assignment) (p : PartitionMeta) : Assignment :=
  if negb mine then acc
  else
    mkAssignment (if pa_err p =? 0 then as_parts acc ++ [pa_index p] else as_parts acc) (as_found acc)
      (as_ready acc && (pa_err p =? 0) && negb (pa_leader p <? 0)).

Definition noteTopic (mine : bool) (err : Z) (acc : Assignment) : Assignment :=
  if mine then mkAssignment (as_parts acc) true (as_ready acc && (err =? 0)) else acc.

Definition readTopicMeta (topic : bytes) (acc : Assignment) : rd Assignment :=
  err <-- ByteReader.i16 ;;
  name <-- ByteReader.str ;;
  _ <-- ByteReader.bool_ ;;
  let mine := bool_decide (name = topic) in
  acc <-- rcount (fun acc => p <-- readPartitionMeta ;; rret (notePartition mine acc p)) acc ;;
  rret (noteTopic mine err acc).

Definition readMetadata (topic : bytes) : rd Assignment :=
  skipBrokers ;;;
  rcount (readTopicMeta topic) (mkAssignment [] false true).

(** ** ListOffsets v1, OffsetFetch v2, OffsetCommit v2 *)

Definition readTopics {A} (body : bytes -> A -> rd A) (a : A) : rd A :=
  rcount (fun a => name <-- ByteReader.str ;; rcount (body name) a) a.

Definition readListedOffset (topic name : bytes) (out : gmap Z Z) : rd (gmap Z Z) :=
  idx <-- ByteReader.i32 ;;
  err <-- ByteReader.i16 ;;
  _ <-- ByteReader.i64 ;;
  off <-- ByteReader.i64 ;;
  if bool_decide (name = topic)
  then require (err =? 0) ;;; rret (<[idx := off]> out)
  else rret out.

Definition readListOffsets (topic : bytes) : rd (gmap Z Z) := readTopics (readListedOffset topic) ∅.

Definition readFetchedOffset (topic name : bytes) (out : gmap Z Z) : rd (gmap Z Z) :=
  idx <-- ByteReader.i32 ;;
  off <-- ByteReader.i64 ;;
  _ <-- ByteReader.nullableStr ;;
  err <-- ByteReader.i16 ;;
  rret (if bool_decide (name = topic) then <[idx := if err =? 0 then off else -1]> out else out).

Definition readOffsetFetch (topic : bytes) : rd (gmap Z Z) :=
  out <-- readTopics (readFetchedOffset topic) ∅ ;;
  topLevelError <-- rtry ByteReader.i16 ;;
  match topLevelError with
  | Some e => require (e =? 0) ;;; rret out
  | None => rret out
  end.

Definition readCommitted (topic : bytes) (toCommit : gmap Z Z) (name : bytes) (out : gmap Z Z)
  : rd (gmap Z Z) :=
  idx <-- ByteReader.i32 ;;
  err <-- ByteReader.i16 ;;
  rret (if bool_decide (name = topic) && (err =? 0)
        then match toCommit !! idx with Some off => <[idx := off]> out | None => out end
        else out).

Definition readOffsetCommit (topic : bytes) (toCommit : gmap Z Z) : rd (gmap Z Z) :=
  readTopics (readCommitted topic toCommit) ∅.

(** ** Fetch v4 *)

Definition kErrOffsetOutOfRange : Z := 1.
Definition kErrUnknownTopicOrPartition : Z := 3.

Record Fetched := mkFetchedAll {
  fe_byPartition : gmap Z (list FetchedRecord);
  fe_errPartitions : list Z;
}.

Definition skipAborted (u : unit) : rd unit :=
  _ <-- ByteReader.i64 ;; _ <-- ByteReader.i64 ;; rret tt.

Definition readFetchedPartition (topic name : bytes) (acc : Fetched) : rd Fetched :=
  idx <-- ByteReader.i32 ;;
  err <-- ByteReader.i16 ;;
  _ <-- ByteReader.i64 ;;
  _ <-- ByteReader.i64 ;;
  rcount skipAborted tt ;;;
  records <-- ByteReader.nullableBytes ;;
  if negb (bool_decide (name = topic)) then rret acc
  else if (err =? kErrOffsetOutOfRange) || (err =? kErrUnknownTopicOrPartition)
  then rret (mkFetchedAll (fe_byPartition acc) (fe_errPartitions acc ++ [idx]))
  else
    require (err =? 0) ;;;
    match records with
    | None => rret acc
    | Some data =>
        parsed <-- rlift (parseRecordSet (S (length data)) data idx) ;;
        rret (mkFetchedAll (<[idx := default [] (fe_byPartition acc !! idx) ++ parsed]> (fe_byPartition acc))
                (fe_errPartitions acc))
    end.

Definition readFetch (topic : bytes) : rd Fetched :=
  _ <-- ByteReader.i32 ;;
  readTopics (readFetchedPartition topic) (mkFetchedAll ∅ []).

(** [byPartition] in the order of its keys. *)
Definition inPartitionOrder (f : Fetched) : list FetchedRecord :=
  concat (sorted_items Z.le (fe_byPartition f)).*2.

(** ** What a reader returns, whatever it reads *)

Definition rpost {A} (m : rd A) (P : A -> Prop) : Prop :=
  forall data pos, match (m data pos).2 with RTrue a => P a | _ => True end.

Lemma rpost_ret {A} (a : A) P : P a -> rpost (rret a) P.
Proof. by intros Ha data pos. Qed.

Lemma rpost_bind {A B} (m : rd A) (f : A -> rd B) (R : A -> Prop) P :
  rpost m R -> (forall a, R a -> rpost (f a) P) -> rpost (rbind m f) P.
Proof.
  intros Hm Hf data pos. unfold rbind. specialize (Hm data pos).
  destruct (m data pos) as [pos' [a| | | |]]; try done. by apply Hf.
Qed.

Lemma rpost_skip {A B} (m : rd A) (f : A -> rd B) P : (forall a, rpost (f a) P) -> rpost (rbind m f) P.
Proof.
  intros Hf. apply (rpost_bind m f (fun _ => True)); [|by intros a _].
  intros data pos. by destruct (m data pos) as [? []].
Qed.

Lemma rpost_rtimes {A} n (body : A -> rd A) a (P : A -> Prop) :
  P a -> (forall a, P a -> rpost (body a) P) -> rpost (rtimes n body a) P.
Proof.
  intros Ha Hb. revert a Ha. induction n as [|n IH]; intros a Ha; cbn [rtimes]; [by apply rpost_ret|].
  by eapply rpost_bind; [apply Hb|].
Qed.

Lemma rpost_topics {A} (body : bytes -> A -> rd A) a (P : A -> Prop) :
  P a -> (forall name a, P a -> rpost (body name a) P) -> rpost (readTopics body a) P.
Proof.
  intros Ha Hb. apply rpost_skip. intros n. apply rpost_rtimes; [done|]. intros a' Ha'.
  apply rpost_skip. intros name. apply rpost_skip. intros n'. apply rpost_rtimes; auto.
Qed.

(** Only requested commits count as committed. *)
Lemma readOffsetCommit_subset topic toCommit :
  rpost (readOffsetCommit topic toCommit) (fun m => forall p o, m !! p = Some o -> toCommit !! p = Some o).
Proof.
  apply rpost_topics; [done|]. intros name m Hm. apply rpost_skip. intros idx. apply rpost_skip. intros err.
  apply rpost_ret. intros p o. destruct (_ && _); [|apply Hm].
  destruct (toCommit !! idx) as [off|] eqn:Hidx; [|apply Hm].
  destruct (decide (p = idx)) as [->|Hne]; [|rewrite lookup_insert_ne by done; apply Hm].
  rewrite lookup_insert_eq. congruence.
Qed.

(** Fields are within their widths. *)
Definition in32 (z : Z) : Prop := - 2 ^ 31 <= z < 2 ^ 31.

Lemma rpost_i32 : rpost ByteReader.i32 in32.
Proof.
  unfold ByteReader.i32. do 7 (apply rpost_skip; intros ?). apply rpost_ret. apply (wrapS_range 32). lia.
Qed.

Lemma rpost_i64 : rpost ByteReader.i64 isI64.
Proof. unfold ByteReader.i64. do 4 (apply rpost_skip; intros ?). apply rpost_ret, i64_range. Qed.

Lemma readListOffsets_range topic :
  rpost (readListOffsets topic) (fun m => forall p o, m !! p = Some o -> isI64 o).
Proof.
  apply rpost_topics; [done|]. intros name m Hm. apply rpost_skip. intros idx. apply rpost_skip. intros err.
  apply rpost_skip. intros ts. eapply rpost_bind; [apply rpost_i64|]. intros off Hoff.
  destruct (bool_decide _); [|by apply rpost_ret]. apply rpost_skip. intros _. apply rpost_ret. intros p o.
  destruct (decide (p = idx)) as [->|Hne]; [rewrite lookup_insert_eq; congruence|].
  rewrite lookup_insert_ne by done. apply Hm.
Qed.

Lemma readMetadata_range topic : rpost (readMetadata topic) (fun a => Forall in32 (as_parts a)).
Proof.
  apply rpost_skip. intros _. apply rpost_skip. intros n. apply rpost_rtimes; [constructor|]. intros a Ha.
  apply rpost_skip. intros err. apply rpost_skip. intros name. apply rpost_skip. intros internal.
  eapply (rpost_bind _ _ (fun a => Forall in32 (as_parts a))).
  - apply rpost_skip. intros pn. apply rpost_rtimes; [done|]. intros a' Ha'.
    eapply (rpost_bind _ _ (fun p => in32 (pa_index p))).
    + unfold readPartitionMeta. apply rpost_skip. intros perr. eapply rpost_bind; [apply rpost_i32|]. intros idx Hi.
      do 3 (apply rpost_skip; intros ?). by apply rpost_ret.
    + intros p Hp. apply rpost_ret. unfold notePartition. destruct (negb _); [done|]. cbn.
      destruct (pa_err p =? 0); [|done]. apply Forall_app. split; [done|]. by constructor.
  - intros a' Ha'. apply rpost_ret. unfold noteTopic. by destruct (bool_decide _).
Qed.
