(* ===== verification/KafkaBroker.v ===== *)
(** * What a broker promises

    The log of a partition as a list of record batches, the Fetch request and
    reply as Kafka documents them, and the class [Broker]: the log only grows, and
    a fetch answers with the bytes of the log from the batch that holds the
    requested offset on, cut anywhere. *)

From S2P Require Import Prelude Bytes KafkaWire KafkaWireInv KafkaClient KafkaReplies.

Open Scope Z_scope.

(** ** Readers that may fail *)

(** [gives m enc o]: where [enc] stands, [m] reads it to [o], or fails. *)
Definition gives {A} (m : rd A) (enc : bytes) (o : option A) : Prop :=
  match o with
  | Some a => reads m enc a
  | None => forall pre post, size (pre ++ enc ++ post) < 2 ^ 62 ->
      (m (pre ++ enc ++ post) (size pre)).2 = RFalse
  end.

Lemma gives_bind {A B} (m : rd A) (f : A -> rd B) e1 e2 a o :
  reads m e1 a -> gives (f a) e2 o -> gives (rbind m f) (e1 ++ e2) o.
Proof.
  intros H1 H2. destruct o as [b|]; [by eapply reads_bind|]. intros pre post Hs. unfold rbind.
  rewrite <- (app_assoc e1) in *. rewrite (H1 pre (e2 ++ post)) by done. specialize (H2 (pre ++ e1) post).
  rewrite <- (app_assoc pre) in H2. rewrite <- size_app. by apply H2.
Qed.

Lemma gives_bind_option {A B} (m : rd A) (f : A -> rd B) e1 e2 o (g : A -> option B) :
  gives m e1 o -> (forall a, o = Some a -> gives (f a) e2 (g a)) -> gives (rbind m f) (e1 ++ e2) (o ≫= g).
Proof.
  intros H1 H2. destruct o as [a|]; [by eapply gives_bind; [exact H1|apply H2]|].
  intros pre post Hs. unfold rbind. rewrite <- (app_assoc e1) in *. specialize (H1 pre (e2 ++ post) Hs).
  destruct (m _ _) as [pos r]. cbn in H1. by subst r.
Qed.

Lemma gives_require (b : bool) {A} (f : rd A) enc o :
  (b = true -> gives f enc o) -> gives (rbind (require b) (fun _ => f)) enc (if b then o else None).
Proof. destruct b; [|done]. intros H. specialize (H eq_refl). destruct o; exact H. Qed.

(** A fold that may fail. *)
Definition ofold {A X} (step : A -> X -> option A) (xs : list X) (o : option A) : option A :=
  foldl (fun o x => o ≫= fun a => step a x) o xs.

Lemma ofold_None {A X} (step : A -> X -> option A) xs : ofold step xs None = None.
Proof. by induction xs. Qed.

Lemma gives_rtimes {A X} (body : A -> rd A) (enc : X -> bytes) (step : A -> X -> option A) xs a :
  (forall x a, x ∈ xs -> gives (body a) (enc x) (step a x)) ->
  gives (rtimes (length xs) body a) (concat (map enc xs)) (ofold step xs (Some a)).
Proof.
  revert a. induction xs as [|x xs IH]; intros a H; [apply reads_ret|]. cbn [length rtimes map concat].
  change (ofold step (x :: xs) (Some a)) with (ofold step xs (step a x)).
  replace (ofold step xs (step a x)) with (step a x ≫= fun b => ofold step xs (Some b))
    by (destruct (step a x); [done|symmetry; apply ofold_None]).
  apply gives_bind_option; [apply H; by left|]. intros b _. apply IH. intros y c Hy. apply H. by right.
Qed.

(** ** Encodings *)

Definition encArray {X} (enc : X -> bytes) (l : list X) : bytes :=
  digits 4 (Z.of_nat (length l)) ++ concat (map enc l).

Definition encStr (s : bytes) : bytes := digits 2 (size s) ++ s.

Definition encNullableBytes (o : option bytes) : bytes :=
  match o with Some b => digits 4 (size b) ++ b | None => digits 4 (-1) end.

Lemma gives_rcount {A X} (body : A -> rd A) (enc : X -> bytes) (step : A -> X -> option A) xs a :
  Z.of_nat (length xs) < 2 ^ 31 -> (forall x a, x ∈ xs -> gives (body a) (enc x) (step a x)) ->
  gives (rcount body a) (encArray enc xs) (ofold step xs (Some a)).
Proof.
  intros Hl H. eapply gives_bind; [apply reads_i32; lia|]. rewrite Nat2Z.id. by apply gives_rtimes.
Qed.

(** A loop that skips its elements. *)
Lemma reads_skip {X} (body : unit -> rd unit) (enc : X -> bytes) xs :
  Z.of_nat (length xs) < 2 ^ 31 -> (forall x, x ∈ xs -> reads (body tt) (enc x) tt) ->
  reads (rcount body tt) (encArray enc xs) tt.
Proof.
  intros Hl H. change (gives (rcount body tt) (encArray enc xs) (Some tt)).
  replace (Some tt) with (ofold (fun (_ : unit) (_ : X) => Some tt) xs (Some tt))
    by (clear; induction xs as [|x xs IH]; [done|exact IH]).
  apply gives_rcount; [done|]. intros x [] Hx. by apply H.
Qed.

Lemma reads_nullableBytes o :
  (forall b, o = Some b -> size b < 2 ^ 31) -> reads ByteReader.nullableBytes (encNullableBytes o) o.
Proof.
  intros Ho. destruct o as [b|]; cbn [encNullableBytes].
  - specialize (Ho b eq_refl). pose proof (size_nonneg b). eapply reads_bind; [apply reads_i32; lia|].
    destruct (Z.ltb_spec (size b) 0); [lia|]. eapply reads_map; [apply reads_takeBytes|apply reads_ret].
  - eapply reads_map; [apply reads_i32; lia|apply reads_ret].
Qed.

(** ** Topics and their partitions *)

Definition partsFor {X} (topic : bytes) (topics : list (bytes * list X)) : list X :=
  concat (map (fun t => if bool_decide (t.1 = topic) then t.2 else []) topics).

Definition encTopics {X} (enc : X -> bytes) (topics : list (bytes * list X)) : bytes :=
  encArray (fun t => encStr t.1 ++ encArray enc t.2) topics.

Definition topicsOk {X} (ok : X -> Prop) (topics : list (bytes * list X)) : Prop :=
  Z.of_nat (length topics) < 2 ^ 31 /\
  Forall (fun t => size t.1 < 2 ^ 15 /\ Z.of_nat (length t.2) < 2 ^ 31 /\ Forall ok t.2) topics.

Section topics.
Context {A X : Type} (step : bytes -> A -> X -> option A) (topic : bytes).
Hypothesis step_other : forall name a x, name <> topic -> step name a x = Some a.

Definition topicStep (a : A) (t : bytes * list X) : option A := ofold (step t.1) t.2 (Some a).

Lemma ofold_app {B Y} (f : B -> Y -> option B) xs ys o : ofold f (xs ++ ys) o = ofold f ys (ofold f xs o).
Proof. apply foldl_app. Qed.

Lemma topics_parts topics a :
  ofold topicStep topics (Some a) = ofold (step topic) (partsFor topic topics) (Some a).
Proof.
  revert a. induction topics as [|[name parts] topics IH]; intros a; [done|].
  change (partsFor topic ((name, parts) :: topics))
    with ((if bool_decide (name = topic) then parts else []) ++ partsFor topic topics).
  rewrite ofold_app. change (ofold topicStep ((name, parts) :: topics) (Some a))
    with (ofold topicStep topics (topicStep a (name, parts))).
  unfold topicStep at 2. cbn [fst snd]. destruct (bool_decide_reflect (name = topic)) as [->|Hn].
  - destruct (ofold (step topic) parts (Some a)); [apply IH|by rewrite !ofold_None].
  - replace (ofold (step name) parts (Some a)) with (Some a); [apply IH|].
    clear -Hn step_other. induction parts as [|x parts IH]; [done|].
    change (ofold (step name) (x :: parts) (Some a)) with (ofold (step name) parts (step name a x)).
    by rewrite step_other.
Qed.

Lemma gives_topics (body : bytes -> A -> rd A) (enc : X -> bytes) (ok : X -> Prop) topics a :
  topicsOk ok topics ->
  (forall name x a, ok x -> (name = topic -> x ∈ partsFor topic topics) -> gives (body name a) (enc x) (step name a x)) ->
  gives (readTopics body a) (encTopics enc topics) (ofold (step topic) (partsFor topic topics) (Some a)).
Proof.
  intros [Hl He] Hbody. rewrite <- topics_parts.
  apply gives_rcount; [done|]. intros [name parts] acc Hin. rewrite Forall_forall in He.
  destruct (He _ Hin) as (Hn & Hp & Hok). unfold topicStep. cbn [fst snd] in *.
  apply (gives_bind ByteReader.str (fun name => rcount (body name) acc) (encStr name) (encArray enc parts) name).
  { exact (reads_str name Hn). }
  apply gives_rcount; [exact Hp|]. intros x acc' Hpin. rewrite Forall_forall in Hok.
  apply Hbody; [by apply Hok|]. intros ->. unfold partsFor. apply list_elem_of_In, in_concat.
  exists parts. split; [|by apply list_elem_of_In]. apply in_map_iff. exists (topic, parts).
  split; [by rewrite bool_decide_eq_true_2|by apply list_elem_of_In].
Qed.
End topics.

(** ** The log *)

Definition batchEnd (b : StoredBatch) : Z := sb_base b + Z.of_nat (length (sb_pairs b)).

(** Batches in order, with room between them but no overlap. *)
Record logOk (l : list StoredBatch) : Prop := {
  lo_batches : Forall (fun b => batchOk b /\ 0 <= sb_base b /\ batchEnd b < 2 ^ 62) l;
  lo_sorted : StronglySorted (fun b b' => batchEnd b <= sb_base b') l;
  lo_size : size (recordSet l) < 2 ^ 61;
}.

Definition logRecords (p : Z) (l : list StoredBatch) : list FetchedRecord := concat (map (recordsOf p) l).

(** A fetch from offset [o]: whole batches before it are left out, and the rest is
    cut at any byte. *)
Definition sliceFrom (l : list StoredBatch) (o : Z) (data : bytes) : Prop :=
  exists before after m, l = before ++ after /\ data = take m (recordSet after) /\
    Forall (fun b => batchEnd b <= o) before.

(** ** Reading a slice of the log *)

Lemma recordSet_cut m l :
  exists j tail, take m (recordSet l) = recordSet (take j l) ++ tail /\
    (tail = [] \/ exists b k, l !! j = Some b /\ tail = take k (batchBytes b) /\ (k < length (batchBytes b))%nat).
Proof.
  revert m. induction l as [|b l IH]; intros m.
  { exists 0%nat, []. split; [apply take_nil|by left]. }
  change (recordSet (b :: l)) with (batchBytes b ++ recordSet l).
  destruct (decide (m < length (batchBytes b))%nat) as [Hm|Hm].
  - exists 0%nat, (take m (batchBytes b)). rewrite take_app_le by lia. split; [done|]. right. by exists b, m.
  - rewrite take_app_ge by lia. destruct (IH (m - length (batchBytes b))%nat) as (j & tail & -> & Ht).
    exists (S j), tail. split; [|exact Ht]. simpl take. change (recordSet (b :: take j l)) with (batchBytes b ++ recordSet (take j l)).
    by rewrite app_assoc.
Qed.

(** A batch that is cut after its length field is refused. *)
Lemma parseBatch_cut partition b k pre :
  batchOk b -> (k < length (batchBytes b))%nat -> 12 <= size (take k (batchBytes b)) ->
  size (pre ++ take k (batchBytes b)) < 2 ^ 62 ->
  (parseBatch partition (pre ++ take k (batchBytes b)) (size pre)).2 = RFalse.
Proof.
  intros [Hbase Hsz] Hk H12 Hs. destruct (size_batch b) as [Hs1 Hs2].
  set (recs := recordBytes 0 (sb_pairs b)) in *. set (tail := take k (batchBytes b)) in *.
  pose proof (size_nonneg recs). pose proof (size_nonneg pre).
  assert (tail = (digits 8 (sb_base b) ++ digits 4 (49 + size recs)) ++ drop 12 tail) as Htail.
  { rewrite <- (take_drop 12 tail) at 1. f_equal. subst tail. rewrite take_take.
    replace (12 `min` k)%nat with 12%nat by (unfold size in H12; rewrite length_take in H12; lia).
    unfold batchBytes. destruct (storedBatch_layout (sb_base b) (sb_ts b) (sb_pairs b)) as (crc & mid & _ & _ & ->).
    fold recs. rewrite take_app_le by done. rewrite take_ge by done.
    unfold i32. by rewrite wrapS_small by (try split; lia). }
  assert (size tail < 61 + size recs) as Hlt.
  { rewrite <- Hs2. subst tail. unfold size. rewrite length_take. lia. }
  rewrite Htail in *. generalize dependent (drop 12 tail). intros rest Htail Hlt H12 Hs. clear Htail.
  rewrite !size_app, !size_digits in Hlt. rewrite !size_app, !size_digits in Hs.
  rewrite <- (app_nil_r rest), <- !app_assoc.
  unfold parseBatch. unfold rbind at 1. rewrite (peeks_readBaseOffset (sb_base b) Hbase pre) by (rewrite !size_app, !size_digits; change (size []) with 0; lia).
  unfold rbind at 1.
  rewrite (app_assoc (digits 8 _)).
  pose proof (peeks_readInt32At (digits 8 (sb_base b)) (49 + size recs) ltac:(lia) pre (rest ++ [])) as Hp.
  rewrite size_digits in Hp. change (Z.of_nat 8) with 8 in Hp.
  rewrite Hp by (rewrite !size_app, !size_digits; change (size []) with 0; lia).
  unfold rbind at 1, advance at 1. unfold rbind at 1, getPos at 1. unfold rbind at 1, dataSize at 1.
  rewrite !size_app, !size_digits. change (size []) with 0.
  rewrite (u64_small (49 + size recs)) by (split; lia). pose proof (size_nonneg rest). rewrite (u64_small (size pre + 12)) by (split; lia).
  rewrite u64_small by (split; lia).
  match goal with |- context [?a <? ?c] => destruct (Z.ltb_spec a c) as [_|Hbad]; [done|lia] end.
Qed.

Lemma parse_slice partition l m :
  Forall batchOk l -> size (recordSet l) < 2 ^ 62 ->
  let data := take m (recordSet l) in
  let r := parseRecordSet (S (length data)) data partition in
  r = RFalse \/ exists j, r = RTrue (logRecords partition (take j l)).
Proof.
  intros Hok Hs data r. subst r. destruct (recordSet_cut m l) as (j & tail & Hcut & Htail). fold data in Hcut.
  assert (Forall batchOk (take j l)) as Hokj by (apply Forall_take, Hok).
  assert (size data < 2 ^ 62) as Hds by (subst data; unfold size in *; rewrite length_take; lia).
  assert (length (take j l) <= length data)%nat as Hlen.
  { rewrite Hcut, length_app. clear -l. induction (take j l) as [|b bs IH]; [apply Nat.le_0_l|].
    change (length (b :: bs)) with (S (length bs)).
    change (recordSet (b :: bs)) with (batchBytes b ++ recordSet bs). rewrite length_app.
    destruct (size_batch b) as [_ H]. pose proof (size_nonneg (recordBytes 0 (sb_pairs b))).
    assert (61 <= size (batchBytes b)) as H61 by lia. unfold size in H61. lia. }
  assert ((parseBatches (S (length data)) partition data 0).2 = RFalse \/
          exists i, (parseBatches (S (length data)) partition data 0).2 = RTrue (logRecords partition (take i l)))
    as Hmain.
  { pose proof (parseBatches_app (S (length data)) partition (take j l) [] tail Hokj) as Hp.
    cbn [app] in Hp. rewrite <- Hcut in Hp. change (size []) with 0 in Hp. rewrite Hp by (done || lia).
    set (fuel := (S (length data) - length (take j l))%nat). assert (fuel <> 0%nat) as Hfuel by (unfold fuel; lia).
    pose proof (size_nonneg (recordSet (take j l))). pose proof (size_nonneg tail).
    assert (size data = size (recordSet (take j l)) + size tail) as Hd by (by rewrite Hcut, size_app).
    set (at_ := size (recordSet (take j l))) in *.
    assert (parseBatches fuel partition data at_ = (at_, RTrue []) \/
            (parseBatches fuel partition data at_).2 = RFalse) as Hend.
    { destruct fuel as [|fuel]; [done|]. cbn [parseBatches]. unfold rbind, getPos, dataSize.
      rewrite u64_small by (split; lia). destruct (Z.leb_spec (at_ + 12) (size data)); cbn [negb]; [|by left].
      right. destruct Htail as [->|(b & k & Hb & -> & Hk)]; [change (size []) with 0 in *; lia|].
      assert (batchOk b) as Hbok by (rewrite Forall_forall in Hok; apply Hok; by eapply list_elem_of_lookup_2).
      pose proof (parseBatch_cut partition b k (recordSet (take j l)) Hbok Hk ltac:(lia)) as Hc.
      rewrite <- Hcut in Hc. specialize (Hc Hds). fold at_ in Hc.
      destruct (parseBatch partition data at_) as [pos r]. cbn [snd] in Hc. by subst r. }
    destruct Hend as [->|Hend]; [right; exists j; cbn [snd]; by rewrite app_nil_r|left].
    destruct (parseBatches fuel partition data at_) as [pos r]. cbn [snd] in Hend. by subst r. }
  unfold parseRecordSet. destruct data as [|x [|y rest]]; [right; exists 0%nat; done| |destruct x; exact Hmain].
  destruct x as [|x|x]; [right; exists 0%nat; done|exact Hmain|exact Hmain].
Qed.

(** ** Fetch v4 *)

Definition fetchRequest (topic : bytes) (maxWait minBytes maxBytes partitionMax : Z) (offsets : list (Z * Z))
  : bytes :=
  digits 4 (-1) ++ digits 4 maxWait ++ digits 4 minBytes ++ digits 4 maxBytes ++ [0] ++ digits 4 1 ++
  encStr topic ++
  encArray (fun po => digits 4 po.1 ++ digits 8 po.2 ++ digits 4 partitionMax) offsets.

Record FetchPart := mkFetchPart {
  fp_index : Z;
  fp_err : Z;
  fp_highWatermark : Z;
  fp_lastStable : Z;
  fp_aborted : list (Z * Z);
  fp_records : option bytes;
}.

Definition encAborted (a : Z * Z) : bytes := digits 8 a.1 ++ digits 8 a.2.

Definition encFetchPart (p : FetchPart) : bytes :=
  digits 4 (fp_index p) ++ digits 2 (fp_err p) ++ digits 8 (fp_highWatermark p) ++
  digits 8 (fp_lastStable p) ++ encArray encAborted (fp_aborted p) ++ encNullableBytes (fp_records p).

Definition fetchReply (throttle : Z) (topics : list (bytes * list FetchPart)) : bytes :=
  digits 4 throttle ++ encTopics encFetchPart topics.

(** Fields within the widths of the protocol. *)
Record partOk (p : FetchPart) : Prop := {
  po_index : - 2 ^ 31 <= fp_index p < 2 ^ 31;
  po_err : - 2 ^ 15 <= fp_err p < 2 ^ 15;
  po_hw : isI64 (fp_highWatermark p);
  po_lso : isI64 (fp_lastStable p);
  po_aborted : Z.of_nat (length (fp_aborted p)) < 2 ^ 31 /\
    Forall (fun a => isI64 a.1 /\ isI64 a.2) (fp_aborted p);
  po_records b : fp_records p = Some b -> size b < 2 ^ 31;
}.

Record replyOk (throttle : Z) (topics : list (bytes * list FetchPart)) : Prop := {
  ro_throttle : - 2 ^ 31 <= throttle < 2 ^ 31;
  ro_topics : topicsOk partOk topics;
  ro_size : size (fetchReply throttle topics) < 2 ^ 62;
}.

Record FetchLawful (topic : bytes) (offsets : list (Z * Z)) (log : Z -> list StoredBatch)
    (topics : list (bytes * list FetchPart)) : Prop := {
  fl_once : NoDup (fp_index <$> partsFor topic topics);
  fl_slice part data : part ∈ partsFor topic topics -> fp_err part = 0 -> fp_records part = Some data ->
    exists o, (fp_index part, o) ∈ offsets /\ sliceFrom (log (fp_index part)) o data;
}.

(** ** Reading a Fetch reply *)

(** What one partition of a reply means. *)
Definition fetchStep (topic name : bytes) (acc : Fetched) (p : FetchPart) : option Fetched :=
  if negb (bool_decide (name = topic)) then Some acc
  else if (fp_err p =? kErrOffsetOutOfRange) || (fp_err p =? kErrUnknownTopicOrPartition)
  then Some (mkFetchedAll (fe_byPartition acc) (fe_errPartitions acc ++ [fp_index p]))
  else if fp_err p =? 0 then
    match fp_records p with
    | None => Some acc
    | Some data =>
        match parseRecordSet (S (length data)) data (fp_index p) with
        | RTrue parsed =>
            Some (mkFetchedAll (<[fp_index p := default [] (fe_byPartition acc !! fp_index p) ++ parsed]>
                                  (fe_byPartition acc)) (fe_errPartitions acc))
        | _ => None
        end
    end
  else None.

(** The record set of the partition, when it is read, is read or refused. *)
Definition decidable_records (p : FetchPart) : Prop :=
  forall data, fp_err p = 0 -> fp_records p = Some data ->
    parseRecordSet (S (length data)) data (fp_index p) = RFalse \/
    exists recs, parseRecordSet (S (length data)) data (fp_index p) = RTrue recs.

Lemma gives_fetchedPartition topic name acc p :
  partOk p -> (name = topic -> decidable_records p) ->
  gives (readFetchedPartition topic name acc) (encFetchPart p) (fetchStep topic name acc p).
Proof.
  intros [Hi He Hh Hl [Ha1 Ha2] Hr] Hdec. unfold readFetchedPartition, encFetchPart.
  eapply gives_bind; [by apply reads_i32|]. eapply gives_bind; [by apply reads_i16|].
  eapply gives_bind; [by apply reads_i64|]. eapply gives_bind; [by apply reads_i64|].
  eapply gives_bind.
  { apply reads_skip; [done|]. intros x Hx. rewrite Forall_forall in Ha2. destruct (Ha2 x Hx) as [H1 H2].
    eapply reads_bind; [by apply reads_i64|]. eapply reads_map; [by apply reads_i64|apply reads_ret]. }
  rewrite <- (app_nil_r (encNullableBytes _)). eapply gives_bind; [by apply reads_nullableBytes|].
  unfold fetchStep. destruct (bool_decide_reflect (name = topic)) as [Hn|]; cbn [negb]; [|apply reads_ret].
  destruct (_ || _); [apply reads_ret|]. apply gives_require. intros He0%Z.eqb_eq.
  destruct (fp_records p) as [data|] eqn:Hd; [|apply reads_ret].
  destruct (Hdec Hn data He0 Hd) as [->|(recs & ->)].
  - intros pre post _. done.
  - intros pre post Hs. unfold rbind, rlift. by apply reads_ret.
Qed.

Lemma gives_readFetch topic throttle topics :
  replyOk throttle topics -> Forall decidable_records (partsFor topic topics) ->
  gives (readFetch topic) (fetchReply throttle topics)
    (ofold (fetchStep topic topic) (partsFor topic topics) (Some (mkFetchedAll ∅ []))).
Proof.
  intros [Ht Htop _] Hdec. eapply gives_bind; [by apply reads_i32|].
  apply (gives_topics (fetchStep topic)) with (ok := partOk); [|done|].
  - intros name a x Hn. unfold fetchStep. by rewrite bool_decide_eq_false_2.
  - intros name p acc Hok Hin. apply gives_fetchedPartition; [done|]. intros Hn.
    rewrite Forall_forall in Hdec. by apply Hdec, Hin.
Qed.

(** Where the records of a partition come from. *)
Definition fromPart (parts : list FetchPart) (p : Z) (recs : list FetchedRecord) : Prop :=
  exists part data, part ∈ parts /\ fp_index part = p /\ fp_err part = 0 /\ fp_records part = Some data /\
    parseRecordSet (S (length data)) data p = RTrue recs.

Lemma fetch_sources topic parts f :
  NoDup (fp_index <$> parts) -> ofold (fetchStep topic topic) parts (Some (mkFetchedAll ∅ [])) = Some f ->
  forall p recs, fe_byPartition f !! p = Some recs -> fromPart parts p recs.
Proof.
  revert f. induction parts as [|part parts IH] using rev_ind; intros f Hnd Hf p recs Hp.
  { injection Hf as <-. done. }
  rewrite ofold_app in Hf. rewrite fmap_app in Hnd. apply NoDup_app in Hnd as (Hnd & Hnew & _).
  destruct (ofold (fetchStep topic topic) parts _) as [g|] eqn:Hg; [|done]. specialize (IH g Hnd eq_refl).
  assert (fe_byPartition g !! p = Some recs -> fromPart (parts ++ [part]) p recs) as Hold.
  { intros H. destruct (IH _ _ H) as (pt & data & Hin & Hrest). exists pt, data. rewrite elem_of_app. auto. }
  change (fetchStep topic topic g part = Some f) in Hf. unfold fetchStep in Hf.
  rewrite bool_decide_eq_true_2 in Hf by done. cbn [negb] in Hf.
  destruct (_ || _); [injection Hf as <-; by apply Hold|].
  destruct (Z.eqb_spec (fp_err part) 0) as [He|]; [|done].
  destruct (fp_records part) as [data|] eqn:Hd; [|injection Hf as <-; by apply Hold].
  destruct (parseRecordSet _ _ _) as [parsed| | | |] eqn:Hparse; try done. injection Hf as <-. cbn in Hp.
  destruct (decide (p = fp_index part)) as [->|Hne]; [|rewrite lookup_insert_ne in Hp by done; by apply Hold].
  rewrite lookup_insert_eq in Hp. injection Hp as <-.
  destruct (fe_byPartition g !! fp_index part) as [old|] eqn:Hold'.
  - destruct (IH _ _ Hold') as (pt & d & Hin & Hix & _). exfalso. apply (Hnew (fp_index part)).
    + rewrite <- Hix. by apply list_elem_of_fmap_2.
    + apply list_elem_of_singleton. done.
  - exists part, data. rewrite elem_of_app, list_elem_of_singleton. auto.
Qed.

(** A partition that is started again delivered no records. *)
Lemma fetch_errors topic parts f :
  NoDup (fp_index <$> parts) -> ofold (fetchStep topic topic) parts (Some (mkFetchedAll ∅ [])) = Some f ->
  forall p, p ∈ fe_errPartitions f -> fe_byPartition f !! p = None.
Proof.
  intros Hnd Hf p Hp.
  assert (exists part, part ∈ parts /\ fp_index part = p /\ fp_err part <> 0) as (part & Hin & Hix & He).
  { clear Hnd. revert f Hf Hp. induction parts as [|part parts IH] using rev_ind; intros f Hf Hp.
    { injection Hf as <-. cbn in Hp. by apply elem_of_nil in Hp. }
    rewrite ofold_app in Hf. destruct (ofold (fetchStep topic topic) parts _) as [g|] eqn:Hg; [|done].
    assert (p ∈ fe_errPartitions g -> exists x, x ∈ parts ++ [part] /\ fp_index x = p /\ fp_err x <> 0) as Hold.
    { intros H. destruct (IH g eq_refl H) as (x & ? & ?). exists x. rewrite elem_of_app. auto. }
    change (fetchStep topic topic g part = Some f) in Hf. unfold fetchStep in Hf.
    rewrite bool_decide_eq_true_2 in Hf by done. cbn [negb] in Hf. destruct (_ || _) eqn:Herr.
    - injection Hf as <-. cbn in Hp. apply elem_of_app in Hp as [Hp|Hp%list_elem_of_singleton]; [by apply Hold|].
      exists part. rewrite elem_of_app, list_elem_of_singleton. split; [auto|]. split; [done|].
      intros H0. rewrite H0 in Herr. done.
    - destruct (fp_err part =? 0); [|done]. destruct (fp_records part); [|injection Hf as <-; by apply Hold].
      destruct (parseRecordSet _ _ _); try done. injection Hf as <-. by apply Hold. }
  destruct (fe_byPartition f !! p) as [recs|] eqn:Hrecs; [|done]. exfalso.
  destruct (fetch_sources topic parts f Hnd Hf p recs Hrecs) as (part' & data & Hin' & Hix' & He' & _).
  apply list_elem_of_lookup_1 in Hin as [i Hi]. apply list_elem_of_lookup_1 in Hin' as [i' Hi'].
  assert (i = i') as <-; [|congruence].
  apply (NoDup_lookup _ _ _ p Hnd); rewrite list_lookup_fmap; [by rewrite Hi, <- Hix|by rewrite Hi', <- Hix'].
Qed.

(** Reading a lawful reply: every partition gets records of its log, without a gap
    from the requested offset on. *)
Lemma readFetch_lawful topic offsets log throttle topics :
  (forall p, logOk (log p)) -> replyOk throttle topics -> FetchLawful topic offsets log topics ->
  match (readFetch topic (fetchReply throttle topics) 0).2 with
  | RTrue f =>
      (forall p, p ∈ fe_errPartitions f -> fe_byPartition f !! p = None) /\
      forall p recs, fe_byPartition f !! p = Some recs ->
        exists o before after j, (p, o) ∈ offsets /\ log p = before ++ after /\
          Forall (fun b => batchEnd b <= o) before /\ recs = logRecords p (take j after)
  | RFalse => True
  | _ => False
  end.
Proof.
  intros Hlog Hok [Hnd Hsl].
  assert (forall part data, part ∈ partsFor topic topics -> fp_err part = 0 -> fp_records part = Some data ->
    exists o before after, (fp_index part, o) ∈ offsets /\ log (fp_index part) = before ++ after /\
      Forall (fun b => batchEnd b <= o) before /\
      (parseRecordSet (S (length data)) data (fp_index part) = RFalse \/
       exists j, parseRecordSet (S (length data)) data (fp_index part) =
         RTrue (logRecords (fp_index part) (take j after)))) as Hpart.
  { intros part data H1 H2 H3. destruct (Hsl part data H1 H2 H3) as (o & Ho & before & after & m & Hl & -> & Hb).
    exists o, before, after. split; [done|]. split; [done|]. split; [done|].
    destruct (Hlog (fp_index part)) as [Hbs _ Hsz]. rewrite Hl in Hbs, Hsz. apply Forall_app in Hbs as [_ Hbs].
    apply parse_slice; [eapply Forall_impl; [exact Hbs|by intros b [? _]]|].
    unfold recordSet in *. rewrite map_app, concat_app, size_app in Hsz.
    pose proof (size_nonneg (concat (map batchBytes before))). lia. }
  pose proof (gives_readFetch topic throttle topics Hok) as Hg.
  assert (Forall decidable_records (partsFor topic topics)) as Hdec.
  { rewrite Forall_forall. intros part Hin data He Hd.
    destruct (Hpart part data Hin He Hd) as (o & be & af & _ & _ & _ & [?|(j & ?)]); eauto. }
  specialize (Hg Hdec). destruct (ofold _ _ _) as [f|] eqn:Hf; cbn [gives] in Hg.
  - specialize (Hg [] []). cbn [app] in Hg. rewrite app_nil_r in Hg. change (size []) with 0 in Hg.
    rewrite Hg by apply Hok. cbn [snd]. split; [by eapply fetch_errors|]. intros p recs Hp.
    destruct (fetch_sources topic _ f Hnd Hf p recs Hp) as (part & data & Hin & <- & He & Hd & Hparse).
    destruct (Hpart part data Hin He Hd) as (o & before & after & ? & ? & ? & [Hbad|(j & Hj)]); [congruence|].
    exists o, before, after, j. rewrite Hparse in Hj. by injection Hj as ->.
  - specialize (Hg [] []). cbn [app] in Hg. rewrite app_nil_r in Hg. change (size []) with 0 in Hg.
    by rewrite Hg by apply Hok.
Qed.

(** ** OffsetFetch v2 and OffsetCommit v2 *)

Definition offsetFetchRequest (group topic : bytes) (parts : list Z) : bytes :=
  encStr group ++ digits 4 1 ++ encStr topic ++ encArray (digits 4) parts.

Record OffsetPart := mkOffsetPart {
  op_index : Z;
  op_offset : Z;
  op_metadata : option bytes;
  op_err : Z;
}.

Definition encNullableStr (o : option bytes) : bytes :=
  match o with Some s => encStr s | None => digits 2 (-1) end.

Definition encOffsetPart (p : OffsetPart) : bytes :=
  digits 4 (op_index p) ++ digits 8 (op_offset p) ++ encNullableStr (op_metadata p) ++ digits 2 (op_err p).

Definition offsetFetchReply (topics : list (bytes * list OffsetPart)) (topLevelError : Z) : bytes :=
  encTopics encOffsetPart topics ++ digits 2 topLevelError.

Record offsetPartOk (p : OffsetPart) : Prop := {
  oo_index : - 2 ^ 31 <= op_index p < 2 ^ 31;
  oo_offset : isI64 (op_offset p);
  oo_metadata s : op_metadata p = Some s -> size s < 2 ^ 15;
  oo_err : - 2 ^ 15 <= op_err p < 2 ^ 15;
}.

Record offsetReplyOk (topics : list (bytes * list OffsetPart)) (topLevelError : Z) : Prop := {
  of_topics : topicsOk offsetPartOk topics;
  of_err : - 2 ^ 15 <= topLevelError < 2 ^ 15;
  of_size : size (offsetFetchReply topics topLevelError) < 2 ^ 62;
}.

Definition offsetStep (topic name : bytes) (out : gmap Z Z) (p : OffsetPart) : option (gmap Z Z) :=
  Some (if bool_decide (name = topic) then <[op_index p := if op_err p =? 0 then op_offset p else -1]> out else out).

Lemma reads_nullableStr_option o :
  (forall s, o = Some s -> size s < 2 ^ 15) -> reads ByteReader.nullableStr (encNullableStr o) o.
Proof. intros Ho. destruct o as [s|]; [exact (reads_nullableStr s (Ho s eq_refl))|exact reads_null]. Qed.

Lemma gives_readOffsetFetch topic topics topLevelError :
  offsetReplyOk topics topLevelError ->
  gives (readOffsetFetch topic) (offsetFetchReply topics topLevelError)
    (ofold (offsetStep topic topic) (partsFor topic topics) (Some ∅) ≫=
     fun out => if topLevelError =? 0 then Some out else None).
Proof.
  intros [Htop He _]. apply gives_bind_option.
  - apply (gives_topics (offsetStep topic)) with (ok := offsetPartOk); [|done|].
    + intros name a x Hn. unfold offsetStep. by rewrite bool_decide_eq_false_2.
    + intros name p out [H1 H2 H3 H4] _. unfold offsetStep, encOffsetPart.
      eapply reads_bind; [by apply reads_i32|]. eapply reads_bind; [by apply reads_i64|].
      eapply reads_bind; [by apply reads_nullableStr_option|]. eapply reads_map; [by apply reads_i16|apply reads_ret].
  - intros out _. rewrite <- (app_nil_r (digits 2 _)).
    apply (gives_bind (rtry ByteReader.i16) _ _ _ (Some topLevelError)).
    + intros pre post Hs. unfold rtry. by rewrite (reads_i16 topLevelError He pre post Hs).
    + apply gives_require. intros _. apply reads_ret.
Qed.

(** The offsets that are read are offsets of the reply. *)
Lemma readOffsetFetch_lawful topic topics topLevelError :
  offsetReplyOk topics topLevelError ->
  match (readOffsetFetch topic (offsetFetchReply topics topLevelError) 0).2 with
  | RTrue m => forall p v, m !! p = Some v -> isI64 v /\ (0 <= v ->
      exists part, part ∈ partsFor topic topics /\ op_index part = p /\ op_err part = 0 /\ op_offset part = v)
  | RFalse => True
  | _ => False
  end.
Proof.
  intros Hok. pose proof (gives_readOffsetFetch topic topics topLevelError Hok) as Hg.
  destruct (ofold (offsetStep topic topic) (partsFor topic topics) (Some ∅)) as [m|] eqn:Hm;
    cbn [mbind option_bind gives] in Hg.
  2:{ specialize (Hg [] []). cbn [app] in Hg. rewrite app_nil_r in Hg. change (size []) with 0 in Hg.
      by rewrite Hg by apply Hok. }
  assert (Forall offsetPartOk (partsFor topic topics)) as Hparts.
  { destruct Hok as [[_ Hall] _ _]. rewrite Forall_forall in Hall. unfold partsFor. rewrite Forall_concat.
    apply Forall_map, Forall_forall. intros t Ht. destruct (bool_decide _); [by apply Hall|constructor]. }
  assert (forall p v, m !! p = Some v -> isI64 v /\ (0 <= v ->
    exists part, part ∈ partsFor topic topics /\ op_index part = p /\ op_err part = 0 /\ op_offset part = v)) as Hsrc.
  { clear Hg. revert m Hm. induction (partsFor topic topics) as [|part parts IH] using rev_ind; intros m Hm p v Hp.
    { injection Hm as <-. done. }
    rewrite ofold_app in Hm. destruct (ofold (offsetStep topic topic) parts _) as [g|] eqn:Hgg; [|done].
    apply Forall_app in Hparts as [Hparts Hpart]. apply Forall_singleton in Hpart as [_ Ho _ _].
    change (offsetStep topic topic g part = Some m) in Hm. unfold offsetStep in Hm.
    rewrite bool_decide_eq_true_2 in Hm by done. injection Hm as <-.
    destruct (decide (p = op_index part)) as [->|Hne].
    - rewrite lookup_insert_eq in Hp. injection Hp as <-.
      destruct (Z.eqb_spec (op_err part) 0); [|split; [unfold isI64; lia|lia]]. split; [done|]. intros _.
      exists part. rewrite elem_of_app, list_elem_of_singleton. auto.
    - rewrite lookup_insert_ne in Hp by done. destruct (IH Hparts g eq_refl p v Hp) as [? Hx]. split; [done|].
      intros Hv. destruct (Hx Hv) as (x & ? & ?). exists x. rewrite elem_of_app. auto. }
  destruct (topLevelError =? 0); cbn [gives] in Hg; specialize (Hg [] []); cbn [app] in Hg;
    rewrite app_nil_r in Hg; change (size []) with 0 in Hg; by rewrite Hg by apply Hok.
Qed.

(** ** ListOffsets v1 *)

Definition listOffsetsRequest (topic : bytes) (timestamp : Z) (parts : list Z) : bytes :=
  digits 4 (-1) ++ digits 4 1 ++ encStr topic ++ encArray (fun p => digits 4 p ++ digits 8 timestamp) parts.

Record ListedPart := mkListedPart {
  lp_index : Z;
  lp_err : Z;
  lp_timestamp : Z;
  lp_offset : Z;
}.

Definition encListedPart (p : ListedPart) : bytes :=
  digits 4 (lp_index p) ++ digits 2 (lp_err p) ++ digits 8 (lp_timestamp p) ++ digits 8 (lp_offset p).

Definition listReply (topics : list (bytes * list ListedPart)) : bytes := encTopics encListedPart topics.

Record listedPartOk (p : ListedPart) : Prop := {
  li_index : - 2 ^ 31 <= lp_index p < 2 ^ 31;
  li_err : - 2 ^ 15 <= lp_err p < 2 ^ 15;
  li_timestamp : isI64 (lp_timestamp p);
  li_offset : isI64 (lp_offset p);
}.

Record listReplyOk (topics : list (bytes * list ListedPart)) : Prop := {
  lr_topics : topicsOk listedPartOk topics;
  lr_size : size (listReply topics) < 2 ^ 62;
}.

Definition listedStep (topic name : bytes) (out : gmap Z Z) (p : ListedPart) : option (gmap Z Z) :=
  if bool_decide (name = topic) then if lp_err p =? 0 then Some (<[lp_index p := lp_offset p]> out) else None
  else Some out.

Lemma gives_readListOffsets topic topics :
  listReplyOk topics ->
  gives (readListOffsets topic) (listReply topics)
    (ofold (listedStep topic topic) (partsFor topic topics) (Some ∅)).
Proof.
  intros [Htop _]. apply (gives_topics (listedStep topic)) with (ok := listedPartOk); [|done|].
  - intros name a x Hn. unfold listedStep. by rewrite bool_decide_eq_false_2.
  - intros name p out [H1 H2 H3 H4] _. unfold listedStep, encListedPart, readListedOffset.
    eapply gives_bind; [by apply reads_i32|]. eapply gives_bind; [by apply reads_i16|].
    eapply gives_bind; [by apply reads_i64|]. rewrite <- (app_nil_r (digits 8 (lp_offset p))).
    eapply gives_bind; [by apply reads_i64|]. destruct (bool_decide _); [|apply reads_ret].
    apply gives_require. intros _. apply reads_ret.
Qed.

(** The offsets that are read are offsets of the reply. *)
Lemma readListOffsets_lawful topic topics :
  listReplyOk topics ->
  match (readListOffsets topic (listReply topics) 0).2 with
  | RTrue m => forall p v, m !! p = Some v ->
      exists part, part ∈ partsFor topic topics /\ lp_index part = p /\ lp_err part = 0 /\ lp_offset part = v
  | RFalse => True
  | _ => False
  end.
Proof.
  intros Hok. pose proof (gives_readListOffsets topic topics Hok) as Hg.
  destruct (ofold (listedStep topic topic) (partsFor topic topics) (Some ∅)) as [m|] eqn:Hm; cbn [gives] in Hg;
    specialize (Hg [] []); cbn [app] in Hg; rewrite app_nil_r in Hg; change (size []) with 0 in Hg;
    rewrite Hg by apply Hok; [cbn [snd]; clear Hg|done].
  revert m Hm. induction (partsFor topic topics) as [|part parts IH] using rev_ind; intros m Hm p v Hp.
  { by injection Hm as <-. }
  rewrite ofold_app in Hm. destruct (ofold (listedStep topic topic) parts _) as [g|] eqn:Hgg; [|done].
  change (listedStep topic topic g part = Some m) in Hm. unfold listedStep in Hm.
  rewrite bool_decide_eq_true_2 in Hm by done. destruct (Z.eqb_spec (lp_err part) 0) as [He|]; [|done].
  injection Hm as <-. destruct (decide (p = lp_index part)) as [->|Hne].
  - rewrite lookup_insert_eq in Hp. injection Hp as <-. exists part. rewrite elem_of_app, list_elem_of_singleton. auto.
  - rewrite lookup_insert_ne in Hp by done. destruct (IH g eq_refl p v Hp) as (x & ? & ?).
    exists x. rewrite elem_of_app. auto.
Qed.

Definition commitRequest (group topic : bytes) (items : list (Z * Z)) : bytes :=
  encStr group ++ digits 4 (-1) ++ encStr [] ++ digits 8 (-1) ++ digits 4 1 ++ encStr topic ++
  encArray (fun it => digits 4 it.1 ++ digits 8 it.2 ++ digits 2 (-1)) items.

(** ** Requests as the code writes them *)

Lemma byteOf_wrapS w v k : 0 <= k -> k + 8 <= w -> byteOf (wrapS w v) k = byteOf v k.
Proof.
  intros Hk Hw. rewrite !byteOf_div by done. unfold wrapS.
  set (q := (v + 2 ^ (w - 1)) / 2 ^ w).
  assert ((v + 2 ^ (w - 1)) mod 2 ^ w - 2 ^ (w - 1) = v + (- (q * 2 ^ (w - k - 8)) * 256) * 2 ^ k) as ->.
  { rewrite Z.mod_eq by (apply Z.pow_nonzero; lia). fold q.
    assert (2 ^ w = 2 ^ (w - k - 8) * 256 * 2 ^ k) as ->; [|ring].
    change 256 with (2 ^ 8). rewrite <- !Z.pow_add_r by lia. f_equal. lia. }
  rewrite Z.div_add by (apply Z.pow_nonzero; lia). by rewrite Z_mod_plus_full.
Qed.

Lemma digits_i32 v : digits 4 (i32 v) = digits 4 v.
Proof. unfold i32. cbn [digits]. by rewrite !byteOf_wrapS by lia. Qed.

Lemma write_i32 v b : ByteWriter.i32 v b = b ++ digits 4 v.
Proof. reflexivity. Qed.

Lemma write_i64 v b : ByteWriter.i64 v b = b ++ digits 8 v.
Proof. reflexivity. Qed.

Lemma write_str s b : size s < 2 ^ 15 -> ByteWriter.str s b = b ++ encStr s.
Proof.
  intros Hs. pose proof (size_nonneg s). unfold ByteWriter.str, ByteWriter.append, encStr.
  rewrite wrapS_small by (try split; lia). rewrite app_assoc. reflexivity.
Qed.

Lemma write_null b : ByteWriter.nullableStrNull b = b ++ digits 2 (-1).
Proof. reflexivity. Qed.

Lemma write_all {X} (f : bytes -> X -> bytes) (enc : X -> bytes) xs b :
  (forall b x, f b x = b ++ enc x) -> foldl f b xs = b ++ concat (map enc xs).
Proof.
  intros Hf. revert b. induction xs as [|x xs IH]; intros b; cbn [foldl map concat]; [by rewrite app_nil_r|].
  rewrite IH, Hf. by rewrite <- app_assoc.
Qed.

(** ** The broker

    [requested]: the offsets some request has asked to commit for the group.  A
    request may take effect even when its reply is lost.  [logStart]: where the log
    of a partition begins; no record is stored before it, and it is the offset that
    ListOffsets answers for the timestamp -2. *)

Class Broker (N : Type) `{!Transport N} (topic group : bytes) := {
  logOf : N -> Z -> list StoredBatch;
  requested : N -> list (Z * Z);
  logStart : Z -> Z;
  log_ok n p : logOk (logOf n p);
  log_start n p b : b ∈ logOf n p -> logStart p <= sb_base b;
  evolves_to (n n' : N) : Prop :=
    (forall p, logOf n p `prefix_of` logOf n' p) /\ (forall it, it ∈ requested n' -> it ∈ requested n);
  steadyNow_evolves n : evolves_to n (steadyNow n).1;
  pause_evolves ms n : evolves_to n (pause ms n);
  connectTo_evolves h q t n : evolves_to n (connectTo h q t n).1;
  recvResponse_evolves i t n : evolves_to n (recvResponse i t n).1;
  disconnect_evolves n : evolves_to n (disconnect n);
  sendRequest_evolves k v c b i t n : k <> 8 -> evolves_to n (sendRequest k v c b i t n).1;
  commit_evolves v c i t items n :
    Forall (fun it => in32 it.1 /\ isI64 it.2) items ->
    let n' := (sendRequest 8 v c (commitRequest group topic items) i t n).1 in
    (forall p, logOf n p `prefix_of` logOf n' p) /\
    (forall it, it ∈ requested n' -> it ∈ requested n \/ it ∈ items);
  fetch_ok clientId corr t t' maxWait minBytes maxBytes partitionMax offsets n n1 n2 resp :
    Forall (fun po => in32 po.1 /\ isI64 po.2) offsets ->
    sendRequest 1 4 clientId (fetchRequest topic maxWait minBytes maxBytes partitionMax offsets) corr t n
      = (n1, true) ->
    recvResponse corr t' n1 = (n2, Some resp) ->
    exists throttle topics, resp = fetchReply throttle topics /\ replyOk throttle topics /\
      FetchLawful topic offsets (logOf n2) topics;
  offsetFetch_ok clientId corr t t' parts n n1 n2 resp :
    sendRequest 9 2 clientId (offsetFetchRequest group topic parts) corr t n = (n1, true) ->
    recvResponse corr t' n1 = (n2, Some resp) ->
    exists topics topLevelError, resp = offsetFetchReply topics topLevelError /\
      offsetReplyOk topics topLevelError /\
      forall part, part ∈ partsFor topic topics -> op_err part = 0 -> 0 <= op_offset part ->
        (op_index part, op_offset part) ∈ requested n2;
  listEarliest_ok clientId corr t t' parts n n1 n2 resp :
    sendRequest 2 1 clientId (listOffsetsRequest topic (-2) parts) corr t n = (n1, true) ->
    recvResponse corr t' n1 = (n2, Some resp) ->
    exists topics, resp = listReply topics /\ listReplyOk topics /\
      forall part, part ∈ partsFor topic topics -> lp_err part = 0 -> lp_offset part = logStart (lp_index part);
}.
