(* ===== verification/KafkaConsumer.v ===== *)
(** * The Kafka event consumer (chatserver/src/app/KafkaEventConsumer.cpp)

    [poll] connects, discovers partitions and offsets, fetches one batch, disposes
    of its records one by one and commits.  Broker and clock are a [Transport],
    handler and hook are arguments.  The result structure is part of the state, as
    the code's [result] is alive in its [catch (...)].  Three fields of [Impl] are
    for the record only: [im_origins], the earliest offsets at which partitions
    were started, [im_asked], the offsets whose commit was requested, and
    [im_trace], what was done with each record. *)

From S2P Require Import Prelude DomainTypes Metrics Store World Json Relay Bytes KafkaWire KafkaClient KafkaReplies.

Open Scope Z_scope.
Open Scope eff_scope.

(** What ends a call besides returning: an exception of the program, or undefined
    behaviour, which nothing catches. *)
Inductive kexn :=
| KExn (x : exn)
| KUndefined.

Definition kClientId : bytes := bytesOf "muduo-consumer".
Definition kFetchMaxWaitMs : Z := 300.
Definition kFetchMinBytes : Z := 1.
Definition kPartitionMaxBytes : Z := 2 ^ 20.
Definition kIdleRetrySleepMs : Z := 50.
Definition kSeenConversationsCapacity : Z := 100.

Definition clampTimeout (t : Z) : Z := if t <? 1 then 1 else t.

(** The arguments of the constructor. *)
Record ConsumerConfig := mkConsumerConfig {
  kc_host : string;
  kc_port : Z;
  kc_topic : string;
  kc_groupId : string;
  kc_fetchBatchLimit : Z;
  kc_deadlineMs : Z;
  kc_seenConversationsCapacity : Z;
}.

(** The constructor replaces a batch limit and a capacity of zero. *)
Definition makeConfig (host : string) (port : Z) (topic groupId : string)
    (fetchBatchLimit deadlineMs seenConversationsCapacity : Z) : ConsumerConfig :=
  mkConsumerConfig host port topic groupId
    (if 0 <? fetchBatchLimit then fetchBatchLimit else 1) deadlineMs
    (if 0 <? seenConversationsCapacity then seenConversationsCapacity else kSeenConversationsCapacity).

Inductive ConsumeEvent :=
| EvHandled (r : ConsumedOutboxRecord) (d : ConsumeDisposition)
| EvDead (r : ConsumedOutboxRecord) (dlr : DeadLetterRecord)
| EvDuplicate (r : ConsumedOutboxRecord).

Record Impl := mkImpl {
  im_connected : bool;
  im_correlation : Z;
  im_assigned : bool;
  im_partitions : list Z;
  im_cursor : gmap Z Z;
  lastSeen : gmap Z (Z * Z);
  seenMessages : gmap Z (gset Z);
  conversationOrder : list Z;
  highWatermark : gmap Z Z;
  consumerLag : Z;
  rebalanceCount : Z;
  im_origins : list (Z * Z);
  im_asked : list (Z * Z);
  im_trace : list ConsumeEvent;
}.

Definition newImpl : Impl := mkImpl false 0 false [] ∅ ∅ ∅ [] ∅ 0 0 [] [] [].

Definition set_connected (b : bool) (s : Impl) : Impl :=
  mkImpl b (im_correlation s) (im_assigned s) (im_partitions s) (im_cursor s) (lastSeen s)
    (seenMessages s) (conversationOrder s) (highWatermark s) (consumerLag s) (rebalanceCount s)
    (im_origins s) (im_asked s) (im_trace s).

Definition set_correlation (c : Z) (s : Impl) : Impl :=
  mkImpl (im_connected s) c (im_assigned s) (im_partitions s) (im_cursor s) (lastSeen s)
    (seenMessages s) (conversationOrder s) (highWatermark s) (consumerLag s) (rebalanceCount s)
    (im_origins s) (im_asked s) (im_trace s).

Definition set_partitions (ps : list Z) (s : Impl) : Impl :=
  mkImpl (im_connected s) (im_correlation s) (im_assigned s) ps (im_cursor s) (lastSeen s)
    (seenMessages s) (conversationOrder s) (highWatermark s) (consumerLag s) (rebalanceCount s)
    (im_origins s) (im_asked s) (im_trace s).

(** A cursor that was set from the broker. *)
Definition restart_at (p off : Z) (fallback : bool) (s : Impl) : Impl :=
  mkImpl (im_connected s) (im_correlation s) (im_assigned s) (im_partitions s)
    (<[p := off]> (im_cursor s)) (lastSeen s) (seenMessages s) (conversationOrder s) (highWatermark s)
    (consumerLag s) (if fallback then u64 (rebalanceCount s + 1) else rebalanceCount s)
    (if fallback then im_origins s ++ [(p, off)] else im_origins s) (im_asked s) (im_trace s).

(** A cursor that follows a commit. *)
Definition advance_to (p off : Z) (s : Impl) : Impl :=
  mkImpl (im_connected s) (im_correlation s) (im_assigned s) (im_partitions s)
    (<[p := off]> (im_cursor s)) (lastSeen s) (seenMessages s) (conversationOrder s) (highWatermark s)
    (consumerLag s) (rebalanceCount s) (im_origins s) (im_asked s) (im_trace s).

Definition set_assigned (latest : gmap Z Z) (lag : Z) (s : Impl) : Impl :=
  mkImpl (im_connected s) (im_correlation s) true (im_partitions s) (im_cursor s) (lastSeen s)
    (seenMessages s) (conversationOrder s) latest lag (rebalanceCount s) (im_origins s) (im_asked s) (im_trace s).

Definition set_seen (l : gmap Z (Z * Z)) (m : gmap Z (gset Z)) (o : list Z) (s : Impl) : Impl :=
  mkImpl (im_connected s) (im_correlation s) (im_assigned s) (im_partitions s) (im_cursor s) l m o
    (highWatermark s) (consumerLag s) (rebalanceCount s) (im_origins s) (im_asked s) (im_trace s).

Definition note (e : ConsumeEvent) (s : Impl) : Impl :=
  mkImpl (im_connected s) (im_correlation s) (im_assigned s) (im_partitions s) (im_cursor s)
    (lastSeen s) (seenMessages s) (conversationOrder s) (highWatermark s) (consumerLag s)
    (rebalanceCount s) (im_origins s) (im_asked s) (im_trace s ++ [e]).

Definition ask (items : list (Z * Z)) (s : Impl) : Impl :=
  mkImpl (im_connected s) (im_correlation s) (im_assigned s) (im_partitions s) (im_cursor s)
    (lastSeen s) (seenMessages s) (conversationOrder s) (highWatermark s) (consumerLag s)
    (rebalanceCount s) (im_origins s) (im_asked s ++ items) (im_trace s).

Definition touchConversation (capacity conversationId : Z) (s : Impl) : Impl :=
  match lastSeen s !! conversationId with
  | Some _ => s
  | None =>
      let s := if capacity <=? Z.of_nat (length (conversationOrder s))
               then match conversationOrder s with
                    | oldest :: rest =>
                        set_seen (delete oldest (lastSeen s)) (delete oldest (seenMessages s)) rest s
                    | [] => s
                    end
               else s in
      set_seen (lastSeen s) (seenMessages s) (conversationOrder s ++ [conversationId]) s
  end.

Record OutboxConsumeResult := mkConsumeResult {
  rs_records : list ConsumedOutboxRecord;
  rs_dispositions : list ConsumeDisposition;
  rs_processed : bool;
  rs_offsetCommitted : bool;
  rs_committedThrough : gmap Z Z;
  rs_brokerOk : bool;
}.

Definition emptyResult : OutboxConsumeResult := mkConsumeResult [] [] false false ∅ true.

Definition set_brokerOk (b : bool) (r : OutboxConsumeResult) : OutboxConsumeResult :=
  mkConsumeResult (rs_records r) (rs_dispositions r) (rs_processed r) (rs_offsetCommitted r)
    (rs_committedThrough r) b.

Definition set_processed (b : bool) (r : OutboxConsumeResult) : OutboxConsumeResult :=
  mkConsumeResult (rs_records r) (rs_dispositions r) b (rs_offsetCommitted r)
    (rs_committedThrough r) (rs_brokerOk r).

Definition push_record (rec : ConsumedOutboxRecord) (d : ConsumeDisposition) (r : OutboxConsumeResult)
  : OutboxConsumeResult :=
  mkConsumeResult (rs_records r ++ [rec]) (rs_dispositions r ++ [d]) (rs_processed r)
    (rs_offsetCommitted r) (rs_committedThrough r) (rs_brokerOk r).

Definition set_committed (c : gmap Z Z) (r : OutboxConsumeResult) : OutboxConsumeResult :=
  mkConsumeResult (rs_records r) (rs_dispositions r) (rs_processed r)
    (negb (bool_decide (c = ∅))) c (rs_brokerOk r).

(** What [catch (...)] leaves. *)
Definition afterException (r : OutboxConsumeResult) : OutboxConsumeResult :=
  mkConsumeResult (rs_records r) (rs_dispositions r) false false ∅ (rs_brokerOk r).

(** ** The envelope *)

Section envelope.
Context `{!JsonLib}.

(** Every integer without a sign is unsigned; the text -0 is taken for 0. *)
Definition is_number_unsigned (j : Json) : bool := match j with JInt z => 0 <=? z | _ => false end.

Definition unsignedField (k : string) (env : Json) : option Z :=
  match jfield k env with
  | Some (JInt z) => if is_number_unsigned (JInt z) then Some (u64 z) else None
  | _ => None
  end.

Definition stringField (k : string) (env : Json) : option string :=
  match jfield k env with Some (JStr s) => Some s | _ => None end.

Definition is_object (j : Json) : bool := match j with JObj _ => true | _ => false end.

Record Envelope := mkEnvelope {
  en_messageId : Z;
  en_conversationId : Z;
  en_sequence : Z;
  en_eventType : string;
  en_payload : string;
}.

(** [envelopeOk] with the fields that are then read. *)
Definition readEnvelope (env : option Json) : option Envelope :=
  env ← env;
  m ← unsignedField "message_id" env;
  c ← unsignedField "conversation_id" env;
  q ← unsignedField "sequence" env;
  t ← stringField "event_type" env;
  p ← stringField "payload" env;
  inner ← json_parse p;
  if is_object inner then Some (mkEnvelope m c q t p) else None.

(** The identity that is kept of an envelope that is not ok. *)
Definition poisonedId (env : option Json) : Z :=
  default 0 (env ← env; unsignedField "message_id" env).
End envelope.

(** ** The state of a poll *)

Record KWorld (St E N : Type) := mkK {
  k_world : World St E;
  k_net : N;
  k_impl : Impl;
  k_result : OutboxConsumeResult;
}.
Arguments mkK {St E N}.
Arguments k_world {St E N}.
Arguments k_net {St E N}.
Arguments k_impl {St E N}.
Arguments k_result {St E N}.

Section consumer.
Context {St E N : Type} `{!MessageStore St, !Env E, !Transport N, !JsonLib}.
Context (cfg : ConsumerConfig).
Context (handler : ConsumedOutboxRecord -> eff exn (World St E) ConsumeDisposition).
Context (preCommitHook : option (eff exn (World St E) unit)).

Notation K := (KWorld St E N).
Notation keff := (eff kexn K).

Definition onWorld {A} (m : eff exn (World St E) A) : keff A :=
  fun k => let '(w, o) := m (k_world k) in
    (mkK w (k_net k) (k_impl k) (k_result k),
     match o with Ret a => Ret a | Throw x => Throw (KExn x) end).

Definition onNet {A} (f : N -> N * A) : keff A :=
  fun k => let '(n, a) := f (k_net k) in (mkK (k_world k) n (k_impl k) (k_result k), Ret a).

Definition impl {A} (f : Impl -> A) : keff A := gets (fun k => f (k_impl k)).

Definition setImpl (f : Impl -> Impl) : keff unit :=
  modify (fun k => mkK (k_world k) (k_net k) (f (k_impl k)) (k_result k)).

Definition setResult (f : OutboxConsumeResult -> OutboxConsumeResult) : keff unit :=
  modify (fun k => mkK (k_world k) (k_net k) (k_impl k) (f (k_result k))).

(** [catch (...)] *)
Definition catchK {A} (m h : keff A) : keff A :=
  catch m (fun x => match x with
                    | KExn Diverges => throw (KExn Diverges)
                    | KUndefined => throw KUndefined
                    | KExn _ => h
                    end).

(** A reply: [None] when the reader fails. *)
Definition runReader {A} (m : rd A) (data : bytes) : keff (option A) :=
  match (m data 0).2 with
  | RTrue a => ret (Some a)
  | RFalse => ret None
  | RUndefined => throw KUndefined
  | ROutOfRange => throw (KExn OtherException)
  | ROutOfFuel => throw (KExn Diverges)
  end.

Definition topic : bytes := bytesOf (kc_topic cfg).

(** ** Requests *)

Definition remainingMs (deadlineMs : Z) : keff Z :=
  now <- onNet steadyNow ;; ret (i64 (deadlineMs - now)).

Definition closeConnection : keff unit :=
  onNet (fun n => (disconnect n, tt)) ;;; setImpl (set_connected false).

Definition requestRpc (apiKey apiVersion : Z) (body : bytes) (timeoutMs : Z) : keff (option bytes) :=
  corr <- impl im_correlation ;;
  setImpl (set_correlation (i32 (corr + 1))) ;;;
  let t := clampTimeout timeoutMs in
  sent <- onNet (sendRequest apiKey apiVersion kClientId body corr t) ;;
  resp <- (if (sent : bool) then onNet (recvResponse corr t) else ret None) ;;
  match resp with
  | Some r => ret (Some r)
  | None => closeConnection ;;; ret None
  end.

(** A request whose reply is read by [m]. *)
Definition call {A} (apiKey apiVersion : Z) (body : bytes) (timeoutMs : Z) (m : rd A) : keff (option A) :=
  resp <- requestRpc apiKey apiVersion body timeoutMs ;;
  match resp with
  | Some r => runReader m r
  | None => ret None
  end.

Definition metadataBody : bytes := ByteWriter.str topic (ByteWriter.i32 1 []).

(** [for (;;)]: a round that does not answer ends with a pause of 50 ms, and a
    round after the deadline answers. *)
Fixpoint metadataPartitions (rounds : nat) (dl : Z) : keff (option (list Z)) :=
  match rounds with
  | O => throw (KExn Diverges)
  | S r =>
      remain <- remainingMs dl ;;
      reply <- call 3 1 metadataBody remain (readMetadata topic) ;;
      match reply with
      | None => ret None
      | Some a =>
          if as_found a && as_ready a && negb (Nat.eqb (length (as_parts a)) 0)
          then ret (Some (merge_sort Z.le (as_parts a)))
          else if negb (as_found a) || negb (as_ready a) then
            remain <- remainingMs dl ;;
            if remain <=? 0 then ret None
            else onNet (fun n => (pause kIdleRetrySleepMs n, tt)) ;;; metadataPartitions r dl
          else ret None
      end
  end.

Definition writePartitions (parts : list Z) (field : Z -> bytes -> bytes) (w : bytes) : bytes :=
  foldl (fun w p => field p (ByteWriter.i32 p w)) (ByteWriter.i32 (i32 (Z.of_nat (length parts))) w) parts.

Definition listOffsetsBody (timestamp : Z) (parts : list Z) : bytes :=
  writePartitions parts (fun _ => ByteWriter.i64 timestamp)
    (ByteWriter.str topic (ByteWriter.i32 1 (ByteWriter.i32 (-1) []))).

Definition listOffsets (timestamp timeoutMs : Z) (parts : list Z) : keff (option (gmap Z Z)) :=
  call 2 1 (listOffsetsBody timestamp parts) timeoutMs (readListOffsets topic).

Definition offsetFetchBody (parts : list Z) : bytes :=
  writePartitions parts (fun _ w => w)
    (ByteWriter.str topic (ByteWriter.i32 1 (ByteWriter.str (bytesOf (kc_groupId cfg)) []))).

Definition offsetFetchAll (timeoutMs : Z) : keff (option (gmap Z Z)) :=
  parts <- impl im_partitions ;;
  call 9 2 (offsetFetchBody parts) timeoutMs (readOffsetFetch topic).

Definition offsetCommitBody (toCommit : gmap Z Z) : bytes :=
  let items := sorted_items Z.le toCommit in
  let w := ByteWriter.str (bytesOf (kc_groupId cfg)) [] in
  let w := ByteWriter.i32 (-1) w in
  let w := ByteWriter.str [] w in
  let w := ByteWriter.i64 (-1) w in
  let w := ByteWriter.str topic (ByteWriter.i32 1 w) in
  foldl (fun w it => ByteWriter.nullableStrNull (ByteWriter.i64 it.2 (ByteWriter.i32 it.1 w)))
    (ByteWriter.i32 (i32 (Z.of_nat (length items))) w) items.

Definition offsetCommitAll (toCommit : gmap Z Z) (timeoutMs : Z) : keff (option (gmap Z Z)) :=
  call 8 2 (offsetCommitBody toCommit) timeoutMs (readOffsetCommit topic toCommit).

(** The size limit of the reply is computed in 32 bits. *)
Definition fetchBody (maxWait : Z) (parts : list Z) (cursor : gmap Z Z) : bytes :=
  let count := Z.of_nat (length parts) in
  let w := ByteWriter.i32 maxWait (ByteWriter.i32 (-1) []) in
  let w := ByteWriter.i32 kFetchMinBytes w in
  let w := ByteWriter.i32 (i32 (kPartitionMaxBytes * i32 (if 0 <? count then count else 1))) w in
  let w := ByteWriter.i32 1 (ByteWriter.i8 0 w) in
  writePartitions parts
    (fun p w => ByteWriter.i32 kPartitionMaxBytes (ByteWriter.i64 (default 0 (cursor !! p)) w))
    (ByteWriter.str topic w).

Definition fetchAll (dl : Z) : keff (option (list FetchedRecord * list Z)) :=
  remain <- remainingMs dl ;;
  let maxWait := if remain <? kFetchMaxWaitMs then i32 (if remain <? 1 then 1 else remain)
                 else kFetchMaxWaitMs in
  parts <- impl im_partitions ;;
  cursor <- impl im_cursor ;;
  remain <- remainingMs dl ;;
  sockTimeout <- (if remain <? maxWait + 2000 then remainingMs dl else ret (maxWait + 2000)) ;;
  resp <- requestRpc 1 4 (fetchBody maxWait parts cursor) sockTimeout ;;
  match resp with
  | None => ret None
  | Some r =>
      reply <- runReader (readFetch topic) r ;;
      match reply with
      | Some f => ret (Some (inPartitionOrder f, fe_errPartitions f))
      | None => closeConnection ;;; ret None
      end
  end.

(** ** Assignment *)

(** The cursor of one partition: the offset, and whether it fell back. *)
Definition initialCursor (committed earliest latest : gmap Z Z) (p : Z) : Z * bool :=
  let off := default (-1) (committed !! p) in
  let er := default 0 (earliest !! p) in
  if off <? 0 then (er, true)
  else match latest !! p with
       | Some l => if l <? off then (er, true) else (off, false)
       | None => (off, false)
       end.

Definition totalLag (latest cursor : gmap Z Z) (parts : list Z) : Z :=
  foldl (fun lag p =>
           match latest !! p, cursor !! p with
           | Some h, Some c => if c <? h then u64 (lag + u64 (h - c)) else lag
           | _, _ => lag
           end) 0 parts.

Definition setCursors (parts : list Z) (committed earliest latest : gmap Z Z) : keff unit :=
  forM parts (fun p =>
    let '(off, fallback) := initialCursor committed earliest latest p in
    setImpl (restart_at p off fallback)) ;;;
  setImpl (fun s => set_assigned latest (totalLag latest (im_cursor s) parts) s).

(** [true]: go on; [false]: the broker failed. *)
Definition assign (rounds : nat) (dl : Z) : keff bool :=
  parts <- metadataPartitions rounds dl ;;
  match parts with
  | None => ret false
  | Some parts =>
      setImpl (set_partitions parts) ;;;
      remain <- remainingMs dl ;;
      committed <- offsetFetchAll remain ;;
      match committed with
      | None => ret false
      | Some committed =>
          let anyCommitted := existsb (fun p => 0 <=? default (-1) (committed !! p)) parts in
          remain <- remainingMs dl ;;
          earliest <- listOffsets (-2) remain parts ;;
          match earliest with
          | None => ret false
          | Some earliest =>
              latest <- (if anyCommitted
                         then remain <- remainingMs dl ;; listOffsets (-1) remain parts
                         else ret (Some ∅)) ;;
              match latest with
              | None => ret false
              | Some latest => setCursors parts committed earliest latest ;;; ret true
              end
          end
      end
  end.

(** The partitions whose offset the broker refused start again. *)
Fixpoint restartPartitions (errPartitions : list Z) (dl : Z) : keff bool :=
  match errPartitions with
  | [] => ret true
  | p :: rest =>
      remain <- remainingMs dl ;;
      er <- listOffsets (-2) remain [p] ;;
      match er with
      | None => ret false
      | Some er =>
          setImpl (restart_at p (default 0 (er !! p)) true) ;;;
          restartPartitions rest dl
      end
  end.

(** ** Disposing of a record *)

Definition deadLetterOf (rec : ConsumedOutboxRecord) (reason : string) (value : bytes) : DeadLetterRecord :=
  mkDeadLetter (cr_topic rec) (cr_partition rec) (cr_offset rec) (cr_messageId rec) (cr_conversationId rec)
    (cr_sequence rec) (cr_eventType rec) reason (textOf value).

(** Record a dead letter; [true] aborts the batch. *)
Definition deadLetter (rec : ConsumedOutboxRecord) (reason : string) (value : bytes) : keff bool :=
  let dlr := deadLetterOf rec reason value in
  stored <- catchK (onWorld (onStore (recordDeadLetter dlr)) ;;; ret true) (ret false) ;;
  if (stored : bool)
  then setImpl (note (EvDead rec dlr)) ;;; setResult (push_record rec DeadLettered) ;;; ret false
  else ret true.

Definition seenBefore (rec : ConsumedOutboxRecord) (s : Impl) : bool :=
  match seenMessages s !! cr_conversationId rec with
  | Some ids => bool_decide (cr_messageId rec ∈ ids)
  | None => false
  end.

(** What becomes of the memory after the handler answered. *)
Definition remember (rec : ConsumedOutboxRecord) (d : ConsumeDisposition) (s : Impl) : Impl :=
  let c := cr_conversationId rec in
  let seen := lastSeen s !! c in
  let s := match d with
           | DeadLettered => s
           | _ => set_seen (lastSeen s) (<[c := {[cr_messageId rec]} ∪ default ∅ (seenMessages s !! c)]> (seenMessages s))
                    (conversationOrder s) s
           end in
  let s := touchConversation (kc_seenConversationsCapacity cfg) c s in
  if match seen with None => true | Some (q, _) => q <? cr_sequence rec end
  then set_seen (<[c := (cr_sequence rec, cr_messageId rec)]> (lastSeen s)) (seenMessages s) (conversationOrder s) s
  else s.

Definition callHandler (rec : ConsumedOutboxRecord) : keff bool :=
  d <- catchK (d <- onWorld (handler rec) ;; ret (Some d)) (ret None) ;;
  match d with
  | None => ret true
  | Some d =>
      setResult (push_record rec d) ;;;
      setImpl (fun s => note (EvHandled rec d) (remember rec d s)) ;;;
      ret false
  end.

(** The rules 3 to 6, on an envelope that is ok and announces a message. *)
Definition disposeMessage (rec : ConsumedOutboxRecord) (value : bytes) : keff bool :=
  s <- impl id ;;
  if seenBefore rec s
  then setImpl (note (EvDuplicate rec)) ;;; setResult (push_record rec DuplicateNoOp) ;;; ret false
  else
    match lastSeen s !! cr_conversationId rec with
    | Some (q, m) =>
        if cr_sequence rec <? q then deadLetter rec "sequence_regression" value
        else if (cr_sequence rec =? q) && negb (cr_messageId rec =? m)
        then deadLetter rec "sequence_conflict" value
        else callHandler rec
    | None => callHandler rec
    end.

(** One turn of the loop over the fetched records; [true] aborts the batch. *)
Definition dispose (raw : FetchedRecord) : keff bool :=
  let env := json_parse (textOf (fr_value raw)) in
  let rec m c q t p := mkConsumed (kc_topic cfg) (fr_partition raw) (fr_offset raw) m c q t p in
  match readEnvelope env with
  | None =>
      deadLetter (rec (poisonedId env) 0 0 EmptyString EmptyString) "poison_payload" (fr_value raw)
  | Some e =>
      let r := rec (en_messageId e) (en_conversationId e) (en_sequence e) (en_eventType e) (en_payload e) in
      if negb (bool_decide (en_eventType e = "MessageAccepted"%string))
      then deadLetter r "unknown_event_type" (fr_value raw)
      else disposeMessage r (fr_value raw)
  end.

Fixpoint disposeLoop (fetched : list FetchedRecord) : keff bool :=
  match fetched with
  | [] => ret false
  | raw :: rest =>
      n <- gets (fun k => Z.of_nat (length (rs_records (k_result k)))) ;;
      if n <? kc_fetchBatchLimit cfg then
        aborted <- dispose raw ;;
        if (aborted : bool) then ret true else disposeLoop rest
      else ret false
  end.

(** ** Committing *)

Definition toCommitOf (records : list ConsumedOutboxRecord) : gmap Z Z :=
  foldl (fun m rec =>
           let next := i64 (cr_offset rec + 1) in
           match m !! cr_partition rec with
           | Some o => if o <? next then <[cr_partition rec := next]> m else m
           | None => <[cr_partition rec := next]> m
           end) ∅ records.

Definition commit (dl : Z) : keff unit :=
  hookOk <- match preCommitHook with
            | Some hook => catchK (onWorld hook ;;; ret true) (ret false)
            | None => ret true
            end ;;
  if negb hookOk then ret tt
  else
    toCommit <- gets (fun k => toCommitOf (rs_records (k_result k))) ;;
    setImpl (ask (sorted_items Z.le toCommit)) ;;;
    remain <- remainingMs dl ;;
    committedOk <- offsetCommitAll toCommit remain ;;
    match committedOk with
    | None => ret tt
    | Some ok =>
        forM (sorted_items Z.le ok) (fun it => setImpl (advance_to it.1 it.2)) ;;;
        setResult (set_committed ok)
    end.

(** ** Polling *)

Definition brokerFailed : keff unit := setResult (set_brokerOk false).

Definition connectIfNeeded (dl : Z) : keff bool :=
  connected <- impl im_connected ;;
  if (connected : bool) then ret true
  else
    remain <- remainingMs dl ;;
    ok <- onNet (connectTo (kc_host cfg) (kc_port cfg) (clampTimeout remain)) ;;
    if (ok : bool) then setImpl (set_connected true) ;;; ret true else ret false.

Definition assignIfNeeded (rounds : nat) (dl : Z) : keff bool :=
  assigned <- impl im_assigned ;;
  if (assigned : bool) then ret true else assign rounds dl.

Definition consume (fetched : list FetchedRecord) (dl : Z) : keff unit :=
  aborted <- disposeLoop fetched ;;
  if (aborted : bool) then setResult (set_processed false)
  else
    setResult (set_processed true) ;;;
    records <- gets (fun k => rs_records (k_result k)) ;;
    match records with
    | [] => ret tt
    | _ => commit dl
    end.

Definition pollBody (rounds : nat) (dl : Z) : keff unit :=
  ok <- connectIfNeeded dl ;;
  if negb ok then brokerFailed
  else
    ok <- assignIfNeeded rounds dl ;;
    if negb ok then brokerFailed
    else
      fetched <- fetchAll dl ;;
      match fetched with
      | None => brokerFailed
      | Some (records, errPartitions) =>
          ok <- restartPartitions errPartitions dl ;;
          if negb ok then brokerFailed else consume records dl
      end.

(** The budget of a poll in milliseconds bounds the rounds of the metadata loop. *)
Definition metadataRounds (budget : Z) : nat := 2 + Z.to_nat (budget / kIdleRetrySleepMs).

Definition poll (deadlineMs : Z) : keff OutboxConsumeResult :=
  setResult (fun _ => emptyResult) ;;;
  start <- onNet steadyNow ;;
  let budget := if 0 <? deadlineMs then deadlineMs else kc_deadlineMs cfg in
  let dl := i64 (start + budget) in
  seen <- impl (fun s => Z.of_nat (length (map_to_list (lastSeen s)))) ;;
  onWorld (metric (CallConsumerSeen seen)) ;;;
  catchK (pollBody (metadataRounds budget) dl) (setResult afterException) ;;;
  gets k_result.
End consumer.
