(* ===== verification/KafkaConsumerInv.v ===== *)
(** * What the Kafka consumer guarantees

    Against any broker that keeps its promises ([Broker]), any handler, any store
    and any sequence of polls, crashes and restarts: no record is skipped. *)

From S2P Require Import Prelude DomainTypes Store World Json Relay Bytes KafkaWire KafkaWireInv KafkaClient KafkaReplies KafkaBroker KafkaConsumer.

Open Scope Z_scope.

(** ** Order in a log *)

Lemma elem_fetched p base i pairs r :
  0 <= base -> 0 <= i -> base + i + Z.of_nat (length pairs) < 2 ^ 62 ->
  r ∈ fetched p base i pairs ->
  fr_partition r = p /\ base + i <= fr_offset r < base + i + Z.of_nat (length pairs).
Proof.
  revert i. induction pairs as [|kv pairs IH]; intros i Hb Hi Hl Hr; [by apply elem_of_nil in Hr|].
  cbn [length] in *. rewrite fetched_cons in Hr. apply elem_of_cons in Hr as [->|Hr].
  - cbn. rewrite i64_small by (unfold isI64; lia). lia.
  - apply IH in Hr; lia.
Qed.

Lemma sorted_fetched p base i pairs :
  0 <= base -> 0 <= i -> base + i + Z.of_nat (length pairs) < 2 ^ 62 ->
  StronglySorted (fun r r' => fr_offset r < fr_offset r') (fetched p base i pairs).
Proof.
  revert i. induction pairs as [|kv pairs IH]; intros i Hb Hi Hl; [constructor|].
  cbn [length] in *. rewrite fetched_cons. constructor; [apply IH; lia|]. rewrite Forall_forall.
  intros r Hr. apply elem_fetched in Hr as [_ Hr]; [|lia..]. cbn. rewrite i64_small by (unfold isI64; lia). lia.
Qed.

Lemma elem_recordsOf p b r :
  0 <= sb_base b /\ batchEnd b < 2 ^ 62 -> r ∈ recordsOf p b ->
  fr_partition r = p /\ sb_base b <= fr_offset r < batchEnd b.
Proof.
  intros [H0 He] Hr. unfold recordsOf, batchEnd in *. apply elem_fetched in Hr as [H1 H2]; [|lia..]. lia.
Qed.

Lemma elem_logRecords p l r : r ∈ logRecords p l <-> exists b, b ∈ l /\ r ∈ recordsOf p b.
Proof.
  unfold logRecords. rewrite list_elem_of_In, in_concat. split.
  - intros (rs & Hin & Hr). apply in_map_iff in Hin as (b & <- & Hb). exists b. by rewrite !list_elem_of_In.
  - intros (b & Hb & Hr). exists (recordsOf p b). rewrite in_map_iff, <- list_elem_of_In. split; [|done].
    exists b. by rewrite <- list_elem_of_In.
Qed.

Lemma logRecords_app p l1 l2 : logRecords p (l1 ++ l2) = logRecords p l1 ++ logRecords p l2.
Proof. unfold logRecords. by rewrite map_app, concat_app. Qed.

Lemma log_elem p l r : logOk l -> r ∈ logRecords p l ->
  exists b, b ∈ l /\ r ∈ recordsOf p b /\ fr_partition r = p /\ sb_base b <= fr_offset r < batchEnd b.
Proof.
  intros [Hb _ _] Hr. apply elem_logRecords in Hr as (b & Hbin & Hr). exists b. split; [done|]. split; [done|].
  apply elem_recordsOf in Hr; [done|]. rewrite Forall_forall in Hb. by destruct (Hb b Hbin) as (_ & ? & ?).
Qed.

Lemma sorted_app_inv {A} (R : relation A) l1 l2 :
  StronglySorted R (l1 ++ l2) ->
  StronglySorted R l1 /\ StronglySorted R l2 /\ forall x y, x ∈ l1 -> y ∈ l2 -> R x y.
Proof.
  induction l1 as [|a l1 IH]; intros H.
  { split; [constructor|]. split; [done|]. intros x y Hx. by apply elem_of_nil in Hx. }
  cbn in H. apply StronglySorted_inv in H as [H Ha]. destruct (IH H) as (H1 & H2 & H3).
  rewrite Forall_forall in Ha. split.
  - constructor; [done|]. rewrite Forall_forall. intros x Hx. apply Ha. rewrite elem_of_app. auto.
  - split; [done|]. intros x y Hx Hy. apply elem_of_cons in Hx as [->|Hx]; [|by apply H3].
    apply Ha. rewrite elem_of_app. auto.
Qed.

Lemma sorted_app {A} (R : relation A) l1 l2 :
  StronglySorted R l1 -> StronglySorted R l2 -> (forall x y, x ∈ l1 -> y ∈ l2 -> R x y) ->
  StronglySorted R (l1 ++ l2).
Proof.
  induction 1 as [|a l1 Hs IH Ha]; intros H2 H12; [done|]. cbn. constructor.
  - apply IH; [done|]. intros x y Hx. apply H12. by right.
  - rewrite Forall_forall in *. intros x Hx. apply elem_of_app in Hx as [Hx|Hx]; [by apply Ha|].
    apply H12; [by left|done].
Qed.

Lemma logOk_app l1 l2 : logOk (l1 ++ l2) ->
  logOk l1 /\ logOk l2 /\ forall b b', b ∈ l1 -> b' ∈ l2 -> batchEnd b <= sb_base b'.
Proof.
  intros [Hb Hs Hz]. apply Forall_app in Hb as [Hb1 Hb2]. apply sorted_app_inv in Hs as (Hs1 & Hs2 & H12).
  unfold recordSet in Hz. rewrite map_app, concat_app, size_app in Hz.
  pose proof (size_nonneg (concat (map batchBytes l1))). pose proof (size_nonneg (concat (map batchBytes l2))).
  split; [split; [done|done|unfold recordSet; lia]|]. split; [split; [done|done|unfold recordSet; lia]|done].
Qed.

(** Offsets ascend in a log. *)
Lemma sorted_logRecords p l : logOk l ->
  StronglySorted (fun r r' => fr_offset r < fr_offset r') (logRecords p l).
Proof.
  induction l as [|b l IH]; intros Hl; [constructor|]. destruct (logOk_app [b] l Hl) as (Hb & Hl' & H12).
  change (logRecords p (b :: l)) with (recordsOf p b ++ logRecords p l).
  assert (0 <= sb_base b /\ batchEnd b < 2 ^ 62) as Hbb.
  { destruct Hb as [Hb _ _]. apply Forall_cons in Hb as [(_ & ? & ?) _]. lia. }
  apply sorted_app; [unfold recordsOf, batchEnd in *; apply sorted_fetched; lia|by apply IH|].
  intros r r' Hr Hr'. apply elem_recordsOf in Hr as [_ Hr]; [|done].
  apply log_elem in Hr' as (b' & Hb' & _ & _ & Ho); [|done].
  specialize (H12 b b' ltac:(by apply list_elem_of_singleton) Hb'). lia.
Qed.

(** ** Settled records *)

Definition evRecord (e : ConsumeEvent) : ConsumedOutboxRecord :=
  match e with EvHandled r _ | EvDead r _ | EvDuplicate r => r end.

Section inv.
Context {St E N : Type} `{!MessageStore St, !Env E, !Transport N, !JsonLib}.
Context (cfg : ConsumerConfig).
Context (handler : ConsumedOutboxRecord -> eff exn (World St E) ConsumeDisposition).
Context (hook : option (eff exn (World St E) unit)).

Notation K := (KWorld St E N).
Notation keff := (eff kexn K).
Notation group := (bytesOf (kc_groupId cfg)).

(** The record the consumer makes of a fetched one. *)
Definition consumedOf (raw : FetchedRecord) : ConsumedOutboxRecord :=
  let env := json_parse (textOf (fr_value raw)) in
  match readEnvelope env with
  | None => mkConsumed (kc_topic cfg) (fr_partition raw) (fr_offset raw) (poisonedId env) 0 0 EmptyString EmptyString
  | Some e => mkConsumed (kc_topic cfg) (fr_partition raw) (fr_offset raw) (en_messageId e)
                (en_conversationId e) (en_sequence e) (en_eventType e) (en_payload e)
  end.

(** The handler has answered for the message of [r], not with a dead letter. *)
Definition handledBefore (trace : list ConsumeEvent) (r : ConsumedOutboxRecord) : Prop :=
  exists r' d, EvHandled r' d ∈ trace /\ cr_conversationId r' = cr_conversationId r /\
    cr_messageId r' = cr_messageId r /\ d <> DeadLettered.

(** The handler answered for the record, or a dead letter was stored for it, or it
    repeats a message that was handled. *)
Definition settled (trace : list ConsumeEvent) (raw : FetchedRecord) : Prop :=
  exists e, e ∈ trace /\ evRecord e = consumedOf raw /\
    match e with EvDuplicate r => handledBefore trace r | _ => True end.

(** Every record of the log of [p] from offset [f] up to [o] is settled, and no
    record below [o] can still appear. *)
Definition covered (log : Z -> list StoredBatch) (trace : list ConsumeEvent) (p f o : Z) : Prop :=
  (o <= f \/ exists b, b ∈ log p /\ o <= batchEnd b) /\
  forall r, r ∈ logRecords p (log p) -> f <= fr_offset r < o -> settled trace r.

Lemma handledBefore_app trace more r : handledBefore trace r -> handledBefore (trace ++ more) r.
Proof. intros (r' & d & Hin & Hr). exists r', d. rewrite elem_of_app. auto. Qed.

Lemma settled_app trace more raw : settled trace raw -> settled (trace ++ more) raw.
Proof.
  intros (e & Hin & He & Hd). exists e. rewrite elem_of_app. split; [auto|]. split; [done|].
  destruct e; auto using handledBefore_app.
Qed.

Lemma covered_app log trace more p f o : covered log trace p f o -> covered log (trace ++ more) p f o.
Proof. intros [Hb Hr]. split; [done|]. intros r Hin Ho. by apply settled_app, Hr. Qed.

Lemma covered_grow log log' trace p f o :
  logOk (log' p) -> log p `prefix_of` log' p -> covered log trace p f o -> covered log' trace p f o.
Proof.
  intros Hok [new Hnew] [Hb Hr]. rewrite Hnew in Hok. destruct (logOk_app _ _ Hok) as (_ & Hok2 & H12). split.
  - destruct Hb as [?|(b & Hb & Ho)]; [by left|right]. exists b. rewrite Hnew, elem_of_app. auto.
  - intros r Hin Ho. rewrite Hnew, logRecords_app, elem_of_app in Hin. destruct Hin as [Hin|Hin]; [by apply Hr|].
    exfalso. destruct Hb as [?|(b & Hb & Hob)]; [lia|].
    apply log_elem in Hin as (b' & Hb' & _ & _ & Hlo); [|done]. specialize (H12 b b' Hb Hb'). lia.
Qed.

Context `{!Broker N (topic cfg) group}.

(** Where a partition is started from the beginning: the start of its log, or 0 when
    the broker does not list the partition. *)
Definition earliestAt (p f : Z) : Prop := f = 0 \/ f = logStart p.

Lemma earliestAt_le n p f r : earliestAt p f -> r ∈ logRecords p (logOf n p) -> f <= fr_offset r.
Proof.
  intros Hf Hr. apply log_elem in Hr as (b & Hb & _ & _ & Hlo); [|apply log_ok].
  destruct (log_ok n p) as [Hall _ _]. rewrite Forall_forall in Hall. destruct (Hall b Hb) as (_ & H0 & _).
  pose proof (log_start n p b Hb). destruct Hf; subst; lia.
Qed.

Record consumer_ok (s : Impl) (n : N) : Prop := {
  co_cursor p c : im_cursor s !! p = Some c ->
    exists f, (p, f) ∈ im_origins s /\ covered (logOf n) (im_trace s) p f c;
  co_asked p o : (p, o) ∈ im_asked s ->
    exists f, (p, f) ∈ im_origins s /\ covered (logOf n) (im_trace s) p f o;
  co_requested it : it ∈ requested n -> it ∈ im_asked s;
  co_assigned p : im_assigned s = true -> p ∈ im_partitions s -> is_Some (im_cursor s !! p);
  co_range : Forall in32 (im_partitions s) /\ forall p c, im_cursor s !! p = Some c -> isI64 c;
  co_seen c ids m : seenMessages s !! c = Some ids -> m ∈ ids ->
    exists r d, EvHandled r d ∈ im_trace s /\ cr_conversationId r = c /\ cr_messageId r = m /\ d <> DeadLettered;
  co_origins p f : (p, f) ∈ im_origins s -> earliestAt p f;
}.

Lemma consumer_ok_evolves s n n' :
  evolves_to n n' -> consumer_ok s n -> consumer_ok s n'.
Proof.
  intros [Hl Hr] [H1 H2 H3 H4 H6 H5 H8]. split; [| |auto|done|done|done|done].
  - intros p c Hc. destruct (H1 p c Hc) as (f & Hf & Hcov). exists f. split; [done|].
    eapply covered_grow; [apply log_ok|apply Hl|done].
  - intros p o Ho. destruct (H2 p o Ho) as (f & Hf & Hcov). exists f. split; [done|].
    eapply covered_grow; [apply log_ok|apply Hl|done].
Qed.

(** Fields that the invariant does not mention. *)
Lemma consumer_ok_same s s' n :
  im_cursor s' = im_cursor s -> im_origins s' = im_origins s -> im_asked s' = im_asked s ->
  im_trace s' = im_trace s -> im_assigned s' = im_assigned s -> im_partitions s' = im_partitions s ->
  seenMessages s' = seenMessages s -> consumer_ok s n -> consumer_ok s' n.
Proof. intros E1 E2 E3 E4 E5 E6 E7 [H1 H2 H3 H4 H6 H5 H8]. split; rewrite ?E1, ?E2, ?E3, ?E4, ?E5, ?E6, ?E7; done. Qed.

Lemma covered_self log trace p o : covered log trace p o o.
Proof. split; [left; lia|]. intros r _ Ho. lia. Qed.

Lemma restart_ok s n p off fallback :
  isI64 off -> (fallback = true /\ earliestAt p off \/ fallback = false /\ (p, off) ∈ im_asked s) ->
  consumer_ok s n -> consumer_ok (restart_at p off fallback s) n.
Proof.
  intros H64 Hoff [H1 H2 H3 H4 [H6 H7] H5 H8].
  assert (forall q f, (q, f) ∈ im_origins s ->
    (q, f) ∈ (if fallback then im_origins s ++ [(p, off)] else im_origins s)) as Hor.
  { intros q f Hin. destruct fallback; [|done]. rewrite elem_of_app. auto. }
  split; cbn; [| |done| |split; [done|]|done|].
  - intros q c Hc. destruct (decide (q = p)) as [->|Hne].
    + rewrite lookup_insert_eq in Hc. injection Hc as <-. destruct fallback.
      * exists off. rewrite elem_of_app, list_elem_of_singleton. split; [auto|apply covered_self].
      * destruct Hoff as [[? _]|[_ Hoff]]; [done|]. destruct (H2 p off Hoff) as (f & ? & ?). by exists f.
    + rewrite lookup_insert_ne in Hc by done. destruct (H1 q c Hc) as (f & ? & ?). exists f. auto.
  - intros q o Ho. destruct (H2 q o Ho) as (f & ? & ?). exists f. auto.
  - intros q Ha Hq. destruct (decide (q = p)) as [->|Hne]; [by rewrite lookup_insert_eq|].
    rewrite lookup_insert_ne by done. by apply H4.
  - intros q c. destruct (decide (q = p)) as [->|Hne]; [rewrite lookup_insert_eq; by intros [= <-]|].
    rewrite lookup_insert_ne by done. apply H7.
  - intros q f Hin. destruct fallback; [|by apply H8]. destruct Hoff as [[_ Hoff]|[? _]]; [|done].
    apply elem_of_app in Hin as [Hin|Hin%list_elem_of_singleton]; [by apply H8|]. by injection Hin as -> ->.
Qed.

Lemma advance_ok s n p off : isI64 off -> (p, off) ∈ im_asked s -> consumer_ok s n -> consumer_ok (advance_to p off s) n.
Proof.
  intros H64 Hin Hok. eapply consumer_ok_same; [..|apply (restart_ok s n p off false); [done|by right|done]]; done.
Qed.

Lemma ask_ok s n items :
  (forall p o, (p, o) ∈ items -> exists f, (p, f) ∈ im_origins s /\ covered (logOf n) (im_trace s) p f o) ->
  consumer_ok s n -> consumer_ok (ask items s) n.
Proof.
  intros Hit [H1 H2 H3 H4 H6 H5 H8]. split; cbn; [done| | |done|done|done|done].
  - intros p o Hin. apply elem_of_app in Hin as [Hin|Hin]; auto.
  - intros it Hin. apply elem_of_app. auto.
Qed.

Lemma note_ok s n e : consumer_ok s n -> consumer_ok (note e s) n.
Proof.
  intros [H1 H2 H3 H4 H6 H5 H8]. split; cbn; [| |done|done|done| |done].
  - intros p c Hc. destruct (H1 p c Hc) as (f & ? & ?). exists f. auto using covered_app.
  - intros p c Hc. destruct (H2 p c Hc) as (f & ? & ?). exists f. auto using covered_app.
  - intros c ids m Hc Hm. destruct (H5 c ids m Hc Hm) as (r & d & Hin & ?). exists r, d.
    rewrite elem_of_app. auto.
Qed.
(** What the memory of the consumer knows. *)
Lemma touch_seen cap c s x ids :
  seenMessages (touchConversation cap c s) !! x = Some ids -> seenMessages s !! x = Some ids.
Proof.
  unfold touchConversation. destruct (lastSeen s !! c); [done|].
  destruct (_ <=? _); [|done]. destruct (conversationOrder s) as [|old rest]; [done|].
  cbn. apply lookup_delete_Some.
Qed.

Lemma remember_seen rec d s x ids m :
  seenMessages (remember cfg rec d s) !! x = Some ids -> m ∈ ids ->
  (exists ids0, seenMessages s !! x = Some ids0 /\ m ∈ ids0) \/
  (x = cr_conversationId rec /\ m = cr_messageId rec /\ d <> DeadLettered).
Proof.
  unfold remember. set (s1 := match d with DeadLettered => s | _ => _ end). intros Hx Hm.
  assert (seenMessages s1 !! x = Some ids) as Hx1.
  { destruct (match lastSeen s !! _ with None => true | Some _ => _ end) in Hx;
      exact (touch_seen _ _ _ _ _ Hx). }
  clear Hx. destruct d; subst s1; cbn in Hx1; [| |by left; exists ids].
  all: destruct (decide (x = cr_conversationId rec)) as [->|Hne];
    [|rewrite lookup_insert_ne in Hx1 by done; by left; exists ids];
    rewrite lookup_insert_eq in Hx1; injection Hx1 as <-;
    apply elem_of_union in Hm as [Hm%elem_of_singleton|Hm]; [by right|left];
    destruct (seenMessages s !! cr_conversationId rec) as [ids0|]; [by exists ids0|done].
Qed.

Lemma touch_frame cap c s :
  im_cursor (touchConversation cap c s) = im_cursor s /\ im_origins (touchConversation cap c s) = im_origins s /\
  im_asked (touchConversation cap c s) = im_asked s /\ im_trace (touchConversation cap c s) = im_trace s /\
  im_assigned (touchConversation cap c s) = im_assigned s /\
  im_partitions (touchConversation cap c s) = im_partitions s.
Proof.
  unfold touchConversation. destruct (lastSeen s !! c); [done|].
  destruct (_ <=? _); [|done]. by destruct (conversationOrder s).
Qed.

Lemma remember_frame rec d s :
  im_cursor (remember cfg rec d s) = im_cursor s /\ im_origins (remember cfg rec d s) = im_origins s /\
  im_asked (remember cfg rec d s) = im_asked s /\ im_trace (remember cfg rec d s) = im_trace s /\
  im_assigned (remember cfg rec d s) = im_assigned s /\ im_partitions (remember cfg rec d s) = im_partitions s.
Proof.
  unfold remember. set (s1 := match d with DeadLettered => s | _ => _ end).
  assert (im_cursor s1 = im_cursor s /\ im_origins s1 = im_origins s /\ im_asked s1 = im_asked s /\
    im_trace s1 = im_trace s /\ im_assigned s1 = im_assigned s /\ im_partitions s1 = im_partitions s) as Hs1
    by (by subst s1; destruct d).
  destruct (touch_frame (kc_seenConversationsCapacity cfg) (cr_conversationId rec) s1) as (T1 & T2 & T3 & T4 & T5 & T6).
  destruct Hs1 as (<- & <- & <- & <- & <- & <-).
  by destruct (match lastSeen s !! _ with None => true | Some _ => _ end).
Qed.

Lemma handled_ok s n rec d :
  consumer_ok s n -> consumer_ok (note (EvHandled rec d) (remember cfg rec d s)) n.
Proof.
  intros Hok. pose proof (note_ok s n (EvHandled rec d) Hok) as [H1 H2 H3 H4 H6 _ H8]. destruct Hok as [_ _ _ _ _ H5 _].
  destruct (remember_frame rec d s) as (F1 & F2 & F3 & F4 & F5 & F6).
  split; cbn in *; rewrite ?F1, ?F2, ?F3, ?F4, ?F5, ?F6; [done|done|done|done|done| |done].
  intros c ids m Hc Hm. destruct (remember_seen rec d s c ids m Hc Hm) as [(ids0 & Hc0 & Hm0)|(-> & -> & Hd)].
  - destruct (H5 c ids0 m Hc0 Hm0) as (r & d' & Hin & Hr). exists r, d'. rewrite elem_of_app. auto.
  - exists rec, d. rewrite elem_of_app, list_elem_of_singleton. auto.
Qed.

(** ** Request bodies *)

Hypothesis topic_short : size (topic cfg) < 2 ^ 15.
Hypothesis group_short : size group < 2 ^ 15.

Lemma writePartitions_bytes parts field enc w :
  (forall p b, field p b = b ++ enc p) ->
  writePartitions parts field w = w ++ encArray (fun p => digits 4 p ++ enc p) parts.
Proof.
  intros Hf. unfold writePartitions, encArray.
  rewrite (write_all _ (fun p => digits 4 p ++ enc p)).
  - rewrite write_i32, digits_i32. by rewrite <- app_assoc.
  - intros b p. by rewrite Hf, write_i32, <- app_assoc.
Qed.

Lemma encArray_map {X Y} (f : X -> Y) (enc : Y -> bytes) xs :
  encArray enc (map f xs) = encArray (fun x => enc (f x)) xs.
Proof. unfold encArray. by rewrite length_map, map_map. Qed.

Lemma fetchBody_request maxWait parts cursor :
  exists maxBytes, fetchBody cfg maxWait parts cursor =
    fetchRequest (topic cfg) maxWait kFetchMinBytes maxBytes kPartitionMaxBytes
      (map (fun p => (p, default 0 (cursor !! p))) parts).
Proof.
  eexists. unfold fetchBody, fetchRequest.
  rewrite (writePartitions_bytes _ _ (fun p => digits 8 (default 0 (cursor !! p)) ++ digits 4 kPartitionMaxBytes)).
  2:{ intros p b. by rewrite write_i32, write_i64, <- app_assoc. }
  rewrite write_str by done. rewrite encArray_map. cbn [fst snd]. rewrite !write_i32. rewrite <- !app_assoc. cbn [app].
  unfold ByteWriter.i8. rewrite <- !app_assoc. reflexivity.
Qed.

Lemma offsetFetchBody_request parts :
  offsetFetchBody cfg parts = offsetFetchRequest group (topic cfg) parts.
Proof.
  unfold offsetFetchBody, offsetFetchRequest.
  rewrite (writePartitions_bytes _ _ (fun _ => [])) by (intros; by rewrite app_nil_r).
  rewrite !write_str by done. rewrite write_i32. rewrite <- !app_assoc. reflexivity.
Qed.

Lemma listOffsetsBody_request timestamp parts :
  listOffsetsBody cfg timestamp parts = listOffsetsRequest (topic cfg) timestamp parts.
Proof.
  unfold listOffsetsBody, listOffsetsRequest.
  rewrite (writePartitions_bytes _ _ (fun _ => digits 8 timestamp)) by (intros; by rewrite write_i64).
  rewrite !write_str by done. rewrite !write_i32. rewrite <- !app_assoc. reflexivity.
Qed.

Lemma offsetCommitBody_request toCommit :
  offsetCommitBody cfg toCommit = commitRequest group (topic cfg) (sorted_items Z.le toCommit).
Proof.
  unfold offsetCommitBody, commitRequest, encArray.
  rewrite (write_all _ (fun it => digits 4 it.1 ++ digits 8 it.2 ++ digits 2 (-1))).
  2:{ intros b it. rewrite write_null, write_i64, write_i32. by rewrite <- !app_assoc. }
  rewrite !write_str by done. rewrite !write_i32, write_i64, digits_i32. rewrite <- !app_assoc. reflexivity.
Qed.

(** ** Requests *)

Definition put_net (n : N) (k : K) : K := mkK (k_world k) n (k_impl k) (k_result k).

Definition put_impl (s : Impl) (k : K) : K := mkK (k_world k) (k_net k) s (k_result k).

(** Predicates that requests keep. *)
Record stable (I : K -> Prop) : Prop := {
  st_net k n : evolves_to (k_net k) n -> I k -> I (put_net n k);
  st_connected k b : I k -> I (put_impl (set_connected b (k_impl k)) k);
  st_correlation k c : I k -> I (put_impl (set_correlation c (k_impl k)) k);
}.

Section requests.
Context (I : K -> Prop) (HI : stable I).

Lemma safe_onNet {A} (f : N -> N * A) : (forall n, evolves_to n (f n).1) -> safe I (onNet f).
Proof.
  intros Hf k Hk. unfold wp, onNet. specialize (Hf (k_net k)). destruct (f (k_net k)) as [n a].
  exact (st_net I HI k n Hf Hk).
Qed.

Lemma safe_remainingMs dl : safe I (remainingMs dl).
Proof.
  unfold remainingMs. apply keepsOr_bind; [apply safe_onNet, steadyNow_evolves|].
  intros now. apply keepsOr_ret.
Qed.

Lemma safe_closeConnection : safe I closeConnection.
Proof.
  unfold closeConnection. apply keepsOr_bind; [apply safe_onNet, disconnect_evolves|].
  intros _ k Hk. exact (st_connected I HI k false Hk).
Qed.

(** What a reply answers. *)
Definition answers (apiKey apiVersion : Z) (body resp : bytes) (n' : N) : Prop :=
  exists corr t n n1, sendRequest apiKey apiVersion kClientId body corr t n = (n1, true) /\
    recvResponse corr t n1 = (n', Some resp).

Lemma wp_requestRpc apiKey apiVersion body timeoutMs k :
  (forall c i t k, I k -> I (put_net (sendRequest apiKey apiVersion c body i t (k_net k)).1 k)) -> I k ->
  wp (requestRpc apiKey apiVersion body timeoutMs)
    (fun o k' => I k' /\ match o with Some r => answers apiKey apiVersion body r (k_net k') | None => True end)
    (fun _ _ => False) k.
Proof.
  intros Hsend Hk. unfold requestRpc. apply wp_bind, wp_gets, wp_bind, wp_modify.
  set (corr := im_correlation (k_impl k)). pose proof (st_correlation I HI k (i32 (corr + 1)) Hk) as Hk1.
  set (k1 := mkK _ _ _ _). change (I k1) in Hk1. clearbody corr k1. clear Hk k.
  apply wp_bind. unfold wp at 1, onNet. specialize (Hsend kClientId corr (clampTimeout timeoutMs) k1 Hk1).
  destruct (sendRequest apiKey apiVersion kClientId body corr _ (k_net k1)) as [n1 [|]] eqn:Hs.
  - apply wp_bind. unfold wp at 1, onNet. cbn [k_net].
    pose proof (recvResponse_evolves corr (clampTimeout timeoutMs) n1) as Hev.
    destruct (recvResponse corr (clampTimeout timeoutMs) n1) as [n2 [r|]] eqn:Hr.
    + apply wp_ret. split; [exact (st_net I HI (put_net n1 k1) n2 Hev Hsend)|]. by eexists _, _, _, n1.
    + pose proof (st_net I HI (put_net n1 k1) n2 Hev Hsend) as Hk2. apply wp_bind.
      eapply wp_mono; [apply safe_closeConnection, Hk2| |done]. intros ? k' Hk'. by apply wp_ret.
  - apply wp_bind, wp_ret. apply wp_bind.
    eapply wp_mono; [apply safe_closeConnection, Hsend| |done]. intros ? k' Hk'. by apply wp_ret.
Qed.

Lemma send_keeps apiKey apiVersion body :
  apiKey <> 8 -> forall c i t k, I k -> I (put_net (sendRequest apiKey apiVersion c body i t (k_net k)).1 k).
Proof. intros Hne c i t k Hk. apply (st_net I HI); [by apply sendRequest_evolves|done]. Qed.

Lemma keeps_runReader {A} (m : rd A) data : keeps I (runReader m data).
Proof. intros k Hk. unfold runReader. by destruct (m data 0) as [pos []]. Qed.

Lemma wp_call {A} apiKey apiVersion body timeoutMs (m : rd A) (P : A -> Prop) k :
  apiKey <> 8 -> rpost m P -> I k ->
  wp (call apiKey apiVersion body timeoutMs m)
    (fun o k' => I k' /\ match o with Some a => P a | None => True end) (fun _ => I) k.
Proof.
  intros Hne Hm Hk. unfold call. apply wp_bind.
  eapply wp_mono; [apply wp_requestRpc; [by apply send_keeps|exact Hk]| |done].
  intros [r|] k' [Hk' _]; [|by apply wp_ret]. unfold runReader, wp. specialize (Hm r 0).
  by destruct (m r 0) as [pos []].
Qed.

Lemma wp_metadataPartitions rounds dl k :
  I k ->
  wp (metadataPartitions cfg rounds dl)
    (fun o k' => I k' /\ match o with Some parts => Forall in32 parts | None => True end) (fun _ => I) k.
Proof.
  revert k. induction rounds as [|r IH]; intros k Hk; [done|]. cbn [metadataPartitions].
  apply wp_bind. eapply wp_mono; [by apply safe_remainingMs| |by intros ? ? []]. intros remain k1 Hk1.
  apply wp_bind. eapply wp_mono; [by apply (wp_call 3 1 _ _ _ _ _ ltac:(done) (readMetadata_range (topic cfg)))| |done].
  intros [a|] k2 [Hk2 Ha]; [|by apply wp_ret].
  destruct (as_found a && as_ready a && _).
  { apply wp_ret. split; [done|]. by rewrite merge_sort_Permutation. }
  destruct (negb (as_found a) || _); [|by apply wp_ret].
  apply wp_bind. eapply wp_mono; [by apply safe_remainingMs| |by intros ? ? []]. intros remain2 k3 Hk3.
  destruct (remain2 <=? 0); [by apply wp_ret|].
  apply wp_bind. eapply wp_mono; [by apply (safe_onNet (fun n => (pause _ n, tt))); [intros n; apply pause_evolves|]| |by intros ? ? []].
  intros ? k4 Hk4. by apply IH.
Qed.

Lemma wp_listOffsets timestamp timeoutMs parts k :
  I k ->
  wp (listOffsets cfg timestamp timeoutMs parts)
    (fun o k' => I k' /\ match o with Some m => forall p v, m !! p = Some v -> isI64 v | None => True end)
    (fun _ => I) k.
Proof. intros Hk. by apply wp_call; [|apply readListOffsets_range|]. Qed.

Lemma wp_listEarliest timeoutMs parts k :
  I k ->
  wp (listOffsets cfg (-2) timeoutMs parts)
    (fun o k' => I k' /\
       match o with Some m => forall p, isI64 (default 0 (m !! p)) /\ earliestAt p (default 0 (m !! p)) | None => True end)
    (fun _ => I) k.
Proof.
  intros Hk. unfold listOffsets, call. apply wp_bind.
  eapply wp_mono; [apply wp_requestRpc; [by apply send_keeps|exact Hk]| |done].
  intros [r|] k' [Hk' Ho]; [|by apply wp_ret]. destruct Ho as (corr & t & n & n1 & Hs & Hr).
  rewrite listOffsetsBody_request in Hs.
  destruct (listEarliest_ok _ _ _ _ _ _ _ _ _ Hs Hr) as (topics & -> & Hrep & Hlaw).
  pose proof (readListOffsets_lawful (topic cfg) topics Hrep) as Hread.
  pose proof (readListOffsets_range (topic cfg) (listReply topics) 0) as Hrange. unfold runReader, wp.
  destruct (readListOffsets (topic cfg) (listReply topics) 0) as [pos [m| | | |]]; cbn [snd] in *; try done.
  cbn. split; [done|]. intros p. destruct (m !! p) as [v|] eqn:Hv; cbn; [|by split; [unfold isI64; lia|left]].
  split; [by eapply Hrange|right]. destruct (Hread p v Hv) as (part & Hin & <- & He & <-). by apply Hlaw.
Qed.
End requests.

(** ** Assignment *)

Notation ok := (fun k : K => consumer_ok (k_impl k) (k_net k)).

(** The invariant with conditions on what requests leave alone. *)
Lemma stable_ok (P : Impl -> OutboxConsumeResult -> Prop) :
  (forall s b r, P s r -> P (set_connected b s) r) -> (forall s c r, P s r -> P (set_correlation c s) r) ->
  stable (fun k => ok k /\ P (k_impl k) (k_result k)).
Proof.
  intros H1 H2. split.
  - intros k n Hev [Hk HP]. split; [by eapply consumer_ok_evolves|done].
  - intros k b [Hk HP]. split; [by eapply consumer_ok_same; [..|exact Hk]|by apply H1].
  - intros k c [Hk HP]. split; [by eapply consumer_ok_same; [..|exact Hk]|by apply H2].
Qed.

Notation unassigned r0 := (fun k : K => ok k /\ (im_assigned (k_impl k) = false /\ k_result k = r0)).

Lemma stable_unassigned r0 : stable (unassigned r0).
Proof. by apply (stable_ok (fun s r => im_assigned s = false /\ r = r0)). Qed.

Lemma wp_offsetFetchAll (I : K -> Prop) timeoutMs k :
  stable I -> (forall k, I k -> ok k) -> I k ->
  wp (offsetFetchAll cfg timeoutMs)
    (fun o k' => I k' /\
       match o with
       | Some m => forall p v, m !! p = Some v -> isI64 v /\ (0 <= v -> (p, v) ∈ im_asked (k_impl k'))
       | None => True
       end) (fun _ => ok) k.
Proof.
  intros HI Hsub Hk. unfold offsetFetchAll. apply wp_bind, wp_gets. unfold call. apply wp_bind.
  eapply wp_mono; [apply (wp_requestRpc I HI); [by apply send_keeps|exact Hk]| |done].
  intros o k' [Hk' Ho]. destruct o as [r|]; [|by apply wp_ret].
  destruct Ho as (corr & t & n & n1 & Hs & Hr). rewrite offsetFetchBody_request in Hs.
  destruct (offsetFetch_ok _ _ _ _ _ _ _ _ _ Hs Hr) as (topics & top & -> & Hrep & Hlaw).
  pose proof (readOffsetFetch_lawful (topic cfg) topics top Hrep) as Hread. unfold runReader, wp.
  destruct (readOffsetFetch (topic cfg) (offsetFetchReply topics top) 0) as [pos [m| | | |]]; cbn [snd] in *; try done.
  cbn. split; [done|]. intros p v Hm. destruct (Hread p v Hm) as [H64 Hpart]. split; [done|]. intros Hv.
  destruct (Hpart Hv) as (part & Hin & <- & He & <-). apply (co_requested _ _ (Hsub _ Hk')). by apply Hlaw.
Qed.

(** A cursor resumes only at an offset that was committed. *)
Lemma initialCursor_asked (committed earliest latest : gmap Z Z) p off fallback s :
  (forall p v, committed !! p = Some v -> isI64 v /\ (0 <= v -> (p, v) ∈ im_asked s)) ->
  (forall p, isI64 (default 0 (earliest !! p)) /\ earliestAt p (default 0 (earliest !! p))) ->
  initialCursor committed earliest latest p = (off, fallback) ->
  isI64 off /\ (fallback = true /\ earliestAt p off \/ fallback = false /\ (p, off) ∈ im_asked s).
Proof.
  intros Hc He Hi. unfold initialCursor in Hi.
  destruct (He p) as [H64 Her].
  destruct (committed !! p) as [v|] eqn:Hv; cbn in Hi; [|injection Hi as <- <-; auto].
  destruct (Hc p v Hv) as [Hv64 Hask]. destruct (Z.ltb_spec v 0); [injection Hi as <- <-; auto|].
  destruct (latest !! p) as [l|]; [destruct (l <? v)|]; injection Hi as <- <-; auto.
Qed.

(** One stage of a call that keeps [I]. *)
Lemma wp_stage {X Y} (I : K -> Prop) (m : keff X) (f : X -> keff Y) Q k :
  (forall k, I k -> ok k) -> keeps I m -> I k -> (forall a k', I k' -> wp (f a) Q (fun _ => ok) k') ->
  wp (bind m f) Q (fun _ => ok) k.
Proof. intros Hsub Hm Hk Hf. apply wp_bind. eapply wp_mono; [by apply Hm|exact Hf|]. intros x. apply Hsub. Qed.

Lemma wp_setCursors parts committed earliest latest k :
  ok k -> im_assigned (k_impl k) = false -> im_partitions (k_impl k) = parts ->
  (forall p v, committed !! p = Some v -> isI64 v /\ (0 <= v -> (p, v) ∈ im_asked (k_impl k))) ->
  (forall p, isI64 (default 0 (earliest !! p)) /\ earliestAt p (default 0 (earliest !! p))) ->
  wp (setCursors parts committed earliest latest)
    (fun _ k' => ok k' /\ im_assigned (k_impl k') = true /\ k_result k' = k_result k) (fun _ => ok) k.
Proof.
  intros Hk Ha Hp Hc He. unfold setCursors. apply wp_bind.
  eapply wp_mono; [apply (wp_forM (fun rest k' => ok k' /\ im_assigned (k_impl k') = false /\
    im_partitions (k_impl k') = parts /\ im_asked (k_impl k') = im_asked (k_impl k) /\ k_result k' = k_result k /\
    forall p, p ∈ parts -> p ∉ rest -> is_Some (im_cursor (k_impl k') !! p)) _ (fun _ => ok))| |done].
  - do 5 (split; [done|]). by intros p Hin.
  - intros p rest k' (Hk' & Ha' & Hp' & Hask & Hr & Hset).
    destruct (initialCursor committed earliest latest p) as [off fallback] eqn:Hi. apply wp_modify. cbn.
    destruct (initialCursor_asked committed earliest latest p off fallback (k_impl k')) as [H64 Hoff];
      [by rewrite Hask|done|done|]. split; [by apply restart_ok|].
    do 4 (split; [done|]). intros q Hq Hnr.
    destruct (decide (q = p)) as [->|Hne]; [by rewrite lookup_insert_eq|]. rewrite lookup_insert_ne by done.
    apply Hset; [done|]. by intros [?|?]%elem_of_cons.
  - intros [] k' (Hk' & Ha' & Hp' & _ & Hr & Hset). apply wp_modify. cbn. split; [|done].
    destruct Hk' as [H1 H2 H3 H4 H6 H5 H8]. split; cbn; [exact H1|exact H2|exact H3| |exact H6|exact H5|exact H8].
    intros p _ Hin. rewrite Hp' in Hin. apply Hset; [done|]. apply not_elem_of_nil.
Qed.

Lemma wp_assign rounds dl r0 k :
  unassigned r0 k ->
  wp (assign cfg rounds dl)
    (fun b k' => ok k' /\ k_result k' = r0 /\ (b = true -> im_assigned (k_impl k') = true)) (fun _ => ok) k.
Proof.
  intros Hk. unfold assign.
  apply wp_bind. eapply wp_mono; [by apply (wp_metadataPartitions (unassigned r0) (stable_unassigned r0))| |by intros ? ? []].
  intros [parts|] k1 [(Hok1 & Ha1 & Hr1) Hparts]; [|by apply wp_ret].
  apply wp_bind, wp_modify. set (k2 := mkK _ _ _ _).
  set (I := fun k : K => ok k /\ (im_assigned (k_impl k) = false /\ im_partitions (k_impl k) = parts /\ k_result k = r0)).
  assert (stable I) as HI
    by (by apply (stable_ok (fun s r => im_assigned s = false /\ im_partitions s = parts /\ r = r0))).
  assert (I k2) as Hk2.
  { destruct Hok1 as [H1 H2 H3 H4 [_ H6] H5 H8]. split; [|done].
    split; cbn; [exact H1|exact H2|exact H3| |done|exact H5|exact H8]. intros p Ha'. congruence. }
  clearbody k2. clear Hok1 Ha1 Hr1 k1 Hk k. assert (forall k, I k -> ok k) as Hsub by (by intros ? []).
  apply (wp_stage I); [done|apply safe_keeps, safe_remainingMs, HI|done|]. intros r1 k3 Hk3.
  apply wp_bind. eapply wp_mono; [by apply (wp_offsetFetchAll I)| |done].
  intros [committed|] k4 [(Hok4 & Ha4 & Hp4 & Hr4) Hc]; [|by apply wp_ret].
  set (I2 := fun k : K => ok k /\ (im_assigned (k_impl k) = false /\ im_partitions (k_impl k) = parts /\
    k_result k = r0 /\ forall p v, committed !! p = Some v -> isI64 v /\ (0 <= v -> (p, v) ∈ im_asked (k_impl k)))).
  assert (stable I2) as HI2 by (by apply (stable_ok (fun s r => im_assigned s = false /\ im_partitions s = parts /\
    r = r0 /\ forall p v, committed !! p = Some v -> isI64 v /\ (0 <= v -> (p, v) ∈ im_asked s)))).
  assert (I2 k4) as Hk4 by done. clear Hok4 Ha4 Hp4 Hr4 Hc. assert (forall k, I2 k -> ok k) as Hsub2 by (by intros ? []).
  apply (wp_stage I2); [done|apply safe_keeps, safe_remainingMs, HI2|done|]. intros r2 k5 Hk5.
  apply wp_bind. eapply wp_mono; [by apply (wp_listEarliest I2 HI2)| |by intros ? ? []].
  intros [earliest|] k6 [Hk6 Hear]; [|apply wp_ret; by destruct Hk6 as (? & _ & _ & ? & _)].
  apply (wp_stage I2); [done| |done|].
  { destruct (existsb _ _); [|apply keepsOr_ret].
    apply keepsOr_bind; [apply safe_keepsOr, safe_remainingMs, HI2|]. intros r3 k7 Hk7.
    eapply wp_mono; [by apply (wp_listOffsets I2 HI2)|by intros ? ? []|done]. }
  intros [latest|] k7 (Hk7 & Ha7 & Hp7 & Hr7 & Hc7); [|by apply wp_ret].
  apply wp_bind. eapply wp_mono; [by apply wp_setCursors| |done].
  intros ? k8 (? & ? & Hr8). apply wp_ret. by rewrite Hr8.
Qed.

(** ** Fetching *)

(** Records of [p] without a gap from the cursor on. *)
Definition sliceAt (cursor : gmap Z Z) (log : Z -> list StoredBatch) (p : Z) (l : list FetchedRecord) : Prop :=
  exists c before after j, cursor !! p = Some c /\ log p = before ++ after /\
    Forall (fun b => batchEnd b <= c) before /\ l = logRecords p (take j after).

Definition goodFetch (cursor : gmap Z Z) (log : Z -> list StoredBatch) (recs : list FetchedRecord)
    (errs : list Z) : Prop :=
  exists byP : gmap Z (list FetchedRecord), recs = concat (sorted_items Z.le byP).*2 /\
    (forall p, p ∈ errs -> byP !! p = None) /\
    forall p l, byP !! p = Some l -> in32 p /\ sliceAt cursor log p l.

Lemma wp_safely {X Y} (I : K -> Prop) (m : keff X) (f : X -> keff Y) Q Ex k :
  safe I m -> I k -> (forall x k', I k' -> wp (f x) Q Ex k') -> wp (bind m f) Q Ex k.
Proof. intros Hm Hk Hf. apply wp_bind. eapply wp_mono; [by apply Hm|by apply Hf|by intros ? ? []]. Qed.

Lemma wp_fetchAll dl k :
  ok k -> im_assigned (k_impl k) = true ->
  wp (fetchAll cfg dl)
    (fun o k' => (ok k' /\ im_assigned (k_impl k') = true /\ k_result k' = k_result k) /\
       match o with
       | Some (recs, errs) => goodFetch (im_cursor (k_impl k')) (logOf (k_net k')) recs errs
       | None => True
       end) (fun _ _ => False) k.
Proof.
  intros Hk Ha. unfold fetchAll.
  set (I := fun k' : K => ok k' /\ (im_assigned (k_impl k') = true /\ im_cursor (k_impl k') = im_cursor (k_impl k) /\
    im_partitions (k_impl k') = im_partitions (k_impl k) /\ k_result k' = k_result k)).
  assert (stable I) as HI by (by apply (stable_ok (fun s r => im_assigned s = true /\ im_cursor s = im_cursor (k_impl k) /\
    im_partitions s = im_partitions (k_impl k) /\ r = k_result k))).
  assert (I k) as Hk0 by done.
  apply (wp_safely I); [apply safe_remainingMs, HI|done|]. intros r1 k1 Hk1.
  apply wp_bind, wp_gets, wp_bind, wp_gets.
  apply (wp_safely I); [apply safe_remainingMs, HI|done|]. intros r2 k2 Hk2.
  set (maxWait := if r1 <? _ then _ else _).
  apply (wp_safely I); [destruct (r2 <? _); [apply safe_remainingMs, HI|apply keepsOr_ret]|done|].
  intros sockTimeout k3 Hk3. apply wp_bind.
  eapply wp_mono; [apply (wp_requestRpc I HI); [by apply send_keeps|exact Hk3]| |done].
  destruct Hk1 as (_ & _ & -> & -> & _). intros [r|] k4 [Hk4 Hans]; [|apply wp_ret; by destruct Hk4 as (? & ? & _ & _ & ?)].
  destruct Hans as (corr & t & n & n1 & Hs & Hr).
  destruct (fetchBody_request maxWait (im_partitions (k_impl k)) (im_cursor (k_impl k))) as [maxBytes Hbody].
  rewrite Hbody in Hs. set (offsets := map _ _) in *.
  assert (Forall (fun po => in32 po.1 /\ isI64 po.2) offsets) as Hrange.
  { destruct Hk4 as (Hok4 & _ & Hc4 & Hp4 & _). destruct (co_range _ _ Hok4) as [H32 H64]. rewrite Hp4 in H32.
    apply Forall_map. eapply Forall_impl; [exact H32|]. intros p Hp. split; [done|]. cbn. rewrite <- Hc4.
    destruct (im_cursor (k_impl k4) !! p) eqn:Hcp; [by eapply H64|]. cbn. unfold isI64. lia. }
  destruct (fetch_ok _ _ _ _ _ _ _ _ _ _ _ _ _ Hrange Hs Hr) as (throttle & topics & -> & Hrep & Hlaw).
  pose proof (readFetch_lawful _ _ _ throttle topics (log_ok (k_net k4)) Hrep Hlaw) as Hread.
  apply wp_bind. unfold runReader, wp at 1.
  destruct (readFetch (topic cfg) (fetchReply throttle topics) 0) as [pos [f| | | |]]; cbn [snd] in *; try done.
  - apply wp_ret. destruct Hk4 as (Hok & Ha4 & Hc4 & Hp4 & Hr4). split; [done|].
    destruct Hread as [Herr Hby]. exists (fe_byPartition f). split; [done|]. split; [done|]. intros p l Hl.
    destruct (Hby p l Hl) as (o & before & after & j & Ho & Hlog & Hb & ->). apply list_elem_of_fmap in Ho as (q & [= <- ->] & Hq).
    rewrite <- Hp4 in Hq. split; [destruct (co_range _ _ Hok) as [H32 _]; rewrite Forall_forall in H32; by apply H32|].
    destruct (co_assigned _ _ Hok p Ha4 Hq) as [c Hc]. rewrite Hc4 in Hc. rewrite Hc in Hb.
    exists c, before, after, j. by rewrite Hc4.
  - apply wp_bind. eapply wp_mono; [apply (safe_closeConnection I HI), Hk4| |by intros ? ? []].
    intros ? k5 (? & ? & _ & _ & ?). by apply wp_ret.
Qed.

Lemma keeps_restartPartitions (I : K -> Prop) errs dl :
  stable I ->
  (forall k p off, p ∈ errs -> isI64 off -> earliestAt p off -> I k -> I (put_impl (restart_at p off true (k_impl k)) k)) ->
  keeps I (restartPartitions cfg errs dl).
Proof.
  intros HI Hre. induction errs as [|p errs IH]; cbn [restartPartitions]; [apply keepsOr_ret|].
  apply keepsOr_bind; [apply safe_keepsOr, safe_remainingMs, HI|]. intros r1 k Hk.
  apply wp_bind. eapply wp_mono; [by apply (wp_listEarliest I HI)| |done].
  intros [er|] k1 [Hk1 Her]; [|by apply wp_ret]. apply wp_bind, wp_modify.
  apply IH; [intros k' q off Hq; apply Hre; by right|]. apply Hre; [by left|apply Her|apply Her|done].
Qed.

(** ** Disposing of records *)

Notation trace k := (im_trace (k_impl k)).

(** The memory and the trace may change, the offsets do not. *)
Record quietly (k k' : K) : Prop := {
  qu_net : k_net k' = k_net k;
  qu_cursor : im_cursor (k_impl k') = im_cursor (k_impl k);
  qu_origins : im_origins (k_impl k') = im_origins (k_impl k);
  qu_asked : im_asked (k_impl k') = im_asked (k_impl k);
  qu_trace : trace k `prefix_of` trace k';
}.

Lemma quietly_refl k : quietly k k.
Proof. by split. Qed.

Lemma quietly_trans k1 k2 k3 : quietly k1 k2 -> quietly k2 k3 -> quietly k1 k3.
Proof. intros [] []. split; try congruence. by etrans. Qed.

(** What disposing of one record does, unless it aborts the batch. *)
Definition disposed (raw : FetchedRecord) (k : K) (a : bool) (k' : K) : Prop :=
  ok k' /\ quietly k k' /\
  (a = false -> settled (trace k') raw /\ rs_records (k_result k') = rs_records (k_result k) ++ [consumedOf raw]).

Lemma wp_tryWorld {A B} (m : eff exn (World St E) A) (f : A -> B) (b : B) (Q : B -> K -> Prop) k :
  ok k -> (forall c k', ok k' -> quietly k k' -> k_result k' = k_result k -> k_impl k' = k_impl k -> Q c k') ->
  wp (catchK (bind (onWorld m) (fun a => ret (f a))) (ret b)) Q (fun _ => ok) k.
Proof.
  intros Hk HQ. apply wp_catch, wp_bind. unfold wp at 1, onWorld.
  destruct (m (k_world k)) as [w [a|x]].
  - apply wp_ret. by apply HQ.
  - destruct x; [apply wp_ret; by apply HQ..|]. exact Hk.
Qed.

Lemma wp_deadLetter raw reason value k :
  ok k -> wp (deadLetter (consumedOf raw) reason value) (disposed raw k) (fun _ => ok) k.
Proof.
  intros Hk. unfold deadLetter. apply wp_bind. apply wp_tryWorld; [done|].
  intros stored k1 Hk1 Hq1 Hr1 Hi1. destruct stored; [|by apply wp_ret].
  apply wp_bind, wp_modify, wp_bind, wp_modify, wp_ret. split; [cbn; by apply note_ok|].
  split; [eapply quietly_trans; [exact Hq1|split; try done; by eexists]|]. intros _. cbn. split; [|by rewrite Hr1].
  exists (EvDead (consumedOf raw) (deadLetterOf (consumedOf raw) reason value)).
  rewrite elem_of_app, list_elem_of_singleton. auto.
Qed.

Lemma wp_callHandler raw k :
  ok k -> wp (callHandler cfg handler (consumedOf raw)) (disposed raw k) (fun _ => ok) k.
Proof.
  intros Hk. unfold callHandler. apply wp_bind. apply wp_tryWorld; [done|].
  intros [d|] k1 Hk1 Hq1 Hr1 Hi1; [|by apply wp_ret].
  apply wp_bind, wp_modify, wp_bind, wp_modify, wp_ret. split; [cbn; by apply handled_ok|].
  destruct (remember_frame (consumedOf raw) d (k_impl k1)) as (F1 & F2 & F3 & F4 & F5 & F6).
  split; [eapply quietly_trans; [exact Hq1|split; try done; cbn; rewrite F4; by eexists]|].
  intros _. cbn. split; [|by rewrite Hr1].
  exists (EvHandled (consumedOf raw) d). rewrite elem_of_app, list_elem_of_singleton. auto.
Qed.

Lemma wp_disposeMessage raw value k :
  ok k -> wp (disposeMessage cfg handler (consumedOf raw) value) (disposed raw k) (fun _ => ok) k.
Proof.
  intros Hk. unfold disposeMessage. apply wp_bind, wp_gets. destruct (seenBefore _ _) eqn:Hseen.
  - apply wp_bind, wp_modify, wp_bind, wp_modify, wp_ret. split; [cbn; by apply note_ok|].
    split; [split; try done; by eexists|]. intros _. cbn. split; [|done].
    exists (EvDuplicate (consumedOf raw)). rewrite elem_of_app, list_elem_of_singleton. split; [auto|]. split; [done|].
    apply handledBefore_app. unfold seenBefore in Hseen.
    destruct (seenMessages _ !! _) as [ids|] eqn:Hids; [|done]. apply bool_decide_eq_true in Hseen.
    destruct (co_seen _ _ Hk _ ids _ Hids Hseen) as (r & d & ?). by exists r, d.
  - destruct (lastSeen _ !! _) as [[q m]|]; [|by apply wp_callHandler].
    destruct (_ <? q); [by apply wp_deadLetter|]. destruct (_ && _); [by apply wp_deadLetter|by apply wp_callHandler].
Qed.

Lemma wp_dispose raw k : ok k -> wp (dispose cfg handler raw) (disposed raw k) (fun _ => ok) k.
Proof.
  intros Hk. unfold dispose.
  pose proof (fun reason => wp_deadLetter raw reason (fr_value raw) k Hk) as Hdead.
  pose proof (wp_disposeMessage raw (fr_value raw) k Hk) as Hmsg. unfold consumedOf in Hdead, Hmsg.
  destruct (readEnvelope _) as [e|]; [|apply Hdead].
  destruct (negb _); [apply Hdead|apply Hmsg].
Qed.

Lemma wp_disposeLoop recs k :
  ok k ->
  wp (disposeLoop cfg handler recs)
    (fun a k' => ok k' /\ quietly k k' /\
       (a = false -> exists i, rs_records (k_result k') = rs_records (k_result k) ++ map consumedOf (take i recs) /\
          Forall (settled (trace k')) (take i recs)))
    (fun _ => ok) k.
Proof.
  revert k. induction recs as [|raw recs IH]; intros k Hk; cbn [disposeLoop].
  { apply wp_ret. split; [done|]. split; [apply quietly_refl|]. intros _. exists 0%nat. by rewrite app_nil_r. }
  apply wp_bind, wp_gets. destruct (_ <? _).
  2:{ apply wp_ret. split; [done|]. split; [apply quietly_refl|]. intros _. exists 0%nat. by rewrite app_nil_r. }
  apply wp_bind. eapply wp_mono; [by apply wp_dispose| |done]. intros a k1 (Hk1 & Hq1 & Hd).
  destruct a; [by apply wp_ret|]. destruct (Hd eq_refl) as [Hset Hrec].
  eapply wp_mono; [by apply IH| |done]. intros a k2 (Hk2 & Hq2 & Hl). split; [done|].
  split; [by eapply quietly_trans|]. intros ->. destruct (Hl eq_refl) as (i & Hrec2 & Hall).
  exists (S i). simpl take. cbn [map]. rewrite Hrec2, Hrec, <- app_assoc. split; [done|].
  constructor; [|done]. destruct (qu_trace _ _ Hq2) as [more ->]. by apply settled_app.
Qed.

(** ** Committing *)

Lemma toCommitOf_elem recs p o :
  toCommitOf recs !! p = Some o -> exists r, r ∈ recs /\ cr_partition r = p /\ o = i64 (cr_offset r + 1).
Proof.
  unfold toCommitOf. revert p o. induction recs as [|r recs IH] using rev_ind; intros p o; [done|].
  rewrite foldl_app. cbn [foldl]. set (m := foldl _ ∅ recs) in *. intros Hm.
  assert (m !! p = Some o \/ (p = cr_partition r /\ o = i64 (cr_offset r + 1))) as [Hold|[-> ->]].
  { destruct (m !! cr_partition r) as [o'|] eqn:Ho; [destruct (o' <? _); [|by left]|];
      (destruct (decide (p = cr_partition r)) as [->|]; [rewrite lookup_insert_eq in Hm; injection Hm as <-; by right
        |rewrite lookup_insert_ne in Hm by done; by left]). }
  - destruct (IH p o Hold) as (x & ? & ?). exists x. rewrite elem_of_app. auto.
  - exists r. rewrite elem_of_app, list_elem_of_singleton. auto.
Qed.

Lemma filter_concat (items : list (Z * list FetchedRecord)) p l :
  NoDup items.*1 -> (p, l) ∈ items ->
  (forall q l', (q, l') ∈ items -> Forall (fun r => fr_partition r = q) l') ->
  filter (fun r => fr_partition r = p) (concat items.*2) = l.
Proof.
  intros Hnd Hin Hall. induction items as [|[q l'] items IH]; [by apply elem_of_nil in Hin|].
  cbn [fmap list_fmap fst snd concat] in *. apply NoDup_cons in Hnd as [Hq Hnd].
  assert (forall x l0, (x, l0) ∈ items -> Forall (fun r => fr_partition r = x) l0) as Hall'
    by (intros x l0 H1; apply Hall; by right).
  pose proof (Hall q l' ltac:(by left)) as Hl'. change (concat ((q, l') :: items).*2) with (l' ++ concat items.*2).
  rewrite filter_app. apply elem_of_cons in Hin as [[= -> ->]|Hin].
  - rewrite filter_Forall_id by done. rewrite filter_Forall_nil; [by rewrite app_nil_r|].
    rewrite Forall_forall. intros r Hr Hp. apply list_elem_of_In, in_concat in Hr as (l0 & Hl0 & Hr).
    apply list_elem_of_In, list_elem_of_fmap in Hl0 as ([x lx] & -> & Hx). apply Hq.
    specialize (Hall' x lx Hx). rewrite Forall_forall in Hall'. rewrite <- list_elem_of_In in Hr.
    rewrite (Hall' r Hr) in Hp. subst x. by apply (list_elem_of_fmap_2 fst _ (q, lx)).
  - rewrite filter_Forall_nil; [by apply IH|]. eapply Forall_impl; [exact Hl'|]. intros r Hr Hp. apply Hq.
    rewrite <- Hr, Hp. by apply (list_elem_of_fmap_2 fst _ (p, l)).
Qed.

(** The records of a slice that lie at or below one of its records belong to it. *)
Lemma slice_closed log p before after new j r raw c :
  logOk log -> log = before ++ after ++ new -> Forall (fun b => batchEnd b <= c) before ->
  raw ∈ logRecords p (take j after) -> r ∈ logRecords p log -> c <= fr_offset r <= fr_offset raw ->
  r ∈ logRecords p (take j after).
Proof.
  intros Hok Hlog Hb Hraw Hr Ho. rewrite <- (take_drop j after) in Hlog.
  rewrite <- (app_assoc (take j after)) in Hlog. subst log.
  destruct (logOk_app _ _ Hok) as (Hok1 & Hok2 & _). destruct (logOk_app _ _ Hok2) as (Hok3 & Hok4 & H34).
  rewrite !logRecords_app, !elem_of_app in Hr. destruct Hr as [Hr|[Hr|Hr]]; [|done|].
  - exfalso. apply log_elem in Hr as (b & Hbin & _ & _ & Hlt); [|done]. rewrite Forall_forall in Hb.
    specialize (Hb b Hbin). lia.
  - exfalso. rewrite <- elem_of_app, <- logRecords_app in Hr.
    apply log_elem in Hr as (b & Hbin & _ & _ & Hlt); [|done].
    apply log_elem in Hraw as (b' & Hbin' & _ & _ & Hlt'); [|done]. specialize (H34 b' b Hbin' Hbin). lia.
Qed.

Lemma consumedOf_place raw :
  cr_partition (consumedOf raw) = fr_partition raw /\ cr_offset (consumedOf raw) = fr_offset raw.
Proof. unfold consumedOf. by destruct (readEnvelope _). Qed.

(** The records of one partition in a fetch. *)
Lemma goodFetch_slice n cursor0 log0 recs errs raw :
  goodFetch cursor0 log0 recs errs -> (forall p, log0 p `prefix_of` logOf n p) -> raw ∈ recs ->
  let p := fr_partition raw in
  in32 p /\ p ∉ errs /\ exists c before after new j, cursor0 !! p = Some c /\ logOf n p = before ++ after ++ new /\
    Forall (fun b => batchEnd b <= c) before /\
    filter (fun r => fr_partition r = p) recs = logRecords p (take j after).
Proof.
  intros (byP & Hrecs & Herr & Hby) Hlog Hin p.
  assert (forall q l, byP !! q = Some l -> Forall (fun r => fr_partition r = q) l) as Hpart.
  { intros q l Hl. destruct (Hby q l Hl) as (_ & c & before & after & j & _ & Hlq & _ & ->).
    destruct (Hlog q) as [new Hnew]. pose proof (log_ok n q) as Hokq. rewrite Hnew, Hlq in Hokq.
    apply logOk_app in Hokq as (Hokq & _). apply logOk_app in Hokq as (_ & Hokq & _).
    rewrite <- (take_drop j after) in Hokq. apply logOk_app in Hokq as (Hokq & _).
    rewrite Forall_forall. intros r Hr. by apply log_elem in Hr as (b & _ & _ & ? & _). }
  assert (exists l, byP !! p = Some l) as [l Hl].
  { rewrite Hrecs in Hin. apply list_elem_of_In, in_concat in Hin as (l0 & Hl0 & Hin).
    apply list_elem_of_In, list_elem_of_fmap in Hl0 as ([q lq] & -> & Hq). apply elem_of_sorted_items in Hq.
    specialize (Hpart q lq Hq). rewrite Forall_forall in Hpart. apply list_elem_of_In in Hin. cbn in Hin.
    unfold p. rewrite (Hpart raw Hin). by exists lq. }
  destruct (Hby p l Hl) as (H32 & c & before & after & j & Hc & Hlp & Hb & Hlj). destruct (Hlog p) as [new Hnew].
  split; [done|]. split; [intros He; specialize (Herr p He); congruence|].
  exists c, before, after, new, j. split; [done|]. split; [by rewrite Hnew, Hlp, <- app_assoc|]. split; [done|].
  rewrite <- Hlj, Hrecs. apply filter_concat; [apply NoDup_sorted_items_keys|by apply elem_of_sorted_items|].
  intros q l' Hq. apply Hpart. by apply elem_of_sorted_items in Hq.
Qed.

Lemma commit_covered s n cursor0 log0 recs errs i :
  consumer_ok s n -> goodFetch cursor0 log0 recs errs ->
  (forall p, log0 p `prefix_of` logOf n p) -> (forall p, p ∉ errs -> im_cursor s !! p = cursor0 !! p) ->
  Forall (settled (im_trace s)) (take i recs) ->
  forall p o, toCommitOf (map consumedOf (take i recs)) !! p = Some o ->
    in32 p /\ isI64 o /\ exists f, (p, f) ∈ im_origins s /\ covered (logOf n) (im_trace s) p f o.
Proof.
  intros Hok Hgood Hlog Hcur Hset p o Ho. rewrite Forall_forall in Hset.
  destruct (toCommitOf_elem _ _ _ Ho) as (r0 & Hr0 & Hp0 & ->).
  apply list_elem_of_In, in_map_iff in Hr0 as (raw & <- & Hraw). apply list_elem_of_In in Hraw.
  destruct (consumedOf_place raw) as [Hcp ->]. rewrite Hcp in Hp0.
  assert (raw ∈ recs) as Hin by (rewrite <- (take_drop i recs), elem_of_app; auto).
  destruct (goodFetch_slice n _ _ _ _ raw Hgood Hlog Hin) as
    (H32 & Hne & c & before & after & new & j & Hc & Hlp & Hb & Hfil).
  rewrite Hp0 in *. split; [done|]. split; [apply i64_range|]. rewrite <- Hcur in Hc by done.
  destruct (co_cursor _ _ Hok p c Hc) as (f & Hf & [Hbd Hcov]). exists f. split; [done|].
  pose proof (log_ok n p) as Hokp.
  assert (raw ∈ logRecords p (take j after)) as Hrawl by (rewrite <- Hfil, list_elem_of_filter; done).
  assert (exists b, b ∈ logOf n p /\ 0 <= fr_offset raw < batchEnd b /\ batchEnd b < 2 ^ 62) as (b & Hbin & Hob & Hb62).
  { assert (raw ∈ logRecords p (logOf n p)) as Hrl.
    { rewrite Hlp, <- (take_drop j after), !logRecords_app, !elem_of_app. auto. }
    apply log_elem in Hrl as (b & Hbin & _ & _ & Hlt); [|done]. exists b. destruct Hokp as [Hbs _ _].
    rewrite Forall_forall in Hbs. destruct (Hbs b Hbin) as (_ & ? & ?). split; [done|]. lia. }
  rewrite i64_small by (unfold isI64; lia). split; [right; exists b; split; [done|lia]|].
  intros r Hr Hro. destruct (decide (fr_offset r < c)) as [?|Hge]; [by apply Hcov; [|lia]|].
  assert (r ∈ logRecords p (take j after)) as Hrl by (eapply slice_closed; [exact Hokp|done|done|done|done|lia]).
  apply Hset. rewrite <- Hfil, <- (take_drop i recs), filter_app, elem_of_app in Hrl.
  destruct Hrl as [Hrl|Hrl]; [by apply list_elem_of_filter in Hrl as [_ ?]|exfalso].
  rewrite Hlp in Hokp. apply logOk_app in Hokp as (_ & Hokp & _). apply logOk_app in Hokp as (Hokp & _).
  rewrite <- (take_drop j after) in Hokp. apply logOk_app in Hokp as (Hokp & _).
  pose proof (sorted_logRecords p _ Hokp) as Hsort. rewrite <- Hfil, <- (take_drop i recs), filter_app in Hsort.
  apply sorted_app_inv in Hsort as (_ & _ & Hlt). specialize (Hlt raw r). 
  assert (fr_offset raw < fr_offset r); [|lia]. apply Hlt; [by apply list_elem_of_filter|done].
Qed.

Lemma wp_offsetCommitAll toCommit timeoutMs k :
  Forall (fun it => in32 it.1 /\ isI64 it.2) (sorted_items Z.le toCommit) -> ok k -> (forall it, it ∈ sorted_items Z.le toCommit -> it ∈ im_asked (k_impl k)) ->
  wp (offsetCommitAll cfg toCommit timeoutMs)
    (fun o k' => (ok k' /\ forall it, it ∈ sorted_items Z.le toCommit -> it ∈ im_asked (k_impl k')) /\
       match o with
       | Some m => forall p o, m !! p = Some o -> toCommit !! p = Some o
       | None => True
       end) (fun _ => ok) k.
Proof.
  intros Hrange Hk Hask. unfold offsetCommitAll, call. apply wp_bind.
  set (I := fun k' : K => ok k' /\ forall it, it ∈ sorted_items Z.le toCommit -> it ∈ im_asked (k_impl k')).
  assert (stable I) as HI
    by (by apply (stable_ok (fun s _ => forall it, it ∈ sorted_items Z.le toCommit -> it ∈ im_asked s))).
  eapply wp_mono; [apply (wp_requestRpc I HI); [|by split]| |done].
  - intros c i t k1 [[H1 H2 H3 H4 H6 H5 H8] Hask1]. rewrite offsetCommitBody_request.
    destruct (commit_evolves 2 c i t (sorted_items Z.le toCommit) (k_net k1) Hrange) as [Hl Hr].
    set (n1 := (sendRequest _ _ _ _ _ _ _).1) in *. split; [|done]. split; cbn; [| | |done|done|done|done].
    + intros p o Ho. destruct (H1 p o Ho) as (f & ? & ?). exists f. split; [done|].
      eapply covered_grow; [apply log_ok|apply Hl|done].
    + intros p o Ho. destruct (H2 p o Ho) as (f & ? & ?). exists f. split; [done|].
      eapply covered_grow; [apply log_ok|apply Hl|done].
    + intros it Hit. destruct (Hr it Hit) as [?|?]; auto.
  - intros [r|] k1 [Hk1 _]; [|by apply wp_ret].
    pose proof (readOffsetCommit_subset (topic cfg) toCommit r 0) as Hsub. unfold runReader, wp.
    destruct (readOffsetCommit (topic cfg) toCommit r 0) as [pos [m| | | |]]; cbn [snd] in *; try done; apply Hk1.
Qed.

Lemma wp_commitBatch dl k :
  ok k ->
  (forall p o, toCommitOf (rs_records (k_result k)) !! p = Some o ->
     in32 p /\ isI64 o /\ exists f, (p, f) ∈ im_origins (k_impl k) /\ covered (logOf (k_net k)) (trace k) p f o) ->
  wp (commit cfg hook dl) (fun _ => ok) (fun _ => ok) k.
Proof.
  intros Hk Hcov. unfold commit. apply wp_bind.
  apply (wp_mono _ (fun _ k' => ok k' /\ k_net k' = k_net k /\ k_impl k' = k_impl k /\ k_result k' = k_result k)
    _ (fun _ => ok)); [|clear Hk|done].
  { destruct hook as [h|]; [|by apply wp_ret]. apply wp_tryWorld; [done|].
    intros b k' Hk' [Hn _ _ _ _] Hr Hi. done. }
  intros hookOk k1 (Hk & Hn & Hi & Hr). rewrite <- Hr, <- Hn, <- Hi in Hcov. clear Hn Hi Hr k.
  destruct hookOk; cbn [negb]; [|by apply wp_ret].
  apply wp_bind, wp_gets, wp_bind, wp_modify. set (toCommit := toCommitOf _) in *. set (k2 := mkK _ _ _ _).
  set (I := fun k' : K => ok k' /\ forall it, it ∈ sorted_items Z.le toCommit -> it ∈ im_asked (k_impl k')).
  assert (stable I) as HI
    by (by apply (stable_ok (fun s _ => forall it, it ∈ sorted_items Z.le toCommit -> it ∈ im_asked s))).
  assert (I k2) as Hk2.
  { split; [apply ask_ok; [|done]|intros it Hit; cbn; rewrite elem_of_app; auto].
    intros p o Hin. apply elem_of_sorted_items in Hin. by apply Hcov. }
  assert (Forall (fun it => in32 it.1 /\ isI64 it.2) (sorted_items Z.le toCommit)) as Hrange.
  { rewrite Forall_forall. intros [p o] Hin. apply elem_of_sorted_items in Hin. by destruct (Hcov p o Hin) as (? & ? & _). }
  clearbody k2. apply (wp_stage I); [by intros ? []|apply safe_keeps, safe_remainingMs, HI|done|].
  intros remain k3 [Hk3 Hask3]. apply wp_bind. eapply wp_mono; [by apply wp_offsetCommitAll| |done].
  intros [m|] k4 [[Hk4 Hask4] Hm]; [|by apply wp_ret].
  apply wp_bind. eapply wp_mono; [apply (wp_forM (fun rest k' => (ok k' /\ forall it, it ∈ sorted_items Z.le toCommit ->
    it ∈ im_asked (k_impl k')) /\ forall p o, (p, o) ∈ rest -> toCommit !! p = Some o) _ (fun _ => ok))| |done].
  - split; [done|]. intros p o Hin. apply Hm. by apply elem_of_sorted_items in Hin.
  - intros [p o] rest k5 [[Hk5 Hask5] Hrest]. apply wp_modify. split.
    + split; [|exact Hask5]. apply advance_ok; [by eapply Hcov, Hrest; left| |done]. apply Hask5, elem_of_sorted_items, Hrest. by left.
    + intros q o' Hin. apply Hrest. by right.
  - intros ? k5 [[Hk5 _] _]. by apply wp_modify.
Qed.

(** ** Polling *)

Lemma wp_consume cursor0 log0 recs errs dl k :
  ok k -> rs_records (k_result k) = [] -> goodFetch cursor0 log0 recs errs ->
  (forall p, log0 p `prefix_of` logOf (k_net k) p) ->
  (forall p, p ∉ errs -> im_cursor (k_impl k) !! p = cursor0 !! p) ->
  wp (consume cfg handler hook recs dl) (fun _ => ok) (fun _ => ok) k.
Proof.
  intros Hk Hr Hgood Hlog Hcur. unfold consume. apply wp_bind.
  eapply wp_mono; [by apply wp_disposeLoop| |done]. intros a k1 (Hk1 & [Hn Hc Ho Has Ht] & Hd).
  destruct a; [by apply wp_modify|]. destruct (Hd eq_refl) as (i & Hrec & Hall). rewrite Hr in Hrec.
  apply wp_bind, wp_modify, wp_bind, wp_gets. cbn [k_result set_processed rs_records].
  destruct (rs_records (k_result k1)) as [|x xs] eqn:Hx; [by apply wp_ret|].
  apply wp_commitBatch; [done|]. cbn [k_result k_impl k_net set_processed rs_records]. rewrite Hx, Hrec. cbn [app].
  eapply commit_covered; [done|exact Hgood|by rewrite Hn|by rewrite Hc|done].
Qed.

Lemma keeps_connectIfNeeded (I : K -> Prop) dl : stable I -> keeps I (connectIfNeeded cfg dl).
Proof.
  intros HI. unfold connectIfNeeded. apply keepsOr_bind; [apply keepsOr_gets|]. intros [|]; [apply keepsOr_ret|].
  apply keepsOr_bind; [apply safe_keepsOr, safe_remainingMs, HI|]. intros remain.
  apply keepsOr_bind; [apply safe_keepsOr, safe_onNet; [done|]; intros n; apply connectTo_evolves|].
  intros [|]; [|apply keepsOr_ret]. apply keepsOr_bind; [|intros _; apply keepsOr_ret].
  intros k1 Hk1. exact (st_connected I HI k1 true Hk1).
Qed.

(** What restarting the partitions leaves alone. *)
Lemma stable_sinceFetch (k2 : K) (r0 : OutboxConsumeResult) (errs : list Z) :
  stable (fun k' : K => ok k' /\ k_result k' = r0 /\
    (forall p, logOf (k_net k2) p `prefix_of` logOf (k_net k') p) /\
    forall p, p ∉ errs -> im_cursor (k_impl k') !! p = im_cursor (k_impl k2) !! p).
Proof.
  split.
  - intros k3 n [Hl Hq] (? & ? & Hpre & ?). split; [by eapply consumer_ok_evolves|]. split; [done|].
    split; [|done]. intros p. etrans; [apply Hpre|apply Hl].
  - intros k3 b (? & ? & ? & ?). split; [by eapply consumer_ok_same; [..|done]|done].
  - intros k3 b (? & ? & ? & ?). split; [by eapply consumer_ok_same; [..|done]|done].
Qed.

Lemma wp_assignIfNeeded rounds dl r0 k :
  ok k -> k_result k = r0 ->
  wp (assignIfNeeded cfg rounds dl)
    (fun b k' => ok k' /\ k_result k' = r0 /\ (b = true -> im_assigned (k_impl k') = true)) (fun _ => ok) k.
Proof.
  intros Hk Hr. unfold assignIfNeeded. apply wp_bind, wp_gets.
  destruct (im_assigned (k_impl k)) eqn:Ha; [by apply wp_ret|]. by apply wp_assign.
Qed.

Lemma stable_result r0 : stable (fun k' : K => ok k' /\ k_result k' = r0).
Proof. by apply (stable_ok (fun _ r => r = r0)). Qed.

Lemma wp_pollBody rounds dl k :
  ok k -> rs_records (k_result k) = [] -> wp (pollBody cfg handler hook rounds dl) (fun _ => ok) (fun _ => ok) k.
Proof.
  intros Hk Hr. unfold pollBody.
  set (I := fun k' : K => ok k' /\ k_result k' = k_result k).
  assert (stable I) as HI by apply stable_result.
  assert (forall k, I k -> ok k) as Hsub by (by intros ? []).
  apply (wp_stage I); [done|by apply keeps_connectIfNeeded|done|].
  intros [|] k0 [Hk0 Hr0]; cbn [negb]; [|by apply wp_modify].
  apply wp_bind. eapply wp_mono; [by apply wp_assignIfNeeded| |done]. clear Hk0 Hr0 k0.
  intros [|] k1 (Hk1 & Hr1 & Ha1); cbn [negb]; [|by apply wp_modify].
  apply wp_bind. eapply wp_mono; [apply wp_fetchAll; auto| |done].
  intros [[recs errs]|] k2 [(Hk2 & Ha2 & Hr2) Hgood]; [|by apply wp_modify].
  set (I2 := fun k' : K => ok k' /\ k_result k' = k_result k /\
    (forall p, logOf (k_net k2) p `prefix_of` logOf (k_net k') p) /\
    forall p, p ∉ errs -> im_cursor (k_impl k') !! p = im_cursor (k_impl k2) !! p).
  assert (stable I2) as HI2 by apply stable_sinceFetch.
  apply (wp_stage I2); [by intros ? []|apply keeps_restartPartitions; [done|]|by split; [|split; [congruence|]]|].
  { intros k3 p off Hp H64 Hoff (? & ? & ? & Hc). split; [by apply restart_ok; [|left|]|]. split; [done|]. split; [done|].
    intros q Hq. cbn. rewrite lookup_insert_ne; [by apply Hc|]. by intros ->. }
  intros [|] k3 (Hk3 & Hr3 & Hl3 & Hc3); cbn [negb]; [|by apply wp_modify].
  by apply (wp_consume _ _ _ _ _ _ Hk3 ltac:(congruence) Hgood).
Qed.

Lemma keeps_poll deadlineMs : keeps ok (poll cfg handler hook deadlineMs).
Proof.
  intros k Hk. unfold poll. apply wp_bind, wp_modify.
  set (I := fun k' : K => ok k' /\ k_result k' = emptyResult).
  assert (stable I) as HI by apply stable_result.
  apply (wp_stage I); [by intros ? []|apply safe_keeps, safe_onNet, steadyNow_evolves; exact HI|done|].
  intros start k1 Hk1. apply wp_bind, wp_gets. apply (wp_stage I); [by intros ? []| |done|].
  { intros k2 Hk2. unfold wp, onWorld. by destruct (metric _ (k_world k2)) as [w [a|x]]. }
  intros _ k2 [Hk2 Hr2]. apply wp_bind. apply wp_catch.
  eapply wp_mono; [apply wp_pollBody; [done|by rewrite Hr2]|by intros ? k3 Hk3; apply wp_gets|].
  intros x k3 Hk3. destruct x as [[]|]; try done; by apply wp_modify.
Qed.

(** ** Executions *)

(** What a crash leaves: the records of this development, nothing of the program. *)
Definition crashed (s : Impl) : Impl :=
  mkImpl false 0 false [] ∅ ∅ ∅ [] ∅ 0 0 (im_origins s) (im_asked s) (im_trace s).

(** Polls, crashes of the process, and anything the store, the other processes and
    the producers of the topic do in between. *)
Inductive consumed : K -> Prop :=
| consumed_start w n r : (forall it, it ∉ requested n) -> consumed (mkK w n newImpl r)
| consumed_poll deadlineMs k : consumed k -> consumed (poll cfg handler hook deadlineMs k).1
| consumed_crash k : consumed k -> consumed (mkK (k_world k) (k_net k) (crashed (k_impl k)) (k_result k))
| consumed_env w n k : consumed k -> evolves_to (k_net k) n -> consumed (mkK w n (k_impl k) (k_result k)).

Lemma consumed_ok k : consumed k -> ok k.
Proof.
  induction 1 as [w n r Hn|d k _ IH|k _ IH|w n k _ IH Hev].
  - split; cbn; [done|intros p o Hin; by apply elem_of_nil in Hin|intros it Hit; by destruct (Hn it)|done|split; [constructor|done]|done|intros p f Hin; by apply elem_of_nil in Hin].
  - exact (keeps_intro ok _ k (keeps_poll d) IH).
  - destruct IH as [H1 H2 H3 H4 H6 H5 H8].
    split; cbn; [done|exact H2|exact H3|done|split; [constructor|done]|done|exact H8].
  - by eapply consumer_ok_evolves.
Qed.

(** C28: The consumer skips nothing: through polls, aborted batches, lost replies,
    crashes and restarts from committed offsets, every record of a partition
    between an offset at which the broker said the partition begins and the
    consumer's cursor, or any offset the group has committed, was settled: the
    handler answered for it, or a dead letter was stored, or the handler had
    answered for the same message before. *)
Theorem no_record_is_skipped k p o :
  consumed k -> im_cursor (k_impl k) !! p = Some o \/ (p, o) ∈ requested (k_net k) ->
  exists f, (p, f) ∈ im_origins (k_impl k) /\
    forall r, r ∈ logRecords p (logOf (k_net k) p) -> f <= fr_offset r < o -> settled (trace k) r.
Proof.
  intros Hk Ho. apply consumed_ok in Hk. destruct Ho as [Ho|Ho].
  - destruct (co_cursor _ _ Hk p o Ho) as (f & Hf & [_ Hr]). by exists f.
  - destruct (co_asked _ _ Hk p o (co_requested _ _ Hk _ Ho)) as (f & Hf & [_ Hr]). by exists f.
Qed.
End inv.
