(* ===== verification/KafkaFrame.v ===== *)
(** * What the requests of the Kafka consumer leave alone

    The stages of a poll before the records are disposed of only talk to the broker:
    they keep every invariant that does not look at the network, the connection, the
    assignment and the cursors. From it: a poll that reports a failed broker did
    nothing, and a poll that did not process its batch committed nothing. *)

From S2P Require Import Prelude DomainTypes Store World Json Relay Guarantees.
From S2P Require Import KafkaWire KafkaClient KafkaReplies KafkaConsumer.

Open Scope Z_scope.

(** A step that leaves the memory, the trace and the commits alone. *)
Definition apart (f : Impl -> Impl) : Prop :=
  forall s, lastSeen (f s) = lastSeen s /\ seenMessages (f s) = seenMessages s /\
    conversationOrder (f s) = conversationOrder s /\ im_trace (f s) = im_trace s /\ im_asked (f s) = im_asked s.

Section frame.
Context {St E N : Type} `{!MessageStore St, !Env E, !Transport N, !JsonLib}.
Context (cfg : ConsumerConfig).

Abbreviation K := (KWorld St E N).

Section requests.
Context (I : K -> Prop).

Class Framed : Prop := {
  frame_net k n : I k -> I (mkK (k_world k) n (k_impl k) (k_result k));
  frame_impl k f : apart f -> I k -> I (mkK (k_world k) (k_net k) (f (k_impl k)) (k_result k));
}.
Context `{!Framed}.

Lemma frame_onNet {A} (f : N -> N * A) : keeps I (onNet f).
Proof. intros k Hk. unfold wp, onNet. destruct (f (k_net k)). by apply frame_net. Qed.

Lemma frame_setImpl f : apart f -> keeps I (setImpl f).
Proof. intros Hf k Hk. by apply (frame_impl k f). Qed.

Lemma frame_reader {A} (m : rd A) data : keeps I (runReader m data).
Proof. intros k Hk. unfold runReader. by destruct (m data 0) as [pos []]. Qed.
#[local] Hint Resolve frame_onNet frame_reader : effects.
#[local] Hint Extern 1 (keeps I (setImpl _)) => apply frame_setImpl; by repeat split : effects.

Lemma frame_requestRpc apiKey apiVersion body t : keeps I (requestRpc apiKey apiVersion body t).
Proof. unfold requestRpc, closeConnection, impl. keeps_tac. Qed.
#[local] Hint Resolve frame_requestRpc : effects.

Lemma frame_call {A} apiKey apiVersion body t (m : rd A) : keeps I (call apiKey apiVersion body t m).
Proof. unfold call. keeps_tac. Qed.
#[local] Hint Resolve frame_call : effects.

Lemma frame_metadataPartitions rounds dl : keeps I (metadataPartitions cfg rounds dl).
Proof. induction rounds as [|r IH]; cbn [metadataPartitions]; unfold remainingMs; keeps_tac. Qed.

Lemma frame_setCursors parts committed earliest latest :
  keeps I (setCursors parts committed earliest latest).
Proof.
  unfold setCursors. apply keepsOr_bind; [|intros ?; keeps_tac].
  apply keepsOr_forM. intros p _. destruct (initialCursor _ _ _ p). keeps_tac.
Qed.
#[local] Hint Resolve frame_metadataPartitions frame_setCursors : effects.

Lemma frame_assignIfNeeded rounds dl : keeps I (assignIfNeeded cfg rounds dl).
Proof. unfold assignIfNeeded, assign, remainingMs, offsetFetchAll, listOffsets, impl. keeps_tac. Qed.

Lemma frame_restart errs dl : keeps I (restartPartitions cfg errs dl).
Proof. induction errs as [|p errs IH]; cbn [restartPartitions]; unfold remainingMs, listOffsets; keeps_tac. Qed.

Lemma frame_fetchAll dl : keeps I (fetchAll cfg dl).
Proof. unfold fetchAll, remainingMs, closeConnection, impl. keeps_tac. Qed.

Lemma frame_connectIfNeeded dl : keeps I (connectIfNeeded cfg dl).
Proof. unfold connectIfNeeded, remainingMs, impl. keeps_tac. Qed.

Lemma frame_remainingMs dl : keeps I (remainingMs dl).
Proof. unfold remainingMs. keeps_tac. Qed.

Lemma frame_catchK {A} (m h : eff kexn K A) : keeps I m -> keeps I h -> keeps I (catchK m h).
Proof. intros Hm Hh. eapply keepsOr_catch; [exact Hm|]. intros x w Hw; destruct x as [[]|]; first [by apply Hh|done]. Qed.
End requests.
End frame.
#[export] Hint Resolve frame_onNet frame_reader frame_requestRpc frame_call frame_metadataPartitions frame_setCursors
  frame_assignIfNeeded frame_restart frame_fetchAll frame_connectIfNeeded frame_remainingMs : effects.
#[export] Hint Extern 1 (Framed _) => typeclasses eauto : effects.

(** ** Polls that fail *)

Section failures.
Context {St E N : Type} `{!MessageStore St, !Env E, !Transport N, !JsonLib}.
Context (cfg : ConsumerConfig).
Context (handler : ConsumedOutboxRecord -> eff exn (World St E) ConsumeDisposition).
Context (hook : option (eff exn (World St E) unit)).

Abbreviation K := (KWorld St E N).

(** The store, the memory, the trace and the requested commits are those of [k0]. *)
Definition undisturbed (k0 k : K) : Prop :=
  w_store (k_world k) = w_store (k_world k0) /\
  lastSeen (k_impl k) = lastSeen (k_impl k0) /\ seenMessages (k_impl k) = seenMessages (k_impl k0) /\
  conversationOrder (k_impl k) = conversationOrder (k_impl k0) /\
  im_trace (k_impl k) = im_trace (k_impl k0) /\ im_asked (k_impl k) = im_asked (k_impl k0).

Definition idle (k0 k : K) : Prop := undisturbed k0 k /\ k_result k = emptyResult.

#[local] Instance idle_frame k0 : Framed (idle k0).
Proof.
  split; [done|]. intros k f Hf [(H0 & H1 & H2 & H3 & H4 & H5) Hr]. destruct (Hf (k_impl k)) as (E1 & E2 & E3 & E4 & E5).
  split; [|done]. split; [done|]. cbn [k_impl]. by rewrite E1, E2, E3, E4, E5.
Qed.

(** An invariant of the result that records and their dispositions keep. *)
Section result.
Context (P : OutboxConsumeResult -> Prop) (P_push : forall rec d r, P r -> P (push_record rec d r)).
Abbreviation onResult := (fun k : K => P (k_result k)).

#[local] Instance result_frame : Framed onResult.
Proof. by split. Qed.

Lemma keeps_result_onWorld {A} (m : eff exn (World St E) A) : keeps onResult (onWorld m).
Proof. intros k Hk. unfold wp, onWorld. by destruct (m (k_world k)) as [w []]. Qed.

Lemma keeps_result_setImpl f : keeps onResult (setImpl f).
Proof. by intros k Hk. Qed.

Lemma keeps_result_push rec d : keeps onResult (setResult (push_record rec d)).
Proof. intros k Hk. by apply P_push. Qed.
#[local] Hint Resolve keeps_result_onWorld keeps_result_setImpl keeps_result_push frame_catchK : effects.

Lemma keeps_result_dispose raw : keeps onResult (dispose cfg handler raw).
Proof.
  assert (forall m : eff exn (World St E) unit, keeps onResult (catchK (onWorld m ;;; ret true)%eff (ret false))) as Hcatch.
  { intros m. apply frame_catchK; keeps_tac. }
  assert (forall rec reason value, keeps onResult (deadLetter rec reason value)) as Hdead.
  { intros rec reason value. unfold deadLetter. keeps_tac. }
  unfold dispose, disposeMessage, callHandler, impl. keeps_tac; apply frame_catchK; keeps_tac.
Qed.

Lemma keeps_result_disposeLoop recs : keeps onResult (disposeLoop cfg handler recs).
Proof. pose proof keeps_result_dispose. induction recs as [|raw recs IH]; cbn [disposeLoop]; keeps_tac. Qed.

Lemma keeps_result_commit dl : (forall c r, P r -> P (set_committed c r)) -> keeps onResult (commit cfg hook dl).
Proof.
  intros Hc. unfold commit, offsetCommitAll. apply keepsOr_bind.
  { destruct hook; [|keeps_tac]. apply frame_catchK; keeps_tac. }
  intros ok. destruct ok; cbn [negb]; keeps_tac; [apply keepsOr_forM; intros it _; keeps_tac|].
  intros k Hk. by apply Hc.
Qed.
End result.

Definition uncommitted (r : OutboxConsumeResult) : Prop := rs_committedThrough r = ∅ /\ rs_offsetCommitted r = false.

(** What a poll from [k0] that ends with result [r] may have done. *)
Definition contained (k0 : K) (r : OutboxConsumeResult) (k : K) : Prop :=
  (rs_brokerOk r = false -> r = set_brokerOk false emptyResult /\ undisturbed k0 k) /\
  (rs_processed r = false -> uncommitted r).

Lemma wp_consume_contained k0 recs dl k :
  idle k0 k ->
  wp (consume cfg handler hook recs dl) (fun _ k' => contained k0 (k_result k') k')
    (fun _ k' => rs_brokerOk (k_result k') = true) k.
Proof.
  intros [_ Hr]. unfold consume. apply wp_bind.
  eapply wp_mono; [apply (keeps_result_disposeLoop (fun r => rs_brokerOk r = true /\ uncommitted r))| |by intros x k' []].
  { done. }
  { by rewrite Hr. }
  intros aborted k1 [Hb Hu]. destruct aborted.
  { apply wp_modify. cbn [k_result]. split; [|done]. intros Hf. cbn in Hf. congruence. }
  apply wp_bind, wp_modify, wp_bind, wp_gets. cbn [k_result].
  eapply wp_mono with (Q := fun _ k' => rs_brokerOk (k_result k') = true /\ rs_processed (k_result k') = true)
    (E := fun _ k' => rs_brokerOk (k_result k') = true /\ rs_processed (k_result k') = true);
    [|intros _ k2 [H1 H2]; split; congruence|by intros x k2 []].
  destruct (rs_records _); [by apply wp_ret|].
  by apply (keeps_result_commit (fun r => rs_brokerOk r = true /\ rs_processed r = true)).
Qed.

Lemma wp_pollBody_contained k0 rounds dl k :
  idle k0 k ->
  wp (pollBody cfg handler hook rounds dl) (fun _ k' => contained k0 (k_result k') k')
    (fun _ k' => rs_brokerOk (k_result k') = true) k.
Proof.
  assert (forall X (m : eff kexn K X) (f : X -> eff kexn K unit) k', keeps (idle k0) m -> idle k0 k' ->
    (forall a k'', idle k0 k'' -> wp (f a) (fun _ k' => contained k0 (k_result k') k')
      (fun _ k' => rs_brokerOk (k_result k') = true) k'') ->
    wp (bind m f) (fun _ k' => contained k0 (k_result k') k') (fun _ k' => rs_brokerOk (k_result k') = true) k') as Hstage.
  { intros X m f k' Hm Hk Hf. apply wp_bind. eapply wp_mono; [by apply Hm|by apply Hf|].
    intros x k'' [_ Hr]. by rewrite Hr. }
  assert (forall k', idle k0 k' -> wp brokerFailed (fun _ k' => contained k0 (k_result k') k')
    (fun _ k' => rs_brokerOk (k_result k') = true) k') as Hfail.
  { intros k' [Hu Hr]. apply wp_modify. cbn [k_result]. by rewrite Hr. }
  intros Hk. unfold pollBody.
  apply Hstage; [keeps_tac|done|]. intros [] k1 Hk1; cbn [negb]; [|by apply Hfail].
  apply Hstage; [keeps_tac|done|]. intros [] k2 Hk2; cbn [negb]; [|by apply Hfail].
  apply Hstage; [keeps_tac|done|]. intros [[recs errs]|] k3 Hk3; [|by apply Hfail].
  apply Hstage; [keeps_tac|done|]. intros [] k4 Hk4; cbn [negb]; [|by apply Hfail].
  by apply wp_consume_contained.
Qed.

(** C29: The failures of a poll are contained: if it reports that the broker failed, it
    returns no record and no commit, and neither the store nor the memory of the
    consumer changed, nothing was handed to the handler, dead-lettered or asked to
    be committed; if it reports that its batch was not processed - a handler or a
    dead letter failed, or anything else was thrown - it reports no commit. *)
Theorem failed_poll_is_contained deadlineMs k k' r :
  poll cfg handler hook deadlineMs k = (k', Ret r) ->
  (rs_brokerOk r = false -> r = set_brokerOk false emptyResult /\ undisturbed k k') /\
  (rs_processed r = false -> rs_committedThrough r = ∅ /\ rs_offsetCommitted r = false).
Proof.
  intros Hrun. enough (wp (poll cfg handler hook deadlineMs) (contained k) (fun _ _ => True) k) as Hwp.
  { unfold wp in Hwp. by rewrite Hrun in Hwp. }
  unfold poll. apply wp_bind, wp_modify. cbn [k_world k_net k_impl].
  assert (idle k (mkK (k_world k) (k_net k) (k_impl k) emptyResult)) as Hk by done.
  apply wp_bind. eapply wp_mono; [by apply (frame_onNet (idle k))| |done]. intros start k1 Hk1.
  apply wp_bind, wp_gets, wp_bind.
  assert (forall c, keepsOr (idle k) (fun _ _ => False) (onWorld (metric c))) as Hmetric.
  { intros c k2 [(H0 & Hm) Hr]. pose proof (metric_nothrow c (k_world k2) (fun _ w => w_store w = w_store (k_world k2))
      (fun _ H _ => H)) as Hc. unfold wp, onWorld in *. destruct (metric c (k_world k2)) as [w []]; [|done].
    split; [|done]. split; [by rewrite <- H0|exact Hm]. }
  eapply wp_mono; [by apply Hmetric| |by intros ? ? []]. intros [] k2 Hk2.
  apply wp_bind, wp_catch. eapply wp_mono; [by apply wp_pollBody_contained|..].
  - intros [] k3 Hk3. by apply wp_gets.
  - intros x k3 Hb. destruct x as [[]|]; try done; apply wp_modify, wp_gets; cbn [k_result];
      (split; [cbn; congruence|done]).
Qed.
End failures.
