(* ===== verification/KafkaMemory.v ===== *)
(** * The memory of the Kafka consumer

    What [lastSeen], [seenMessages] and [conversationOrder] hold, whatever the
    broker, the store and the handler do: they stay within the capacity, and as
    long as no conversation had to be forgotten the handler sees the messages of a
    conversation in the order of their sequence numbers and none of them twice. *)

From S2P Require Import Prelude DomainTypes Store World Json Relay KafkaWire KafkaClient KafkaReplies KafkaConsumer KafkaFrame.

Open Scope Z_scope.

#[export] Instance ConsumeDisposition_eq_dec : EqDecision ConsumeDisposition.
Proof. solve_decision. Defined.

Definition handledConv (e : ConsumeEvent) : option Z :=
  match e with EvHandled r _ => Some (cr_conversationId r) | _ => None end.

(** The conversations for which the handler answered. *)
Definition handledConvs (t : list ConsumeEvent) : gset Z := list_to_set (omap handledConv t).
Arguments handledConvs : simpl never.

(** [r'] after [r], of the same conversation, after disposition [d] of [r]. *)
Definition follows (r : ConsumedOutboxRecord) (d : ConsumeDisposition) (r' : ConsumedOutboxRecord) : Prop :=
  cr_sequence r <= cr_sequence r' /\
  (cr_sequence r = cr_sequence r' -> cr_messageId r = cr_messageId r') /\
  (d <> DeadLettered -> cr_messageId r <> cr_messageId r').

Definition ordered (t : list ConsumeEvent) : Prop :=
  forall i j r d r' d', (i < j)%nat -> t !! i = Some (EvHandled r d) -> t !! j = Some (EvHandled r' d') ->
    cr_conversationId r = cr_conversationId r' -> follows r d r'.

Section memory.
Context (cap : Z) (Hcap : 0 < cap).

Record mem_ok (s : Impl) : Prop := {
  me_order : NoDup (conversationOrder s);
  me_tracked (c : Z) : c ∈ conversationOrder s <-> is_Some (lastSeen s !! c);
  me_seen (c : Z) : is_Some (seenMessages s !! c) -> is_Some (lastSeen s !! c);
  me_bound : Z.of_nat (length (conversationOrder s)) <= cap;
  me_handled (c : Z) : c ∈ conversationOrder s -> c ∈ handledConvs (im_trace s);
}.

(** The memory covers what was handled. *)
Definition knows (s : Impl) (r : ConsumedOutboxRecord) (d : ConsumeDisposition) : Prop :=
  exists q m, lastSeen s !! cr_conversationId r = Some (q, m) /\ cr_sequence r <= q /\
    (cr_sequence r = q -> cr_messageId r = m) /\
    (d <> DeadLettered -> exists ids, seenMessages s !! cr_conversationId r = Some ids /\ cr_messageId r ∈ ids).

Definition within (s : Impl) : Prop := Z.of_nat (base.size (handledConvs (im_trace s))) <= cap.

Record hist_ok (s : Impl) : Prop := {
  hi_knows : within s -> forall r d, EvHandled r d ∈ im_trace s -> knows s r d;
  hi_ordered : within s -> ordered (im_trace s);
}.

Lemma handledConvs_app t u : handledConvs (t ++ u) = handledConvs t ∪ handledConvs u.
Proof. unfold handledConvs. by rewrite omap_app, list_to_set_app_L. Qed.

Lemma handledConvs_elem t r d : EvHandled r d ∈ t -> cr_conversationId r ∈ handledConvs t.
Proof. intros Hin. apply elem_of_list_to_set, list_elem_of_omap. by exists (EvHandled r d). Qed.

Lemma within_app s e : Z.of_nat (base.size (handledConvs (im_trace s ++ [e]))) <= cap -> within s.
Proof.
  unfold within. rewrite handledConvs_app. intros Hle.
  pose proof (subseteq_size (handledConvs (im_trace s)) (handledConvs (im_trace s) ∪ handledConvs [e])
    ltac:(set_solver)). lia.
Qed.

Lemma ordered_snoc t e :
  ordered t ->
  (forall r d r' d', EvHandled r d ∈ t -> e = EvHandled r' d' -> cr_conversationId r = cr_conversationId r' ->
     follows r d r') -> ordered (t ++ [e]).
Proof.
  intros Ht He i j r d r' d' Hij Hi Hj Hc. apply lookup_app_Some in Hj as [Hj|[Hlen Hj]].
  - rewrite lookup_app_l in Hi by (apply lookup_lt_Some in Hj; lia). by eapply Ht.
  - apply list_lookup_singleton_Some in Hj as [? He']. rewrite lookup_app_l in Hi by lia.
    eapply He; [by eapply list_elem_of_lookup_2|exact He'|done].
Qed.

(** The conversations tracked are at most those handled. *)
Lemma tracked_size s : mem_ok s -> (length (conversationOrder s) <= base.size (handledConvs (im_trace s)))%nat.
Proof.
  intros [Hnd _ _ _ Hh]. rewrite <- (size_list_to_set (C := gset Z)) by done.
  apply subseteq_size. intros c Hc. apply Hh. by apply elem_of_list_to_set in Hc.
Qed.

(** What was said of other events holds on. *)
Lemma note_mem s e : handledConv e = None -> mem_ok s /\ hist_ok s -> mem_ok (note e s) /\ hist_ok (note e s).
Proof.
  intros He [[H1 H2 H3 H4 H5] [K1 K2]]. split; split; cbn; try done.
  - intros c Hc. rewrite handledConvs_app. apply elem_of_union. auto.
  - intros Hw r d Hin. apply elem_of_app in Hin as [Hin|Hin%list_elem_of_singleton]; [|by subst e].
    by apply (K1 (within_app s e Hw)).
  - intros Hw. apply ordered_snoc; [by apply K2, (within_app s e)|]. intros r d r' d' _ ->. done.
Qed.
(** The guards before the handler is called. *)
Definition admissible (s : Impl) (r : ConsumedOutboxRecord) : Prop :=
  seenBefore r s = false /\
  forall q m, lastSeen s !! cr_conversationId r = Some (q, m) ->
    q <= cr_sequence r /\ (cr_sequence r = q -> cr_messageId r = m).

(** What was handled before is followed by what may be handled now. *)
Lemma knows_follows s r d r' :
  knows s r d -> admissible s r' -> cr_conversationId r = cr_conversationId r' -> follows r d r'.
Proof.
  intros (q & m & Hl & Hle & Heq & Hd) [Hs Hq] Hc. rewrite Hc in Hl, Hd.
  destruct (Hq q m Hl) as [Hle' Heq']. repeat split; [lia| |].
  - intros Hqq. rewrite Heq, Heq'; lia.
  - intros Hnd Hm. destruct (Hd Hnd) as (ids & Hids & Hin).
    unfold seenBefore in Hs. rewrite Hids in Hs. apply bool_decide_eq_false in Hs. congruence.
Qed.
Section step.
Context (cfg : ConsumerConfig) (Hcfg : kc_seenConversationsCapacity cfg = cap).

Definition marked (r : ConsumedOutboxRecord) (d : ConsumeDisposition) (s : Impl) : gmap Z (gset Z) :=
  match d with
  | DeadLettered => seenMessages s
  | _ => <[cr_conversationId r := {[cr_messageId r]} ∪ default ∅ (seenMessages s !! cr_conversationId r)]>
           (seenMessages s)
  end.

Lemma marked_ne r d s c : c <> cr_conversationId r -> marked r d s !! c = seenMessages s !! c.
Proof. intros Hc. destruct d; cbn; by rewrite ?lookup_insert_ne by done. Qed.

Lemma marked_eq r d s : d <> DeadLettered ->
  exists ids, marked r d s !! cr_conversationId r = Some ids /\ cr_messageId r ∈ ids /\
    (forall old, seenMessages s !! cr_conversationId r = Some old -> old ⊆ ids).
Proof.
  intros Hd. eexists. split; [by destruct d; cbn; rewrite ?lookup_insert_eq|].
  split; [set_solver|]. intros old ->. set_solver.
Qed.

Lemma marked_grows r d s c old : seenMessages s !! c = Some old ->
  exists ids, marked r d s !! c = Some ids /\ old ⊆ ids.
Proof.
  intros Ho. destruct (decide (c = cr_conversationId r)) as [->|Hc]; [|rewrite marked_ne by done; eauto].
  destruct (decide (d = DeadLettered)) as [->|Hd]; [by exists old|].
  destruct (marked_eq r d s Hd) as (ids & ? & ? & Hsub). exists ids. eauto.
Qed.

(** The conversation that makes room. *)
Definition evicted (s : Impl) : option Z :=
  if cap <=? Z.of_nat (length (conversationOrder s)) then head (conversationOrder s) else None.

Definition keptOrder (s : Impl) : list Z :=
  match evicted s with Some _ => tail (conversationOrder s) | None => conversationOrder s end.

Definition without {A} (o : option Z) (m : gmap Z A) : gmap Z A :=
  match o with Some c => delete c m | None => m end.

Lemma remember_known r d s q m :
  lastSeen s !! cr_conversationId r = Some (q, m) ->
  remember cfg r d s =
  set_seen (if q <? cr_sequence r then <[cr_conversationId r := (cr_sequence r, cr_messageId r)]> (lastSeen s)
            else lastSeen s) (marked r d s) (conversationOrder s) s.
Proof.
  intros Hl. unfold remember, touchConversation, marked.
  destruct d; cbn; rewrite Hl; cbn; by case_match; destruct s.
Qed.

Lemma remember_new r d s :
  lastSeen s !! cr_conversationId r = None ->
  remember cfg r d s =
  set_seen (<[cr_conversationId r := (cr_sequence r, cr_messageId r)]> (without (evicted s) (lastSeen s)))
    (without (evicted s) (marked r d s)) (keptOrder s ++ [cr_conversationId r]) s.
Proof.
  intros Hl. unfold remember, touchConversation, marked, keptOrder, evicted. rewrite Hcfg.
  destruct d; cbn; rewrite Hl; case_match; destruct (conversationOrder s) eqn:Ho; cbn; by rewrite ?Ho.
Qed.
Lemma kept_spec s : mem_ok s ->
  NoDup (keptOrder s) /\ Z.of_nat (length (keptOrder s)) < cap /\
  (forall c, c ∈ keptOrder s <-> c ∈ conversationOrder s /\ evicted s <> Some c).
Proof.
  intros [Hnd _ _ Hb _]. unfold keptOrder, evicted.
  destruct (Z.leb_spec cap (Z.of_nat (length (conversationOrder s)))); [|by repeat split; intuition].
  destruct (conversationOrder s) as [|o rest]; cbn in *; [lia|].
  apply NoDup_cons in Hnd as [Hno Hnd]. split; [done|]. split; [lia|]. intros c. rewrite elem_of_cons.
  split; [intros Hc; split; [by right|congruence]|]. intros [[->|?] ?]; done.
Qed.

Lemma lookup_without {A} o (m : gmap Z A) c : o <> Some c -> without o m !! c = m !! c.
Proof. destruct o; cbn; [intros; apply lookup_delete_ne; congruence|done]. Qed.

Lemma lookup_without_Some {A} o (m : gmap Z A) c :
  is_Some (without o m !! c) -> o <> Some c /\ is_Some (m !! c).
Proof.
  destruct o as [o|]; cbn; [|done]. intros [x Hx]. apply lookup_delete_Some in Hx as [? ?].
  split; [congruence|by eexists].
Qed.

Lemma handled_mem r d s : mem_ok s -> mem_ok (note (EvHandled r d) (remember cfg r d s)).
Proof.
  intros Hs. set (c0 := cr_conversationId r).
  assert (Hh : forall c, c = c0 \/ c ∈ conversationOrder s -> c ∈ handledConvs (im_trace s ++ [EvHandled r d])).
  { intros c [->|Hc]; [by eapply handledConvs_elem, elem_of_app; right; apply list_elem_of_singleton|].
    rewrite handledConvs_app. apply elem_of_union_l, (me_handled s Hs), Hc. }
  destruct (lastSeen s !! c0) as [[q m]|] eqn:Hl.
  - rewrite (remember_known r d s q m Hl). destruct Hs as [H1 H2 H3 H4 _]. split; cbn; try done; [| |by auto].
    + intros c. rewrite H2. case_match; [|done]. rewrite lookup_insert_is_Some'. subst c0. naive_solver.
    + intros c Hc. assert (is_Some (lastSeen s !! c)).
      { destruct (decide (c = c0)) as [->|Hne]; [by eexists|]. apply H3. by rewrite marked_ne in Hc. }
      case_match; [|done]. rewrite lookup_insert_is_Some'. by right.
  - rewrite (remember_new r d s Hl). destruct (kept_spec s Hs) as (Hnd & Hlt & Hk).
    assert (Hc0 : c0 ∉ keptOrder s) by (rewrite Hk, (me_tracked s Hs), Hl; by intros [[? ?] _]).
    destruct Hs as [H1 H2 H3 H4 _]. split; cbn.
    + apply NoDup_app. split; [done|]. split; [|apply NoDup_singleton]. set_solver.
    + intros c. rewrite elem_of_app, list_elem_of_singleton, Hk, H2, lookup_insert_is_Some'. fold c0.
      destruct (decide (evicted s = Some c)) as [He|He];
        [|rewrite lookup_without by done; naive_solver].
      split; [naive_solver|]. intros [->|Hw%lookup_without_Some]; naive_solver.
    + intros c [Hne Hc]%lookup_without_Some. rewrite lookup_insert_is_Some'.
      destruct (decide (c = c0)) as [->|Hcc]; [by left|right].
      rewrite lookup_without by done. apply H3. by rewrite marked_ne in Hc.
    + rewrite length_app. cbn. lia.
    + intros c. rewrite elem_of_app, list_elem_of_singleton. intros [Hc|Hc]; [|auto].
      apply Hk in Hc. naive_solver.
Qed.

(** Within the capacity a new conversation needs no room. *)
Lemma new_needs_no_room r d s :
  mem_ok s -> hist_ok s -> within (note (EvHandled r d) s) ->
  lastSeen s !! cr_conversationId r = None -> evicted s = None.
Proof.
  intros Hm [Hk _] Hw Hl. pose proof (within_app s _ Hw) as Hws.
  assert (Hc : cr_conversationId r ∉ handledConvs (im_trace s)).
  { intros Hin. apply elem_of_list_to_set, list_elem_of_omap in Hin as ([r' d'| |] & Hin & [= Heq]).
    destruct (Hk Hws r' d' Hin) as (q & m & Hl' & _). rewrite Heq in Hl'. congruence. }
  unfold within in Hw. cbn in Hw. rewrite handledConvs_app in Hw.
  assert (H1 : handledConvs [EvHandled r d] = {[cr_conversationId r]})
    by (unfold handledConvs; cbn; apply right_id_L, _).
  rewrite H1, size_union, size_singleton in Hw by set_solver.
  pose proof (tracked_size s Hm). unfold evicted. rewrite (proj2 (Z.leb_gt _ _)); [done|lia].
Qed.

(** What is known stays known. *)
Lemma remember_mono r d s s' r' d' :
  s' = remember cfg r d s -> mem_ok s -> evicted s = None \/ is_Some (lastSeen s !! cr_conversationId r) ->
  knows s r' d' -> knows s' r' d'.
Proof.
  intros -> Hm He (q & m & Hl & Hle & Heq & Hd).
  assert (Hseen : forall M : gmap Z (gset Z), (forall c old, seenMessages s !! c = Some old ->
            exists ids, M !! c = Some ids /\ old ⊆ ids) -> d' <> DeadLettered ->
          exists ids, M !! cr_conversationId r' = Some ids /\ cr_messageId r' ∈ ids).
  { intros M HM Hnd. destruct (Hd Hnd) as (ids & Hids & Hin).
    destruct (HM _ _ Hids) as (ids' & ? & ?). exists ids'. set_solver. }
  destruct (lastSeen s !! cr_conversationId r) as [[q0 m0]|] eqn:Hr.
  - rewrite (remember_known r d s q0 m0 Hr).
    destruct (decide (q0 < cr_sequence r /\ cr_conversationId r' = cr_conversationId r)) as [[Hq Hc]|Hno].
    + exists (cr_sequence r), (cr_messageId r). cbn. rewrite (proj2 (Z.ltb_lt _ _) Hq), Hc, lookup_insert_eq.
      rewrite Hc, Hr in Hl. simplify_eq. repeat split; [lia|lia|]. rewrite <- Hc.
      apply Hseen, marked_grows.
    + exists q, m. cbn. split; [|split; [done|]; split; [done|]; apply Hseen; intros ?; apply marked_grows].
      case_match; [|done]. rewrite lookup_insert_ne; [done|]. lia.
  - destruct He as [He|[? [=]]]. rewrite (remember_new r d s Hr). unfold knows. cbn. rewrite He. cbn.
    exists q, m. rewrite lookup_insert_ne by congruence.
    split; [done|]. split; [done|]. split; [done|]. apply Hseen. intros ?. apply marked_grows.
Qed.

Lemma remember_knows r d s :
  admissible s r -> evicted s = None \/ is_Some (lastSeen s !! cr_conversationId r) ->
  knows (remember cfg r d s) r d.
Proof.
  intros [_ Hq] He. destruct (lastSeen s !! cr_conversationId r) as [[q0 m0]|] eqn:Hr.
  - rewrite (remember_known r d s q0 m0 Hr). destruct (Hq q0 m0 eq_refl) as [Hle Heq].
    assert (d <> DeadLettered -> exists ids, marked r d s !! cr_conversationId r = Some ids /\ cr_messageId r ∈ ids)
      by (intros Hd; destruct (marked_eq r d s Hd) as (ids & ? & ? & _); eauto).
    unfold knows. cbn. destruct (Z.ltb_spec q0 (cr_sequence r)).
    + rewrite lookup_insert_eq. exists (cr_sequence r), (cr_messageId r). repeat split; auto with lia.
    + exists q0, m0. repeat split; auto with lia.
  - destruct He as [He|[? [=]]]. rewrite (remember_new r d s Hr). unfold knows. cbn. rewrite He. cbn.
    rewrite lookup_insert_eq. do 2 eexists. split; [done|]. split; [lia|]. split; [done|].
    intros Hd. destruct (marked_eq r d s Hd) as (ids & ? & ? & _). eauto.
Qed.

Lemma handled_hist r d s :
  admissible s r -> mem_ok s /\ hist_ok s ->
  mem_ok (note (EvHandled r d) (remember cfg r d s)) /\ hist_ok (note (EvHandled r d) (remember cfg r d s)).
Proof.
  intros Ha [Hm Hh]. split; [by apply handled_mem|].
  assert (Ht : im_trace (remember cfg r d s) = im_trace s).
  { unfold remember, touchConversation. by repeat case_match. }
  assert (Hroom : within (note (EvHandled r d) (remember cfg r d s)) ->
            evicted s = None \/ is_Some (lastSeen s !! cr_conversationId r)).
  { unfold within. cbn. rewrite Ht. intros Hw. destruct (lastSeen s !! cr_conversationId r) eqn:Hl; [by right; eexists|].
    left. exact (new_needs_no_room r d s Hm Hh Hw Hl). }
  split; intros Hw; pose proof (Hroom Hw) as He; unfold within in Hw; cbn in Hw |- *; rewrite Ht in Hw |- *;
    pose proof (within_app s _ Hw) as Hws.
  - intros r' d' Hin. apply elem_of_app in Hin as [Hin|Hin%list_elem_of_singleton].
    + apply (remember_mono r d s _ r' d' eq_refl); [done|done|]. by apply (hi_knows s Hh).
    + injection Hin as -> ->. by apply remember_knows.
  - apply ordered_snoc; [by apply (hi_ordered s Hh)|]. intros r1 d1 r2 d2 Hin [= <- <-] Hc.
    apply (knows_follows s); [by apply (hi_knows s Hh)|done|done].
Qed.
End step.
End memory.

(** ** Polls *)

Section polls.
Context {St E N : Type} `{!MessageStore St, !Env E, !Transport N, !JsonLib}.
Context (cfg : ConsumerConfig) (Hcap : 0 < kc_seenConversationsCapacity cfg).
Context (handler : ConsumedOutboxRecord -> eff exn (World St E) ConsumeDisposition).
Context (hook : option (eff exn (World St E) unit)).

Abbreviation K := (KWorld St E N).
Abbreviation cap := (kc_seenConversationsCapacity cfg).

Definition memory (k : K) : Prop := mem_ok cap (k_impl k) /\ hist_ok cap (k_impl k).

Lemma same_memory s s' :
  lastSeen s' = lastSeen s -> seenMessages s' = seenMessages s -> conversationOrder s' = conversationOrder s ->
  im_trace s' = im_trace s -> mem_ok cap s /\ hist_ok cap s -> mem_ok cap s' /\ hist_ok cap s'.
Proof.
  intros E1 E2 E3 E4 [[H1 H2 H3 H4 H5] [K1 K2]].
  unfold within, knows in *. split; split; unfold within, knows; rewrite ?E1, ?E2, ?E3, ?E4; done.
Qed.

#[local] Instance memory_frame : Framed memory.
Proof. split; [done|]. intros k f Hf. destruct (Hf (k_impl k)) as (? & ? & ? & ? & _). by apply same_memory. Qed.

Lemma keeps_onWorld {A} (m : eff exn (World St E) A) : keeps memory (onWorld m).
Proof. intros k Hk. unfold wp, onWorld. by destruct (m (k_world k)) as [w []]. Qed.
#[local] Hint Resolve keeps_onWorld frame_catchK : effects.
#[local] Hint Extern 1 (keeps memory (setImpl _)) => apply (frame_setImpl memory); by repeat split : effects.
#[local] Hint Extern 1 (keeps memory (setImpl (ask _))) => intros ?; by apply same_memory : effects.
#[local] Hint Extern 1 (keeps memory (setResult _)) => by intros ? : effects.

(** ** Records *)

Lemma keeps_note e : handledConv e = None -> keeps memory (setImpl (note e)).
Proof. intros He k Hk. exact (note_mem cap Hcap (k_impl k) e He Hk). Qed.
#[local] Hint Extern 1 (keeps memory (setImpl (note _))) => by apply keeps_note : effects.

Lemma keeps_deadLetter rec reason value : keeps memory (deadLetter rec reason value).
Proof.
  unfold deadLetter. apply keepsOr_bind; [|intros ?; keeps_tac].
  apply frame_catchK; keeps_tac.
Qed.
#[local] Hint Resolve keeps_deadLetter : effects.

Lemma wp_callHandler_memory rec k :
  memory k -> admissible (k_impl k) rec -> wp (callHandler cfg handler rec) (fun _ => memory) (fun _ => memory) k.
Proof.
  intros Hk Ha. unfold callHandler, wp, bind, catchK, catch, onWorld.
  destruct (handler rec (k_world k)) as [w [d|[]]]; try exact Hk.
  exact (handled_hist cap Hcap cfg eq_refl rec d (k_impl k) Ha Hk).
Qed.

Lemma keeps_disposeMessage rec value : keeps memory (disposeMessage cfg handler rec value).
Proof.
  intros k Hk. unfold disposeMessage, impl. apply wp_bind, wp_gets. cbn [id].
  destruct (seenBefore rec (k_impl k)) eqn:Hs.
  { enough (keeps memory (setImpl (note (EvDuplicate rec)) ;;; setResult (push_record rec DuplicateNoOp) ;;; ret false))
      as Hd by exact (Hd k Hk). keeps_tac. }
  destruct (lastSeen (k_impl k) !! cr_conversationId rec) as [[q m]|] eqn:Hl.
  - destruct (Z.ltb_spec (cr_sequence rec) q); [by apply keeps_deadLetter|].
    destruct (_ && _) eqn:Hc; [by apply keeps_deadLetter|].
    apply wp_callHandler_memory; [done|]. split; [done|]. intros q' m' Hl'. rewrite Hl in Hl'. injection Hl' as <- <-.
    split; [lia|]. intros Heq. apply andb_false_iff in Hc as [Hc|Hc]; [lia|].
    apply negb_false_iff in Hc. lia.
  - apply wp_callHandler_memory; [done|]. split; [done|]. intros q' m' Hl'. congruence.
Qed.
#[local] Hint Resolve keeps_disposeMessage : effects.

Lemma keeps_disposeLoop recs : keeps memory (disposeLoop cfg handler recs).
Proof. induction recs as [|raw recs IH]; cbn [disposeLoop]; unfold dispose; keeps_tac. Qed.
#[local] Hint Resolve keeps_disposeLoop : effects.

Lemma keeps_commit dl : keeps memory (commit cfg hook dl).
Proof.
  unfold commit, offsetCommitAll. apply keepsOr_bind.
  { destruct hook; [apply frame_catchK|]; keeps_tac. }
  intros ok. destruct ok; cbn [negb]; keeps_tac.
  apply keepsOr_forM. intros it _. keeps_tac.
Qed.
#[local] Hint Resolve keeps_commit : effects.

Lemma keeps_memory_poll deadlineMs : keeps memory (poll cfg handler hook deadlineMs).
Proof.
  unfold poll, pollBody, consume, brokerFailed, impl.
  keeps_tac. apply frame_catchK; keeps_tac.
Qed.

(** A process: polls, with anything happening to the store and the broker in
    between. *)
Inductive polled : K -> Prop :=
| polled_start w n r : polled (mkK w n newImpl r)
| polled_poll deadlineMs k : polled k -> polled (poll cfg handler hook deadlineMs k).1
| polled_env w n k : polled k -> polled (mkK w n (k_impl k) (k_result k)).

Lemma polled_memory k : polled k -> memory k.
Proof.
  induction 1 as [w n r|d k _ IH|w n k _ IH]; [|exact (keeps_intro memory _ k (keeps_memory_poll d) IH)|done].
  split; split; cbn; [apply NoDup_nil_2| |by intros c [? ?]|lia|..].
  - intros c. rewrite lookup_empty. split; [by intros ?%elem_of_nil|by intros []].
  - intros c Hc. by apply elem_of_nil in Hc.
  - intros _ r' d Hin. by apply elem_of_nil in Hin.
  - done.
Qed.

(** The memory of the consumer is bounded: it never tracks more conversations than
    its capacity, each of them once, and it holds message ids of tracked
    conversations only. *)
Theorem consumer_memory_bounded k :
  polled k ->
  (base.size (lastSeen (k_impl k)) = length (conversationOrder (k_impl k)))%nat /\
  Z.of_nat (base.size (lastSeen (k_impl k))) <= cap /\
  NoDup (conversationOrder (k_impl k)) /\
  dom (seenMessages (k_impl k)) ⊆ dom (lastSeen (k_impl k)).
Proof.
  intros Hk. apply polled_memory in Hk as [[H1 H2 H3 H4 _] _].
  assert (Hsize : base.size (lastSeen (k_impl k)) = length (conversationOrder (k_impl k))).
  { rewrite <- size_dom, <- (size_list_to_set (C := gset Z)) by done. f_equal. apply set_eq. intros c.
    rewrite elem_of_dom, elem_of_list_to_set. symmetry. apply H2. }
  rewrite Hsize. repeat split; [done..|]. intros c. rewrite !elem_of_dom. apply H3.
Qed.

(** C32: Ordered, at most once: while a process has handled messages of no more
    conversations than its memory holds, the handler sees the messages of each
    conversation in the order of their sequence numbers, two messages with the same
    number are the same message, and a message the handler answered for without
    dead-lettering it is not handed to it again. *)
Theorem handler_order_and_dedup k :
  polled k -> Z.of_nat (base.size (handledConvs (im_trace (k_impl k)))) <= cap ->
  ordered (im_trace (k_impl k)).
Proof. intros Hk Hw. apply polled_memory in Hk as [_ Hh]. exact (hi_ordered cap _ Hh Hw). Qed.
End polls.
