(* ===== verification/JsonText.v ===== *)
(** * JSON text and conversions (thirdparty/json.hpp)

    The compact writer of the vendored nlohmann::json, [dump()] with its default
    arguments (no indentation, UTF-8 kept, strict errors), and the conversions
    [get<T>()] the chat service uses.  Writing a string walks the UTF-8 automaton
    of the library and throws on an ill-formed byte, so [dump] is an [option].
    The text of floating-point numbers and their casts to integers are a
    parameter ([JsonFloat]). *)

From S2P Require Import Prelude Json.
From stdpp Require Import pretty.
From Stdlib Require Import QArith Ascii.

Open Scope Z_scope.

Class JsonFloat := {
  floatText : Q -> string;
  castInt : Q -> Z;             (**r [static_cast<int>(double)] and the like *)
  castInt64 : Q -> Z;
  castUint64 : Q -> Z;
}.

Definition byteOf (c : ascii) : Z := Z.of_N (N_of_ascii c).

(** ** The UTF-8 automaton *)

Definition UTF8_ACCEPT : Z := 0.
Definition UTF8_REJECT : Z := 1.

Definition utf8d : list Z :=
  replicate 128 0
  ++ replicate 16 1 ++ replicate 16 9
  ++ replicate 32 7
  ++ replicate 2 8 ++ replicate 30 2
  ++ [10; 3; 3; 3; 3; 3; 3; 3; 3; 3; 3; 3; 3; 4; 3; 3]
  ++ [11; 6; 6; 6; 5; 8; 8; 8; 8; 8; 8; 8; 8; 8; 8; 8]
  ++ [0; 1; 2; 3; 5; 8; 7; 1; 1; 1; 4; 6; 1; 1; 1; 1]
  ++ [1; 1; 1; 1; 1; 1; 1; 1; 1; 1; 1; 1; 1; 1; 1; 1]
  ++ [1; 0; 1; 1; 1; 1; 1; 0; 1; 0; 1; 1; 1; 1; 1; 1]
  ++ [1; 2; 1; 1; 1; 1; 1; 2; 1; 2; 1; 1; 1; 1; 1; 1]
  ++ [1; 1; 1; 1; 1; 1; 1; 2; 1; 1; 1; 1; 1; 1; 1; 1]
  ++ [1; 2; 1; 1; 1; 1; 1; 1; 1; 2; 1; 1; 1; 1; 1; 1]
  ++ [1; 1; 1; 1; 1; 1; 1; 3; 1; 3; 1; 1; 1; 1; 1; 1]
  ++ [1; 3; 1; 1; 1; 1; 1; 3; 1; 3; 1; 1; 1; 1; 1; 1]
  ++ [1; 3; 1; 1; 1; 1; 1; 1; 1; 1; 1; 1; 1; 1; 1; 1].

Definition utf8At (i : Z) : Z := nth (Z.to_nat i) utf8d UTF8_REJECT.

Definition decode (state codep byte : Z) : Z * Z :=
  let type := utf8At byte in
  let codep := if negb (state =? UTF8_ACCEPT)
               then Z.lor (Z.land byte 0x3f) (u32 (Z.shiftl codep 6))
               else Z.land (Z.shiftr 0xFF type) byte in
  (utf8At (256 + state * 16 + type), codep).

(** ** Strings *)

Definition hexDigit (n : Z) : ascii :=
  ascii_of_N (Z.to_N (if n <? 10 then 48 + n else 87 + n)).

(** [snprintf("\\u%04x", x)] *)
Definition hex4 (x : Z) : string :=
  String "\" (String "u" (String (hexDigit (Z.land (Z.shiftr x 12) 15))
    (String (hexDigit (Z.land (Z.shiftr x 8) 15))
      (String (hexDigit (Z.land (Z.shiftr x 4) 15))
        (String (hexDigit (Z.land x 15)) EmptyString))))).

Definition backslash (c : ascii) : string := String "\" (String c EmptyString).

Definition quote : ascii := ascii_of_N 34.

(** An accepted code point whose last byte is [c]. *)
Definition dumpCodepoint (codepoint : Z) (c : ascii) : string :=
  if codepoint =? 0x08 then backslash "b"
  else if codepoint =? 0x09 then backslash "t"
  else if codepoint =? 0x0A then backslash "n"
  else if codepoint =? 0x0C then backslash "f"
  else if codepoint =? 0x0D then backslash "r"
  else if codepoint =? 0x22 then backslash quote
  else if codepoint =? 0x5C then backslash "\"
  else if codepoint <=? 0x1F then hex4 codepoint
  else String c EmptyString.

Fixpoint dumpEscapedFrom (state codepoint : Z) (s : string) : option string :=
  match s with
  | EmptyString => if state =? UTF8_ACCEPT then Some EmptyString else None
  | String c rest =>
      let '(state, codepoint) := decode state codepoint (byteOf c) in
      if state =? UTF8_REJECT then None
      else
        tail ← dumpEscapedFrom state codepoint rest;
        Some ((if state =? UTF8_ACCEPT then dumpCodepoint codepoint c
               else String c EmptyString) +:+ tail)
  end.

Definition dump_escaped (s : string) : option string := dumpEscapedFrom UTF8_ACCEPT 0 s.

Definition quoted (s : string) : string := String quote (s +:+ String quote EmptyString).

(** ** Integers *)

Definition digit (n : Z) : ascii := ascii_of_N (Z.to_N (48 + n)).

(** [while (abs_value >= 100)]: two digits a round; ten rounds cover 64 bits. *)
Fixpoint intLoop (rounds : nat) (abs_value : Z) (buffer : string) : string :=
  match rounds with
  | O => buffer
  | S r =>
      if 100 <=? abs_value then
        let i := abs_value mod 100 in
        intLoop r (abs_value / 100) (String (digit (i / 10)) (String (digit (i mod 10)) buffer))
      else if 10 <=? abs_value
      then String (digit (abs_value / 10)) (String (digit (abs_value mod 10)) buffer)
      else String (digit abs_value) buffer
  end.

Definition dump_integer (x : Z) : string :=
  if x =? 0 then "0"
  else if x <? 0 then String "-" (intLoop 10 (u64 (u64 (- (x + 1)) + 1)) EmptyString)
  else intLoop 10 (u64 x) EmptyString.

(** ** Values *)

Fixpoint joined (l : list string) : string :=
  match l with
  | [] => EmptyString
  | [x] => x
  | x :: rest => x +:+ String "," (joined rest)
  end.

Section dump.
Context `{!JsonFloat}.

Fixpoint dump (j : Json) : option string :=
  match j with
  | JNull => Some "null"
  | JBool b => Some (if b then "true" else "false")
  | JInt z => Some (dump_integer z)
  | JFloat q => Some (floatText q)
  | JStr s => t ← dump_escaped s; Some (quoted t)
  | JArr l =>
      items ← (fix go l := match l with
                           | [] => Some []
                           | x :: rest => t ← dump x; ts ← go rest; Some (t :: ts)
                           end) l;
      Some (String "[" (joined items +:+ "]"))
  | JObj fields =>
      items ← (fix go l := match l with
                           | [] => Some []
                           | (k, v) :: rest =>
                               kt ← dump_escaped k; t ← dump v; ts ← go rest;
                               Some ((quoted kt +:+ String ":" t) :: ts)
                           end) fields;
      Some (String "{" (joined items +:+ "}"))
  end.

(** ** Conversions; [None] is a type_error *)

(** [get<int64_t>], [get<uint64_t>] *)
Definition getInt64 (j : Json) : option Z :=
  match j with
  | JInt z => Some (i64 z)
  | JFloat q => Some (castInt64 q)
  | _ => None
  end.

Definition getUint64 (j : Json) : option Z :=
  match j with
  | JInt z => Some (u64 z)
  | JFloat q => Some (castUint64 q)
  | _ => None
  end.

(** [get<int>]: the overload for the other arithmetic types takes booleans. *)
Definition getInt (j : Json) : option Z :=
  match j with
  | JInt z => Some (i32 z)
  | JFloat q => Some (castInt q)
  | JBool b => Some (if b then 1 else 0)
  | _ => None
  end.
End dump.

Definition getString (j : Json) : option string :=
  match j with JStr s => Some s | _ => None end.

Definition contains (k : string) (j : Json) : bool :=
  match jfield k j with Some _ => true | None => false end.

(** [j[k] = v] on an object: [std::map] keeps the keys in order. *)
Fixpoint setField (k : string) (v : Json) (fields : list (string * Json)) : list (string * Json) :=
  match fields with
  | [] => [(k, v)]
  | (k', v') :: rest =>
      match String.compare k k' with
      | Eq => (k, v) :: rest
      | Lt => (k, v) :: fields
      | Gt => (k', v') :: setField k v rest
      end
  end.

(** [None]: a type_error; a null value becomes an object. *)
Definition jset (k : string) (v : Json) (j : Json) : option Json :=
  match j with
  | JObj fields => Some (JObj (setField k v fields))
  | JNull => Some (JObj [(k, v)])
  | _ => None
  end.

(** The object built by successive [reply[k] = v]. *)
Definition objectOf (fields : list (string * Json)) : Json :=
  JObj (foldl (fun acc kv => setField kv.1 kv.2 acc) [] fields).
