(* ===== verification/MySqlTables.v ===== *)
(** * The tables of the message store and its SQL

    The tables of sql/migrations/0002_expand.sql and 0003_consumer_dead_letter.sql
    with their keys, and the statements of src/app/MySQLMessageStore.cpp as functions
    on them.  A DATETIME is its number of seconds since 1970, [None] is NULL, and a
    comparison with NULL does not hold.  A statement fails with the error code of
    the server or makes its changes. *)

From S2P Require Import Prelude DomainTypes.

Open Scope Z_scope.

Abbreviation DateTime := (option Z).

Record ConversationRow := mkConversationRow { cv_kind : Kind; cv_next_sequence : Z }.

Record MessageRow := mkMessageRow {
  mr_conversation_id : Z;
  mr_sender_id : Z;
  mr_client_message_id : string;
  mr_sequence : Z;
  mr_content : string;
}.

Record DeliveryRow := mkDeliveryRow {
  dr_state : Z;
  dr_attempt_count : Z;
  dr_next_attempt_at : DateTime;
  dr_lease_owner : option string;
  dr_lease_until : DateTime;
  dr_last_sent_at : DateTime;
  dr_acknowledged_at : DateTime;
  dr_expires_at : DateTime;
}.

Record OutboxRow := mkOutboxRow {
  ox_aggregate_message_id : Z;
  ox_event_type : string;
  ox_payload : string;
  ox_available_at : Z;
  ox_lease_owner : option string;
  ox_lease_until : DateTime;
  ox_attempt_count : Z;
  ox_processed_at : DateTime;
}.

Record Tables := mkTables {
  User : gset Z;
  AllGroup : gset Z;
  Conversation : gmap Z ConversationRow;
  DirectConversation : gmap Z (Z * Z);          (**r user_low_id, user_high_id *)
  GroupConversation : gmap Z Z;                 (**r group_id *)
  ChatMessage : gmap Z MessageRow;
  MessageDelivery : gmap (Z * Z) DeliveryRow;   (**r message_id, recipient_id *)
  OutboxEvent : gmap Z OutboxRow;
  KafkaDeadLetter : gmap Z DeadLetterRecord;
}.

Definition set_Conversation (x : gmap Z ConversationRow) (t : Tables) : Tables :=
  mkTables (User t) (AllGroup t) x (DirectConversation t) (GroupConversation t) (ChatMessage t)
    (MessageDelivery t) (OutboxEvent t) (KafkaDeadLetter t).

Definition set_DirectConversation (x : gmap Z (Z * Z)) (t : Tables) : Tables :=
  mkTables (User t) (AllGroup t) (Conversation t) x (GroupConversation t) (ChatMessage t)
    (MessageDelivery t) (OutboxEvent t) (KafkaDeadLetter t).

Definition set_GroupConversation (x : gmap Z Z) (t : Tables) : Tables :=
  mkTables (User t) (AllGroup t) (Conversation t) (DirectConversation t) x (ChatMessage t)
    (MessageDelivery t) (OutboxEvent t) (KafkaDeadLetter t).

Definition set_ChatMessage (x : gmap Z MessageRow) (t : Tables) : Tables :=
  mkTables (User t) (AllGroup t) (Conversation t) (DirectConversation t) (GroupConversation t) x
    (MessageDelivery t) (OutboxEvent t) (KafkaDeadLetter t).

Definition set_MessageDelivery (x : gmap (Z * Z) DeliveryRow) (t : Tables) : Tables :=
  mkTables (User t) (AllGroup t) (Conversation t) (DirectConversation t) (GroupConversation t) (ChatMessage t)
    x (OutboxEvent t) (KafkaDeadLetter t).

Definition set_OutboxEvent (x : gmap Z OutboxRow) (t : Tables) : Tables :=
  mkTables (User t) (AllGroup t) (Conversation t) (DirectConversation t) (GroupConversation t) (ChatMessage t)
    (MessageDelivery t) x (KafkaDeadLetter t).

Definition set_KafkaDeadLetter (x : gmap Z DeadLetterRecord) (t : Tables) : Tables :=
  mkTables (User t) (AllGroup t) (Conversation t) (DirectConversation t) (GroupConversation t) (ChatMessage t)
    (MessageDelivery t) (OutboxEvent t) x.

(** ** The server

    The order of rows without ORDER BY, the largest argument of FROM_UNIXTIME, the
    collation of the utf8 columns, what INSERT IGNORE makes of a text for a column of
    limited size, and what the client library leaves in the buffer of a column that
    is NULL are parameters. *)

Class SqlServer := {
  arrange {A : Type} : list A -> list A;
  maxUnixTime : Z;
  sameText : string -> string -> bool;
  ignoreText : Z -> string -> string;
  afterNull : string -> string;
}.

Class SqlServerLaws `{SqlServer} := {
  arrange_perm {A} (l : list A) : arrange l ≡ₚ l;
  maxUnixTime_ok : 2 ^ 31 - 1 <= maxUnixTime < 2 ^ 43;
  sameText_refl s : sameText s s = true;
  sameText_sym s s' : sameText s s' = sameText s' s;
  sameText_trans s s' s'' : sameText s s' = true -> sameText s' s'' = true -> sameText s s'' = true;
}.

(** A comparison of the collation ascii_bin pads the shorter text with spaces. *)
Fixpoint trimEnd (s : string) : string :=
  match s with
  | EmptyString => EmptyString
  | String c rest =>
      match trimEnd rest with
      | EmptyString => if Ascii.eqb c (Ascii.ascii_of_nat 32) then EmptyString else String c EmptyString
      | rest' => String c rest'
      end
  end.

Definition samePadded (a b : string) : bool := bool_decide (trimEnd a = trimEnd b).

(** [a < b], [a <= b] *)
Definition sqlLt (a b : DateTime) : bool := match a, b with Some x, Some y => x <? y | _, _ => false end.

Definition sqlLe (a b : DateTime) : bool := match a, b with Some x, Some y => x <=? y | _, _ => false end.

Definition isNull {A} (a : option A) : bool := match a with Some _ => false | None => true end.

(** ** Changes within a transaction *)

Inductive Write :=
| InsertConversation (id : Z) (row : ConversationRow)
| InsertDirect (id low high : Z)
| InsertGroup (id group : Z)
| SetNextSequence (id next : Z)
| InsertMessage (id : Z) (row : MessageRow)
| InsertOutbox (id : Z) (row : OutboxRow)
| InsertDelivery (key : Z * Z) (row : DeliveryRow).

Definition applyWrite (t : Tables) (w : Write) : Tables :=
  match w with
  | InsertConversation id row => set_Conversation (<[id := row]> (Conversation t)) t
  | InsertDirect id low high => set_DirectConversation (<[id := (low, high)]> (DirectConversation t)) t
  | InsertGroup id group => set_GroupConversation (<[id := group]> (GroupConversation t)) t
  | SetNextSequence id next =>
      set_Conversation (alter (fun row => mkConversationRow (cv_kind row) next) id (Conversation t)) t
  | InsertMessage id row => set_ChatMessage (<[id := row]> (ChatMessage t)) t
  | InsertOutbox id row => set_OutboxEvent (<[id := row]> (OutboxEvent t)) t
  | InsertDelivery key row => set_MessageDelivery (<[key := row]> (MessageDelivery t)) t
  end.

Definition applyWrites (ws : list Write) (t : Tables) : Tables := foldl applyWrite t ws.

(** ** Statements *)

Definition ER_DUP_ENTRY : Z := 1062.
Definition ER_NO_REFERENCED_ROW_2 : Z := 1452.
Definition ER_DATA_TOO_LONG : Z := 1406.
Definition ER_TRUNCATED_WRONG_VALUE : Z := 1366.
Definition ER_OUT_OF_RANGE : Z := 1264.

(** Some row satisfies [p]. *)
Definition anyRow {K A} `{Countable K} (p : K -> A -> bool) (m : gmap K A) : bool :=
  existsb (fun kr => p kr.1 kr.2) (map_to_list m).

Definition keysWhere {A} (p : A -> bool) (m : gmap Z A) : list Z :=
  (filter (fun kr => p kr.2 = true) (sorted_items Z.le m)).*1.

(** SELECT conversation_id FROM DirectConversation WHERE user_low_id=? AND user_high_id=? *)
Definition selectDirect (low high : Z) (t : Tables) : option Z :=
  head (keysWhere (fun lh => (lh.1 =? low) && (lh.2 =? high)) (DirectConversation t)).

(** SELECT conversation_id FROM GroupConversation WHERE group_id=? *)
Definition selectGroup (group : Z) (t : Tables) : option Z :=
  head (keysWhere (fun g => g =? group) (GroupConversation t)).

Definition insertConversationStmt (id : Z) (kind : Kind) (t : Tables) : Z + list Write :=
  inr [InsertConversation id (mkConversationRow kind 0)].

Definition insertDirectStmt (id low high : Z) (t : Tables) : Z + list Write :=
  if negb (isNull (selectDirect low high t)) || negb (isNull (DirectConversation t !! id)) then inl ER_DUP_ENTRY
  else if bool_decide (low ∈ User t /\ high ∈ User t /\ is_Some (Conversation t !! id))
  then inr [InsertDirect id low high]
  else inl ER_NO_REFERENCED_ROW_2.

Definition insertGroupStmt (id group : Z) (t : Tables) : Z + list Write :=
  if negb (isNull (selectGroup group t)) || negb (isNull (GroupConversation t !! id)) then inl ER_DUP_ENTRY
  else if bool_decide (group ∈ AllGroup t /\ is_Some (Conversation t !! id))
  then inr [InsertGroup id group]
  else inl ER_NO_REFERENCED_ROW_2.

(** SELECT next_sequence FROM Conversation WHERE id=? FOR UPDATE *)
Definition selectNextSequence (id : Z) (t : Tables) : option Z := cv_next_sequence <$> Conversation t !! id.

Definition setNextSequenceStmt (id next : Z) (t : Tables) : Z + list Write := inr [SetNextSequence id next].

Definition asciiOnly (s : string) : bool :=
  forallb (fun c => Z.of_N (Ascii.N_of_ascii c) <? 128) (String.list_ascii_of_string s).

Definition textLength (s : string) : Z := Z.of_nat (String.length s).

(** UNIQUE(conversation_id, sequence), UNIQUE(sender_id, client_message_id) *)
Definition messageTaken (row : MessageRow) (t : Tables) : bool :=
  anyRow (fun _ r =>
    ((mr_conversation_id r =? mr_conversation_id row) && (mr_sequence r =? mr_sequence row)) ||
    ((mr_sender_id r =? mr_sender_id row) && samePadded (mr_client_message_id r) (mr_client_message_id row)))
    (ChatMessage t).

Definition insertMessageStmt (id : Z) (row : MessageRow) (t : Tables) : Z + list Write :=
  if negb (asciiOnly (mr_client_message_id row)) then inl ER_TRUNCATED_WRONG_VALUE
  else if (64 <? textLength (mr_client_message_id row)) || (2 ^ 24 <=? textLength (mr_content row))
  then inl ER_DATA_TOO_LONG
  else if negb (isNull (ChatMessage t !! id)) || messageTaken row t then inl ER_DUP_ENTRY
  else if bool_decide (mr_sender_id row ∈ User t /\ is_Some (Conversation t !! mr_conversation_id row))
  then inr [InsertMessage id row]
  else inl ER_NO_REFERENCED_ROW_2.

(** UNIQUE(event_type, aggregate_message_id) *)
Definition insertOutboxStmt `{!SqlServer} (id : Z) (row : OutboxRow) (t : Tables) : Z + list Write :=
  if 2 ^ 24 <=? textLength (ox_payload row) then inl ER_DATA_TOO_LONG
  else if negb (isNull (OutboxEvent t !! id)) ||
          anyRow (fun _ r => (ox_aggregate_message_id r =? ox_aggregate_message_id row) &&
                             sameText (ox_event_type r) (ox_event_type row)) (OutboxEvent t)
  then inl ER_DUP_ENTRY
  else if bool_decide (is_Some (ChatMessage t !! ox_aggregate_message_id row))
  then inr [InsertOutbox id row]
  else inl ER_NO_REFERENCED_ROW_2.

Definition insertDeliveryStmt (key : Z * Z) (row : DeliveryRow) (t : Tables) : Z + list Write :=
  if negb (isNull (MessageDelivery t !! key)) then inl ER_DUP_ENTRY
  else if bool_decide (is_Some (ChatMessage t !! key.1) /\ key.2 ∈ User t)
  then inr [InsertDelivery key row]
  else inl ER_NO_REFERENCED_ROW_2.

(** ** Statements outside of transactions *)

Definition limitOf (limit : Z) : nat := Z.to_nat limit.

Section scans.
Context `{!SqlServer}.

Definition fromUnixTime (secs : Z) : DateTime :=
  if (0 <=? secs) && (secs <=? maxUnixTime) then Some secs else None.

(** UPDATE MessageDelivery SET ... WHERE message_id=? AND recipient_id=? *)
Definition updateDeliveryStmt (key : Z * Z) (row : DeliveryRow) (t : Tables) : Tables :=
  set_MessageDelivery (alter (fun _ => row) key (MessageDelivery t)) t.

Definition deliveryRows (p : DeliveryRow -> bool) (t : Tables) : list ((Z * Z) * DeliveryRow) :=
  filter (fun kr => p kr.2 = true) (map_to_list (MessageDelivery t)).

(** state=1 AND next_attempt_at IS NOT NULL AND next_attempt_at <= FROM_UNIXTIME(?) *)
Definition dueRow (nowSecs : Z) (r : DeliveryRow) : bool :=
  (dr_state r =? 1) && sqlLe (dr_next_attempt_at r) (fromUnixTime nowSecs).

(** state IN (0,1) AND expires_at IS NOT NULL AND expires_at < FROM_UNIXTIME(?) *)
Definition expirableRow (nowSecs : Z) (r : DeliveryRow) : bool :=
  ((dr_state r =? 0) || (dr_state r =? 1)) && sqlLt (dr_expires_at r) (fromUnixTime nowSecs).

Definition expiredRow (r : DeliveryRow) : DeliveryRow :=
  mkDeliveryRow 3 (dr_attempt_count r) None None None None (dr_acknowledged_at r) (dr_expires_at r).

Definition byMessage (a b : (Z * Z) * DeliveryRow) : Prop := a.1.1 <= b.1.1.

#[export] Instance byMessage_dec : RelDecision byMessage.
Proof. intros a b. unfold byMessage. apply _. Defined.

(** ... ORDER BY message_id LIMIT ? *)
Definition expirable (nowSecs limit : Z) (t : Tables) : list ((Z * Z) * DeliveryRow) :=
  take (limitOf limit) (merge_sort byMessage (arrange (deliveryRows (expirableRow nowSecs) t))).

Definition expireStmt (nowSecs limit : Z) (t : Tables) : Tables * Z :=
  let rows := expirable nowSecs limit t in
  (set_MessageDelivery (foldl (fun m kr => alter expiredRow kr.1 m) (MessageDelivery t) rows) t,
   Z.of_nat (length rows)).

(** DELETE FROM MessageDelivery WHERE ... LIMIT ? *)
Definition deleteStmt (p : DeliveryRow -> bool) (limit : Z) (t : Tables) : Tables * Z :=
  let rows := take (limitOf limit) (arrange (deliveryRows p t)) in
  (set_MessageDelivery (foldl (fun m kr => delete kr.1 m) (MessageDelivery t) rows) t,
   Z.of_nat (length rows)).

Definition ackedRow (secs : Z) (r : DeliveryRow) : bool :=
  (dr_state r =? 2) && sqlLt (dr_acknowledged_at r) (fromUnixTime secs).

Definition retiredRow (secs : Z) (r : DeliveryRow) : bool :=
  (dr_state r =? 3) && sqlLt (dr_expires_at r) (fromUnixTime secs).

(** processed_at IS NULL AND available_at <= FROM_UNIXTIME(?) AND (lease_owner IS
    NULL OR lease_until <= FROM_UNIXTIME(?)) *)
Definition claimableRow (nowSecs : Z) (r : OutboxRow) : bool :=
  isNull (ox_processed_at r) && sqlLe (Some (ox_available_at r)) (fromUnixTime nowSecs) &&
  (isNull (ox_lease_owner r) || sqlLe (ox_lease_until r) (fromUnixTime nowSecs)).

Definition claimedRow (owner : string) (leaseSecs : Z) (r : OutboxRow) : OutboxRow :=
  mkOutboxRow (ox_aggregate_message_id r) (ox_event_type r) (ox_payload r) (ox_available_at r) (Some owner)
    (fromUnixTime leaseSecs) (ox_attempt_count r + 1) (ox_processed_at r).

Definition outboxRows (p : OutboxRow -> bool) (limit : Z) (t : Tables) : list (Z * OutboxRow) :=
  take (limitOf limit) (filter (fun kr => p kr.2 = true) (sorted_items Z.le (OutboxEvent t))).

(** UPDATE OutboxEvent SET ... ORDER BY id LIMIT ? *)
Definition claimStmt (nowSecs leaseSecs : Z) (owner : string) (limit : Z) (t : Tables) : Z + Tables :=
  let rows := outboxRows (claimableRow nowSecs) limit t in
  if existsb (fun kr => 2 ^ 31 - 1 <=? ox_attempt_count kr.2) rows then inl ER_OUT_OF_RANGE
  else inr (set_OutboxEvent (foldl (fun m kr => alter (claimedRow owner leaseSecs) kr.1 m) (OutboxEvent t) rows) t).

(** lease_owner=? AND UNIX_TIMESTAMP(lease_until)=? AND processed_at IS NULL *)
Definition leasedBy (owner : string) (leaseSecs : Z) (r : OutboxRow) : bool :=
  match ox_lease_owner r with Some o => sameText o owner | None => false end && bool_decide (ox_lease_until r = Some leaseSecs) &&
  isNull (ox_processed_at r).

(** UPDATE OutboxEvent SET processed_at=FROM_UNIXTIME(?), lease_owner=NULL, lease_until=NULL
    WHERE id=? AND processed_at IS NULL *)
Definition processedRow (nowSecs : Z) (r : OutboxRow) : OutboxRow :=
  if isNull (ox_processed_at r)
  then mkOutboxRow (ox_aggregate_message_id r) (ox_event_type r) (ox_payload r) (ox_available_at r) None None
         (ox_attempt_count r) (fromUnixTime nowSecs)
  else r.

Definition processStmt (id nowSecs : Z) (t : Tables) : Tables :=
  set_OutboxEvent (alter (processedRow nowSecs) id (OutboxEvent t)) t.

(** INSERT IGNORE INTO KafkaDeadLetter: UNIQUE(topic, partition_id, kafka_offset) *)
Definition storedDeadLetter (r : DeadLetterRecord) : DeadLetterRecord :=
  mkDeadLetter (ignoreText 191 (dlr_topic r)) (dlr_partitionId r) (u64 (dlr_kafkaOffset r)) (dlr_messageId r)
    (dlr_conversationId r) (dlr_sequence r) (ignoreText 64 (dlr_eventType r)) (ignoreText 32 (dlr_reason r))
    (ignoreText (2 ^ 24 - 1) (dlr_rawValue r)).

Definition sameDeadLetter (a b : DeadLetterRecord) : bool :=
  sameText (dlr_topic a) (dlr_topic b) && (dlr_partitionId a =? dlr_partitionId b) &&
  (dlr_kafkaOffset a =? dlr_kafkaOffset b).

Definition deadLetterStmt (id : Z) (r : DeadLetterRecord) (t : Tables) : Tables :=
  let r := storedDeadLetter r in
  if anyRow (fun _ x => sameDeadLetter x r) (KafkaDeadLetter t) then t
  else set_KafkaDeadLetter (<[id := r]> (KafkaDeadLetter t)) t.
End scans.
