(* ===== verification/MySqlStore.v ===== *)
(** * The MySQL message store (src/app/MySQLMessageStore.cpp)

    The adapter of the MessageStore port over the tables of [MySqlTables].  An accept
    is one transaction over three operations of the port, kept in the thread-local
    [g_tx]: the changes of the open transaction are a list of [Write]s that only the
    transaction sees, COMMIT applies them, ROLLBACK drops them.  Before every
    statement other connections may commit changes of their own, and any call may
    fail; a COMMIT whose reply is lost may have been carried out.  A ROLLBACK fails
    only with its connection, and the server then rolls back. *)

From S2P Require Import Prelude DomainTypes Store Json JsonText MySqlTables.
From stdpp Require Import pretty.
From Stdlib Require Import Ascii.

Open Scope Z_scope.
Open Scope eff_scope.

(** ** Columns *)

Definition mapStoreError (err : Z) : StoreErrorKind :=
  if bool_decide (err ∈ [1205; 1213; 2006; 2013; 1053; 2003]) then StoreDependencyBusy
  else if err =? 1452 then StoreNotFound
  else StoreStorage.

Definition storeError (err : Z) : exn := MessageStoreError (mapStoreError err).

Definition encodeState (st : DeliveryState) : Z :=
  match st with Pending => 0 | InFlight => 1 | Acknowledged => 2 | Expired => 3 end.

Definition decodeState (z : Z) : option DeliveryState :=
  if z =? 0 then Some Pending else if z =? 1 then Some InFlight
  else if z =? 2 then Some Acknowledged else if z =? 3 then Some Expired else None.

(** [static_cast<int64_t>(secs * 1000.0)]: exact for whole seconds below 2^53 / 1000 *)
Definition secsToMs (secs : Z) : Z := i64 (secs * 1000).

Definition encodeLeaseOwner (owner : SessionIdentity) (bootId : Z) : string :=
  if userId owner =? 0 then EmptyString
  else pretty (userId owner) +:+ ":" +:+ pretty (generation owner) +:+ ":" +:+ pretty bootId.

(** [strtoull(s, nullptr, 10)] *)
Definition isSpace (c : ascii) : bool := (byteOf c =? 32) || ((9 <=? byteOf c) && (byteOf c <=? 13)).

Definition isDigit (c : ascii) : bool := (48 <=? byteOf c) && (byteOf c <=? 57).

Fixpoint digitsValue (acc : Z) (s : list ascii) : Z :=
  match s with
  | c :: rest => if isDigit c then digitsValue (acc * 10 + (byteOf c - 48)) rest else acc
  | [] => acc
  end.

Definition saturate (v : Z) : Z := if v <? 2 ^ 64 then v else 2 ^ 64 - 1.

Fixpoint strtoull (s : list ascii) : Z :=
  match s with
  | c :: rest =>
      if isSpace c then strtoull rest
      else if byteOf c =? 45
      then let v := digitsValue 0 rest in if v <? 2 ^ 64 then u64 (- v) else 2 ^ 64 - 1
      else if byteOf c =? 43 then saturate (digitsValue 0 rest)
      else saturate (digitsValue 0 s)
  | [] => 0
  end.

(** The text before and after the first colon; [None] for the rest without one. *)
Fixpoint splitColon (s : list ascii) : list ascii * option (list ascii) :=
  match s with
  | [] => ([], None)
  | c :: rest =>
      if byteOf c =? 58 then ([], Some rest)
      else let '(a, b) := splitColon rest in (c :: a, b)
  end.

(** [None]: "malformed lease owner" *)
Definition decodeLeaseOwner (text : string) : option (SessionIdentity * Z) :=
  match String.list_ascii_of_string text with
  | [] => Some (mkSession 0 0, 0)
  | s =>
      match splitColon s with
      | ([], _) | (_, None) | (_, Some []) => None
      | (uid, Some rest) =>
          let '(gen, boot) := splitColon rest in
          Some (mkSession (strtoull uid) (strtoull gen),
                match boot with Some b => strtoull b | None => 0 end)
      end
  end.

Section snapshots.
Context `{!JsonLib, !JsonFloat}.

Definition kKindDirect : string := "DIRECT".
Definition kKindGroup : string := "GROUP".

Definition commandSnapshot (cmd : SendMessageCommand) : Json :=
  match kind cmd with
  | Direct => objectOf [("kind"%string, JStr kKindDirect); ("direct_recipient"%string, JInt (directRecipient cmd))]
  | Group => objectOf [("kind"%string, JStr kKindGroup); ("group_id"%string, JInt (groupId cmd));
                       ("members"%string, JArr (JInt <$> members cmd))]
  end.

(** The text is ASCII and is always written. *)
Definition encodeCommandSnapshot (cmd : SendMessageCommand) : string :=
  default EmptyString (dump (commandSnapshot cmd)).

(** [members[i].get<uint64_t>()] for each [i] below [members.size()] *)
Definition membersOf (j : Json) : option (list Z) :=
  match j with
  | JArr l => mapM getUint64 l
  | JNull | JObj [] => Some []
  | _ => None
  end.

(** [None]: a MessageStoreError of kind Storage; the constructor of ClientMessageId
    throws an invalid_argument outside of the handlers. *)
Definition decodeCommand (payloadJson content clientMessageId : string) : option SendMessageCommand :=
  j ← json_parse payloadJson;
  kind ← jfield "kind" j ≫= getString;
  if bool_decide (kind = kKindDirect) then
    r ← jfield "direct_recipient" j ≫= getUint64;
    Some (mkCommand clientMessageId Direct r 0 [] content)
  else if bool_decide (kind = kKindGroup) then
    g ← jfield "group_id" j ≫= getUint64;
    ms ← jfield "members" j ≫= membersOf;
    Some (mkCommand clientMessageId Group 0 g ms content)
  else None.

Definition decodeCommandSnapshot (payloadJson content clientMessageId : string) : exn + SendMessageCommand :=
  match json_parse payloadJson with
  | None => inl (MessageStoreError StoreStorage)
  | Some _ =>
      if negb (ClientMessageId_isValid clientMessageId) then inl InvalidArgument
      else match decodeCommand payloadJson content clientMessageId with
           | Some cmd => inr cmd
           | None => inl (MessageStoreError StoreStorage)
           end
  end.
End snapshots.

(** ** Transactions *)

Inductive Step :=
| FindConversation | CreateConversation | CreateConversationLink | RecoverConversation | LockConversation
| AdvanceSequence | InsertMessageStep | RecoverMessage | InsertOutboxEvent | InsertDeliveryStep | Commit.

(** The tables with an AUTO_INCREMENT column *)
Inductive AutoTable := ConversationIds | MessageIds | EventIds | DeadLetterIds.

(** What is outside of the store: whether the next call to the pool or the server
    fails and with which error, the other connections, which see the locks of the
    changes that are not committed, the identities and the clock of the server,
    whether a COMMIT that failed was carried out, and the hook of the tests. *)
Class SqlEnv (X : Type) := {
  fault : X -> X * option Z;
  others : list Write -> Tables -> X -> X * Tables;
  freshId : AutoTable -> X -> X * Z;
  serverNow : X -> X * Z;
  commitLost : X -> X * bool;
  onStep : Step -> X -> X * bool;      (**r [true]: the hook throws *)
  hookFailsCommit : X -> X * bool;
}.

Record TransactionGuard := mkGuard { open_ : bool; changes : list Write }.

Record AcceptTx := mkTx {
  guard : option TransactionGuard;
  expectedDeliveries : Z;
  insertedDeliveries : Z;
}.

(** [sw_done]: the sets of changes this thread has committed, a record of this
    development. *)
Record SqlWorld (X : Type) := mkSql {
  sw_env : X;
  sw_db : Tables;
  g_tx : AcceptTx;
  sw_done : list (list Write);
}.
Arguments mkSql {X}.
Arguments sw_env {X}.
Arguments sw_db {X}.
Arguments g_tx {X}.
Arguments sw_done {X}.

Section store.
Context {X : Type} `{!SqlEnv X, !SqlServer, !JsonLib, !JsonFloat}.
Context (fanOutCap_ : Z).

Notation seff := (eff exn (SqlWorld X)).

Definition ask {A} (f : X -> X * A) : seff A :=
  fun w => let '(x, a) := f (sw_env w) in (mkSql x (sw_db w) (g_tx w) (sw_done w), Ret a).

Definition setTx (f : AcceptTx -> AcceptTx) : seff unit :=
  modify (fun w => mkSql (sw_env w) (sw_db w) (f (g_tx w)) (sw_done w)).

Definition setGuard (g : option TransactionGuard) : seff unit :=
  setTx (fun t => mkTx g (expectedDeliveries t) (insertedDeliveries t)).

Definition setCounters (expected inserted : Z) : seff unit :=
  setTx (fun t => mkTx (guard t) expected inserted).

Definition busy {A} : seff A := throw (MessageStoreError StoreDependencyBusy).

Definition storageError {A} : seff A := throw (MessageStoreError StoreStorage).

(** The changes of the open transaction. *)
Definition pendingOf (t : AcceptTx) : list Write :=
  match guard t with Some g => if open_ g then changes g else [] | None => [] end.

Definition interfere : seff unit :=
  fun w => let '(x, db) := others (pendingOf (g_tx w)) (sw_db w) (sw_env w) in
           (mkSql x db (g_tx w) (sw_done w), Ret tt).

(** A call to the server. *)
Definition server : seff unit :=
  e <- ask fault ;;
  match e with
  | Some e => throw (storeError e)
  | None => interfere
  end.

(** The tables as the connection of the transaction sees them. *)
Definition visible (w : SqlWorld X) : Tables := applyWrites (pendingOf (g_tx w)) (sw_db w).

(** Changes join the open transaction, or are committed one by one. *)
Definition record (ws : list Write) : seff unit :=
  modify (fun w =>
    match guard (g_tx w) with
    | Some (mkGuard true cs) =>
        mkSql (sw_env w) (sw_db w)
          (mkTx (Some (mkGuard true (cs ++ ws))) (expectedDeliveries (g_tx w)) (insertedDeliveries (g_tx w)))
          (sw_done w)
    | _ => mkSql (sw_env w) (applyWrites ws (sw_db w)) (g_tx w) (sw_done w ++ [ws])
    end).

(** 0, or 1062 for a key that is taken; other errors are thrown. *)
Definition execStmt (f : Tables -> Z + list Write) : seff Z :=
  server ;;;
  t <- gets visible ;;
  match f t with
  | inl e => if e =? ER_DUP_ENTRY then ret e else throw (storeError e)
  | inr ws => record ws ;;; ret 0
  end.

Definition query {A} (f : Tables -> A) : seff A := server ;;; gets (fun w => f (visible w)).

Definition fire (step : Step) : seff unit :=
  thrown <- ask (onStep step) ;; if (thrown : bool) then throw OtherException else ret tt.

Definition acquire : seff unit :=
  e <- ask fault ;; match e with Some _ => busy | None => ret tt end.

(** The constructor of TransactionGuard *)
Definition newGuard : seff TransactionGuard :=
  acquire ;;;
  e <- ask fault ;;
  match e with
  | Some _ => busy
  | None =>
      e <- ask fault ;;
      match e with
      | Some e => throw (storeError e)
      | None => ret (mkGuard true [])
      end
  end.

(** COMMIT: the changes become visible to all. *)
Definition applyChanges : seff unit :=
  interfere ;;;
  modify (fun w =>
    match guard (g_tx w) with
    | Some g =>
        mkSql (sw_env w) (applyWrites (changes g) (sw_db w))
          (mkTx (Some (mkGuard (open_ g) [])) (expectedDeliveries (g_tx w)) (insertedDeliveries (g_tx w)))
          (sw_done w ++ [changes g])
    | None => w
    end).

(** TransactionGuard::commit: after an error an explicit ROLLBACK *)
Definition commitFailed (err : Z) : seff unit :=
  e <- ask fault ;;
  setGuard (Some (mkGuard (match e with None => false | Some _ => true end) [])) ;;;
  throw (storeError err).

Definition guardCommit (g : TransactionGuard) : seff unit :=
  if negb (open_ g) then ret tt
  else
    injected <- ask hookFailsCommit ;;
    if (injected : bool) then commitFailed 1205
    else
      e <- ask fault ;;
      match e with
      | None => applyChanges
      | Some e =>
          lost <- ask commitLost ;;
          (if (lost : bool) then applyChanges else ret tt) ;;;
          commitFailed e
      end.

(** The destructor of TransactionGuard: ROLLBACK, also after a COMMIT *)
Definition resetGuard : seff unit :=
  t <- gets g_tx ;;
  match guard t with
  | Some g => (if open_ g then ask fault ;;; ret tt else ret tt) ;;; setGuard None
  | None => ret tt
  end.

Definition beginTx : seff unit :=
  t <- gets g_tx ;;
  match guard t with
  | Some _ => ret tt
  | None => g <- newGuard ;; setGuard (Some g)
  end.

Definition commitTx : seff unit :=
  t <- gets g_tx ;;
  match guard t with
  | None => ret tt
  | Some g => guardCommit g ;;; fire Commit ;;; resetGuard ;;; setCounters 0 0
  end.

Definition rollbackTx : seff unit := resetGuard.

Definition rollbackAndClear : seff unit := rollbackTx ;;; setCounters 0 0.

Definition finishPending : seff unit := commitTx.

Definition ensureTx : seff unit := beginTx.

(** [catch (...) { rollbackAndClear(); throw; }] *)
Definition orRollBack {A} (m : seff A) : seff A := catch m (fun x => rollbackAndClear ;;; throw x).

(** ** Accepting *)

Definition findDirectConversation (low high : Z) : seff Z :=
  id <- query (selectDirect low high) ;; ret (default 0 id).

Definition findGroupConversation (group : Z) : seff Z :=
  id <- query (selectGroup group) ;; ret (default 0 id).

(** The key was taken by another transaction: read what it committed. *)
Definition recoverConversation (find : seff Z) : seff Z :=
  rollbackTx ;;;
  beginTx ;;;
  fire RecoverConversation ;;;
  existing <- find ;;
  if existing =? 0 then storageError else ret existing.

Definition createDirectConversation (low high : Z) : seff Z :=
  fire CreateConversation ;;;
  id <- ask (freshId ConversationIds) ;;
  execStmt (insertConversationStmt id Direct) ;;;
  fire CreateConversationLink ;;;
  err <- execStmt (insertDirectStmt id low high) ;;
  if err =? ER_DUP_ENTRY then recoverConversation (findDirectConversation low high)
  else ret id.

Definition createGroupConversation (group : Z) : seff Z :=
  fire CreateConversation ;;;
  id <- ask (freshId ConversationIds) ;;
  execStmt (insertConversationStmt id Group) ;;;
  fire CreateConversationLink ;;;
  err <- execStmt (insertGroupStmt id group) ;;
  if err =? ER_DUP_ENTRY then recoverConversation (findGroupConversation group)
  else ret id.

Definition conversationFor (sender : SessionIdentity) (cmd : SendMessageCommand) : seff Z :=
  match kind cmd with
  | Direct =>
      let a := userId sender in
      let b := directRecipient cmd in
      let low := i32 (if a <? b then a else b) in
      let high := i32 (if a <? b then b else a) in
      fire FindConversation ;;;
      id <- findDirectConversation low high ;;
      if id =? 0 then createDirectConversation low high else ret id
  | Group =>
      let group := i32 (groupId cmd) in
      fire FindConversation ;;;
      id <- findGroupConversation group ;;
      if id =? 0 then createGroupConversation group else ret id
  end.

Definition expectedFor (cmd : SendMessageCommand) : Z :=
  match kind cmd with Direct => 1 | Group => Z.of_nat (length (members cmd)) end.

Definition getOrCreateConversation (sender : SessionIdentity) (cmd : SendMessageCommand) : seff ConversationId :=
  if bool_decide (kind cmd = Group) && (fanOutCap_ <? Z.of_nat (length (members cmd)))
  then throw (MessageStoreError StoreTooManyRecipients)
  else orRollBack (
    finishPending ;;;
    beginTx ;;;
    setCounters (expectedFor cmd) 0 ;;;
    conversationFor sender cmd).

(** *** Loading a message: JOIN with its outbox event, LIMIT 1 *)

Definition joinedMessages (where_ : Z -> MessageRow -> bool) (t : Tables) : list (Z * MessageRow * string) :=
  (m ← arrange (map_to_list (ChatMessage t));
   o ← arrange (map_to_list (OutboxEvent t));
   if where_ m.1 m.2 && (ox_aggregate_message_id o.2 =? m.1) && sameText (ox_event_type o.2) "MessageAccepted"
   then [(m, ox_payload o.2)] else []).

Definition loadMessage (where_ : Z -> MessageRow -> bool) : seff (option Message) :=
  rows <- query (joinedMessages where_) ;;
  match rows with
  | [] => ret None
  | (id, r, payload) :: _ =>
      if bool_decide (payload = EmptyString) then storageError
      else
        match decodeCommandSnapshot payload (mr_content r) (mr_client_message_id r) with
        | inl x => throw x
        | inr cmd => ret (Some (mkMessage id (mr_conversation_id r) (mr_sequence r) (u64 (mr_sender_id r)) cmd 0))
        end
  end.

(** m.sender_id=? AND m.client_message_id=? *)
Definition byClientId (sender : Z) (cmid : string) (_ : Z) (r : MessageRow) : bool :=
  (mr_sender_id r =? sender) && samePadded (mr_client_message_id r) cmid.

Definition findAccepted (cmid : string) (sender : UserId) : seff (option Message) :=
  finishPending ;;; acquire ;;; loadMessage (byClientId (i32 sender) cmid).

(** *** Inserting the message *)

Definition recoverMessage (draft : Message) : seff Message :=
  rollbackTx ;;;
  beginTx ;;;
  fire RecoverMessage ;;;
  original <- loadMessage (byClientId (i32 (msg_senderId draft)) (clientMessageId (msg_command draft))) ;;
  match original with
  | None => storageError
  | Some original =>
      if negb (samePayload (msg_command original) (msg_command draft))
      then throw (MessageStoreError StoreIdempotencyConflict)
      else ret original
  end.

Definition messageRow (draft : Message) (sequence : Z) : MessageRow :=
  mkMessageRow (msg_conversationId draft) (i32 (msg_senderId draft)) (clientMessageId (msg_command draft))
    sequence (content (msg_command draft)).

Definition outboxRow (mid now : Z) (cmd : SendMessageCommand) : OutboxRow :=
  mkOutboxRow mid "MessageAccepted" (encodeCommandSnapshot cmd) now None None 0 None.

Definition insertOutboxEvent (mid : Z) (cmd : SendMessageCommand) : seff unit :=
  fire InsertOutboxEvent ;;;
  oid <- ask (freshId EventIds) ;;
  now <- ask serverNow ;;
  execStmt (insertOutboxStmt oid (outboxRow mid now cmd)) ;;;
  ret tt.

Definition insertMessage (draft : Message) : seff Message :=
  orRollBack (
    ensureTx ;;;
    fire LockConversation ;;;
    next <- query (selectNextSequence (msg_conversationId draft)) ;;
    match next with
    | None => storageError
    | Some next =>
        let seq := u64 (next + 1) in
        fire AdvanceSequence ;;;
        execStmt (setNextSequenceStmt (msg_conversationId draft) seq) ;;;
        fire InsertMessageStep ;;;
        id <- ask (freshId MessageIds) ;;
        err <- execStmt (insertMessageStmt id (messageRow draft seq)) ;;
        if err =? ER_DUP_ENTRY then recoverMessage draft
        else
          insertOutboxEvent id (msg_command draft) ;;;
          t <- gets g_tx ;;
          (if expectedDeliveries t =? 0 then commitTx else ret tt) ;;;
          ret (mkMessage id (msg_conversationId draft) seq (msg_senderId draft) (msg_command draft)
                 (msg_acceptedAtMs draft))
    end).

(** *** Inserting the deliveries *)

Definition newDeliveryRow (expires : DateTime) : DeliveryRow := mkDeliveryRow 0 0 None None None None None expires.

(** [FROM_UNIXTIME(?)] of a time in milliseconds, 0 for none *)
Definition timeColumn (ms : Z) : DateTime := if ms =? 0 then None else fromUnixTime (cdiv ms 1000).

Definition insertDelivery (d : Delivery) : seff unit :=
  orRollBack (
    ensureTx ;;;
    fire InsertDeliveryStep ;;;
    execStmt (insertDeliveryStmt (dl_messageId d, i32 (dl_recipient d)) (newDeliveryRow (timeColumn (dl_expiresAtMs d)))) ;;;
    t <- gets g_tx ;;
    setCounters (expectedDeliveries t) (u64 (insertedDeliveries t + 1)) ;;;
    if u64 (insertedDeliveries t + 1) =? expectedDeliveries t then commitTx else ret tt).

(** ** Deliveries *)

(** A statement outside of the accept transaction, on a connection of its own. *)
Definition statement {A} (f : Tables -> Z + Tables * A) : seff A :=
  server ;;;
  db <- gets sw_db ;;
  match f db with
  | inl e => throw (storeError e)
  | inr (db', a) => modify (fun w => mkSql (sw_env w) db' (g_tx w) (sw_done w)) ;;; ret a
  end.

(** [finishPending] and a lease of a connection *)
Definition ownConnection : seff unit := finishPending ;;; acquire.

Definition select {A} (f : Tables -> A) : seff A := statement (fun t => inr (t, f t)).

Definition deliveryRow (d : Delivery) : DeliveryRow :=
  mkDeliveryRow (encodeState (dl_state d)) (i32 (dl_attemptCount d))
    (if dl_nextAttemptAtMs d =? 0 then None else fromUnixTime (cdiv (i64 (dl_nextAttemptAtMs d + 999)) 1000))
    (if userId (dl_leaseOwner d) =? 0 then None else Some (encodeLeaseOwner (dl_leaseOwner d) (dl_leaseBootId d)))
    (timeColumn (dl_leaseUntilMs d)) (timeColumn (dl_lastSentAtMs d)) (timeColumn (dl_acknowledgedAtMs d))
    (timeColumn (dl_expiresAtMs d)).

Definition updateDelivery (d : Delivery) : seff unit :=
  ownConnection ;;;
  statement (fun t => inr (updateDeliveryStmt (dl_messageId d, i32 (dl_recipient d)) (deliveryRow d) t, tt)).

Definition timeOf (c : DateTime) : Z := match c with Some secs => secsToMs secs | None => 0 end.

(** One fetched row; [ownerBuf] is what the buffer of lease_owner holds. *)
Definition fetchDelivery (k : Z * Z) (r : DeliveryRow) (m : MessageRow) (ownerBuf : string) : option Delivery :=
  st ← decodeState (dr_state r);
  '(owner, boot) ← decodeLeaseOwner ownerBuf;
  Some (mkDelivery k.1 (mr_conversation_id m) (mr_sequence m) (u64 k.2) st owner boot
          (timeOf (dr_lease_until r)) (u32 (dr_attempt_count r)) (timeOf (dr_acknowledged_at r))
          (timeOf (dr_expires_at r)) (timeOf (dr_last_sent_at r)) (timeOf (dr_next_attempt_at r))).

(** The loop over the result: a column that is NULL leaves the buffer to the client
    library, and is not looked at for NULL. *)
Fixpoint fetchDeliveries (rows : list ((Z * Z) * DeliveryRow * MessageRow)) (ownerBuf : string) : option (list Delivery) :=
  match rows with
  | [] => Some []
  | (k, r, m) :: rest =>
      let ownerBuf := match dr_lease_owner r with Some o => o | None => afterNull ownerBuf end in
      d ← fetchDelivery k r m ownerBuf;
      ds ← fetchDeliveries rest ownerBuf;
      Some (d :: ds)
  end.

(** ... FROM MessageDelivery d JOIN ChatMessage m ON m.id = d.message_id WHERE ... *)
Definition joinRow (p : Z * Z -> DeliveryRow -> bool) (t : Tables) (kr : (Z * Z) * DeliveryRow)
  : option ((Z * Z) * DeliveryRow * MessageRow) :=
  m ← ChatMessage t !! kr.1.1; if p kr.1 kr.2 then Some (kr, m) else None.

Definition joinedDeliveries (p : Z * Z -> DeliveryRow -> bool) (t : Tables) : list ((Z * Z) * DeliveryRow * MessageRow) :=
  omap (joinRow p t) (arrange (map_to_list (MessageDelivery t))).

Definition deliveriesWhere (p : Z * Z -> DeliveryRow -> bool) (limit : option Z) : seff (list Delivery) :=
  rows <- select (joinedDeliveries p) ;;
  let rows := match limit with Some n => take (limitOf n) rows | None => rows end in
  match fetchDeliveries rows EmptyString with
  | Some ds => ret ds
  | None => storageError
  end.

Definition deliveriesByRecipient (recipient : UserId) : seff (list Delivery) :=
  ownConnection ;;; deliveriesWhere (fun k _ => k.2 =? i32 recipient) None.

Definition deliveriesByMessage (messageId : MessageId) : seff (list Delivery) :=
  ownConnection ;;; deliveriesWhere (fun k _ => k.1 =? messageId) None.

Definition findMessage (messageId : MessageId) : seff (option Message) :=
  ownConnection ;;; loadMessage (fun id _ => id =? messageId).

Definition deliveriesDueForRetry (nowMs limit : Z) : seff (list Delivery) :=
  ownConnection ;;; deliveriesWhere (fun _ r => dueRow (cdiv nowMs 1000) r) (Some limit).

Definition timeGranularityMs : Z := 1000.

Definition expireDeliveries (nowMs limit : Z) : seff Z :=
  ownConnection ;;;
  n <- statement (fun t => inr (expireStmt (cdiv nowMs 1000) limit t)) ;;
  ret (u32 n).

Definition expiredRecord (kr : (Z * Z) * DeliveryRow) : option ExpiredDeliveryRecord :=
  st ← decodeState (dr_state kr.2); Some (mkExpired kr.1.1 (u64 kr.1.2) st).

Definition expireDeliveriesDetailed (nowMs limit : Z) : seff (Z * list ExpiredDeliveryRecord) :=
  ownConnection ;;;
  rows <- select (expirable (cdiv nowMs 1000) limit) ;;
  match mapM expiredRecord rows with
  | None => storageError
  | Some out =>
      n <- statement (fun t => inr (expireStmt (cdiv nowMs 1000) limit t)) ;;
      ret (u32 n, out)
  end.

Definition cleanupDeliveries (ackedBeforeMs expiredBeforeMs limit : Z) : seff Z :=
  ownConnection ;;;
  a <- statement (fun t => inr (deleteStmt (ackedRow (cdiv (i64 (ackedBeforeMs + 999)) 1000)) limit t)) ;;
  e <- statement (fun t => inr (deleteStmt (retiredRow (cdiv (i64 (expiredBeforeMs + 999)) 1000)) limit t)) ;;
  ret (u32 (u32 a + u32 e)).

(** ** The outbox *)

Definition outboxEvent (kr : Z * OutboxRow) : DomainTypes.OutboxEvent :=
  let r := kr.2 in
  mkOutboxEvent kr.1 (ox_aggregate_message_id r) (ox_event_type r) (ox_payload r) (secsToMs (ox_available_at r))
    (default EmptyString (ox_lease_owner r)) (timeOf (ox_lease_until r)) (u32 (ox_attempt_count r))
    (timeOf (ox_processed_at r)).

Definition queryOutboxEvents (p : Z -> OutboxRow -> bool) (limit : Z) : seff (list DomainTypes.OutboxEvent) :=
  select (fun t => outboxEvent <$>
    take (limitOf limit) (filter (fun kr => p kr.1 kr.2 = true) (sorted_items Z.le (OutboxEvent t)))).

Definition claimOutboxEvents (nowMs : Z) (leaseOwner : string) (leaseUntilMs limit : Z) : seff (list DomainTypes.OutboxEvent) :=
  ownConnection ;;;
  let leaseSecs := cdiv leaseUntilMs 1000 in
  statement (fun t => match claimStmt (cdiv nowMs 1000) leaseSecs leaseOwner limit t with
                      | inl e => inl e
                      | inr t' => inr (t', tt)
                      end) ;;;
  queryOutboxEvents (fun _ r => leasedBy leaseOwner leaseSecs r) limit.

Definition markOutboxProcessed (eventId nowMs : Z) : seff unit :=
  ownConnection ;;; statement (fun t => inr (processStmt eventId (cdiv nowMs 1000) t, tt)).

Definition markOutboxPoisoned (eventId nowMs : Z) : seff unit := ret tt.

Definition findOutboxEvent (eventId : Z) : seff (option DomainTypes.OutboxEvent) :=
  ownConnection ;;;
  rows <- queryOutboxEvents (fun id _ => id =? eventId) 1 ;;
  ret (head rows).

Definition poisonedOutboxEvents (limit : Z) : seff (list DomainTypes.OutboxEvent) :=
  ownConnection ;;; queryOutboxEvents (fun _ r => isNull (ox_processed_at r)) limit.

Definition countUnprocessedOutboxEvents : seff Z :=
  ownConnection ;;;
  select (fun t => Z.of_nat (length (filter (fun kr => isNull (ox_processed_at kr.2) = true)
                                       (map_to_list (OutboxEvent t))))).

(** ** Dead letters *)

Definition recordDeadLetter (r : DeadLetterRecord) : seff unit :=
  ownConnection ;;;
  id <- ask (freshId DeadLetterIds) ;;
  statement (fun t => inr (deadLetterStmt id r t, tt)).

Definition fetchedDeadLetter (r : DeadLetterRecord) : DeadLetterRecord :=
  mkDeadLetter (dlr_topic r) (dlr_partitionId r) (i64 (dlr_kafkaOffset r)) (dlr_messageId r) (dlr_conversationId r)
    (dlr_sequence r) (dlr_eventType r) (dlr_reason r) (dlr_rawValue r).

Definition deadLetters (limit : Z) : seff (list DeadLetterRecord) :=
  ownConnection ;;;
  select (fun t => (fun kr => fetchedDeadLetter kr.2) <$> take (limitOf limit) (sorted_items Z.le (KafkaDeadLetter t))).
End store.

(** The adapter implements the port. *)
Definition mySqlMessageStore {X} `{!SqlEnv X, !SqlServer, !JsonLib, !JsonFloat} (fanOutCap_ : Z)
  : MessageStore (SqlWorld X) := {|
  Store.findAccepted := findAccepted;
  Store.getOrCreateConversation := getOrCreateConversation fanOutCap_;
  Store.insertMessage := insertMessage;
  Store.insertDelivery := insertDelivery;
  Store.updateDelivery := updateDelivery;
  Store.deliveriesByRecipient := deliveriesByRecipient;
  Store.deliveriesByMessage := deliveriesByMessage;
  Store.findMessage := findMessage;
  Store.deliveriesDueForRetry := deliveriesDueForRetry;
  Store.timeGranularityMs _ := timeGranularityMs;
  Store.expireDeliveries := expireDeliveries;
  Store.expireDeliveriesDetailed := expireDeliveriesDetailed;
  Store.cleanupDeliveries := cleanupDeliveries;
  Store.claimOutboxEvents := claimOutboxEvents;
  Store.markOutboxProcessed := markOutboxProcessed;
  Store.markOutboxPoisoned := markOutboxPoisoned;
  Store.findOutboxEvent := findOutboxEvent;
  Store.poisonedOutboxEvents := poisonedOutboxEvents;
  Store.countUnprocessedOutboxEvents := countUnprocessedOutboxEvents;
  Store.recordDeadLetter := recordDeadLetter;
  Store.deadLetters := deadLetters;
|}.
