(* ===== verification/MySqlStoreInv.v ===== *)
(** * Accepting on MySQL is atomic

    Whatever fails, and whatever other connections commit in between, the changes of
    an accept are committed together or not at all. *)

From S2P Require Import Prelude DomainTypes Store Json JsonText World Coordinator Messaging MySqlTables MySqlStore.

Open Scope Z_scope.
Open Scope eff_scope.

(** The identities of messages and events in the tables are at most [n] and [n']. *)
Record below (n n' : Z) (t : Tables) : Prop := {
  be_messages id : is_Some (ChatMessage t !! id) -> id <= n;
  be_outbox id r : OutboxEvent t !! id = Some r -> id <= n' /\ ox_aggregate_message_id r <= n;
  be_deliveries k : is_Some (MessageDelivery t !! k) -> k.1 <= n;
}.

Lemma below_mono n n' m m' t : n <= m -> n' <= m' -> below n n' t -> below m m' t.
Proof.
  intros Hn Hn' [H1 H2 H3]. split.
  - intros id Hid. specialize (H1 id Hid). lia.
  - intros id r Hr. specialize (H2 id r Hr). lia.
  - intros k Hk. specialize (H3 k Hk). lia.
Qed.

Definition writeBelow (n n' : Z) (w : Write) : Prop :=
  match w with
  | InsertMessage id _ => id <= n
  | InsertOutbox id r => id <= n' /\ ox_aggregate_message_id r <= n
  | InsertDelivery k _ => k.1 <= n
  | _ => True
  end.

Lemma writeBelow_mono n n' m m' w : n <= m -> n' <= m' -> writeBelow n n' w -> writeBelow m m' w.
Proof. destruct w; cbn; lia. Qed.

Lemma below_apply n n' ws t : Forall (writeBelow n n') ws -> below n n' t -> below n n' (applyWrites ws t).
Proof.
  revert t. induction ws as [|w ws IH]; intros t Hws Ht; [done|]. apply Forall_cons in Hws as [Hw Hws].
  apply (IH (applyWrite t w)); [done|]. destruct Ht as [H1 H2 H3].
  destruct w; (split; [intros i Hi|intros i r Hi|intros k Hk]); cbn in *; try (by eauto);
    repeat match goal with H : context [<[?a := _]> _ !! ?b] |- _ =>
      destruct (decide (a = b)) as [<-|Hne]; [rewrite lookup_insert_eq in H|rewrite lookup_insert_ne in H by done] end;
    try (by eauto); try done.
  by injection Hi as <-.
Qed.

(** No row has the identity of message [id], or refers to it. *)
Record unseen (id : Z) (t : Tables) : Prop := {
  un_message : ChatMessage t !! id = None;
  un_outbox oid r : OutboxEvent t !! oid = Some r -> ox_aggregate_message_id r <> id;
  un_deliveries k : is_Some (MessageDelivery t !! k) -> k.1 <> id;
}.

Lemma below_unseen n n' id t : below n n' t -> n < id -> unseen id t.
Proof.
  intros [H1 H2 H3] Hid. split.
  - apply eq_None_not_Some. intros Hs. specialize (H1 id Hs). lia.
  - intros oid r Hr Heq. specialize (H2 oid r Hr). lia.
  - intros k Hk Heq. specialize (H3 k Hk). lia.
Qed.

(** AUTO_INCREMENT issues larger and larger identities; rows refer to rows that
    exist; no other connection uses an identity that was issued to this one
    ([owned]) before it is committed; and none changes or deletes a message, which no
    statement of the sources does. *)
Class SqlEnvLaws (X : Type) `{!SqlEnv X} := {
  issued : AutoTable -> X -> Z;
  owned : AutoTable -> X -> Z -> Prop;
  later (x x' : X) : Prop :=
    (forall tb, issued tb x <= issued tb x') /\ forall tb id, owned tb x id -> owned tb x' id;
  fault_later x : later x (fault x).1;
  others_later ws t x : later x (others ws t x).1;
  freshId_later tb x : later x (freshId tb x).1;
  serverNow_later x : later x (serverNow x).1;
  commitLost_later x : later x (commitLost x).1;
  onStep_later s x : later x (onStep s x).1;
  hookFailsCommit_later x : later x (hookFailsCommit x).1;
  freshId_new tb x :
    issued tb x < (freshId tb x).2 <= issued tb (freshId tb x).1 /\ owned tb (freshId tb x).1 (freshId tb x).2;
  others_below ws t x :
    below (issued MessageIds x) (issued EventIds x) t ->
    let x' := (others ws t x).1 in below (issued MessageIds x') (issued EventIds x') (others ws t x).2;
  others_unseen ws t x id : owned MessageIds x id -> unseen id t -> unseen id (others ws t x).2;
  others_messages ws t x id r : ChatMessage t !! id = Some r -> ChatMessage (others ws t x).2 !! id = Some r;
  others_event ws t x id : owned EventIds x id -> OutboxEvent t !! id = None -> OutboxEvent (others ws t x).2 !! id = None;
}.

(** ** Change sets *)

Definition conversationWrite (w : Write) : Prop :=
  match w with InsertConversation _ _ | InsertDirect _ _ _ | InsertGroup _ _ => True | _ => False end.

(** Deliveries of message [id] for the users [us] only, and for all of them. *)
Definition deliveriesFor (id : Z) (us : list UserId) (ws : list Write) : Prop :=
  Forall (fun w => exists u r, u ∈ us /\ w = InsertDelivery (id, i32 u) r) ws.

Definition coversAll (id : Z) (us : list UserId) (ws : list Write) : Prop :=
  forall u, u ∈ us -> exists r, InsertDelivery (id, i32 u) r ∈ ws.

Section changes.
Context `{!JsonLib, !JsonFloat}.

(** The changes that accept [draft] as message [id]: perhaps the conversation, the
    next sequence number, the message, its event, and deliveries. *)
Definition messageWrites (draft : Message) (id seq oid now : Z) : list Write :=
  [SetNextSequence (msg_conversationId draft) seq; InsertMessage id (messageRow draft seq);
   InsertOutbox oid (outboxRow id now (msg_command draft))].

Definition acceptSet (draft : Message) (id seq : Z) (us : list UserId) (ws : list Write) : Prop :=
  exists pre oid now dels, ws = pre ++ messageWrites draft id seq oid now ++ dels /\
    Forall conversationWrite pre /\ deliveriesFor id us dels /\ coversAll id us dels.

(** What an accept leaves in the tables. *)
Record stored (draft : Message) (id seq : Z) (us : list UserId) (t : Tables) : Prop := {
  sd_message : ChatMessage t !! id = Some (messageRow draft seq);
  sd_event : exists oid now, OutboxEvent t !! oid = Some (outboxRow id now (msg_command draft));
  sd_deliveries u : u ∈ us -> is_Some (MessageDelivery t !! (id, i32 u));
}.

Lemma applyWrites_app ws ws' t : applyWrites (ws ++ ws') t = applyWrites ws' (applyWrites ws t).
Proof. apply foldl_app. Qed.

Lemma apply_deliveries id us dels t :
  deliveriesFor id us dels ->
  ChatMessage (applyWrites dels t) = ChatMessage t /\ OutboxEvent (applyWrites dels t) = OutboxEvent t /\
  (forall k, is_Some (MessageDelivery t !! k) -> is_Some (MessageDelivery (applyWrites dels t) !! k)) /\
  forall k r, InsertDelivery k r ∈ dels -> is_Some (MessageDelivery (applyWrites dels t) !! k).
Proof.
  revert t. induction dels as [|w dels IH]; intros t Hd.
  { split; [done|]. split; [done|]. split; [done|]. intros k r Hin. by apply elem_of_nil in Hin. }
  apply Forall_cons in Hd as [(u & r & Hu & ->) Hdels]. destruct (IH (applyWrite t (InsertDelivery (id, i32 u) r)) Hdels)
    as (H1 & H2 & H3 & H4). cbn [applyWrites foldl] in *. unfold applyWrites in *. cbn in H1, H2, H3.
  split; [done|]. split; [done|]. split.
  - intros k Hk. apply H3. destruct (decide ((id, i32 u) = k)) as [<-|Hne]; [by rewrite lookup_insert_eq; eexists|].
    by rewrite lookup_insert_ne.
  - intros k r' Hin. apply elem_of_cons in Hin as [[= -> ->]|Hin]; [|by eapply H4].
    apply H3. rewrite lookup_insert_eq. by eexists.
Qed.

Lemma apply_conversation ws t :
  Forall conversationWrite ws ->
  ChatMessage (applyWrites ws t) = ChatMessage t /\ OutboxEvent (applyWrites ws t) = OutboxEvent t /\
  MessageDelivery (applyWrites ws t) = MessageDelivery t.
Proof.
  revert t. induction ws as [|w ws IH]; intros t Hws; [done|]. apply Forall_cons in Hws as [Hw Hws].
  destruct (IH (applyWrite t w) Hws) as (H1 & H2 & H3). unfold applyWrites in *. cbn [foldl].
  rewrite H1, H2, H3. by destruct w.
Qed.

Lemma acceptSet_stored draft id seq us ws t : acceptSet draft id seq us ws -> stored draft id seq us (applyWrites ws t).
Proof.
  intros (pre & oid & now & dels & -> & Hpre & Hd & Hc). rewrite !applyWrites_app.
  set (t1 := applyWrites pre t). set (t2 := applyWrites _ t1).
  destruct (apply_deliveries id us dels t2 Hd) as (H1 & H2 & _ & H4). split.
  - rewrite H1. subst t2. cbn. by rewrite lookup_insert_eq.
  - exists oid, now. rewrite H2. subst t2. cbn. by rewrite lookup_insert_eq.
  - intros u Hu. destruct (Hc u Hu) as [r Hr]. by eapply H4.
Qed.
End changes.

(** ** The transaction *)

Section tx.
Context {X : Type} `{!SqlEnv X, !SqlEnvLaws X, !SqlServer, !JsonLib, !JsonFloat}.

Abbreviation W := (SqlWorld X).
Abbreviation seff := (eff exn W).

Definition sound (w : W) : Prop := below (issued MessageIds (sw_env w)) (issued EventIds (sw_env w)) (sw_db w).

Abbreviation fits w := (writeBelow (issued MessageIds (sw_env w)) (issued EventIds (sw_env w))).

(** The message of the transaction is known to no one else. *)
Definition private (ws : list Write) (w : W) : Prop :=
  forall id row, InsertMessage id row ∈ ws -> owned MessageIds (sw_env w) id /\ unseen id (sw_db w).

(** In a transaction with changes [ws], of which none is committed. *)
Record inTx (done_ : list (list Write)) (ws : list Write) (e i : Z) (w : W) : Prop := {
  it_guard : guard (g_tx w) = Some (mkGuard true ws);
  it_expected : expectedDeliveries (g_tx w) = e;
  it_inserted : insertedDeliveries (g_tx w) = i;
  it_done : sw_done w = done_;
  it_below : Forall (fits w) ws;
  it_private : private ws w;
  it_sound : sound w;
}.

Record outTx (done_ : list (list Write)) (e i : Z) (w : W) : Prop := {
  ot_guard : guard (g_tx w) = None;
  ot_expected : expectedDeliveries (g_tx w) = e;
  ot_inserted : insertedDeliveries (g_tx w) = i;
  ot_done : sw_done w = done_;
  ot_sound : sound w;
}.

(** The changes [ws] were committed last. *)
Record committed (g : option TransactionGuard) (done_ : list (list Write)) (ws : list Write) (w : W) : Prop := {
  cm_guard : guard (g_tx w) = g;
  cm_done : sw_done w = done_ ++ [ws];
  cm_db : exists t, sw_db w = applyWrites ws t;
  cm_sound : sound w;
}.

(** Outside of a transaction, with a history in [D]. *)
Record idle (D : list (list Write) -> Prop) (w : W) : Prop := {
  id_guard : guard (g_tx w) = None;
  id_done : D (sw_done w);
  id_sound : sound w;
}.

(** Wherever an exception finds the transaction. *)
Definition broken (D : list (list Write) -> Prop) (w : W) : Prop := D (sw_done w) /\ sound w.

Lemma inTx_broken (D : list (list Write) -> Prop) done_ ws e i w : D done_ -> inTx done_ ws e i w -> broken D w.
Proof. intros Hd []. subst. by split. Qed.

(** Something that only asks the environment. *)
Class steady (I : W -> Prop) : Prop :=
  steady_ask w x : I w -> later (sw_env w) x -> I (mkSql x (sw_db w) (g_tx w) (sw_done w)).

Class open_to_others (I : W -> Prop) : Prop :=
  steady_others w ws : I w ->
    I (mkSql (others ws (sw_db w) (sw_env w)).1 (others ws (sw_db w) (sw_env w)).2 (g_tx w) (sw_done w)).

Lemma sound_later w x : sound w -> later (sw_env w) x -> sound (mkSql x (sw_db w) (g_tx w) (sw_done w)).
Proof. intros Hw [Hx _]. eapply below_mono; [apply Hx|apply Hx|exact Hw]. Qed.

Lemma fits_later w w' ws : later (sw_env w) (sw_env w') -> Forall (fits w) ws -> Forall (fits w') ws.
Proof. intros [Hx _] Hw. eapply Forall_impl; [exact Hw|]. intros ? ?. eapply writeBelow_mono; [apply Hx|apply Hx|done]. Qed.

#[local] Instance inTx_steady done_ ws e i : steady (inTx done_ ws e i).
Proof.
  intros w x [] Hx. split; try done; [exact (fits_later w (mkSql x _ _ _) ws Hx it_below0)| |by apply sound_later].
  intros id row Hin. destruct (it_private0 id row Hin). split; [by apply Hx|done].
Qed.

#[local] Instance outTx_steady done_ e i : steady (outTx done_ e i).
Proof. intros w x [] Hx. split; try done. by apply sound_later. Qed.

#[local] Instance committed_steady g done_ ws : steady (committed g done_ ws).
Proof. intros w x [] Hx. split; try done. by apply sound_later. Qed.

#[local] Instance inTx_open done_ ws e i : open_to_others (inTx done_ ws e i).
Proof.
  intros w ws' []. split; try done; [exact (fits_later w (mkSql _ _ _ _) ws (others_later ws' _ _) it_below0)| |by apply others_below].
  intros id row Hin. destruct (it_private0 id row Hin) as [Ho Hu].
  split; [by apply others_later|by apply others_unseen].
Qed.

#[local] Instance idle_steady D : steady (idle D).
Proof. intros w x [] Hx. split; try done. by apply sound_later. Qed.

#[local] Instance broken_steady D : steady (broken D).
Proof. intros w x [] Hx. split; try done. by apply sound_later. Qed.

#[local] Instance broken_open D : open_to_others (broken D).
Proof. intros w ws' []. split; try done. by apply others_below. Qed.

Section steady.
Context (I : W -> Prop) `{!steady I}.

Lemma safe_ask {A} (f : X -> X * A) : (forall x, later x (f x).1) -> safe I (ask f).
Proof.
  intros Hf w Hw. unfold wp, ask. specialize (Hf (sw_env w)). destruct (f (sw_env w)) as [x a].
  by apply steady_ask.
Qed.

Lemma safe_fault : safe I (ask fault).
Proof. apply safe_ask, fault_later. Qed.

Lemma keeps_fire s : keeps I (fire s).
Proof.
  unfold fire. apply keepsOr_bind; [apply safe_keeps, safe_ask, onStep_later|].
  intros []; [by apply keepsOr_throw|apply keepsOr_ret].
Qed.

Lemma keeps_acquire : keeps I acquire.
Proof.
  unfold acquire. apply keepsOr_bind; [apply safe_keeps, safe_fault|].
  intros [e|]; [by apply keepsOr_throw|apply keepsOr_ret].
Qed.

Lemma keeps_newGuard : keeps I newGuard.
Proof.
  unfold newGuard. apply keepsOr_bind; [apply keeps_acquire|]. intros _.
  apply keepsOr_bind; [apply safe_keeps, safe_fault|]. intros [e|]; [by apply keepsOr_throw|].
  apply keepsOr_bind; [apply safe_keeps, safe_fault|]. intros [e'|]; [by apply keepsOr_throw|apply keepsOr_ret].
Qed.

Context `{!open_to_others I}.

Lemma safe_interfere : safe I interfere.
Proof.
  intros w Hw. unfold wp, interfere. pose proof (steady_others w (pendingOf (g_tx w)) Hw) as Ho.
  by destruct (others _ _ _) as [x db].
Qed.

Lemma keeps_server : keeps I server.
Proof.
  unfold server. apply keepsOr_bind; [apply safe_keeps, safe_fault|].
  intros [e|]; [by apply keepsOr_throw|apply safe_keeps, safe_interfere].
Qed.

Lemma keeps_query {A} (f : Tables -> A) : keeps I (query f).
Proof. unfold query. apply keepsOr_bind; [apply keeps_server|]. intros _. apply keepsOr_gets. Qed.
End steady.

(** *** Statements *)

Lemma wp_keeps {A B} (I : W -> Prop) (m : seff A) (f : A -> seff B) (Q : B -> W -> Prop) (Ex : exn -> W -> Prop) w :
  keeps I m -> I w -> (forall w' x, I w' -> Ex x w') -> (forall a w', I w' -> wp (f a) Q Ex w') -> wp (bind m f) Q Ex w.
Proof. intros Hm Hw HE Hf. apply wp_bind. eapply wp_mono; [by apply Hm|by apply Hf|]. intros x w' Hw'. by apply HE. Qed.

Lemma record_inTx done_ ws ws' e i (w : W) :
  inTx done_ ws e i w -> Forall (fits w) ws' -> private ws' w ->
  wp (record ws') (fun _ => inTx done_ (ws ++ ws') e i) (fun _ _ => False) w.
Proof.
  intros [Hg He Hi Hd Hb Hp Hs] Hws Hpw. unfold wp, record, modify. rewrite Hg. split; try done.
  - by apply Forall_app.
  - intros id row Hin. apply elem_of_app in Hin as [Hin|Hin]; [by eapply Hp|by eapply Hpw].
Qed.

Lemma visible_below done_ ws e i w : inTx done_ ws e i w -> below (issued MessageIds (sw_env w)) (issued EventIds (sw_env w)) (visible w).
Proof. intros [Hg _ _ _ Hb _ Hs]. unfold visible, pendingOf. rewrite Hg. by apply below_apply. Qed.

(** A fact about the environment and the committed tables that others leave alone. *)
Record lasting (J : X -> Tables -> Prop) : Prop := {
  la_later x x' t : J x t -> later x x' -> J x' t;
  la_others ws x t : J x t -> J (others ws t x).1 (others ws t x).2;
}.

(** In the transaction, with such a fact. *)
Definition inTxWith (J : X -> Tables -> Prop) done_ ws e i (w : W) : Prop :=
  inTx done_ ws e i w /\ J (sw_env w) (sw_db w).

Lemma inTxWith_steady J done_ ws e i : lasting J -> steady (inTxWith J done_ ws e i).
Proof. intros HJ w x [Hw Hj] Hx. split; [by apply steady_ask|by eapply la_later]. Qed.

Lemma inTxWith_open J done_ ws e i : lasting J -> open_to_others (inTxWith J done_ ws e i).
Proof. intros HJ w ws' [Hw Hj]. split; [by apply steady_others|by apply la_others]. Qed.

(** A statement of the transaction: [Q] for a key that is taken, and for changes that
    join the transaction. *)
Lemma wp_execStmt J (f : Tables -> Z + list Write) done_ ws e i (Q : Z -> W -> Prop) (Ex : exn -> W -> Prop) w :
  lasting J -> inTxWith J done_ ws e i w ->
  (forall w' x, inTx done_ ws e i w' -> Ex x w') ->
  (forall w', inTxWith J done_ ws e i w' ->
     match f (visible w') with
     | inl err => err = ER_DUP_ENTRY -> Q err w'
     | inr ws' => Forall (fits w') ws' /\ private ws' w' /\
                  forall w'', inTxWith J done_ (ws ++ ws') e i w'' -> Q 0 w''
     end) ->
  wp (execStmt f) Q Ex w.
Proof.
  intros HJ Hw HE HQ. unfold execStmt. pose proof (inTxWith_steady J done_ ws e i HJ). pose proof (inTxWith_open J done_ ws e i HJ).
  eapply (wp_keeps (inTxWith J done_ ws e i)); [by apply keeps_server|done|intros w' x []; by apply HE|].
  intros _ w1 Hw1. apply wp_bind, wp_gets. specialize (HQ w1 Hw1). destruct Hw1 as [Hw1 Hj]. destruct (f (visible w1)) as [err|ws'].
  - destruct (Z.eqb_spec err ER_DUP_ENTRY); [by apply wp_ret, HQ|by apply HE].
  - destruct HQ as (Hb & Hp & HQ). apply wp_bind. pose proof (record_inTx _ _ _ _ _ _ Hw1 Hb Hp) as Hr.
    unfold wp in *. unfold record, modify in *. apply wp_ret. apply HQ. split; [done|].
    by destruct Hw1 as [-> _ _ _ _ _ _].
Qed.

(** *** The end of a transaction *)

Lemma wp_resetGuard D w : broken D w -> wp resetGuard (fun _ => idle D) (fun _ _ => False) w.
Proof.
  intros Hw. unfold resetGuard. apply wp_bind, wp_gets. destruct (guard (g_tx w)) as [g|] eqn:Hg.
  2:{ apply wp_ret. destruct Hw as [Hd Hs]. by split. }
  apply wp_bind. eapply wp_mono with (Q := fun _ => broken D) (E := fun _ _ => False); [| |done].
  - destruct (open_ g); [|by apply wp_ret]. apply wp_bind. eapply wp_mono; [apply (safe_fault (broken D)); exact Hw| |done].
    intros ? w1 Hw1. by apply wp_ret.
  - intros [] w1 [Hd Hs]. unfold setGuard, setTx. apply wp_modify. by split.
Qed.

Lemma wp_rollbackTx done_ ws e i w :
  inTx done_ ws e i w -> wp rollbackTx (fun _ => outTx done_ e i) (fun _ _ => False) w.
Proof.
  intros Hw. unfold rollbackTx, resetGuard. apply wp_bind, wp_gets. rewrite (it_guard _ _ _ _ _ Hw). cbn [open_].
  apply wp_bind, wp_bind. eapply wp_mono; [by apply (safe_fault (inTx done_ ws e i))| |done].
  intros _ w1 [Hg He Hi Hd Hb Hp Hs]. apply wp_ret. unfold setGuard, setTx. apply wp_modify. by split.
Qed.

Lemma wp_orRollBack {A} (m : seff A) Q D w :
  wp m Q (fun _ => broken D) w -> wp (orRollBack m) Q (fun _ => idle D) w.
Proof.
  intros Hm. apply wp_catch. eapply wp_mono; [exact Hm|done|]. intros x w1 Hw1.
  unfold rollbackAndClear, rollbackTx. apply wp_bind, wp_bind.
  eapply wp_mono; [apply (wp_resetGuard D), Hw1| |by intros ? ? []]. intros [] w2 [Hg Hd Hs].
  unfold setCounters, setTx. apply wp_modify. by split.
Qed.

Lemma wp_beginTx done_ e i w :
  outTx done_ e i w -> wp beginTx (fun _ => inTx done_ [] e i) (fun _ => outTx done_ e i) w.
Proof.
  intros Hw. unfold beginTx. apply wp_bind, wp_gets. rewrite (ot_guard _ _ _ _ Hw).
  assert (wp newGuard (fun g w' => g = mkGuard true [] /\ outTx done_ e i w') (fun _ => outTx done_ e i) w) as Hnew.
  { unfold newGuard. eapply (wp_keeps (outTx done_ e i)); [apply keeps_acquire; apply _|done|done|]. intros _ w1 Hw1.
    eapply (wp_keeps (outTx done_ e i)); [apply safe_keeps, safe_fault; apply _|done|done|]. intros [e1|] w2 Hw2; [done|].
    eapply (wp_keeps (outTx done_ e i)); [apply safe_keeps, safe_fault; apply _|done|done|]. intros [e2|] w3 Hw3; [done|].
    by apply wp_ret. }
  apply wp_bind. eapply wp_mono; [exact Hnew| |done]. intros g w1 [-> [Hg He Hi Hd Hs]].
  unfold setGuard, setTx. apply wp_modify. split; try done. intros id row Hin. by apply elem_of_nil in Hin.
Qed.

Lemma wp_commitFailed D err w : broken D w -> wp (commitFailed err) (fun _ _ => False) (fun _ => broken D) w.
Proof.
  intros Hw. unfold commitFailed. apply wp_bind. eapply wp_mono; [apply (safe_fault (broken D)); exact Hw| |by intros ? ? []].
  intros e1 w1 [Hd Hs]. apply wp_bind. unfold setGuard, setTx. by apply wp_modify.
Qed.

Lemma wp_applyChanges done_ ws e i w :
  inTx done_ ws e i w -> wp applyChanges (fun _ => committed (Some (mkGuard true [])) done_ ws) (fun _ _ => False) w.
Proof.
  intros Hw. unfold applyChanges. apply wp_bind. eapply wp_mono; [by apply (safe_interfere (inTx done_ ws e i))| |done].
  intros _ w1 [Hg He Hi Hd Hb Hp Hs]. apply wp_modify. rewrite Hg. split; cbn; [done|by rewrite Hd|by eexists|by apply below_apply].
Qed.

(** The commit goes through, or fails with or without its changes. *)
Lemma wp_commitTx done_ ws e i w :
  inTx done_ ws e i w ->
  wp commitTx (fun _ => committed None done_ ws) (fun _ => broken (fun d => d = done_ \/ d = done_ ++ [ws])) w.
Proof.
  set (D := fun d => d = done_ \/ d = done_ ++ [ws]). intros Hw. unfold commitTx. apply wp_bind, wp_gets.
  rewrite (it_guard _ _ _ _ _ Hw). assert (forall w', inTx done_ ws e i w' -> broken D w') as Hin
    by (intros w'; apply inTx_broken; by left).
  assert (forall g w', committed g done_ ws w' -> broken D w') as Hcm.
  { intros g w' [Hg Hd _ Hs]. split; [by right|done]. }
  apply wp_bind. eapply wp_mono with (Q := fun _ => committed (Some (mkGuard true [])) done_ ws) (E := fun _ => broken D);
    [|intros ? w1 Hw1|done].
  - unfold guardCommit. cbn [open_ negb].
    apply (wp_keeps (inTx done_ ws e i)); [apply safe_keeps, (safe_ask (inTx done_ ws e i)), hookFailsCommit_later|done|auto|].
    intros [] w1 Hw1; [eapply wp_mono; [by apply (wp_commitFailed D), Hin|by intros ? ? []|done]|].
    apply (wp_keeps (inTx done_ ws e i)); [apply safe_keeps, safe_fault; apply _|done|auto|].
    intros [err|] w2 Hw2; [|eapply wp_mono; [by apply (wp_applyChanges done_ ws e i)|done|by intros ? ? []]].
    apply (wp_keeps (inTx done_ ws e i)); [apply safe_keeps, (safe_ask (inTx done_ ws e i)), commitLost_later|done|auto|].
    intros lost w3 Hw3. apply wp_bind. eapply wp_mono with (Q := fun _ => broken D) (E := fun _ _ => False); [| |done].
    + destruct lost; [|by apply wp_ret, Hin]. eapply wp_mono; [by apply (wp_applyChanges done_ ws e i)|intros ? w4 Hw4; exact (Hcm _ w4 Hw4)|by intros ? ? []].
    + intros ? w4 Hw4. eapply wp_mono; [apply (wp_commitFailed D), Hw4|by intros ? ? []|done].
  - eapply (wp_keeps (committed (Some (mkGuard true [])) done_ ws)); [apply keeps_fire; apply _|done|eauto|].
    intros ? w2 Hw2. unfold resetGuard. apply wp_bind, wp_bind, wp_gets. rewrite (cm_guard _ _ _ _ Hw2). cbn [open_].
    apply wp_bind, wp_bind. eapply wp_mono; [by apply (safe_fault (committed (Some (mkGuard true [])) done_ ws))| |by intros ? ? []].
    intros ? w3 [Hg Hd Hdb Hs]. apply wp_ret, wp_modify. unfold setCounters, setTx. by apply wp_modify.
Qed.

(** *** Conversations *)

Abbreviation sameDone done_ := (fun d : list (list Write) => d = done_).

Lemma inTx_aborts done_ ws e i w : inTx done_ ws e i w -> broken (sameDone done_) w.
Proof. by apply inTx_broken. Qed.

Lemma outTx_aborts done_ e i w : outTx done_ e i w -> broken (sameDone done_) w.
Proof. intros []. by split. Qed.

Lemma keeps_findDirect I `{!steady I, !open_to_others I} low high : keeps I (findDirectConversation low high).
Proof. unfold findDirectConversation. apply keepsOr_bind; [by apply keeps_query|]. intros ?. apply keepsOr_ret. Qed.

Lemma keeps_findGroup I `{!steady I, !open_to_others I} group : keeps I (findGroupConversation group).
Proof. unfold findGroupConversation. apply keepsOr_bind; [by apply keeps_query|]. intros ?. apply keepsOr_ret. Qed.

Lemma wp_restart done_ ws e i w (A : Type) (k : seff A) Q :
  inTx done_ ws e i w ->
  (forall w', inTx done_ [] e i w' -> wp k Q (fun _ => broken (sameDone done_)) w') ->
  wp (rollbackTx ;;; beginTx ;;; k) Q (fun _ => broken (sameDone done_)) w.
Proof.
  intros Hw Hk. apply wp_bind. eapply wp_mono; [by eapply wp_rollbackTx| |by intros ? ? []]. intros ? w1 Hw1.
  apply wp_bind. eapply wp_mono; [apply (wp_beginTx done_ e i), Hw1| |intros x w2; by apply outTx_aborts]. intros ? w2 Hw2. by apply Hk.
Qed.

Lemma wp_recoverConversation (find : seff Z) done_ ws e i w :
  (forall ws, keeps (inTx done_ ws e i) find) -> inTx done_ ws e i w ->
  wp (recoverConversation find) (fun _ => inTx done_ [] e i) (fun _ => broken (sameDone done_)) w.
Proof.
  intros Hf Hw. unfold recoverConversation. eapply wp_restart; [exact Hw|]. intros w1 Hw1.
  eapply (wp_keeps (inTx done_ [] e i)); [apply keeps_fire; apply _|done|intros w' x; by apply inTx_aborts|].
  intros ? w2 Hw2. eapply (wp_keeps (inTx done_ [] e i)); [apply Hf|done|intros w' x; by apply inTx_aborts|].
  intros c w3 Hw3. destruct (c =? 0); [by eapply inTx_aborts|by apply wp_ret].
Qed.

(** A statement about a conversation. *)
Lemma wp_conversationStmt (f : Tables -> Z + list Write) done_ ws e i (Q : Z -> W -> Prop) w :
  (forall t ws', f t = inr ws' -> Forall conversationWrite ws') ->
  inTx done_ ws e i w -> Forall conversationWrite ws ->
  (forall err ws' w', (err = ER_DUP_ENTRY \/ err = 0) -> Forall conversationWrite ws' -> inTx done_ ws' e i w' -> Q err w') ->
  wp (execStmt f) Q (fun _ => broken (sameDone done_)) w.
Proof.
  intros Hf Hw Hws HQ. eapply (wp_execStmt (fun _ _ => True)); [done|done|intros w' x; by apply inTx_aborts|]. intros w1 [Hw1 _].
  destruct (f (visible w1)) as [err|ws'] eqn:Hr; [intros ->; eauto|]. specialize (Hf _ _ Hr). split; [|split].
  - eapply Forall_impl; [exact Hf|]. by intros [].
  - intros id row Hin. rewrite Forall_forall in Hf. by specialize (Hf _ Hin).
  - intros w2 [Hw2 _]. eapply HQ; [by right| |exact Hw2]. by apply Forall_app.
Qed.

Lemma wp_createConversation (k : Kind) (link : Z -> Tables -> Z + list Write) (find : seff Z) done_ e i w :
  (forall id t ws, link id t = inr ws -> Forall conversationWrite ws) ->
  (forall ws, keeps (inTx done_ ws e i) find) -> inTx done_ [] e i w ->
  wp (fire CreateConversation ;;;
      id <- ask (freshId ConversationIds) ;;
      execStmt (insertConversationStmt id k) ;;;
      fire CreateConversationLink ;;;
      err <- execStmt (link id) ;;
      if err =? ER_DUP_ENTRY then recoverConversation find else ret id)
    (fun _ w' => exists ws, Forall conversationWrite ws /\ inTx done_ ws e i w') (fun _ => broken (sameDone done_)) w.
Proof.
  intros Hlink Hfind Hw.
  eapply (wp_keeps (inTx done_ [] e i)); [apply keeps_fire; apply _|done|intros w' x; by apply inTx_aborts|]. intros ? w1 Hw1.
  eapply (wp_keeps (inTx done_ [] e i)); [apply safe_keeps, (safe_ask (inTx done_ [] e i)), freshId_later|done|
    intros w' x; by apply inTx_aborts|]. intros id w2 Hw2.
  apply wp_bind. eapply wp_conversationStmt; [by intros t ws [= <-]; repeat constructor|exact Hw2|constructor|].
  intros _ ws1 w3 _ Hws1 Hw3.
  eapply (wp_keeps (inTx done_ ws1 e i)); [apply keeps_fire; apply _|done|intros w' x; by apply inTx_aborts|]. intros ? w4 Hw4.
  apply wp_bind. eapply wp_conversationStmt; [apply Hlink|exact Hw4|exact Hws1|]. intros err ws2 w5 Herr Hws2 Hw5.
  destruct Herr as [->| ->]; cbn [Z.eqb ER_DUP_ENTRY Pos.eqb]; [|apply wp_ret; by exists ws2].
  eapply wp_mono; [by eapply wp_recoverConversation| |done]. intros ? w6 Hw6. by exists [].
Qed.

Lemma wp_conversationFor sender cmd done_ e i w :
  inTx done_ [] e i w ->
  wp (conversationFor sender cmd)
    (fun _ w' => exists ws, Forall conversationWrite ws /\ inTx done_ ws e i w') (fun _ => broken (sameDone done_)) w.
Proof.
  intros Hw. unfold conversationFor. destruct (kind cmd).
  - match goal with |- context [findDirectConversation ?l ?h] => set (low := l); set (high := h) end.
    eapply (wp_keeps (inTx done_ [] e i)); [apply keeps_fire; apply _|done|intros w' x; by apply inTx_aborts|]. intros ? w1 Hw1.
    eapply (wp_keeps (inTx done_ [] e i)); [apply keeps_findDirect; apply _|done|intros w' x; by apply inTx_aborts|].
    intros c w2 Hw2. destruct (c =? 0); [|apply wp_ret; by exists []].
    apply (wp_createConversation Direct (fun id => insertDirectStmt id low high)); [|intros ws; apply keeps_findDirect; apply _|done].
    intros id t ws. unfold insertDirectStmt. destruct (_ || _); [done|]. case_bool_decide; [|done]. intros [= <-]. by repeat constructor.
  - match goal with |- context [findGroupConversation ?g] => set (group := g) end.
    eapply (wp_keeps (inTx done_ [] e i)); [apply keeps_fire; apply _|done|intros w' x; by apply inTx_aborts|]. intros ? w1 Hw1.
    eapply (wp_keeps (inTx done_ [] e i)); [apply keeps_findGroup; apply _|done|intros w' x; by apply inTx_aborts|].
    intros c w2 Hw2. destruct (c =? 0); [|apply wp_ret; by exists []].
    apply (wp_createConversation Group (fun id => insertGroupStmt id group)); [|intros ws; apply keeps_findGroup; apply _|done].
    intros id t ws. unfold insertGroupStmt. destruct (_ || _); [done|]. case_bool_decide; [|done]. intros [= <-]. by repeat constructor.
Qed.

Lemma wp_getOrCreateConversation cap sender cmd done_ w :
  idle (sameDone done_) w ->
  wp (getOrCreateConversation cap sender cmd)
    (fun _ w' => exists ws, Forall conversationWrite ws /\ inTx done_ ws (expectedFor cmd) 0 w')
    (fun _ => idle (sameDone done_)) w.
Proof.
  intros Hw. unfold getOrCreateConversation. destruct (_ && _); [done|]. apply wp_orRollBack.
  unfold finishPending, commitTx. apply wp_bind, wp_bind, wp_gets. rewrite (id_guard _ _ Hw). apply wp_ret.
  apply wp_bind. destruct Hw as [Hg Hd Hs]. eapply wp_mono; [by apply (wp_beginTx done_ (expectedDeliveries (g_tx w)) (insertedDeliveries (g_tx w)))| |intros x w1; by apply outTx_aborts].
  intros ? w1 Hw1. apply wp_bind. unfold setCounters, setTx. apply wp_modify. apply wp_conversationFor.
  destruct Hw1. by split.
Qed.

(** *** The message *)

(** The history of an accept of [draft] for the users [us]. *)
Definition acceptDone (draft : Message) (us : list UserId) (done_ d : list (list Write)) : Prop :=
  d = done_ \/ exists id seq ws, acceptSet draft id seq us ws /\ d = done_ ++ [ws].

Lemma inTx_accepts draft us done_ ws e i w : inTx done_ ws e i w -> broken (acceptDone draft us done_) w.
Proof. apply inTx_broken. by left. Qed.

Lemma wp_ensureTx done_ ws e i w : inTx done_ ws e i w -> wp ensureTx (fun _ => inTx done_ ws e i) (fun _ _ => False) w.
Proof. intros Hw. unfold ensureTx, beginTx. apply wp_bind, wp_gets. rewrite (it_guard _ _ _ _ _ Hw). by apply wp_ret. Qed.

(** An identity of a message that was just issued. *)
Definition freshMessage (id : Z) (x : X) (t : Tables) : Prop :=
  owned MessageIds x id /\ id <= issued MessageIds x /\ unseen id t.

Lemma freshMessage_lasting id : lasting (freshMessage id).
Proof.
  split.
  - intros x x' t (Ho & Hi & Hu) [Hle Hown]. split; [by apply Hown|]. split; [specialize (Hle MessageIds); lia|done].
  - intros ws x t (Ho & Hi & Hu). destruct (others_later ws t x) as [Hle Hown]. split; [by apply Hown|].
    split; [specialize (Hle MessageIds); lia|by apply others_unseen].
Qed.

Definition freshEvent (oid : Z) (x : X) (t : Tables) : Prop :=
  owned EventIds x oid /\ oid <= issued EventIds x /\ OutboxEvent t !! oid = None.

Lemma freshEvent_lasting oid : lasting (freshEvent oid).
Proof.
  split.
  - intros x x' t (Ho & Hi & Hu) [Hle Hown]. split; [by apply Hown|]. split; [specialize (Hle EventIds); lia|done].
  - intros ws x t (Ho & Hi & Hu). destruct (others_later ws t x) as [Hle Hown]. split; [by apply Hown|].
    split; [specialize (Hle EventIds); lia|by apply others_event].
Qed.

Lemma wp_freshMessage done_ ws e i w :
  inTx done_ ws e i w ->
  wp (ask (freshId MessageIds)) (fun id => inTxWith (freshMessage id) done_ ws e i) (fun _ _ => False) w.
Proof.
  intros Hw. unfold wp, ask. pose proof (freshId_later MessageIds (sw_env w)) as Hl.
  destruct (freshId_new MessageIds (sw_env w)) as [Hn Ho]. destruct (freshId MessageIds (sw_env w)) as [x id].
  split; [by apply steady_ask|]. cbn [fst snd sw_env sw_db] in *. split; [done|]. split; [lia|].
  eapply below_unseen; [apply (it_sound _ _ _ _ _ Hw)|lia].
Qed.

Lemma wp_freshEvent done_ ws e i w :
  inTx done_ ws e i w ->
  wp (ask (freshId EventIds)) (fun oid => inTxWith (freshEvent oid) done_ ws e i) (fun _ _ => False) w.
Proof.
  intros Hw. unfold wp, ask. pose proof (freshId_later EventIds (sw_env w)) as Hl.
  destruct (freshId_new EventIds (sw_env w)) as [Hn Ho]. destruct (freshId EventIds (sw_env w)) as [x oid].
  split; [by apply steady_ask|]. cbn [fst snd sw_env sw_db] in *. split; [done|]. split; [lia|].
  destruct (OutboxEvent (sw_db w) !! oid) as [r|] eqn:Hr; [|done].
  destruct (be_outbox _ _ _ (it_sound _ _ _ _ _ Hw) _ _ Hr). lia.
Qed.

Lemma anyRow_false {K A} `{Countable K} (p : K -> A -> bool) (m : gmap K A) :
  (forall k a, m !! k = Some a -> p k a = false) -> anyRow p m = false.
Proof.
  intros Hp. unfold anyRow. apply not_true_iff_false. rewrite existsb_exists. intros ([k a] & Hin & Hpa).
  apply list_elem_of_In, elem_of_map_to_list in Hin. cbn in Hpa. by rewrite (Hp k a Hin) in Hpa.
Qed.

(** The event of a new message is written. *)
Lemma wp_insertOutboxEvent draft pre id seq done_ e i w :
  Forall conversationWrite pre ->
  let ws := pre ++ [SetNextSequence (msg_conversationId draft) seq] ++ [InsertMessage id (messageRow draft seq)] in
  inTx done_ ws e i w ->
  wp (insertOutboxEvent id (msg_command draft))
    (fun _ w' => exists oid now, inTx done_ (pre ++ messageWrites draft id seq oid now) e i w')
    (fun _ => broken (sameDone done_)) w.
Proof.
  intros Hpre ws Hw. unfold insertOutboxEvent.
  eapply (wp_keeps (inTx done_ ws e i)); [apply keeps_fire; apply _|done|intros w' x; by apply inTx_aborts|]. intros ? w1 Hw1.
  apply wp_bind. eapply wp_mono; [by apply wp_freshEvent| |by intros ? ? []]. intros oid w2 Hw2.
  pose proof (inTxWith_steady (freshEvent oid) done_ ws e i (freshEvent_lasting oid)) as Hst.
  eapply (wp_keeps (inTxWith (freshEvent oid) done_ ws e i));
    [apply safe_keeps, (safe_ask (inTxWith (freshEvent oid) done_ ws e i)), serverNow_later|done|
     intros w' x []; by eapply inTx_aborts|].
  intros now w3 Hw3. apply wp_bind. eapply (wp_execStmt (freshEvent oid));
    [apply freshEvent_lasting|done|intros w' x; by apply inTx_aborts|]. intros w4 [Hw4 (Ho & Hi & Hnone)].
  assert (InsertMessage id (messageRow draft seq) ∈ ws) as Hin by (subst ws; rewrite !elem_of_app; right; right; by left).
  destruct (it_private _ _ _ _ _ Hw4 id _ Hin) as [_ Hun].
  assert (OutboxEvent (visible w4) = OutboxEvent (sw_db w4)) as Hob.
  { unfold visible, pendingOf. rewrite (it_guard _ _ _ _ _ Hw4). cbn [open_ changes]. subst ws.
    rewrite applyWrites_app. cbn. apply (apply_conversation pre (sw_db w4) Hpre). }
  unfold insertOutboxStmt. destruct (_ <=? _); [done|]. rewrite Hob, Hnone. cbn [isNull negb orb].
  rewrite anyRow_false.
  2:{ intros k r Hr. apply andb_false_intro1, Z.eqb_neq. by eapply un_outbox. }
  case_bool_decide; [|done]. split; [|split].
  - apply Forall_singleton. split; [done|]. pose proof (it_below _ _ _ _ _ Hw4) as Hb. rewrite Forall_forall in Hb.
    exact (Hb _ Hin).
  - intros id' row Hin'. apply list_elem_of_singleton in Hin'. done.
  - intros w5 [Hw5 _]. apply wp_ret. exists oid, now. subst ws. by rewrite <- !app_assoc in Hw5.
Qed.

Context `{!SqlServerLaws}.

(** What [loadMessage] finds is in the tables. *)
Lemma joined_elem where_ t id r p :
  (id, r, p) ∈ joinedMessages where_ t -> ChatMessage t !! id = Some r /\ where_ id r = true.
Proof.
  intros Hin. unfold joinedMessages in Hin. apply list_elem_of_bind in Hin as (m & Hin & Hm).
  apply list_elem_of_bind in Hin as (o & Hin & _). destruct (_ && _) eqn:Hw; [|by apply elem_of_nil in Hin].
  apply list_elem_of_singleton in Hin. injection Hin as Hm' _. rewrite <- Hm', arrange_perm in Hm.
  apply elem_of_map_to_list in Hm. split; [done|]. rewrite <- Hm' in Hw. by apply andb_prop in Hw as [[Hw _]%andb_prop _].
Qed.

(** The row [r] is that of message [m]. *)
Record rowOfMessage (m : Message) (r : MessageRow) : Prop := {
  rm_conversation : mr_conversation_id r = msg_conversationId m;
  rm_sender : u64 (mr_sender_id r) = msg_senderId m;
  rm_sequence : mr_sequence r = msg_sequence m;
  rm_clientId : mr_client_message_id r = clientMessageId (msg_command m);
  rm_content : mr_content r = content (msg_command m);
}.

Lemma decoded_command payload c cmid cmd :
  decodeCommandSnapshot payload c cmid = inr cmd -> clientMessageId cmd = cmid /\ content cmd = c.
Proof.
  unfold decodeCommandSnapshot. destruct (json_parse payload) as [j|] eqn:Hj; [|done].
  destruct (negb _); [done|]. destruct (decodeCommand payload c cmid) as [cmd'|] eqn:Hd; [|done]. intros [= <-].
  unfold decodeCommand in Hd. rewrite Hj in Hd. cbn [mbind option_bind] in Hd.
  destruct (jfield "kind" j ≫= getString) as [k|]; [|done]. cbn in Hd.
  case_bool_decide; [|case_bool_decide; [|done]];
    repeat match type of Hd with context [?o ≫= _] => destruct o; cbn in Hd; [|done] end; by injection Hd as <-.
Qed.

(** [m] is stored as the message that [where_] selects. *)
Definition found (where_ : Z -> MessageRow -> bool) (m : Message) (t : Tables) : Prop :=
  exists r, ChatMessage t !! msg_id m = Some r /\ rowOfMessage m r /\ where_ (msg_id m) r = true.

Lemma wp_loadMessage where_ done_ ws e i w :
  inTx done_ ws e i w ->
  wp (loadMessage where_)
    (fun o w' => inTx done_ ws e i w' /\
       match o with Some m => msg_id m <= issued MessageIds (sw_env w') /\ found where_ m (visible w') | None => True end)
    (fun _ => inTx done_ ws e i) w.
Proof.
  intros Hw. unfold loadMessage, query. apply wp_bind.
  eapply (wp_keeps (inTx done_ ws e i)); [apply keeps_server; apply _|done|done|]. intros ? w1 Hw1. apply wp_gets.
  destruct (joinedMessages where_ (visible w1)) as [|[[id r] p] rest] eqn:Hrows; [by apply wp_ret|].
  case_bool_decide; [done|]. destruct (decodeCommandSnapshot _ _ _) as [x|cmd] eqn:Hd; [done|]. apply wp_ret. split; [done|].
  destruct (joined_elem where_ (visible w1) id r p) as [Hr Hp]; [rewrite Hrows; by left|].
  split; [apply (be_messages _ _ _ (visible_below _ _ _ _ _ Hw1)); by exists r|].
  apply decoded_command in Hd as [Hc Hd]. by exists r.
Qed.

(** [m] is the message that was stored before with the key and payload of [draft]. *)
Definition repeats (draft m : Message) (w : W) : Prop :=
  samePayload (msg_command m) (msg_command draft) = true /\ msg_id m <= issued MessageIds (sw_env w) /\
  found (byClientId (i32 (msg_senderId draft)) (clientMessageId (msg_command draft))) m (sw_db w).

Lemma wp_recoverMessage draft done_ ws e i w :
  inTx done_ ws e i w ->
  wp (recoverMessage draft) (fun m w' => inTx done_ [] e i w' /\ repeats draft m w') (fun _ => broken (sameDone done_)) w.
Proof.
  intros Hw. unfold recoverMessage. eapply wp_restart; [exact Hw|]. intros w1 Hw1.
  eapply (wp_keeps (inTx done_ [] e i)); [apply keeps_fire; apply _|done|intros w' x; by apply inTx_aborts|].
  intros ? w2 Hw2. apply wp_bind. eapply wp_mono; [by apply wp_loadMessage| |intros x w'; by apply inTx_aborts].
  intros [m|] w3 [Hw3 Hm]; [|by eapply inTx_aborts]. destruct (samePayload _ _) eqn:Hs; cbn [negb]; [|by eapply inTx_aborts].
  apply wp_ret. split; [done|]. unfold visible, pendingOf in Hm. rewrite (it_guard _ _ _ _ _ Hw3) in Hm. by destruct Hm.
Qed.

Definition acceptedMessage (draft : Message) (id seq : Z) : Message :=
  mkMessage id (msg_conversationId draft) seq (msg_senderId draft) (msg_command draft) (msg_acceptedAtMs draft).

Lemma broken_weaken (D D' : list (list Write) -> Prop) w : (forall d, D d -> D' d) -> broken D w -> broken D' w.
Proof. intros HD [Hd Hs]. split; [by apply HD|done]. Qed.

(** [insertMessage] writes the message and its event, or finds the message that has
    the same key. *)
Lemma wp_insertMessage draft us pre done_ w :
  let e := Z.of_nat (length us) in
  Forall conversationWrite pre -> inTx done_ pre e 0 w ->
  wp (insertMessage draft)
    (fun m w' =>
       (exists id seq oid now, m = acceptedMessage draft id seq /\
          let ws := pre ++ messageWrites draft id seq oid now in
          match us with [] => committed None done_ ws w' | _ => inTx done_ ws e 0 w' end) \/
       (inTx done_ [] e 0 w' /\ repeats draft m w'))
    (fun _ => idle (acceptDone draft us done_)) w.
Proof.
  intros e Hpre Hw. unfold insertMessage. apply wp_orRollBack.
  assert (forall ws w', inTx done_ ws e 0 w' -> broken (acceptDone draft us done_) w') as Hab
    by (intros ws w'; apply inTx_accepts).
  assert (forall w', broken (sameDone done_) w' -> broken (acceptDone draft us done_) w') as Hsame
    by (intros w'; apply broken_weaken; by left).
  apply wp_bind. eapply wp_mono; [by apply wp_ensureTx| |by intros ? ? []]. intros ? w1 Hw1.
  eapply (wp_keeps (inTx done_ pre e 0)); [apply keeps_fire; apply _|done|intros w' _; apply Hab|]. intros ? w2 Hw2.
  eapply (wp_keeps (inTx done_ pre e 0)); [apply keeps_query; apply _|done|intros w' _; apply Hab|]. intros [next|] w3 Hw3; [|by eapply Hab].
  set (seq := u64 (next + 1)).
  eapply (wp_keeps (inTx done_ pre e 0)); [apply keeps_fire; apply _|done|intros w' _; apply Hab|]. intros ? w4 Hw4.
  apply wp_bind. eapply (wp_execStmt (fun _ _ => True)); [done|done|intros w' _; apply Hab|]. intros w5 [Hw5 _]. cbn [setNextSequenceStmt].
  split; [by repeat constructor|]. split; [by intros ? ? ?%list_elem_of_singleton|]. clear w5 Hw5. intros w5 [Hw5 _].
  set (ws1 := pre ++ _) in Hw5.
  eapply (wp_keeps (inTx done_ ws1 e 0)); [apply keeps_fire; apply _|done|intros w' _; apply Hab|]. intros ? w6 Hw6.
  apply wp_bind. eapply wp_mono; [by apply wp_freshMessage| |by intros ? ? []]. intros id w7 Hw7.
  apply wp_bind. eapply (wp_execStmt (freshMessage id)); [apply freshMessage_lasting|exact Hw7|intros w' _; apply Hab|].
  intros w8 [Hw8 (Ho & Hi & Hu)].
  destruct (insertMessageStmt id (messageRow draft seq) (visible w8)) as [err|ws'] eqn:Hstmt.
  { intros ->. cbn [Z.eqb ER_DUP_ENTRY Pos.eqb].
    eapply wp_mono; [by apply (wp_recoverMessage draft done_ ws1)|intros m w9 Hm; by right|intros x w9; apply Hsame]. }
  assert (ws' = [InsertMessage id (messageRow draft seq)]) as ->.
  { unfold insertMessageStmt in Hstmt. by repeat case_match; simplify_eq. }
  split; [by repeat constructor|]. split; [intros id' row Hin%list_elem_of_singleton; by simplify_eq|].
  intros w9 [Hw9 _]. cbn [Z.eqb]. apply wp_bind. subst ws1. rewrite <- app_assoc in Hw9.
  eapply wp_mono; [by apply (wp_insertOutboxEvent draft pre id seq done_ e 0)| |intros x w'; apply Hsame].
  intros ? w10 (oid & now & Hw10). apply wp_bind, wp_gets. rewrite (it_expected _ _ _ _ _ Hw10). apply wp_bind.
  subst e. destruct us as [|u us].
  - cbn [length Z.of_nat Z.eqb]. eapply wp_mono; [by eapply wp_commitTx| |].
    + intros ? w11 Hw11. apply wp_ret. left. exists id, seq, oid, now. done.
    + intros x w11 Hw11. eapply broken_weaken; [|exact Hw11]. intros d [->| ->]; [by left|right].
      exists id, seq, (pre ++ messageWrites draft id seq oid now). split; [|done].
      exists pre, oid, now, []. rewrite app_nil_r. repeat split; [done|constructor|]. intros u Hu'. by apply elem_of_nil in Hu'.
  - cbn [length]. destruct (Z.eqb_spec (Z.of_nat (S (length us))) 0); [lia|].
    apply wp_ret, wp_ret. left. exists id, seq, oid, now. done.
Qed.
End tx.
