(* ===== verification/MySqlAccept.v ===== *)
(** * What an accept leaves in MySQL

    The deliveries of an accept and its commit, and the accept of the service run on
    the MySQL store. *)

From S2P Require Import Prelude DomainTypes Store Json JsonText World Coordinator Messaging MySqlTables MySqlStore MySqlStoreInv.

Open Scope Z_scope.
Open Scope eff_scope.

#[local] Existing Instances inTx_steady inTx_open.

Section accept.
Context {X : Type} `{!SqlEnv X, !SqlEnvLaws X, !SqlServer, !SqlServerLaws, !JsonLib, !JsonFloat}.

Abbreviation W := (SqlWorld X).
Abbreviation seff := (eff exn W).

Abbreviation sameDone done_ := (fun d : list (list Write) => d = done_).

(** A delivery that is there was there before, or is one of the changes. *)
Lemma apply_delivery_elem id us dels t k :
  deliveriesFor id us dels -> is_Some (MessageDelivery (applyWrites dels t) !! k) ->
  is_Some (MessageDelivery t !! k) \/ exists r, InsertDelivery k r ∈ dels.
Proof.
  revert t. induction dels as [|w dels IH]; intros t Hd Hk; [by left|].
  apply Forall_cons in Hd as [(u & r & Hu & ->) Hd]. destruct (IH (applyWrite t (InsertDelivery (id, i32 u) r)) Hd Hk) as [Ht|[r' Hr]].
  - cbn in Ht. destruct (decide ((id, i32 u) = k)) as [<-|Hne]; [right; exists r; by left|].
    rewrite lookup_insert_ne in Ht by done. by left.
  - right. exists r'. by right.
Qed.

(** The changes of a transaction before its deliveries: they hold no delivery, and
    the message [mid] itself if it is [new]. *)
Record heads (new : Prop) (mid : Z) (ws : list Write) : Prop := {
  he_message : new -> exists row, InsertMessage mid row ∈ ws;
  he_deliveries t : MessageDelivery (applyWrites ws t) = MessageDelivery t;
}.

Abbreviation known mid := (fun (x : X) (_ : Tables) => mid <= issued MessageIds x).

Lemma known_lasting mid : lasting (known mid).
Proof.
  split; [intros x x' t Hx [Hle _]|intros ws x t Hx; destruct (others_later ws t x) as [Hle _]]; specialize (Hle MessageIds); lia.
Qed.

(** The deliveries [dels] grow to [dels'], which have user [u]. *)
Record grows (new : Prop) (mid : Z) (us : list UserId) (u : UserId) (dels dels' : list Write) : Prop := {
  gr_only : deliveriesFor mid us dels';
  gr_more w : w ∈ dels -> w ∈ dels';
  gr_user : new -> exists r, InsertDelivery (mid, i32 u) r ∈ dels';
}.

(** The key of a delivery of the new message can only be taken by the transaction. *)
Lemma taken_is_own new mid us u ws dels done_ e i w :
  heads new mid ws -> deliveriesFor mid us dels -> inTx done_ (ws ++ dels) e i w ->
  is_Some (MessageDelivery (visible w) !! (mid, i32 u)) -> grows new mid us u dels dels.
Proof.
  intros [Hm Hdb] Hd Hw Hk. split; [done|done|]. intros Hnew. destruct (Hm Hnew) as [row Hrow].
  destruct (it_private _ _ _ _ _ Hw mid row) as [_ Hun]; [apply elem_of_app; by left|].
  unfold visible, pendingOf in Hk. rewrite (it_guard _ _ _ _ _ Hw) in Hk. cbn [open_ changes] in Hk.
  rewrite applyWrites_app in Hk. apply (apply_delivery_elem mid us) in Hk as [Hk|Hk]; [|done|done].
  rewrite Hdb in Hk. by destruct (un_deliveries _ _ Hun _ Hk).
Qed.

(** The statement of one delivery. *)
Lemma wp_deliveryStmt new mid us u row ws dels done_ e i w :
  u ∈ us -> heads new mid ws -> deliveriesFor mid us dels -> inTxWith (known mid) done_ (ws ++ dels) e i w ->
  wp (execStmt (insertDeliveryStmt (mid, i32 u) row))
    (fun _ w' => exists dels', grows new mid us u dels dels' /\ inTxWith (known mid) done_ (ws ++ dels') e i w')
    (fun _ => broken (sameDone done_)) w.
Proof.
  intros Hu Hh Hd Hw. eapply (wp_execStmt (known mid)); [apply known_lasting|exact Hw|intros w' x; apply inTx_aborts|].
  intros w1 [Hw1 Hk]. unfold insertDeliveryStmt.
  destruct (MessageDelivery (visible w1) !! (mid, i32 u)) as [r|] eqn:Hr; cbn [isNull negb].
  { intros _. exists dels. split; [|done]. by eapply taken_is_own. }
  case_bool_decide; [|done]. split; [by repeat constructor|]. split; [by intros id r ?%list_elem_of_singleton|].
  intros w2 Hw2. exists (dels ++ [InsertDelivery (mid, i32 u) row]). rewrite app_assoc. split; [|done]. split.
  - apply Forall_app. split; [done|]. apply Forall_singleton. by exists u, row.
  - intros wr Hin. apply elem_of_app. by left.
  - intros _. exists row. apply elem_of_app. right. by left.
Qed.

(** The end of the transaction: nothing, or all of it. *)
Definition settled (new : Prop) (mid : Z) (us : list UserId) (ws : list Write) (done_ d : list (list Write)) : Prop :=
  d = done_ \/ exists dels, deliveriesFor mid us dels /\ (new -> coversAll mid us dels) /\ d = done_ ++ [ws ++ dels].

(** The deliveries before user [rest] are in the transaction; after the last one it is
    committed. *)
Definition loop (new : Prop) (mid : Z) (us : list UserId) (ws : list Write) (done_ : list (list Write))
    (rest : list UserId) (w : W) : Prop :=
  exists us1 dels, us = us1 ++ rest /\ deliveriesFor mid us dels /\ (new -> coversAll mid us1 dels) /\
    match rest with
    | [] => committed None done_ (ws ++ dels) w
    | _ => inTxWith (known mid) done_ (ws ++ dels) (Z.of_nat (length us)) (Z.of_nat (length us1)) w
    end.

Lemma grows_covers (new : Prop) mid us us1 u dels dels' :
  grows new mid us u dels dels' -> (new -> coversAll mid us1 dels) -> new -> coversAll mid (us1 ++ [u]) dels'.
Proof.
  intros [_ Hmore Huser] Hc Hnew v Hv. apply elem_of_app in Hv as [Hv|Hv].
  - destruct (Hc Hnew v Hv) as [r Hr]. exists r. by apply Hmore.
  - apply list_elem_of_singleton in Hv as ->. by apply Huser.
Qed.

(** One delivery, and the commit if it is the last. *)
Lemma wp_insertDelivery new mid us ws done_ (d : Delivery) rest w :
  Z.of_nat (length us) < 2 ^ 64 -> heads new mid ws -> dl_messageId d = mid ->
  loop new mid us ws done_ (dl_recipient d :: rest) w ->
  wp (insertDelivery d) (fun _ => loop new mid us ws done_ rest) (fun _ => idle (settled new mid us ws done_)) w.
Proof.
  intros Hlen Hh Hmid (us1 & dels & Hus & Hd & Hc & Hw). unfold insertDelivery. apply wp_orRollBack. rewrite Hmid.
  set (u := dl_recipient d) in *. set (e := Z.of_nat (length us)) in *. set (i := Z.of_nat (length us1)) in *.
  assert (e = i + Z.of_nat (length rest) + 1) as He by (subst e i; rewrite Hus, length_app; cbn [length]; lia).
  assert (u ∈ us) as Hu by (rewrite Hus; apply elem_of_app; right; by left).
  assert (forall w', broken (sameDone done_) w' -> broken (settled new mid us ws done_) w') as Hsame
    by (intros w'; apply broken_weaken; by left).
  pose proof (inTxWith_steady (known mid) done_ (ws ++ dels) e i (known_lasting mid)) as Hst.
  apply wp_bind. unfold ensureTx, beginTx. apply wp_bind, wp_gets. rewrite (it_guard _ _ _ _ _ (proj1 Hw)). apply wp_ret.
  eapply (wp_keeps (inTxWith (known mid) done_ (ws ++ dels) e i));
    [by apply keeps_fire|done|intros w' _ []; by eapply Hsame, inTx_aborts|]. intros ? w1 Hw1.
  apply wp_bind. eapply wp_mono; [by apply (wp_deliveryStmt new mid us u _ ws dels done_ e i)| |intros x w'; apply Hsame].
  intros ? w2 (dels' & Hg & Hw2 & Hk). apply wp_bind, wp_gets. rewrite (it_inserted _ _ _ _ _ Hw2), (it_expected _ _ _ _ _ Hw2).
  replace (u64 (i + 1)) with (i + 1) by (symmetry; apply u64_small; unfold isU64; lia).
  apply wp_bind. unfold setCounters, setTx. apply wp_modify.
  assert (inTx done_ (ws ++ dels') e (i + 1) (mkSql (sw_env w2) (sw_db w2) (mkTx (guard (g_tx w2)) e (i + 1)) (sw_done w2))) as Hw3
    by (by destruct Hw2).
  pose proof (grows_covers new mid us us1 u dels dels' Hg Hc) as Hc'. destruct rest as [|v rest].
  - replace (i + 1 =? e) with true by (symmetry; apply Z.eqb_eq; cbn [length] in He; lia).
    eapply wp_mono; [by eapply wp_commitTx| |].
    + intros ? w3 Hw4. exists us, dels'. rewrite app_nil_r. split; [done|]. split; [apply Hg|]. split; [by rewrite Hus|done].
    + intros x w3. apply broken_weaken. intros d' [->| ->]; [by left|right]. exists dels'. split; [apply Hg|].
      split; [by rewrite Hus|done].
  - destruct (Z.eqb_spec (i + 1) e); [cbn [length] in He; lia|]. apply wp_ret. exists (us1 ++ [u]), dels'.
    rewrite <- app_assoc. split; [done|]. split; [apply Hg|]. split; [done|]. rewrite length_app.
    replace (Z.of_nat (length us1 + length [u])) with (i + 1) by (cbn [length]; lia). done.
Qed.

(** ** Messages stay *)

(** The message [id] is stored as [r], and the open transaction does not write it. *)
Definition kept (id : Z) (r : MessageRow) (w : W) : Prop :=
  ChatMessage (sw_db w) !! id = Some r /\
  forall g row, guard (g_tx w) = Some g -> InsertMessage id row ∉ changes g.

Lemma kept_apply id r ws t :
  (forall row, InsertMessage id row ∉ ws) -> ChatMessage t !! id = Some r -> ChatMessage (applyWrites ws t) !! id = Some r.
Proof.
  revert t. induction ws as [|wr ws IH]; intros t Hws Ht; [done|]. apply (IH (applyWrite t wr)).
  - intros row Hin. apply (Hws row). by right.
  - destruct wr as [| | | |id' row| |]; try done. cbn. rewrite lookup_insert_ne; [done|]. intros ->. apply (Hws row). by left.
Qed.

#[local] Instance kept_steady id r : steady (kept id r).
Proof. by intros w x Hw _. Qed.

#[local] Instance kept_open id r : open_to_others (kept id r).
Proof. intros w ws [Hm Hg]. split; [by apply others_messages|done]. Qed.

Lemma keeps_applyChanges id r : keeps (kept id r) applyChanges.
Proof.
  unfold applyChanges. apply keepsOr_bind; [apply safe_keeps, safe_interfere; apply _|]. intros _. apply keepsOr_modify.
  intros w [Hm Hg]. destruct (guard (g_tx w)) as [g|] eqn:He; [|by split; [|rewrite He]]. split; cbn.
  - apply kept_apply; [intros row; by apply Hg|done].
  - intros g' row [= <-]. apply not_elem_of_nil.
Qed.

Lemma keeps_setGuard id r g : (forall g', g = Some g' -> changes g' = []) -> keeps (kept id r) (setGuard g).
Proof.
  intros Hg. unfold setGuard, setTx. apply keepsOr_modify. intros w [Hm _]. split; [done|]. cbn. intros g' row ->.
  rewrite (Hg g' eq_refl). apply not_elem_of_nil.
Qed.

Lemma keeps_setCounters id r e i : keeps (kept id r) (setCounters e i).
Proof. unfold setCounters, setTx. by apply keepsOr_modify. Qed.

Lemma keeps_fault id r : keeps (kept id r) (ask fault).
Proof. apply safe_keeps, safe_fault. apply _. Qed.

Lemma keeps_rollback id r : keeps (kept id r) resetGuard.
Proof.
  unfold resetGuard. apply keepsOr_bind; [apply keepsOr_gets|]. intros t. destruct (guard t) as [g|]; [|apply keepsOr_ret].
  apply keepsOr_bind; [|intros _; by apply keeps_setGuard]. destruct (open_ g); [|apply keepsOr_ret].
  apply keepsOr_bind; [apply keeps_fault|]. intros _. apply keepsOr_ret.
Qed.

Lemma keeps_commitFailed id r err : keeps (kept id r) (commitFailed err).
Proof.
  unfold commitFailed. apply keepsOr_bind; [apply keeps_fault|]. intros e.
  apply keepsOr_bind; [apply keeps_setGuard; by intros g' [= <-]|]. intros _. by apply keepsOr_throw.
Qed.

Lemma keeps_commitTx id r : keeps (kept id r) commitTx.
Proof.
  unfold commitTx. apply keepsOr_bind; [apply keepsOr_gets|]. intros t. destruct (guard t) as [g|]; [|apply keepsOr_ret].
  apply keepsOr_bind.
  - unfold guardCommit. destruct (negb _); [apply keepsOr_ret|].
    apply keepsOr_bind; [apply safe_keeps, (safe_ask (kept id r)), hookFailsCommit_later|]. intros []; [apply keeps_commitFailed|].
    apply keepsOr_bind; [apply keeps_fault|]. intros [e|]; [|apply keeps_applyChanges].
    apply keepsOr_bind; [apply safe_keeps, (safe_ask (kept id r)), commitLost_later|]. intros lost.
    apply keepsOr_bind; [destruct lost; [apply keeps_applyChanges|apply keepsOr_ret]|]. intros _. apply keeps_commitFailed.
  - intros _. apply keepsOr_bind; [apply keeps_fire; apply _|]. intros _.
    apply keepsOr_bind; [apply keeps_rollback|]. intros _. apply keeps_setCounters.
Qed.

Lemma keeps_beginTx id r : keeps (kept id r) beginTx.
Proof.
  unfold beginTx. apply keepsOr_bind; [apply keepsOr_gets|]. intros t. destruct (guard t) as [g|]; [apply keepsOr_ret|].
  unfold newGuard. intros w Hw. apply wp_bind, wp_bind. eapply wp_mono; [by apply (keeps_acquire (kept id r))| |done]. intros ? w1 Hw1.
  apply wp_bind. eapply wp_mono; [by apply (keeps_fault id r)| |done]. intros [e|] w2 Hw2; [done|].
  apply wp_bind. eapply wp_mono; [by apply (keeps_fault id r)| |done]. intros [e|] w3 Hw3; [done|].
  apply wp_ret. apply (keeps_setGuard id r); [by intros g' [= <-]|done].
Qed.

Lemma keeps_deliveryStmt id r key row : keeps (kept id r) (execStmt (insertDeliveryStmt key row)).
Proof.
  unfold execStmt. apply keepsOr_bind; [apply keeps_server; apply _|]. intros _. apply keepsOr_bind; [apply keepsOr_gets|].
  intros t. destruct (insertDeliveryStmt key row t) as [e|ws] eqn:Hs; [destruct (_ =? _); [apply keepsOr_ret|by apply keepsOr_throw]|].
  assert (ws = [InsertDelivery key row]) as -> by (unfold insertDeliveryStmt in Hs; by repeat case_match; simplify_eq).
  apply keepsOr_bind; [|intros _; apply keepsOr_ret]. unfold record. apply keepsOr_modify. intros w [Hm Hg].
  destruct (guard (g_tx w)) as [[[] cs]|] eqn:He; split; cbn; rewrite ?He; try done.
  intros g row' [= <-] [Hin|Hin]%elem_of_app; [by eapply (Hg _ row' eq_refl)|by apply list_elem_of_singleton in Hin].
Qed.

Lemma keeps_insertDelivery id r d : keeps (kept id r) (insertDelivery d).
Proof.
  unfold insertDelivery, orRollBack. eapply keepsOr_catch with (J := fun _ => kept id r).
  - apply keepsOr_bind; [apply keeps_beginTx|]. intros _. apply keepsOr_bind; [apply keeps_fire; apply _|]. intros _.
    apply keepsOr_bind; [apply keeps_deliveryStmt|]. intros _. apply keepsOr_bind; [apply keepsOr_gets|]. intros t.
    apply keepsOr_bind; [apply keeps_setCounters|]. intros _. destruct (_ =? _); [apply keeps_commitTx|apply keepsOr_ret].
  - intros x w Hw. apply wp_bind. unfold rollbackAndClear, rollbackTx. apply wp_bind.
    eapply wp_mono; [by apply keeps_rollback| |done]. intros ? w1 Hw1. by apply keeps_setCounters.
Qed.

(** ** The accept of the service *)

Section service.
Context {E : Type} `{!Env E}.
Context (fanOutCap_ : Z).

#[local] Instance store : MessageStore W := mySqlMessageStore fanOutCap_.

Abbreviation world := (World W E).

Definition draftOf (sender : SessionIdentity) (cmd : SendMessageCommand) (conv at_ : Z) : Message :=
  mkMessage 0 conv 0 (userId sender) cmd at_.

(** The changes of a new message are complete; those for a message that was there
    already are deliveries of it. *)
Definition wholeAccept (sender : SessionIdentity) (cmd : SendMessageCommand) (ws : list Write) : Prop :=
  exists conv at_ id seq, acceptSet (draftOf sender cmd conv at_) id seq (recipientsFor cmd) ws.

Definition repeatedAccept (cmd : SendMessageCommand) (ws : list Write) : Prop :=
  exists mid, deliveriesFor mid (recipientsFor cmd) ws.

(** After an accept that returns [m]: a new message is in the tables with its event
    and a delivery for everyone, by one commit; or [m] was there with the payload of
    the command, and only deliveries of it were added; then the transaction is
    closed, or is empty and the message has no recipients. *)
Inductive accepted (sender : SessionIdentity) (cmd : SendMessageCommand) (done_ : list (list Write)) (w : W) : Message -> Prop :=
| acceptedNew conv at_ id seq ws :
    let draft := draftOf sender cmd conv at_ in
    acceptSet draft id seq (recipientsFor cmd) ws -> guard (g_tx w) = None -> sw_done w = done_ ++ [ws] ->
    stored draft id seq (recipientsFor cmd) (sw_db w) ->
    accepted sender cmd done_ w (acceptedMessage draft id seq)
| acceptedAgain m :
    samePayload (msg_command m) cmd = true ->
    found (byClientId (i32 (userId sender)) (clientMessageId cmd)) m (sw_db w) ->
    guard (g_tx w) = None \/ (recipientsFor cmd = [] /\ guard (g_tx w) = Some (mkGuard true [])) ->
    sw_done w = done_ \/ (exists ws, deliveriesFor (msg_id m) (recipientsFor cmd) ws /\ sw_done w = done_ ++ [ws]) ->
    accepted sender cmd done_ w m.

(** After an accept that fails. *)
Definition refused (sender : SessionIdentity) (cmd : SendMessageCommand) (done_ : list (list Write)) (w : W) : Prop :=
  guard (g_tx w) = None /\
  (sw_done w = done_ \/ exists ws, (wholeAccept sender cmd ws \/ repeatedAccept cmd ws) /\ sw_done w = done_ ++ [ws]).

Lemma expected_recipients cmd : expectedFor cmd = Z.of_nat (length (recipientsFor cmd)).
Proof. unfold expectedFor, recipientsFor. by destruct (kind cmd). Qed.

Lemma messageWrites_heads new draft pre id seq oid now :
  Forall conversationWrite pre -> heads new id (pre ++ messageWrites draft id seq oid now).
Proof.
  intros Hpre. split.
  - intros _. exists (messageRow draft seq). apply elem_of_app. right. right. by left.
  - intros t. rewrite applyWrites_app. cbn. apply (apply_conversation pre t Hpre).
Qed.

(** All the deliveries. *)
Lemma wp_deliveries new m ws done_ us at_ (w : world) :
  Z.of_nat (length us) < 2 ^ 64 -> heads new (msg_id m) ws -> loop new (msg_id m) us ws done_ us (w_store w) ->
  wp (forM us (fun u => onStore (Store.insertDelivery (newDelivery m u at_))))
    (fun _ w' => loop new (msg_id m) us ws done_ [] (w_store w'))
    (fun _ w' => idle (settled new (msg_id m) us ws done_) (w_store w')) w.
Proof.
  intros Hlen Hh Hw. apply (wp_forM (fun rest w' => loop new (msg_id m) us ws done_ rest (w_store w'))); [done|].
  intros u rest w1 Hw1. unfold onStore. apply wp_zoom.
  eapply wp_mono; [by apply (wp_insertDelivery new (msg_id m) us ws done_ (newDelivery m u at_) rest)|done|done].
Qed.

(** Where the loop starts, for a new message and for one that was there. *)
Lemma loop_new draft us pre id seq oid now done_ (w : W) :
  let ws := pre ++ messageWrites draft id seq oid now in
  match us with [] => committed None done_ ws w | _ => inTx done_ ws (Z.of_nat (length us)) 0 w end ->
  loop True id us ws done_ us w.
Proof.
  intros ws Hw. exists [], []. split; [done|]. split; [constructor|]. split; [by intros _ u ?%elem_of_nil|].
  rewrite app_nil_r. destruct us as [|u us]; [done|]. split; [done|].
  pose proof (it_below _ _ _ _ _ Hw) as Hb. rewrite Forall_forall in Hb. apply (Hb (InsertMessage id (messageRow draft seq))).
  subst ws. rewrite elem_of_app. right. right. by left.
Qed.

Lemma loop_again us mid done_ (w : W) :
  us <> [] -> inTx done_ [] (Z.of_nat (length us)) 0 w -> mid <= issued MessageIds (sw_env w) ->
  loop False mid us [] done_ us w.
Proof. intros Hus Hw Hm. exists [], []. split; [done|]. split; [constructor|]. split; [done|]. by destruct us. Qed.

Lemma loop_covered mid us ws done_ (w : W) :
  loop True mid us ws done_ [] w ->
  exists dels, deliveriesFor mid us dels /\ coversAll mid us dels /\ committed None done_ (ws ++ dels) w.
Proof.
  intros (us1 & dels & Hus & Hd & Hc & Hw). rewrite app_nil_r in Hus. subst us1. exists dels. split; [done|].
  split; [by apply Hc|done].
Qed.

Lemma newAccept draft us pre id seq oid now dels :
  Forall conversationWrite pre -> deliveriesFor id us dels -> coversAll id us dels ->
  acceptSet draft id seq us ((pre ++ messageWrites draft id seq oid now) ++ dels).
Proof. intros Hpre Hd Hc. exists pre, oid, now, dels. by rewrite app_assoc. Qed.

(** What follows the message. *)
Definition finish (cmd : SendMessageCommand) (accepted_ : Message) (acceptedAt : Z)
  : eff exn world (Message * Z) :=
  t <- nowMs ;;
  c <- getCoord ;;
  forM (recipientsFor cmd) (fun u =>
    onStore (Store.insertDelivery (newDelivery accepted_ u (i64 (t + messageRetentionMs (config_ c)))))) ;;;
  ret (accepted_, acceptedAt).

Lemma wp_finish new cmd m acceptedAt ws done_ (w : world) :
  Z.of_nat (length (recipientsFor cmd)) < 2 ^ 64 -> heads new (msg_id m) ws ->
  loop new (msg_id m) (recipientsFor cmd) ws done_ (recipientsFor cmd) (w_store w) ->
  wp (finish cmd m acceptedAt)
    (fun r w' => r.1 = m /\ loop new (msg_id m) (recipientsFor cmd) ws done_ [] (w_store w'))
    (fun _ w' => idle (settled new (msg_id m) (recipientsFor cmd) ws done_) (w_store w')) w.
Proof.
  intros Hlen Hh Hw. unfold finish. apply wp_bind. unfold nowMs, wp at 1. destruct (clockNow (w_env w)) as [e t].
  apply wp_bind, wp_gets, wp_bind. eapply wp_mono; [by apply (wp_deliveries new m ws done_)| |done].
  intros ? w1 Hw1. by apply wp_ret.
Qed.

Lemma wp_finishNew sender cmd conv at_ pre id seq oid now done_ (w : world) :
  let draft := draftOf sender cmd conv at_ in
  let ws := pre ++ messageWrites draft id seq oid now in
  let us := recipientsFor cmd in
  Z.of_nat (length us) < 2 ^ 64 -> Forall conversationWrite pre ->
  match us with
  | [] => committed None done_ ws (w_store w)
  | _ => inTx done_ ws (Z.of_nat (length us)) 0 (w_store w)
  end ->
  wp (finish cmd (acceptedMessage draft id seq) at_)
    (fun r w' => accepted sender cmd done_ (w_store w') r.1)
    (fun _ w' => refused sender cmd done_ (w_store w')) w.
Proof.
  intros draft ws us Hlen Hpre Hw. eapply wp_mono.
  - apply (wp_finish True cmd (acceptedMessage draft id seq) at_ ws done_ w Hlen); [by apply messageWrites_heads|].
    by apply loop_new.
  - intros [m t] w1 [-> Hw1]. apply loop_covered in Hw1 as (dels & Hd & Hc & [Hg Hdone [db Hdb] Hs]). cbn [fst].
    pose proof (newAccept draft us pre id seq oid now dels Hpre Hd Hc) as Ha.
    eapply acceptedNew; [exact Ha|done|done|]. rewrite Hdb. by apply acceptSet_stored.
  - intros x w1 [Hg Hd Hs]. split; [done|]. destruct Hd as [->|(dels & Hd & Hc & ->)]; [by left|right].
    exists (ws ++ dels). split; [left|done]. exists conv, at_, id, seq. by apply newAccept; [| |apply Hc].
Qed.

Lemma finish_kept cmd m at_ id r (w : world) :
  kept id r (w_store w) -> wp (finish cmd m at_) (fun _ w' => kept id r (w_store w')) (fun _ w' => kept id r (w_store w')) w.
Proof.
  intros Hw. unfold finish. apply wp_bind. unfold nowMs, wp at 1. destruct (clockNow (w_env w)) as [e t].
  apply wp_bind, wp_gets, wp_bind. eapply wp_mono with (Q := fun _ w' => kept id r (w_store w')) (E := fun _ w' => kept id r (w_store w'));
    [|done|done].
  apply (wp_forM (fun _ w' => kept id r (w_store w'))); [done|]. intros u rest w1 Hw1. apply wp_zoom.
  by apply keeps_insertDelivery.
Qed.

Lemma wp_finishAgain sender cmd m conv at_ done_ (w : world) :
  let us := recipientsFor cmd in
  Z.of_nat (length us) < 2 ^ 64 -> inTx done_ [] (Z.of_nat (length us)) 0 (w_store w) ->
  repeats (draftOf sender cmd conv at_) m (w_store w) ->
  wp (finish cmd m at_)
    (fun r w' => accepted sender cmd done_ (w_store w') r.1)
    (fun _ w' => refused sender cmd done_ (w_store w')) w.
Proof.
  intros us Hlen Hw (Hsame & Hm & row & Hrow & Hof & Hkey). destruct (decide (us = [])) as [Hus|Hus].
  - unfold finish. apply wp_bind. unfold nowMs, wp at 1. destruct (clockNow (w_env w)) as [e t].
    apply wp_bind, wp_gets, wp_bind. fold us. rewrite Hus. apply wp_ret, wp_ret.
    apply acceptedAgain; [done|by exists row| |left; apply Hw]. right. split; [done|apply Hw].
  - assert (kept (msg_id m) row (w_store w)) as Hk.
    { split; [done|]. intros g row'. rewrite (it_guard _ _ _ _ _ Hw). intros [= <-]. apply not_elem_of_nil. }
    eapply wp_mono; [apply wp_and; [apply (wp_finish False cmd m at_ [] done_ w Hlen); [by split|by apply loop_again]|
      by apply (finish_kept cmd m at_ (msg_id m) row)]| |].
    + intros [m' t] w1 [[-> (us1 & dels & _ & Hd & _ & [Hg Hdone _ _])] [Hrow1 _]]. cbn [fst].
      apply acceptedAgain; [done|by exists row|by left|]. right. by exists dels.
    + intros x w1 [[Hg Hd Hs] _]. split; [done|]. destruct Hd as [->|(dels & Hd & _ & ->)]; [by left|right].
      exists dels. split; [right; by exists (msg_id m)|done].
Qed.

(** C6: The accept of the service on MySQL is atomic, whatever call fails and whatever
    other connections commit in between, as long as they do not change or delete stored
    messages.  A new message that is returned was stored with its outbox event and a
    delivery for every recipient by one commit.  A repeated message that is returned is
    stored under the sender and the client id of the command with the same payload, and
    only deliveries were added.  A failed accept stored nothing or, after a COMMIT whose
    reply was lost, all of it.  No transaction stays open, except an empty one after a
    repeated message without recipients. *)
Theorem accept_is_atomic (sender : SessionIdentity) (cmd : SendMessageCommand) (w : world) :
  Z.of_nat (length (recipientsFor cmd)) < 2 ^ 64 ->
  guard (g_tx (w_store w)) = None -> sound (w_store w) ->
  let done_ := sw_done (w_store w) in
  match acceptDurably sender cmd w with
  | (w', Ret (m, _)) => accepted sender cmd done_ (w_store w') m
  | (w', Throw _) => refused sender cmd done_ (w_store w')
  end.
Proof.
  intros Hlen Hg Hs done_. enough (wp (acceptDurably sender cmd) (fun r w' => accepted sender cmd done_ (w_store w') r.1)
    (fun _ w' => refused sender cmd done_ (w_store w')) w) as Hwp.
  { unfold wp in Hwp. by destruct (acceptDurably sender cmd w) as [w' [[m t]|x]]. }
  unfold acceptDurably. apply wp_bind, wp_zoom. cbn [Store.getOrCreateConversation store mySqlMessageStore].
  eapply wp_mono; [by apply (wp_getOrCreateConversation fanOutCap_ sender cmd done_)| |].
  2:{ intros x w1 [Hg1 Hd1 _]. split; [done|by left]. }
  intros conv w1 (pre & Hpre & Hw1). rewrite expected_recipients in Hw1.
  apply wp_bind. unfold nowMs at 1, wp at 1. cbn [w_env put_store]. destruct (clockNow (w_env w)) as [e at_].
  apply wp_bind, wp_zoom. cbn [w_store put_env put_store Store.insertMessage store mySqlMessageStore].
  eapply wp_mono; [by apply (wp_insertMessage (draftOf sender cmd conv at_) (recipientsFor cmd) pre done_)| |].
  - intros m w2 [(id & seq & oid & now & -> & Hw2)|[Hw2 Hm]].
    + by apply (wp_finishNew sender cmd conv at_ pre id seq oid now).
    + by apply (wp_finishAgain sender cmd m conv at_).
  - intros x w2 [Hg2 Hd2 _]. split; [done|]. destruct Hd2 as [->|(id & seq & ws & Ha & ->)]; [by left|right].
    exists ws. split; [left; by exists conv, at_, id, seq|done].
Qed.
End service.
End accept.
