(* ===== verification/MySqlDelivery.v ===== *)
(** * Deliveries and events in MySQL

    Times are kept in whole seconds.  What is read back is what was written but for
    the rounding, and the rounding never makes a delivery due or expired too early. *)

From stdpp Require Import pretty.
From Stdlib Require Import Ascii.
From S2P Require Import Prelude DomainTypes Store Json JsonText World Coordinator Messaging MySqlTables MySqlStore MySqlStoreInv.

Open Scope Z_scope.
Open Scope eff_scope.

(** ** The owner of a lease as text *)

(** [ds] are the digits of [x]. *)
Record decimal (x : Z) (ds : list ascii) : Prop := {
  de_digits : Forall (fun c => isDigit c = true) ds;
  de_value acc rest : digitsValue acc (ds ++ rest) = digitsValue (acc * 10 ^ Z.of_nat (length ds) + x) rest;
}.

Lemma pretty_char_digit x : (x < 10)%N -> isDigit (pretty_N_char x) = true /\ byteOf (pretty_N_char x) - 48 = Z.of_N x.
Proof.
  intros Hx. assert (x = 0 \/ x = 1 \/ x = 2 \/ x = 3 \/ x = 4 \/ x = 5 \/ x = 6 \/ x = 7 \/ x = 8 \/ x = 9)%N as Hd by lia.
  by repeat destruct Hd as [->|Hd]; [..|subst].
Qed.

Lemma decimal_snoc x c ds :
  (c < 10)%N -> decimal x ds -> decimal (x * 10 + Z.of_N c) (ds ++ [pretty_N_char c]).
Proof.
  intros Hc [Hd Hv]. destruct (pretty_char_digit c Hc) as [Hdig Hval]. split.
  - apply Forall_app. by repeat constructor.
  - intros acc rest. rewrite <- app_assoc, Hv. cbn [app digitsValue]. rewrite Hdig, Hval, length_app.
    cbn [length]. f_equal. rewrite Nat2Z.inj_add, Z.pow_add_r by lia. lia.
Qed.

Lemma decimal_go (x : N) s :
  exists ds, String.list_ascii_of_string (pretty_N_go x s) = ds ++ String.list_ascii_of_string s /\ decimal (Z.of_N x) ds /\
    ((0 < x)%N -> ds <> []).
Proof.
  revert s. induction (N.lt_wf_0 x) as [x _ IH]; intros s. destruct (decide (x = 0%N)) as [->|Hx].
  - exists []. rewrite pretty_N_go_0. split; [done|]. split; [|lia]. split; [done|]. intros acc rest. cbn [length app].
    f_equal. rewrite Z.pow_0_r. lia.
  - rewrite pretty_N_go_step by lia.
    destruct (IH (x `div` 10)%N ltac:(apply N.div_lt; lia) (String (pretty_N_char (x `mod` 10)) s)) as (ds & Heq & Hds & _).
    exists (ds ++ [pretty_N_char (x `mod` 10)]). rewrite Heq. split; [by rewrite <- app_assoc|]. split; [|by intros _ [_ ?]%app_eq_nil].
    replace (Z.of_N x) with (Z.of_N (x `div` 10) * 10 + Z.of_N (x `mod` 10)).
    + apply decimal_snoc; [apply N.mod_lt; lia|done].
    + rewrite (N.div_mod x 10) at 3 by lia. lia.
Qed.

(** A number is written as digits. *)
Lemma pretty_decimal x : 0 <= x -> exists c ds, String.list_ascii_of_string (pretty x) = c :: ds /\ decimal x (c :: ds).
Proof.
  intros Hx. destruct (decide (x = 0)) as [->|Hne].
  { exists "0"%char, []. split; [done|]. split; [by repeat constructor|]. by intros acc rest. }
  destruct x as [|p|p]; [done| |lia]. change (pretty (Z.pos p)) with (pretty_N_go (N.pos p) EmptyString).
  destruct (decimal_go (N.pos p) EmptyString) as (ds & Heq & Hd & Hn). rewrite app_nil_r in Heq.
  destruct ds as [|c ds]; [by destruct Hn|]. by exists c, ds.
Qed.

Lemma byteOf_digit c : isDigit c = true -> isSpace c = false /\ byteOf c <> 45 /\ byteOf c <> 43 /\ byteOf c <> 58.
Proof. unfold isDigit, isSpace. intros Hc. apply andb_prop in Hc as [H1%Z.leb_le H2%Z.leb_le]. repeat split; [|lia..]. lia. Qed.

Lemma strtoull_pretty x : 0 <= x < 2 ^ 64 -> strtoull (String.list_ascii_of_string (pretty x)) = x.
Proof.
  intros Hx. destruct (pretty_decimal x) as (c & ds & -> & [Hd Hv]); [lia|]. apply Forall_cons in Hd as [Hc _].
  destruct (byteOf_digit c Hc) as (Hs & H45 & H43 & _). cbn [strtoull]. rewrite Hs. apply Z.eqb_neq in H45 as ->, H43 as ->.
  specialize (Hv 0 []). rewrite app_nil_r in Hv. rewrite Hv. unfold saturate. cbn [digitsValue].
  destruct (Z.ltb_spec (0 * 10 ^ Z.of_nat (length (c :: ds)) + x) (2 ^ 64)); lia.
Qed.

Lemma splitColon_digits ds rest :
  Forall (fun c => isDigit c = true) ds ->
  splitColon (ds ++ ":"%char :: rest) = (ds, Some rest) /\ splitColon ds = (ds, None).
Proof.
  induction 1 as [|c ds Hc Hds [IH1 IH2]]; [done|]. cbn [app splitColon].
  destruct (byteOf_digit c Hc) as (_ & _ & _ & H58%Z.eqb_neq). rewrite H58, IH1, IH2. done.
Qed.

Lemma list_ascii_app s s' :
  String.list_ascii_of_string (s +:+ s') = String.list_ascii_of_string s ++ String.list_ascii_of_string s'.
Proof. induction s as [|c s IH]; [done|]. cbn [String.append String.list_ascii_of_string app]. by rewrite <- IH. Qed.

(** The owner of a lease is read back as it was written. *)
Lemma leaseOwner_roundtrip owner boot :
  isU64 (userId owner) -> isU64 (generation owner) -> isU64 boot -> userId owner <> 0 ->
  decodeLeaseOwner (encodeLeaseOwner owner boot) = Some (owner, boot).
Proof.
  intros Hu Hg Hb Hne. unfold decodeLeaseOwner, encodeLeaseOwner. apply Z.eqb_neq in Hne as ->.
  rewrite !list_ascii_app. cbn [String.list_ascii_of_string app].
  pose proof (strtoull_pretty _ Hu) as Su. pose proof (strtoull_pretty _ Hg) as Sg. pose proof (strtoull_pretty _ Hb) as Sb.
  destruct (pretty_decimal (userId owner)) as (cu & du & Eu & Du); [apply Hu|].
  destruct (pretty_decimal (generation owner)) as (cg & dg & Eg & Dg); [apply Hg|].
  destruct (pretty_decimal boot) as (cb & db & Eb & Db); [apply Hb|]. rewrite Eu, Eg, Eb in *.
  destruct (splitColon_digits (cu :: du) ((cg :: dg) ++ ":"%char :: cb :: db) (de_digits _ _ Du)) as [H1 _].
  destruct (splitColon_digits (cg :: dg) (cb :: db) (de_digits _ _ Dg)) as [H2 _]. cbn [app] in H1, H2 |- *.
  rewrite H1, H2, Su, Sg, Sb. by destruct owner.
Qed.

(** ** Times in seconds *)

Definition floorSecond (ms : Z) : Z := ms / 1000 * 1000.
Definition ceilSecond (ms : Z) : Z := (ms + 999) / 1000 * 1000.

Section rows.
Context `{Hserver : !SqlServer, Hlaws : !SqlServerLaws}.

(** A time in milliseconds that fits a column. *)
Definition isTime (ms : Z) : Prop := 0 <= ms <= maxUnixTime * 1000.

Lemma isTime_bound ms : isTime ms -> 0 <= ms < 2 ^ 53.
Proof. unfold isTime. pose proof maxUnixTime_ok. lia. Qed.

Lemma fromUnixTime_in secs : 0 <= secs <= maxUnixTime -> fromUnixTime secs = Some secs.
Proof. intros Hs. unfold fromUnixTime. by rewrite (proj2 (Z.leb_le _ _) (proj1 Hs)), (proj2 (Z.leb_le _ _) (proj2 Hs)). Qed.

Lemma timeColumn_in ms : isTime ms -> ms <> 0 -> timeColumn ms = Some (ms / 1000).
Proof.
  intros Hms Hne. pose proof (isTime_bound ms Hms). destruct Hms as [H0 H1]. unfold timeColumn, cdiv. apply Z.eqb_neq in Hne as ->.
  rewrite Z.quot_div_nonneg by lia. apply fromUnixTime_in. split; [apply Z.div_pos; lia|]. apply Z.div_le_upper_bound; lia.
Qed.

Definition nextColumn (ms : Z) : DateTime := if ms =? 0 then None else fromUnixTime (cdiv (i64 (ms + 999)) 1000).

Lemma nextColumn_in ms : isTime ms -> ms <> 0 -> nextColumn ms = Some ((ms + 999) / 1000).
Proof.
  intros Hms Hne. pose proof (isTime_bound ms Hms). destruct Hms as [H0 H1]. unfold nextColumn, cdiv. apply Z.eqb_neq in Hne as ->.
  rewrite i64_small by (unfold isI64; lia). rewrite Z.quot_div_nonneg by lia. apply fromUnixTime_in.
  split; [apply Z.div_pos; lia|]. apply Z.lt_succ_r, Z.div_lt_upper_bound; lia.
Qed.

Lemma timeOf_whole secs : 0 <= secs < 2 ^ 53 -> timeOf (Some secs) = secs * 1000.
Proof. intros Hs. apply i64_small. unfold isI64. lia. Qed.

Lemma timeColumn_roundtrip ms : isTime ms -> timeOf (timeColumn ms) = floorSecond ms.
Proof.
  intros Hms. pose proof (isTime_bound ms Hms). destruct (decide (ms = 0)) as [->|Hne]; [done|].
  rewrite timeColumn_in by done. apply timeOf_whole. split; [apply Z.div_pos; lia|]. apply Z.div_lt_upper_bound; lia.
Qed.

Lemma nextColumn_roundtrip ms : isTime ms -> timeOf (nextColumn ms) = ceilSecond ms.
Proof.
  intros Hms. pose proof (isTime_bound ms Hms). destruct (decide (ms = 0)) as [->|Hne]; [done|].
  rewrite nextColumn_in by done. apply timeOf_whole. split; [apply Z.div_pos; lia|]. apply Z.div_lt_upper_bound; lia.
Qed.

(** ** Rows *)

(** A delivery that fits its row. *)
Record storable (d : Delivery) : Prop := {
  sb_recipient : 0 <= dl_recipient d < 2 ^ 31;
  sb_user : isU64 (userId (dl_leaseOwner d));
  sb_generation : isU64 (generation (dl_leaseOwner d));
  sb_boot : isU64 (dl_leaseBootId d);
  sb_attempts : 0 <= dl_attemptCount d < 2 ^ 31;
  sb_lease : isTime (dl_leaseUntilMs d);
  sb_sent : isTime (dl_lastSentAtMs d);
  sb_acked : isTime (dl_acknowledgedAtMs d);
  sb_expires : isTime (dl_expiresAtMs d);
  sb_next : isTime (dl_nextAttemptAtMs d);
}.

(** What is read back, with the owner [owner] and [boot]. *)
Definition roundedWith (d : Delivery) (owner : SessionIdentity) (boot : Z) : Delivery :=
  mkDelivery (dl_messageId d) (dl_conversationId d) (dl_sequence d) (dl_recipient d) (dl_state d) owner boot
    (floorSecond (dl_leaseUntilMs d)) (dl_attemptCount d) (floorSecond (dl_acknowledgedAtMs d))
    (floorSecond (dl_expiresAtMs d)) (floorSecond (dl_lastSentAtMs d)) (ceilSecond (dl_nextAttemptAtMs d)).

Definition rounded (d : Delivery) : Delivery := roundedWith d (dl_leaseOwner d) (dl_leaseBootId d).

Definition leased (d : Delivery) : Prop := userId (dl_leaseOwner d) <> 0.

Definition leaseOf (d : Delivery) : SessionIdentity * Z := (dl_leaseOwner d, dl_leaseBootId d).

Definition noLease : SessionIdentity * Z := (mkSession 0 0, 0).

(** The deliveries [sel] as a result set returns them, [last] being the owner read
    before: a leased delivery comes with its owner; one that is not leased comes
    without an owner or with the one read last. *)
Inductive readBack : SessionIdentity * Z -> list Delivery -> list Delivery -> Prop :=
| readNone last : readBack last [] []
| readLeased last d sel rs :
    leased d -> readBack (leaseOf d) sel rs -> readBack last (d :: sel) (rounded d :: rs)
| readFree last o d sel rs :
    ~ leased d -> o = last \/ o = noLease -> readBack o sel rs -> readBack last (d :: sel) (roundedWith d o.1 o.2 :: rs).

Lemma readBack_length last sel rs : readBack last sel rs -> length sel = length rs.
Proof. induction 1; cbn; congruence. Qed.

Lemma decodeState_encode st : decodeState (encodeState st) = Some st.
Proof. by destruct st. Qed.

Definition keyOf (d : Delivery) : Z * Z := (dl_messageId d, dl_recipient d).

Lemma fetch_row d m buf o :
  storable d -> mr_conversation_id m = dl_conversationId d -> mr_sequence m = dl_sequence d ->
  decodeLeaseOwner buf = Some o -> fetchDelivery (keyOf d) (deliveryRow d) m buf = Some (roundedWith d o.1 o.2).
Proof.
  intros [] Hc Hs Hbuf. destruct o as [owner boot]. unfold fetchDelivery. cbn [deliveryRow dr_state].
  rewrite decodeState_encode, Hbuf. cbn [mbind option_bind]. cbn [deliveryRow dr_lease_until dr_acknowledged_at dr_expires_at
    dr_last_sent_at dr_next_attempt_at dr_attempt_count keyOf fst snd]. fold (nextColumn (dl_nextAttemptAtMs d)).
  rewrite !timeColumn_roundtrip, nextColumn_roundtrip by done.
  assert (u64 (dl_recipient d) = dl_recipient d) as -> by (apply u64_small; unfold isU64; lia).
  assert (u32 (i32 (dl_attemptCount d)) = dl_attemptCount d) as ->.
  { unfold i32, u32, wrapS, wrapU. rewrite !Z.mod_small by (rewrite ?Z.mod_small; lia). lia. }
  by rewrite Hc, Hs.
Qed.

(** The tables hold the deliveries [ds]. *)
Record mirrors (ds : gmap (Z * Z) Delivery) (t : Tables) : Prop := {
  mi_rows : MessageDelivery t = deliveryRow <$> ds;
  mi_keys k d : ds !! k = Some d -> k = keyOf d /\ storable d;
  mi_messages k d : ds !! k = Some d -> exists m, ChatMessage t !! dl_messageId d = Some m /\
    mr_conversation_id m = dl_conversationId d /\ mr_sequence m = dl_sequence d;
}.

(** A row of the join is that of [d]. *)
Definition rowFor (d : Delivery) (row : (Z * Z) * DeliveryRow * MessageRow) : Prop :=
  storable d /\ row.1 = (keyOf d, deliveryRow d) /\ mr_conversation_id row.2 = dl_conversationId d /\
  mr_sequence row.2 = dl_sequence d.

(** The deliveries that a condition picks. *)
Definition picks (p : Z * Z -> DeliveryRow -> bool) (ds : gmap (Z * Z) Delivery) (d : Delivery) : Prop :=
  ds !! keyOf d = Some d /\ p (keyOf d) (deliveryRow d) = true.

Lemma join_rows p ds t (L : list ((Z * Z) * DeliveryRow)) :
  mirrors ds t -> (forall kr, kr ∈ L -> MessageDelivery t !! kr.1 = Some kr.2) ->
  exists sel, Forall2 rowFor sel (omap (joinRow p t) L) /\
    Forall (picks p ds) sel /\ (forall d, picks p ds d -> (keyOf d, deliveryRow d) ∈ L -> d ∈ sel) /\
    keyOf <$> sel `sublist_of` L.*1.
Proof.
  intros Ht. induction L as [|[k r] L IH]; intros HL.
  { exists []. split; [constructor|]. split; [constructor|]. split; [by intros d _ ?%elem_of_nil|constructor]. }
  destruct IH as (sel & Hrows & Hsel & Hall & Hsub); [intros kr Hkr; apply HL; by right|].
  pose proof (HL (k, r) ltac:(by left)) as Hk. cbn in Hk. rewrite (mi_rows _ _ Ht), lookup_fmap in Hk.
  destruct (ds !! k) as [d|] eqn:Hd; [|done]. injection Hk as <-.
  destruct (mi_keys _ _ Ht k d Hd) as [-> Hs]. destruct (mi_messages _ _ Ht _ d Hd) as (m & Hm & Hc & Hq).
  cbn [omap list_omap]. unfold joinRow at 1. cbn [fst snd]. change (keyOf d).1 with (dl_messageId d). rewrite Hm. cbn [mbind option_bind].
  destruct (p (keyOf d) (deliveryRow d)) eqn:Hp.
  - exists (d :: sel). split; [by constructor|]. split; [by constructor|]. split; [|by constructor].
    intros d' Hd' [Heq|Hin]%elem_of_cons; [|right; by apply Hall]. apply (f_equal fst) in Heq. cbn [fst] in Heq.
    destruct Hd' as [Hd' _]. rewrite Heq in Hd'. assert (d' = d) as -> by congruence. by left.
  - exists sel. split; [done|]. split; [done|]. split; [|by constructor].
    intros d' Hd' [Heq|Hin]%elem_of_cons; [|by apply Hall]. apply (f_equal fst) in Heq. cbn [fst] in Heq.
    destruct Hd' as [Hd' Hp']. rewrite Heq in Hd', Hp'. congruence.
Qed.

(** The buffer of a NULL column keeps its text, or is empty. *)
Hypothesis afterNull_cases : forall s, afterNull s = s \/ afterNull s = EmptyString.

Lemma fetch_rows sel rows buf o :
  Forall2 rowFor sel rows -> decodeLeaseOwner buf = Some o -> exists rs, fetchDeliveries rows buf = Some rs /\ readBack o sel rs.
Proof.
  intros Hrows. revert buf o. induction Hrows as [|d row sel rows (Hs & Hrow & Hc & Hq) Hrows IH]; intros buf o Hbuf.
  { exists []. by split; [|constructor]. }
  destruct row as [[k r] m]. cbn [fst snd] in Hrow, Hc, Hq. apply pair_equal_spec in Hrow as [-> ->]. cbn [fetchDeliveries].
  cbn [deliveryRow dr_lease_owner]. fold (deliveryRow d). destruct (Z.eqb_spec (userId (dl_leaseOwner d)) 0) as [He|He].
  - assert (exists o', decodeLeaseOwner (afterNull buf) = Some o' /\ (o' = o \/ o' = noLease)) as (o' & Hbuf' & Ho)
      by (destruct (afterNull_cases buf) as [-> | ->]; eauto).
    rewrite (fetch_row d m _ o' Hs Hc Hq Hbuf'). destruct (IH _ o' Hbuf') as (rs & -> & Hrs). cbn [mbind option_bind].
    eexists. split; [done|]. by apply readFree; [intros []| |].
  - assert (decodeLeaseOwner (encodeLeaseOwner (dl_leaseOwner d) (dl_leaseBootId d)) = Some (leaseOf d)) as Hown
      by (by apply leaseOwner_roundtrip; try apply Hs).
    rewrite (fetch_row d m _ _ Hs Hc Hq Hown). destruct (IH _ _ Hown) as (rs & -> & Hrs). cbn [mbind option_bind].
    eexists. split; [done|]. by apply readLeased.
Qed.

(** The deliveries [sel] are those that [p] picks, or [limit] of them. *)
Record picked (p : Z * Z -> DeliveryRow -> bool) (limit : option Z) (ds : gmap (Z * Z) Delivery) (sel : list Delivery) : Prop := {
  pi_sound d : d ∈ sel -> picks p ds d;
  pi_once : NoDup (keyOf <$> sel);
  pi_limit n : limit = Some n -> (length sel <= Z.to_nat n)%nat;
  pi_all d : (forall n, limit = Some n -> (length sel < Z.to_nat n)%nat) -> picks p ds d -> d ∈ sel;
}.

Lemma select_rows p limit ds t :
  mirrors ds t ->
  let rows := joinedDeliveries p t in
  let rows := match limit with Some n => take (limitOf n) rows | None => rows end in
  exists sel, picked p limit ds sel /\ Forall2 rowFor sel rows.
Proof.
  intros Ht. cbn zeta. destruct (join_rows p ds t (arrange (map_to_list (MessageDelivery t))) Ht) as (sel & Hr & Hs & Ha & Hsub).
  { intros [k r] Hin. rewrite arrange_perm in Hin. by apply elem_of_map_to_list in Hin. }
  assert (NoDup (keyOf <$> sel)) as Hnd.
  { eapply sublist_NoDup; [|exact Hsub]. rewrite arrange_perm. apply NoDup_fst_map_to_list. }
  assert (forall d, picks p ds d -> d ∈ sel) as Hall.
  { intros d Hd. apply Ha; [done|]. rewrite arrange_perm. apply elem_of_map_to_list.
    rewrite (mi_rows _ _ Ht), lookup_fmap. by rewrite (proj1 Hd). }
  rewrite Forall_forall in Hs. destruct limit as [n|].
  - exists (take (limitOf n) sel). split; [|by apply Forall2_take]. split.
    + intros d Hd. apply Hs. eapply elem_of_take in Hd as (i & Hi & _). by eapply list_elem_of_lookup_2.
    + rewrite fmap_take. eapply sublist_NoDup; [done|apply sublist_take].
    + intros m [= <-]. rewrite length_take. unfold limitOf. lia.
    + intros d Hlt Hd. specialize (Hlt n eq_refl). rewrite length_take in Hlt. rewrite take_ge; [by apply Hall|]. unfold limitOf in *. lia.
  - exists sel. split; [|done]. split; [done|done|done|]. intros d _. apply Hall.
Qed.
End rows.

(** ** The operations *)

Section operations.
Context {X : Type} `{Henv : !SqlEnv X, Hserver : !SqlServer, Hlaws : !SqlServerLaws, Hjson : !JsonLib, Hfloat : !JsonFloat}.

(** No other connection changes the tables during an operation. *)
Hypothesis quiet : forall ws t x, (others ws t x).2 = t.
Hypothesis afterNull_cases : forall s, afterNull s = s \/ afterNull s = EmptyString.

Abbreviation W := (SqlWorld X).
Abbreviation seff := (eff exn W).

(** No transaction is open, and the tables are [t]. *)
Definition holds (t : Tables) (w : W) : Prop := guard (g_tx w) = None /\ sw_db w = t.

Lemma wp_fault t w : holds t w -> wp (ask fault) (fun _ => holds t) (fun _ _ => False) w.
Proof. intros Hw. unfold wp, ask. by destruct (fault (sw_env w)). Qed.

Lemma wp_ownConnection t w : holds t w -> wp ownConnection (fun _ => holds t) (fun _ => holds t) w.
Proof.
  intros Hw. unfold ownConnection, finishPending, commitTx. apply wp_bind, wp_bind, wp_gets. rewrite (proj1 Hw). apply wp_ret.
  unfold acquire. apply wp_bind. eapply wp_mono; [by apply wp_fault| |by intros ? ? []]. intros [err|] w1 Hw1; [done|by apply wp_ret].
Qed.

Lemma wp_statement {A} (f : Tables -> Z + Tables * A) t (Q : A -> W -> Prop) w :
  holds t w -> (forall t' a w', f t = inr (t', a) -> holds t' w' -> Q a w') ->
  wp (statement f) Q (fun _ => holds t) w.
Proof.
  intros Hw HQ. unfold statement, server. apply wp_bind, wp_bind. eapply wp_mono; [by apply wp_fault| |by intros ? ? []].
  intros [err|] w1 Hw1; [done|]. unfold interfere, wp at 1. pose proof (quiet (pendingOf (g_tx w1)) (sw_db w1) (sw_env w1)) as Hq.
  destruct (others _ _ _) as [x db]. cbn [snd] in Hq. subst db. apply wp_bind, wp_gets. destruct Hw1 as [Hg <-]. cbn [sw_db].
  destruct (f (sw_db w1)) as [err|[t' a]] eqn:Hf; [done|]. apply wp_bind, wp_modify, wp_ret. by eapply HQ.
Qed.

(** Reading deliveries: what [p] picks, as the columns keep it. *)
Lemma wp_deliveriesWhere p limit ds t w :
  mirrors ds t -> holds t w ->
  wp (deliveriesWhere p limit) (fun rs w' => holds t w' /\ exists sel, picked p limit ds sel /\ readBack noLease sel rs)
    (fun _ => holds t) w.
Proof.
  intros Ht Hw. unfold deliveriesWhere, select. apply wp_bind. eapply wp_statement; [exact Hw|].
  intros t' rows w1 [= <- <-] Hw1. destruct (select_rows p limit ds t Ht) as (sel & Hp & Hr). cbn zeta in Hr.
  destruct (fetch_rows afterNull_cases sel _ EmptyString noLease Hr eq_refl) as (rs & -> & Hrs). apply wp_ret. eauto.
Qed.

Lemma update_mirrors ds t d :
  mirrors ds t -> storable d -> (exists d0, ds !! keyOf d = Some d0 /\ dl_conversationId d0 = dl_conversationId d /\
    dl_sequence d0 = dl_sequence d) ->
  mirrors (<[keyOf d := d]> ds) (updateDeliveryStmt (dl_messageId d, i32 (dl_recipient d)) (deliveryRow d) t).
Proof.
  intros Ht Hs (d0 & Hd0 & Hc & Hq). assert (i32 (dl_recipient d) = dl_recipient d) as ->.
  { destruct Hs as [Hr _ _ _ _ _ _ _ _ _]. unfold i32, wrapS. rewrite Z.mod_small by lia. lia. }
  split.
  - cbn [updateDeliveryStmt set_MessageDelivery MessageDelivery]. rewrite (mi_rows _ _ Ht). apply map_eq. intros k.
    rewrite lookup_fmap. fold (keyOf d). destruct (decide (keyOf d = k)) as [<-|Hne].
    + by rewrite lookup_alter_eq, lookup_insert_eq, lookup_fmap, Hd0.
    + by rewrite lookup_alter_ne, lookup_insert_ne, lookup_fmap by done.
  - intros k d' Hd'. apply lookup_insert_Some in Hd' as [[<- <-]|[_ Hd']]; [done|by apply (mi_keys _ _ Ht)].
  - intros k d' Hd'. cbn [ChatMessage updateDeliveryStmt set_MessageDelivery].
    apply lookup_insert_Some in Hd' as [[<- <-]|[_ Hd']]; [|by apply (mi_messages _ _ Ht k)].
    destruct (mi_messages _ _ Ht _ d0 Hd0) as (m & Hm & Hmc & Hmq). destruct (mi_keys _ _ Ht _ d0 Hd0) as [[= Hk _] _].
    exists m. rewrite Hk. by rewrite Hmc, Hmq.
Qed.

(** *** Rows of an UPDATE or DELETE with LIMIT *)

Definition rowOf (d : Delivery) : (Z * Z) * DeliveryRow := (keyOf d, deliveryRow d).

Abbreviation rowsOnly p := (fun (_ : Z * Z) (r : DeliveryRow) => p r : bool).

Lemma rows_deliveries p ds t (L : list ((Z * Z) * DeliveryRow)) :
  mirrors ds t -> (forall kr, kr ∈ L -> kr ∈ deliveryRows p t) ->
  exists sel, L = rowOf <$> sel /\ Forall (picks (rowsOnly p) ds) sel.
Proof.
  intros Ht. induction L as [|[k r] L IH]; intros HL; [by exists []|].
  destruct IH as (sel & -> & Hs); [intros kr Hkr; apply HL; by right|]. pose proof (HL (k, r) ltac:(by left)) as Hin.
  apply list_elem_of_filter in Hin as [Hp Hin]. apply elem_of_map_to_list in Hin. rewrite (mi_rows _ _ Ht), lookup_fmap in Hin.
  destruct (ds !! k) as [d|] eqn:Hd; [|done]. injection Hin as <-. destruct (mi_keys _ _ Ht k d Hd) as [-> _].
  exists (d :: sel). split; [done|]. by constructor.
Qed.

Lemma limited_rows p limit ds t (L : list ((Z * Z) * DeliveryRow)) :
  mirrors ds t -> L ≡ₚ deliveryRows p t ->
  exists sel, take (limitOf limit) L = rowOf <$> sel /\ picked (rowsOnly p) (Some limit) ds sel.
Proof.
  intros Ht HL. destruct (rows_deliveries p ds t L Ht) as (sel & -> & Hs); [intros kr; by rewrite HL|].
  assert (NoDup (keyOf <$> sel)) as Hnd.
  { replace (keyOf <$> sel) with ((rowOf <$> sel).*1) by (rewrite <- list_fmap_compose; done).
    rewrite HL. eapply sublist_NoDup; [apply (NoDup_fst_map_to_list (MessageDelivery t))|]. apply fmap_sublist, sublist_filter. }
  rewrite Forall_forall in Hs. exists (take (limitOf limit) sel). rewrite fmap_take. split; [done|]. split.
  - intros d Hd. apply Hs. apply elem_of_take in Hd as (i & Hi & _). by eapply list_elem_of_lookup_2.
  - rewrite fmap_take. eapply sublist_NoDup; [done|apply sublist_take].
  - intros m [= <-]. rewrite length_take. unfold limitOf. lia.
  - intros d Hlt Hd. specialize (Hlt limit eq_refl). rewrite length_take in Hlt. rewrite take_ge by (unfold limitOf in *; lia).
    assert (rowOf d ∈ rowOf <$> sel) as Hin.
    { rewrite HL. apply list_elem_of_filter. split; [apply Hd|]. apply elem_of_map_to_list. cbn.
      by rewrite (mi_rows _ _ Ht), lookup_fmap, (proj1 Hd). }
    apply list_elem_of_fmap in Hin as (d' & Heq & Hd'). destruct (Hs d' Hd') as [Hk _]. destruct Hd as [Hk' _].
    apply (f_equal fst) in Heq. cbn in Heq. rewrite <- Heq in Hk. by replace d with d' by congruence.
Qed.

(** *** Changing many rows *)

Lemma fold_alter (f : Delivery -> Delivery) (g : DeliveryRow -> DeliveryRow) (sel : list Delivery) (ds : gmap (Z * Z) Delivery) :
  (forall d, deliveryRow (f d) = g (deliveryRow d)) ->
  foldl (fun m kr => alter g kr.1 m) (deliveryRow <$> ds) (rowOf <$> sel) =
  deliveryRow <$> foldl (fun m d => alter f (keyOf d) m) ds sel.
Proof.
  intros Hfg. revert ds. induction sel as [|d sel IH]; intros ds; [done|]. cbn [fmap list_fmap foldl rowOf fst]. rewrite <- IH.
  f_equal. apply map_eq. intros k. rewrite lookup_fmap. destruct (decide (keyOf d = k)) as [<-|Hne].
  - rewrite !lookup_alter_eq, lookup_fmap. destruct (ds !! keyOf d); cbn; [by rewrite Hfg|done].
  - by rewrite !lookup_alter_ne, lookup_fmap by done.
Qed.

Lemma fold_delete (sel : list Delivery) (ds : gmap (Z * Z) Delivery) :
  foldl (fun m kr => delete kr.1 m) (deliveryRow <$> ds) (rowOf <$> sel) =
  deliveryRow <$> foldl (fun m d => delete (keyOf d) m) ds sel.
Proof.
  revert ds. induction sel as [|d sel IH]; intros ds; [done|]. cbn [fmap list_fmap foldl rowOf fst]. rewrite <- IH.
  f_equal. by rewrite fmap_delete.
Qed.

(** What the state of a delivery becomes when it expires. *)
Definition expiredDelivery (d : Delivery) : Delivery :=
  mkDelivery (dl_messageId d) (dl_conversationId d) (dl_sequence d) (dl_recipient d) Expired defaultSession 0 0
    (dl_attemptCount d) (dl_acknowledgedAtMs d) (dl_expiresAtMs d) 0 0.

Definition expireAll (sel : list Delivery) (ds : gmap (Z * Z) Delivery) : gmap (Z * Z) Delivery :=
  foldl (fun m d => alter expiredDelivery (keyOf d) m) ds sel.

Definition removeAll (sel : list Delivery) (ds : gmap (Z * Z) Delivery) : gmap (Z * Z) Delivery :=
  foldl (fun m d => delete (keyOf d) m) ds sel.

Lemma alter_mirrors ds t d :
  mirrors ds t -> mirrors (alter expiredDelivery (keyOf d) ds) (set_MessageDelivery (alter expiredRow (keyOf d) (MessageDelivery t)) t).
Proof.
  intros Ht. split.
  - cbn [MessageDelivery set_MessageDelivery]. rewrite (mi_rows _ _ Ht). by apply (fold_alter expiredDelivery expiredRow [d]).
  - intros k d' Hd'. apply lookup_alter_Some in Hd' as [(<- & d0 & Hd0 & ->)|[_ Hd']]; [|by apply (mi_keys _ _ Ht)].
    destruct (mi_keys _ _ Ht _ d0 Hd0) as [-> []]. split; [done|]. pose proof maxUnixTime_ok.
    split; cbn; try done; try (split; cbn; lia); unfold isU64; lia.
  - intros k d' Hd'. cbn [ChatMessage set_MessageDelivery].
    apply lookup_alter_Some in Hd' as [(<- & d0 & Hd0 & ->)|[_ Hd']]; [exact (mi_messages _ _ Ht _ d0 Hd0)|by apply (mi_messages _ _ Ht k)].
Qed.

Lemma expire_mirrors (sel : list Delivery) ds t :
  mirrors ds t ->
  mirrors (expireAll sel ds)
    (set_MessageDelivery (foldl (fun m kr => alter expiredRow kr.1 m) (MessageDelivery t) (rowOf <$> sel)) t).
Proof.
  revert ds t. induction sel as [|d sel IH]; intros ds t Ht; [by destruct t|].
  exact (IH _ _ (alter_mirrors ds t d Ht)).
Qed.

Lemma removed_lookup (sel : list Delivery) (ds : gmap (Z * Z) Delivery) k d : removeAll sel ds !! k = Some d -> ds !! k = Some d.
Proof.
  revert ds. induction sel as [|x sel IH]; intros ds; [done|]. intros Hd. apply IH in Hd.
  by apply lookup_delete_Some in Hd as [_ Hd].
Qed.

Lemma removed_other (sel : list Delivery) (ds : gmap (Z * Z) Delivery) k : k ∉ keyOf <$> sel -> removeAll sel ds !! k = ds !! k.
Proof.
  revert ds. induction sel as [|x sel IH]; intros ds Hk; [done|]. apply not_elem_of_cons in Hk as [Hx Hk].
  change (removeAll (x :: sel) ds) with (removeAll sel (delete (keyOf x) ds)). rewrite IH by done. by apply lookup_delete_ne.
Qed.

Lemma remove_mirrors (sel : list Delivery) ds t :
  mirrors ds t ->
  mirrors (removeAll sel ds)
    (set_MessageDelivery (foldl (fun m kr => delete kr.1 m) (MessageDelivery t) (rowOf <$> sel)) t).
Proof.
  intros Ht. split.
  - cbn [MessageDelivery set_MessageDelivery]. rewrite (mi_rows _ _ Ht). apply fold_delete.
  - intros k d Hd%removed_lookup. by apply (mi_keys _ _ Ht).
  - intros k d Hd%removed_lookup. by apply (mi_messages _ _ Ht k).
Qed.

(** *** The conditions in milliseconds *)

Lemma mirrors_storable p ds t d : mirrors ds t -> picks p ds d -> storable d.
Proof. intros Ht [Hd _]. by destruct (mi_keys _ _ Ht _ d Hd). Qed.

Lemma seconds_now now : isTime now -> fromUnixTime (cdiv now 1000) = Some (now / 1000).
Proof.
  intros Hn. destruct (decide (now = 0)) as [->|Hne].
  - apply (fromUnixTime_in 0). pose proof maxUnixTime_ok. lia.
  - rewrite <- (timeColumn_in now Hn Hne). unfold timeColumn. by apply Z.eqb_neq in Hne as ->.
Qed.

(** A retry is due at its time or later. *)
Lemma due_iff now d :
  isTime now -> storable d ->
  dueRow (cdiv now 1000) (deliveryRow d) = true <->
  dl_state d = InFlight /\ 0 < dl_nextAttemptAtMs d /\ ceilSecond (dl_nextAttemptAtMs d) <= now.
Proof.
  intros Hn Hs. pose proof (sb_next d Hs) as Hd. pose proof (isTime_bound _ Hd). unfold dueRow. rewrite seconds_now by done.
  cbn [deliveryRow dr_state dr_next_attempt_at]. fold (nextColumn (dl_nextAttemptAtMs d)). rewrite andb_true_iff.
  destruct (decide (dl_nextAttemptAtMs d = 0)) as [He|Hne]; [rewrite He; cbn; split; [by intros []|lia]|].
  rewrite (nextColumn_in _ Hd Hne). cbn [sqlLe]. unfold ceilSecond. rewrite Z.leb_le. destruct (dl_state d); cbn; split;
    try (by intros []); intros (_ & Hle); (split; [done|]); Z.div_mod_to_equations; lia.
Qed.

(** A delivery expires after its time. *)
Lemma expirable_iff now d :
  isTime now -> storable d ->
  expirableRow (cdiv now 1000) (deliveryRow d) = true <->
  (dl_state d = Pending \/ dl_state d = InFlight) /\ 0 < dl_expiresAtMs d /\ floorSecond (dl_expiresAtMs d) + 1000 <= now.
Proof.
  intros Hn Hs. pose proof (sb_expires d Hs) as Hd. pose proof (isTime_bound _ Hd). unfold expirableRow. rewrite seconds_now by done.
  cbn [deliveryRow dr_state dr_expires_at]. rewrite andb_true_iff.
  destruct (decide (dl_expiresAtMs d = 0)) as [He|Hne]; [rewrite He; cbn; split; [by intros []|lia]|].
  rewrite (timeColumn_in _ Hd Hne). cbn [sqlLt]. unfold floorSecond. rewrite Z.ltb_lt. destruct (dl_state d); cbn; split;
    try (by intros []); try (by intros [[] _]); intros (_ & Hle); (split; [auto|]); Z.div_mod_to_equations; lia.
Qed.

(** The end of a retention in whole seconds. *)
Lemma seconds_cutoff cutoff :
  isTime (cutoff + 999) -> 0 <= cutoff -> fromUnixTime (cdiv (i64 (cutoff + 999)) 1000) = Some ((cutoff + 999) / 1000).
Proof.
  intros Hc H0. pose proof (isTime_bound _ Hc). rewrite i64_small by (unfold isI64; lia). by apply seconds_now.
Qed.

Lemma before_cutoff cutoff ms :
  isTime (cutoff + 999) -> 0 <= cutoff -> isTime ms ->
  sqlLt (timeColumn ms) (fromUnixTime (cdiv (i64 (cutoff + 999)) 1000)) = true <-> 0 < ms < ceilSecond cutoff.
Proof.
  intros Hc H0 Hd. pose proof (isTime_bound _ Hd). rewrite seconds_cutoff by done.
  destruct (decide (ms = 0)) as [->|Hne]; [cbn; split; [done|lia]|].
  rewrite (timeColumn_in _ Hd Hne). cbn [sqlLt]. unfold ceilSecond. rewrite Z.ltb_lt. Z.div_mod_to_equations; lia.
Qed.

Lemma acked_iff cutoff d :
  isTime (cutoff + 999) -> 0 <= cutoff -> storable d ->
  ackedRow (cdiv (i64 (cutoff + 999)) 1000) (deliveryRow d) = true <->
  dl_state d = Acknowledged /\ 0 < dl_acknowledgedAtMs d < ceilSecond cutoff.
Proof.
  intros Hc H0 Hs. unfold ackedRow. cbn [deliveryRow dr_state dr_acknowledged_at].
  rewrite andb_true_iff, before_cutoff by (done || apply Hs). destruct (dl_state d); cbn; by split; intros [].
Qed.

Lemma retired_iff cutoff d :
  isTime (cutoff + 999) -> 0 <= cutoff -> storable d ->
  retiredRow (cdiv (i64 (cutoff + 999)) 1000) (deliveryRow d) = true <->
  dl_state d = Expired /\ 0 < dl_expiresAtMs d < ceilSecond cutoff.
Proof.
  intros Hc H0 Hs. unfold retiredRow. cbn [deliveryRow dr_state dr_expires_at].
  rewrite andb_true_iff, before_cutoff by (done || apply Hs). destruct (dl_state d); cbn; by split; intros [].
Qed.

(** ** What the operations promise *)

Lemma ended {A} (m : seff A) Q Ex w :
  wp m Q Ex w -> match m w with (w', Ret a) => Q a w' | (w', Throw x) => Ex x w' end.
Proof. unfold wp. by destruct (m w) as [w' []]. Qed.

(** C22: When no other connection changes the tables in between, a delivery that was
    written is read back with its times rounded to seconds: as it was otherwise when it
    is leased, and without a lease owner, or with that of the row read before it, when
    it is not.  A query by recipient returns the deliveries of the recipient, each once,
    and nothing else.  A statement that fails is taken to have had no effect. *)
Theorem delivery_is_read_back (ds : gmap (Z * Z) Delivery) (d d0 : Delivery) (w : W) :
  guard (g_tx w) = None -> mirrors ds (sw_db w) -> storable d ->
  ds !! keyOf d = Some d0 -> dl_conversationId d0 = dl_conversationId d -> dl_sequence d0 = dl_sequence d ->
  match updateDelivery d w with
  | (w1, Throw _) => sw_db w1 = sw_db w
  | (w1, Ret _) =>
      let ds' := <[keyOf d := d]> ds in
      mirrors ds' (sw_db w1) /\
      match deliveriesByRecipient (dl_recipient d) w1 with
      | (w2, Throw _) => sw_db w2 = sw_db w1
      | (w2, Ret rs) => sw_db w2 = sw_db w1 /\
          exists sel, readBack noLease sel rs /\ NoDup (keyOf <$> sel) /\
            forall d', d' ∈ sel <-> ds' !! keyOf d' = Some d' /\ dl_recipient d' = dl_recipient d
      end
  end.
Proof.
  intros Hg Ht Hs Hd Hc Hq. set (ds' := <[keyOf d := d]> ds).
  assert (wp (updateDelivery d) (fun _ w' => guard (g_tx w') = None /\ mirrors ds' (sw_db w')) (fun _ => holds (sw_db w)) w) as Hup.
  { unfold updateDelivery. apply wp_bind. eapply wp_mono; [by apply (wp_ownConnection (sw_db w))| |done].
    intros ? w1 Hw1. eapply wp_statement; [exact Hw1|]. intros t' [] w2 [= <-] [Hg2 ->]. split; [done|].
    apply update_mirrors; eauto. }
  apply ended in Hup. destruct (updateDelivery d w) as [w1 [a|x]]; [|apply Hup]. destruct Hup as [Hg1 Ht1]. split; [done|].
  assert (i32 (dl_recipient d) = dl_recipient d) as Hi.
  { destruct (sb_recipient d Hs). unfold i32, wrapS. rewrite Z.mod_small by lia. lia. }
  eassert (wp (deliveriesByRecipient (dl_recipient d)) _ (fun _ => holds (sw_db w1)) w1) as Hrd.
  { unfold deliveriesByRecipient. apply wp_bind. eapply wp_mono; [by apply (wp_ownConnection (sw_db w1))| |done].
    intros ? w2 Hw2. by apply (wp_deliveriesWhere _ None ds' (sw_db w1)). }
  apply ended in Hrd. destruct (deliveriesByRecipient _ w1) as [w2 [rs|x]]; [|apply Hrd].
  destruct Hrd as [[_ Hdb] (sel & [Hp Hn _ Ha] & Hrs)]. split; [done|]. exists sel. split; [done|]. split; [done|]. intros d'. split.
  - intros Hin. destruct (Hp d' Hin) as [Hd' Hr]. split; [done|]. apply Z.eqb_eq in Hr. cbn in Hr. congruence.
  - intros [Hd' Hr]. apply Ha; [done|]. split; [done|]. apply Z.eqb_eq. cbn. congruence.
Qed.

(** C23: A retry never comes early, and less than a second late: when no other connection
    changes the tables in between, the query for retries returns deliveries in flight
    whose time has come, each once and at most the limit, and below the limit all whose
    time came 999 milliseconds ago.  It changes nothing. *)
Theorem retry_is_never_early (ds : gmap (Z * Z) Delivery) (now limit : Z) (w : W) :
  guard (g_tx w) = None -> mirrors ds (sw_db w) -> isTime now ->
  match deliveriesDueForRetry now limit w with
  | (w', Throw _) => sw_db w' = sw_db w
  | (w', Ret rs) => sw_db w' = sw_db w /\
      exists sel, readBack noLease sel rs /\ NoDup (keyOf <$> sel) /\ (length sel <= Z.to_nat limit)%nat /\
        (forall d, d ∈ sel -> ds !! keyOf d = Some d /\ dl_state d = InFlight /\ 0 < dl_nextAttemptAtMs d <= now) /\
        ((length sel < Z.to_nat limit)%nat ->
           forall d, ds !! keyOf d = Some d -> dl_state d = InFlight -> 0 < dl_nextAttemptAtMs d <= now - 999 -> d ∈ sel)
  end.
Proof.
  intros Hg Ht Hn. eassert (wp (deliveriesDueForRetry now limit) _ (fun _ => holds (sw_db w)) w) as Hrd.
  { unfold deliveriesDueForRetry. apply wp_bind. eapply wp_mono; [by apply (wp_ownConnection (sw_db w))| |done].
    intros ? w2 Hw2. by apply (wp_deliveriesWhere _ (Some limit) ds (sw_db w)). }
  apply ended in Hrd. destruct (deliveriesDueForRetry _ _ w) as [w2 [rs|x]]; [|apply Hrd].
  destruct Hrd as [[_ Hdb] (sel & [Hp Hnd Hl Ha] & Hrs)]. split; [done|]. exists sel. do 2 (split; [done|]).
  split; [by apply Hl|]. split.
  - intros d Hd. specialize (Hp d Hd). destruct Hp as [Hin Hdue]. split; [done|].
    apply due_iff in Hdue as (Hst & H0 & Hc); [|done|by apply (mi_keys _ _ Ht _ _ Hin)]. split; [done|].
    unfold ceilSecond in Hc. Z.div_mod_to_equations; lia.
  - intros Hlt d Hin Hst Hb. apply Ha; [by intros n [= <-]|]. split; [done|].
    apply due_iff; [done|by apply (mi_keys _ _ Ht _ _ Hin)|]. do 2 (split; [done || lia|]). unfold ceilSecond. Z.div_mod_to_equations; lia.
Qed.

Lemma expirable_rows now limit ds t :
  mirrors ds t ->
  exists sel, expirable (cdiv now 1000) limit t = rowOf <$> sel /\ picked (rowsOnly (expirableRow (cdiv now 1000))) (Some limit) ds sel.
Proof. intros Ht. apply (limited_rows _ limit ds t _ Ht). rewrite merge_sort_Permutation. apply arrange_perm. Qed.

Definition expiredRecordOf (d : Delivery) : ExpiredDeliveryRecord := mkExpired (dl_messageId d) (dl_recipient d) (dl_state d).

Lemma records_of (sel : list Delivery) : Forall storable sel -> mapM expiredRecord (rowOf <$> sel) = Some (expiredRecordOf <$> sel).
Proof.
  induction 1 as [|d sel Hd Hsel IH]; [done|]. cbn [fmap list_fmap mapM]. rewrite IH. unfold expiredRecord.
  cbn [rowOf fst snd deliveryRow dr_state]. rewrite decodeState_encode. cbn [mbind option_bind mret option_ret].
  unfold expiredRecordOf at 1. cbn [keyOf fst snd]. rewrite (u64_small (dl_recipient d)); [done|].
  destruct (sb_recipient d Hd). unfold isU64. lia.
Qed.

(** The deliveries that are reported as expired are exactly those that expire; they
    were waiting and past their time. *)
Theorem expiry_is_reported (ds : gmap (Z * Z) Delivery) (now limit : Z) (w : W) :
  guard (g_tx w) = None -> mirrors ds (sw_db w) -> isTime now -> limit < 2 ^ 32 ->
  match expireDeliveriesDetailed now limit w with
  | (w', Throw _) => sw_db w' = sw_db w
  | (w', Ret (n, out)) => exists sel, mirrors (expireAll sel ds) (sw_db w') /\ out = expiredRecordOf <$> sel /\
      n = Z.of_nat (length sel) /\ NoDup (keyOf <$> sel) /\
      (forall d, d ∈ sel -> ds !! keyOf d = Some d /\ (dl_state d = Pending \/ dl_state d = InFlight) /\
         0 < dl_expiresAtMs d < now) /\
      (n < limit -> forall d, ds !! keyOf d = Some d -> dl_state d = Pending \/ dl_state d = InFlight ->
         0 < dl_expiresAtMs d <= now - 1000 -> d ∈ sel)
  end.
Proof.
  intros Hg Ht Hn Hlim. destruct (expirable_rows now limit ds (sw_db w) Ht) as (sel & Hrows & [Hp Hnd Hl Ha]).
  assert (Forall storable sel) as Hst by (apply Forall_forall; intros d Hd; exact (mirrors_storable _ ds (sw_db w) d Ht (Hp d Hd))).
  eassert (wp (expireDeliveriesDetailed now limit)
    (fun r w' => r = (Z.of_nat (length sel), expiredRecordOf <$> sel) /\ mirrors (expireAll sel ds) (sw_db w'))
    (fun _ => holds (sw_db w)) w) as Hex.
  { unfold expireDeliveriesDetailed, select. apply wp_bind. eapply wp_mono; [by apply (wp_ownConnection (sw_db w))| |done].
    intros ? w1 Hw1. apply wp_bind. eapply wp_statement; [exact Hw1|]. intros t' rows w2 [= <- <-] Hw2.
    rewrite Hrows, (records_of sel Hst). apply wp_bind. eapply wp_statement; [exact Hw2|]. intros t' n w3 Heq [_ Hw3].
    unfold expireStmt in Heq. rewrite Hrows in Heq. injection Heq as <- <-. apply wp_ret. rewrite Hw3. split; [|by apply expire_mirrors].
    rewrite length_fmap. specialize (Hl limit eq_refl). unfold u32, wrapU. by rewrite Z.mod_small by lia. }
  apply ended in Hex. destruct (expireDeliveriesDetailed now limit w) as [w' [[n out]|x]]; [|apply Hex].
  destruct Hex as [[= -> ->] Hm]. exists sel. do 4 (split; [done|]). split.
  - intros d Hd. destruct (Hp d Hd) as [Hin Hexp]. split; [done|].
    apply expirable_iff in Hexp as (Hs & H0 & Hc); [|done|by apply (mi_keys _ _ Ht _ _ Hin)]. split; [done|].
    unfold floorSecond in Hc. Z.div_mod_to_equations; lia.
  - intros Hlt d Hin Hs Hb. apply Ha; [intros m [= <-]; lia|]. split; [done|].
    apply expirable_iff; [done|by apply (mi_keys _ _ Ht _ _ Hin)|]. do 2 (split; [done || lia|]). unfold floorSecond. Z.div_mod_to_equations; lia.
Qed.

Lemma removed_rows p limit ds t :
  mirrors ds t ->
  exists sel, picked (rowsOnly p) (Some limit) ds sel /\
    forall t' n, deleteStmt p limit t = (t', n) -> mirrors (removeAll sel ds) t' /\ n = Z.of_nat (length sel).
Proof.
  intros Ht. destruct (limited_rows p limit ds t (arrange (deliveryRows p t)) Ht (arrange_perm _)) as (sel & Hrows & Hp).
  exists sel. split; [done|]. intros t' n Heq. unfold deleteStmt in Heq. rewrite Hrows in Heq. injection Heq as <- <-.
  split; [by apply remove_mirrors|by rewrite length_fmap].
Qed.

(** The two statements of a cleanup. *)
Lemma wp_cleanup ackedBefore expiredBefore limit t t1 t2 n1 n2 w :
  holds t w ->
  deleteStmt (ackedRow (cdiv (i64 (ackedBefore + 999)) 1000)) limit t = (t1, n1) ->
  deleteStmt (retiredRow (cdiv (i64 (expiredBefore + 999)) 1000)) limit t1 = (t2, n2) ->
  wp (cleanupDeliveries ackedBefore expiredBefore limit)
    (fun n w' => n = u32 (u32 n1 + u32 n2) /\ sw_db w' = t2) (fun _ w' => sw_db w' = t \/ sw_db w' = t1) w.
Proof.
  intros Hw Hd1 Hd2. unfold cleanupDeliveries. apply wp_bind.
  eapply wp_mono; [by apply (wp_ownConnection t)| |intros x w1 []; by left].
  intros ? w1 Hw1. apply wp_bind.
  eapply wp_mono; [eapply (wp_statement _ t (fun n w' => n = n1 /\ holds t1 w')); [done|]| |intros x w2 []; by left].
  { rewrite Hd1. by intros t' n w2 [= <- <-]. }
  intros ? w2 [-> Hw2]. apply wp_bind.
  eapply wp_mono; [eapply (wp_statement _ t1 (fun n w' => n = n2 /\ holds t2 w')); [done|]| |intros x w3 []; by right].
  { rewrite Hd2. by intros t' n w3 [= <- <-]. }
  intros ? w3 [-> [_ Hw3]]. by apply wp_ret.
Qed.

Lemma u32_sum (a b : nat) : Z.of_nat a + Z.of_nat b < 2 ^ 32 -> u32 (u32 (Z.of_nat a) + u32 (Z.of_nat b)) = Z.of_nat (a + b).
Proof.
  intros Hab. unfold u32, wrapU. rewrite (Z.mod_small (Z.of_nat a)), (Z.mod_small (Z.of_nat b)), Z.mod_small by lia. lia.
Qed.

(** A cleanup removes deliveries that ended before the second in which the retention
    ends, and all of them if it is not limited. *)
Theorem cleanup_window (ds : gmap (Z * Z) Delivery) (ackedBefore expiredBefore limit : Z) (w : W) :
  guard (g_tx w) = None -> mirrors ds (sw_db w) ->
  0 <= ackedBefore -> isTime (ackedBefore + 999) -> 0 <= expiredBefore -> isTime (expiredBefore + 999) -> 0 <= limit < 2 ^ 31 ->
  let acked d := dl_state d = Acknowledged /\ 0 < dl_acknowledgedAtMs d < ceilSecond ackedBefore in
  let retired d := dl_state d = Expired /\ 0 < dl_expiresAtMs d < ceilSecond expiredBefore in
  match cleanupDeliveries ackedBefore expiredBefore limit w with
  | (w', Throw _) => exists sel, mirrors (removeAll sel ds) (sw_db w') /\ forall d, d ∈ sel -> ds !! keyOf d = Some d /\ acked d
  | (w', Ret n) => exists sel sel', mirrors (removeAll sel' (removeAll sel ds)) (sw_db w') /\
      n = Z.of_nat (length sel + length sel') /\
      (forall d, d ∈ sel -> ds !! keyOf d = Some d /\ acked d) /\
      (forall d, d ∈ sel' -> ds !! keyOf d = Some d /\ retired d) /\
      (n < limit -> forall d, ds !! keyOf d = Some d -> acked d \/ retired d -> d ∈ sel \/ d ∈ sel')
  end.
Proof.
  intros Hg Ht Ha0 Ha He0 He Hlim acked retired.
  set (pa := ackedRow (cdiv (i64 (ackedBefore + 999)) 1000)). set (pe := retiredRow (cdiv (i64 (expiredBefore + 999)) 1000)).
  destruct (removed_rows pa limit ds (sw_db w) Ht) as (sel & [Hp _ Hl Hall] & Hdel).
  assert (forall d, picks (rowsOnly pa) ds d <-> ds !! keyOf d = Some d /\ acked d) as Hacked.
  { intros d. unfold picks. split; (intros [Hd Hr]; split; [done|]); apply acked_iff in Hr || apply acked_iff; try done;
      by apply (mi_keys _ _ Ht _ _ Hd). }
  assert (forall d, d ∈ sel -> ds !! keyOf d = Some d /\ acked d) as Hsel by (intros d Hd; by apply Hacked, Hp).
  destruct (deleteStmt pa limit (sw_db w)) as [t1 n1] eqn:Hd1. destruct (Hdel t1 n1 eq_refl) as [Ht1 ->].
  destruct (removed_rows pe limit (removeAll sel ds) t1 Ht1) as (sel' & [Hp' _ Hl' Hall'] & Hdel').
  destruct (deleteStmt pe limit t1) as [t2 n2] eqn:Hd2. destruct (Hdel' t2 n2 eq_refl) as [Ht2 ->].
  assert (forall d, picks (rowsOnly pe) (removeAll sel ds) d <-> removeAll sel ds !! keyOf d = Some d /\ retired d) as Hretired.
  { intros d. unfold picks. split; (intros [Hd Hr]; split; [done|]); apply retired_iff in Hr || apply retired_iff; try done;
      by apply (mi_keys _ _ Ht1 _ _ Hd). }
  pose proof (wp_cleanup ackedBefore expiredBefore limit (sw_db w) t1 t2 _ _ w (conj Hg eq_refl) Hd1 Hd2) as Hc.
  apply ended in Hc. destruct (cleanupDeliveries _ _ _ w) as [w' [n|x]].
  - destruct Hc as [-> ->]. specialize (Hl limit eq_refl). specialize (Hl' limit eq_refl).
    exists sel, sel'. split; [done|]. rewrite u32_sum by lia. do 2 (split; [done|]). split.
    + intros d Hd. apply Hp', Hretired in Hd as [Hd Hr]. split; [by eapply removed_lookup|done].
    + intros Hlt d Hd [Hk|Hk]; [left; apply Hall; [intros m [= <-]; lia|by apply Hacked]|right].
      apply Hall'; [intros m [= <-]; lia|]. apply Hretired. split; [|done]. rewrite removed_other; [done|].
      intros Hin. apply list_elem_of_fmap in Hin as (d' & Hkey & Hin). destruct (Hsel d' Hin) as [Hd' [Hs' _]].
      rewrite <- Hkey, Hd in Hd'. injection Hd' as <-. destruct Hk as [Hs _]. by rewrite Hs in Hs'.
  - destruct Hc as [-> | ->]; [exists []|by exists sel]. split; [done|]. by intros d ?%elem_of_nil.
Qed.
End operations.
