(* ===== verification/MySqlOutbox.v ===== *)
(** * The outbox in MySQL

    A claim leases the first events that are available, returns them in order, and
    leaves the events that another owner leases alone. *)

From S2P Require Import Prelude DomainTypes Store Json JsonText MySqlTables MySqlStore MySqlStoreInv MySqlDelivery.

Open Scope Z_scope.
Open Scope eff_scope.

(** ** Sorted lists *)

Lemma sorted_keys {V} (m : gmap Z V) : StronglySorted Z.le (sorted_items Z.le m).*1.
Proof.
  assert (Transitive (item_le (V := V) Z.le)) as Htr by (intros x y z; unfold item_le; lia).
  assert (StronglySorted (item_le Z.le) (sorted_items Z.le m)) as Hs.
  { apply Sorted_StronglySorted; [done|]. apply Sorted_sorted_items. intros x y. apply Z.le_total. }
  induction Hs as [|x l Hs IH Hx]; [constructor|]. constructor; [done|]. by apply Forall_fmap.
Qed.

Lemma filter_keys {V} (p : Z * V -> Prop) `{!forall x, Decision (p x)} (m : gmap Z V) :
  StronglySorted Z.le (filter p (sorted_items Z.le m)).*1 /\ NoDup (filter p (sorted_items Z.le m)).*1.
Proof.
  assert ((filter p (sorted_items Z.le m)).*1 `sublist_of` (sorted_items Z.le m).*1) as Hsub
    by apply fmap_sublist, sublist_filter.
  split; [exact (sorted_sublist _ _ _ Hsub (sorted_keys m))|eapply sublist_NoDup; [apply (NoDup_sorted_items_keys Z.le m)|exact Hsub]].
Qed.

Section outbox.
Context {X : Type} `{Henv : !SqlEnv X, Hserver : !SqlServer, Hlaws : !SqlServerLaws, Hjson : !JsonLib, Hfloat : !JsonFloat}.
Hypothesis quiet : forall ws t x, (others ws t x).2 = t.

Abbreviation W := (SqlWorld X).

Lemma outboxRows_facts p limit t :
  let rows := outboxRows p limit t in
  StronglySorted Z.le rows.*1 /\ NoDup rows.*1 /\ (length rows <= Z.to_nat limit)%nat /\
  forall id r, (id, r) ∈ rows -> OutboxEvent t !! id = Some r /\ p r = true.
Proof.
  cbn zeta. unfold outboxRows, limitOf. destruct (filter_keys (fun kr => p kr.2 = true) (OutboxEvent t)) as [Hs Hn].
  set (F := filter _ _) in *. assert ((take (Z.to_nat limit) F).*1 `sublist_of` F.*1) as Hsub by apply fmap_sublist, sublist_take.
  split; [by eapply sorted_sublist|]. split; [by eapply sublist_NoDup|]. split; [rewrite length_take; lia|].
  intros id r Hin. apply elem_of_take in Hin as (i & Hi & _). apply list_elem_of_lookup_2 in Hi.
  apply list_elem_of_filter in Hi as [Hp Hi]. by apply elem_of_sorted_items in Hi.
Qed.

(** The rows of the claim, and no others, change. *)
Lemma claimed_lookup (f : OutboxRow -> OutboxRow) (rows : list (Z * OutboxRow)) (m : gmap Z OutboxRow) id :
  NoDup rows.*1 ->
  foldl (fun m kr => alter f kr.1 m) m rows !! id = (if bool_decide (id ∈ rows.*1) then f <$> m !! id else m !! id).
Proof.
  revert m. induction rows as [|[k r] rows IH]; intros m Hn; [by rewrite bool_decide_false by apply not_elem_of_nil|].
  cbn [fmap list_fmap foldl fst]. cbn [fmap list_fmap fst] in Hn. apply NoDup_cons in Hn as [Hk Hn]. rewrite IH by done.
  destruct (decide (k = id)) as [->|Hne].
  - rewrite bool_decide_false by done. rewrite bool_decide_true by (by left). apply lookup_alter_eq.
  - rewrite lookup_alter_ne by done. rewrite (bool_decide_ext (id ∈ k :: rows.*1) (id ∈ rows.*1)); [done|].
    rewrite elem_of_cons. naive_solver.
Qed.

(** Nothing is leased to [owner] until the second [leaseSecs] yet. *)
Definition newLease (owner : string) (leaseSecs : Z) (t : Tables) : Prop :=
  forall id r, OutboxEvent t !! id = Some r -> leasedBy owner leaseSecs r = false.

(** The tables after a claim of [rows]. *)
Record claims (owner : string) (leaseSecs : Z) (rows : list (Z * OutboxRow)) (t t' : Tables) : Prop := {
  cl_others id : id ∉ rows.*1 -> OutboxEvent t' !! id = OutboxEvent t !! id;
  cl_rows id r : (id, r) ∈ rows -> OutboxEvent t' !! id = Some (claimedRow owner leaseSecs r);
}.

Lemma claimStmt_claims now leaseSecs owner limit t t' :
  claimStmt now leaseSecs owner limit t = inr t' -> claims owner leaseSecs (outboxRows (claimableRow now) limit t) t t'.
Proof.
  unfold claimStmt. destruct (existsb _ _); [done|]. intros [= <-].
  destruct (outboxRows_facts (claimableRow now) limit t) as (_ & Hn & _ & Hr).
  split; cbn [OutboxEvent set_OutboxEvent]; intros id.
  - intros Hid. rewrite claimed_lookup by done. by rewrite bool_decide_false.
  - intros r Hin. rewrite claimed_lookup by done. rewrite bool_decide_true.
    + by rewrite (proj1 (Hr id r Hin)).
    + apply list_elem_of_fmap. by exists (id, r).
Qed.

Lemma claimed_leasedBy owner leaseSecs now r :
  fromUnixTime leaseSecs = Some leaseSecs -> claimableRow now r = true -> leasedBy owner leaseSecs (claimedRow owner leaseSecs r) = true.
Proof.
  intros Hl Hc. unfold claimableRow in Hc. apply andb_prop in Hc as [[Hp _]%andb_prop _].
  unfold leasedBy. cbn [claimedRow ox_lease_owner ox_lease_until ox_processed_at]. rewrite sameText_refl, Hl, Hp.
  by rewrite bool_decide_true.
Qed.

(** What is read back is what was claimed, in order. *)
Lemma reread now leaseSecs owner limit t t' :
  fromUnixTime leaseSecs = Some leaseSecs -> newLease owner leaseSecs t -> claimStmt now leaseSecs owner limit t = inr t' ->
  (outboxRows (leasedBy owner leaseSecs) limit t').*1 = (outboxRows (claimableRow now) limit t).*1.
Proof.
  intros Hl Hnew Hst. apply claimStmt_claims in Hst as [Ho Hc].
  destruct (outboxRows_facts (claimableRow now) limit t) as (Hs & Hn & Hlen & Hr).
  set (rows := outboxRows _ limit t) in *. destruct (filter_keys (fun kr => leasedBy owner leaseSecs kr.2 = true) (OutboxEvent t')) as [Hs' Hn'].
  unfold outboxRows at 1. set (F := filter _ _) in *. assert (F.*1 = rows.*1) as Heq.
  { apply (StronglySorted_unique Z.le); [done|done|]. apply NoDup_Permutation; [done|done|]. intros id. rewrite !list_elem_of_fmap. split.
    - intros ([k r'] & -> & Hin). cbn. apply list_elem_of_filter in Hin as [Hp Hin]. apply elem_of_sorted_items in Hin.
      destruct (decide (k ∈ rows.*1)) as [Hk|Hk]; [by apply list_elem_of_fmap in Hk|].
      rewrite (Ho k Hk) in Hin. cbn in Hp. by rewrite (Hnew k r' Hin) in Hp.
    - intros ([k r] & -> & Hin). exists (k, claimedRow owner leaseSecs r). split; [done|]. apply list_elem_of_filter.
      split; [eapply claimed_leasedBy; [done|]; by apply (Hr k r)|]. apply elem_of_sorted_items. by apply Hc. }
  rewrite take_ge; [done|]. rewrite <- (length_fmap fst F), Heq, length_fmap. exact Hlen.
Qed.

(** The identities of events. *)
Abbreviation ids evs := (ev_id <$> evs).

(** An event that can be claimed. *)
Definition available (now : Z) (r : OutboxRow) : Prop :=
  ox_processed_at r = None /\ ox_available_at r * 1000 <= now /\
  (ox_lease_owner r = None \/ exists s, ox_lease_until r = Some s /\ s * 1000 <= now).

Lemma claimable_iff now r : isTime now -> claimableRow (cdiv now 1000) r = true <-> available now r.
Proof.
  intros Hn. unfold claimableRow, available. rewrite (seconds_now now Hn). cbn [sqlLe].
  rewrite !andb_true_iff, orb_true_iff, Z.leb_le. pose proof (Z.div_le_lower_bound now 1000) as Hup.
  assert (forall s, s <= now / 1000 <-> s * 1000 <= now) as Hs by (intros s; split; intros ?; Z.div_mod_to_equations; lia).
  rewrite Hs. destruct (ox_processed_at r); [naive_solver|]. destruct (ox_lease_owner r); [|naive_solver].
  destruct (ox_lease_until r) as [sec|]; cbn [sqlLe isNull]; [rewrite Z.leb_le, Hs; naive_solver|naive_solver].
Qed.

Lemma seconds_of t : isTime t -> cdiv t 1000 = t / 1000.
Proof. intros Ht. apply Z.quot_div_nonneg; [apply Ht|lia]. Qed.

(** What a claim changes: events that were available are leased. *)
Definition leases (owner : string) (now until : Z) (t t' : Tables) : Prop :=
  forall id r, OutboxEvent t !! id = Some r ->
    OutboxEvent t' !! id = Some r \/ (available now r /\ OutboxEvent t' !! id = Some (claimedRow owner (until / 1000) r)).

(** What a claim returns: events that are leased to its owner until its second. *)
Definition returns (owner : string) (until : Z) (evs : list DomainTypes.OutboxEvent) (t' : Tables) : Prop :=
  forall id, id ∈ ids evs -> exists r, OutboxEvent t' !! id = Some r /\ leasedBy owner (until / 1000) r = true.

Lemma claims_leases owner now until limit t t' :
  isTime now -> claims owner (until / 1000) (outboxRows (claimableRow (cdiv now 1000)) limit t) t t' -> leases owner now until t t'.
Proof.
  intros Hn [Ho Hc] id r Hr. destruct (outboxRows_facts (claimableRow (cdiv now 1000)) limit t) as (_ & _ & _ & Hrows).
  set (rows := outboxRows _ limit t) in *. destruct (decide (id ∈ rows.*1)) as [Hin|Hin]; [|left; by rewrite Ho].
  apply list_elem_of_fmap in Hin as ([k r'] & -> & Hin). destruct (Hrows k r' Hin) as [Hk Hp]. cbn in Hr. rewrite Hk in Hr. injection Hr as ->.
  right. split; [by apply claimable_iff|by apply Hc].
Qed.

(** A claim of a lease that is new: the first available events were leased and are
    returned in order. *)
Record claimed (owner : string) (now until limit : Z) (t : Tables) (evs : list DomainTypes.OutboxEvent) (t' : Tables) : Prop := {
  cd_sound id : id ∈ ids evs -> exists r, OutboxEvent t !! id = Some r /\ available now r /\
    OutboxEvent t' !! id = Some (claimedRow owner (until / 1000) r);
  cd_others id : id ∉ ids evs -> OutboxEvent t' !! id = OutboxEvent t !! id;
  cd_order : StronglySorted Z.le (ids evs);
  cd_once : NoDup (ids evs);
  cd_limit : (length evs <= Z.to_nat limit)%nat;
  cd_first id r : OutboxEvent t !! id = Some r -> available now r -> id ∉ ids evs -> forall id', id' ∈ ids evs -> id' < id;
  cd_all id r : (length evs < Z.to_nat limit)%nat -> OutboxEvent t !! id = Some r -> available now r -> id ∈ ids evs;
}.

Lemma sorted_take (l : list Z) n x y : StronglySorted Z.le l -> x ∈ take n l -> y ∈ l -> y ∉ take n l -> x < y.
Proof.
  intros Hs. revert n. induction Hs as [|z l Hs IH Hz]; intros [|n] Hx Hy Hn; try (by apply elem_of_nil in Hx).
  cbn [take] in Hx, Hn. apply not_elem_of_cons in Hn as [Hne Hn]. apply elem_of_cons in Hy as [->|Hy]; [done|].
  apply elem_of_cons in Hx as [->|Hx]; [|by apply (IH n)].
  rewrite Forall_forall in Hz. specialize (Hz y Hy). cut (z <> y); [lia|]. congruence.
Qed.

Lemma claims_claimed owner now until limit t evs t' :
  isTime now -> claims owner (until / 1000) (outboxRows (claimableRow (cdiv now 1000)) limit t) t t' ->
  ids evs = (outboxRows (claimableRow (cdiv now 1000)) limit t).*1 -> claimed owner now until limit t evs t'.
Proof.
  intros Hn [Ho Hc] Hids. destruct (outboxRows_facts (claimableRow (cdiv now 1000)) limit t) as (Hs & Hnd & Hl & Hr).
  assert (length evs = length (outboxRows (claimableRow (cdiv now 1000)) limit t)) as Hlen
    by (by rewrite <- (length_fmap ev_id evs), Hids, length_fmap).
  split; rewrite ?Hids, ?Hlen; try done.
  - intros id Hid. apply list_elem_of_fmap in Hid as ([k r] & -> & Hin). exists r. destruct (Hr k r Hin) as [Hk Hp].
    split; [done|]. split; [by apply claimable_iff|by apply Hc].
  - intros id r Hid Hav Hnot id' Hid'. unfold outboxRows in Hnot, Hid'. rewrite fmap_take in Hnot, Hid'.
    eapply sorted_take; [apply (filter_keys (fun kr => claimableRow (cdiv now 1000) kr.2 = true))|exact Hid'| |exact Hnot].
    apply list_elem_of_fmap. exists (id, r). split; [done|]. apply list_elem_of_filter.
    split; [by apply claimable_iff|by apply elem_of_sorted_items].
  - intros id r Hlt Hid Hav. apply list_elem_of_fmap. exists (id, r). split; [done|]. unfold outboxRows in Hlt |- *.
    rewrite length_take in Hlt. rewrite take_ge by (unfold limitOf in *; lia). apply list_elem_of_filter.
    split; [by apply claimable_iff|by apply elem_of_sorted_items].
Qed.

Abbreviation doClaim now owner until limit := (MySqlStore.claimOutboxEvents (X := X) now owner until limit).

Lemma wp_claimOutbox owner now until limit t w :
  holds t w -> isTime now -> isTime until ->
  wp (doClaim now owner until limit)
    (fun evs w' => guard (g_tx w') = None /\ leases owner now until t (sw_db w') /\ returns owner until evs (sw_db w') /\
       (newLease owner (until / 1000) t -> claimed owner now until limit t evs (sw_db w')))
    (fun _ w' => guard (g_tx w') = None /\ leases owner now until t (sw_db w')) w.
Proof.
  intros Hw Hn Hu. unfold claimOutboxEvents. assert (leases owner now until t t) as Hsame by (intros id r; by left).
  apply wp_bind. eapply wp_mono; [by apply (wp_ownConnection t)| |intros x w1 [? ->]; by split].
  intros ? w1 Hw1. apply wp_bind. rewrite (seconds_of until Hu).
  eapply wp_mono; [eapply (wp_statement quiet _ t (fun _ w' => exists t', claimStmt (cdiv now 1000) (until / 1000) owner limit t = inr t' /\ holds t' w')); [done|]| |
    intros x w2 [? ->]; by split].
  { intros t' [] w2 Hst Hw2. destruct (claimStmt _ _ _ _ t) as [err|t2]; [done|]. injection Hst as ->. by exists t'. }
  intros ? w2 (t' & Hst & Hw2). pose proof (seconds_now until Hu) as Hl. rewrite (seconds_of until Hu) in Hl.
  pose proof (claimStmt_claims _ _ _ _ _ _ Hst) as Hcl. pose proof (claims_leases _ _ _ _ _ _ Hn Hcl) as Hle.
  set (evs := outboxEvent <$> outboxRows (leasedBy owner (until / 1000)) limit t').
  assert (ids evs = (outboxRows (leasedBy owner (until / 1000)) limit t').*1) as Hids by (subst evs; by rewrite <- list_fmap_compose).
  unfold queryOutboxEvents, select. eapply wp_mono; [eapply (wp_statement quiet _ t'); [exact Hw2|]|intros l w3 Hq; exact Hq|].
  - intros t3 l w3 [= <- <-] [Hg3 ->]. split; [done|]. split; [done|]. split.
    + intros id Hid. change (id ∈ ids evs) in Hid. rewrite Hids in Hid. apply list_elem_of_fmap in Hid as ([k r] & -> & Hin).
      destruct (outboxRows_facts (leasedBy owner (until / 1000)) limit t') as (_ & _ & _ & Hr). exists r. by apply Hr.
    + intros Hnew. apply claims_claimed; [done|done|]. rewrite <- (reread _ _ _ _ _ _ Hl Hnew Hst). exact Hids.
  - intros x w3 [Hg3 ->]. by split.
Qed.

(** C24: An event that one owner has claimed is not returned to another owner before the
    second in which the lease ends, and its lease stays; a claim changes leases only, and
    returns only events that it leases.  For a lease second that the owner has not used
    yet, the claim takes the first available events and returns exactly those.  No other
    connection changes the tables meanwhile. *)
Theorem claims_are_exclusive (owner owner' : string) (now now' until until' limit limit' : Z) (w : W) :
  guard (g_tx w) = None -> isTime now -> isTime until -> isTime now' -> isTime until' ->
  sameText owner owner' = false -> now' < floorSecond until ->
  match doClaim now owner until limit w with
  | (w1, Throw _) => leases owner now until (sw_db w) (sw_db w1)
  | (w1, Ret evs) =>
      leases owner now until (sw_db w) (sw_db w1) /\ returns owner until evs (sw_db w1) /\
      (newLease owner (until / 1000) (sw_db w) -> claimed owner now until limit (sw_db w) evs (sw_db w1)) /\
      let leasesStay w2 := forall id, id ∈ ids evs -> OutboxEvent (sw_db w2) !! id = OutboxEvent (sw_db w1) !! id in
      match doClaim now' owner' until' limit' w1 with
      | (w2, Throw _) => leasesStay w2
      | (w2, Ret evs') => leasesStay w2 /\ forall id, id ∈ ids evs -> id ∈ ids evs' -> False
      end
  end.
Proof.
  intros Hg Hn Hu Hn' Hu' Hdiff Hlate.
  pose proof (wp_claimOutbox owner now until limit (sw_db w) w (conj Hg eq_refl) Hn Hu) as H1. apply ended in H1.
  destruct (doClaim now owner until limit w) as [w1 [evs|x]]; [|apply H1]. destruct H1 as (Hg1 & Hle & Hret & Hcl).
  do 3 (split; [done|]). cbn zeta.
  assert (forall id, id ∈ ids evs -> exists r o, OutboxEvent (sw_db w1) !! id = Some r /\ ~ available now' r /\
    ox_lease_owner r = Some o /\ sameText o owner = true) as Hheld.
  { intros id Hid. destruct (Hret id Hid) as (r & Hr & Hl). unfold leasedBy in Hl. apply andb_prop in Hl as [[Ho Ht]%andb_prop _].
    destruct (ox_lease_owner r) as [o|] eqn:Hown; [|done]. apply bool_decide_eq_true in Ht. exists r, o. split; [done|]. split; [|done].
    intros (_ & _ & [Hnone|(s & Hs & Hle')]); [congruence|]. rewrite Ht in Hs. injection Hs as <-. unfold floorSecond in Hlate. lia. }
  assert (forall t', leases owner' now' until' (sw_db w1) t' -> forall id, id ∈ ids evs -> OutboxEvent t' !! id = OutboxEvent (sw_db w1) !! id) as Hstay.
  { intros t' Hl id Hid. destruct (Hheld id Hid) as (r & o & Hr & Hna & _). destruct (Hl id r Hr) as [->|[Hav _]]; [by rewrite Hr|done]. }
  pose proof (wp_claimOutbox owner' now' until' limit' (sw_db w1) w1 (conj Hg1 eq_refl) Hn' Hu') as H2. apply ended in H2.
  destruct (doClaim now' owner' until' limit' w1) as [w2 [evs'|x]]; [|apply (Hstay _ (proj2 H2))]. destruct H2 as (_ & Hle2 & Hret2 & _).
  split; [by apply Hstay|]. intros id Hid Hid'. destruct (Hheld id Hid) as (r & o & Hr & _ & Ho & Hsame).
  destruct (Hret2 id Hid') as (r2 & Hr2 & Hl2). rewrite (Hstay _ Hle2 id Hid), Hr in Hr2. injection Hr2 as <-.
  unfold leasedBy in Hl2. rewrite Ho in Hl2. apply andb_prop in Hl2 as [[Hl2 _]%andb_prop _].
  rewrite sameText_sym in Hsame. by rewrite (sameText_trans _ _ _ Hsame Hl2) in Hdiff.
Qed.
End outbox.
