(* ===== verification/KafkaPublisher.v ===== *)
(** * The Kafka publisher (chatserver/src/app/KafkaPublisher.cpp)

    [publish]: the guard on the topic prefix, the metadata of every topic, the
    groups by topic and partition, one record batch per group, and an outcome for
    every request.  The client is the class [Transport]; [KUndefined] stands for a
    division by zero. *)

From S2P Require Import Prelude DomainTypes Json Store Relay Bytes KafkaWire KafkaClient KafkaReplies KafkaConsumer JsonText.
From stdpp Require Import pretty.

Open Scope Z_scope.
Open Scope rd_scope.

(** ** Replies *)

(** What a Metadata reply says of the topic. *)
Inductive TopicVerdict :=
| TopicMissing
| TopicUnavailable
| TopicLeaderless
| TopicReady (okPartitions : Z).

Definition countPartition (acc : Z * bool) : rd (Z * bool) :=
  p <-- readPartitionMeta ;;
  rret (if pa_err p =? 0 then acc.1 + 1 else acc.1, acc.2 && negb (pa_leader p <? 0)).

Definition verdictOf (err : Z) (acc : Z * bool) : TopicVerdict :=
  if negb (err =? 0) || (acc.1 =? 0) then TopicUnavailable
  else if acc.2 then TopicReady acc.1 else TopicLeaderless.

(** The first topic of that name decides; what follows is not read. *)
Fixpoint readVerdict (topicCount : nat) (topic : bytes) : rd TopicVerdict :=
  match topicCount with
  | O => rret TopicMissing
  | S n =>
      err <-- ByteReader.i16 ;;
      name <-- ByteReader.str ;;
      _ <-- ByteReader.bool_ ;;
      acc <-- rcount countPartition (0, true) ;;
      if bool_decide (name = topic) then rret (verdictOf err acc) else readVerdict n topic
  end.

Definition readTopicVerdict (topic : bytes) : rd TopicVerdict :=
  skipBrokers ;;;
  n <-- ByteReader.i32 ;;
  readVerdict (Z.to_nat n) topic.

(** [return false] *)
Definition rfail {A} : rd A := fun _ pos => (pos, RFalse).

(** The error code of the partition in a Produce reply: the first entry with its
    index, in whatever topic. *)
Fixpoint findError (n : nat) (partition : Z) : rd (option Z) :=
  match n with
  | O => rret None
  | S n =>
      idx <-- ByteReader.i32 ;;
      err <-- ByteReader.i16 ;;
      _ <-- ByteReader.i64 ;;
      _ <-- ByteReader.i64 ;;
      if idx =? partition then rret (Some err) else findError n partition
  end.

Fixpoint findProduced (topicCount : nat) (partition : Z) : rd Z :=
  match topicCount with
  | O => rfail
  | S n =>
      _ <-- ByteReader.str ;;
      pc <-- ByteReader.i32 ;;
      found <-- findError (Z.to_nat pc) partition ;;
      match found with
      | Some err => rret err
      | None => findProduced n partition
      end
  end.

Definition readProduced (partition : Z) : rd Z :=
  n <-- ByteReader.i32 ;; findProduced (Z.to_nat n) partition.

(** ** Outcomes *)

Definition failedOutcome (f : PublishFailure) (msg : string) : OutboxPublishOutcome := mkOutcome false f msg.

(** The default member values. *)
Definition newOutcome : OutboxPublishOutcome := mkOutcome false PubOther EmptyString.

Definition okOutcome (oc : OutboxPublishOutcome) : OutboxPublishOutcome := mkOutcome true PubNone (oc_error oc).

Definition setOutcomes (indexes : list nat) (f : OutboxPublishOutcome -> OutboxPublishOutcome)
    (outcomes : list OutboxPublishOutcome) : list OutboxPublishOutcome :=
  foldl (fun os i => alter f i os) outcomes indexes.

Definition failAll (indexes : list nat) (f : PublishFailure) (msg : string)
  : list OutboxPublishOutcome -> list OutboxPublishOutcome :=
  setOutcomes indexes (fun _ => failedOutcome f msg).

(** What an error code of a Produce reply becomes. *)
Definition produceFailure (errorCode : Z) : PublishFailure * string :=
  if errorCode =? 0 then (PubNone, EmptyString)
  else if errorCode =? 3 then (PubPayloadTooLarge, "message too large")
  else if errorCode =? 7 then (PubTimeout, "broker request timed out")
  else (PubOther, "produce error code " +:+ pretty errorCode)%string.

Definition produceOutcomes (indexes : list nat) (errorCode : Z)
  : list OutboxPublishOutcome -> list OutboxPublishOutcome :=
  match produceFailure errorCode with
  | (PubNone, _) => setOutcomes indexes okOutcome
  | (f, msg) => failAll indexes f msg
  end.

(** ** Groups *)

Record PublisherConfig := mkPublisher {
  pb_host : string;
  pb_port : Z;
  pb_topicPrefix : string;
  pb_deadlineMs : Z;
}.

Record PubGroup := mkGroup {
  g_topic : string;
  g_partition : Z;
  g_kv : list (bytes * bytes);
  g_indexes : list nat;
}.

Record Groups := mkGroups {
  gs_groups : list PubGroup;
  gs_byKey : gmap (string * Z) nat;
}.

Definition envelopeOf (req : OutboxPublishRequest) : Json :=
  objectOf [("message_id", JInt (ev_aggregateMessageId (rq_event req)));
            ("conversation_id", JInt (rq_conversationId req));
            ("sequence", JInt (rq_sequence req));
            ("event_type", JStr (ev_eventType (rq_event req)));
            ("payload", JStr (ev_payload (rq_event req)))]%string.

Definition keyOf (req : OutboxPublishRequest) : bytes := bytesOf (to_string (rq_conversationId req)).

Definition addToGroup (kv : bytes * bytes) (i : nat) (g : PubGroup) : PubGroup :=
  mkGroup (g_topic g) (g_partition g) (g_kv g ++ [kv]) (g_indexes g ++ [i]).

Definition addRecord (topic : string) (partition : Z) (kv : bytes * bytes) (i : nat) (gs : Groups) : Groups :=
  match gs_byKey gs !! (topic, partition) with
  | None =>
      mkGroups (gs_groups gs ++ [mkGroup topic partition [kv] [i]])
        (<[(topic, partition) := length (gs_groups gs)]> (gs_byKey gs))
  | Some k => mkGroups (alter (addToGroup kv i) k (gs_groups gs)) (gs_byKey gs)
  end.

(** [std::set<std::string>::insert] *)
Fixpoint insertTopic (t : string) (topics : list string) : list string :=
  match topics with
  | [] => [t]
  | u :: rest =>
      match String.compare t u with
      | Eq => topics
      | Lt => t :: topics
      | Gt => u :: insertTopic t rest
      end
  end.

Definition topicOf (batch : list OutboxPublishRequest) (i : nat) : string :=
  match batch !! i with Some r => rq_topic r | None => EmptyString end.

(** The prefix guard: the requests that go on, and the outcomes. *)
Definition guarded (prefix : string) (batch : list OutboxPublishRequest) (i : nat) : bool :=
  bool_decide (prefix = EmptyString) || String.prefix prefix (topicOf batch i).

Definition guardOutcomes (prefix : string) (batch : list OutboxPublishRequest) : list OutboxPublishOutcome :=
  imap (fun i req => if guarded prefix batch i then newOutcome
                     else failedOutcome PubOther ("topic prefix guard rejected: " +:+ rq_topic req)%string) batch.

(** ** Requests *)

Record PState (N : Type) := mkP { ps_net : N; ps_correlation : Z }.
Arguments mkP {N}.
Arguments ps_net {N}.
Arguments ps_correlation {N}.

Module Publisher.
Open Scope eff_scope.

Definition kClientId : bytes := bytesOf "muduo-publisher".
Definition kRetryPauseMs : Z := 50.

Section publisher.
Context {N : Type} `{!Transport N, !JsonFloat}.
Context (cfg : PublisherConfig).

Notation peff := (eff kexn (PState N)).

Definition onNet {A} (f : N -> N * A) : peff A :=
  fun s => let '(n, a) := f (ps_net s) in (mkP n (ps_correlation s), Ret a).

Definition remainingMs (startMs deadlineMs : Z) : peff Z :=
  now <- onNet steadyNow ;; ret (i64 (deadlineMs - i64 (now - startMs))).

Definition sleep : peff unit := onNet (fun n => (pause kRetryPauseMs n, tt)).

(** [correlation++] *)
Definition nextCorrelation : peff Z :=
  c <- gets ps_correlation ;;
  modify (fun s => mkP (ps_net s) (i32 (c + 1))) ;;;
  ret c.

(** A request and its reply, read by [m]; [None] when anything fails. *)
Definition rpc {A} (apiKey apiVersion : Z) (body : bytes) (corr timeoutMs : Z) (m : rd A) : peff (option A) :=
  sent <- onNet (sendRequest apiKey apiVersion kClientId body corr timeoutMs) ;;
  if negb sent then ret None
  else
    resp <- onNet (recvResponse corr timeoutMs) ;;
    match resp with
    | None => ret None
    | Some r =>
        match (m r 0).2 with
        | RTrue a => ret (Some a)
        | RFalse => ret None
        | RUndefined => throw KUndefined
        | ROutOfRange => throw (KExn OtherException)
        | ROutOfFuel => throw (KExn Diverges)
        end
    end.

(** -1: the transport failed; 0: unavailable, without partitions, or too late. *)
Fixpoint metadataPartitions (rounds : nat) (topic : string) (startMs deadlineMs : Z) : peff Z :=
  match rounds with
  | O => throw (KExn Diverges)
  | S r =>
      remain <- remainingMs startMs deadlineMs ;;
      corr <- nextCorrelation ;;
      verdict <- rpc 3 1 (ByteWriter.str (bytesOf topic) (ByteWriter.i32 1 [])) corr (clampTimeout remain)
                   (readTopicVerdict (bytesOf topic)) ;;
      match verdict with
      | None => ret (-1)
      | Some TopicMissing => ret 0
      | Some (TopicReady okPartitions) => ret okPartitions
      | Some _ =>
          remain <- remainingMs startMs deadlineMs ;;
          if remain <=? 0 then ret 0
          else sleep ;;; metadataPartitions r topic startMs deadlineMs
      end
  end.

Definition produceBody (topic : bytes) (partition : Z) (recordsBlob : bytes) (brokerTimeoutMs : Z) : bytes :=
  let w := ByteWriter.nullableStrNull [] in
  let w := ByteWriter.i16 1 w in
  let w := ByteWriter.i32 brokerTimeoutMs w in
  let w := ByteWriter.i32 1 w in
  let w := ByteWriter.str topic w in
  let w := ByteWriter.i32 1 w in
  let w := ByteWriter.i32 partition w in
  ByteWriter.bytes_ recordsBlob w.

(** The error code, or [None] when the transport failed. *)
Definition produceGroup (topic : string) (partition : Z) (recordsBlob : bytes)
    (brokerTimeoutMs socketTimeoutMs correlation : Z) : peff (option Z) :=
  rpc 0 3 (produceBody (bytesOf topic) partition recordsBlob brokerTimeoutMs) correlation socketTimeoutMs
    (readProduced partition).

(** Produce until the leader is known: [None] when the transport failed. *)
Fixpoint produceLoop (rounds metaRounds : nat) (g : PubGroup) (records : bytes) (start dl : Z) : peff (option Z) :=
  match rounds with
  | O => throw (KExn Diverges)
  | S r =>
      remain <- remainingMs start dl ;;
      corr <- nextCorrelation ;;
      produced <- produceGroup (g_topic g) (g_partition g) records 3000 (clampTimeout remain) corr ;;
      match produced with
      | None => ret None
      | Some errorCode =>
          if (errorCode =? 6) || (errorCode =? 5) then
            remain <- remainingMs start dl ;;
            if remain <=? 0 then ret (Some errorCode)
            else
              parts <- metadataPartitions metaRounds (g_topic g) start dl ;;
              if parts <? 0 then ret None
              else if parts =? 0 then ret (Some errorCode)
              else sleep ;;; produceLoop r metaRounds g records start dl
          else ret (Some errorCode)
      end
  end.

Definition transportFailure (startMs deadlineMs : Z) : peff PublishFailure :=
  remain <- remainingMs startMs deadlineMs ;;
  ret (if remain <=? 0 then PubTimeout else PubBrokerUnavailable).

(** ** The steps of publish *)

Notation outs := (list OutboxPublishOutcome).

(** The topics in order: [inl] ends the call. *)
Fixpoint resolveTopics (rounds : nat) (batch : list OutboxPublishRequest) (topics : list string)
    (pending : list nat) (partitionsByTopic : gmap string Z) (outcomes : outs) (start dl : Z)
  : peff (outs + list nat * gmap string Z * outs) :=
  match topics with
  | [] => ret (inr (pending, partitionsByTopic, outcomes))
  | t :: rest =>
      parts <- metadataPartitions rounds t start dl ;;
      if parts <? 0 then
        f <- transportFailure start dl ;;
        ret (inl (failAll pending f ("metadata request failed for " +:+ t)%string outcomes))
      else if parts =? 0 then
        let mine := filter (fun i => topicOf batch i = t) pending in
        let others := filter (fun i => topicOf batch i <> t) pending in
        resolveTopics rounds batch rest others partitionsByTopic
          (failAll mine PubOther ("topic unavailable or has no partitions: " +:+ t)%string outcomes) start dl
      else resolveTopics rounds batch rest pending (<[t := parts]> partitionsByTopic) outcomes start dl
  end.

(** [dump] throws on text that is not UTF-8. *)
Fixpoint buildGroups (batch : list OutboxPublishRequest) (partitionsByTopic : gmap string Z)
    (pending : list nat) (gs : Groups) : peff Groups :=
  match pending with
  | [] => ret gs
  | i :: rest =>
      match batch !! i with
      | None => throw KUndefined
      | Some req =>
          let parts := default 0 (partitionsByTopic !! rq_topic req) in
          if parts =? 0 then throw KUndefined
          else
            match dump (envelopeOf req) with
            | None => throw (KExn OtherException)
            | Some value =>
                buildGroups batch partitionsByTopic rest
                  (addRecord (rq_topic req) (i32 (rq_conversationId req mod parts))
                     (keyOf req, bytesOf value) i gs)
            end
      end
  end.

Definition indexesOf (groups : list PubGroup) : list nat := concat (g_indexes <$> groups).

(** After a failed transport the connection is closed, and opened again for the
    groups that are left; [Some] ends the call. *)
Definition reconnect (rest : list PubGroup) (outcomes : outs) (start dl : Z) : peff (option outs) :=
  onNet (fun n => (disconnect n, tt)) ;;;
  match rest with
  | [] => ret None
  | _ =>
      remain <- remainingMs start dl ;;
      if remain <? 1
      then ret (Some (failAll (indexesOf rest) PubTimeout "deadline exceeded after transport failure" outcomes))
      else
        remain <- remainingMs start dl ;;
        ok <- onNet (connectTo (pb_host cfg) (pb_port cfg) (clampTimeout remain)) ;;
        if (ok : bool) then ret None
        else
          f <- transportFailure start dl ;;
          ret (Some (failAll (indexesOf rest) f "broker reconnect failed after transport failure" outcomes))
  end.

Fixpoint produceGroups (rounds : nat) (groups : list PubGroup) (outcomes : outs) (start dl : Z) : peff outs :=
  match groups with
  | [] => ret outcomes
  | g :: rest =>
      ts <- onNet wallNow ;;
      let records := encodeRecordBatch ts (g_kv g) in
      produced <- produceLoop rounds rounds g records start dl ;;
      match produced with
      | None =>
          f <- transportFailure start dl ;;
          let outcomes := failAll (g_indexes g) f
            ("produce request failed for " +:+ g_topic g +:+ " partition " +:+ pretty (g_partition g))%string outcomes in
          over <- reconnect rest outcomes start dl ;;
          match over with
          | Some outcomes => ret outcomes
          | None => produceGroups rounds rest outcomes start dl
          end
      | Some errorCode => produceGroups rounds rest (produceOutcomes (g_indexes g) errorCode outcomes) start dl
      end
  end.

(** A round of either loop ends with a pause, and none follows the deadline. *)
Definition retryRounds (budget : Z) : nat := 2 + Z.to_nat (budget / kRetryPauseMs).

Definition publishPending (batch : list OutboxPublishRequest) (pending : list nat) (outcomes : outs)
    (start dl : Z) : peff outs :=
  remain <- remainingMs start dl ;;
  ok <- onNet (connectTo (pb_host cfg) (pb_port cfg) (clampTimeout remain)) ;;
  if negb ok then
    f <- transportFailure start dl ;;
    ret (failAll pending f
           ("broker connect failed on " +:+ pb_host cfg +:+ ":" +:+ pretty (pb_port cfg))%string outcomes)
  else
    let topics := foldl (fun ts i => insertTopic (topicOf batch i) ts) [] pending in
    resolved <- resolveTopics (retryRounds dl) batch topics pending ∅ outcomes start dl ;;
    match resolved with
    | inl outcomes => ret outcomes
    | inr ([], _, outcomes) => ret outcomes
    | inr (pending, partitionsByTopic, outcomes) =>
        gs <- buildGroups batch partitionsByTopic pending (mkGroups [] ∅) ;;
        produceGroups (retryRounds dl) (gs_groups gs) outcomes start dl
    end.

(** The client is closed when [publish] returns or throws; its correlation numbers
    start at 0. *)
Definition publish (batch : list OutboxPublishRequest) (deadlineMs : Z) : peff outs :=
  match batch with
  | [] => ret []
  | _ =>
      let dl := if 0 <? deadlineMs then deadlineMs else pb_deadlineMs cfg in
      start <- onNet steadyNow ;;
      let outcomes := guardOutcomes (pb_topicPrefix cfg) batch in
      match filter (fun i => guarded (pb_topicPrefix cfg) batch i = true) (seq 0 (length batch)) with
      | [] => ret outcomes
      | pending =>
          modify (fun s => mkP (ps_net s) 0) ;;;
          catch (outs <- publishPending batch pending outcomes start dl ;;
                 onNet (fun n => (disconnect n, tt)) ;;; ret outs)
            (fun x => onNet (fun n => (disconnect n, tt)) ;;; throw x)
      end
  end.
End publisher.
End Publisher.
