(* ===== verification/KafkaPublisherInv.v ===== *)
(** * What the Kafka publisher guarantees

    A request reported as published is in the log of the broker: the record batch
    of its group, which holds the envelopes of a partition's requests in their
    order, was appended.  The consumer reads the envelope back. *)

From S2P Require Import Prelude DomainTypes Json Store Relay Bytes KafkaWire KafkaWireInv KafkaClient KafkaReplies.
From S2P Require Import KafkaBroker KafkaConsumer KafkaConsumerInv JsonText KafkaPublisher.

Open Scope Z_scope.

#[local] Opaque dump envelopeOf keyOf bytesOf.

(** ** Groups *)

Definition groupKey (g : PubGroup) : string * Z := (g_topic g, g_partition g).

(** What a group holds of the batch. *)
Section groups.
Context `{!JsonFloat}.
Context (batch : list OutboxPublishRequest) (parts : gmap string Z).

(** The record of a request and the place it goes to. *)
Definition recordOf (i : nat) (kv : bytes * bytes) : Prop :=
  exists req value, batch !! i = Some req /\ dump (envelopeOf req) = Some value /\
    kv = (keyOf req, bytesOf value).

Definition placeOf (i : nat) (key : string * Z) : Prop :=
  exists req n, batch !! i = Some req /\ parts !! rq_topic req = Some n /\
    key = (rq_topic req, i32 (rq_conversationId req mod n)).

Record group_ok (g : PubGroup) : Prop := {
  go_records : Forall2 recordOf (g_indexes g) (g_kv g);
  go_place : Forall (fun i => placeOf i (groupKey g)) (g_indexes g);
  go_sorted : StronglySorted lt (g_indexes g);
  go_some : g_indexes g <> [];
}.

(** [done_]: the requests that were added. *)
Record groups_ok (done_ : list nat) (gs : Groups) : Prop := {
  gk_keys k i : gs_byKey gs !! k = Some i <-> exists g, gs_groups gs !! i = Some g /\ groupKey g = k;
  gk_groups : Forall group_ok (gs_groups gs);
  gk_members i : i ∈ done_ <-> exists g, g ∈ gs_groups gs /\ i ∈ g_indexes g;
}.

Lemma groupKey_add kv i g : groupKey (addToGroup kv i g) = groupKey g.
Proof. done. Qed.

Lemma sorted_snoc (l : list nat) i : StronglySorted lt l -> Forall (fun j => (j < i)%nat) l -> StronglySorted lt (l ++ [i]).
Proof.
  intros Hs Hl. apply sorted_app; [done|repeat constructor|]. intros x y Hx ->%list_elem_of_singleton.
  rewrite Forall_forall in Hl. by apply Hl.
Qed.

Lemma group_ok_add g i kv :
  group_ok g -> recordOf i kv -> placeOf i (groupKey g) -> Forall (fun j => (j < i)%nat) (g_indexes g) ->
  group_ok (addToGroup kv i g).
Proof.
  intros [H1 H2 H3 H4] Hr Hp Hi. split; cbn; [..|by destruct (g_indexes g)].
  - apply Forall2_app; [done|]. by constructor.
  - apply Forall_app. split; [exact H2|]. by constructor.
  - by apply sorted_snoc.
Qed.

Section add.
Context (done_ : list nat) (gs : Groups) (i : nat) (kv : bytes * bytes) (topic : string) (p : Z).
Context (Hgs : groups_ok done_ gs) (Hlt : Forall (fun j => (j < i)%nat) done_).
Context (Hrec : recordOf i kv) (Hplace : placeOf i (topic, p)).

Lemma members_below g : g ∈ gs_groups gs -> Forall (fun j => (j < i)%nat) (g_indexes g).
Proof.
  intros Hin. apply Forall_forall. intros j Hj. rewrite Forall_forall in Hlt.
  apply Hlt, (gk_members _ _ Hgs). eauto.
Qed.

Lemma groups_ok_old k g :
  gs_groups gs !! k = Some g -> groupKey g = (topic, p) ->
  groups_ok (done_ ++ [i]) (mkGroups (alter (addToGroup kv i) k (gs_groups gs)) (gs_byKey gs)).
Proof.
  intros Hlook Hgk. pose proof (list_elem_of_lookup_2 _ _ _ Hlook) as Hin.
  assert (Hnew : alter (addToGroup kv i) k (gs_groups gs) !! k = Some (addToGroup kv i g))
    by (by rewrite list_lookup_alter_eq, Hlook).
  pose proof Hgs as [Hk Hg Hm]. split; cbn.
  - intros k' j. rewrite Hk. destruct (decide (k = j)) as [->|Hne].
    + rewrite Hnew, Hlook. split; intros (g' & [= <-] & <-); eauto.
    + by rewrite list_lookup_alter_ne.
  - apply Forall_alter; [done|]. intros g' Hlook' Hok. rewrite Hlook in Hlook'. injection Hlook' as <-.
    apply group_ok_add; [done|done|by rewrite Hgk|by apply members_below].
  - intros j. rewrite elem_of_app, list_elem_of_singleton, Hm. split.
    + intros [(g' & Hg' & Hj)| ->].
      * apply list_elem_of_lookup in Hg' as [l Hl]. destruct (decide (k = l)) as [->|Hne].
        -- exists (addToGroup kv i g). rewrite Hlook in Hl. injection Hl as <-.
           split; [by eapply list_elem_of_lookup_2|]. cbn. rewrite elem_of_app. by left.
        -- exists g'. split; [|done]. apply list_elem_of_lookup. exists l. by rewrite list_lookup_alter_ne.
      * exists (addToGroup kv i g). split; [by eapply list_elem_of_lookup_2|].
        cbn. rewrite elem_of_app, list_elem_of_singleton. by right.
    + intros (g' & Hg' & Hj). apply list_elem_of_lookup in Hg' as [l Hl].
      destruct (decide (k = l)) as [->|Hne].
      * rewrite Hnew in Hl. injection Hl as <-. cbn in Hj. rewrite elem_of_app, list_elem_of_singleton in Hj.
        destruct Hj as [Hj|Hj]; [left; eauto|by right].
      * rewrite list_lookup_alter_ne in Hl by done. left. exists g'. split; [by eapply list_elem_of_lookup_2|done].
Qed.

Lemma groups_ok_fresh :
  gs_byKey gs !! (topic, p) = None ->
  groups_ok (done_ ++ [i]) (mkGroups (gs_groups gs ++ [mkGroup topic p [kv] [i]])
    (<[(topic, p) := length (gs_groups gs)]> (gs_byKey gs))).
Proof.
  intros Hkey. pose proof Hgs as [Hk Hg Hm]. split; cbn.
  - intros k' j. destruct (decide (k' = (topic, p))) as [->|Hne].
    + rewrite lookup_insert_eq. split.
      * intros [= <-]. exists (mkGroup topic p [kv] [i]). split; [|done].
        by rewrite lookup_app_r, Nat.sub_diag by lia.
      * intros (g & Hl & Hgk). apply lookup_app_Some in Hl as [Hl|[Hge Hl]].
        -- assert (gs_byKey gs !! (topic, p) = Some j) by (apply Hk; eauto). congruence.
        -- apply list_lookup_singleton_Some in Hl as [Hz _]. f_equal. lia.
    + rewrite lookup_insert_ne by done. rewrite Hk. split; intros (g & Hl & Hgk); exists g; (split; [|done]).
      * by apply lookup_app_l_Some.
      * apply lookup_app_Some in Hl as [Hl|[Hge Hl]]; [done|].
        apply list_lookup_singleton_Some in Hl as [_ <-]. by destruct Hne.
  - apply Forall_app. split; [done|]. apply Forall_singleton. split; cbn; [by repeat constructor|by repeat constructor|repeat constructor|done].
  - intros j. rewrite elem_of_app, list_elem_of_singleton, Hm. split.
    + intros [(g & Hg' & Hj)| ->].
      * exists g. rewrite elem_of_app. auto.
      * exists (mkGroup topic p [kv] [i]). rewrite elem_of_app, list_elem_of_singleton. split; [by right|].
        by apply list_elem_of_singleton.
    + intros (g & Hg' & Hj). rewrite elem_of_app, list_elem_of_singleton in Hg'.
      destruct Hg' as [?| ->]; [left; eauto|]. right. by apply list_elem_of_singleton in Hj.
Qed.

Lemma groups_ok_add : groups_ok (done_ ++ [i]) (addRecord topic p kv i gs).
Proof.
  unfold addRecord. destruct (gs_byKey gs !! (topic, p)) as [k|] eqn:Hkey; [|by apply groups_ok_fresh].
  apply (gk_keys _ _ Hgs) in Hkey as (g & Hlook & Hgk). by eapply groups_ok_old.
Qed.
End add.
End groups.

(** ** What a broker promises to a producer *)

Definition produceRequest (timeout : Z) (topic : bytes) (p : Z) (blob : bytes) : bytes :=
  digits 2 (-1) ++ digits 2 1 ++ digits 4 timeout ++ digits 4 1 ++ encStr topic ++ digits 4 1 ++ digits 4 p ++
  digits 4 (size blob) ++ blob.

Definition produceReply (topic : bytes) (p err base time throttle : Z) : bytes :=
  digits 4 1 ++ encStr topic ++ digits 4 1 ++ digits 4 p ++ digits 2 err ++ digits 8 base ++ digits 8 time ++
  digits 4 throttle.

(** [logAt]: the record batches of a partition with the offsets they were stored
    at.  A client refuses a message of more than 2^31 - 1 bytes; the reply to a
    Produce request for one partition speaks of that partition, and error 0 says
    that the batch was appended. *)
Class ProduceLaws (N : Type) `{!Transport N} := {
  logAt : N -> bytes -> Z -> list (Z * bytes);
  grows (n n' : N) : Prop := forall t p, logAt n t p `prefix_of` logAt n' t p;
  steadyNow_grows n : grows n (steadyNow n).1;
  wallNow_grows n : grows n (wallNow n).1;
  pause_grows ms n : grows n (pause ms n);
  connectTo_grows h q t n : grows n (connectTo h q t n).1;
  sendRequest_grows k v c b i t n : grows n (sendRequest k v c b i t n).1;
  recvResponse_grows i t n : grows n (recvResponse i t n).1;
  disconnect_grows n : grows n (disconnect n);
  send_refuses k v c b i t n : 2 ^ 31 <= size b -> (sendRequest k v c b i t n).2 = false;
  produce_ok c corr t t' timeout topic p blob n n1 n2 resp :
    size topic < 2 ^ 15 -> in32 p -> size blob < 2 ^ 31 ->
    sendRequest 0 3 c (produceRequest timeout topic p blob) corr t n = (n1, true) ->
    recvResponse corr t' n1 = (n2, Some resp) ->
    exists err base time throttle, resp = produceReply topic p err base time throttle /\
      - 2 ^ 15 <= err < 2 ^ 15 /\ isI64 base /\ isI64 time /\
      (err = 0 -> (base, blob) ∈ logAt n2 topic p);
}.

Lemma grows_refl {N} `{!Transport N, !ProduceLaws N} (n : N) : grows n n.
Proof. by intros t p. Qed.

Lemma grows_trans {N} `{!Transport N, !ProduceLaws N} (n1 n2 n3 : N) : grows n1 n2 -> grows n2 n3 -> grows n1 n3.
Proof. intros H1 H2 t p. by transitivity (logAt n2 t p). Qed.

Lemma produceBody_request topic p blob timeout :
  size topic < 2 ^ 15 -> size blob < 2 ^ 31 ->
  Publisher.produceBody topic p blob timeout = produceRequest timeout topic p blob.
Proof.
  intros Ht Hb. unfold Publisher.produceBody, produceRequest, ByteWriter.bytes_, ByteWriter.append.
  rewrite !write_i32, write_str, !write_null by done.
  rewrite digits_i32. change (ByteWriter.i16 1 ?b) with (b ++ digits 2 1). by rewrite <- !app_assoc.
Qed.

Lemma readProduced_reply topic p err base time throttle :
  size topic < 2 ^ 15 -> in32 p -> - 2 ^ 15 <= err < 2 ^ 15 -> isI64 base -> isI64 time ->
  (readProduced p (produceReply topic p err base time throttle) 0).2 = RTrue err.
Proof.
  intros Ht Hp He Hb Hi.
  assert (reads (readProduced p) (digits 4 1 ++ (encStr topic ++ digits 4 1 ++ digits 4 p ++ digits 2 err ++
    digits 8 base ++ digits 8 time)) err) as Hr.
  { eapply reads_bind; [apply reads_i32; lia|]. change (Z.to_nat 1) with 1%nat. cbn [findProduced].
    eapply reads_bind; [exact (reads_str topic Ht)|]. eapply reads_bind; [apply reads_i32; lia|].
    change (Z.to_nat 1) with 1%nat. eapply (reads_map _ _ _ (Some err)); [|apply reads_ret].
    cbn [findError].
    eapply reads_bind; [by apply reads_i32|]. eapply reads_bind; [by apply reads_i16|].
    eapply reads_bind; [by apply reads_i64|]. eapply reads_map; [by apply reads_i64|].
    rewrite Z.eqb_refl. apply reads_ret. }
  specialize (Hr [] (digits 4 throttle)). unfold produceReply. cbn [app] in Hr. rewrite <- !app_assoc in Hr.
  change (size []) with 0 in Hr. rewrite Hr; [done|].
  unfold encStr. rewrite !size_app, !size_digits. lia.
Qed.

(** ** Outcomes *)

Lemma setOutcomes_lookup indexes f os i oc :
  setOutcomes indexes f os !! i = Some oc -> os !! i = Some oc \/ (i ∈ indexes /\ exists oc', oc = f oc').
Proof.
  revert os. induction indexes as [|j indexes IH]; intros os H; [by left|].
  change (setOutcomes indexes f (alter f j os) !! i = Some oc) in H.
  apply IH in H as [H|(Hi & H)]; [|right; split; [by right|done]].
  destruct (decide (j = i)) as [->|Hne]; [|rewrite list_lookup_alter_ne in H by done; by left].
  rewrite list_lookup_alter_eq in H. destruct (os !! i) as [oc'|]; [|done]. injection H as <-.
  right. split; [by left|eauto].
Qed.

Lemma setOutcomes_length indexes f os : length (setOutcomes indexes f os) = length os.
Proof.
  revert os. induction indexes as [|j indexes IH]; intros os; [done|].
  change (length (setOutcomes indexes f (alter f j os)) = length os). by rewrite IH, length_alter.
Qed.

Definition okAt (os : list OutboxPublishOutcome) (i : nat) : Prop :=
  exists oc, os !! i = Some oc /\ oc_ok oc = true.

Lemma failAll_ok indexes f msg os i : okAt (failAll indexes f msg os) i -> okAt os i.
Proof. intros (oc & H & Hok). apply setOutcomes_lookup in H as [H|(_ & oc' & ->)]; [by exists oc|done]. Qed.

Lemma produceOutcomes_ok indexes errorCode os i :
  okAt (produceOutcomes indexes errorCode os) i -> okAt os i \/ (i ∈ indexes /\ errorCode = 0).
Proof.
  unfold produceOutcomes, produceFailure. destruct (Z.eqb_spec errorCode 0) as [->|Hne].
  - intros (oc & H & Hok). apply setOutcomes_lookup in H as [H|(Hi & _)]; [left; by exists oc|by right].
  - intros H. left. destruct (errorCode =? 3), (errorCode =? 7); by eapply failAll_ok.
Qed.

Lemma guardOutcomes_ok prefix batch i : ~ okAt (guardOutcomes prefix batch) i.
Proof.
  intros (oc & H & Hok). unfold guardOutcomes in H. rewrite list_lookup_imap in H.
  destruct (batch !! i) as [req|]; [|done]. injection H as <-. by destruct (guarded prefix batch i).
Qed.

Section batch.
Context {N : Type} `{!Transport N, !JsonFloat}.

Notation P := (PState N).
Import Publisher.

(** ** From the batch to the groups *)

Lemma wp_buildGroups batch parts done_ pending gs (s : P) :
  groups_ok batch parts done_ gs -> StronglySorted lt (done_ ++ pending) ->
  (forall i, i ∈ pending -> exists req n, batch !! i = Some req /\ parts !! rq_topic req = Some n /\ n <> 0) ->
  wp (buildGroups batch parts pending gs)
    (fun gs' s' => s' = s /\ groups_ok batch parts (done_ ++ pending) gs')
    (fun x s' => s' = s /\ x = KExn OtherException /\
       exists i req, batch !! i = Some req /\ dump (envelopeOf req) = None) s.
Proof.
  revert done_ gs. induction pending as [|i pending IH]; intros done_ gs Hgs Hsort Hp; cbn [buildGroups].
  { apply wp_ret. by rewrite app_nil_r. }
  destruct (Hp i ltac:(by left)) as (req & n & Hb & Hn & Hne). rewrite Hb, Hn. change (default 0 (Some n)) with n.
  destruct (Z.eqb_spec n 0); [done|]. destruct (dump (envelopeOf req)) as [value|] eqn:Hv.
  2:{ exact (conj eq_refl (conj eq_refl (ex_intro _ i (ex_intro _ req (conj Hb Hv))))). }
  rewrite (app_assoc done_ [i] pending : done_ ++ i :: pending = _) in Hsort |- *.
  assert (Forall (fun j => (j < i)%nat) done_) as Hlt.
  { apply Forall_forall. intros j Hj. apply sorted_app_inv in Hsort as (Hs & _ & _).
    apply sorted_app_inv in Hs as (_ & _ & H12). apply H12; [done|by apply list_elem_of_singleton]. }
  apply IH; [|done|intros j Hj; apply Hp; by right].
  apply groups_ok_add; [done|done| |].
  - exists req, value. split; [exact Hb|]. split; [exact Hv|reflexivity].
  - exists req, n. split; [exact Hb|]. split; [exact Hn|reflexivity].
Qed.

(** The topics of all requests left are known or still to be asked for. *)
Definition topicsCover (batch : list OutboxPublishRequest) (topics : list string) (parts : gmap string Z)
    (pending : list nat) : Prop :=
  forall i, i ∈ pending -> topicOf batch i ∈ topics \/ exists n, parts !! topicOf batch i = Some n /\ n <> 0.

(** For any invariant of the client's steps and any property of the outcomes that
    failing requests keeps. *)
Lemma wp_resolveTopics (I : P -> Prop) E (R : list OutboxPublishOutcome -> Prop) rounds batch topics pending parts os
    start dl (s : P) :
  (forall t, keepsOr I E (metadataPartitions rounds t start dl)) ->
  (forall s, I s -> wp (transportFailure start dl) (fun f s' => I s' /\ f <> PubNone) E s) ->
  (forall indexes f msg os, f <> PubNone -> R os -> R (failAll indexes f msg os)) ->
  topicsCover batch topics parts pending -> I s -> R os ->
  wp (resolveTopics rounds batch topics pending parts os start dl)
    (fun r s' => I s' /\
       match r with
       | inl os' => R os'
       | inr (pending', parts', os') =>
           R os' /\ pending' `sublist_of` pending /\ topicsCover batch [] parts' pending'
       end) E s.
Proof.
  intros Hmeta Htrans Hfail. revert pending parts os s.
  induction topics as [|t topics IH]; intros pending parts os s Hc Hs Hos; cbn [resolveTopics].
  { by apply wp_ret. }
  eapply wp_bind_keeps; [apply Hmeta|exact Hs|]. intros n s1 Hs1. destruct (Z.ltb_spec n 0).
  { apply wp_bind. eapply wp_mono; [by apply Htrans| |done]. intros f s2 [Hs2 Hf]. apply wp_ret. auto. }
  destruct (Z.eqb_spec n 0) as [Hz|Hz].
  - eapply wp_mono; [apply IH; [|exact Hs1|by apply Hfail]| |done].
    + intros i [Hne Hi]%list_elem_of_filter. destruct (Hc i Hi) as [[?|?]%elem_of_cons|?]; [done|by left|by right].
    + intros [os'|[[pending' parts'] os']] s2 [Hs2 Hr]; (split; [done|]); [done|].
      destruct Hr as (Ha & Hsub & Hc'). split; [done|]. split; [|done]. etrans; [exact Hsub|apply sublist_filter].
  - apply IH; [|done|done]. intros i Hi. destruct (decide (topicOf batch i = t)) as [Ht|Ht].
    + right. exists n. by rewrite Ht, lookup_insert_eq.
    + destruct (Hc i Hi) as [[?|?]%elem_of_cons|?]; [done|by left|right]. by rewrite lookup_insert_ne.
Qed.

Lemma elem_of_insertTopic t l u : u ∈ insertTopic t l <-> u = t \/ u ∈ l.
Proof.
  induction l as [|v l IH]; cbn [insertTopic]; [rewrite list_elem_of_singleton; set_solver|].
  destruct (String.compare t v) eqn:Hcmp.
  - apply String.compare_eq_iff in Hcmp as ->. rewrite elem_of_cons. naive_solver.
  - by rewrite !elem_of_cons.
  - rewrite !elem_of_cons, IH. naive_solver.
Qed.

Lemma topics_of_pending batch pending i topics :
  i ∈ pending \/ topicOf batch i ∈ topics ->
  topicOf batch i ∈ foldl (fun ts i => insertTopic (topicOf batch i) ts) topics pending.
Proof.
  revert topics. induction pending as [|j pending IH]; intros topics Hi; cbn [foldl].
  { by destruct Hi as [Hi%elem_of_nil|?]. }
  apply IH. rewrite elem_of_insertTopic. destruct Hi as [[->|?]%elem_of_cons|?]; auto.
Qed.
Lemma groups_ok_empty batch parts : groups_ok batch parts [] (mkGroups [] ∅).
Proof.
  split; cbn; [|constructor|].
  - intros k i. rewrite lookup_empty. split; [done|]. by intros (g & Hg & _).
  - intros i. split; [by intros ?%elem_of_nil|]. by intros (g & ?%elem_of_nil & _).
Qed.

Lemma topicsCover_pending batch parts pending pending' i :
  (forall i, i ∈ pending -> is_Some (batch !! i)) -> pending' `sublist_of` pending ->
  topicsCover batch [] parts pending' -> i ∈ pending' ->
  exists req n, batch !! i = Some req /\ parts !! rq_topic req = Some n /\ n <> 0.
Proof.
  intros Hin Hsub Hcover Hi. destruct (Hin i ltac:(by eapply elem_of_sublist)) as [req Hreq].
  destruct (Hcover i Hi) as [?%elem_of_nil|(n & Hn & Hne)]; [done|]. exists req, n.
  unfold topicOf in Hn. by rewrite Hreq in Hn.
Qed.

(** The requests that pass the guard, in order. *)
Lemma pending_facts (cfg : PublisherConfig) (batch : list OutboxPublishRequest) :
  let pending := filter (fun i => guarded (pb_topicPrefix cfg) batch i = true) (seq 0 (length batch)) in
  StronglySorted lt pending /\ forall i, i ∈ pending -> is_Some (batch !! i).
Proof.
  split.
  - eapply sorted_sublist; [apply sublist_filter|]. generalize 0%nat, (length batch). intros k m. revert k.
    induction m as [|m IH]; intros k; [constructor|]. cbn. constructor; [apply IH|].
    apply Forall_forall. intros j Hj. apply elem_of_seq in Hj. lia.
  - intros i [_ Hi]%list_elem_of_filter. apply lookup_lt_is_Some. apply elem_of_seq in Hi. lia.
Qed.
End batch.

(** ** Producing *)

Section publish.
Context {N : Type} `{!Transport N, !ProduceLaws N, !JsonFloat}.
Context (cfg : PublisherConfig).

Notation P := (PState N).
Import Publisher.

Definition since (n0 : N) (s : P) : Prop := grows n0 (ps_net s).

(** The batch of a group is in the log. *)
Definition delivered (n : N) (g : PubGroup) : Prop :=
  exists base ts, (base, encodeRecordBatch ts (g_kv g)) ∈ logAt n (bytesOf (g_topic g)) (g_partition g).

Lemma delivered_grows n n' g : grows n n' -> delivered n g -> delivered n' g.
Proof.
  intros Hg (base & ts & Hin). exists base, ts. destruct (Hg (bytesOf (g_topic g)) (g_partition g)) as [more ->].
  apply elem_of_app. by left.
Qed.

Lemma keeps_onNet_since {A} n0 (f : N -> N * A) : (forall n, grows n (f n).1) -> keeps (since n0) (onNet f).
Proof.
  intros Hf s Hs. unfold wp, onNet. specialize (Hf (ps_net s)). destruct (f (ps_net s)) as [n a].
  by eapply grows_trans.
Qed.

#[local] Hint Extern 1 (keeps (since _) (onNet _)) =>
  apply keeps_onNet_since; intros ?;
  first [apply steadyNow_grows|apply wallNow_grows|apply connectTo_grows|apply sendRequest_grows
        |apply recvResponse_grows|apply pause_grows|apply disconnect_grows] : effects.
#[local] Hint Extern 1 (keeps (since _) (modify _)) => by intros ? : effects.

Lemma keeps_rpc {A} n0 apiKey apiVersion body corr t (m : rd A) : keeps (since n0) (rpc apiKey apiVersion body corr t m).
Proof. unfold rpc. keeps_tac. Qed.
#[local] Hint Resolve keeps_rpc : effects.

Lemma keeps_metadata n0 rounds topic start dl : keeps (since n0) (metadataPartitions rounds topic start dl).
Proof.
  induction rounds as [|r IH]; cbn [metadataPartitions]; unfold remainingMs, nextCorrelation, sleep; keeps_tac.
Qed.

Lemma keeps_transportFailure n0 start dl : keeps (since n0) (transportFailure start dl).
Proof. unfold transportFailure, remainingMs. keeps_tac. Qed.
#[local] Hint Resolve keeps_metadata keeps_transportFailure : effects.

Lemma keeps_reconnect n0 rest os start dl : keeps (since n0) (reconnect cfg rest os start dl).
Proof. unfold reconnect, remainingMs. keeps_tac. Qed.
#[local] Hint Resolve keeps_reconnect : effects.
(** A group that can be addressed. *)
Definition addressable (g : PubGroup) : Prop := size (bytesOf (g_topic g)) < 2 ^ 15 /\ in32 (g_partition g).

Lemma produceBody_size topic p blob timeout : size blob <= size (produceBody topic p blob timeout).
Proof.
  unfold produceBody, ByteWriter.bytes_, ByteWriter.append. rewrite size_app.
  match goal with |- _ <= size ?x + _ => pose proof (size_nonneg x) end. lia.
Qed.

Lemma wp_produceGroup n0 g ts brokerTimeout t corr s :
  addressable g -> since n0 s ->
  wp (produceGroup (g_topic g) (g_partition g) (encodeRecordBatch ts (g_kv g)) brokerTimeout t corr)
    (fun o s' => since n0 s' /\ (o = Some 0 -> delivered (ps_net s') g)) (fun _ => since n0) s.
Proof.
  intros [Ht Hp] Hs. unfold produceGroup, rpc. set (blob := encodeRecordBatch ts (g_kv g)).
  set (body := produceBody _ _ blob _). apply wp_bind. unfold wp at 1, onNet.
  pose proof (sendRequest_grows 0 3 kClientId body corr t (ps_net s)) as Hg1.
  pose proof (send_refuses 0 3 kClientId body corr t (ps_net s)) as Href.
  destruct (sendRequest 0 3 kClientId body corr t (ps_net s)) as [n1 sent] eqn:Hsend. cbn [fst snd] in Hg1, Href.
  assert (since n0 (mkP n1 (ps_correlation s))) as Hs1 by (by eapply grows_trans).
  destruct sent; cbn [negb]; [|by apply wp_ret].
  assert (size blob < 2 ^ 31) as Hb.
  { destruct (Z.lt_ge_cases (size blob) (2 ^ 31)); [done|].
    pose proof (produceBody_size (bytesOf (g_topic g)) (g_partition g) blob brokerTimeout) as Hsz.
    fold body in Hsz. discriminate Href. lia. }
  apply wp_bind. unfold wp at 1, onNet. cbn [ps_net].
  pose proof (recvResponse_grows corr t n1) as Hg2.
  destruct (recvResponse corr t n1) as [n2 [resp|]] eqn:Hrecv; cbn [fst] in Hg2; cbn [ps_net ps_correlation];
    (assert (since n0 (mkP n2 (ps_correlation s))) as Hs2 by (by eapply grows_trans)); [|by apply wp_ret].
  subst body. rewrite produceBody_request in Hsend by done.
  destruct (produce_ok _ _ _ _ _ _ _ _ _ _ _ _ Ht Hp Hb Hsend Hrecv)
    as (err & base & time & throttle & -> & He & Hbase & Htime & Hlog).
  rewrite readProduced_reply by done. apply wp_ret. split; [done|]. intros [= ->].
  exists base, ts. by apply Hlog.
Qed.
(** The next step keeps the log, which is what [H] says of the state. *)
Ltac pass H :=
  lazymatch type of H with
  | since ?n _ =>
      eapply (wp_bind_keeps (since n)); [unfold remainingMs, nextCorrelation, sleep; solve [keeps_tac]|exact H|]
  end.

Lemma wp_produceLoop n0 rounds metaRounds g ts start dl s :
  addressable g -> since n0 s ->
  wp (produceLoop rounds metaRounds g (encodeRecordBatch ts (g_kv g)) start dl)
    (fun o s' => since n0 s' /\ (o = Some 0 -> delivered (ps_net s') g)) (fun _ => since n0) s.
Proof.
  intros Hg. revert s. induction rounds as [|r IH]; intros s Hs; [done|]. cbn [produceLoop].
  pass Hs. intros remain s1 Hs1.
  pass Hs1. intros corr s2 Hs2.
  apply wp_bind. eapply wp_mono; [apply (wp_produceGroup n0); [exact Hg|exact Hs2]| |done]. intros [errorCode|] s3 [Hs3 Hd]; [|by apply wp_ret].
  destruct ((errorCode =? 6) || (errorCode =? 5)) eqn:Hretry; [|by apply wp_ret].
  assert (errorCode <> 0) as Hne by (intros ->; done).
  pass Hs3. intros remain2 s4 Hs4.
  destruct (remain2 <=? 0); [apply wp_ret; split; [done|congruence]|].
  apply (wp_bind_keeps (since n0) _ _ _ _ _ (keeps_metadata n0 metaRounds (g_topic g) start dl) Hs4). intros parts s5 Hs5.
  destruct (parts <? 0); [by apply wp_ret|]. destruct (parts =? 0); [apply wp_ret; split; [done|congruence]|].
  pass Hs5. intros ? s6 Hs6. by apply IH.
Qed.
(** What the groups that were tried did to the outcomes. *)
Definition accounted (groups : list PubGroup) (os os' : list OutboxPublishOutcome) (n : N) : Prop :=
  length os' = length os /\
  forall i, okAt os' i -> okAt os i \/ exists g, g ∈ groups /\ i ∈ g_indexes g /\ delivered n g.

Lemma accounted_fail groups indexes f msg os n : accounted groups os (failAll indexes f msg os) n.
Proof. split; [apply setOutcomes_length|]. intros i Hi. left. by eapply failAll_ok. Qed.

Lemma accounted_trans groups rest os os1 os2 n n' :
  grows n n' -> accounted groups os os1 n -> accounted rest os1 os2 n' -> accounted (groups ++ rest) os os2 n'.
Proof.
  intros Hg [Hl1 H1] [Hl2 H2]. split; [congruence|]. intros i Hi. destruct (H2 i Hi) as [Hi1|(g & Hin & Hig & Hd)].
  - destruct (H1 i Hi1) as [?|(g & Hin & Hig & Hd)]; [by left|]. right. exists g. rewrite elem_of_app.
    split; [by left|]. split; [done|]. by eapply delivered_grows.
  - right. exists g. rewrite elem_of_app. auto.
Qed.

Lemma wp_reconnect n0 rest os start dl s :
  since n0 s ->
  wp (reconnect cfg rest os start dl)
    (fun o s' => since n0 s' /\ match o with Some os' => accounted [] os os' (ps_net s') | None => True end)
    (fun _ => since n0) s.
Proof.
  intros Hs. unfold reconnect. pass Hs. intros ? s1 Hs1. destruct rest as [|g rest]; [by apply wp_ret|].
  pass Hs1. intros remain s2 Hs2. destruct (remain <? 1); [apply wp_ret; split; [done|apply accounted_fail]|].
  pass Hs2. intros remain2 s3 Hs3. pass Hs3. intros ok s4 Hs4. destruct ok; [by apply wp_ret|].
  pass Hs4. intros f s5 Hs5. apply wp_ret. split; [done|apply accounted_fail].
Qed.

Lemma wp_produceGroups rounds groups os start dl s :
  Forall addressable groups ->
  wp (produceGroups cfg rounds groups os start dl)
    (fun os' s' => since (ps_net s) s' /\ accounted groups os os' (ps_net s')) (fun _ => since (ps_net s)) s.
Proof.
  intros Hg. revert os s. induction Hg as [|g rest Hg _ IH]; intros os s; cbn [produceGroups].
  { apply wp_ret. split; [apply grows_refl|]. split; [done|]. by left. }
  assert (forall os1 s1, since (ps_net s) s1 -> accounted [g] os os1 (ps_net s1) ->
    wp (produceGroups cfg rounds rest os1 start dl)
      (fun os' s' => since (ps_net s) s' /\ accounted (g :: rest) os os' (ps_net s')) (fun _ => since (ps_net s)) s1)
    as Hrest.
  { intros os1 s1 Hs1 H1. eapply wp_mono; [apply IH| |intros x s2 Hs2; by eapply grows_trans].
    intros os' s' [Hs' H']. split; [by eapply grows_trans|]. by eapply (accounted_trans [g]). }
  assert (since (ps_net s) s) as Hs by apply grows_refl. set (n0 := ps_net s) in *. clearbody n0.
  pass Hs. intros ts s1 Hs1.
  apply wp_bind. eapply wp_mono; [apply (wp_produceLoop n0); [exact Hg|exact Hs1]| |done].
  intros [errorCode|] s2 [Hs2 Hd].
  - apply Hrest; [done|]. split.
    + unfold produceOutcomes. destruct (produceFailure errorCode) as [[] msg]; apply setOutcomes_length.
    + intros i Hi. apply produceOutcomes_ok in Hi as [Hi|[Hi ->]]; [by left|right]. exists g.
      rewrite list_elem_of_singleton. auto.
  - pass Hs2. intros f s3 Hs3. apply wp_bind.
    eapply wp_mono; [apply (wp_reconnect n0); exact Hs3| |done]. intros [os'|] s4 [Hs4 H4].
    + apply wp_ret. split; [done|]. eapply (accounted_trans [] (g :: rest) _ _ _ (ps_net s4));
        [apply grows_refl|apply accounted_fail|].
      destruct H4 as [Hl H4]. split; [done|]. intros i Hi. left. by destruct (H4 i Hi) as [?|(? & Hin%elem_of_nil & _)].
    + apply Hrest; [done|]. apply accounted_fail.
Qed.

(** ** The call *)

Context (batch : list OutboxPublishRequest).
Context (topics_short : Forall (fun r => size (bytesOf (rq_topic r)) < 2 ^ 15) batch).

(** A published request belongs to a group whose batch is in the log. *)
Definition reported (os : list OutboxPublishOutcome) (n : N) : Prop :=
  length os = length batch /\
  exists parts done_ gs, groups_ok batch parts done_ gs /\
    forall i, okAt os i -> exists g, g ∈ gs_groups gs /\ i ∈ g_indexes g /\ delivered n g.

Lemma groups_addressable parts done_ gs : groups_ok batch parts done_ gs -> Forall addressable (gs_groups gs).
Proof.
  intros [_ Hg _]. eapply Forall_impl; [exact Hg|]. intros g [_ Hp _ Hne].
  destruct (g_indexes g) as [|i more]; [done|]. apply Forall_cons in Hp as [(req & n & Hb & _ & Hk) _].
  injection Hk as Ht Hpart. split.
  - rewrite Ht. rewrite Forall_forall in topics_short. apply topics_short. by eapply list_elem_of_lookup_2.
  - rewrite Hpart. apply (wrapS_range 32). lia.
Qed.

(** No outcome is ok yet. *)
Lemma nothing_reported os os' n :
  length os = length batch -> (forall i, ~ okAt os i) -> accounted [] os os' n -> reported os' n.
Proof.
  intros Hl Hno [Hl' Ha]. split; [congruence|]. exists ∅, [], (mkGroups [] ∅). split; [apply groups_ok_empty|].
  intros i Hi. destruct (Ha i Hi) as [?|(g & ?%elem_of_nil & _)]; [|done]. by destruct (Hno i).
Qed.

Lemma wp_transport_since n0 start dl s :
  since n0 s -> wp (transportFailure start dl) (fun f s' => since n0 s' /\ f <> PubNone) (fun _ => since n0) s.
Proof.
  intros Hs. unfold transportFailure. pass Hs. intros r s1 Hs1. apply wp_ret. split; [done|]. by destruct (r <=? 0).
Qed.

Lemma wp_publishPending pending os start dl s :
  length os = length batch -> (forall i, ~ okAt os i) ->
  StronglySorted lt pending -> (forall i, i ∈ pending -> is_Some (batch !! i)) ->
  wp (publishPending cfg batch pending os start dl) (fun os' s' => reported os' (ps_net s')) (fun _ _ => True) s.
Proof.
  intros Hl Hno Hsort Hin. assert (since (ps_net s) s) as Hs by apply grows_refl.
  set (n0 := ps_net s) in *. clearbody n0. unfold publishPending.
  eapply wp_mono with (E := fun _ => since n0); [|exact (fun _ _ H => H)|done].
  pass Hs. intros remain s1 Hs1. pass Hs1. intros ok s2 Hs2. destruct ok; cbn [negb].
  2:{ pass Hs2. intros f s3 Hs3. apply wp_ret. eapply nothing_reported; [exact Hl|exact Hno|apply accounted_fail]. }
  apply wp_bind. eapply wp_mono;
    [eapply (wp_resolveTopics (since n0) (fun _ => since n0) (fun os' => forall n, accounted [] os os' n))| |done].
  { intros t. apply keeps_metadata. }
  { apply wp_transport_since. }
  { intros indexes f msg os1 _ H1 n.
    eapply (accounted_trans [] [] _ _ _ n); [apply grows_refl|apply H1|apply accounted_fail]. }
  { intros i Hi. left. apply topics_of_pending. by left. }
  { exact Hs2. }
  { intros n. split; [done|by left]. }
  intros [os'|[[pending' parts] os']] s3 [Hs3 Hr].
  { apply wp_ret. eapply nothing_reported; [exact Hl|exact Hno|apply Hr]. }
  destruct Hr as (Ha & Hsub & Hcover). specialize (Ha (ps_net s3)).
  destruct pending' as [|i0 rest]; [apply wp_ret; by eapply nothing_reported|].
  set (pending' := i0 :: rest) in *. clearbody pending'.
  apply wp_bind. eapply wp_mono; [eapply (wp_buildGroups batch parts [] pending')|..].
  { apply groups_ok_empty. }
  { by eapply sorted_sublist. }
  { intros i. by eapply topicsCover_pending. }
  2:{ intros x s4 [-> _]. exact Hs3. }
  intros gs s4 [-> Hgs]. eapply wp_mono; [apply wp_produceGroups; by eapply groups_addressable| |].
  - intros os2 s5 [Hs5 [Hl2 Hacc]]. split; [destruct Ha; congruence|]. exists parts, pending', gs. split; [done|].
    intros i Hi. destruct (Hacc i Hi) as [Hi'|?]; [|done].
    destruct Ha as [_ Ha]. destruct (Ha i Hi') as [?|(g & ?%elem_of_nil & _)]; [by destruct (Hno i)|done].
  - intros x s5 Hs5. by eapply grows_trans.
Qed.

Lemma reported_grows os n n' : grows n n' -> reported os n -> reported os n'.
Proof.
  intros Hg (Hl & parts & done_ & gs & Hgs & Hr). split; [done|]. exists parts, done_, gs. split; [done|].
  intros i Hi. destruct (Hr i Hi) as (g & ? & ? & Hd). exists g. split; [done|]. split; [done|]. by eapply delivered_grows.
Qed.

Lemma wp_publish deadlineMs s :
  wp (publish cfg batch deadlineMs) (fun os s' => reported os (ps_net s')) (fun _ _ => True) s.
Proof.
  assert (Hl : length (guardOutcomes (pb_topicPrefix cfg) batch) = length batch) by apply length_imap.
  assert (Hno : forall i, ~ okAt (guardOutcomes (pb_topicPrefix cfg) batch) i) by apply guardOutcomes_ok.
  assert (Hnone : forall n, reported (guardOutcomes (pb_topicPrefix cfg) batch) n)
    by (intros n; eapply nothing_reported; [exact Hl|exact Hno|]; split; [done|by left]).
  assert (batch = [] \/ exists r rest, batch = r :: rest) as Hcase by (destruct batch; eauto).
  unfold publish. destruct Hcase as [Hb|(r & rest & Hb)].
  { specialize (Hnone (ps_net s)). rewrite Hb in Hnone |- *. exact Hnone. }
  rewrite Hb at 1. apply wp_bind. unfold wp at 1, onNet. destruct (steadyNow (ps_net s)) as [n1 start].
  destruct (pending_facts cfg batch) as [Hsort Hin]. set (pending := filter _ _) in *. clearbody pending.
  destruct pending as [|i0 more]; [apply wp_ret, Hnone|]. apply wp_bind, wp_modify, wp_catch, wp_bind.
  eapply wp_mono; [apply wp_publishPending; [exact Hl|exact Hno|exact Hsort|exact Hin]| |].
  - intros os s2 Hr. unfold wp. cbn. eapply reported_grows; [apply disconnect_grows|exact Hr].
  - intros x s2 _. done.
Qed.

(** One group per place. *)
Lemma group_unique parts done_ gs g g' :
  groups_ok batch parts done_ gs -> g ∈ gs_groups gs -> g' ∈ gs_groups gs -> groupKey g = groupKey g' -> g = g'.
Proof.
  intros Hgs Hg Hg' Hk. apply list_elem_of_lookup in Hg as [i Hi]. apply list_elem_of_lookup in Hg' as [j Hj].
  assert (gs_byKey gs !! groupKey g = Some i) as H1 by (apply (gk_keys _ _ _ _ Hgs); eauto).
  assert (gs_byKey gs !! groupKey g = Some j) as H2 by (apply (gk_keys _ _ _ _ Hgs); eauto). congruence.
Qed.

Lemma sorted_positions (l : list nat) a b i j :
  StronglySorted lt l -> l !! a = Some i -> l !! b = Some j -> (i < j)%nat -> (a < b)%nat.
Proof.
  intros Hs Ha Hb Hij. destruct (decide (a < b)%nat) as [|Hge]; [done|]. exfalso.
  destruct (decide (a = b)) as [->|Hne]; [rewrite Ha in Hb; injection Hb as ->; lia|].
  assert (exists l1 l2, l = l1 ++ l2 /\ j ∈ l1 /\ i ∈ l2) as (l1 & l2 & -> & Hj & Hi).
  { exists (take a l), (drop a l). rewrite take_drop. split; [done|]. split; apply list_elem_of_lookup.
    - exists b. by rewrite lookup_take_lt by lia.
    - exists 0%nat. by rewrite lookup_drop, Nat.add_0_r. }
  apply sorted_app_inv in Hs as (_ & _ & H12). specialize (H12 j i Hj Hi). lia.
Qed.

(** What the group of a request holds of it. *)
Lemma group_member parts done_ gs g i req :
  groups_ok batch parts done_ gs -> g ∈ gs_groups gs -> i ∈ g_indexes g -> batch !! i = Some req ->
  exists a value n, g_indexes g !! a = Some i /\ dump (envelopeOf req) = Some value /\
    g_kv g !! a = Some (keyOf req, bytesOf value) /\
    parts !! rq_topic req = Some n /\ groupKey g = (rq_topic req, i32 (rq_conversationId req mod n)).
Proof.
  intros Hgs Hg Hig Hreq. pose proof (gk_groups _ _ _ _ Hgs) as Hall.
  rewrite Forall_forall in Hall. destruct (Hall g Hg) as [Hrec Hplace _ _].
  apply list_elem_of_lookup in Hig as [a Ha].
  destruct (Forall2_lookup_l _ _ _ _ _ Hrec Ha) as (kv & Hkv & req1 & value & Hb1 & Hv & ->).
  destruct (Forall_lookup_1 _ _ _ _ Hplace Ha) as (req2 & n & Hb2 & Hn & Hk).
  rewrite Hreq in Hb1, Hb2. injection Hb1 as <-. injection Hb2 as <-. exists a, value, n.
  split; [exact Ha|]. split; [exact Hv|]. split; [exact Hkv|]. split; [exact Hn|exact Hk].
Qed.

(** Published means stored: there is an outcome for every request, and a request
    whose outcome is ok is in the log of its topic. *)
Lemma publish_logs deadlineMs s s' os :
  publish cfg batch deadlineMs s = (s', Ret os) ->
  length os = length batch /\
  forall i req, batch !! i = Some req -> okAt os i ->
    exists p base ts pairs value, dump (envelopeOf req) = Some value /\ (keyOf req, bytesOf value) ∈ pairs /\
      (base, encodeRecordBatch ts pairs) ∈ logAt (ps_net s') (bytesOf (rq_topic req)) p.
Proof.
  intros Hrun. pose proof (wp_publish deadlineMs s) as Hwp. unfold wp in Hwp. rewrite Hrun in Hwp.
  destruct Hwp as (Hl & parts & done_ & gs & Hgs & Hr). split; [done|]. intros i req Hreq Hi.
  destruct (Hr i Hi) as (g & Hg & Hig & base & ts & Hlog).
  destruct (group_member _ _ _ _ _ _ Hgs Hg Hig Hreq) as (a & value & n & _ & Hv & Hkv & _ & Hk).
  injection Hk as Ht Hp. rewrite Ht, Hp in Hlog.
  eexists _, base, ts, (g_kv g), value. split; [exact Hv|]. split; [by eapply list_elem_of_lookup_2|exact Hlog].
Qed.

(** C27: Order of a conversation: two requests of one conversation and one topic that
    are both published in a call are in the same record batch of the log, in the
    order in which the caller passed them. *)
Theorem published_in_order deadlineMs s s' os i j ri rj :
  publish cfg batch deadlineMs s = (s', Ret os) -> (i < j)%nat ->
  batch !! i = Some ri -> batch !! j = Some rj -> rq_topic ri = rq_topic rj ->
  rq_conversationId ri = rq_conversationId rj -> okAt os i -> okAt os j ->
  exists p base ts pairs a b vi vj, (a < b)%nat /\
    dump (envelopeOf ri) = Some vi /\ dump (envelopeOf rj) = Some vj /\
    pairs !! a = Some (keyOf ri, bytesOf vi) /\ pairs !! b = Some (keyOf rj, bytesOf vj) /\
    (base, encodeRecordBatch ts pairs) ∈ logAt (ps_net s') (bytesOf (rq_topic ri)) p.
Proof.
  intros Hrun Hij Hri Hrj Ht Hc Hi Hj. pose proof (wp_publish deadlineMs s) as Hwp. unfold wp in Hwp. rewrite Hrun in Hwp.
  destruct Hwp as (Hl & parts & done_ & gs & Hgs & Hr).
  destruct (Hr i Hi) as (g & Hg & Hig & base & ts & Hlog). destruct (Hr j Hj) as (g' & Hg' & Hjg & _).
  destruct (group_member _ _ _ _ _ _ Hgs Hg Hig Hri) as (a & vi & n & Ha & Hvi & Hkvi & Hn & Hk).
  destruct (group_member _ _ _ _ _ _ Hgs Hg' Hjg Hrj) as (b & vj & n' & Hb & Hvj & Hkvj & Hn' & Hk').
  rewrite <- Ht in Hn', Hk'. rewrite <- Hc in Hk'. rewrite Hn in Hn'. injection Hn' as <-.
  assert (g = g') as <- by (eapply group_unique; [exact Hgs|done|done|congruence]).
  injection Hk as Htop Hp. rewrite Htop, Hp in Hlog.
  eexists _, base, ts, (g_kv g), a, b, vi, vj.
  split; [|split; [exact Hvi|split; [exact Hvj|split; [exact Hkvi|split; [exact Hkvj|exact Hlog]]]]].
  eapply sorted_positions; [|exact Ha|exact Hb|exact Hij].
  pose proof (gk_groups _ _ _ _ Hgs) as Hall. rewrite Forall_forall in Hall. apply (Hall g Hg).
Qed.
End publish.
