(* ===== verification/KafkaPipeline.v ===== *)
(** * From the publisher to the consumer

    The publisher and the consumer have connections of their own to one broker.
    The consumer reads the envelope the publisher wrote, and a published message is
    settled by the time the consumer's cursor has passed its record. *)

From S2P Require Import Prelude DomainTypes Json Store World Relay Bytes KafkaWire KafkaWireInv KafkaClient KafkaReplies.
From S2P Require Import KafkaBroker KafkaConsumer KafkaConsumerInv JsonText KafkaPublisher KafkaPublisherInv.

Open Scope Z_scope.

#[local] Opaque dump bytesOf textOf keyOf.

(** A request that the outbox can hold: 64-bit numbers and a payload that is the
    text of a JSON object, with an envelope that the parser of thirdparty/json.hpp
    reads back from the text its writer makes of it. *)
Record requestOk `{!JsonLib, !JsonFloat} (req : OutboxPublishRequest) : Prop := {
  ro_message : 0 <= ev_aggregateMessageId (rq_event req) < 2 ^ 64;
  ro_conversation : 0 <= rq_conversationId req < 2 ^ 64;
  ro_sequence : 0 <= rq_sequence req < 2 ^ 64;
  ro_object : exists fields, json_parse (ev_payload (rq_event req)) = Some (JObj fields);
  ro_readBack text : dump (envelopeOf req) = Some text -> json_parse text = Some (envelopeOf req);
}.

(** What the consumer makes of the record of a request. *)
Definition consumedRequest (topic : string) (p offset : Z) (req : OutboxPublishRequest) : ConsumedOutboxRecord :=
  mkConsumed topic p offset (ev_aggregateMessageId (rq_event req)) (rq_conversationId req) (rq_sequence req)
    (ev_eventType (rq_event req)) (ev_payload (rq_event req)).

Section envelope.
Context `{!JsonLib, !JsonFloat}.

Lemma envelopeOf_fields req :
  envelopeOf req =
  JObj [("conversation_id", JInt (rq_conversationId req)); ("event_type", JStr (ev_eventType (rq_event req)));
        ("message_id", JInt (ev_aggregateMessageId (rq_event req)));
        ("payload", JStr (ev_payload (rq_event req))); ("sequence", JInt (rq_sequence req))]%string.
Proof. reflexivity. Qed.

Lemma unsignedField_Some k fields z :
  assoc k fields = Some (JInt z) -> 0 <= z < 2 ^ 64 -> unsignedField k (JObj fields) = Some z.
Proof.
  intros Hk Hz. unfold unsignedField, jfield. rewrite Hk. unfold is_number_unsigned.
  destruct (Z.leb_spec 0 z); [|lia]. by rewrite u64_small by (split; lia).
Qed.

Lemma envelope_roundtrip req value :
  requestOk req -> dump (envelopeOf req) = Some value ->
  readEnvelope (json_parse (textOf (bytesOf value))) =
  Some (mkEnvelope (ev_aggregateMessageId (rq_event req)) (rq_conversationId req) (rq_sequence req)
          (ev_eventType (rq_event req)) (ev_payload (rq_event req))).
Proof.
  intros [Hm Hc Hq (fields & Hf) Hback] Hd. rewrite textOf_bytesOf, (Hback value Hd), envelopeOf_fields.
  match goal with |- context [JObj ?fs] => set (flds := fs) end. unfold readEnvelope. cbn [mbind option_bind].
  rewrite (unsignedField_Some "message_id" flds (ev_aggregateMessageId (rq_event req)) eq_refl Hm). cbn [mbind option_bind].
  rewrite (unsignedField_Some "conversation_id" flds (rq_conversationId req) eq_refl Hc). cbn [mbind option_bind].
  rewrite (unsignedField_Some "sequence" flds (rq_sequence req) eq_refl Hq). cbn [mbind option_bind].
  unfold stringField. change (jfield "event_type" _) with (Some (JStr (ev_eventType (rq_event req)))).
  cbn [mbind option_bind]. change (jfield "payload" _) with (Some (JStr (ev_payload (rq_event req)))).
  cbn [mbind option_bind]. by rewrite Hf.
Qed.
End envelope.

(** The records of a batch are determined by its bytes. *)
Lemma batch_determines_records p base ts pairs b :
  batchOk b -> sb_base b = base -> encodeRecordBatch (sb_ts b) (sb_pairs b) = encodeRecordBatch ts pairs ->
  recordsOf p b = fetched p base 0 pairs.
Proof.
  intros Hb <- Henc. set (b' := mkStored (sb_base b) ts pairs).
  assert (batchOk b') as Hb' by (destruct Hb as [H1 H2]; split; [done|by rewrite Henc in H2]).
  assert (recordSet [b'] = recordSet [b]) as Hset 
    by (unfold recordSet, batchBytes; cbn [map concat sb_base sb_ts sb_pairs b']; by rewrite Henc).
  assert (size (recordSet [b]) < 2 ^ 62) as Hs.
  { unfold recordSet. cbn [map concat]. rewrite app_nil_r. destruct (size_batch b) as [H1 H2]. destruct Hb. lia. }
  pose proof (parseBatches_at 1 p [b] [] ltac:(by apply Forall_singleton) Hs (le_n 1)) as H1.
  pose proof (parseBatches_at 1 p [b'] [] ltac:(by apply Forall_singleton)
    ltac:(cbn [app]; by rewrite Hset) (le_n 1)) as H2.
  cbn [app] in H1, H2. rewrite Hset, H1 in H2. cbn [map concat] in H2. rewrite !app_nil_r in H2.
  by injection H2.
Qed.

(** A record of a batch has the value of its pair. *)
Lemma fetched_value p base k pairs kv :
  kv ∈ pairs -> exists r, r ∈ fetched p base k pairs /\ fr_value r = kv.2 /\ fr_partition r = p.
Proof.
  revert k. induction pairs as [|kv' pairs IH]; intros k Hin; [by apply elem_of_nil in Hin|]. cbn [fetched].
  apply elem_of_cons in Hin as [->|Hin].
  - eexists. split; [by left|done].
  - destruct (IH (k + 1) Hin) as (r & Hr & ?). exists r. split; [by right|done].
Qed.

(** ** One broker *)

Section pipeline.
Context {St E N1 N2 : Type} `{!MessageStore St, !Env E, !Transport N1, !Transport N2}.
Context `{!JsonLib, !JsonFloat, !ProduceLaws N1}.
Context (pcfg : PublisherConfig) (ccfg : ConsumerConfig).
Context (handler : ConsumedOutboxRecord -> eff exn (World St E) ConsumeDisposition).
Context (hook : option (eff exn (World St E) unit)).
Context `{!Broker N2 (topic ccfg) (bytesOf (kc_groupId ccfg))}.
Context (topic_short : size (topic ccfg) < 2 ^ 15) (group_short : size (bytesOf (kc_groupId ccfg)) < 2 ^ 15).

(** Both connections see one log: what the producer was told is stored, the
    consumer's side of the broker has. *)
Definition sameLog (n1 : N1) (n2 : N2) : Prop :=
  forall p base blob, (base, blob) ∈ logAt n1 (topic ccfg) p ->
    exists b, b ∈ logOf n2 p /\ sb_base b = base /\ encodeRecordBatch (sb_ts b) (sb_pairs b) = blob.

(** C26: End to end over one broker that keeps its promises: a message whose publish
    was reported as ok has a record in the log that the consumer reads as that
    message (its ids, sequence number, type and payload), and once the consumer's
    cursor has passed the record, through any number of polls, crashes and restarts,
    the message is settled: handled, dead-lettered, or a repetition of a message that
    was handled.  Wherever the consumer started, no record of the log was skipped.
    The request is one that the outbox can hold ([requestOk]). *)
Theorem published_message_is_settled batch deadlineMs s s' os i req (k : KWorld St E N2) :
  Forall (fun r => size (bytesOf (rq_topic r)) < 2 ^ 15) batch ->
  Publisher.publish pcfg batch deadlineMs s = (s', Ret os) ->
  batch !! i = Some req -> okAt os i -> rq_topic req = kc_topic ccfg -> requestOk req ->
  consumed ccfg handler hook k -> sameLog (ps_net s') (k_net k) ->
  exists p r, r ∈ logRecords p (logOf (k_net k) p) /\
    consumedOf ccfg r = consumedRequest (kc_topic ccfg) p (fr_offset r) req /\
    forall o, im_cursor (k_impl k) !! p = Some o -> fr_offset r < o ->
      settled ccfg (im_trace (k_impl k)) r.
Proof.
  intros Hshort Hrun Hreq Hok Htopic Hreqok Hk Hsame.
  destruct (publish_logs pcfg batch Hshort deadlineMs s s' os Hrun) as [_ Hlog].
  destruct (Hlog i req Hreq Hok) as (p & base & ts & pairs & value & Hv & Hkv & Hin).
  rewrite Htopic in Hin. destruct (Hsame p base _ Hin) as (b & Hb & Hbase & Henc).
  assert (batchOk b) as Hbok.
  { destruct (log_ok (k_net k) p) as [Hall _ _]. rewrite Forall_forall in Hall. by apply Hall. }
  destruct (fetched_value p base 0 pairs _ Hkv) as (r & Hr & Hval & Hp). cbn [snd] in Hval.
  rewrite <- (batch_determines_records p base ts pairs b Hbok Hbase Henc) in Hr.
  assert (r ∈ logRecords p (logOf (k_net k) p)) as Hrec by (apply elem_logRecords; exists b; split; [exact Hb|exact Hr]).
  exists p, r. split; [exact Hrec|]. split.
  - unfold consumedOf. rewrite Hval, (envelope_roundtrip req value Hreqok Hv), Hp. reflexivity.
  - intros o Ho Hlt. apply consumed_ok in Hk; [|done|done].
    destruct (co_cursor _ _ _ Hk p o Ho) as (f & Hf & [_ Hset]). apply Hset; [exact Hrec|].
    split; [|exact Hlt]. eapply earliestAt_le; [|exact Hrec]. by apply (co_origins _ _ _ Hk).
Qed.
End pipeline.
