(* ===== verification/KafkaLive.v ===== *)
(** * The Kafka clients return

    The readers of replies fail cleanly on any bytes, the retry loops end at the
    deadline, and so a call of the publisher or of the consumer returns a result,
    whatever the broker sends or does not send. *)

From S2P Require Import Prelude DomainTypes Json Store World Relay Bytes KafkaWire KafkaWireInv KafkaClient KafkaReplies.
From S2P Require Import KafkaBroker KafkaConsumer KafkaConsumerInv JsonText KafkaPublisher KafkaPublisherInv.

Open Scope Z_scope.

(** ** Readers *)

(** With [k] bytes left, [m] reads something or fails, and stays in the data. *)
Definition rsafeAt {A} (k : Z) (m : rd A) : Prop :=
  forall data pos, size data < 2 ^ 62 -> 0 <= pos -> pos + k <= size data ->
    match m data pos with
    | (pos', (RTrue _ | RFalse)) => 0 <= pos' <= size data
    | _ => False
    end.

Definition rsafe {A} (m : rd A) : Prop := rsafeAt 0 m.

Lemma rsafe_ret {A} (a : A) : rsafe (rret a).
Proof. intros data pos Hd Hp Hk. cbn. lia. Qed.

Lemma rsafe_fail {A} : rsafe (@rfail A).
Proof. intros data pos Hd Hp Hk. cbn. lia. Qed.

Lemma rsafe_bind {A B} (m : rd A) (f : A -> rd B) : rsafe m -> (forall a, rsafe (f a)) -> rsafe (rbind m f).
Proof.
  intros Hm Hf data pos Hd Hp Hk. unfold rbind. specialize (Hm data pos Hd Hp Hk).
  destruct (m data pos) as [pos' [a| | | |]]; try done. apply Hf; lia.
Qed.

Lemma rsafe_require {A} (b : bool) (f : rd A) : (b = true -> rsafe f) -> rsafe (rbind (require b) (fun _ => f)).
Proof. destruct b; [|intros _ data pos Hd Hp Hk; cbn; lia]. intros Hf. exact (Hf eq_refl). Qed.

(** A checked read: [k] bytes are left when the rest is reached. *)
Lemma rsafe_need {A} (k : Z) (f : rd A) :
  0 <= k -> rsafeAt k f -> rsafe (rbind ByteReader.remaining (fun r => rbind (require (k <=? r)) (fun _ => f))).
Proof.
  intros Hk Hf data pos Hd Hp Hpk. unfold rbind at 1, ByteReader.remaining.
  rewrite u64_small by (split; lia). destruct (Z.leb_spec k (size data - pos)); [|cbn; lia].
  apply (Hf data pos); lia.
Qed.

Lemma rsafe_char {A} k i (f : Z -> rd A) :
  0 <= i < k -> (forall b, rsafeAt k (f b)) -> rsafeAt k (rbind (charAt i) f).
Proof.
  intros Hi Hf data pos Hd Hp Hk. unfold rbind, charAt. destruct (Z.eqb_spec (pos + i) (size data)); [lia|].
  destruct (Z.ltb_spec (pos + i) (size data)); [|lia].
  destruct (lookup_lt_is_Some_2 data (Z.to_nat (pos + i))) as [b ->]; [unfold size in *; lia|]. by apply Hf.
Qed.

Lemma rsafe_advance {A} k n (f : rd A) : 0 <= n <= k -> rsafe f -> rsafeAt k (rbind (advance n) (fun _ => f)).
Proof.
  intros Hn Hf data pos Hd Hp Hk. unfold rbind, advance. rewrite u64_small by (split; lia). apply Hf; lia.
Qed.

Lemma rsafe_i8 : rsafe ByteReader.i8.
Proof. apply rsafe_need; [lia|]. apply rsafe_char; [lia|]. intros b. apply rsafe_advance; [lia|apply rsafe_ret]. Qed.

Lemma rsafe_i16 : rsafe ByteReader.i16.
Proof.
  apply rsafe_need; [lia|]. do 2 (apply rsafe_char; [lia|intros ?]). apply rsafe_advance; [lia|apply rsafe_ret].
Qed.

Lemma rsafe_i32 : rsafe ByteReader.i32.
Proof.
  apply rsafe_need; [lia|]. do 4 (apply rsafe_char; [lia|intros ?]). apply rsafe_advance; [lia|apply rsafe_ret].
Qed.

Lemma i64Loop_reads n i v data pos :
  0 <= i -> i + Z.of_nat n <= 8 -> 0 <= pos -> pos + 8 <= size data ->
  exists v', ByteReader.i64Loop n i v data pos = (pos, RTrue v').
Proof.
  revert i v. induction n as [|n IH]; intros i v Hi Hn Hp Hk; [by eexists|].
  cbn [ByteReader.i64Loop]. unfold rbind, charAt. destruct (Z.eqb_spec (pos + i) (size data)); [lia|].
  destruct (Z.ltb_spec (pos + i) (size data)); [|lia].
  destruct (lookup_lt_is_Some_2 data (Z.to_nat (pos + i))) as [b ->]; [unfold size in *; lia|]. apply IH; lia.
Qed.

Lemma rsafe_i64 : rsafe ByteReader.i64.
Proof.
  apply rsafe_need; [lia|]. intros data pos Hd Hp Hk.
  destruct (i64Loop_reads 8 0 0 data pos) as [v Hv]; [lia..|]. unfold rbind at 1. rewrite Hv.
  pose proof (rsafe_advance 8 8 (rret (i64 v)) ltac:(lia) (rsafe_ret _) data pos Hd Hp Hk) as Hs. exact Hs.
Qed.

Lemma rsafe_takeBytes len : 0 <= len -> rsafe (ByteReader.takeBytes len).
Proof.
  intros Hl. apply rsafe_need; [done|]. intros data pos Hd Hp Hk. unfold rbind at 1, KafkaWire.assign.
  destruct (Z.ltb_spec (size data) pos); [lia|].
  pose proof (rsafe_advance len len (rret (take (Z.to_nat len) (drop (Z.to_nat pos) data))) ltac:(lia)
    (rsafe_ret _) data pos Hd Hp Hk) as Hs. exact Hs.
Qed.

Create HintDb rsafe.
#[export] Hint Resolve rsafe_ret rsafe_fail rsafe_i8 rsafe_i16 rsafe_i32 rsafe_i64 : rsafe.

(** Decompose along the reader. *)
Ltac rsafe_tac :=
  repeat (first
    [ solve [auto with rsafe]
    | lazymatch goal with
      | |- rsafe (rbind _ _) => apply rsafe_bind; [|intros ?]
      | |- rsafe (match ?x with _ => _ end) => destruct x eqn:?
      end ]).

Lemma rsafe_str : rsafe ByteReader.str.
Proof.
  unfold ByteReader.str. apply rsafe_bind; [auto with rsafe|]. intros len. apply rsafe_require. intros Hl.
  apply rsafe_takeBytes. apply negb_true_iff in Hl. lia.
Qed.

Lemma rsafe_bool : rsafe ByteReader.bool_.
Proof. unfold ByteReader.bool_. rsafe_tac. Qed.

Lemma rsafe_nullableStr : rsafe ByteReader.nullableStr.
Proof.
  unfold ByteReader.nullableStr. apply rsafe_bind; [auto with rsafe|]. intros len.
  destruct (Z.ltb_spec len 0); [auto with rsafe|]. apply rsafe_bind; [by apply rsafe_takeBytes|auto with rsafe].
Qed.
#[export] Hint Resolve rsafe_str rsafe_bool rsafe_nullableStr : rsafe.

Lemma rsafe_rtimes {A} n (body : A -> rd A) a : (forall a, rsafe (body a)) -> rsafe (rtimes n body a).
Proof. intros Hb. revert a. induction n as [|n IH]; intros a; cbn [rtimes]; rsafe_tac. Qed.

Lemma rsafe_rcount {A} (body : A -> rd A) a : (forall a, rsafe (body a)) -> rsafe (rcount body a).
Proof. intros Hb. apply rsafe_bind; [auto with rsafe|]. intros n. by apply rsafe_rtimes. Qed.
#[export] Hint Resolve rsafe_rcount : rsafe.

Lemma rsafe_req b : rsafe (require b).
Proof. destruct b; intros data pos Hd Hp Hk; cbn; lia. Qed.
#[export] Hint Resolve rsafe_req : rsafe.

(** *** The replies of the publisher *)

Lemma rsafe_skipBrokers : rsafe skipBrokers.
Proof.
  unfold skipBrokers. apply rsafe_bind; [|intros ?; rsafe_tac]. apply rsafe_rcount. intros ?. unfold skipBroker. rsafe_tac.
Qed.

Lemma rsafe_partitionMeta : rsafe readPartitionMeta.
Proof. unfold readPartitionMeta. rsafe_tac; apply rsafe_rcount; intros ?; unfold skipInt; rsafe_tac. Qed.
#[export] Hint Resolve rsafe_skipBrokers rsafe_partitionMeta : rsafe.

Lemma rsafe_topicVerdict t : rsafe (readTopicVerdict t).
Proof.
  unfold readTopicVerdict. apply rsafe_bind; [auto with rsafe|]. intros _. apply rsafe_bind; [auto with rsafe|].
  intros n. induction (Z.to_nat n) as [|m IH]; cbn [readVerdict]; rsafe_tac.
  apply rsafe_rcount. intros ?. unfold countPartition. rsafe_tac.
Qed.

Lemma rsafe_findError n p : rsafe (findError n p).
Proof. induction n as [|n IH]; cbn [findError]; rsafe_tac. Qed.
#[export] Hint Resolve rsafe_findError : rsafe.

Lemma rsafe_readProduced p : rsafe (readProduced p).
Proof.
  unfold readProduced. apply rsafe_bind; [auto with rsafe|]. intros n.
  induction (Z.to_nat n) as [|m IH]; cbn [findProduced]; rsafe_tac.
Qed.

(** *** The replies of the consumer *)

Lemma rsafe_readMetadata t : rsafe (readMetadata t).
Proof.
  unfold readMetadata. apply rsafe_bind; [auto with rsafe|]. intros _. apply rsafe_rcount. intros a.
  unfold readTopicMeta. rsafe_tac. apply rsafe_rcount. intros ?. rsafe_tac.
Qed.

Lemma rsafe_topics {A} (body : bytes -> A -> rd A) a :
  (forall name a, rsafe (body name a)) -> rsafe (readTopics body a).
Proof.
  intros Hb. unfold readTopics. apply rsafe_rcount. intros a'. apply rsafe_bind; [auto with rsafe|].
  intros name. by apply rsafe_rcount.
Qed.

Lemma rsafe_readListOffsets t : rsafe (readListOffsets t).
Proof.
  apply rsafe_topics. intros name a. unfold readListedOffset. rsafe_tac.
Qed.

Lemma rsafe_readOffsetFetch t : rsafe (readOffsetFetch t).
Proof.
  unfold readOffsetFetch. apply rsafe_bind.
  { apply rsafe_topics. intros name a. unfold readFetchedOffset. rsafe_tac. }
  intros out. apply rsafe_bind; [|intros [e|]; rsafe_tac].
  intros data pos Hd Hp Hk. unfold rtry. pose proof (rsafe_i16 data pos Hd Hp Hk) as Hs.
  by destruct (ByteReader.i16 data pos) as [pos' []].
Qed.

Lemma rsafe_readOffsetCommit t toCommit : rsafe (readOffsetCommit t toCommit).
Proof. apply rsafe_topics. intros name a. unfold readCommitted. rsafe_tac. Qed.

(** ** The clock

    Time does not go back, a pause takes its time, and a reply is shorter than
    2^31 bytes (its length is a signed 32-bit number). *)
Class ClockLaws (N : Type) `{!Transport N} := {
  clock : N -> Z;
  steadyNow_clock n : clock n <= clock (steadyNow n).1 /\ (steadyNow n).2 = clock (steadyNow n).1;
  wallNow_clock n : clock n <= clock (wallNow n).1;
  pause_clock ms n : clock n + ms <= clock (pause ms n);
  connectTo_clock h q t n : clock n <= clock (connectTo h q t n).1;
  sendRequest_clock k v c b i t n : clock n <= clock (sendRequest k v c b i t n).1;
  recvResponse_clock i t n : clock n <= clock (recvResponse i t n).1;
  disconnect_clock n : clock n <= clock (disconnect n);
  recv_small i t n r : (recvResponse i t n).2 = Some r -> size r < 2 ^ 31;
}.

(** Outcomes that tell of a failure what it was. *)
Definition telling (oc : OutboxPublishOutcome) : Prop := oc_ok oc = true <-> oc_failure oc = PubNone.

Definition wellFormed (len : nat) (os : list OutboxPublishOutcome) : Prop := length os = len /\ Forall telling os.

Lemma setOutcomes_telling len indexes f os :
  (forall oc, telling (f oc)) -> wellFormed len os -> wellFormed len (setOutcomes indexes f os).
Proof.
  intros Hf [Hl Hos]. split; [by rewrite setOutcomes_length|]. apply Forall_forall. intros oc Hin.
  apply list_elem_of_lookup in Hin as [i Hi]. apply setOutcomes_lookup in Hi as [Hi|(_ & oc' & ->)]; [|apply Hf].
  rewrite Forall_forall in Hos. apply Hos. by eapply list_elem_of_lookup_2.
Qed.

Lemma failAll_telling len indexes f msg os : f <> PubNone -> wellFormed len os -> wellFormed len (failAll indexes f msg os).
Proof. intros Hf. apply setOutcomes_telling. intros oc. by split. Qed.

Lemma produceOutcomes_telling len indexes errorCode os :
  wellFormed len os -> wellFormed len (produceOutcomes indexes errorCode os).
Proof.
  intros Hos. unfold produceOutcomes, produceFailure.
  destruct (errorCode =? 0); [by apply setOutcomes_telling|].
  destruct (errorCode =? 3); [by apply failAll_telling|]. by destruct (errorCode =? 7); apply failAll_telling.
Qed.

Lemma guardOutcomes_telling prefix batch : wellFormed (length batch) (guardOutcomes prefix batch).
Proof.
  split; [apply length_imap|]. apply Forall_forall. intros oc Hin. apply list_elem_of_lookup in Hin as [i Hi].
  unfold guardOutcomes in Hi. rewrite list_lookup_imap in Hi. destruct (batch !! i); [|done].
  injection Hi as <-. by destruct (guarded prefix batch i).
Qed.

(** ** The publisher *)

Module PublisherLive.
Import Publisher.

Section live.
Context {N : Type} `{!Transport N, !ClockLaws N, !JsonFloat}.
Context (cfg : PublisherConfig) (start dl : Z) (start_ok : 0 <= start) (dl_ok : - 2 ^ 62 < dl < 2 ^ 62).

Notation P := (PState N).
Notation now s := (clock (ps_net s)).

(** Not before [c0], which is not before the start of the call. *)
Definition from (c0 : Z) (s : P) : Prop := start <= c0 <= now s.

(** The end of the range of the clock. *)
Definition endOfTime (s : P) : Prop := 2 ^ 62 <= now s.

Lemma from_step c0 s s' : from c0 s -> now s <= now s' -> from c0 s'.
Proof. unfold from. lia. Qed.

(** A step of the network. *)
Lemma safe_net {A} (f : N -> N * A) c0 : (forall n, clock n <= clock (f n).1) -> safe (from c0) (onNet f).
Proof.
  intros Hf s Hs. unfold wp, onNet. specialize (Hf (ps_net s)). destruct (f (ps_net s)) as [n a]. cbn [fst] in Hf.
  by eapply from_step; [exact Hs|].
Qed.

Lemma wp_remaining c0 s :
  from c0 s ->
  wp (remainingMs start dl)
    (fun r s' => from c0 s' /\ now s <= now s' /\ (r = dl - (now s' - start) \/ endOfTime s'))
    (fun _ _ => False) s.
Proof.
  intros Hs. unfold remainingMs. apply wp_bind. unfold wp at 1, onNet.
  destruct (steadyNow_clock (ps_net s)) as [H1 H2]. destruct (steadyNow (ps_net s)) as [n t]. cbn [fst snd] in H1, H2.
  apply wp_ret. cbn [ps_net]. split; [by eapply from_step; [exact Hs|]|]. split; [done|]. subst t.
  unfold endOfTime, from in *. cbn [ps_net]. destruct (Z.lt_ge_cases (clock n) (2 ^ 62)); [left|by right].
  rewrite !i64_small; [done|..]; unfold isI64; try rewrite i64_small; unfold isI64; lia.
Qed.

Lemma safe_rpc {A} c0 apiKey apiVersion body corr t (m : rd A) :
  rsafe m -> safe (from c0) (rpc apiKey apiVersion body corr t m : eff kexn P _).
Proof.
  intros Hm. unfold rpc.
  apply keepsOr_bind; [apply (safe_net _ c0); intros n; apply sendRequest_clock|]. intros sent. destruct sent; [|apply keepsOr_ret].
  intros s Hs. apply wp_bind. unfold wp at 1, onNet. pose proof (recvResponse_clock corr t (ps_net s)) as Hc.
  pose proof (recv_small corr t (ps_net s)) as Hr. destruct (recvResponse corr t (ps_net s)) as [n [r|]]; cbn [fst snd] in Hc, Hr.
  2:{ apply wp_ret. by eapply from_step; [exact Hs|]. }
  specialize (Hr r eq_refl). pose proof (size_nonneg r). specialize (Hm r 0 ltac:(lia) ltac:(lia) ltac:(lia)).
  destruct (m r 0) as [pos [a| | | |]]; try done; apply wp_ret; by eapply from_step; [exact Hs|].
Qed.

Lemma wp_then {A B} c0 (m : eff kexn P A) (f : A -> eff kexn P B) Q E s :
  safe (from c0) m -> from c0 s -> (forall a s', from c0 s' -> wp (f a) Q E s') -> wp (bind m f) Q E s.
Proof. intros Hm Hs Hf. apply wp_bind. eapply wp_mono; [by apply Hm|by apply Hf|by intros ? ? []]. Qed.

Lemma safe_correlation c0 : safe (from c0) (nextCorrelation : eff kexn P Z).
Proof. by intros s Hs. Qed.

(** The rounds left suffice until the deadline. *)
Definition roundsLeft (rounds : nat) (s : P) : Prop :=
  endOfTime s \/ ((1 <= rounds)%nat /\ start + dl <= now s + kRetryPauseMs * (Z.of_nat rounds - 1)).

Lemma roundsLeft_all s : start <= now s -> roundsLeft (retryRounds dl) s.
Proof.
  intros Hs. right. unfold retryRounds. split; [lia|]. unfold kRetryPauseMs.
  pose proof (Z.div_mod dl 50 ltac:(lia)). pose proof (Z.mod_pos_bound dl 50 ltac:(lia)).
  destruct (Z.le_gt_cases 0 (dl / 50)); [rewrite Nat2Z.inj_add, Z2Nat.id by done|]; lia.
Qed.

(** A round that began at [s] and did not answer, a reading of the clock at [s1]
    with time left, and a pause at [s2]. *)
Lemma wp_pause {B} (f : unit -> eff kexn P B) r rounds c0 s s1 s2 Q :
  from c0 s2 -> now s <= now s1 <= now s2 -> r = dl - (now s1 - start) \/ endOfTime s1 -> 0 < r ->
  roundsLeft (S rounds) s ->
  (forall s', from c0 s' -> roundsLeft rounds s' -> wp (f tt) Q (fun _ => endOfTime) s') ->
  wp (bind sleep f) Q (fun _ => endOfTime) s2.
Proof.
  intros Hs2 Hle Hr Hpos Hl Hf. apply wp_bind. unfold wp at 1, sleep, onNet.
  pose proof (pause_clock kRetryPauseMs (ps_net s2)) as Hp. unfold kRetryPauseMs in *.
  apply Hf; [unfold from in *; cbn [ps_net]; lia|]. unfold roundsLeft, endOfTime in *. cbn [ps_net].
  unfold kRetryPauseMs in *. destruct Hr as [->|Hr]; [|left; lia]. destruct Hl as [Hl|[_ Hl]]; [left; lia|].
  right. destruct rounds as [|rounds]; [lia|]. split; lia.
Qed.

Lemma wp_metadata c0 rounds topic s :
  from c0 s -> roundsLeft rounds s ->
  wp (metadataPartitions rounds topic start dl) (fun _ => from c0) (fun _ => endOfTime) s.
Proof.
  revert c0 s. induction rounds as [|r IH]; intros c0 s Hs Hl; cbn [metadataPartitions].
  { destruct Hl as [Hl|[Hl _]]; [exact Hl|lia]. }
  assert (from (now s) s) as Hc by (unfold from in *; lia).
  eapply wp_mono with (Q := fun _ => from (now s)) (E := fun _ => endOfTime);
    [|intros ? s'; unfold from in *; lia|exact (fun _ _ H => H)].
  apply wp_bind. eapply wp_mono; [by apply wp_remaining| |by intros ? ? []]. intros remain s1 (Hs1 & _ & _).
  eapply wp_then; [apply safe_correlation|exact Hs1|]. intros corr s2 Hs2.
  eapply wp_then; [apply safe_rpc, rsafe_topicVerdict|exact Hs2|]. intros verdict s3 Hs3.
  assert (wp (remain <- remainingMs start dl ;; if remain <=? 0 then ret 0
              else sleep ;;; metadataPartitions r topic start dl)%eff (fun _ => from (now s)) (fun _ => endOfTime) s3) as Hwait.
  { apply wp_bind. eapply wp_mono; [by apply wp_remaining| |by intros ? ? []]. intros remain2 s4 (Hs4 & Hle & Hr).
    destruct (Z.leb_spec remain2 0); [by apply wp_ret|].
    eapply (wp_pause _ remain2 r (now s) s s4); [done|unfold from in *; lia|exact Hr|done|exact Hl|].
    intros s5 Hs5 Hl5. by apply IH. }
  destruct verdict as [[]|]; try exact Hwait; by apply wp_ret.
Qed.

Lemma wp_produceLoop_returns c0 rounds g records s :
  from c0 s -> roundsLeft rounds s ->
  wp (produceLoop rounds (retryRounds dl) g records start dl) (fun _ => from c0) (fun _ => endOfTime) s.
Proof.
  revert c0 s. induction rounds as [|r IH]; intros c0 s Hs Hl; cbn [produceLoop].
  { destruct Hl as [Hl|[Hl _]]; [exact Hl|lia]. }
  assert (from (now s) s) as Hc by (unfold from in *; lia).
  eapply wp_mono with (Q := fun _ => from (now s)) (E := fun _ => endOfTime);
    [|intros ? s'; unfold from in *; lia|exact (fun _ _ H => H)].
  apply wp_bind. eapply wp_mono; [by apply wp_remaining| |by intros ? ? []]. intros remain s1 (Hs1 & _ & _).
  eapply wp_then; [apply safe_correlation|exact Hs1|]. intros corr s2 Hs2.
  eapply wp_then; [apply safe_rpc, rsafe_readProduced|exact Hs2|]. intros [errorCode|] s3 Hs3; [|by apply wp_ret].
  destruct (_ || _); [|by apply wp_ret].
  apply wp_bind. eapply wp_mono; [by apply wp_remaining| |by intros ? ? []]. intros remain2 s4 (Hs4 & Hle & Hr).
  destruct (Z.leb_spec remain2 0); [by apply wp_ret|].
  assert (from (now s4) s4) as Hc4 by (unfold from in *; lia).
  apply wp_bind. eapply wp_mono; [apply (wp_metadata (now s4)); [exact Hc4|apply roundsLeft_all; unfold from in *; lia]| |done].
  intros parts s5 Hs5. assert (from (now s) s5) as Hs5' by (unfold from in *; lia).
  destruct (parts <? 0); [by apply wp_ret|]. destruct (parts =? 0); [by apply wp_ret|].
  eapply (wp_pause _ remain2 r (now s) s s4); [done|unfold from in *; lia|exact Hr|done|exact Hl|].
  intros s6 Hs6 Hl6. by apply IH.
Qed.

Lemma wp_transportFailure c0 s :
  from c0 s ->
  wp (transportFailure start dl) (fun f s' => from c0 s' /\ f <> PubNone) (fun _ _ => False) s.
Proof.
  intros Hs. unfold transportFailure. apply wp_bind. eapply wp_mono; [by apply wp_remaining| |by intros ? ? []].
  intros remain s1 (Hs1 & _). apply wp_ret. split; [done|]. by destruct (remain <=? 0).
Qed.

(** Fail what is left with the failure of the transport. *)
Lemma wp_failTransport {B} c0 len indexes msg os s (k : list OutboxPublishOutcome -> B) (R : B -> Prop) E :
  from c0 s -> wellFormed len os -> (forall os', wellFormed len os' -> R (k os')) ->
  wp (f <- transportFailure start dl ;; ret (k (failAll indexes f msg os)))%eff (fun b s' => from c0 s' /\ R b) E s.
Proof.
  intros Hs Hos Hk. apply wp_bind. eapply wp_mono; [by apply wp_transportFailure| |by intros ? ? []].
  intros f s1 [Hs1 Hf]. apply wp_ret. split; [done|]. by apply Hk, failAll_telling.
Qed.

Lemma wp_reconnect_returns c0 len rest os s :
  from c0 s -> wellFormed len os ->
  wp (reconnect cfg rest os start dl)
    (fun o s' => from c0 s' /\ match o with Some os' => wellFormed len os' | None => True end) (fun _ => endOfTime) s.
Proof.
  intros Hs Hos. unfold reconnect.
  eapply wp_then; [apply safe_net; intros n; apply disconnect_clock|exact Hs|]. intros _ s1 Hs1.
  destruct rest as [|g rest]; [by apply wp_ret|].
  apply wp_bind. eapply wp_mono; [by apply wp_remaining| |by intros ? ? []]. intros remain s2 (Hs2 & _).
  destruct (remain <? 1); [apply wp_ret; split; [done|by apply failAll_telling]|].
  apply wp_bind. eapply wp_mono; [by apply wp_remaining| |by intros ? ? []]. intros remain2 s3 (Hs3 & _).
  eapply wp_then; [apply safe_net; intros n; apply connectTo_clock|exact Hs3|]. intros ok s4 Hs4.
  destruct ok; [by apply wp_ret|]. by apply (wp_failTransport c0 len).
Qed.

Lemma wp_produceGroups_returns c0 len groups os s :
  from c0 s -> wellFormed len os ->
  wp (produceGroups cfg (retryRounds dl) groups os start dl)
    (fun os' s' => from c0 s' /\ wellFormed len os') (fun _ => endOfTime) s.
Proof.
  revert os s. induction groups as [|g rest IH]; intros os s Hs Hos; cbn [produceGroups]; [by apply wp_ret|].
  eapply wp_then; [apply safe_net; intros n; apply wallNow_clock|exact Hs|]. intros ts s1 Hs1.
  apply wp_bind. eapply wp_mono;
    [apply (wp_produceLoop_returns c0); [exact Hs1|apply roundsLeft_all; unfold from in *; lia]| |done].
  intros [errorCode|] s2 Hs2; [apply IH; [done|by apply produceOutcomes_telling]|].
  apply wp_bind. eapply wp_mono; [by apply wp_transportFailure| |by intros ? ? []]. intros f s3 [Hs3 Hf].
  apply wp_bind. eapply wp_mono; [apply (wp_reconnect_returns c0 len); [exact Hs3|by apply failAll_telling]| |done].
  intros [os'|] s4 [Hs4 Hos4]; [by apply wp_ret|]. apply IH; [done|by apply failAll_telling].
Qed.

Context (batch : list OutboxPublishRequest).

(** The only exception besides the end of the clock: text that is not UTF-8. *)
Definition unwritable : Prop := exists i req, batch !! i = Some req /\ dump (envelopeOf req) = None.

Lemma wp_publishPending_returns c0 pending os s :
  from c0 s -> wellFormed (length batch) os -> StronglySorted lt pending ->
  (forall i, i ∈ pending -> is_Some (batch !! i)) ->
  wp (publishPending cfg batch pending os start dl)
    (fun os' s' => from c0 s' /\ wellFormed (length batch) os') (fun _ s' => endOfTime s' \/ unwritable) s.
Proof.
  intros Hs Hos Hsort Hin. unfold publishPending.
  apply wp_bind. eapply wp_mono; [by apply wp_remaining| |by intros ? ? []]. intros remain s1 (Hs1 & _).
  eapply wp_then; [apply safe_net; intros n; apply connectTo_clock|exact Hs1|]. intros ok s2 Hs2.
  destruct ok; cbn [negb]; [|by apply (wp_failTransport c0 (length batch) _ _ _ _ id (wellFormed (length batch)))].
  apply wp_bind. eapply wp_mono;
    [eapply (wp_resolveTopics (from c0) (fun _ => endOfTime) (wellFormed (length batch)))| |intros ? ? ?; by left].
  { intros t s3 Hs3. apply wp_metadata; [exact Hs3|apply roundsLeft_all; unfold from in *; lia]. }
  { intros s3 Hs3. eapply wp_mono; [by apply wp_transportFailure|done|by intros ? ? []]. }
  { intros indexes f msg os1 Hf H1. by apply failAll_telling. }
  { intros i Hi. left. apply topics_of_pending. by left. }
  { exact Hs2. }
  { exact Hos. }
  intros [os'|[[pending' parts] os']] s3 [Hs3 Hr]; [by apply wp_ret|].
  destruct Hr as (Hos' & Hsub & Hcover). destruct pending' as [|i0 rest]; [by apply wp_ret|].
  set (pending' := i0 :: rest) in *. clearbody pending'.
  apply wp_bind. eapply wp_mono; [eapply (wp_buildGroups batch parts [] pending')|..].
  { apply groups_ok_empty. }
  { by eapply sorted_sublist. }
  { intros i. by eapply topicsCover_pending. }
  2:{ intros x s4 (-> & _ & Hbad). by right. }
  intros gs s4 [-> _].
  eapply wp_mono; [apply (wp_produceGroups_returns c0 (length batch)); [exact Hs3|exact Hos']|done|intros ? ? ?; by left].
Qed.
End live.

(** C30: The publisher answers: if all envelopes can be written as JSON and the clock
    stays in its range, a call returns, whatever the broker sends or does not send:
    one outcome per request, each either ok or with the kind of failure that
    prevented it. *)
Theorem publish_answers {N} `{!Transport N, !ClockLaws N, !JsonFloat} (cfg : PublisherConfig) batch deadlineMs
    (s s' : PState N) o :
  0 <= clock (ps_net s) -> - 2 ^ 62 < pb_deadlineMs cfg < 2 ^ 62 -> deadlineMs < 2 ^ 62 ->
  (forall req, req ∈ batch -> is_Some (dump (envelopeOf req))) ->
  publish cfg batch deadlineMs s = (s', o) -> clock (ps_net s') < 2 ^ 62 ->
  exists os, o = Ret os /\ length os = length batch /\
    forall i oc, os !! i = Some oc -> (oc_ok oc = true <-> oc_failure oc = PubNone).
Proof.
  intros H0 Hcfg Hdl Hwrite Hrun Hend.
  enough (wp (publish cfg batch deadlineMs)
    (fun os _ => wellFormed (length batch) os) (fun _ s' => 2 ^ 62 <= clock (ps_net s')) s) as Hwp.
  { unfold wp in Hwp. rewrite Hrun in Hwp. destruct o as [os|x]; [|lia]. exists os. destruct Hwp as [Hl Hos].
    split; [done|]. split; [done|]. intros i oc Hi. rewrite Forall_forall in Hos. apply Hos. by eapply list_elem_of_lookup_2. }
  clear Hrun Hend s' o. unfold publish. destruct (decide (batch = [])) as [->|Hne]; [by apply wp_ret|].
  destruct batch as [|r0 rest] eqn:Hbatch; [done|]. rewrite <- Hbatch in *. clear Hne.
  apply wp_bind. unfold wp at 1, onNet. destruct (steadyNow_clock (ps_net s)) as [H1 H2].
  destruct (steadyNow (ps_net s)) as [n1 start]. cbn [fst snd] in H1, H2.
  set (dl := if 0 <? deadlineMs then _ else _).
  assert (- 2 ^ 62 < dl < 2 ^ 62) as Hdl' by (subst dl; destruct (Z.ltb_spec 0 deadlineMs); lia).
  destruct (filter _ _) as [|i0 more] eqn:Hpending; [apply wp_ret, guardOutcomes_telling|].
  destruct (pending_facts cfg batch) as [Hsort Hin]. rewrite Hpending in Hsort, Hin.
  apply wp_bind, wp_modify, wp_catch, wp_bind.
  eapply wp_mono; [apply (wp_publishPending_returns cfg start dl ltac:(lia) Hdl' batch start)| |].
  - unfold from. cbn [ps_net]. lia.
  - apply guardOutcomes_telling.
  - exact Hsort.
  - exact Hin.
  - intros os s2 [_ Hos]. exact Hos.
  - intros x s2 [Hbad|(i & req & Hreq & Hnone)].
    + unfold wp. cbn. pose proof (disconnect_clock (ps_net s2)). unfold endOfTime in Hbad. lia.
    + destruct (Hwrite req ltac:(by eapply list_elem_of_lookup_2)) as [v Hv]. congruence.
Qed.
End PublisherLive.
