(* ===== verification/KafkaConsumerLive.v ===== *)
(** * A poll of the Kafka consumer returns

    Time passes in the pauses of the metadata loop, so the loop ends at the deadline;
    the replies are read without an exception; and so a poll answers, as long as the
    callbacks it calls do. *)

From S2P Require Import Prelude DomainTypes Json Store World Relay Guarantees Bytes KafkaWire KafkaWireInv KafkaClient KafkaReplies.
From S2P Require Import KafkaBroker KafkaConsumer KafkaConsumerInv KafkaLive.

Open Scope Z_scope.

Module ConsumerLive.
Section live.
Context {St E N : Type} `{!MessageStore St, !Env E, !Transport N, !ClockLaws N, !JsonLib}.
Context (cfg : ConsumerConfig).
Context (handler : ConsumedOutboxRecord -> eff exn (World St E) ConsumeDisposition).
Context (hook : option (eff exn (World St E) unit)).
Context (start dl : Z) (start_ok : 0 <= start) (dl_ok : - 2 ^ 62 < dl < 2 ^ 63 \/ 2 ^ 62 <= start).

Abbreviation K := (KWorld St E N).
Notation keff := (eff kexn K).
Notation now k := (clock (k_net k)).

Definition from (c0 : Z) (k : K) : Prop := start <= c0 <= now k.

Definition endOfTime (k : K) : Prop := 2 ^ 62 <= now k.

Lemma later_from c0 k k' : from c0 k -> now k <= now k' -> from c0 k'.
Proof. unfold from. lia. Qed.

Lemma safe_pollNet {A} c0 (f : N -> N * A) : (forall n, clock n <= clock (f n).1) -> safe (from c0) (onNet f).
Proof.
  intros Hf k Hk. unfold wp, onNet. specialize (Hf (k_net k)). destruct (f (k_net k)) as [n a].
  by eapply later_from; [exact Hk|].
Qed.

Lemma safe_impl c0 f : safe (from c0) (setImpl f : keff unit).
Proof. by intros k Hk. Qed.

Lemma safe_result c0 f : safe (from c0) (setResult f : keff unit).
Proof. by intros k Hk. Qed.
#[local] Hint Extern 1 (keepsOr ?I (fun _ _ => False) ?m) => change (safe I m) : effects.
#[local] Hint Resolve safe_impl safe_result : effects.

Lemma wp_pollRemaining c0 k :
  from c0 k ->
  wp (remainingMs dl) (fun r k' => from c0 k' /\ now k <= now k' /\ (r = dl - now k' \/ endOfTime k'))
    (fun _ _ => False) k.
Proof.
  intros Hk. unfold remainingMs. apply wp_bind. unfold wp at 1, onNet.
  destruct (steadyNow_clock (k_net k)) as [H1 H2]. destruct (steadyNow (k_net k)) as [n t]. cbn [fst snd] in H1, H2.
  apply wp_ret. cbn [k_net]. split; [by eapply later_from; [exact Hk|]|]. split; [done|]. subst t.
  unfold endOfTime, from in *. cbn [k_net]. destruct (Z.lt_ge_cases (clock n) (2 ^ 62)); [left|by right].
  rewrite i64_small; [done|]. unfold isI64. lia.
Qed.

Lemma safe_pollRemaining c0 : safe (from c0) (remainingMs dl : keff Z).
Proof. intros k Hk. eapply wp_mono; [by apply wp_pollRemaining|by intros ? ? []|done]. Qed.

Lemma safe_pollClose c0 : safe (from c0) (closeConnection : keff unit).
Proof. unfold closeConnection. apply keepsOr_bind; [apply safe_pollNet; intros n; apply disconnect_clock|]. intros _. keeps_tac. Qed.
#[local] Hint Resolve safe_pollRemaining safe_pollClose : effects.

(** A reply that arrives is small. *)
Lemma wp_pollRpc c0 apiKey apiVersion body t k :
  from c0 k ->
  wp (requestRpc apiKey apiVersion body t)
    (fun o k' => from c0 k' /\ match o with Some r => size r < 2 ^ 31 | None => True end) (fun _ _ => False) k.
Proof.
  intros Hk. unfold requestRpc, impl. apply wp_bind, wp_gets, wp_bind, wp_modify, wp_bind.
  eapply wp_mono; [apply (safe_pollNet c0); [intros n; apply sendRequest_clock|exact Hk]| |done]. intros sent k1 Hk1.
  assert (forall k, from c0 k -> wp (closeConnection ;;; ret None)%eff (fun o k' => from c0 k' /\
    match o with Some r => size r < 2 ^ 31 | None => True end) (fun _ _ => False) k) as Hclose.
  { intros k2 Hk2. apply wp_bind. eapply wp_mono; [by apply safe_pollClose| |done]. intros [] k3 Hk3. by apply wp_ret. }
  destruct sent; [|by apply wp_bind, wp_ret, Hclose].
  apply wp_bind. unfold wp at 1, onNet. set (corr := im_correlation _). clearbody corr.
  pose proof (recvResponse_clock corr (clampTimeout t) (k_net k1)) as Hc.
  pose proof (recv_small corr (clampTimeout t) (k_net k1)) as Hr.
  destruct (recvResponse corr (clampTimeout t) (k_net k1)) as [n [r|]]; cbn [fst snd] in Hc, Hr.
  - apply wp_ret. split; [by eapply later_from; [exact Hk1|]|by apply Hr].
  - apply Hclose. by eapply later_from; [exact Hk1|].
Qed.

Lemma safe_pollCall {A} c0 apiKey apiVersion body t (m : rd A) :
  rsafe m -> safe (from c0) (call apiKey apiVersion body t m : keff _).
Proof.
  intros Hm k Hk. unfold call. apply wp_bind. eapply wp_mono; [by apply wp_pollRpc| |done].
  intros [r|] k1 [Hk1 Hr]; [|by apply wp_ret]. unfold runReader. pose proof (size_nonneg r).
  specialize (Hm r 0 ltac:(lia) ltac:(lia) ltac:(lia)). by destruct (m r 0) as [pos []].
Qed.
#[local] Hint Resolve safe_pollCall rsafe_readMetadata rsafe_readListOffsets rsafe_readOffsetFetch rsafe_readOffsetCommit : effects.

(** The rounds left suffice until the deadline. *)
Definition roundsLeft (rounds : nat) (k : K) : Prop :=
  endOfTime k \/ ((1 <= rounds)%nat /\ dl <= now k + kIdleRetrySleepMs * (Z.of_nat rounds - 1)).

Lemma wp_pollMetadata c0 rounds k :
  from c0 k -> roundsLeft rounds k ->
  wp (metadataPartitions cfg rounds dl) (fun _ => from c0) (fun _ => endOfTime) k.
Proof.
  revert c0 k. induction rounds as [|r IH]; intros c0 k Hk Hl; cbn [metadataPartitions].
  { destruct Hl as [Hl|[Hl _]]; [exact Hl|lia]. }
  assert (from (now k) k) as Hc by (unfold from in *; lia).
  eapply wp_mono with (Q := fun _ => from (now k)) (E := fun _ => endOfTime);
    [|intros ? k'; unfold from in *; lia|exact (fun _ _ H => H)].
  apply wp_bind. eapply wp_mono; [by apply wp_pollRemaining| |by intros ? ? []]. intros remain k1 (Hk1 & _ & _).
  apply wp_bind. eapply wp_mono; [by apply (safe_pollCall (now k)); [apply rsafe_readMetadata|]| |by intros ? ? []].
  intros [a|] k2 Hk2; [|by apply wp_ret]. destruct (_ && _); [by apply wp_ret|]. destruct (_ || _); [|by apply wp_ret].
  apply wp_bind. eapply wp_mono; [by apply wp_pollRemaining| |by intros ? ? []]. intros remain2 k3 (Hk3 & Hle & Hr).
  destruct (Z.leb_spec remain2 0); [by apply wp_ret|].
  apply wp_bind. unfold wp at 1, onNet. pose proof (pause_clock kIdleRetrySleepMs (k_net k3)) as Hp.
  unfold kIdleRetrySleepMs in *. apply IH; unfold from, roundsLeft, endOfTime, kIdleRetrySleepMs in *; cbn [k_net]; [lia|].
  destruct Hr as [->|Hr]; [|left; lia]. destruct Hl as [Hl|[_ Hl]]; [left; lia|].
  right. destruct r as [|r]; [lia|]. split; lia.
Qed.

Lemma safe_pollCursors c0 parts committed earliest latest :
  safe (from c0) (setCursors parts committed earliest latest : keff unit).
Proof.
  unfold setCursors. apply keepsOr_bind; [|intros ?; keeps_tac].
  apply keepsOr_forM. intros p _. destruct (initialCursor _ _ _ p). keeps_tac.
Qed.
#[local] Hint Resolve safe_pollCursors : effects.

Lemma wp_assignByDeadline c0 rounds k :
  from c0 k -> roundsLeft rounds k ->
  wp (assignIfNeeded cfg rounds dl) (fun _ => from c0) (fun _ => endOfTime) k.
Proof.
  intros Hk Hl. unfold assignIfNeeded, impl. apply wp_bind, wp_gets. destruct (im_assigned _); [by apply wp_ret|].
  unfold assign. apply wp_bind. eapply wp_mono; [by apply (wp_pollMetadata c0)| |done]. intros [parts|] k1 Hk1; [|by apply wp_ret].
  eapply wp_mono with (E := fun _ _ => False); [|exact (fun _ _ H => H)|done].
  assert (forall ts t, safe (from c0) (listOffsets cfg ts t parts : keff _)) as Hlist
    by (intros; unfold listOffsets; keeps_tac).
  revert k1 Hk1. match goal with |- forall k, _ -> wp ?m _ _ k => enough (safe (from c0) m) by done end.
  unfold offsetFetchAll. keeps_tac.
Qed.

(** ** The other stages *)

Lemma safe_connect c0 : safe (from c0) (connectIfNeeded cfg dl : keff bool).
Proof.
  unfold connectIfNeeded, impl. keeps_tac. apply safe_pollNet. intros n. apply connectTo_clock.
Qed.

Lemma safe_restart c0 errs : safe (from c0) (restartPartitions cfg errs dl : keff bool).
Proof. induction errs as [|p errs IH]; cbn [restartPartitions]; unfold listOffsets; keeps_tac. Qed.

(** Whatever the reply to a fetch does, the time is later. *)
Lemma keeps_fetchAll_from c0 : keeps (from c0) (fetchAll cfg dl : keff _).
Proof.
  unfold fetchAll, impl. pose proof (fun c0 => safe_keeps _ _ (safe_pollRemaining c0)) as Hrem.
  pose proof (fun c0 => safe_keeps _ _ (safe_pollClose c0)) as Hclose. keeps_tac.
  - intros k Hk. eapply wp_mono; [by apply wp_pollRpc|by intros ? ? []|done].
  - intros k Hk. unfold runReader. by destruct (readFetch _ _ 0) as [pos []].
Qed.

Context (handler_returns : forall rec w, (handler rec w).2 <> Throw Diverges).
Context (hook_returns : forall m w, hook = Some m -> (m w).2 <> Throw Diverges).
Context (deadLetter_returns : forall d (w : World St E), (onStore (recordDeadLetter d) w).2 <> Throw Diverges).

Lemma safe_try {A B} c0 (m : eff exn (World St E) A) (g : A -> B) (b : B) :
  (forall w, (m w).2 <> Throw Diverges) -> safe (from c0) (catchK (a <- onWorld m ;; ret (g a))%eff (ret b)).
Proof.
  intros Hm k Hk. specialize (Hm (k_world k)). unfold wp, catchK, catch, bind, onWorld.
  by destruct (m (k_world k)) as [w [a|[]]].
Qed.

Lemma safe_deadLetter c0 rec reason value : safe (from c0) (deadLetter rec reason value : keff bool).
Proof. unfold deadLetter. apply keepsOr_bind; [by apply (safe_try c0 _ (fun _ => true))|]. intros stored. keeps_tac. Qed.
#[local] Hint Resolve safe_deadLetter : effects.

Lemma safe_callHandler c0 rec : safe (from c0) (callHandler cfg handler rec : keff bool).
Proof. unfold callHandler. apply keepsOr_bind; [by apply (safe_try c0 _ Some)|]. intros d. keeps_tac. Qed.
#[local] Hint Resolve safe_callHandler : effects.

Lemma safe_disposeLoop c0 recs : safe (from c0) (disposeLoop cfg handler recs : keff bool).
Proof. induction recs as [|raw recs IH]; cbn [disposeLoop]; unfold dispose, disposeMessage, impl; keeps_tac. Qed.

Lemma safe_commit c0 : safe (from c0) (commit cfg hook dl : keff unit).
Proof.
  unfold commit, offsetCommitAll. apply keepsOr_bind.
  { destruct hook as [m|] eqn:Hm; [|keeps_tac]. apply (safe_try c0 _ (fun _ => true)). intros w. by apply hook_returns. }
  intros ok. destruct ok; cbn [negb]; keeps_tac. apply keepsOr_forM. intros it _. keeps_tac.
Qed.
#[local] Hint Resolve safe_disposeLoop safe_commit : effects.

Lemma safe_consume c0 recs : safe (from c0) (consume cfg handler hook recs dl : keff unit).
Proof. unfold consume. keeps_tac. Qed.
End live.

(** ** The poll *)

Section poll.
Context {St E N : Type} `{!MessageStore St, !Env E, !Transport N, !ClockLaws N, !JsonLib}.
Context (cfg : ConsumerConfig) `{!Broker N (topic cfg) (bytesOf (kc_groupId cfg))}.
Context (topic_short : size (topic cfg) < 2 ^ 15) (group_short : size (bytesOf (kc_groupId cfg)) < 2 ^ 15).
Context (handler : ConsumedOutboxRecord -> eff exn (World St E) ConsumeDisposition).
Context (hook : option (eff exn (World St E) unit)).
Context (handler_returns : forall rec w, (handler rec w).2 <> Throw Diverges).
Context (hook_returns : forall m w, hook = Some m -> (m w).2 <> Throw Diverges).
Context (deadLetter_returns : forall d (w : World St E), (onStore (recordDeadLetter d) w).2 <> Throw Diverges).

Abbreviation K := (KWorld St E N).
Notation ok k := (consumer_ok cfg (k_impl k) (k_net k)).

Lemma roundsLeft_poll start budget (k : K) :
  0 <= start <= clock (k_net k) -> - 2 ^ 62 < budget < 2 ^ 62 ->
  roundsLeft (i64 (start + budget)) (metadataRounds budget) k.
Proof.
  intros Hs Hb. unfold roundsLeft, endOfTime. destruct (Z.lt_ge_cases (clock (k_net k)) (2 ^ 62)); [right|by left].
  rewrite i64_small by (unfold isI64; lia). unfold metadataRounds. split; [lia|]. unfold kIdleRetrySleepMs.
  pose proof (Z.div_mod budget 50 ltac:(lia)). pose proof (Z.mod_pos_bound budget 50 ltac:(lia)).
  destruct (Z.le_gt_cases 0 (budget / 50)); [rewrite Nat2Z.inj_add, Z2Nat.id by done|]; lia.
Qed.

Lemma wp_pollBody_returns start dl rounds (k : K) :
  0 <= start -> - 2 ^ 62 < dl < 2 ^ 63 \/ 2 ^ 62 <= start -> ok k -> start <= clock (k_net k) ->
  (forall k' : K, clock (k_net k) <= clock (k_net k') -> roundsLeft dl rounds k') ->
  wp (pollBody cfg handler hook rounds dl) (fun _ _ => True) (fun _ => endOfTime) k.
Proof.
  intros H0 Hdl Hk Hs Hrounds. set (c0 := clock (k_net k)) in *.
  assert (from start c0 k) as Hc by (split; [done|reflexivity]).
  unfold pollBody. apply wp_bind. eapply wp_mono; [apply wp_and;
    [by apply (keeps_connectIfNeeded cfg _ _ (stable_result cfg (k_result k)))
    |by apply (safe_connect cfg start dl H0 Hdl c0)]| |by intros ? ? []].
  intros [|] k1 [[Hk1 Hr1] Hc1]; cbn [negb]; [|by apply wp_modify].
  apply wp_bind. eapply wp_mono; [apply wp_and; [by apply (wp_assignIfNeeded cfg topic_short group_short)|
    apply (wp_assignByDeadline cfg start dl H0 Hdl c0); [done|apply Hrounds, Hc1]]| |by intros ? ? []].
  intros [|] k2 [(Hk2 & Hr2 & Ha2) Hc2]; cbn [negb]; [|by apply wp_modify].
  apply wp_bind. eapply wp_mono; [apply wp_and; [by apply (wp_fetchAll cfg topic_short); auto|
    by apply (keeps_fetchAll_from cfg start dl H0 Hdl c0)]| |by intros ? ? []].
  intros [[recs errs]|] k3 [_ Hc3]; [|by apply wp_modify].
  apply wp_bind. eapply wp_mono; [by apply (safe_restart cfg start dl H0 Hdl c0)| |by intros ? ? []].
  intros [|] k4 Hc4; cbn [negb]; [|by apply wp_modify].
  eapply wp_mono; [by apply (safe_consume cfg handler hook start dl H0 Hdl) with (c0 := c0)|done|by intros ? ? []].
Qed.

(** C31: Against a broker that keeps its promises ([Broker]: well-formed replies, a log
    of well-formed batches), a poll returns when the clock stays in its range and the
    handler, the hook and the store return: the rounds of the metadata loop suffice,
    no reply of such a broker leads to undefined behaviour, and whatever is thrown is
    caught.  A broker that does not keep them can make the parser loop forever
    ([negative_batch_loops]). *)
Theorem poll_returns deadlineMs (k k' : K) o :
  consumed cfg handler hook k -> 0 <= clock (k_net k) -> - 2 ^ 62 < kc_deadlineMs cfg < 2 ^ 62 -> deadlineMs < 2 ^ 62 ->
  poll cfg handler hook deadlineMs k = (k', o) -> clock (k_net k') < 2 ^ 62 ->
  exists r, o = Ret r.
Proof.
  intros Hk H0 Hcfg Hdl Hrun Hend. apply (consumed_ok cfg handler hook topic_short group_short) in Hk.
  enough (wp (poll cfg handler hook deadlineMs) (fun _ _ => True) (fun _ => endOfTime) k) as Hwp.
  { unfold wp in Hwp. rewrite Hrun in Hwp. destruct o as [r|x]; [by exists r|]. unfold endOfTime in Hwp. lia. }
  clear Hrun Hend k' o. unfold poll. apply wp_bind, wp_modify. cbn [k_world k_net k_impl].
  apply wp_bind. unfold wp at 1, onNet. cbn [k_net].
  destruct (steadyNow_clock (k_net k)) as [H1 H2]. pose proof (steadyNow_evolves (k_net k)) as Hev.
  destruct (steadyNow (k_net k)) as [n1 start]. cbn [fst snd] in H1, H2, Hev. apply wp_bind, wp_gets, wp_bind.
  set (budget := if 0 <? deadlineMs then _ else _).
  assert (- 2 ^ 62 < budget < 2 ^ 62) as Hb by (subst budget; destruct (Z.ltb_spec 0 deadlineMs); lia).
  unfold wp at 1, onWorld. cbn [k_world].
  match goal with |- context [metric ?c (k_world k)] =>
    pose proof (metric_nothrow c (k_world k) (fun _ _ => True) (fun _ _ _ => I)) as Hm; unfold wp in Hm;
    destruct (metric c (k_world k)) as [w [[]|x]]; [|done] end.
  apply wp_bind, wp_catch. eapply wp_mono; [apply (wp_pollBody_returns start)|..]; cbn [k_net k_impl].
  - lia.
  - destruct (Z.lt_ge_cases start (2 ^ 62)); [left|by right]. rewrite i64_small; unfold isI64; lia.
  - by eapply consumer_ok_evolves.
  - lia.
  - intros k' Hk'. apply roundsLeft_poll; lia.
  - intros _ k2 _. by apply wp_gets.
  - intros x k2 Hx. by destruct x as [[]|]; try exact Hx; apply wp_modify, wp_gets.
Qed.
End poll.
End ConsumerLive.
