(* ===== verification/Protocol.v ===== *)
(** * The chat protocol adapter (chatserver/src/app/ProtocolCodec.cpp)

    Parsing of chat commands, the accept orchestration on a worker thread, the
    mapping of failures to the stable error numbers 101..107, and the two
    encoders of replies: through a JSON value ([build...]) and straight to bytes
    ([encode...]). *)

From S2P Require Import Prelude DomainTypes Metrics Store World Coordinator Messaging Json JsonText SessionRegistry Application.
From stdpp Require Import pretty.
From Stdlib Require Import Ascii.

Open Scope Z_scope.
Open Scope eff_scope.

Definition kErrnoNotConversationMember : Z := 101.
Definition kErrnoTooManyRecipients : Z := 102.
Definition kErrnoIdempotencyConflict : Z := 103.
Definition kErrnoDependencyBusy : Z := 104.
Definition kErrnoContentTooLong : Z := 105.
Definition kErrnoNotFound : Z := 106.
Definition kErrnoInvalidClientMessageId : Z := 107.
Definition kMaxContentBytes : Z := 16 * 1024.

Inductive ChatCommandKind := ChatDirect | ChatGroup.

Record ParsedChatMessage := mkParsed {
  pm_legacy : bool;
  pm_hasClientMessageId : bool;
  pm_clientMessageId : string;
  pm_content : string;
  pm_directRecipient : Z;
  pm_groupId : Z;
}.

Record AcceptResultView := mkAcceptView {
  av_ok : bool;
  av_duplicate : bool;
  av_errnoCode : Z;
  av_clientMessageId : string;
  av_messageId : Z;
  av_conversationId : Z;
  av_sequence : Z;
}.

Definition emptyView : AcceptResultView := mkAcceptView false false 0 EmptyString 0 0 0.

Definition failedView (errnoCode : Z) (v : AcceptResultView) : AcceptResultView :=
  mkAcceptView (av_ok v) (av_duplicate v) errnoCode (av_clientMessageId v) (av_messageId v)
    (av_conversationId v) (av_sequence v).

(** ** Errors *)

Definition acceptErrorToErrno (e : AcceptError) : Z :=
  match e with
  | AcceptNotConversationMember => kErrnoNotConversationMember
  | AcceptTooManyRecipients => kErrnoTooManyRecipients
  | AcceptIdempotencyConflict => kErrnoIdempotencyConflict
  | AcceptDependencyBusy => kErrnoDependencyBusy
  | AcceptNotFound => kErrnoNotFound
  | AcceptInvalidClientMessageId => kErrnoInvalidClientMessageId
  end.

Definition storeErrorKindToErrno (k : StoreErrorKind) : Z :=
  match k with
  | StoreDependencyBusy => kErrnoDependencyBusy
  | StoreIdempotencyConflict => kErrnoIdempotencyConflict
  | StoreTooManyRecipients => kErrnoTooManyRecipients
  | StoreNotFound => kErrnoNotFound
  | StoreStorage => kErrnoDependencyBusy
  end.

Definition protocolErrmsg (errnoCode : Z) : string :=
  if errnoCode =? kErrnoNotConversationMember then "not a conversation member"
  else if errnoCode =? kErrnoTooManyRecipients then "too many recipients"
  else if errnoCode =? kErrnoIdempotencyConflict then "idempotency conflict"
  else if errnoCode =? kErrnoDependencyBusy then "dependency busy"
  else if errnoCode =? kErrnoContentTooLong then "content too long"
  else if errnoCode =? kErrnoNotFound then "target not found"
  else if errnoCode =? kErrnoInvalidClientMessageId then "invalid client_message_id"
  else "protocol error".

(** ** Replies *)

Definition buildMessageAcceptedReply (msgid : Z) (clientMessageId : string)
    (messageId conversationId sequence : Z) (duplicate : bool) : Json :=
  objectOf [("msgid", JInt msgid); ("client_message_id", JStr clientMessageId);
            ("message_id", JInt messageId); ("conversation_id", JInt conversationId);
            ("sequence", JInt sequence); ("duplicate", JBool duplicate)].

Definition buildErrorReply (msgid errnoCode : Z) (errmsg : string)
    (clientMessageId : option string) : Json :=
  objectOf ([("msgid", JInt msgid); ("errno", JInt errnoCode); ("errmsg", JStr errmsg)]
            ++ match clientMessageId with
               | Some c => [("client_message_id", JStr c)]
               | None => []
               end).

(** The escape of one byte in [appendJsonString]. *)
Definition appendJsonByte (c : ascii) : string :=
  let b := byteOf c in
  if b =? 0x08 then backslash "b"
  else if b =? 0x09 then backslash "t"
  else if b =? 0x0A then backslash "n"
  else if b =? 0x0C then backslash "f"
  else if b =? 0x0D then backslash "r"
  else if b =? 0x22 then backslash quote
  else if b =? 0x5C then backslash "\"
  else if b <=? 0x1F then hex4 b
  else String c EmptyString.

Fixpoint appendJsonBytes (s : string) : string :=
  match s with
  | EmptyString => EmptyString
  | String c rest => appendJsonByte c +:+ appendJsonBytes rest
  end.

Definition appendJsonString (s : string) : string := quoted (appendJsonBytes s).

Definition newline : string := String (ascii_of_N 10) EmptyString.

(** A literal object key, [,\"name\":] without the comma. *)
Definition keyText (name : string) : string := quoted name +:+ ":".

Definition encodeMessageAcceptedReply (msgid : Z) (clientMessageId : string)
    (messageId conversationId sequence : Z) (duplicate : bool) : string :=
  "{" +:+ keyText "client_message_id" +:+ appendJsonString clientMessageId
  +:+ "," +:+ keyText "conversation_id" +:+ pretty conversationId
  +:+ "," +:+ keyText "duplicate" +:+ (if duplicate then "true" else "false")
  +:+ "," +:+ keyText "message_id" +:+ pretty messageId
  +:+ "," +:+ keyText "msgid" +:+ pretty msgid
  +:+ "," +:+ keyText "sequence" +:+ pretty sequence
  +:+ "}" +:+ newline.

Definition encodeErrorReply (msgid errnoCode : Z) (errmsg : string)
    (clientMessageId : option string) : string :=
  "{" +:+ (match clientMessageId with
           | Some c => keyText "client_message_id" +:+ appendJsonString c +:+ ","
           | None => EmptyString
           end)
  +:+ keyText "errmsg" +:+ appendJsonString errmsg
  +:+ "," +:+ keyText "errno" +:+ pretty errnoCode
  +:+ "," +:+ keyText "msgid" +:+ pretty msgid
  +:+ "}" +:+ newline.

(** ** Parsing *)

Section parsing.
Context `{!JsonFloat}.

(** [js.at(key).get<T>()]; [None] is an exception, which the handler drops. *)
Definition atKey {A} (get : Json -> option A) (key : string) (js : Json) : option A :=
  v ← jfield key js; get v.

(** The fields after the client message id. *)
Definition parseBody (kind : ChatCommandKind) (js : Json) (legacy hasId : bool) (clientId : string)
  : option (ParsedChatMessage * Z) :=
  content ← atKey getString (if contains "content" js then "content" else "msg") js;
  if kMaxContentBytes <? Z.of_nat (String.length content)
  then Some (mkParsed legacy hasId clientId content 0 0, kErrnoContentTooLong)
  else match kind with
       | ChatDirect =>
           toid ← atKey getInt64 "toid" js;
           Some (mkParsed legacy hasId clientId content toid 0, 0)
       | ChatGroup =>
           gid ← atKey getInt64 "groupid" js;
           Some (mkParsed legacy hasId clientId content 0 gid, 0)
       end.

Definition parseChatMessage (kind : ChatCommandKind) (js : Json) : option (ParsedChatMessage * Z) :=
  if contains "client_message_id" js then
    clientId ← atKey getString "client_message_id" js;
    if negb (ClientMessageId_isValid clientId)
    then Some (mkParsed false true clientId EmptyString 0 0, kErrnoInvalidClientMessageId)
    else parseBody kind js false true clientId
  else parseBody kind js true false EmptyString.
End parsing.

(** ** Accepting *)

(** How the statement of [checkUserExists] can end. *)
Inductive UserQuery :=
| NoLease | PrepareFailed | ExecuteFailed | ResultFailed | UserRow | NoUserRow.

Record FriendDetail := mkFriend { fd_friendid : Z; fd_name : string; fd_state : string }.

(** The statements the service runs itself, on a pooled connection: the user
    lookup; the friends of a user (a row is [friendid], [name], [state], each
    possibly NULL), [None] without a lease or result; [reset]. *)
Class UserTable (D : Type) := {
  selectUser : Z -> D -> D * UserQuery;
  selectFriends : Z -> D -> D * option (list (option Z * option string * option string));
  resetOnline : D -> D;
}.

Record Backend (R S E D : Type) := mkBackend {
  bk_app : ChatApplication R;
  bk_rm : World S E;
  bk_legacy : Z;                (**r [legacyCounter()] *)
  bk_db : D;
}.
Arguments mkBackend {R S E D}.
Arguments bk_app {R S E D}.
Arguments bk_rm {R S E D}.
Arguments bk_legacy {R S E D}.
Arguments bk_db {R S E D}.

Section accepting.
Context {R S E D : Type} `{!Repositories R, !MessageStore S, !Env E, !UserTable D}.

Notation B := (Backend R S E D).
Notation beff := (eff exn B).

Definition put_app (a : ChatApplication R) (b : B) : B :=
  mkBackend a (bk_rm b) (bk_legacy b) (bk_db b).

Definition put_rm (w : World S E) (b : B) : B :=
  mkBackend (bk_app b) w (bk_legacy b) (bk_db b).

Definition onApp {A} (f : ChatApplication R -> ChatApplication R * A) : beff A :=
  fun b => let '(a, x) := f (bk_app b) in (put_app a b, Ret x).

Definition onMessaging {A} (m : eff exn (World S E) A) : beff A := zoom bk_rm put_rm m.

Definition checkUserExists (userId : Z) : beff Z :=
  fun b =>
    let '(d, q) := selectUser userId (bk_db b) in
    (mkBackend (bk_app b) (bk_rm b) (bk_legacy b) d,
     Ret (match q with
          | NoLease | PrepareFailed | ExecuteFailed | ResultFailed => kErrnoDependencyBusy
          | UserRow => 0
          | NoUserRow => kErrnoNotFound
          end)).

Definition makeLegacyIdentity (userId counter : Z) : string :=
  "legacy:" +:+ pretty userId +:+ ":" +:+ pretty counter.

(** [legacyCounter().fetch_add(1)] *)
Definition nextLegacy : beff Z :=
  fun b => (mkBackend (bk_app b) (bk_rm b) (u64 (bk_legacy b + 1)) (bk_db b), Ret (bk_legacy b)).

(** The checks before accept: the command without its key, or an error number. *)
Definition precheck (userId : Z) (parsed : ParsedChatMessage) (kind : ChatCommandKind)
  : beff (SendMessageCommand + Z) :=
  match kind with
  | ChatDirect =>
      err <- checkUserExists (pm_directRecipient parsed) ;;
      ret (if negb (err =? 0) then inr err
           else inl (mkCommand EmptyString DomainTypes.Direct (u64 (pm_directRecipient parsed)) 0 []
                       (pm_content parsed)))
  | ChatGroup =>
      m <- onApp (App.groupMembers (pm_groupId parsed)) ;;
      ret (if negb (mr_ok m) then inr kErrnoDependencyBusy
           else match mr_userIds m with
                | [] => inr kErrnoNotFound
                | ids =>
                    if negb (existsb (Z.eqb userId) ids) then inr kErrnoNotConversationMember
                    else inl (mkCommand EmptyString DomainTypes.Group 0 (u64 (pm_groupId parsed)) (u64 <$> ids)
                                (pm_content parsed))
                end)
  end.

(** The idempotency key; the constructor of ClientMessageId checks it. *)
Definition clientKey (userId : Z) (parsed : ParsedChatMessage) : beff string :=
  key <- (if pm_legacy parsed
          then n <- nextLegacy ;; ret (makeLegacyIdentity userId n)
          else ret (pm_clientMessageId parsed)) ;;
  if ClientMessageId_isValid key then ret key else throw InvalidArgument.

Definition outcomeView (key : string) (o : AcceptOutcome) : AcceptResultView :=
  mkAcceptView (ao_ok o) (ao_duplicate o) (if ao_ok o then 0 else acceptErrorToErrno (ao_error o)) key
    (ao_messageId o) (ao_conversationId o) (ao_sequence o).

Definition withKey (key : string) (cmd : SendMessageCommand) : SendMessageCommand :=
  mkCommand key (kind cmd) (directRecipient cmd) (groupId cmd) (members cmd) (content cmd).

Definition acceptChatCommand (userId generation : Z) (parsed : ParsedChatMessage)
    (kind : ChatCommandKind) : beff AcceptResultView :=
  checked <- precheck userId parsed kind ;;
  match checked with
  | inr err => ret (failedView err emptyView)
  | inl cmd =>
      key <- clientKey userId parsed ;;
      let sender := mkSession (u64 userId) (u64 generation) in
      catchAll
        (o <- onMessaging (accept sender (withKey key cmd)) ;;
         ret (outcomeView key o))
        (fun x => ret (mkAcceptView false false
           (match x with
            | MessageStoreError k => storeErrorKindToErrno k
            | _ => kErrnoDependencyBusy
            end) key 0 0 0))
  end.
End accepting.
