(* ===== verification/ProtocolInv.v ===== *)
(** * The protocol adapter: equivalence of the encoders, error numbers

    The encoders that write bytes agree with dumping the JSON reply; a chat
    command ends in an acceptance or in one of the stable error numbers. *)

From S2P Require Import Prelude DomainTypes Metrics Store World Coordinator Messaging Json JsonText SessionRegistry Application Protocol.
From S2P Require Import ViewInv CoordinatorInv MessagingInv Guarantees.
From stdpp Require Import pretty.
From Stdlib Require Import Ascii.

Open Scope Z_scope.
Open Scope eff_scope.

(** ** The UTF-8 automaton *)

(** The least code point a state can hold, were it accepted with zeros. *)
Definition leastCode (state : Z) : Z :=
  if state =? 0 then 0x80
  else if state =? 2 then 2
  else if (state =? 3) || (state =? 5) || (state =? 7) || (state =? 8) then 1
  else 0.

Definition mostCode (state : Z) : Z :=
  if state =? 0 then 2 ^ 22
  else if state =? 2 then 2 ^ 16
  else if state =? 3 then 2 ^ 10
  else 2 ^ 4.

Definition inner (state : Z) : Prop := 2 <= state <= 8.

Definition codeOk (state codep : Z) : Prop := leastCode state <= codep < mostCode state.

Definition byteRange : list Z := Z.of_nat <$> seq 0 256.

Definition stateRange : list Z := [2; 3; 4; 5; 6; 7; 8].

(** One inner step, checked for every state and byte: it rejects, or the byte is
    not ASCII and the bounds carry over. *)
Definition innerStep (state byte : Z) : bool :=
  let next := utf8At (256 + state * 16 + utf8At byte) in
  let b := Z.land byte 0x3f in
  (next =? UTF8_REJECT) ||
  ((0x80 <=? byte) && ((next =? 0) || ((2 <=? next) && (next <=? 8)))
   && (leastCode next <=? b + 64 * leastCode state)
   && (b + 64 * (mostCode state - 1) <? mostCode next)).

Lemma innerStep_all : forallb (fun s => forallb (innerStep s) byteRange) stateRange = true.
Proof. vm_compute. reflexivity. Qed.

(** One step from the accepting state: ASCII is accepted as itself, another
    byte is rejected or opens a sequence. *)
Definition outerStep (byte : Z) : bool :=
  let type := utf8At byte in
  let next := utf8At (256 + type) in
  let codep := Z.land (Z.shiftr 0xFF type) byte in
  if byte <? 0x80 then (next =? 0) && (codep =? byte)
  else (next =? UTF8_REJECT) ||
       ((2 <=? next) && (next <=? 8) && (leastCode next <=? codep) && (codep <? mostCode next)).

Lemma outerStep_all : forallb outerStep byteRange = true.
Proof. vm_compute. reflexivity. Qed.

Lemma byteOf_range c : 0 <= byteOf c < 256.
Proof. unfold byteOf. pose proof (N_ascii_bounded c). lia. Qed.

Lemma in_byteRange b : 0 <= b < 256 -> In b byteRange.
Proof.
  intros. apply in_map_iff. exists (Z.to_nat b). split; [lia|]. apply in_seq. lia.
Qed.

Lemma in_stateRange s : inner s -> In s stateRange.
Proof. unfold inner, stateRange. intros. simpl. lia. Qed.

(** Appending six bits is an addition. *)
Lemma lor_shift6 b c : 0 <= c < 2 ^ 26 -> Z.lor (Z.land b 0x3f) (u32 (Z.shiftl c 6)) = Z.land b 0x3f + 64 * c.
Proof.
  intros Hc. rewrite Z.shiftl_mul_pow2 by lia.
  unfold u32. rewrite wrapU_small by lia.
  assert (Z.land (Z.land b 0x3f) (c * 2 ^ 6) = 0) as Hd.
  { change 0x3f with (Z.ones 6). rewrite Z.land_ones by lia.
    apply Z.bits_inj'. intros n Hn. rewrite Z.land_spec, Z.bits_0.
    destruct (Z.lt_ge_cases n 6).
    - by rewrite Z.mul_pow2_bits_low, andb_false_r by lia.
    - by rewrite Z.mod_pow2_bits_high by lia. }
  rewrite <- Z.lxor_lor, <- Z.add_nocarry_lxor by done. lia.
Qed.

Lemma decode_inner state codep byte :
  inner state -> codeOk state codep -> 0 <= byte < 256 ->
  let '(state', codep') := decode state codep byte in
  state' = UTF8_REJECT \/
  (0x80 <= byte /\ (state' = UTF8_ACCEPT \/ inner state') /\ codeOk state' codep').
Proof.
  intros Hs Hc Hb. unfold decode, UTF8_ACCEPT.
  destruct (Z.eqb_spec state 0) as [->|_]; [unfold inner in Hs; lia|]. cbn [negb].
  assert (0 <= leastCode state /\ mostCode state <= 2 ^ 22) as [Hl Hm].
  { unfold leastCode, mostCode. repeat case_match; lia. }
  unfold codeOk in *. rewrite lor_shift6 by lia.
  pose proof innerStep_all as H. rewrite forallb_forall in H.
  specialize (H state (in_stateRange _ Hs)). rewrite forallb_forall in H.
  specialize (H byte (in_byteRange _ Hb)). unfold innerStep in H.
  apply orb_true_iff in H as [H|H]; [left; by apply Z.eqb_eq|right].
  rewrite !andb_true_iff, orb_true_iff, andb_true_iff in H. unfold inner. lia.
Qed.

Lemma decode_outer codep byte :
  0 <= byte < 256 ->
  let '(state', codep') := decode UTF8_ACCEPT codep byte in
  if byte <? 0x80 then state' = UTF8_ACCEPT /\ codep' = byte
  else state' = UTF8_REJECT \/ (inner state' /\ codeOk state' codep').
Proof.
  intros Hb. unfold decode, UTF8_ACCEPT. cbn [Z.eqb negb].
  pose proof outerStep_all as H. rewrite forallb_forall in H.
  specialize (H byte (in_byteRange _ Hb)). unfold outerStep in H. cbv zeta in H.
  replace (256 + 0 * 16 + utf8At byte) with (256 + utf8At byte) by lia.
  destruct (byte <? 0x80).
  - rewrite andb_true_iff in H. lia.
  - apply orb_true_iff in H as [H|H]; [left; by apply Z.eqb_eq|right].
    rewrite !andb_true_iff in H. unfold inner, codeOk. lia.
Qed.

(** ** Strings *)

Lemma high_byte_raw c : 0x80 <= byteOf c -> appendJsonByte c = String c EmptyString.
Proof.
  intros H. unfold appendJsonByte. cbv zeta.
  repeat (rewrite (proj2 (Z.eqb_neq (byteOf c) _)) by lia). by rewrite (proj2 (Z.leb_gt _ _)) by lia.
Qed.

Lemma high_code_raw cp c : 0x80 <= cp -> dumpCodepoint cp c = String c EmptyString.
Proof.
  intros H. unfold dumpCodepoint.
  repeat (rewrite (proj2 (Z.eqb_neq cp _)) by lia). by rewrite (proj2 (Z.leb_gt _ _)) by lia.
Qed.

Definition decoding (state codep : Z) : Prop :=
  state = UTF8_ACCEPT \/ (inner state /\ codeOk state codep).

(** A step that does not reject writes what the byte encoder writes. *)
Lemma decode_step state codep c :
  decoding state codep ->
  let '(state', codep') := decode state codep (byteOf c) in
  state' = UTF8_REJECT \/
  (state' <> UTF8_REJECT /\ decoding state' codep' /\
   (if state' =? UTF8_ACCEPT then dumpCodepoint codep' c else String c EmptyString)
   = appendJsonByte c).
Proof.
  intros [->|[Hs Hc]].
  - pose proof (decode_outer codep (byteOf c) (byteOf_range c)) as H.
    destruct (decode _ _ _) as [st cp]. destruct (Z.ltb_spec (byteOf c) 0x80).
    { destruct H as [-> ->]. right. by repeat split; [|left]. }
    destruct H as [H|[Hi Hok]]; [by left|right].
    destruct (Z.eqb_spec st UTF8_ACCEPT) as [->|]; [by destruct Hi|].
    split; [intros ->; by destruct Hi|]. split; [by right|]. by rewrite high_byte_raw.
  - pose proof (decode_inner state codep (byteOf c) Hs Hc (byteOf_range c)) as H.
    destruct (decode _ _ _) as [st cp]. destruct H as [H|(Hb & Hst & Hok)]; [by left|right].
    rewrite high_byte_raw by done. destruct (Z.eqb_spec st UTF8_ACCEPT) as [->|Hne].
    { split; [done|]. split; [by left|]. apply high_code_raw, Hok. }
    destruct Hst as [->|Hi]; [done|]. split; [intros ->; by destruct Hi|]. by split; [right|].
Qed.

Lemma dumpEscapedFrom_bytes s state codep t :
  decoding state codep -> dumpEscapedFrom state codep s = Some t -> t = appendJsonBytes s.
Proof.
  revert state codep t. induction s as [|c s IH]; intros state codep t Hd; cbn [dumpEscapedFrom].
  { destruct (state =? _); [by intros [= <-]|done]. }
  pose proof (decode_step state codep c Hd) as Hstep.
  destruct (decode _ _ _) as [st cp]. destruct Hstep as [->|(Hne & Hd' & Hw)]; [done|].
  apply Z.eqb_neq in Hne. rewrite Hne.
  destruct (dumpEscapedFrom st cp s) as [tail|] eqn:E; [|done]. cbn. intros [= <-].
  rewrite Hw. cbn [appendJsonBytes]. by rewrite (IH st cp tail).
Qed.

Lemma dump_escaped_bytes s t : dump_escaped s = Some t -> t = appendJsonBytes s.
Proof. apply dumpEscapedFrom_bytes. by left. Qed.

(** ASCII text is well-formed. *)
Fixpoint isAscii (s : string) : bool :=
  match s with
  | EmptyString => true
  | String c rest => (byteOf c <? 0x80) && isAscii rest
  end.

Lemma dump_escaped_ascii s : isAscii s = true -> dump_escaped s = Some (appendJsonBytes s).
Proof.
  unfold dump_escaped. generalize 0 as cp.
  induction s as [|c s IH]; intros cp; [done|]. cbn [isAscii dumpEscapedFrom appendJsonBytes].
  rewrite andb_true_iff. intros [Hc Hs].
  pose proof (decode_outer cp (byteOf c) (byteOf_range c)) as H. rewrite Hc in H.
  destruct (decode _ _ _) as [st cp']. destruct H as [-> ->]. cbn.
  by rewrite (IH (byteOf c) Hs).
Qed.

Lemma printable_ascii s : printableAscii s = true -> isAscii s = true.
Proof.
  induction s as [|c s IH]; [done|]. cbn [printableAscii isAscii].
  destruct (_ || _) eqn:E; [done|]. intros H. rewrite (IH H), andb_true_r.
  apply orb_false_iff in E as [_ E]. apply Z.ltb_ge in E. unfold nat_of_ascii in E.
  unfold byteOf. apply Z.ltb_lt. lia.
Qed.

Lemma valid_id_ascii s : ClientMessageId_isValid s = true -> isAscii s = true.
Proof. unfold ClientMessageId_isValid. case_match; [done|]. apply printable_ascii. Qed.

(** ** Integers *)

Lemma digit_pretty n : 0 <= n < 10 -> digit n = pretty_N_char (Z.to_N n).
Proof.
  intros Hn. apply (elem_of_seqZ 0 10) in Hn. revert n Hn. apply Forall_forall.
  repeat constructor.
Qed.

Lemma pretty_go_Z x s :
  0 < x -> pretty_N_go (Z.to_N x) s = pretty_N_go (Z.to_N (x / 10)) (String (digit (x mod 10)) s).
Proof.
  intros Hx. rewrite pretty_N_go_step by lia. change 10%N with (Z.to_N 10).
  rewrite <- Z2N.inj_mod, <- Z2N.inj_div by lia.
  by rewrite digit_pretty by (apply Z.mod_pos_bound; lia).
Qed.

(** The digit loop of the library, two digits a round. *)
Lemma intLoop_pretty rounds x s :
  0 < x < 100 ^ Z.of_nat rounds -> intLoop rounds x s = pretty_N_go (Z.to_N x) s.
Proof.
  revert x s. induction rounds as [|r IH]; intros x s Hx; [change (100 ^ Z.of_nat 0) with 1 in Hx; lia|].
  rewrite Nat2Z.inj_succ, Z.pow_succ_r in Hx by lia. cbn [intLoop].
  rewrite (pretty_go_Z x) by lia.
  destruct (Z.leb_spec 100 x); [|destruct (Z.leb_spec 10 x)].
  - rewrite IH by (split; [apply Z.div_str_pos; lia|apply Z.div_lt_upper_bound; lia]).
    rewrite (pretty_go_Z (x / 10)) by (apply Z.div_str_pos; lia).
    rewrite Z.div_div by lia.
    replace (x mod 100 / 10) with (x / 10 mod 10) by (Z.to_euclidean_division_equations; lia).
    by replace (x mod 100 mod 10) with (x mod 10) by (Z.to_euclidean_division_equations; lia).
  - rewrite (pretty_go_Z (x / 10)) by (apply Z.div_str_pos; lia).
    replace (x / 10 / 10) with 0 by (Z.to_euclidean_division_equations; lia).
    by replace (x / 10 mod 10) with (x / 10) by (Z.to_euclidean_division_equations; lia).
  - replace (x / 10) with 0 by (Z.to_euclidean_division_equations; lia).
    by rewrite Z.mod_small by lia.
Qed.

Lemma dump_integer_pretty x : - 2 ^ 63 <= x < 2 ^ 64 -> dump_integer x = pretty x.
Proof.
  intros Hx. unfold dump_integer, pretty, pretty_Z. destruct x as [|p|p]; [done|..].
  - change (Z.pos p =? 0) with false. change (Z.pos p <? 0) with false. cbv iota.
    rewrite u64_small by (unfold isU64; lia). 
    by rewrite intLoop_pretty by (change (100 ^ Z.of_nat 10) with (10 ^ 20); lia).
  - change (Z.neg p =? 0) with false. change (Z.neg p <? 0) with true. cbv iota.
    rewrite (u64_small (- _)), u64_small by (unfold isU64; lia).
    replace (- (Z.neg p + 1) + 1) with (Z.pos p) by lia. 
    by rewrite intLoop_pretty by (change (100 ^ Z.of_nat 10) with (10 ^ 20); lia).
Qed.

(** ** The encoders *)

Lemma append_assoc (a b c : string) : (a +:+ b) +:+ c = a +:+ (b +:+ c).
Proof. induction a as [|x a IH]; [done|]. exact (f_equal (String x) IH). Qed.

Lemma append_cons c (a b : string) : String c a +:+ b = String c (a +:+ b).
Proof. done. Qed.

Lemma append_nil (b : string) : EmptyString +:+ b = b.
Proof. done. Qed.

(** Compare concatenations of literals and variables. *)
Ltac flatten :=
  cbn [mbind option_bind joined]; unfold keyText, quoted, newline; try apply (f_equal Some);
  repeat (rewrite append_assoc || rewrite append_cons || rewrite append_nil); reflexivity.

(** Literal keys are written as they are. *)
Ltac literal_keys :=
  repeat match goal with
  | |- context [dump_escaped (String ?c ?r)] =>
      change (dump_escaped (String c r)) with (Some (String c r))
  end.

Section encoders.
Context `{!JsonFloat}.

Fixpoint dumpFields (fields : list (string * Json)) : option (list string) :=
  match fields with
  | [] => Some []
  | (k, v) :: rest =>
      kt ← dump_escaped k; t ← dump v; ts ← dumpFields rest;
      Some ((quoted kt +:+ String ":" t) :: ts)
  end.

Lemma dump_JObj fields :
  dump (JObj fields) = items ← dumpFields fields; Some (String "{" (joined items +:+ "}")).
Proof. reflexivity. Qed.

(** The fields in the order of the keys. *)
Lemma accepted_fields msgid id m c s dup :
  buildMessageAcceptedReply msgid id m c s dup =
  JObj [("client_message_id", JStr id); ("conversation_id", JInt c); ("duplicate", JBool dup);
        ("message_id", JInt m); ("msgid", JInt msgid); ("sequence", JInt s)].
Proof. reflexivity. Qed.

Lemma error_fields msgid errno errmsg oid :
  buildErrorReply msgid errno errmsg oid =
  JObj ((match oid with Some id => [("client_message_id", JStr id)] | None => [] end)
        ++ [("errmsg", JStr errmsg); ("errno", JInt errno); ("msgid", JInt msgid)]).
Proof. by destruct oid. Qed.

Lemma dump_accepted msgid id m c s dup :
  isI64 msgid -> isU64 m -> isU64 c -> isU64 s ->
  dump (buildMessageAcceptedReply msgid id m c s dup) =
  t ← dump_escaped id;
  Some ("{" +:+ keyText "client_message_id" +:+ quoted t
        +:+ "," +:+ keyText "conversation_id" +:+ pretty c
        +:+ "," +:+ keyText "duplicate" +:+ (if dup then "true" else "false")
        +:+ "," +:+ keyText "message_id" +:+ pretty m
        +:+ "," +:+ keyText "msgid" +:+ pretty msgid
        +:+ "," +:+ keyText "sequence" +:+ pretty s +:+ "}").
Proof.
  unfold isI64, isU64. intros. rewrite accepted_fields, dump_JObj. cbn [dumpFields dump].
  rewrite !dump_integer_pretty by lia. literal_keys. destruct (dump_escaped id) as [t|]; [|reflexivity].
  flatten.
Qed.

Lemma dump_error msgid errno errmsg oid :
  isI64 msgid -> isI64 errno ->
  dump (buildErrorReply msgid errno errmsg oid) =
  pre ← (match oid with
         | Some id => t ← dump_escaped id;
             Some (keyText "client_message_id" +:+ quoted t +:+ ",")
         | None => Some EmptyString
         end);
  t ← dump_escaped errmsg;
  Some ("{" +:+ pre +:+ keyText "errmsg" +:+ quoted t
        +:+ "," +:+ keyText "errno" +:+ pretty errno
        +:+ "," +:+ keyText "msgid" +:+ pretty msgid +:+ "}").
Proof.
  unfold isI64. intros. rewrite error_fields, dump_JObj.
  destruct oid as [id|]; cbn [app dumpFields dump]; rewrite !dump_integer_pretty by lia; literal_keys.
  1: destruct (dump_escaped id); [|reflexivity].
  all: destruct (dump_escaped errmsg); [flatten|reflexivity].
Qed.

(** The two ways to write a reply agree.  Whenever dumping the JSON reply gives a
    text, the encoder that writes bytes directly gives the same text and a
    newline, for every client message id, error text and number; and dumping
    always succeeds on ASCII, so for every client message id that passed
    validation. *)
Theorem reply_encoders_agree msgid id m c s dup errno errmsg oid :
  isI64 msgid -> isI64 errno -> isU64 m -> isU64 c -> isU64 s ->
  (forall t, dump (buildMessageAcceptedReply msgid id m c s dup) = Some t ->
     encodeMessageAcceptedReply msgid id m c s dup = t +:+ newline) /\
  (forall t, dump (buildErrorReply msgid errno errmsg oid) = Some t ->
     encodeErrorReply msgid errno errmsg oid = t +:+ newline) /\
  (ClientMessageId_isValid id = true ->
     is_Some (dump (buildMessageAcceptedReply msgid id m c s dup))) /\
  is_Some (dump (buildErrorReply msgid errno (protocolErrmsg errno) None)).
Proof.
  intros H1 H2 H3 H4 H5. rewrite dump_accepted, !dump_error by done.
  repeat split.
  - intros t. destruct (dump_escaped id) as [t'|] eqn:E; [|done]. apply dump_escaped_bytes in E as ->.
    intros [= <-]. unfold encodeMessageAcceptedReply, appendJsonString. flatten.
  - intros t. unfold encodeErrorReply, appendJsonString.
    destruct oid as [id'|]; [destruct (dump_escaped id') as [t'|] eqn:E'; [|done];
      apply dump_escaped_bytes in E' as ->|]; cbn [mbind option_bind];
    (destruct (dump_escaped errmsg) as [u|] eqn:E; [|done]);
    apply dump_escaped_bytes in E as ->; intros [= <-]; flatten.
  - intros Hv. by rewrite dump_escaped_ascii by (by apply valid_id_ascii).
  - rewrite dump_escaped_ascii; [done|]. unfold protocolErrmsg. by repeat case_match.
Qed.
End encoders.

(** ** Keys *)

Lemma printable_app a b : printableAscii (a +:+ b) = printableAscii a && printableAscii b.
Proof.
  induction a as [|c a IH]; [done|]. rewrite append_cons. cbn [printableAscii].
  by destruct (_ || _).
Qed.

Lemma length_append a b : String.length (a +:+ b) = (String.length a + String.length b)%nat.
Proof. induction a as [|c a IH]; [done|]. rewrite append_cons. cbn [String.length]. by rewrite IH. Qed.

Lemma pretty_go_ascii n x s :
  0 <= x < 10 ^ Z.of_nat n ->
  printableAscii (pretty_N_go (Z.to_N x) s) = printableAscii s /\
  (String.length (pretty_N_go (Z.to_N x) s) <= n + String.length s)%nat.
Proof.
  revert x s. induction n as [|n IH]; intros x s Hx.
  { change (10 ^ Z.of_nat 0) with 1 in Hx. replace x with 0 by lia. by rewrite pretty_N_go_0. }
  rewrite Nat2Z.inj_succ, Z.pow_succ_r in Hx by lia.
  destruct (decide (x = 0)) as [->|]; [rewrite pretty_N_go_0; split; [done|lia]|].
  rewrite pretty_go_Z by lia.
  destruct (IH (x / 10) (String (digit (x mod 10)) s)) as [-> Hl].
  { split; [apply Z.div_pos; lia|apply Z.div_lt_upper_bound; lia]. }
  split; [|cbn [String.length] in Hl; lia].
  pose proof (Z.mod_pos_bound x 10 ltac:(lia)). rewrite digit_pretty by lia. cbn [printableAscii].
  unfold pretty_N_char. by repeat case_match.
Qed.

Lemma pretty_ascii x :
  - 2 ^ 63 <= x < 2 ^ 64 ->
  printableAscii (pretty x) = true /\ (String.length (pretty x) <= 21)%nat.
Proof.
  intros Hx. destruct x as [|p|p]; [split; [done|vm_compute; lia]|..];
    destruct (pretty_go_ascii 20 (Z.pos p) EmptyString) as [Ha Hl];
    try (change (10 ^ Z.of_nat 20) with (10 ^ 20); lia).
  - change (pretty (Z.pos p)) with (pretty_N_go (Z.to_N (Z.pos p)) EmptyString).
    split; [done|]. cbn [String.length] in Hl. lia.
  - change (pretty (Z.neg p)) with (String "-" (pretty_N_go (Z.to_N (Z.pos p)) EmptyString)).
    split; [done|]. cbn [String.length] in *. lia.
Qed.

Lemma legacy_key_valid userId n :
  isI64 userId -> isU64 n -> ClientMessageId_isValid (makeLegacyIdentity userId n) = true.
Proof.
  unfold isI64, isU64. intros Hu Hn.
  destruct (pretty_ascii userId ltac:(lia)) as [Pu Lu], (pretty_ascii n ltac:(lia)) as [Pn Ln].
  unfold ClientMessageId_isValid, makeLegacyIdentity.
  rewrite !length_append, !printable_app, Pu, Pn. cbn [String.length].
  rewrite (proj2 (Z.eqb_neq _ _)), (proj2 (Z.ltb_ge _ _)) by lia. done.
Qed.

(** ** Accepting *)

Section outcome.
Context {R S E D : Type} `{!Repositories R, !MessageStore S, !MessageStoreLaws S, !Env E}.
Context `{!UserTable D, !JsonFloat}.

Notation B := (Backend R S E D).

Definition stableErrno (errno : Z) : Prop := 101 <= errno <= 107.

Lemma acceptErrorToErrno_stable e : stableErrno (acceptErrorToErrno e).
Proof. by destruct e. Qed.

Lemma storeErrorKindToErrno_stable k : stableErrno (storeErrorKindToErrno k).
Proof. by destruct k. Qed.

(** The checks return, leave the messaging state alone and either carry the
    content into the command or name a stable error. *)
Lemma precheck_spec userId parsed kind (b : B) :
  wp (precheck userId parsed kind)
    (fun r b' => bk_rm b' = bk_rm b /\ bk_legacy b' = bk_legacy b /\
       match r with
       | inl cmd => content cmd = pm_content parsed
       | inr err => stableErrno err
       end) (fun _ _ => False) b.
Proof.
  unfold precheck, wp, bind, ret. destruct kind.
  - unfold checkUserExists. destruct (selectUser _ _) as [d []]; done.
  - unfold onApp. destruct (App.groupMembers _ _) as [a [ok ids err]].
    cbn [mr_ok mr_userIds]. destruct ok; [|done]. cbn [negb].
    destruct ids as [|i ids]; [done|]. by destruct (existsb _ _).
Qed.

Lemma clientKey_spec userId parsed (b : B) :
  isI64 userId -> isU64 (bk_legacy b) ->
  (pm_legacy parsed = false -> ClientMessageId_isValid (pm_clientMessageId parsed) = true) ->
  wp (clientKey userId parsed)
    (fun key b' => bk_rm b' = bk_rm b /\
       key = if pm_legacy parsed then makeLegacyIdentity userId (bk_legacy b)
             else pm_clientMessageId parsed) (fun _ _ => False) b.
Proof.
  intros Hu Hn Hv. unfold clientKey, wp, bind, nextLegacy, ret. destruct (pm_legacy parsed).
  - by rewrite legacy_key_valid.
  - by rewrite Hv.
Qed.

(** What parsing guarantees. *)
Lemma parsed_key_valid kind js parsed :
  parseChatMessage kind js = Some (parsed, 0) ->
  pm_legacy parsed = false -> ClientMessageId_isValid (pm_clientMessageId parsed) = true.
Proof.
  assert (forall legacy hasId id p, parseBody kind js legacy hasId id = Some (p, 0) ->
            pm_legacy p = legacy /\ pm_clientMessageId p = id) as Hbody.
  { intros legacy hasId id p. unfold parseBody. destruct (atKey getString _ js); [|done]. cbn.
    destruct (_ <? _); [done|]. destruct kind; destruct (atKey getInt64 _ js); [|done| |done];
      cbn; intros [= <-]; done. }
  unfold parseChatMessage. destruct (contains _ js).
  - destruct (atKey getString _ js) as [id|]; [|done]. cbn.
    destruct (ClientMessageId_isValid id) eqn:Hv; [|done]. cbn.
    intros Hp. by apply Hbody in Hp as [_ ->].
  - intros Hp. by apply Hbody in Hp as [-> _].
Qed.

(** What a view tells the client, given the messages stored afterwards. *)
Definition truthfulView (userId : Z) (parsed : ParsedChatMessage) (v : AcceptResultView) (b : B) : Prop :=
  if av_ok v then
    av_errnoCode v = 0 /\
    (pm_legacy parsed = false -> av_clientMessageId v = pm_clientMessageId parsed) /\
    exists m, v_accepted (view (w_store (bk_rm b))) !! (u64 userId, av_clientMessageId v) = Some m /\
      content (msg_command m) = pm_content parsed /\ av_messageId v = msg_id m /\
      av_conversationId v = msg_conversationId m /\ av_sequence v = msg_sequence m
  else stableErrno (av_errnoCode v).

Lemma accepted_view userId generation parsed cmd key (b : B) :
  world_ok (bk_rm b) -> 2 <= capacity (w_store (bk_rm b)) ->
  content cmd = pm_content parsed ->
  (pm_legacy parsed = false -> key = pm_clientMessageId parsed) ->
  wp (catchAll
        (o <- onMessaging (accept (mkSession (u64 userId) (u64 generation)) (withKey key cmd)) ;;
         ret (outcomeView key o))
        (fun x => ret (mkAcceptView false false
           (match x with
            | MessageStoreError k => storeErrorKindToErrno k
            | _ => kErrnoDependencyBusy
            end) key 0 0 0)))
    (truthfulView userId parsed) (fun x _ => x = Diverges) b.
Proof.
  intros Hw Hn Hc Hk. unfold wp, catchAll, catch, bind, onMessaging, zoom.
  destruct (accept _ (withKey key cmd) (bk_rm b)) as [w' [o|x]] eqn:Hrun.
  - cbn. unfold truthfulView, outcomeView. cbn. destruct (ao_ok o) eqn:Hok;
      [|apply acceptErrorToErrno_stable].
    destruct (accepted_key _ _ _ _ _ Hw Hn Hrun Hok) as (_ & m & Ha & Hs & Hm).
    split; [done|]. split; [exact Hk|]. exists m. split; [exact Ha|]. split; [|exact Hm].
    apply samePayload_spec in Hs. destruct Hs as (_ & Hs & _). by rewrite Hs.
  - destruct x; cbn; try done. apply storeErrorKindToErrno_stable.
Qed.

(** C8: A chat command that parses is answered truthfully.  If the answer is an
    acceptance, a message with that identity, conversation and sequence is
    stored for the sender under the answered key, with the content of the
    command; otherwise the answer is one of the stable error numbers 101..107.
    No exception escapes (divergence apart, which [calls_terminate] excludes). *)
Theorem chat_command_answer_is_truthful userId generation js kind parsed (b b' : B) r :
  isI64 userId -> isU64 (bk_legacy b) ->
  world_ok (bk_rm b) -> 2 <= capacity (w_store (bk_rm b)) ->
  parseChatMessage kind js = Some (parsed, 0) ->
  acceptChatCommand userId generation parsed kind b = (b', r) ->
  match r with
  | Ret v => truthfulView userId parsed v b'
  | Throw x => x = Diverges
  end.
Proof.
  intros Hu Hl Hw Hn Hparse Hrun. enough (wp (acceptChatCommand userId generation parsed kind)
    (truthfulView userId parsed) (fun x _ => x = Diverges) b) as Hwp.
  { unfold wp in Hwp. rewrite Hrun in Hwp. by destruct r. }
  clear Hrun. unfold acceptChatCommand. apply wp_bind.
  eapply wp_mono; [apply precheck_spec| |by intros ? ? []].
  intros [cmd|err] b1 (Hrm & Hleg & Hr); [|exact Hr]. apply wp_bind.
  eapply wp_mono; [apply clientKey_spec; [done|by rewrite Hleg|by eapply parsed_key_valid]| |by intros ? ? []].
  intros key b2 [Hrm2 ->]. apply accepted_view; [by rewrite Hrm2, Hrm..|done|].
  by intros ->.
Qed.
End outcome.
