(* ===== verification/SessionDelivery.v ===== *)
(** * Delivery to the connections of this process
    (chatserver/src/SessionDeliverySink.cpp, class SessionDeliverySink)

    The node of a gateway: its session registry and its network.  The sink looks
    up the connection bound to the recipient and writes the delivery to it.  The
    node is the environment under the gateway's cluster, and the cluster the
    environment of the messaging module, as the wiring of the process has it. *)

From S2P Require Import Prelude DomainTypes Metrics World Json JsonText SessionRegistry Presence Gateway.
From stdpp Require Import pretty.
From Stdlib Require Import QArith Ascii.

Open Scope Z_scope.

(** TcpConnection::SendOutcome. *)
Inductive SendDisposition := SendAccepted | SendWouldBlock | SendClosed | SendTooLarge.
Inductive SendPressure := PressureNormal | PauseProducer.

Record SendOutcome := mkSendOutcome { so_disposition : SendDisposition; so_pressure : SendPressure }.

(** What the process asks of its platform: clocks, the jitter draw, and
    connections, each with the event loop that owns it. *)
Class Platform (N : Type) := {
  platformNow : N -> N * Z;
  steadyNow : N -> N * Z;
  platformJitter : Q -> Z -> N -> N * Z;
  recorderNow : N -> N * Z;
  netConnected : Conn -> N -> bool;
  netSend : Conn -> string -> N -> N * SendOutcome;
  netForceClose : Conn -> N -> N;
  connLoop : Conn -> Z;
}.

(** What happened at the node, oldest first: a record for the theorems. *)
Inductive NodeEvent :=
| Authenticated (conn : Conn) (userId generation : Z)   (**r a login task was authenticated *)
| Delivered (conn : Conn) (attempt : DeliveryAttempt)    (**r a delivery was written *)
| Acting (conn : Conn) (session : BoundSession)          (**r an accept or an ack in its name *)
| Replied (conn : Conn) (text : string).

Record Node (N : Type) := mkNode {
  nd_registry : SessionRegistry;
  nd_net : N;
  nd_log : list NodeEvent;
}.
Arguments mkNode {N}.
Arguments nd_registry {N}.
Arguments nd_net {N}.
Arguments nd_log {N}.

Section node.
Context {N : Type} `{!Platform N, !JsonFloat}.

Definition put_net (n : N) (d : Node N) : Node N := mkNode (nd_registry d) n (nd_log d).

Definition put_registry (r : SessionRegistry) (d : Node N) : Node N :=
  mkNode r (nd_net d) (nd_log d).

Definition note (ev : NodeEvent) (d : Node N) : Node N :=
  mkNode (nd_registry d) (nd_net d) (nd_log d ++ [ev]).

Definition onNet {A} (f : N -> N * A) (d : Node N) : Node N * A :=
  let '(n, a) := f (nd_net d) in (put_net n d, a).

Definition ONE_CHAT_MSG : Z := 6.
Definition GROUP_CHAT_MSG : Z := 10.

(** The JSON object a delivery is written as. *)
Definition deliveryPayload (a : DeliveryAttempt) : Json :=
  objectOf ([("msgid", JInt (match at_kind a with Direct => ONE_CHAT_MSG | Group => GROUP_CHAT_MSG end));
             ("id", JInt (at_senderId a));
             match at_kind a with
             | Direct => ("toid", JInt (at_directRecipient a))
             | Group => ("groupid", JInt (at_groupId a))
             end;
             ("content", JStr (at_content a)); ("message_id", JInt (at_messageId a));
             ("conversation_id", JInt (at_conversationId a)); ("sequence", JInt (at_sequence a))]).

Definition dispositionOf (o : SendOutcome) : DeliverDisposition :=
  match so_disposition o with
  | SendAccepted => match so_pressure o with
                    | PauseProducer => DispPaused
                    | PressureNormal => DispAccepted
                    end
  | SendWouldBlock => DispPaused
  | SendClosed | SendTooLarge => DispClosed
  end.

(** [conn->send(text + "\n")] *)
Definition sendLine (conn : Conn) (text : string) (d : Node N) : Node N * SendOutcome :=
  onNet (netSend conn (text +:+ String (ascii_of_N 10) EmptyString)) d.

(** [SessionDeliverySink::deliver]; the lookup takes the recipient as an int64. *)
Definition sessionDeliver (attempt : DeliveryAttempt) (d : Node N)
  : Node N * outcome exn DeliverDisposition :=
  match Registry.lookupByUser (i64 (at_recipient attempt)) (nd_registry d) with
  | None => (d, Ret DispClosed)
  | Some conn =>
      if negb (netConnected conn (nd_net d)) then (d, Ret DispClosed)
      else match dump (deliveryPayload attempt) with
           | None => (d, Throw OtherException)
           | Some text =>
               let '(d', o) := sendLine conn text (note (Delivered conn attempt) d) in
               (d', Ret (dispositionOf o))
           end
  end.

(** ** The wiring of the process *)

#[export] Instance nodeCluster : ClusterEnv (Node N) := {|
  clusterNow := onNet platformNow;
  localDeliver _ := sessionDeliver;
|}.

End node.

(** The identity of the gateway this process is. *)
Class LocalGateway := localGateway : GatewayId.

Section wiring.
Context {P N : Type} `{!Platform N, !JsonFloat, !PresenceDirectory P (Node N), !LocalGateway}.

Notation C := (Cluster P (Node N)).

Definition put_node (d : Node N) (c : C) : C :=
  mkCluster (c_presence c) (c_gateways c) (c_targets c) d.

Definition onNode {A} (f : Node N -> Node N * A) (c : C) : C * A :=
  let '(d, a) := f (c_env c) in (put_node d c, a).

#[export] Instance nodeMetrics : MetricsClock C := {| metricsNow := onNode (onNet recorderNow) |}.

(** Deliveries go through the GatewayAwareDeliverySink of this gateway. *)
#[export] Instance gatewayEnv : Env C := {|
  clockNow := onNode (onNet platformNow);
  sinkDeliver := gatewayDeliver localGateway;
  jitterDraw f d := onNode (onNet (platformJitter f d));
  env_metrics := nodeMetrics;
|}.
End wiring.
