(* ===== verification/TcpConnection.v ===== *)
(** * A TCP connection (mymuduo/TcpConnection.cc, TcpConnection.h)

    The output side of a connection with its flow control: a byte budget that
    any thread reserves from by compare-and-swap, the frames handed to the loop
    of the connection, the output buffer, the pause of reading, the stall timer
    and the low-water callback; and the life of the connection.

    Threads interleave.  Thread 0 is the thread of the connection's loop.  A call
    of [send] takes a step for its checks, one for each turn of the reservation
    loop and one to hand the frame over; [sendInLoop] takes one step up to the
    write and one for the rest.  System calls are arguments of the steps. *)

From S2P Require Import Prelude Buffer Codec SessionDelivery.

Open Scope Z_scope.

Inductive StateE := kDisconnected | kConnecting | kConnected | kDisconnecting.

#[export] Instance StateE_eq_dec : EqDecision StateE.
Proof. solve_decision. Defined.

Record WriteBufferLimits := mkLimits {
  pauseReadBytes : Z;
  resumeReadBytes : Z;
  hardLimitBytes : Z;
}.

Definition defaultLimits : WriteBufferLimits :=
  mkLimits (16 * 1024 * 1024) (8 * 1024 * 1024) (64 * 1024 * 1024).

Definition limitsValid (l : WriteBufferLimits) : bool :=
  (resumeReadBytes l <? pauseReadBytes l) && (resumeReadBytes l <? hardLimitBytes l).

(** [setWriteBufferLimits]: invalid limits are ignored. *)
Definition setWriteBufferLimits (l cur : WriteBufferLimits) : WriteBufferLimits :=
  if limitsValid l then l else cur.

(** The class OutputCodec. *)
Record OutputCodec := mkOutputCodec {
  encodedSize : Z -> Z;
  encode : list byte -> Buffer -> Buffer * EncodeResult;
}.

Definition binaryCodec (maxBodyLength : Z) : OutputCodec :=
  mkOutputCodec (Binary.encodedSize maxBodyLength) (Binary.encode maxBodyLength).

(** What [write] returns; an error other than these three keeps the bytes. *)
Inductive WriteResult := Wrote (n : nat) | WriteBlocked | WriteBroken | WriteOtherError.

(** A thread inside [send]: after the checks, with the budget it has loaded;
    and with its reservation made. *)
Inductive Producer :=
| Idle
| Reserving (message : list byte) (frameSize cur : Z)
| Reserved (message : list byte) (frameSize : Z) (overPause : bool).

(** What other threads queue to the loop. *)
Inductive LoopFunctor :=
| FSend (thread : nat) (message : list byte) (frameSize : Z)
| FStartStallTimer
| FForceClose
| FConnectDestroyed.

Inductive ConnEvent :=
| ConnectionUp
| ConnectionDown
| CloseCallback
| MessagesRead (ms : list (list byte))
| WriteComplete
| HighWater (size : Z)
| LowWater (called : bool).      (**r [called]: a pressure callback is installed *)

Record TcpConnection := mkConn {
  state_ : StateE;
  reading_ : bool;
  chanReading : bool;                        (**r interest of [channel_] *)
  chanWriting : bool;
  inputBuffer_ : Buffer;
  outputBuffer_ : Buffer;
  outstandingBytes_ : Z;
  lowWaterArmed_ : bool;
  pressureCallback_ : bool;
  stallTimerId_ : option nat;                (**r when [stallActive_] *)
  timers : gset nat;                         (**r live timers of this connection *)
  nextTimer : nat;
  pending : list LoopFunctor;
  producers : list Producer;
  busy : option (nat * list byte * list byte * Z);   (**r [sendInLoop] before its write *)
  socket : list byte;                        (**r bytes the socket took *)
  written : list (nat * list byte);          (**r messages [sendInLoop] took on, by thread *)
  posted : list (nat * list byte);           (**r messages accepted by [send], by thread *)
  events : list ConnEvent;
  outcomes : list (nat * SendOutcome);
}.

(** The thread that runs the loop. *)
Definition loopThread : nat := 0.

Definition newConnection (threads : nat) : TcpConnection :=
  mkConn kConnecting true false false (newBuffer kInitialSize) (newBuffer kInitialSize) 0 false false
    None ∅ 0 [] (replicate threads Idle) None [] [] [] [] [].

(** ** Updates *)

Definition setState (x : StateE) (c : TcpConnection) : TcpConnection :=
  mkConn x (reading_ c) (chanReading c) (chanWriting c) (inputBuffer_ c) (outputBuffer_ c)
    (outstandingBytes_ c) (lowWaterArmed_ c) (pressureCallback_ c) (stallTimerId_ c) (timers c)
    (nextTimer c) (pending c) (producers c) (busy c) (socket c) (written c) (posted c) (events c)
    (outcomes c).

Definition setReading (x y : bool) (c : TcpConnection) : TcpConnection :=
  mkConn (state_ c) x y (chanWriting c) (inputBuffer_ c) (outputBuffer_ c) (outstandingBytes_ c)
    (lowWaterArmed_ c) (pressureCallback_ c) (stallTimerId_ c) (timers c) (nextTimer c) (pending
    c) (producers c) (busy c) (socket c) (written c) (posted c) (events c) (outcomes c).

Definition setWriting (x : bool) (c : TcpConnection) : TcpConnection :=
  mkConn (state_ c) (reading_ c) (chanReading c) x (inputBuffer_ c) (outputBuffer_ c)
    (outstandingBytes_ c) (lowWaterArmed_ c) (pressureCallback_ c) (stallTimerId_ c) (timers c)
    (nextTimer c) (pending c) (producers c) (busy c) (socket c) (written c) (posted c) (events c)
    (outcomes c).

Definition disableAll (c : TcpConnection) : TcpConnection :=
  mkConn (state_ c) (reading_ c) false false (inputBuffer_ c) (outputBuffer_ c) (outstandingBytes_
    c) (lowWaterArmed_ c) (pressureCallback_ c) (stallTimerId_ c) (timers c) (nextTimer c)
    (pending c) (producers c) (busy c) (socket c) (written c) (posted c) (events c) (outcomes c).

Definition setInput (x : Buffer) (c : TcpConnection) : TcpConnection :=
  mkConn (state_ c) (reading_ c) (chanReading c) (chanWriting c) x (outputBuffer_ c)
    (outstandingBytes_ c) (lowWaterArmed_ c) (pressureCallback_ c) (stallTimerId_ c) (timers c)
    (nextTimer c) (pending c) (producers c) (busy c) (socket c) (written c) (posted c) (events c)
    (outcomes c).

Definition setOutput (x : Buffer) (c : TcpConnection) : TcpConnection :=
  mkConn (state_ c) (reading_ c) (chanReading c) (chanWriting c) (inputBuffer_ c) x
    (outstandingBytes_ c) (lowWaterArmed_ c) (pressureCallback_ c) (stallTimerId_ c) (timers c)
    (nextTimer c) (pending c) (producers c) (busy c) (socket c) (written c) (posted c) (events c)
    (outcomes c).

Definition setOutstanding (x : Z) (c : TcpConnection) : TcpConnection :=
  mkConn (state_ c) (reading_ c) (chanReading c) (chanWriting c) (inputBuffer_ c) (outputBuffer_
    c) x (lowWaterArmed_ c) (pressureCallback_ c) (stallTimerId_ c) (timers c) (nextTimer c)
    (pending c) (producers c) (busy c) (socket c) (written c) (posted c) (events c) (outcomes c).

Definition setArmed (x : bool) (c : TcpConnection) : TcpConnection :=
  mkConn (state_ c) (reading_ c) (chanReading c) (chanWriting c) (inputBuffer_ c) (outputBuffer_
    c) (outstandingBytes_ c) x (pressureCallback_ c) (stallTimerId_ c) (timers c) (nextTimer c)
    (pending c) (producers c) (busy c) (socket c) (written c) (posted c) (events c) (outcomes c).

Definition setPressureCallback (x : bool) (c : TcpConnection) : TcpConnection :=
  mkConn (state_ c) (reading_ c) (chanReading c) (chanWriting c) (inputBuffer_ c) (outputBuffer_
    c) (outstandingBytes_ c) (lowWaterArmed_ c) x (stallTimerId_ c) (timers c) (nextTimer c)
    (pending c) (producers c) (busy c) (socket c) (written c) (posted c) (events c) (outcomes c).

Definition setTimers (x : option nat) (y : gset nat) (z : nat) (c : TcpConnection) : TcpConnection :=
  mkConn (state_ c) (reading_ c) (chanReading c) (chanWriting c) (inputBuffer_ c) (outputBuffer_
    c) (outstandingBytes_ c) (lowWaterArmed_ c) (pressureCallback_ c) x y z (pending c) (producers
    c) (busy c) (socket c) (written c) (posted c) (events c) (outcomes c).

Definition setPending (x : list LoopFunctor) (c : TcpConnection) : TcpConnection :=
  mkConn (state_ c) (reading_ c) (chanReading c) (chanWriting c) (inputBuffer_ c) (outputBuffer_
    c) (outstandingBytes_ c) (lowWaterArmed_ c) (pressureCallback_ c) (stallTimerId_ c) (timers c)
    (nextTimer c) x (producers c) (busy c) (socket c) (written c) (posted c) (events c) (outcomes
    c).

Definition setProducer (p : nat) (x : Producer) (c : TcpConnection) : TcpConnection :=
  mkConn (state_ c) (reading_ c) (chanReading c) (chanWriting c) (inputBuffer_ c) (outputBuffer_
    c) (outstandingBytes_ c) (lowWaterArmed_ c) (pressureCallback_ c) (stallTimerId_ c) (timers c)
    (nextTimer c) (pending c) (<[p := x]> (producers c)) (busy c) (socket c) (written c) (posted c)
    (events c) (outcomes c).

Definition setBusy (x : option (nat * list byte * list byte * Z)) (c : TcpConnection) : TcpConnection :=
  mkConn (state_ c) (reading_ c) (chanReading c) (chanWriting c) (inputBuffer_ c) (outputBuffer_
    c) (outstandingBytes_ c) (lowWaterArmed_ c) (pressureCallback_ c) (stallTimerId_ c) (timers c)
    (nextTimer c) (pending c) (producers c) x (socket c) (written c) (posted c) (events c)
    (outcomes c).

Definition setSocket (x : list byte) (c : TcpConnection) : TcpConnection :=
  mkConn (state_ c) (reading_ c) (chanReading c) (chanWriting c) (inputBuffer_ c) (outputBuffer_
    c) (outstandingBytes_ c) (lowWaterArmed_ c) (pressureCallback_ c) (stallTimerId_ c) (timers c)
    (nextTimer c) (pending c) (producers c) (busy c) x (written c) (posted c) (events c) (outcomes
    c).

Definition setWritten (x : list (nat * list byte)) (c : TcpConnection) : TcpConnection :=
  mkConn (state_ c) (reading_ c) (chanReading c) (chanWriting c) (inputBuffer_ c) (outputBuffer_
    c) (outstandingBytes_ c) (lowWaterArmed_ c) (pressureCallback_ c) (stallTimerId_ c) (timers c)
    (nextTimer c) (pending c) (producers c) (busy c) (socket c) x (posted c) (events c) (outcomes
    c).

Definition post (p : nat) (m : list byte) (c : TcpConnection) : TcpConnection :=
  mkConn (state_ c) (reading_ c) (chanReading c) (chanWriting c) (inputBuffer_ c) (outputBuffer_
    c) (outstandingBytes_ c) (lowWaterArmed_ c) (pressureCallback_ c) (stallTimerId_ c) (timers c)
    (nextTimer c) (pending c) (producers c) (busy c) (socket c) (written c) (posted c ++ [(p, m)])
    (events c) (outcomes c).

Definition emit (e : ConnEvent) (c : TcpConnection) : TcpConnection :=
  mkConn (state_ c) (reading_ c) (chanReading c) (chanWriting c) (inputBuffer_ c) (outputBuffer_
    c) (outstandingBytes_ c) (lowWaterArmed_ c) (pressureCallback_ c) (stallTimerId_ c) (timers c)
    (nextTimer c) (pending c) (producers c) (busy c) (socket c) (written c) (posted c) (events c ++
    [e]) (outcomes c).

Definition answer (p : nat) (d : SendDisposition) (pr : SendPressure) (c : TcpConnection) : TcpConnection :=
  mkConn (state_ c) (reading_ c) (chanReading c) (chanWriting c) (inputBuffer_ c) (outputBuffer_
    c) (outstandingBytes_ c) (lowWaterArmed_ c) (pressureCallback_ c) (stallTimerId_ c) (timers c)
    (nextTimer c) (pending c) (producers c) (busy c) (socket c) (written c) (posted c) (events c)
    (outcomes c ++ [(p, mkSendOutcome d pr)]).

Section connection.
Variable limits_ : WriteBufferLimits.
Variable codec_ : option OutputCodec.
Variable highWaterMark_ : Z.
Variable hasHighWaterMarkCallback hasWriteCompleteCallback : bool.
(** The message callback: what it leaves in the buffer, the messages it
    handled, and whether it force-closed the connection. *)
Variable messageCallback : Buffer -> Buffer * list (list byte) * bool.

Definition bufferedBytes (c : TcpConnection) : Z := Z.of_nat (Buf.readableBytes (outputBuffer_ c)).

(** ** The budget *)

Definition releaseOutstanding (n : Z) (c : TcpConnection) : TcpConnection :=
  let before := outstandingBytes_ c in
  let after := u64 (before - n) in
  let c := setOutstanding after c in
  if lowWaterArmed_ c && (resumeReadBytes limits_ <? before) && (after <=? resumeReadBytes limits_)
  then emit (LowWater (pressureCallback_ c)) (setArmed false c)
  else c.

Definition resetOutstanding (c : TcpConnection) : TcpConnection := setArmed false (setOutstanding 0 c).

(** ** The stall timer *)

(** Registers a timer whose callback is [forceClose]. *)
Definition startStallTimer (c : TcpConnection) : TcpConnection :=
  match stallTimerId_ c with
  | Some _ => c
  | None =>
      let id := nextTimer c in
      setTimers (Some id) ({[id]} ∪ timers c) (S id) c
  end.

Definition cancelStallTimer (c : TcpConnection) : TcpConnection :=
  match stallTimerId_ c with
  | Some id => setTimers None (timers c ∖ {[id]}) (nextTimer c) c
  | None => c
  end.

Definition checkPause (c : TcpConnection) : TcpConnection :=
  if (pauseReadBytes limits_ <=? bufferedBytes c) && reading_ c
  then startStallTimer (setReading false false c)
  else c.

(** ** Sending in the loop *)

(** [sendInLoop(const void*, size_t, size_t)] up to the write.  The message is
    kept for the record. *)
Definition sendInLoopBytes (p : nat) (message data : list byte) (frameSize : Z) (c : TcpConnection)
  : TcpConnection :=
  if bool_decide (state_ c = kDisconnected) then releaseOutstanding frameSize c
  else
    let c := if resumeReadBytes limits_ <? outstandingBytes_ c then setArmed true c else c in
    setBusy (Some (p, message, data, frameSize)) c.

(** [sendInLoop(std::string, size_t)] *)
Definition sendInLoop (p : nat) (message : list byte) (frameSize : Z) (c : TcpConnection)
  : TcpConnection :=
  if bool_decide (state_ c = kDisconnected) then releaseOutstanding frameSize c
  else
    match codec_ with
    | Some codec =>
        match encode codec message (newBuffer kInitialSize) with
        | (encoded, EncOk) => sendInLoopBytes p message (readable encoded) frameSize c
        | _ => releaseOutstanding frameSize c
        end
    | None => sendInLoopBytes p message message frameSize c
    end.

(** The direct write: what is left to buffer, and whether the socket is broken. *)
Definition directWrite (data : list byte) (frameSize : Z) (r : WriteResult) (c : TcpConnection)
  : TcpConnection * list byte * bool :=
  if negb (chanWriting c) && (bufferedBytes c =? 0) then
    match r with
    | Wrote n =>
        let rest := drop n data in
        let c := setSocket (socket c ++ take n data) c in
        let c := releaseOutstanding
                   (match rest with [] => frameSize | _ => Z.of_nat (length (take n data)) end) c in
        (match rest with
         | [] => if hasWriteCompleteCallback then emit WriteComplete c else c
         | _ => c
         end, rest, false)
    | WriteBroken => (c, data, true)
    | _ => (c, data, false)
    end
  else (c, data, false).

(** Keeping the rest for [handleWrite]. *)
Definition bufferRest (rest : list byte) (c : TcpConnection) : TcpConnection :=
  let oldLen := bufferedBytes c in
  let newLen := oldLen + Z.of_nat (length rest) in
  let c := if (highWaterMark_ <=? newLen) && (oldLen <? highWaterMark_) && hasHighWaterMarkCallback
           then emit (HighWater newLen) c else c in
  let c := setOutput (Buf.append rest (outputBuffer_ c)) c in
  let c := if chanWriting c then c else setWriting true c in
  checkPause c.

(** [sendInLoop] from its write on. *)
Definition sendInLoopWrite (r : WriteResult) (c : TcpConnection) : TcpConnection :=
  match busy c with
  | None => c
  | Some (p, message, data, frameSize) =>
      let c := setWritten (written c ++ [(p, message)]) (setBusy None c) in
      let '(c, rest, faultError) := directWrite data frameSize r c in
      if negb faultError && negb (Nat.eqb (length rest) 0) then bufferRest rest c else c
  end.

(** ** Sending from any thread *)

Definition frameSizeOf (message : list byte) : Z :=
  Z.max 1 (match codec_ with
           | Some codec => encodedSize codec (Z.of_nat (length message))
           | None => Z.of_nat (length message)
           end).

(** The checks, and the first load of the budget. *)
Definition sendCall (p : nat) (message : list byte) (c : TcpConnection) : TcpConnection :=
  if negb (bool_decide (state_ c = kConnected)) then answer p SendClosed PressureNormal c
  else
    let frameSize := frameSizeOf message in
    if hardLimitBytes limits_ <? frameSize then answer p SendTooLarge PressureNormal c
    else setProducer p (Reserving message frameSize (outstandingBytes_ c)) c.

(** One turn of [tryReserve]; a weak exchange may fail without cause. *)
Definition sendTry (p : nat) (message : list byte) (frameSize cur : Z) (spurious : bool)
    (c : TcpConnection) : TcpConnection :=
  if u64 (hardLimitBytes limits_ - frameSize) <? cur then
    let c := answer p SendWouldBlock PauseProducer (setProducer p Idle c) in
    if Nat.eqb p loopThread then startStallTimer c else setPending (pending c ++ [FStartStallTimer]) c
  else if negb spurious && (outstandingBytes_ c =? cur) then
    let after := u64 (cur + frameSize) in
    setProducer p (Reserved message frameSize (pauseReadBytes limits_ <? after)) (setOutstanding after c)
  else setProducer p (Reserving message frameSize (outstandingBytes_ c)) c.

(** Handing the frame to the loop. *)
Definition sendPost (p : nat) (message : list byte) (frameSize : Z) (overPause : bool)
    (c : TcpConnection) : TcpConnection :=
  let c := answer p SendAccepted (if overPause then PauseProducer else PressureNormal)
             (post p message (setProducer p Idle c)) in
  if Nat.eqb p loopThread then sendInLoop p message frameSize c
  else setPending (pending c ++ [FSend p message frameSize]) c.

(** ** The life of the connection

    Shutting the write side down and removing the channel from the poller do not
    show in the state. *)

Definition connectEstablished (c : TcpConnection) : TcpConnection :=
  emit ConnectionUp (setReading (reading_ c) true (setState kConnected c)).

Definition connectDestroyed (c : TcpConnection) : TcpConnection :=
  let c := if bool_decide (state_ c = kConnected)
           then emit ConnectionDown (disableAll (setState kDisconnected c)) else c in
  resetOutstanding (cancelStallTimer c).

Definition forceCloseInLoop (c : TcpConnection) : TcpConnection :=
  let c := cancelStallTimer c in
  if bool_decide (state_ c = kConnected) || bool_decide (state_ c = kDisconnecting)
  then emit CloseCallback (emit ConnectionDown (resetOutstanding (disableAll (setState kDisconnected c))))
  else c.

(** [shutdown], called in the loop. *)
Definition shutdown (c : TcpConnection) : TcpConnection :=
  if bool_decide (state_ c = kConnected) then setState kDisconnecting c else c.

Definition handleClose (c : TcpConnection) : TcpConnection :=
  emit CloseCallback (emit ConnectionDown (disableAll (setState kDisconnected (cancelStallTimer c)))).

Definition handleRead (data : option (list byte)) (c : TcpConnection) : TcpConnection :=
  let '(b, n) := Buf.readFd data (inputBuffer_ c) in
  let c := setInput b c in
  if 0 <? n then
    let '(b, ms, closed) := messageCallback b in
    let c := emit (MessagesRead ms) (setInput b c) in
    if (closed : bool) then forceCloseInLoop c else c
  else if n =? 0 then handleClose c
  else c.

Definition handleWrite (r : WriteResult) (c : TcpConnection) : TcpConnection :=
  if negb (chanWriting c) then c
  else
    match r with
    | Wrote n =>
      match take n (Buf.writeFdOffer (outputBuffer_ c)) with
      | [] => c
      | out =>
        let c := setSocket (socket c ++ out) c in
        let c := setOutput (Buf.retrieve (length out) (outputBuffer_ c)) c in
        let c := releaseOutstanding (Z.of_nat (length out)) c in
        let c := if bufferedBytes c =? 0
                 then let c := setWriting false c in
                      if hasWriteCompleteCallback then emit WriteComplete c else c
                 else c in
        if negb (reading_ c) && (bufferedBytes c <=? resumeReadBytes limits_)
        then cancelStallTimer (setReading true true c)
        else c
      end
    | _ => c
    end.

(** ** Executions *)

Definition runFunctor (f : LoopFunctor) (c : TcpConnection) : TcpConnection :=
  match f with
  | FSend p message frameSize => sendInLoop p message frameSize c
  | FStartStallTimer => startStallTimer c
  | FForceClose => forceCloseInLoop c
  | FConnectDestroyed => connectDestroyed c
  end.

Inductive ConnStep :=
| SendCall (p : nat) (message : list byte)
| SendTry (p : nat) (spurious : bool)
| SendPost (p : nat)
| SendWrite (r : WriteResult)
| RunFunctor
| Established
| Readable (data : option (list byte))
| Writable (r : WriteResult)
| Hangup
| TimerExpires (id : nat)
| Shutdown
| ForceClose (p : nat)
| Destroy
| SetPressureCallback (installed : bool).

(** The loop thread is between two callbacks.  Other threads know a connection
    once it is established; the server queues [connectDestroyed] after the close
    callback (the end of the whole server is not modelled). *)
Definition loopIdle (c : TcpConnection) : bool :=
  match busy c, producers c !! loopThread with
  | None, (Some Idle | None) => true
  | _, _ => false
  end.

Definition whenIdle (f : TcpConnection -> TcpConnection) (c : TcpConnection) : TcpConnection :=
  if loopIdle c then f c else c.

(** The channel is registered once the connection is established. *)
Definition whenRegistered (f : TcpConnection -> TcpConnection) : TcpConnection -> TcpConnection :=
  whenIdle (fun c => if bool_decide (state_ c = kConnecting) then c else f c).

Definition connStep (c : TcpConnection) (st : ConnStep) : TcpConnection :=
  match st with
  | SendCall p message =>
      match producers c !! p with
      | Some Idle => if Nat.eqb p loopThread then whenIdle (sendCall p message) c else sendCall p message c
      | _ => c
      end
  | SendTry p spurious =>
      match producers c !! p with
      | Some (Reserving message frameSize cur) => sendTry p message frameSize cur spurious c
      | _ => c
      end
  | SendPost p =>
      match producers c !! p with
      | Some (Reserved message frameSize overPause) => sendPost p message frameSize overPause c
      | _ => c
      end
  | SendWrite r => sendInLoopWrite r c
  | RunFunctor =>
      whenIdle (fun c => match pending c with
                         | f :: rest => runFunctor f (setPending rest c)
                         | [] => c
                         end) c
  | Established =>
      whenIdle (fun c => if bool_decide (state_ c = kConnecting) then connectEstablished c else c) c
  | Readable data => whenRegistered (handleRead data) c
  | Writable r => whenRegistered (handleWrite r) c
  | Hangup => whenRegistered handleClose c
  | TimerExpires id =>
      whenIdle (fun c =>
        if bool_decide (id ∈ timers c)
        then forceCloseInLoop (setTimers (stallTimerId_ c) (timers c ∖ {[id]}) (nextTimer c) c)
        else c) c
  | Shutdown => whenIdle shutdown c
  | ForceClose p =>
      if bool_decide (state_ c = kConnecting) then c
      else if Nat.eqb p loopThread then whenIdle forceCloseInLoop c
      else setPending (pending c ++ [FForceClose]) c
  | Destroy =>
      if bool_decide (state_ c = kDisconnected)
      then setPending (pending c ++ [FConnectDestroyed]) c else c
  | SetPressureCallback installed => whenIdle (setPressureCallback installed) c
  end.

Definition connRun (steps : list ConnStep) (c : TcpConnection) : TcpConnection :=
  foldl connStep c steps.
End connection.

(** The codec that [ChatServer::onConnection] installs. *)
Definition outputCodec (codec : WireCodec) (maxBodyLength : Z) : option OutputCodec :=
  match codec with
  | BinaryFrame => Some (binaryCodec maxBodyLength)
  | JsonLine => None
  end.
