(* ===== verification/TcpConnectionInv.v ===== *)
(** * Invariants of a TCP connection

    For every interleaving of threads and every behaviour of the socket: the
    budget accounts for the bytes that are reserved, queued and buffered and
    stays within the hard limit; what the socket takes is the concatenation of
    the frames, in order per thread; reading is paused and resumed at the two
    marks with the stall timer running while it is paused; and the low-water
    callback is called when the backlog drains. *)

From S2P Require Import Prelude Bytes Buffer Codec SessionDelivery TcpConnection.

Open Scope Z_scope.

(** ** Sums over lists *)

Definition zsum {A} (f : A -> Z) (l : list A) : Z := foldr (fun x acc => f x + acc) 0 l.

Lemma zsum_app {A} (f : A -> Z) l1 l2 : zsum f (l1 ++ l2) = zsum f l1 + zsum f l2.
Proof. induction l1 as [|x l1 IH]; simpl; lia. Qed.

Lemma zsum_insert {A} (f : A -> Z) l i x y :
  l !! i = Some y -> zsum f (<[i := x]> l) = zsum f l - f y + f x.
Proof.
  revert i. induction l as [|z l IH]; intros [|i] Hi; simplify_eq/=; [lia|].
  rewrite (IH i) by done. lia.
Qed.

Lemma zsum_nonneg {A} (f : A -> Z) l : Forall (fun x => 0 <= f x) l -> 0 <= zsum f l.
Proof. induction 1; simpl; lia. Qed.

Lemma zsum_lookup {A} (f : A -> Z) l i x :
  Forall (fun x => 0 <= f x) l -> l !! i = Some x -> f x <= zsum f l.
Proof.
  intros Hl. revert i. induction Hl as [|y l Hy Hl IH]; intros [|i] Hi; simplify_eq/=.
  - pose proof (zsum_nonneg f l Hl). lia.
  - specialize (IH i Hi). lia.
Qed.

(** ** Codecs *)

(** Within [hard] bytes a message encodes, to the size that was announced. *)
Definition codecOk (hard : Z) (codec : OutputCodec) : Prop :=
  forall m, encodedSize codec (Z.of_nat (length m)) <= hard ->
    exists b, encode codec m (newBuffer kInitialSize) = (b, EncOk) /\
      Z.of_nat (length (readable b)) = encodedSize codec (Z.of_nat (length m)) /\
      readable b <> [].

Lemma binaryCodec_ok maxBody hard :
  0 <= maxBody < 2 ^ 31 -> hard < 2 ^ 64 - 1 -> codecOk hard (binaryCodec maxBody).
Proof.
  intros Hmax Hhard m. cbn [encodedSize encode binaryCodec]. unfold Binary.encodedSize.
  case_match eqn:E; [change (u64 (-1)) with (2 ^ 64 - 1); lia|]. apply Z.ltb_ge in E. intros _.
  destruct (binary_encode_ok maxBody m (newBuffer kInitialSize)) as (b & -> & Hb & Hr);
    [done..|apply newBuffer_ok|].
  exists b. split; [done|]. rewrite Hr, (proj2 (newBuffer_ok _)). unfold binaryWire, frameBytes.
  cbn [app fr_body Binary.frameOf]. rewrite length_app, length_headerBytes.
  split; [rewrite u64_small by (unfold isU64, kHeaderLength; lia); unfold kHeaderLength; lia|].
  intros Hnil. apply (f_equal length) in Hnil. rewrite length_app, length_headerBytes in Hnil. simpl in Hnil. lia.
Qed.

(** ** The invariant *)

Section invariant.
Variable limits_ : WriteBufferLimits.
Variable codec_ : option OutputCodec.
Variable highWaterMark_ : Z.
Variable hasHighWaterMarkCallback hasWriteCompleteCallback : bool.
Variable messageCallback : Buffer -> Buffer * list (list byte) * bool.

Abbreviation hard := (hardLimitBytes limits_).
Abbreviation pause := (pauseReadBytes limits_).
Abbreviation resume := (resumeReadBytes limits_).
Abbreviation frameSizeOf := (frameSizeOf codec_).

(** The bytes of a message on the wire. *)
Definition wire (m : list byte) : list byte :=
  match codec_ with
  | Some codec => readable (encode codec m (newBuffer kInitialSize)).1
  | None => m
  end.

Definition producerBytes (x : Producer) : Z :=
  match x with Reserved _ n _ => n | _ => 0 end.

Definition functorBytes (f : LoopFunctor) : Z :=
  match f with FSend _ _ n => n | _ => 0 end.

Definition busyBytes (b : option (nat * list byte * list byte * Z)) : Z :=
  match b with Some (_, _, _, n) => n | None => 0 end.

(** Reserved by frames that the loop has not begun to write. *)
Definition waitingBytes (prods : list Producer) (pend : list LoopFunctor) : Z :=
  zsum producerBytes prods + zsum functorBytes pend.

Definition sized (clean : bool) (m : list byte) (n : Z) : Prop :=
  n = frameSizeOf m /\ n <= hard /\ (clean = true -> wire m <> []).

Definition producerOk (clean : bool) (x : Producer) : Prop :=
  match x with
  | Idle => True
  | Reserving m n _ | Reserved m n _ => sized clean m n
  end.

Definition functorOk (clean : bool) (f : LoopFunctor) : Prop :=
  match f with FSend p m n => p <> loopThread /\ sized clean m n | _ => True end.

(** What holds of a connection in every state.  [clean]: no write has failed
    for good, and no frame is empty. *)
Record shape (clean : bool) (out : Buffer) (stall : option nat) (tm : gset nat)
    (pend : list LoopFunctor) (prods : list Producer) (bs : option (nat * list byte * list byte * Z)) : Prop := {
  sh_out : buffer_ok out;
  sh_timers : tm = match stall with Some id => {[id]} | None => ∅ end;
  sh_producers : Forall (producerOk clean) prods;
  sh_pending : Forall (functorOk clean) pend;
  sh_busy : forall p m data n, bs = Some (p, m, data, n) ->
    n = Z.max 1 (Z.of_nat (length data)) /\ (data = wire m /\ frameSizeOf m <= hard) /\
    (clean = true -> data <> []);
  sh_loop : bs = None \/ (forall x, prods !! loopThread = Some x -> x = Idle);
}.

Definition ofThread (p : nat) (l : list (nat * list byte)) : list (list byte) :=
  (filter (fun x => x.1 = p) l).*2.

Definition queued (pend : list LoopFunctor) : list (nat * list byte) :=
  omap (fun f => match f with FSend p m _ => Some (p, m) | _ => None end) pend.

Definition busyFrame (bs : option (nat * list byte * list byte * Z)) : list (nat * list byte) :=
  match bs with Some (p, m, _, _) => [(p, m)] | None => [] end.

(** What holds until the connection is down. *)
Record flow (clean : bool) (st : StateE) (rd chanR chanW : bool) (out : Buffer) (o : Z) (armed : bool)
    (stall : option nat) (pend : list LoopFunctor) (prods : list Producer)
    (bs : option (nat * list byte * list byte * Z)) (sock : list byte) (frms pstd : list (nat * list byte))
  : Prop := {
  fl_low : waitingBytes prods pend + busyBytes bs + Z.of_nat (Buf.readableBytes out) <= o;
  fl_clean : clean = true ->
    o = waitingBytes prods pend + busyBytes bs + Z.of_nat (Buf.readableBytes out);
  fl_hard : o <= hard;
  fl_armed : resume < o -> armed = true \/ 0 < waitingBytes prods pend;
  fl_writing : chanW = true <-> readable out <> [];
  fl_reading : st <> kConnecting -> chanR = rd;
  fl_resumed : rd = true -> Z.of_nat (Buf.readableBytes out) < pause;
  fl_paused : rd = false -> resume < Z.of_nat (Buf.readableBytes out) /\ stall <> None;
  fl_stream : clean = true ->
    sock ++ readable out = concat (wire <$> frms.*2) /\ Forall (fun x => frameSizeOf x.2 <= hard) frms;
  fl_fifo : forall p, ofThread p pstd = ofThread p (frms ++ busyFrame bs) ++ ofThread p (queued pend);
}.

Definition inv (clean : bool) (c : TcpConnection) : Prop :=
  shape clean (outputBuffer_ c) (stallTimerId_ c) (timers c) (pending c) (producers c) (busy c) /\
  (state_ c <> kDisconnected ->
   flow clean (state_ c) (reading_ c) (chanReading c) (chanWriting c) (outputBuffer_ c)
     (outstandingBytes_ c) (lowWaterArmed_ c) (stallTimerId_ c) (pending c) (producers c) (busy c)
     (socket c) (written c) (posted c)) /\
  (busy c <> None -> state_ c <> kDisconnected).

Hypothesis limits_ok : 0 <= resume < pause /\ resume < hard < 2 ^ 64.
Hypothesis codec_ok : forall codec, codec_ = Some codec -> codecOk hard codec.

(** ** Frames *)

Lemma frameSizeOf_wire m :
  frameSizeOf m <= hard -> frameSizeOf m = Z.max 1 (Z.of_nat (length (wire m))).
Proof.
  unfold TcpConnection.frameSizeOf, wire. destruct codec_ as [codec|]; [|done]. intros Hsz.
  destruct (codec_ok codec eq_refl m) as (b & -> & Hlen & _); [lia|]. simpl. lia.
Qed.

Lemma wire_nonempty m : frameSizeOf m <= hard -> (codec_ = None -> m <> []) -> wire m <> [].
Proof.
  unfold TcpConnection.frameSizeOf, wire. destruct codec_ as [codec|]; [|auto]. intros Hsz _.
  destruct (codec_ok codec eq_refl m) as (b & -> & _ & Hne); [lia|]. done.
Qed.

Lemma frameSizeOf_pos m : 0 < frameSizeOf m.
Proof. unfold TcpConnection.frameSizeOf. lia. Qed.

Lemma sendInLoop_open p m n c :
  frameSizeOf m <= hard -> state_ c <> kDisconnected ->
  sendInLoop limits_ codec_ p m n c = sendInLoopBytes limits_ p m (wire m) n c.
Proof.
  unfold sendInLoop, TcpConnection.frameSizeOf, wire. intros Hsz Hst.
  rewrite bool_decide_eq_false_2 by done. destruct codec_ as [codec|]; [|done].
  destruct (codec_ok codec eq_refl m) as (b & -> & _); [lia|]. done.
Qed.

Lemma producerBytes_nonneg clean prods :
  Forall (producerOk clean) prods -> Forall (fun x => 0 <= producerBytes x) prods.
Proof.
  intros Hl. eapply Forall_impl; [exact Hl|]. intros [| |m n o] Hx; simpl in *; try lia.
  destruct Hx as (-> & _). pose proof (frameSizeOf_pos m). lia.
Qed.

Lemma functorBytes_nonneg clean pend :
  Forall (functorOk clean) pend -> Forall (fun x => 0 <= functorBytes x) pend.
Proof.
  intros Hl. eapply Forall_impl; [exact Hl|]. intros [p m n| | |] Hx; simpl in *; try lia.
  destruct Hx as (_ & -> & _). pose proof (frameSizeOf_pos m). lia.
Qed.

Lemma waitingBytes_nonneg clean prods pend :
  Forall (producerOk clean) prods -> Forall (functorOk clean) pend -> 0 <= waitingBytes prods pend.
Proof.
  intros Hp Hf. unfold waitingBytes.
  pose proof (zsum_nonneg _ _ (producerBytes_nonneg _ _ Hp)).
  pose proof (zsum_nonneg _ _ (functorBytes_nonneg _ _ Hf)). lia.
Qed.

(** ** The low-water flag *)

Definition armedAfter (armed : bool) (o k : Z) : bool :=
  armed && negb ((resume <? o) && (o - k <=? resume)).

Lemma armedAfter_flow armed o k w :
  (resume < o -> armed = true \/ 0 < w) -> 0 <= k ->
  resume < o - k -> armedAfter armed o k = true \/ 0 < w.
Proof.
  intros Ha Hk Ho. destruct Ha as [->|?]; [lia| |by right]. left. unfold armedAfter.
  rewrite (proj2 (Z.leb_gt _ _)) by lia. by rewrite andb_false_r.
Qed.

Definition withBudget (o : Z) (armed : bool) (ev : list ConnEvent) (c : TcpConnection) : TcpConnection :=
  mkConn (state_ c) (reading_ c) (chanReading c) (chanWriting c) (inputBuffer_ c) (outputBuffer_ c) o
    armed (pressureCallback_ c) (stallTimerId_ c) (timers c) (nextTimer c) (pending c) (producers c)
    (busy c) (socket c) (written c) (posted c) ev (outcomes c).

Lemma release_eq k c :
  0 <= k <= outstandingBytes_ c -> outstandingBytes_ c <= hard ->
  exists ev, releaseOutstanding limits_ k c =
    withBudget (outstandingBytes_ c - k) (armedAfter (lowWaterArmed_ c) (outstandingBytes_ c) k) ev c.
Proof.
  intros Hk Ho. unfold releaseOutstanding, armedAfter, withBudget. destruct c. cbn in *.
  rewrite u64_small by (unfold isU64; lia).
  destruct lowWaterArmed_; cbn in *; [|by eexists].
  destruct ((resume <? outstandingBytes_) && _); by eexists.
Qed.

(** ** Buffering and writing *)

Lemma readableBytes_append rest out :
  buffer_ok out -> Z.of_nat (Buf.readableBytes (Buf.append rest out)) =
    Z.of_nat (Buf.readableBytes out) + Z.of_nat (length rest).
Proof.
  intros Hb. destruct (append_ok rest out Hb) as [Hb' Hr].
  rewrite <- !length_readable, Hr, length_app by done. lia.
Qed.

Lemma ofThread_app p l1 l2 : ofThread p (l1 ++ l2) = ofThread p l1 ++ ofThread p l2.
Proof. unfold ofThread. by rewrite filter_app, fmap_app. Qed.

(** The frame the loop was about to write is written in part, [pre], and the
    rest is buffered. *)
Lemma flow_buffer clean st rd chR chW out o armed stall stall' pend prods p m data n sock frms pstd pre rest :
  flow clean st rd chR chW out o armed stall pend prods (Some (p, m, data, n)) sock frms pstd ->
  buffer_ok out -> n = Z.max 1 (Z.of_nat (length data)) -> data = wire m /\ frameSizeOf m <= hard ->
  data = pre ++ rest -> rest <> [] -> (pre = [] \/ readable out = []) ->
  let out' := Buf.append rest out in
  let o' := o - Z.of_nat (length pre) in
  let paused := (pause <=? Z.of_nat (Buf.readableBytes out')) && rd in
  stall' <> None \/ (stall' = stall /\ paused = false) ->
  flow clean st (if paused then false else rd) (if paused then false else chR) true out' o'
    (armedAfter armed o (Z.of_nat (length pre))) stall' pend prods None (sock ++ pre)
    (frms ++ [(p, m)]) pstd.
Proof.
  intros [Hlow Hcl Hh Ha Hw Hrd Hres Hpau Hstr Hfifo] Hb Hn [Hwire Hval] Hdata Hne Hpre out' o' paused Hstall.
  pose proof (readableBytes_append rest out Hb) as Hlen. fold out' in Hlen.
  assert (Z.of_nat (length data) = Z.of_nat (length pre) + Z.of_nat (length rest)) as Hd
    by (rewrite Hdata, length_app; lia).
  assert (0 < Z.of_nat (length rest)) as Hrest by (destruct rest; simpl in *; [done|lia]).
  unfold busyBytes in *. split; subst o'.
  - simpl. lia.
  - intros Hc. specialize (Hcl Hc). simpl. lia.
  - lia.
  - apply armedAfter_flow; [done|lia].
  - split; [intros _|done]. subst out'. rewrite (proj2 (append_ok rest out Hb)).
    by intros [_ ?]%app_nil.
  - intros Hc. specialize (Hrd Hc). by destruct paused.
  - intros Hr. subst paused. destruct rd; [|by rewrite andb_false_r in Hr].
    rewrite andb_true_r in Hr. case_match; [done|]. lia.
  - intros Hr. subst paused. destruct (Z.leb_spec pause (Z.of_nat (Buf.readableBytes out'))).
    + destruct rd; simpl in *; [|destruct (Hpau eq_refl)]; split; try lia; naive_solver.
    + simpl in *. destruct (Hpau Hr). split; [lia|naive_solver].
  - intros Hc. destruct (Hstr Hc) as [Hcat Hall]. split; [|by apply Forall_app_2; [|constructor]].
    subst out'. rewrite (proj2 (append_ok rest out Hb)).
    rewrite !fmap_app, concat_app, <- Hcat. simpl. rewrite app_nil_r, <- Hwire, Hdata.
    destruct Hpre as [->| ->]; rewrite ?app_nil_r; by rewrite ?app_nil_l, <- ?app_assoc.
  - intros q. specialize (Hfifo q). simpl in *. by rewrite app_nil_r.
Qed.

(** The frame is written completely, or it is empty, or it is lost. *)
Lemma flow_written clean st rd chR chW out o armed stall pend prods p m data n sock frms pstd pre k :
  flow clean st rd chR chW out o armed stall pend prods (Some (p, m, data, n)) sock frms pstd ->
  0 <= k <= n -> frameSizeOf m <= hard -> (clean = true -> k = n /\ pre = wire m /\ readable out = []) ->
  flow clean st rd chR chW out (o - k) (armedAfter armed o k) stall pend prods None (sock ++ pre)
    (frms ++ [(p, m)]) pstd.
Proof.
  intros [Hlow Hcl Hh Ha Hw Hrd Hres Hpau Hstr Hfifo] Hk Hval Hpre. unfold busyBytes in *. split; try done.
  - simpl. lia.
  - intros Hc. specialize (Hcl Hc). destruct (Hpre Hc) as (-> & _). simpl. lia.
  - lia.
  - apply armedAfter_flow; [done|lia].
  - intros Hc. destruct (Hstr Hc) as [Hcat Hall]. split; [|by apply Forall_app_2; [|constructor]].
    destruct (Hpre Hc) as (_ & -> & Hout). rewrite Hout in *.
    rewrite app_nil_r in *. by rewrite !fmap_app, concat_app, <- Hcat; simpl; rewrite app_nil_r.
  - intros q. specialize (Hfifo q). simpl in *. by rewrite app_nil_r.
Qed.

(** ** Steps *)

Lemma shape_unbusy clean out out' stall stall' tm tm' pend prods bs :
  shape clean out stall tm pend prods bs -> buffer_ok out' ->
  tm' = match stall' with Some id => {[id]} | None => ∅ end ->
  shape clean out' stall' tm' pend prods None.
Proof. intros [] ? ?. split; try done. by left. Qed.

Lemma startStallTimer_view c :
  timers c = match stallTimerId_ c with Some id => {[id]} | None => ∅ end ->
  exists id next, startStallTimer c = setTimers (Some id) {[id]} next c.
Proof.
  intros Ht. unfold startStallTimer. destruct (stallTimerId_ c) as [id|] eqn:E.
  - exists id, (nextTimer c). destruct c; simpl in *. by subst.
  - exists (nextTimer c), (S (nextTimer c)). rewrite Ht. by rewrite right_id_L by apply _.
Qed.

Definition withOutput (out : Buffer) (ev : list ConnEvent) (c : TcpConnection) : TcpConnection :=
  mkConn (state_ c) (reading_ c) (chanReading c) true (inputBuffer_ c) out (outstandingBytes_ c)
    (lowWaterArmed_ c) (pressureCallback_ c) (stallTimerId_ c) (timers c) (nextTimer c) (pending c)
    (producers c) (busy c) (socket c) (written c) (posted c) ev (outcomes c).

Lemma bufferRest_eq rest c :
  exists ev, bufferRest limits_ highWaterMark_ hasHighWaterMarkCallback rest c =
    checkPause limits_ (withOutput (Buf.append rest (outputBuffer_ c)) ev c).
Proof.
  unfold bufferRest, withOutput. destruct c as [? ? ? chW]. cbn -[Buf.append checkPause].
  destruct (_ && hasHighWaterMarkCallback); destruct chW; cbn -[Buf.append checkPause]; by eexists.
Qed.

Lemma bufferRest_inv clean c c' p m data n pre rest ev :
  inv clean c -> busy c = Some (p, m, data, n) -> data = pre ++ rest -> rest <> [] ->
  (pre = [] \/ readable (outputBuffer_ c) = []) ->
  c' = withBudget (outstandingBytes_ c - Z.of_nat (length pre))
     (armedAfter (lowWaterArmed_ c) (outstandingBytes_ c) (Z.of_nat (length pre))) ev
     (setSocket (socket c ++ pre) (setWritten (written c ++ [(p, m)]) (setBusy None c))) ->
  inv clean (bufferRest limits_ highWaterMark_ hasHighWaterMarkCallback rest c').
Proof.
  intros (Hsh & Hfl & Hbs) Hbusy Hdata Hne Hpre ->. specialize (Hfl (Hbs ltac:(by rewrite Hbusy))).
  pose proof Hsh as [Hb Htm _ _ Hn _]. destruct (Hn p m data n Hbusy) as (Hn' & Hw' & _). rewrite Hbusy in *.
  destruct (append_ok rest _ Hb) as [Hb' _].
  pose proof (fun stall' => flow_buffer _ _ _ _ _ _ _ _ _ stall' _ _ _ _ _ _ _ _ _ pre rest Hfl Hb Hn'
    Hw' Hdata Hne Hpre) as F. cbn zeta in F.
  edestruct bufferRest_eq as [ev' ->]. unfold checkPause. unfold bufferedBytes. cbn [outputBuffer_ reading_ withOutput].
  set (out' := Buf.append _ _) in *. cbn [reading_ withBudget setSocket setWritten setBusy] in *.
  destruct ((pause <=? Z.of_nat (Buf.readableBytes out')) && reading_ c) eqn:Hp.
  - edestruct startStallTimer_view as (id & next & ->); [exact Htm|].
    split; [by eapply shape_unbusy|]. split; [|done]. intros _. apply (F (Some id)). by left.
  - split; [by eapply shape_unbusy|]. split; [|done]. intros _. apply (F (stallTimerId_ c)). by right.
Qed.
Lemma written_inv clean c c' p m data n pre k ev :
  inv clean c -> busy c = Some (p, m, data, n) -> 0 <= k <= n ->
  (clean = true -> k = n /\ pre = wire m /\ readable (outputBuffer_ c) = []) ->
  c' = withBudget (outstandingBytes_ c - k) (armedAfter (lowWaterArmed_ c) (outstandingBytes_ c) k) ev
     (setSocket (socket c ++ pre) (setWritten (written c ++ [(p, m)]) (setBusy None c))) ->
  inv clean c'.
Proof.
  intros (Hsh & Hfl & Hbs) Hbusy Hk Hpre ->. specialize (Hfl (Hbs ltac:(by rewrite Hbusy))).
  rewrite Hbusy in Hfl. pose proof Hsh as [Hb Htm _ _ Hn _]. destruct (Hn _ _ _ _ Hbusy) as (_ & [_ Hval] & _).
  split; [by eapply shape_unbusy|]. split; [|done]. intros _. by eapply flow_written.
Qed.

Lemma withBudget_0 c :
  withBudget (outstandingBytes_ c - 0) (armedAfter (lowWaterArmed_ c) (outstandingBytes_ c) 0) (events c) c = c.
Proof.
  unfold withBudget, armedAfter. rewrite Z.sub_0_r.
  replace ((resume <? outstandingBytes_ c) && (outstandingBytes_ c <=? resume)) with false
    by (destruct (Z.ltb_spec resume (outstandingBytes_ c)), (Z.leb_spec (outstandingBytes_ c) resume);
        [lia|done..]).
  rewrite andb_true_r. by destruct c.
Qed.


(** The frame goes to the buffer as a whole, or disappears when it is empty. *)
Lemma keepAll_inv clean c p m data n :
  inv clean c -> busy c = Some (p, m, data, n) ->
  let c1 := setWritten (written c ++ [(p, m)]) (setBusy None c) in
  inv clean (if negb (Nat.eqb (length data) 0)
             then bufferRest limits_ highWaterMark_ hasHighWaterMarkCallback data c1 else c1).
Proof.
  intros Hinv Hbusy c1. pose proof (proj1 Hinv) as [_ _ _ _ Hn _]. destruct (Hn p m data n Hbusy) as (-> & Hw' & Hd).
  assert (c1 = withBudget (outstandingBytes_ c - 0)
     (armedAfter (lowWaterArmed_ c) (outstandingBytes_ c) 0) (events c)
     (setSocket (socket c ++ []) c1)) as Hc1.
  { rewrite app_nil_r. rewrite <- (withBudget_0 c1) at 1. by destruct c. }
  destruct data as [|b data]; simpl.
  - eapply written_inv; [done|done| |intros Hc; by destruct (Hd Hc)|exact Hc1]. lia.
  - eapply (bufferRest_inv _ c _ p m _ _ [] (b :: data)); [done|done|done|done|by left|exact Hc1].
Qed.

Lemma busy_le clean c p m data n :
  inv clean c -> busy c = Some (p, m, data, n) -> n <= outstandingBytes_ c <= hard.
Proof.
  intros (Hsh & Hfl & Hbs) Hbusy. destruct (Hfl (Hbs ltac:(by rewrite Hbusy))) as [Hlow _ Hh _ _ _ _ _ _ _].
  destruct Hsh as [_ _ Hp Hf _ _]. pose proof (waitingBytes_nonneg _ _ _ Hp Hf).
  rewrite Hbusy in Hlow. simpl in Hlow. lia.
Qed.

Lemma sendInLoopWrite_inv clean r c :
  inv clean c -> (clean = true -> r <> WriteBroken) ->
  inv clean (sendInLoopWrite limits_ highWaterMark_ hasHighWaterMarkCallback hasWriteCompleteCallback r c).
Proof.
  intros Hinv Hr. unfold sendInLoopWrite. destruct (busy c) as [[[[p m] data] n]|] eqn:Hbusy; [|done].
  pose proof (keepAll_inv _ _ _ _ _ _ Hinv Hbusy) as Hkeep. pose proof (busy_le _ _ _ _ _ _ Hinv Hbusy) as Hle.
  pose proof (proj1 Hinv) as [Hb _ _ _ Hn _]. destruct (Hn p m data n Hbusy) as (Hn' & [Hw' _] & Hd).
  unfold directWrite. set (c1 := setWritten _ _) in *.
  destruct (negb (chanWriting c1) && (bufferedBytes c1 =? 0)) eqn:Hdirect; [|done].
  assert (readable (outputBuffer_ c) = []) as Hout.
  { apply nil_length_inv. rewrite length_readable by done. apply andb_true_iff in Hdirect as [_ ?%Z.eqb_eq].
    unfold bufferedBytes in *. simpl in *. lia. }
  destruct r as [k| | |]; [|exact Hkeep| |exact Hkeep].
  - set (pre := take k data). assert (data = pre ++ drop k data) as Hdata by (symmetry; apply take_drop).
    edestruct (release_eq (match drop k data with [] => n | _ => Z.of_nat (length pre) end)
                 (setSocket (socket c1 ++ pre) c1)) as [ev ->]; [|simpl; lia|].
    { assert (Z.of_nat (length pre) <= n) by (unfold pre; rewrite length_take; lia).
      change (outstandingBytes_ (setSocket _ _)) with (outstandingBytes_ c). destruct (drop k data); lia. }
    destruct (drop k data) as [|b rest] eqn:Hrest; cbn [length Nat.eqb negb andb].
    + rewrite app_nil_r in Hdata.
      destruct hasWriteCompleteCallback; simpl;
        (eapply (written_inv _ c _ p m data n pre n); [done|done|lia|intros _; split_and!; congruence|reflexivity]).
    + eapply (bufferRest_inv _ c _ p m data n pre (b :: rest)); [done|done|done|done|by right|reflexivity].
  - cbn [negb andb]. eapply (written_inv _ c _ p m data n [] 0); [done|done|lia| |].
    + intros Hc. by destruct (Hr Hc).
    + rewrite app_nil_r. rewrite <- (withBudget_0 c1) at 1. by destruct c.
Qed.


(** ** Sending *)

Lemma shape_producer clean out stall tm pend prods bs p y :
  shape clean out stall tm pend prods bs -> producerOk clean y ->
  (p = loopThread -> y = Idle \/ bs = None) ->
  shape clean out stall tm pend (<[p := y]> prods) bs.
Proof.
  intros [H1 H2 H3 H4 H5 H6] Hy Hp. split; try done; [by apply Forall_insert|].
  destruct H6 as [?|H6]; [by left|]. destruct (decide (p = loopThread)) as [Heq|Hne].
  - destruct (Hp Heq) as [->|?]; [right|by left]. intros x Hx.
    rewrite Heq in Hx. apply list_lookup_insert_Some in Hx as [(_ & -> & _)|(? & _)]; done.
  - right. intros x. rewrite list_lookup_insert_ne by done. apply H6.
Qed.

Lemma shape_push clean out stall tm pend prods bs f :
  shape clean out stall tm pend prods bs -> functorOk clean f ->
  shape clean out stall tm (pend ++ [f]) prods bs.
Proof. intros [] Hf. split; try done. by apply Forall_app_2; [|constructor]. Qed.

Lemma shape_notIdle clean out stall tm pend prods bs x :
  shape clean out stall tm pend prods bs -> prods !! loopThread = Some x -> x <> Idle -> bs = None.
Proof. intros [_ _ _ _ _ [?|H]] Hx Hne; [done|]. by destruct (Hne (H x Hx)). Qed.

Lemma waiting_insert prods pend p x y :
  prods !! p = Some x ->
  waitingBytes (<[p := y]> prods) pend = waitingBytes prods pend - producerBytes x + producerBytes y.
Proof. intros Hx. unfold waitingBytes. rewrite (zsum_insert _ _ _ _ x) by done. lia. Qed.

Lemma waiting_push prods pend f : waitingBytes prods (pend ++ [f]) = waitingBytes prods pend + functorBytes f.
Proof. unfold waitingBytes. rewrite zsum_app. simpl. lia. Qed.

(** A change of the waiting frames that keeps the accounts and the order. *)
Lemma flow_waiting clean st rd chR chW out o o' armed stall pend pend' prods prods' bs sock frms pstd pstd' :
  flow clean st rd chR chW out o armed stall pend prods bs sock frms pstd ->
  o' - waitingBytes prods' pend' = o - waitingBytes prods pend -> o' <= hard ->
  (o' = o /\ waitingBytes prods' pend' = waitingBytes prods pend \/ 0 < waitingBytes prods' pend') ->
  (forall q, ofThread q pstd' = ofThread q (frms ++ busyFrame bs) ++ ofThread q (queued pend')) ->
  flow clean st rd chR chW out o' armed stall pend' prods' bs sock frms pstd'.
Proof.
  intros [Hlow Hcl Hh Ha Hw Hrd Hres Hpau Hstr Hfifo] Hbal Hhard Hwait Hfifo'. split; try done.
  - lia.
  - intros Hc. specialize (Hcl Hc). lia.
  - intros Ho. destruct Hwait as [[-> ->]|?]; [auto|by right].
Qed.

(** The loop begins to write a frame that was waiting. *)
Lemma flow_begin clean st rd chR chW out o armed stall pend pend' prods prods' sock frms pstd pstd' p m data n :
  flow clean st rd chR chW out o armed stall pend prods None sock frms pstd ->
  waitingBytes prods' pend' + n = waitingBytes prods pend ->
  (forall q, ofThread q pstd' = ofThread q (frms ++ [(p, m)]) ++ ofThread q (queued pend')) ->
  flow clean st rd chR chW out o (if resume <? o then true else armed) stall pend' prods'
    (Some (p, m, data, n)) sock frms pstd'.
Proof.
  intros [Hlow Hcl Hh Ha Hw Hrd Hres Hpau Hstr Hfifo] Hbal Hfifo'. unfold busyBytes in *. split; try done.
  - simpl. lia.
  - intros Hc. specialize (Hcl Hc). simpl. lia.
  - intros Ho. left. by rewrite (proj2 (Z.ltb_lt _ _)).
Qed.

Lemma shape_begin clean out stall tm pend pend' prods p m n :
  shape clean out stall tm pend prods None -> sized clean m n ->
  (forall f, f ∈ pend' -> f ∈ pend) -> (forall x, prods !! loopThread = Some x -> x = Idle) ->
  shape clean out stall tm pend' prods (Some (p, m, wire m, n)).
Proof.
  intros [H1 H2 H3 H4 H5 H6] (-> & Hsz & Hne) Hsub Hidle. split; try done.
  - apply Forall_forall. intros f Hf. rewrite Forall_forall in H4. auto.
  - intros p' m' data n' [= <- <- <- <-]. split; [by apply frameSizeOf_wire|done].
  - by right.
Qed.


Lemma release_any k c : exists o a ev, releaseOutstanding limits_ k c = withBudget o a ev c.
Proof.
  unfold releaseOutstanding, withBudget. destruct c. cbn.
  match goal with |- context [if ?b then _ else _] => destruct b end; cbn; by do 3 eexists.
Qed.

Lemma sendInLoop_inv clean p m n c :
  shape clean (outputBuffer_ c) (stallTimerId_ c) (timers c) (pending c) (producers c) None ->
  busy c = None -> sized clean m n -> (forall x, producers c !! loopThread = Some x -> x = Idle) ->
  (state_ c <> kDisconnected ->
   flow clean (state_ c) (reading_ c) (chanReading c) (chanWriting c) (outputBuffer_ c)
     (outstandingBytes_ c) (if resume <? outstandingBytes_ c then true else lowWaterArmed_ c)
     (stallTimerId_ c) (pending c) (producers c) (Some (p, m, wire m, n)) (socket c) (written c) (posted c)) ->
  inv clean (sendInLoop limits_ codec_ p m n c).
Proof.
  intros Hsh Hbusy Hsz Hidle Hfl. destruct (decide (state_ c = kDisconnected)) as [Hdown|Hup].
  - unfold sendInLoop. rewrite bool_decide_eq_true_2 by done.
    destruct (release_any n c) as (o & a & ev & ->). split; [simpl; by rewrite Hbusy|].
    split; [done|]. simpl. by rewrite Hbusy.
  - rewrite sendInLoop_open by (destruct Hsz as (Hn & ? & _); done || lia). specialize (Hfl Hup).
    unfold sendInLoopBytes. rewrite bool_decide_eq_false_2 by done.
    destruct (resume <? outstandingBytes_ c);
      (split; [by eapply shape_begin|split; [by intros _|by intros _]]).
Qed.

Lemma sendCall_inv clean p m c :
  inv clean c -> producers c !! p = Some Idle -> (p = loopThread -> busy c = None) ->
  (clean = true -> codec_ = None -> m <> []) -> inv clean (sendCall limits_ codec_ p m c).
Proof.
  intros (Hsh & Hfl & Hbs) Hp Hloop Hm. unfold sendCall.
  destruct (negb _); [done|]. destruct (Z.ltb_spec hard (frameSizeOf m)); [done|].
  split; [|split; [|done]].
  - eapply shape_producer; [done| |auto]. split; [done|]. split; [done|]. auto using wire_nonempty.
  - intros Hst. eapply flow_waiting; [by apply Hfl|..].
    + cbn [producers setProducer outstandingBytes_]. rewrite (waiting_insert _ _ _ Idle) by done. simpl. lia.
    + by destruct (Hfl Hst).
    + left. split; [done|]. cbn [producers setProducer pending]. rewrite (waiting_insert _ _ _ Idle) by done. simpl. lia.
    + by destruct (Hfl Hst).
Qed.

Lemma flow_nonneg clean c :
  inv clean c -> state_ c <> kDisconnected -> 0 <= outstandingBytes_ c <= hard.
Proof.
  intros (Hsh & Hfl & _) Hst. destruct (Hfl Hst) as [Hlow _ Hh _ _ _ _ _ _ _].
  destruct Hsh as [_ _ Hp Hf Hb _]. pose proof (waitingBytes_nonneg _ _ _ Hp Hf).
  assert (0 <= busyBytes (busy c)).
  { destruct (busy c) as [[[[p m] data] n]|]; simpl; [|lia]. destruct (Hb p m data n eq_refl). lia. }
  lia.
Qed.


Lemma startStallTimer_inv clean c : inv clean c -> inv clean (startStallTimer c).
Proof.
  intros (Hsh & Hfl & Hbs). destruct Hsh as [H1 H2 H3 H4 H5 H6].
  destruct (startStallTimer_view c H2) as (id & next & ->). split; [by split|]. split; [|done].
  intros Hst. destruct (Hfl Hst) as [Hlow Hcl Hh Ha Hw Hrd Hres Hpau Hstr Hfifo].
  split; try done. intros Hr. by destruct (Hpau Hr).
Qed.

Lemma push_inv clean c f :
  inv clean c -> functorOk clean f -> functorBytes f = 0 -> queued [f] = [] ->
  inv clean (setPending (pending c ++ [f]) c).
Proof.
  intros (Hsh & Hfl & Hbs) Hf Hz Hq. split; [by apply shape_push|]. split; [|done].
  intros Hst. eapply flow_waiting; [by apply Hfl|..]; cbn [pending setPending producers outstandingBytes_];
    rewrite ?waiting_push.
  - lia.
  - by destruct (Hfl Hst).
  - left. lia.
  - intros q. destruct (Hfl Hst) as [_ _ _ _ _ _ _ _ _ Hfifo]. etransitivity; [apply (Hfifo q)|].
    unfold queued in *. by rewrite omap_app, Hq, app_nil_r.
Qed.

Lemma sendTry_inv clean p m n cur spurious c :
  inv clean c -> producers c !! p = Some (Reserving m n cur) ->
  inv clean (sendTry limits_ p m n cur spurious c).
Proof.
  intros Hinv Hp. pose proof Hinv as (Hsh & Hfl & Hbs).
  assert (sized clean m n) as Hsz by (destruct Hsh as [_ _ H3 _ _ _]; by apply (Forall_lookup_1 _ _ _ _ H3 Hp)).
  assert (forall y, p = loopThread -> y = Idle \/ busy c = None) as Hloop.
  { intros y ->. right. by eapply shape_notIdle. }
  assert (forall y, producerOk clean y -> producerBytes y = 0 -> inv clean (setProducer p y c)) as Hset.
  { intros y Hy Hz. split; [by apply shape_producer; [..|apply Hloop]|]. split; [|done]. intros Hst.
    eapply flow_waiting; [by apply Hfl|..]; cbn [pending setProducer producers outstandingBytes_];
      rewrite ?(waiting_insert _ _ _ _ _ Hp); simpl; rewrite ?Hz; [lia|by destruct (Hfl Hst)|left; lia|].
    by destruct (Hfl Hst). }
  unfold sendTry. destruct (Z.ltb_spec (u64 (hard - n)) cur) as [?|Hcur].
  - destruct (Nat.eqb p loopThread).
    + apply startStallTimer_inv. by apply (Hset Idle).
    + apply (push_inv clean (answer p SendWouldBlock PauseProducer (setProducer p Idle c))); [|done..].
      by apply (Hset Idle).
  - destruct (negb spurious && (outstandingBytes_ c =? cur)) eqn:E; [|by apply Hset].
    apply andb_true_iff in E as [_ <-%Z.eqb_eq]. split; [by apply shape_producer; [..|apply Hloop]|]. split; [|done].
    intros Hst. pose proof (flow_nonneg _ _ Hinv Hst). destruct Hsz as (-> & Hsz & _).
    pose proof (frameSizeOf_pos m). rewrite u64_small in Hcur by (unfold isU64; lia).
    assert (0 <= waitingBytes (producers c) (pending c)) by (destruct Hsh; by eapply waitingBytes_nonneg).
    eapply flow_waiting; [by apply Hfl|..]; cbn [pending setProducer producers setOutstanding outstandingBytes_];
      rewrite ?(waiting_insert _ _ _ _ _ Hp), ?u64_small by (unfold isU64; lia); simpl; try lia.
    by destruct (Hfl Hst).
Qed.


Lemma ofThread_one q p m : ofThread q [(p, m)] = if decide (p = q) then [m] else [].
Proof. unfold ofThread. rewrite filter_cons. simpl. by destruct (decide (p = q)). Qed.

Lemma queued_app l1 l2 : queued (l1 ++ l2) = queued l1 ++ queued l2.
Proof. apply omap_app. Qed.

Lemma queued_loop clean pend : Forall (functorOk clean) pend -> ofThread loopThread (queued pend) = [].
Proof.
  induction 1 as [|f pend Hf _ IH]; [done|]. change (f :: pend) with ([f] ++ pend).
  rewrite queued_app, ofThread_app, IH, app_nil_r. destruct f as [p m n| | |]; [|done..].
  destruct Hf as [Hp _]. change (queued [FSend p m n]) with [(p, m)]. rewrite ofThread_one.
  by rewrite decide_False.
Qed.

Lemma sendPost_inv clean p m n over c :
  inv clean c -> producers c !! p = Some (Reserved m n over) ->
  inv clean (sendPost limits_ codec_ p m n over c).
Proof.
  intros Hinv Hp. pose proof Hinv as (Hsh & Hfl & Hbs). pose proof Hsh as [_ _ H3 H4 _ _].
  assert (sized clean m n) as Hsz by by apply (Forall_lookup_1 _ _ _ _ H3 Hp).
  assert (shape clean (outputBuffer_ c) (stallTimerId_ c) (timers c) (pending c)
    (<[p := Idle]> (producers c)) (busy c)) as Hsh' by (apply shape_producer; [done..|by left]).
  unfold sendPost. destruct (Nat.eqb_spec p loopThread) as [->|Hne].
  - assert (busy c = None) as Hbusy by (eapply shape_notIdle; [exact Hsh|exact Hp|done]). rewrite Hbusy in *.
    assert (forall x, <[loopThread := Idle]> (producers c) !! loopThread = Some x -> x = Idle) as Hidle.
    { intros x [(_ & -> & _)|(? & _)]%list_lookup_insert_Some; done. }
    apply sendInLoop_inv; [done|done|done|done|]. intros Hst.
    eapply (flow_begin _ _ _ _ _ _ _ _ _ (pending c)); [by apply Hfl|..];
      cbn [pending producers setProducer post answer posted written].
    + rewrite (waiting_insert _ _ _ _ _ Hp). simpl. lia.
    + intros q. destruct (Hfl Hst) as [_ _ _ _ _ _ _ _ _ Hfifo]. specialize (Hfifo q).
      rewrite !ofThread_app, !ofThread_one, Hfifo. simpl. rewrite app_nil_r.
      destruct (decide (loopThread = q)) as [<-|]; [|by rewrite !app_nil_r].
      rewrite (queued_loop clean) by done. simpl. by rewrite !app_nil_r.
  - split; [by apply shape_push|]. split; [|done]. intros Hst.
    eapply flow_waiting; [by apply Hfl|..];
      cbn [pending producers setProducer post answer posted written setPending outstandingBytes_ busy];
      rewrite ?waiting_push, ?(waiting_insert _ _ _ _ _ Hp); simpl; [lia|by destruct (Hfl Hst)|left; lia|].
    intros q. destruct (Hfl Hst) as [_ _ _ _ _ _ _ _ _ Hfifo]. specialize (Hfifo q).
    rewrite queued_app, !ofThread_app, Hfifo, ofThread_app. by rewrite <- !app_assoc.
Qed.


(** ** Draining the buffer *)

Lemma flow_drain clean st rd chR out o armed stall pend prods sock frms pstd k pre :
  flow clean st rd chR true out o armed stall pend prods None sock frms pstd ->
  buffer_ok out -> take k (readable out) = pre ->
  let out' := Buf.retrieve (length pre) out in
  let left := Z.of_nat (Buf.readableBytes out') in
  let resumed := negb rd && (left <=? resume) in
  flow clean st (if resumed then true else rd) (if resumed then true else chR) (negb (left =? 0)) out'
    (o - Z.of_nat (length pre)) (armedAfter armed o (Z.of_nat (length pre)))
    (if resumed then None else stall) pend prods None (sock ++ pre) frms pstd.
Proof.
  intros [Hlow Hcl Hh Ha Hw Hrd Hres Hpau Hstr Hfifo] Hb Hpre out' left resumed.
  destruct (retrieve_ok (length pre) out Hb) as [Hb' Hr']. fold out' in Hb', Hr'.
  assert (readable out = pre ++ readable out') as Hsplit.
  { rewrite Hr', <- Hpre, length_take. rewrite <- (take_drop k (readable out)) at 1. f_equal.
    destruct (decide (k <= length (readable out))%nat); [by rewrite Nat.min_l|].
    rewrite Nat.min_r by lia. by rewrite !drop_ge by lia. }
  assert (Z.of_nat (Buf.readableBytes out) = Z.of_nat (length pre) + left) as Hlen.
  { unfold left. rewrite <- !length_readable by done. rewrite Hsplit, length_app. lia. }
  assert (left = Z.of_nat (Buf.readableBytes out')) as Hleft by done. clearbody left.
  unfold busyBytes in *. split; rewrite <- ?Hleft.
  - simpl. lia.
  - intros Hc. specialize (Hcl Hc). simpl. lia.
  - lia.
  - apply armedAfter_flow; [done|lia].
  - rewrite negb_true_iff, Z.eqb_neq. rewrite Hleft, <- length_readable by done.
    destruct (readable out'); simpl; [split; by intros []|]. split; [done|lia].
  - intros Hc. specialize (Hrd Hc). by destruct resumed.
  - subst resumed. destruct rd; simpl; [intros _; specialize (Hres eq_refl); lia|].
    destruct (Z.leb_spec left resume); [lia|done].
  - subst resumed. destruct rd; simpl; [done|]. destruct (Hpau eq_refl).
    destruct (Z.leb_spec left resume); [done|]. intros _. split; [lia|done].
  - intros Hc. destruct (Hstr Hc) as [Hcat Hall]. split; [|done]. by rewrite <- app_assoc, <- Hsplit.
  - done.
Qed.

Lemma cancelStallTimer_view c :
  timers c = match stallTimerId_ c with Some id => {[id]} | None => ∅ end ->
  cancelStallTimer c = setTimers None ∅ (nextTimer c) c.
Proof.
  intros Ht. unfold cancelStallTimer. rewrite Ht. destruct (stallTimerId_ c) as [id|] eqn:E.
  - by rewrite difference_diag_L.
  - destruct c; simpl in *. by subst.
Qed.

(** [handleWrite] after the write: the interest in writing ends when the buffer
    is empty, and reading resumes at the low mark. *)
Definition afterWrite (c : TcpConnection) : TcpConnection :=
  let c := if bufferedBytes c =? 0
           then let c := setWriting false c in
                if hasWriteCompleteCallback then emit WriteComplete c else c
           else c in
  if negb (reading_ c) && (bufferedBytes c <=? resume)
  then cancelStallTimer (setReading true true c)
  else c.

Lemma afterWrite_inv clean c :
  let left := bufferedBytes c in
  let resumed := negb (reading_ c) && (left <=? resume) in
  shape clean (outputBuffer_ c) (stallTimerId_ c) (timers c) (pending c) (producers c) None ->
  busy c = None -> chanWriting c = true ->
  (state_ c <> kDisconnected ->
   flow clean (state_ c) (if resumed then true else reading_ c) (if resumed then true else chanReading c)
     (negb (left =? 0)) (outputBuffer_ c) (outstandingBytes_ c) (lowWaterArmed_ c)
     (if resumed then None else stallTimerId_ c) (pending c) (producers c) None (socket c) (written c)
     (posted c)) ->
  inv clean (afterWrite c).
Proof.
  intros left resumed Hsh Hbusy Hchan Hfl. unfold afterWrite.
  set (c3 := if bufferedBytes c =? 0 then _ else _).
  assert (exists ev, c3 = mkConn (state_ c) (reading_ c) (chanReading c) (negb (left =? 0)) (inputBuffer_ c)
    (outputBuffer_ c) (outstandingBytes_ c) (lowWaterArmed_ c) (pressureCallback_ c) (stallTimerId_ c)
    (timers c) (nextTimer c) (pending c) (producers c) None (socket c) (written c) (posted c) ev (outcomes c))
    as [ev Hc3].
  { unfold c3, left. destruct c; simpl in *; subst.
    destruct (bufferedBytes _ =? 0); [destruct hasWriteCompleteCallback|]; by eexists. }
  rewrite Hc3. clear c3 Hc3. unfold bufferedBytes in *. cbn [reading_ outputBuffer_] in *. fold left.
  fold resumed. pose proof Hsh as [_ Ht _ _ _ _]. destruct resumed.
  - rewrite cancelStallTimer_view by done. split; [by eapply shape_unbusy; [|destruct Hsh|]|]. by split.
  - split; [done|]. by split.
Qed.

Lemma handleWrite_inv clean r c :
  inv clean c -> busy c = None -> inv clean (handleWrite limits_ hasWriteCompleteCallback r c).
Proof.
  intros Hinv Hbusy. pose proof Hinv as (Hsh & Hfl & Hbs). pose proof Hsh as [Hb Ht _ _ _ _].
  unfold handleWrite. destruct (chanWriting c) eqn:Hchan; cbn [negb]; [|done].
  destruct r as [k| | |]; [|done..]. unfold Buf.writeFdOffer. fold (readable (outputBuffer_ c)).
  destruct (take k (readable (outputBuffer_ c))) as [|b out] eqn:Hout; [done|].
  set (pre := b :: out) in *. destruct (retrieve_ok (length pre) _ Hb) as [Hb' _].
  set (out' := Buf.retrieve _ _) in *. set (c1 := setOutput out' _). fold (afterWrite (releaseOutstanding limits_ (Z.of_nat (length pre)) c1)).
  destruct (decide (state_ c = kDisconnected)) as [Hdown|Hup].
  - destruct (release_any (Z.of_nat (length pre)) c1) as (o & a & ev & ->).
    apply afterWrite_inv; [by eapply shape_unbusy|done|done|done].
  - rewrite Hbusy in Hfl.
    pose proof (flow_drain _ _ _ _ _ _ _ _ _ _ _ _ _ k pre (Hfl Hup) Hb Hout) as F. cbn zeta in F. fold out' in F.
    assert (Z.of_nat (length pre) <= outstandingBytes_ c <= hard) as Hle.
    { destruct F as [Hlow _ _ _ _ _ _ _ _ _]. pose proof (flow_nonneg _ _ Hinv Hup).
      destruct Hsh as [_ _ H3 H4 _ _]. pose proof (waitingBytes_nonneg _ _ _ H3 H4). cbn [busyBytes] in Hlow. lia. }
    destruct (release_eq (Z.of_nat (length pre)) c1) as [ev ->]; [change (outstandingBytes_ c1) with (outstandingBytes_ c); lia|apply Hle|].
    apply afterWrite_inv; [by eapply shape_unbusy|done|done|]. intros _. exact F.
Qed.


(** ** The life of the connection *)

(** Before it is established nothing has been sent. *)
Definition fresh (c : TcpConnection) : Prop :=
  state_ c = kConnecting ->
  Forall (eq Idle) (producers c) /\ pending c = [] /\ busy c = None /\ timers c = ∅ /\
  reading_ c = true /\ chanWriting c = false.

Definition down (c : TcpConnection) : Prop := state_ c = kDisconnected.

Lemma down_inv clean c c' :
  inv clean c -> busy c = None -> down c' ->
  (outputBuffer_ c', pending c', producers c', busy c') = (outputBuffer_ c, pending c, producers c, busy c) ->
  timers c' = match stallTimerId_ c' with Some id => {[id]} | None => ∅ end ->
  inv clean c'.
Proof.
  intros (Hsh & _) Hbusy Hdown [= H1 H2 H3 H4] Ht. split; [|split; [done|by rewrite H4, Hbusy]].
  rewrite H1, H2, H3, H4, Hbusy. by eapply shape_unbusy; [|destruct Hsh|].
Qed.

Lemma cancelStallTimer_fields c :
  (outputBuffer_ (cancelStallTimer c), pending (cancelStallTimer c), producers (cancelStallTimer c),
   busy (cancelStallTimer c)) = (outputBuffer_ c, pending c, producers c, busy c).
Proof. unfold cancelStallTimer. by destruct (stallTimerId_ c). Qed.

Lemma handleClose_inv clean c : inv clean c -> busy c = None -> inv clean (handleClose c).
Proof.
  intros Hinv Hbusy. pose proof (proj1 Hinv) as [_ Ht _ _ _ _]. unfold handleClose.
  rewrite cancelStallTimer_view by done. by eapply down_inv.
Qed.

Lemma forceCloseInLoop_inv clean c :
  inv clean c -> busy c = None -> state_ c <> kConnecting -> inv clean (forceCloseInLoop c).
Proof.
  intros Hinv Hbusy Hst. pose proof (proj1 Hinv) as [_ Ht _ _ _ _]. unfold forceCloseInLoop.
  rewrite cancelStallTimer_view by done. cbn [state_ setTimers].
  destruct (_ || _) eqn:E; [by eapply down_inv|].
  eapply down_inv; [done|done| |done|done].
  apply orb_false_iff in E as [?%bool_decide_eq_false ?%bool_decide_eq_false].
  unfold down. simpl. by destruct (state_ c).
Qed.

Lemma connectDestroyed_inv clean c :
  inv clean c -> busy c = None -> down c -> inv clean (connectDestroyed c).
Proof.
  intros Hinv Hbusy Hst. pose proof (proj1 Hinv) as [_ Ht _ _ _ _]. unfold connectDestroyed.
  rewrite bool_decide_eq_false_2 by (by rewrite Hst). rewrite cancelStallTimer_view by done.
  by eapply down_inv.
Qed.

Lemma connectEstablished_inv clean c :
  inv clean c -> state_ c = kConnecting -> fresh c -> inv clean (connectEstablished c).
Proof.
  intros (Hsh & Hfl & Hbs) Hst Hfresh. destruct (Hfresh Hst) as (_ & _ & Hb & _ & Hrd & _).
  rewrite Hst in *. split; [done|]. split; [|done]. intros _.
  by destruct (Hfl ltac:(done)) as [H1 H2 H3 H4 H5 H6 H7 H8 H9 H10].
Qed.

Lemma shutdown_inv clean c : inv clean c -> busy c = None -> inv clean (shutdown c).
Proof.
  intros (Hsh & Hfl & Hbs) Hb. unfold shutdown. case_bool_decide as Hst; [|done].
  rewrite Hst in *. split; [done|]. split; [|done]. intros _.
  destruct (Hfl ltac:(done)) as [H1 H2 H3 H4 H5 H6 H7 H8 H9 H10]. split; try done.
  intros _. by apply H6.
Qed.

Lemma handleRead_inv clean data c :
  inv clean c -> busy c = None -> state_ c <> kConnecting -> inv clean (handleRead messageCallback data c).
Proof.
  intros Hinv Hb Hst. unfold handleRead. destruct (Buf.readFd data (inputBuffer_ c)) as [b n].
  destruct (0 <? n).
  - destruct (messageCallback b) as [[b' ms] closed]. destruct closed; [|exact Hinv].
    by apply forceCloseInLoop_inv.
  - destruct (n =? 0); [|exact Hinv]. by apply handleClose_inv.
Qed.


(** How a step may change the phase of the connection. *)
Record advances (c c' : TcpConnection) : Prop := {
  ad_up : state_ c <> kConnecting -> state_ c' <> kConnecting;
  ad_down : down c -> down c';
  ad_destroy : FConnectDestroyed ∈ pending c' -> FConnectDestroyed ∈ pending c \/ down c;
}.

Lemma advances_same c c' : state_ c' = state_ c -> pending c' = pending c -> advances c c'.
Proof. intros H1 H2. split; unfold down; rewrite ?H1, ?H2; [done|done|by left]. Qed.

Lemma advances_of c1 c c' :
  state_ c' = state_ c1 /\ pending c' = pending c1 -> state_ c1 = state_ c -> pending c1 = pending c ->
  advances c c'.
Proof. intros [H1 H2] H3 H4. apply advances_same; congruence. Qed.

Lemma advances_push c c' f :
  state_ c' = state_ c -> pending c' = pending c ++ [f] -> f <> FConnectDestroyed \/ down c -> advances c c'.
Proof.
  intros H1 H2 Hf. split; unfold down in *; rewrite ?H1, ?H2; [done|done|].
  rewrite elem_of_app, list_elem_of_singleton. intros [?|Heq]; [by left|].
  destruct Hf as [Hf|?]; [by destruct Hf|by right].
Qed.

Lemma release_same k c :
  state_ (releaseOutstanding limits_ k c) = state_ c /\ pending (releaseOutstanding limits_ k c) = pending c.
Proof. by destruct (release_any k c) as (o & a & ev & ->). Qed.

Lemma startStallTimer_same c :
  state_ (startStallTimer c) = state_ c /\ pending (startStallTimer c) = pending c.
Proof. unfold startStallTimer. by destruct (stallTimerId_ c). Qed.

Lemma cancelStallTimer_same c :
  state_ (cancelStallTimer c) = state_ c /\ pending (cancelStallTimer c) = pending c.
Proof. unfold cancelStallTimer. by destruct (stallTimerId_ c). Qed.

Lemma bufferRest_same rest c :
  state_ (bufferRest limits_ highWaterMark_ hasHighWaterMarkCallback rest c) = state_ c /\
  pending (bufferRest limits_ highWaterMark_ hasHighWaterMarkCallback rest c) = pending c.
Proof.
  destruct (bufferRest_eq rest c) as [ev ->]. unfold checkPause. case_match; [|done].
  match goal with |- context [startStallTimer ?x] => destruct (startStallTimer_same x) as [-> ->] end. done.
Qed.

Lemma sendInLoop_same p m n c :
  state_ (sendInLoop limits_ codec_ p m n c) = state_ c /\
  pending (sendInLoop limits_ codec_ p m n c) = pending c.
Proof.
  assert (forall data, state_ (sendInLoopBytes limits_ p m data n c) = state_ c /\
    pending (sendInLoopBytes limits_ p m data n c) = pending c) as Hbytes.
  { intros data. unfold sendInLoopBytes. destruct (bool_decide _); [apply release_same|].
    by destruct (resume <? outstandingBytes_ c). }
  unfold sendInLoop. destruct (bool_decide _); [apply release_same|].
  destruct codec_ as [codec|]; [|apply Hbytes].
  destruct (encode codec m (newBuffer kInitialSize)) as [b []]; [apply Hbytes|apply release_same..].
Qed.

Lemma sendInLoopWrite_same r c :
  let c' := sendInLoopWrite limits_ highWaterMark_ hasHighWaterMarkCallback hasWriteCompleteCallback r c in
  state_ c' = state_ c /\ pending c' = pending c.
Proof.
  unfold sendInLoopWrite. destruct (busy c) as [[[[p m] data] n]|]; [|done].
  destruct (directWrite _ _ _ _ _ _) as [[c1 rest] fault] eqn:E.
  assert (state_ c1 = state_ c /\ pending c1 = pending c) as [H1 H2].
  { unfold directWrite in E. set (c0 := setWritten _ _) in *.
    destruct (_ && _); [|by simplify_eq]. destruct r as [k| | |]; [|by simplify_eq..].
    set (c2 := setSocket _ _) in *. destruct (release_any (match drop k data with [] => n | _ => Z.of_nat (length (take k data)) end) c2)
      as (o & a & ev & Hrel). rewrite Hrel in E.
    destruct (drop k data), hasWriteCompleteCallback; by simplify_eq. }
  destruct (_ && _); [|done]. destruct (bufferRest_same rest c1) as [H3 H4]. by rewrite H3, H4.
Qed.


Lemma handleWrite_same r c :
  let c' := handleWrite limits_ hasWriteCompleteCallback r c in
  state_ c' = state_ c /\ pending c' = pending c.
Proof.
  unfold handleWrite. destruct (negb _); [done|]. destruct r as [k| | |]; [|done..].
  destruct (take _ _) as [|b out]; [done|]. set (c1 := setOutput _ _).
  destruct (release_any (Z.of_nat (length (b :: out))) c1) as (o & a & ev & ->).
  destruct (bufferedBytes _ =? 0); [destruct hasWriteCompleteCallback|]; destruct (_ && _); try done;
    match goal with |- context [cancelStallTimer ?x] => destruct (cancelStallTimer_same x) as [-> ->] end; done.
Qed.

Lemma advances_down c c' : state_ c' = kDisconnected -> pending c' = pending c -> advances c c'.
Proof. intros H1 H2. split; unfold down; rewrite ?H1, ?H2; [done|done|by left]. Qed.

Lemma forceCloseInLoop_advances c : advances c (forceCloseInLoop c).
Proof.
  unfold forceCloseInLoop. destruct (cancelStallTimer_same c) as [H1 H2].
  destruct (_ || _); [by apply advances_down|by apply advances_same].
Qed.

Lemma handleClose_advances c : advances c (handleClose c).
Proof. apply advances_down; [done|]. apply cancelStallTimer_same. Qed.

Lemma handleRead_advances data c : advances c (handleRead messageCallback data c).
Proof.
  unfold handleRead. destruct (Buf.readFd data (inputBuffer_ c)) as [b n]. destruct (0 <? n).
  - destruct (messageCallback b) as [[b' ms] []]; [|by apply advances_same].
    destruct (forceCloseInLoop_advances (emit (MessagesRead ms) (setInput b' (setInput b c)))). by split.
  - destruct (n =? 0); [|by apply advances_same]. destruct (handleClose_advances (setInput b c)). by split.
Qed.

Lemma advances_pop c f rest c' :
  pending c = f :: rest -> advances (setPending rest c) c' -> advances c c'.
Proof.
  intros Hp [H1 H2 H3]. split; [exact H1|exact H2|]. intros Hin. rewrite Hp.
  destruct (H3 Hin) as [?|?]; [left; by apply elem_of_cons; right|by right].
Qed.

Lemma runFunctor_advances f c :
  (f = FConnectDestroyed -> down c) -> advances c (runFunctor limits_ codec_ f c).
Proof.
  intros Hf. destruct f as [p m n| | |]; simpl.
  - eapply advances_of; [apply sendInLoop_same|done|done].
  - eapply advances_of; [apply startStallTimer_same|done|done].
  - apply forceCloseInLoop_advances.
  - specialize (Hf eq_refl). unfold connectDestroyed.
    rewrite bool_decide_eq_false_2 by (by rewrite Hf). eapply advances_of; [apply cancelStallTimer_same|done|done].
Qed.

(** Before the connection is established, [fresh]; [connectDestroyed] is only
    queued for a connection that is down. *)
Definition life (c : TcpConnection) : Prop :=
  fresh c /\ (FConnectDestroyed ∈ pending c -> down c).

Abbreviation connStep := (connStep limits_ codec_ highWaterMark_ hasHighWaterMarkCallback
  hasWriteCompleteCallback messageCallback).
Abbreviation connRun := (connRun limits_ codec_ highWaterMark_ hasHighWaterMarkCallback
  hasWriteCompleteCallback messageCallback).

Lemma whenIdle_advances f c : (loopIdle c = true -> advances c (f c)) -> advances c (whenIdle f c).
Proof. unfold whenIdle. destruct (loopIdle c); [auto|by intros; apply advances_same]. Qed.

Lemma whenRegistered_advances f c : (forall c, advances c (f c)) -> advances c (whenRegistered f c).
Proof.
  intros Hf. apply whenIdle_advances. intros _. destruct (bool_decide _); [by apply advances_same|done].
Qed.


Lemma sendCall_advances p m c : advances c (sendCall limits_ codec_ p m c).
Proof. unfold sendCall. destruct (negb _); [|destruct (_ <? _)]; by apply advances_same. Qed.

Lemma sendTry_advances p m n cur b c : advances c (sendTry limits_ p m n cur b c).
Proof.
  unfold sendTry. destruct (_ <? _).
  - destruct (Nat.eqb p loopThread); [|eapply advances_push; [done|done|by left]].
    eapply advances_of; [apply startStallTimer_same|done|done].
  - destruct (_ && _); by apply advances_same.
Qed.

Lemma sendPost_advances p m n o c : advances c (sendPost limits_ codec_ p m n o c).
Proof.
  unfold sendPost. destruct (Nat.eqb p loopThread); [|eapply advances_push; [done|done|by left]].
  eapply advances_of; [apply sendInLoop_same|done|done].
Qed.

Lemma connStep_advances c st : life c -> advances c (connStep c st).
Proof.
  intros [_ Hdestroy]. destruct st as [p m|p b|p|r| | |data|r| |id| |p| |b]; cbn [TcpConnection.connStep].
  - destruct (producers c !! p) as [[]|]; try by apply advances_same.
    destruct (Nat.eqb p loopThread); [apply whenIdle_advances; intros _|]; apply sendCall_advances.
  - destruct (producers c !! p) as [[]|]; try by apply advances_same. apply sendTry_advances.
  - destruct (producers c !! p) as [[]|]; try by apply advances_same. apply sendPost_advances.
  - eapply advances_of; [apply sendInLoopWrite_same|done|done].
  - apply whenIdle_advances. intros _. destruct (pending c) as [|f rest] eqn:Hp; [by apply advances_same|].
    eapply advances_pop; [done|]. apply runFunctor_advances. intros ->. apply Hdestroy. left.
  - apply whenIdle_advances. intros _. case_bool_decide as Hst; [|by apply advances_same].
    split; [done| |by left]. unfold down. by rewrite Hst.
  - apply whenRegistered_advances, handleRead_advances.
  - apply whenRegistered_advances. intros c'. eapply advances_of; [apply handleWrite_same|done|done].
  - apply whenRegistered_advances, handleClose_advances.
  - apply whenIdle_advances. intros _. destruct (bool_decide _); [|by apply advances_same].
    destruct (forceCloseInLoop_advances (setTimers (stallTimerId_ c) (timers c ∖ {[id]}) (nextTimer c) c)).
    by split.
  - apply whenIdle_advances. intros _. unfold shutdown. case_bool_decide as Hst; [|by apply advances_same].
    split; [done| |by left]. unfold down. by rewrite Hst.
  - destruct (bool_decide _); [by apply advances_same|]. destruct (Nat.eqb p loopThread).
    + apply whenIdle_advances. intros _. apply forceCloseInLoop_advances.
    + eapply advances_push; [done|done|by left].
  - case_bool_decide; [|by apply advances_same]. eapply advances_push; [done|done|by right].
  - apply whenIdle_advances. intros _. by apply advances_same.
Qed.

(** While it is connecting, a step leaves the connection alone or establishes it. *)
Lemma connecting_step c st :
  fresh c -> state_ c = kConnecting ->
  state_ (connStep c st) <> kConnecting \/ fresh (connStep c st).
Proof.
  intros Hfresh Hst. pose proof Hfresh as H. destruct (H Hst) as (Hp & Hq & Hb & Ht & Hr & Hw). clear H.
  assert (forall p x, producers c !! p = Some x -> x = Idle) as Hidle.
  { intros p x Hx. symmetry. by apply (Forall_lookup_1 _ _ _ _ Hp Hx). }
  destruct st as [p m|p b|p|r| | |data|r| |id| |p| |b]; cbn [TcpConnection.connStep];
    unfold whenRegistered, whenIdle, sendCall, sendInLoopWrite, shutdown; rewrite ?Hst; simpl.
  all: try (destruct (producers c !! p) as [x|] eqn:Hx; [apply Hidle in Hx as ->|]).
  all: try (destruct (Nat.eqb p loopThread)).
  all: try (destruct (loopIdle c)).
  all: rewrite ?Hb, ?Hq, ?Ht; simpl.
  all: try (by right). all: by left.
Qed.

Lemma life_step c st : life c -> life (connStep c st).
Proof.
  intros Hlife. pose proof (connStep_advances c st Hlife) as [H1 H2 H3]. destruct Hlife as [Hfresh Hd]. split.
  - intros Hst'. destruct (decide (state_ c = kConnecting)) as [Hst|Hst]; [|by destruct (H1 Hst)].
    destruct (connecting_step c st Hfresh Hst) as [?|Hf]; [done|by apply Hf].
  - intros Hin. apply H2. destruct (H3 Hin); auto.
Qed.


(** ** Every step keeps the invariant *)

(** No direct write fails with EPIPE or ECONNRESET, and without a codec no message is
    empty: [sendInLoop] releases nothing in the first case, and for an empty message
    behind a backlog it neither writes nor buffers the byte that [send] reserved. *)
Definition cleanStep (st : ConnStep) : Prop :=
  match st with
  | SendWrite r => r <> WriteBroken
  | SendCall _ m => codec_ = None -> m <> []
  | _ => True
  end.

Lemma loopIdle_busy c : loopIdle c = true -> busy c = None.
Proof. unfold loopIdle. by destruct (busy c). Qed.

Lemma loopIdle_thread c x : loopIdle c = true -> producers c !! loopThread = Some x -> x = Idle.
Proof. unfold loopIdle. intros Hl Hx. rewrite Hx in Hl. by destruct (busy c), x. Qed.

Lemma whenIdle_inv clean f c :
  inv clean c -> (loopIdle c = true -> busy c = None -> inv clean (f c)) -> inv clean (whenIdle f c).
Proof. unfold whenIdle. intros Hinv Hf. destruct (loopIdle c) eqn:E; auto using loopIdle_busy. Qed.

Lemma whenRegistered_inv clean f c :
  inv clean c -> (busy c = None -> state_ c <> kConnecting -> inv clean (f c)) ->
  inv clean (whenRegistered f c).
Proof. intros Hinv Hf. apply whenIdle_inv; [done|]. intros _ Hb. case_bool_decide; auto. Qed.

Lemma fifo_pop clean st rd chR chW out o armed stall f rest prods sock frms pstd q :
  flow clean st rd chR chW out o armed stall (f :: rest) prods None sock frms pstd ->
  ofThread q pstd = ofThread q frms ++ ofThread q (queued [f]) ++ ofThread q (queued rest).
Proof.
  intros [_ _ _ _ _ _ _ _ _ Hfifo]. rewrite (Hfifo q). simpl busyFrame. rewrite app_nil_r.
  change (f :: rest) with ([f] ++ rest). by rewrite queued_app, ofThread_app.
Qed.

Lemma pop_inv clean c f rest :
  inv clean c -> busy c = None -> pending c = f :: rest -> functorBytes f = 0 -> queued [f] = [] ->
  inv clean (setPending rest c).
Proof.
  intros (Hsh & Hfl & Hbs) Hb Hp Hz Hq. rewrite Hp, Hb in *. split; [|split; [|done]].
  - simpl. rewrite Hb. destruct Hsh as [H1 H2 H3 H4 H5 H6]. split; try done. by apply Forall_cons in H4 as [_ ?].
  - intros Hst. simpl. rewrite Hb.
    eapply (flow_waiting _ _ _ _ _ _ _ _ _ _ (f :: rest)); [by apply Hfl|..]; unfold waitingBytes; simpl.
    + rewrite Hz. lia.
    + by destruct (Hfl Hst).
    + left. rewrite Hz. lia.
    + intros q. rewrite (fifo_pop _ _ _ _ _ _ _ _ _ _ _ _ _ _ _ q (Hfl Hst)), Hq. simpl. by rewrite app_nil_r.
Qed.

Lemma runFunctor_inv clean c f rest :
  inv clean c -> life c -> loopIdle c = true -> pending c = f :: rest ->
  inv clean (runFunctor limits_ codec_ f (setPending rest c)).
Proof.
  intros Hinv [Hfresh Hd] Hidle Hp. pose proof (loopIdle_busy c Hidle) as Hb.
  destruct f as [p m n| | |]; simpl.
  - destruct Hinv as (Hsh & Hfl & Hbs). rewrite Hp, Hb in *.
    pose proof Hsh as [_ _ _ H4 _ _]. apply Forall_cons in H4 as [[_ Hsz] H4].
    apply sendInLoop_inv; [|done|done|by intros x; apply loopIdle_thread|].
    { destruct Hsh as [H1 H2 H3 _ H5 H6]. by split. }
    intros Hst. eapply (flow_begin _ _ _ _ _ _ _ _ _ (FSend p m n :: rest)); [by apply Hfl|..];
      cbn [pending producers setPending].
    + unfold waitingBytes. simpl. lia.
    + intros q. etransitivity; [apply (fifo_pop _ _ _ _ _ _ _ _ _ _ _ _ _ _ _ q (Hfl Hst))|].
      change (queued [FSend p m n]) with [(p, m)]. rewrite !ofThread_app, !ofThread_one, <- app_assoc.
      by destruct (decide (p = q)).
  - apply startStallTimer_inv. by eapply pop_inv.
  - apply forceCloseInLoop_inv; [by eapply pop_inv|done|]. intros Hst.
    destruct (Hfresh Hst) as (_ & Hq & _). by rewrite Hp in Hq.
  - apply connectDestroyed_inv; [by eapply pop_inv|done|]. apply Hd. rewrite Hp. left.
Qed.


Lemma timer_cancelled c id :
  timers c = match stallTimerId_ c with Some id => {[id]} | None => ∅ end -> id ∈ timers c ->
  forceCloseInLoop (setTimers (stallTimerId_ c) (timers c ∖ {[id]}) (nextTimer c) c) = forceCloseInLoop c.
Proof.
  intros Ht Hin. unfold forceCloseInLoop. f_equal; unfold cancelStallTimer; cbn [stallTimerId_ setTimers timers].
  all: destruct (stallTimerId_ c) as [i|]; [|rewrite Ht in Hin; set_solver].
  all: replace (timers c ∖ {[id]} ∖ {[i]}) with (timers c ∖ {[i]}) by (rewrite Ht in *; set_solver); done.
Qed.

Lemma connStep_inv clean c st :
  inv clean c -> life c -> (clean = true -> cleanStep st) -> inv clean (connStep c st).
Proof.
  intros Hinv Hlife Hclean. pose proof (proj1 Hinv) as [_ Ht _ _ _ _].
  destruct st as [p m|p b|p|r| | |data|r| |id| |p| |b]; cbn [TcpConnection.connStep cleanStep] in *.
  - destruct (producers c !! p) as [[]|] eqn:Hp; try done. destruct (Nat.eqb_spec p loopThread).
    + apply whenIdle_inv; [done|]. intros _ Hb. by apply sendCall_inv.
    + by apply sendCall_inv.
  - destruct (producers c !! p) as [[]|] eqn:Hp; try done. by apply sendTry_inv.
  - destruct (producers c !! p) as [[]|] eqn:Hp; try done. by apply sendPost_inv.
  - by apply sendInLoopWrite_inv.
  - apply whenIdle_inv; [done|]. intros Hi _. destruct (pending c) as [|f rest] eqn:Hp; [done|].
    by apply runFunctor_inv.
  - apply whenIdle_inv; [done|]. intros _ _. case_bool_decide; [|done].
    apply connectEstablished_inv; [done|done|by destruct Hlife].
  - apply whenRegistered_inv; [done|]. apply handleRead_inv; done.
  - apply whenRegistered_inv; [done|]. intros Hb _. by apply handleWrite_inv.
  - apply whenRegistered_inv; [done|]. intros Hb _. by apply handleClose_inv.
  - apply whenIdle_inv; [done|]. intros _ Hb. case_bool_decide as Hin; [|done].
    rewrite timer_cancelled by done. apply forceCloseInLoop_inv; [done|done|]. intros Hst.
    destruct Hlife as [Hfresh _]. destruct (Hfresh Hst) as (_ & _ & _ & He & _). rewrite He in Hin. set_solver.
  - apply whenIdle_inv; [done|]. intros _ Hb. by apply shutdown_inv.
  - case_bool_decide; [done|]. destruct (Nat.eqb p loopThread).
    + apply whenIdle_inv; [done|]. intros _ Hb. by apply forceCloseInLoop_inv.
    + by apply push_inv.
  - case_bool_decide; [|done]. by apply push_inv.
  - apply whenIdle_inv; [done|]. intros _ Hb. exact Hinv.
Qed.

Lemma newConnection_inv clean threads : inv clean (newConnection threads) /\ life (newConnection threads).
Proof.
  destruct (newBuffer_ok kInitialSize) as [Hb Hr]. pose proof (length_readable _ Hb) as Hl. rewrite Hr in Hl.
  assert (waitingBytes (replicate threads Idle) [] = 0) as Hw.
  { unfold waitingBytes. induction threads; simpl in *; lia. }
  split; [split; [|split; [|done]]|].
  - split; try done. + apply Forall_replicate. done. + by left.
  - intros _. cbn -[newBuffer]. split; rewrite ?Hw, ?Hr; simpl; rewrite <- ?Hl; simpl; try done; lia.
  - split; [|by intros ?%elem_of_nil]. intros _. cbn -[newBuffer].
    split_and!; try done. by apply Forall_replicate.
Qed.

Lemma connRun_life threads steps : life (connRun steps (newConnection threads)).
Proof.
  assert (forall c, life c -> life (connRun steps c)) as Hrun.
  { induction steps as [|st steps IH]; intros c Hlife; [done|]. simpl. by apply IH, life_step. }
  apply Hrun. by destruct (newConnection_inv false threads).
Qed.

Lemma connRun_inv clean threads steps :
  (clean = true -> Forall cleanStep steps) -> inv clean (connRun steps (newConnection threads)).
Proof.
  intros Hclean.
  assert (forall c, inv clean c -> life c -> inv clean (connRun steps c)) as Hrun.
  { revert Hclean. induction steps as [|st steps IH]; intros Hclean c Hinv Hlife; [done|]. simpl.
    apply IH; [|apply connStep_inv; try done|by apply life_step].
    all: intros Hc; by apply Forall_cons in Hclean as [??]. }
  destruct (newConnection_inv clean threads). by apply Hrun.
Qed.


(** ** Draining signals the low-water mark *)

Lemma release_signals k c :
  0 <= k <= outstandingBytes_ c -> outstandingBytes_ c <= hard ->
  lowWaterArmed_ c = true -> resume < outstandingBytes_ c ->
  let c' := releaseOutstanding limits_ k c in
  outstandingBytes_ c' = outstandingBytes_ c - k /\
  if outstandingBytes_ c - k <=? resume
  then events c' = events c ++ [LowWater (pressureCallback_ c)]
  else events c' = events c /\ lowWaterArmed_ c' = true.
Proof.
  intros Hk Ho Ha Hr. unfold releaseOutstanding. rewrite u64_small by (unfold isU64; lia).
  cbn [lowWaterArmed_ setOutstanding pressureCallback_]. rewrite Ha, (proj2 (Z.ltb_lt _ _)) by done.
  destruct (outstandingBytes_ c - k <=? resume); done.
Qed.

Lemma afterWrite_events c : exists l, events (afterWrite c) = events c ++ l /\
  outstandingBytes_ (afterWrite c) = outstandingBytes_ c /\
  lowWaterArmed_ (afterWrite c) = lowWaterArmed_ c /\
  pressureCallback_ (afterWrite c) = pressureCallback_ c /\
  producers (afterWrite c) = producers c /\ pending (afterWrite c) = pending c.
Proof.
  unfold afterWrite, cancelStallTimer.
  destruct (bufferedBytes c =? 0); [destruct hasWriteCompleteCallback|];
    destruct (negb _ && _); try destruct (stallTimerId_ _); cbn;
    solve [exists []; rewrite app_nil_r; done | eexists; done].
Qed.


(** What a turn of [handleWrite] tells the producers. *)
Definition signals (c c' : TcpConnection) : Prop :=
  exists l, events c' = events c ++ l /\ pressureCallback_ c' = pressureCallback_ c /\
    (lowWaterArmed_ c = true -> resume < outstandingBytes_ c ->
     if outstandingBytes_ c' <=? resume then LowWater (pressureCallback_ c) ∈ l
     else lowWaterArmed_ c' = true).

Lemma signals_refl c : signals c c.
Proof. exists []. rewrite app_nil_r. split_and!; [done..|]. intros Ha Hr. by rewrite (proj2 (Z.leb_gt _ _)). Qed.

Lemma writable_signals clean r c :
  inv clean c -> state_ c <> kDisconnected -> signals c (connStep c (Writable r)).
Proof.
  intros Hinv Hst. cbn [TcpConnection.connStep]. unfold whenRegistered, whenIdle.
  destruct (loopIdle c) eqn:Hidle; [|apply signals_refl]. case_bool_decide; [apply signals_refl|].
  unfold handleWrite. destruct (negb (chanWriting c)); [apply signals_refl|].
  destruct r as [k| | |]; [|apply signals_refl..]. unfold Buf.writeFdOffer. fold (readable (outputBuffer_ c)).
  destruct (take k (readable (outputBuffer_ c))) as [|b out] eqn:Hout; [apply signals_refl|].
  set (pre := b :: out) in *. set (c1 := setOutput _ _). fold (afterWrite (releaseOutstanding limits_ (Z.of_nat (length pre)) c1)).
  assert (0 <= Z.of_nat (length pre) <= outstandingBytes_ c) as Hle.
  { pose proof Hinv as (Hsh & Hfl & _). destruct (Hfl Hst) as [Hlow _ _ _ _ _ _ _ _ _].
    destruct Hsh as [Hb _ H3 H4 _ _]. pose proof (waitingBytes_nonneg _ _ _ H3 H4).
    rewrite (loopIdle_busy c Hidle) in Hlow. cbn [busyBytes] in Hlow.
    apply (f_equal length) in Hout. rewrite length_take, length_readable in Hout by done. lia. }
  pose proof (flow_nonneg _ _ Hinv Hst) as Ho.
  destruct (afterWrite_events (releaseOutstanding limits_ (Z.of_nat (length pre)) c1))
    as (l & He & Hout' & Harm & Hpc & _).
  destruct (release_any (Z.of_nat (length pre)) c1) as (o & a & ev & Hrel).
  assert (exists l0, events (releaseOutstanding limits_ (Z.of_nat (length pre)) c1) = events c ++ l0) as [l0 Hl0].
  { unfold releaseOutstanding. cbn zeta. destruct (_ && _); [by eexists|]. exists []. by rewrite app_nil_r. }
  exists (l0 ++ l). split; [by rewrite He, Hl0, app_assoc|]. split; [by rewrite Hpc, Hrel|].
  intros Ha Hr. destruct (release_signals (Z.of_nat (length pre)) c1) as [Hv Hsig]; [done|apply Ho|done|done|].
  rewrite Hout', Hv, Harm. destruct (_ <=? resume).
  - rewrite Hsig in Hl0. apply app_inv_head in Hl0 as <-. left.
  - apply Hsig.
Qed.

Lemma writable_state r c : state_ (connStep c (Writable r)) = state_ c.
Proof.
  cbn [TcpConnection.connStep]. unfold whenRegistered, whenIdle. destruct (loopIdle c); [|done].
  case_bool_decide; [done|]. apply (handleWrite_same r c).
Qed.

Lemma drain_signals clean rs c :
  inv clean c -> life c -> state_ c <> kDisconnected -> lowWaterArmed_ c = true ->
  resume < outstandingBytes_ c -> outstandingBytes_ (connRun (Writable <$> rs) c) <= resume ->
  exists l, events (connRun (Writable <$> rs) c) = events c ++ l /\ LowWater (pressureCallback_ c) ∈ l.
Proof.
  assert (forall rs c, inv clean c -> life c -> state_ c <> kDisconnected ->
    exists l, events (connRun (Writable <$> rs) c) = events c ++ l) as Hgrow.
  { clear rs c. intros rs. induction rs as [|r rs IH]; intros c Hinv Hlife Hst; [exists []; by rewrite app_nil_r|].
    destruct (writable_signals clean r c Hinv Hst) as (l & He & _).
    destruct (IH (connStep c (Writable r))) as [l' Hl']; [by apply connStep_inv|by apply life_step|by rewrite writable_state|].
    exists (l ++ l'). etransitivity; [exact Hl'|]. by rewrite He, app_assoc. }
  revert c. induction rs as [|r rs IH]; intros c Hinv Hlife Hst Ha Hr Hend; [simpl in Hend; lia|].
  change (connRun (Writable <$> r :: rs) c) with (connRun (Writable <$> rs) (connStep c (Writable r))) in *.
  destruct (writable_signals clean r c Hinv Hst) as (l & He & Hpc & Hsig). specialize (Hsig Ha Hr).
  set (c1 := connStep c (Writable r)) in *.
  assert (inv clean c1 /\ life c1 /\ state_ c1 <> kDisconnected) as (Hinv1 & Hlife1 & Hst1).
  { split; [by apply connStep_inv|]. split; [by apply life_step|]. unfold c1. by rewrite writable_state. }
  destruct (Z.leb_spec (outstandingBytes_ c1) resume) as [Hlow|Hhigh].
  - destruct (Hgrow rs c1 Hinv1 Hlife1 Hst1) as [l' Hl']. exists (l ++ l').
    split; [by rewrite Hl', He, app_assoc|]. apply elem_of_app. by left.
  - destruct (IH c1 Hinv1 Hlife1 Hst1 Hsig Hhigh Hend) as (l' & Hl' & Hin). exists (l ++ l').
    split; [by rewrite Hl', He, app_assoc|]. apply elem_of_app. right. by rewrite Hpc in Hin.
Qed.

End invariant.

(** ** Theorems *)

Definition limitsFit (l : WriteBufferLimits) : Prop :=
  limitsValid l = true /\ 0 <= resumeReadBytes l /\ hardLimitBytes l < 2 ^ 64 - 1.

(** Bytes reserved by frames that are on their way to the buffer. *)
Definition reservedBytes (c : TcpConnection) : Z :=
  waitingBytes (producers c) (pending c) + busyBytes (busy c).

Section theorems.
Variable limits_ : WriteBufferLimits.
Variable highWaterMark_ : Z.
Variable hasHighWaterMarkCallback hasWriteCompleteCallback : bool.
Variable messageCallback : Buffer -> Buffer * list (list byte) * bool.
Variable codec : WireCodec.
Variable maxBody : Z.

Abbreviation run := (connRun limits_ (outputCodec codec maxBody) highWaterMark_ hasHighWaterMarkCallback
  hasWriteCompleteCallback messageCallback).
Abbreviation clean := (cleanStep (outputCodec codec maxBody)).

Lemma limitsFit_ok :
  limitsFit limits_ ->
  0 <= resumeReadBytes limits_ < pauseReadBytes limits_ /\
  resumeReadBytes limits_ < hardLimitBytes limits_ < 2 ^ 64.
Proof. intros ([H1%Z.ltb_lt H2%Z.ltb_lt]%andb_true_iff & ? & ?). lia. Qed.

Lemma outputCodec_ok :
  limitsFit limits_ -> 0 <= maxBody < 2 ^ 31 ->
  forall c, outputCodec codec maxBody = Some c -> codecOk (hardLimitBytes limits_) c.
Proof.
  intros (_ & _ & Hh) Hmax c Hc. destruct codec; simplify_eq/=. by apply binaryCodec_ok.
Qed.

Lemma run_inv cl threads steps :
  limitsFit limits_ -> 0 <= maxBody < 2 ^ 31 -> (cl = true -> Forall clean steps) ->
  inv limits_ (outputCodec codec maxBody) cl (run steps (newConnection threads)).
Proof.
  intros Hl Hm Hc. apply connRun_inv; [by apply limitsFit_ok|by apply outputCodec_ok|done].
Qed.

(** C34: The budget of a connection: however threads interleave and whatever the
    socket does, until the connection is down the bytes counted as outstanding
    cover those reserved by frames under way and those buffered, and never exceed
    the hard limit.  The count is exact, so that no reservation leaks and none is
    released twice, on executions in which no direct write fails with EPIPE or
    ECONNRESET and in which a connection without a codec is given no empty message;
    each of the two leaks a reservation ([broken_write_leaks],
    [empty_message_leaks]). *)
Theorem outstanding_accounts threads steps :
  limitsFit limits_ -> 0 <= maxBody < 2 ^ 31 ->
  let c := run steps (newConnection threads) in
  state_ c <> kDisconnected ->
  reservedBytes c + bufferedBytes c <= outstandingBytes_ c <= hardLimitBytes limits_ /\
  (Forall clean steps -> outstandingBytes_ c = reservedBytes c + bufferedBytes c).
Proof.
  intros Hl Hm c Hst. unfold reservedBytes, bufferedBytes. split.
  - destruct (run_inv false threads steps Hl Hm ltac:(done)) as (_ & Hfl & _).
    destruct (Hfl Hst) as [Hlow _ Hh _ _ _ _ _ _ _]. fold c in Hlow, Hh. lia.
  - intros Hc. destruct (run_inv true threads steps Hl Hm ltac:(done)) as (_ & Hfl & _).
    destruct (Hfl Hst) as [_ Hcl _ _ _ _ _ _ _ _]. by apply Hcl.
Qed.

(** Reading follows the output buffer with hysteresis: while the connection
    is up, it reads from the peer only below the pause mark; when it does not,
    the buffer is above the resume mark and the one stall timer of the
    connection is running.  The interest in writing is on exactly when there are
    bytes to write. *)
Theorem reading_follows_buffer threads steps :
  limitsFit limits_ -> 0 <= maxBody < 2 ^ 31 ->
  let c := run steps (newConnection threads) in
  state_ c = kConnected \/ state_ c = kDisconnecting ->
  chanReading c = reading_ c /\
  (reading_ c = true -> bufferedBytes c < pauseReadBytes limits_) /\
  (reading_ c = false -> resumeReadBytes limits_ < bufferedBytes c /\
     exists id, stallTimerId_ c = Some id /\ timers c = {[id]}) /\
  (chanWriting c = true <-> readable (outputBuffer_ c) <> []).
Proof.
  intros Hl Hm c Hst. destruct (run_inv false threads steps Hl Hm ltac:(done)) as (Hsh & Hfl & _).
  fold c in Hsh, Hfl. assert (state_ c <> kDisconnected /\ state_ c <> kConnecting) as [Hup Hnc]
    by (split; destruct Hst as [->| ->]; done).
  destruct (Hfl Hup) as [_ _ _ _ Hw Hrd Hres Hpau _ _].
  destruct Hsh as [_ Ht _ _ _ _]. split; [by apply Hrd|]. split; [done|]. split; [|done].
  intros Hr. destruct (Hpau Hr) as [? Hstall]. split; [done|].
  destruct (stallTimerId_ c) as [id|]; [by exists id|done].
Qed.

Lemma wire_binary m :
  codec = BinaryFrame -> limitsFit limits_ -> 0 <= maxBody < 2 ^ 31 ->
  frameSizeOf (outputCodec codec maxBody) m <= hardLimitBytes limits_ ->
  wire (outputCodec codec maxBody) m = binaryWire m /\ binaryValid maxBody m.
Proof.
  intros -> (_ & _ & Hh) Hmax Hsz. unfold frameSizeOf, wire in *. cbn [outputCodec binaryCodec encodedSize encode] in *.
  assert (binaryValid maxBody m) as Hv.
  { unfold binaryValid, Binary.encodedSize in *. destruct (Z.ltb_spec maxBody (Z.of_nat (length m))); [|done].
    change (u64 (-1)) with (2 ^ 64 - 1) in Hsz. lia. }
  split; [|done].
  destruct (binary_encode_ok maxBody m (newBuffer kInitialSize)) as (b & -> & _ & Hr); [done|done|apply newBuffer_ok|].
  cbn [fst]. by rewrite Hr, (proj2 (newBuffer_ok _)).
Qed.

(** C33: A connection with the binary frame codec is a reliable ordered stream as long
    as no direct write fails with EPIPE or ECONNRESET and it is not disconnected:
    however threads interleave and however the socket splits or blocks the writes,
    the messages accepted from one
    thread are written or still queued in the order in which it sent them, and
    once the buffer is drained a peer that receives the bytes in any chunks gets
    exactly the messages written, in order, without a protocol error. *)
Theorem connection_stream threads steps chunks size :
  codec = BinaryFrame -> limitsFit limits_ -> 0 <= maxBody < 2 ^ 31 -> Forall clean steps ->
  let c := run steps (newConnection threads) in
  state_ c <> kDisconnected ->
  (forall p, ofThread p (posted c) = ofThread p (written c ++ busyFrame (busy c)) ++ ofThread p (queued (pending c))) /\
  (readable (outputBuffer_ c) = [] -> concat chunks = socket c ->
   exists b, receive (onMessage BinaryFrame maxBody) (newBuffer size) chunks = (b, (written c).*2, false) /\
     readable b = []).
Proof.
  intros Hbin Hl Hm Hc c Hst. destruct (run_inv true threads steps Hl Hm ltac:(done)) as (_ & Hfl & _).
  fold c in Hfl. destruct (Hfl Hst) as [_ _ _ _ _ _ _ _ Hstr Hfifo]. destruct (Hstr eq_refl) as [Hcat Hall].
  split; [done|]. intros Hout Hchunks. rewrite Hout, app_nil_r in Hcat.
  assert (Forall (fun m => wire (outputCodec codec maxBody) m = binaryWire m /\ binaryValid maxBody m)
    (written c).*2) as Hw.
  { apply Forall_fmap. eapply Forall_impl; [exact Hall|]. intros x Hx. by apply wire_binary. }
  apply receive_frames; [done| |].
  - eapply Forall_impl; [exact Hw|]. by intros m [_ ?].
  - rewrite Hchunks, Hcat. unfold wires. f_equal. clear - Hw. revert Hw. generalize ((written c).*2). intros l Hw.
    induction Hw as [|m ms [Hm' _] _ IH]; [done|].
    rewrite fmap_cons, Hm'. cbn [map]. by rewrite IH.
Qed.


(** C35: A producer told to pause is told to resume: when no frame is on its way
    to the buffer and more than the resume mark is outstanding, then any sequence
    of writes that drains the connection to the mark calls the pressure callback
    (when one is installed). *)
Theorem low_water_is_signalled threads steps rs :
  limitsFit limits_ -> 0 <= maxBody < 2 ^ 31 ->
  let c := run steps (newConnection threads) in
  state_ c <> kDisconnected -> reservedBytes c = 0 -> resumeReadBytes limits_ < outstandingBytes_ c ->
  let c' := run (Writable <$> rs) c in
  outstandingBytes_ c' <= resumeReadBytes limits_ ->
  exists new, events c' = events c ++ new /\ LowWater (pressureCallback_ c) ∈ new.
Proof.
  intros Hl Hm c Hst Hres Hhigh c' Hend. pose proof (run_inv false threads steps Hl Hm ltac:(done)) as Hinv.
  fold c in Hinv. pose proof Hinv as (Hsh & Hfl & _). destruct (Hfl Hst) as [_ _ _ Ha _ _ _ _ _ _].
  assert (lowWaterArmed_ c = true) as Harm.
  { destruct (Ha Hhigh) as [?|Hw]; [done|]. unfold reservedBytes in Hres. destruct Hsh as [_ _ _ _ Hb _].
    destruct (busy c) as [[[[p m] data] n]|]; simpl in Hres; [|lia].
    destruct (Hb p m data n eq_refl) as [-> _]. lia. }
  eapply drain_signals; [by apply limitsFit_ok|by apply outputCodec_ok|exact Hinv| |done|done|done|done].
  apply connRun_life; [by apply limitsFit_ok|by apply outputCodec_ok].
Qed.

End theorems.
