(* ===== verification/TcpFixtures.v ===== *)
(** * Executions of TCP connections

    Witnesses for the theorems on connections, and executions that show where
    flow control goes wrong. *)

From S2P Require Import Prelude Buffer Codec SessionDelivery TcpConnection TcpConnectionInv.

Open Scope Z_scope.

(** Small marks, so that a few bytes matter. *)
Abbreviation tinyLimits := (mkLimits 8 4 16).

Abbreviation tinyRun := (connRun tinyLimits (outputCodec JsonLine 0) 64 false false (onMessage JsonLine 0)).

(** A whole call of [send]. *)
Definition sends (p : nat) (m : list byte) : list ConnStep := [SendCall p m; SendTry p false; SendPost p].

Definition ten : list byte := [1; 2; 3; 4; 5; 6; 7; 8; 9; 10].

Abbreviation backlog :=
  ([Established; SetPressureCallback true] ++ sends 1 ten ++ [RunFunctor; SendWrite WriteBlocked]).

(** C34 with a frame half written and another one reserved. *)
Lemma outstanding_accounts_witness :
  let c := tinyRun ([Established] ++ sends 1 [1; 2; 3; 4; 5; 6] ++ [RunFunctor; SendWrite (Wrote 2)]
             ++ [SendCall 2 [7; 8; 9]; SendTry 2 false]) (newConnection 3) in
  (reservedBytes c = 3 /\ bufferedBytes c = 4 /\ outstandingBytes_ c = 7) /\
  (reservedBytes c + bufferedBytes c <= outstandingBytes_ c <= hardLimitBytes tinyLimits /\
   (Forall (cleanStep (outputCodec JsonLine 0)) ([Established] ++ sends 1 [1; 2; 3; 4; 5; 6] ++ [RunFunctor; SendWrite (Wrote 2)]
             ++ [SendCall 2 [7; 8; 9]; SendTry 2 false]) ->
    outstandingBytes_ c = reservedBytes c + bufferedBytes c)).
Proof.
  intros c. split; [by vm_compute|]. apply outstanding_accounts.
  - by vm_compute.
  - by vm_compute.
  - by vm_compute.
Defined.

(** An instance with a backlog above the pause mark. *)
Lemma reading_follows_buffer_witness :
  let c := tinyRun backlog (newConnection 2) in
  (reading_ c = false /\ bufferedBytes c = 10) /\
  (chanReading c = reading_ c /\
   (reading_ c = true -> bufferedBytes c < pauseReadBytes tinyLimits) /\
   (reading_ c = false -> resumeReadBytes tinyLimits < bufferedBytes c /\
      exists id, stallTimerId_ c = Some id /\ timers c = {[id]}) /\
   (chanWriting c = true <-> readable (outputBuffer_ c) <> [])).
Proof.
  intros c. split; [by vm_compute|]. apply reading_follows_buffer.
  - by vm_compute.
  - by vm_compute.
  - left. by vm_compute.
Defined.

(** C35 for a backlog drained in two writes. *)
Lemma low_water_is_signalled_witness :
  let c := tinyRun backlog (newConnection 2) in
  let c' := tinyRun (Writable <$> [Wrote 3; Wrote 4]) c in
  outstandingBytes_ c' = 3 /\
  exists new, events c' = events c ++ new /\ LowWater (pressureCallback_ c) ∈ new.
Proof.
  intros c c'. split; [by vm_compute|]. apply low_water_is_signalled.
  - by vm_compute.
  - by vm_compute.
  - by vm_compute.
  - by vm_compute.
  - by vm_compute.
  - by vm_compute.
Defined.

Abbreviation frameSteps :=
  ([Established] ++ sends 1 [104; 105] ++ sends 2 [111; 107] ++ sends 1 []
   ++ [RunFunctor; SendWrite (Wrote 5); RunFunctor; SendWrite WriteBlocked; RunFunctor; SendWrite (Wrote 0);
       Writable (Wrote 7); Writable (Wrote 100)]).

Abbreviation frameRun :=
  (connRun defaultLimits (outputCodec BinaryFrame 1024) 64 false false (onMessage BinaryFrame 1024)).

(** C33 for two threads, three frames and partial writes. *)
Lemma connection_stream_witness :
  let c := frameRun frameSteps (newConnection 3) in
  let chunks := [take 30 (socket c); drop 30 (socket c)] in
  written c = [(1%nat, [104; 105]); (2%nat, [111; 107]); (1%nat, [])] /\
  ((forall p, ofThread p (posted c) = ofThread p (written c ++ busyFrame (busy c)) ++ ofThread p (queued (pending c))) /\
   (readable (outputBuffer_ c) = [] -> concat chunks = socket c ->
    exists b, receive (onMessage BinaryFrame 1024) (newBuffer 8) chunks = (b, (written c).*2, false) /\
      readable b = [])).
Proof.
  intros c chunks. split; [by vm_compute|]. apply connection_stream.
  - done.
  - by vm_compute.
  - by vm_compute.
  - repeat constructor; done.
  - by vm_compute.
Defined.

(** ** What goes wrong *)

(** An empty message on a connection without a codec, behind a backlog: [send] reserves
    one byte for it, nothing is buffered, and after the backlog is written the byte
    stays reserved. *)
Lemma empty_message_leaks :
  let c := tinyRun (backlog ++ sends 1 [] ++ [RunFunctor; SendWrite WriteBlocked; Writable (Wrote 10)])
             (newConnection 2) in
  (state_ c, outstandingBytes_ c, reservedBytes c, bufferedBytes c) = (kConnected, 1, 0, 0).
Proof. by vm_compute. Qed.

(** A direct write that fails with EPIPE: the message is dropped, its bytes stay
    reserved. *)
Lemma broken_write_leaks :
  let c := tinyRun ([Established] ++ sends 1 ten ++ [RunFunctor; SendWrite WriteBroken]) (newConnection 2) in
  (state_ c, outstandingBytes_ c, reservedBytes c, bufferedBytes c) = (kConnected, 10, 0, 0).
Proof. by vm_compute. Qed.

(** A refused send starts the stall timer even when the backlog is only in the
    queue of the loop.  The loop then writes everything, reading is never paused,
    so nothing cancels the timer, and the idle connection is closed. *)
Lemma stall_timer_closes_idle_connection :
  let drained := [Established] ++ sends 1 ten ++ [SendCall 1 ten; SendTry 1 false] ++
                 [RunFunctor; SendWrite (Wrote 10); RunFunctor] in
  let c := tinyRun drained (newConnection 2) in
  let c' := tinyRun [TimerExpires 0] c in
  (state_ c, outstandingBytes_ c, readable (outputBuffer_ c), reading_ c, pending c) =
    (kConnected, 0, [], true, []) /\
  (state_ c', events c') = (kDisconnected, [ConnectionUp; LowWater false; ConnectionDown; CloseCallback]).
Proof. by vm_compute. Qed.

(** A thread that reserves between the check of the resume mark and the release
    after the write is told to pause, and no callback follows: everything is
    written and nothing is outstanding, with the callback installed.  It takes
    marks closer than a factor of two, which [setWriteBufferLimits] accepts. *)
Lemma pause_without_resume :
  let c := connRun (mkLimits 6 4 16) None 64 false false (onMessage JsonLine 0)
             ([Established; SetPressureCallback true] ++ sends 1 [1; 2; 3; 4] ++ [RunFunctor] ++
                    sends 2 [5; 6; 7] ++ [SendWrite (Wrote 4); RunFunctor; SendWrite (Wrote 3)])
             (newConnection 3) in
  (outstandingBytes_ c, events c) = (0, [ConnectionUp]) /\
  (2%nat, mkSendOutcome SendAccepted PauseProducer) ∈ outcomes c.
Proof. split; [by vm_compute|]. vm_compute. right. left. Qed.

(** A frame that is still queued when the connection is force-closed is released
    after the reset, and the count of outstanding bytes wraps around. *)
Lemma outstanding_wraps_after_close :
  let c := tinyRun ([Established] ++ sends 1 [1; 2; 3] ++ [ForceClose 0; RunFunctor]) (newConnection 2) in
  (state_ c, outstandingBytes_ c) = (kDisconnected, 2 ^ 64 - 3).
Proof. by vm_compute. Qed.
