(* ===== verification/ChatService.v ===== *)
(** * The chat service (chatserver/src/ChatService.cpp,
    SessionDeliveryArmer of src/SessionDeliverySink.cpp)

    The composition of the process: connections, sessions, the application, the
    worker executor, presence and messaging.  An execution is a list of steps:
    a message, a new or a closed connection, a step of a worker thread, a functor
    of an event loop, a pressure callback, a background call into messaging, or
    any change of the network.  A handler, a task and a functor each run as one
    step.  The closures given to the executor are [Job]s, named by their index;
    what a task leaves for its completion is a [JobResult]. *)

From S2P Require Import Prelude DomainTypes Metrics Store World Coordinator Messaging Json JsonText.
From S2P Require Import SessionRegistry Application Executor Presence Gateway Protocol SessionDelivery.
From Stdlib Require Import Ascii.

Open Scope Z_scope.
Open Scope eff_scope.

(** EnMsgType. *)
Definition LOGIN_MSG : Z := 1.
Definition LOGIN_MSG_ACK : Z := 2.
Definition LOGINOUT_MSG : Z := 3.
Definition REG_MSG : Z := 4.
Definition REG_MSG_ACK : Z := 5.
Definition ADD_FRIEND_MSG : Z := 7.
Definition CREATE_GROUP_MSG : Z := 8.
Definition ADD_GROUP_MSG : Z := 9.
Definition MESSAGE_ACCEPTED_MSG : Z := 11.
Definition DELIVERY_ACK_MSG : Z := 12.
Definition ERROR_RESP_MSG : Z := 13.

Record LoginDbResult := mkLogin {
  lg_auth : AuthResult;
  lg_friendNames : list string;
  lg_friendDetails : list FriendDetail;
}.

Definition emptyLogin : LoginDbResult :=
  mkLogin (mkAuth false 0 EmptyString Offline UserStorageFailure) [] [].

(** The closures handed to the executor: a task and its completion.  The
    connection of an acknowledgement is kept for the record only. *)
Inductive Job :=
| JLogin (conn : Conn) (id : Z) (pwd : string) (gen : Z)
| JOnline (id : Z)
| JAvailable (id gen : Z)
| JResume (id gen : Z)
| JClosed (id gen : Z)
| JOffline (id : Z) (reply : option Conn)
| JRegister (conn : Conn) (cmd : Command)
| JAck (conn : Conn) (session : BoundSession) (messageId : Z)
| JChat (conn : Conn) (js : Json) (parsed : ParsedChatMessage) (kind : ChatCommandKind)
    (session : BoundSession)
| JAddFriend (conn : Conn) (payload : string) (userid friendid : Z)
| JCreateGroup (conn : Conn) (userid : Z) (name desc : string)
| JAddGroup (conn : Conn) (payload : string) (userid groupid : Z).

(** The objects shared by a task and its completion, as constructed and as the
    task leaves them. *)
Inductive JobResult :=
| RNone
| RLogin (r : LoginDbResult)
| RReply (r : Reply)
| RView (v : AcceptResultView)
| RAddFriend (r : AddFriendResult)
| RCreateGroup (r : CreateGroupResult)
| RJoinGroup (r : JoinGroupResult).

Definition freshReply : Reply := mkReply CmdRegister 1 EmptyString 0 EmptyString.

Definition initialResult (j : Job) : JobResult :=
  match j with
  | JLogin _ _ _ _ => RLogin emptyLogin
  | JRegister _ _ => RReply freshReply
  | JChat _ _ _ _ _ => RView emptyView
  | JAddFriend _ _ _ _ => RAddFriend (mkAddFriend false FriendStorageFailure)
  | JCreateGroup _ _ _ _ => RCreateGroup (mkCreateGroup false 0 GroupStorageFailure)
  | JAddGroup _ _ _ _ => RJoinGroup (mkJoinGroup false GroupStorageFailure)
  | _ => RNone
  end.

(** What event loops have queued. *)
Inductive Functor :=
| FCompletion (job : nat)
| FArm (conn : Conn) (session : BoundSession).

(** The base loop of the server; connections may live on others. *)
Definition mainLoop : Z := 0.

Record Server (R S P N D : Type) := mkServer {
  sv_backend : Backend R S (Cluster P (Node N)) D;
  sv_executor : option SessionSerialExecutor;
  sv_jobs : list Job;
  sv_results : gmap nat JobResult;
  sv_functors : list Functor;
  sv_armed : gmap Conn BoundSession;          (**r [armedSessions_] *)
  sv_pressure : gmap Conn BoundSession;       (**r the session of the pressure callback *)
  sv_crashed : bool;                          (**r a functor let an exception out *)
}.
Arguments mkServer {R S P N D}.
Arguments sv_backend {R S P N D}.
Arguments sv_executor {R S P N D}.
Arguments sv_jobs {R S P N D}.
Arguments sv_results {R S P N D}.
Arguments sv_functors {R S P N D}.
Arguments sv_armed {R S P N D}.
Arguments sv_pressure {R S P N D}.
Arguments sv_crashed {R S P N D}.

Section service.
Context {R S P N D : Type}.
Context `{!Repositories R, !MessageStore S, !Platform N, !JsonFloat, !JsonLib}.
Context `{!PresenceDirectory P (Node N), !LocalGateway, !UserTable D}.

Notation V := (Server R S P N D).
Notation seff := (eff exn V).

Definition put_backend (b : Backend R S (Cluster P (Node N)) D) (s : V) : V :=
  mkServer b (sv_executor s) (sv_jobs s) (sv_results s) (sv_functors s) (sv_armed s) (sv_pressure s)
    (sv_crashed s).

Definition put_executor (e : option SessionSerialExecutor) (s : V) : V :=
  mkServer (sv_backend s) e (sv_jobs s) (sv_results s) (sv_functors s) (sv_armed s) (sv_pressure s)
    (sv_crashed s).

Definition put_functors (f : list Functor) (s : V) : V :=
  mkServer (sv_backend s) (sv_executor s) (sv_jobs s) (sv_results s) f (sv_armed s) (sv_pressure s)
    (sv_crashed s).

Definition put_armed (a : gmap Conn BoundSession) (s : V) : V :=
  mkServer (sv_backend s) (sv_executor s) (sv_jobs s) (sv_results s) (sv_functors s) a (sv_pressure s)
    (sv_crashed s).

Definition put_pressure (p : gmap Conn BoundSession) (s : V) : V :=
  mkServer (sv_backend s) (sv_executor s) (sv_jobs s) (sv_results s) (sv_functors s) (sv_armed s) p
    (sv_crashed s).

Definition put_result (i : nat) (r : JobResult) (s : V) : V :=
  mkServer (sv_backend s) (sv_executor s) (sv_jobs s) (<[i := r]> (sv_results s)) (sv_functors s)
    (sv_armed s) (sv_pressure s) (sv_crashed s).

Definition crash (s : V) : V :=
  mkServer (sv_backend s) (sv_executor s) (sv_jobs s) (sv_results s) (sv_functors s) (sv_armed s)
    (sv_pressure s) true.

Definition addJob (j : Job) (s : V) : V :=
  mkServer (sv_backend s) (sv_executor s) (sv_jobs s ++ [j])
    (<[length (sv_jobs s) := initialResult j]> (sv_results s)) (sv_functors s)
    (sv_armed s) (sv_pressure s) (sv_crashed s).

(** ** Parts of the state *)

Definition nodeOf (s : V) : Node N := c_env (w_env (bk_rm (sv_backend s))).

Definition put_cluster (c : Cluster P (Node N)) (s : V) : V :=
  put_backend (put_rm (put_env c (bk_rm (sv_backend s))) (sv_backend s)) s.

Definition onBackend {A} (m : eff exn (Backend R S (Cluster P (Node N)) D) A) : seff A :=
  zoom sv_backend put_backend m.

Definition onCluster {A} (m : eff exn (Cluster P (Node N)) A) : seff A :=
  zoom (fun s => w_env (bk_rm (sv_backend s))) put_cluster m.

Definition atNode {A} (f : Node N -> Node N * A) : seff A :=
  onCluster (fun c => let '(c', a) := onNode f c in (c', Ret a)).

Definition sessions : seff SessionRegistry := gets (fun s => nd_registry (nodeOf s)).

Definition onSessions {A} (f : SessionRegistry -> SessionRegistry * A) : seff A :=
  atNode (fun d => let '(r, a) := f (nd_registry d) in (put_registry r d, a)).

Definition noteEvent (ev : NodeEvent) : seff unit := atNode (fun d => (note ev d, tt)).

Definition connected (conn : Conn) : seff bool :=
  gets (fun s => netConnected conn (nd_net (nodeOf s))).

Definition need {A} (o : option A) : seff A :=
  match o with Some a => ret a | None => throw OtherException end.

(** [conn->send(text)], the outcome ignored. *)
Definition sendText (conn : Conn) (text : string) : seff unit :=
  noteEvent (Replied conn text) ;;;
  _ <- atNode (onNet (netSend conn text)) ;; ret tt.

(** [conn->send(j.dump() + "\n")] *)
Definition sendJson (conn : Conn) (j : Json) : seff unit :=
  text <- need (dump j) ;; sendText conn (text +:+ newline).

(** [json response = js; response[k] = v; ...; send] *)
Definition sendEcho (conn : Conn) (js : Json) (fields : list (string * Json)) : seff unit :=
  response <- need (foldl (fun acc kv => j ← acc; jset kv.1 kv.2 j) (Some js) fields) ;;
  sendJson conn response.

(** ** Submitting to the executor *)

Definition connectionKey (conn : Conn) : Z := u32 conn.

Definition submitKeyFor (conn : Conn) : seff SessionExecutorKey :=
  r <- sessions ;;
  ret (match Registry.lookupByConnection conn r with
       | Some b => if negb (bs_userId b =? 0) then Session (bs_userId b) (bs_generation b)
                   else Connection (connectionKey conn)
       | None => Connection (connectionKey conn)
       end).

(** [_executor->submit(key, task, completion)], without a deadline. *)
Definition submit (key : SessionExecutorKey) (j : Job) : seff SubmitResult :=
  now <- atNode (onNet steadyNow) ;;
  fun s =>
    match sv_executor s with
    | None => (s, Throw OtherException)
    | Some e =>
        let id := Z.of_nat (length (sv_jobs s)) in
        let '(e', r) := Serial.submit key (Some id) (Some id) 0 now e in
        (put_executor (Some e') (addJob j s), Ret r)
    end.

Definition hasExecutor : seff bool :=
  gets (fun s => match sv_executor s with Some _ => true | None => false end).

Definition submit_ (key : SessionExecutorKey) (j : Job) : seff unit :=
  _ <- submit key j ;; ret tt.

(** ** Presence (ProtocolCodec.cpp); the wiring exists once the executor does *)

Definition claimPresence (userId connId : Z) : seff bool :=
  c <- onCluster (bindUser localGateway (u64 userId) connId) ;; ret (cl_ok c).

Definition releasePresence (userId connId : Z) : seff unit :=
  wired <- hasExecutor ;;
  if (wired : bool)
  then _ <- onCluster (releaseUser localGateway (u64 userId) connId) ;; ret tt
  else ret tt.

Definition renewAllPresence : seff unit :=
  wired <- hasExecutor ;;
  if (wired : bool) then onCluster (renewAllClaimed localGateway) else ret tt.

(** ** SessionDeliveryArmer *)

Definition sameSession (a b : BoundSession) : bool :=
  (bs_userId a =? bs_userId b) && (bs_generation a =? bs_generation b).

Definition matchesExpected (conn : Conn) (expected : BoundSession) : seff bool :=
  r <- sessions ;;
  ret (match Registry.lookupByConnection conn r with
       | Some actual => sameSession actual expected
       | None => false
       end).

Definition clearPressure (conn : Conn) : seff unit :=
  modify (fun s => put_pressure (delete conn (sv_pressure s)) s).

Definition eraseArmed (conn : Conn) : seff unit :=
  modify (fun s => put_armed (delete conn (sv_armed s)) s).

Definition armedAs (conn : Conn) (expected : BoundSession) : seff bool :=
  gets (fun s => match sv_armed s !! conn with
                 | Some b => sameSession b expected
                 | None => false
                 end).

Definition closeRejectedSubmission (conn : Conn) (expected : BoundSession) : seff unit :=
  armed <- armedAs conn expected ;;
  if negb armed then ret tt
  else
    reserved <- onSessions (Registry.reserveCloseIfBound conn expected) ;;
    eraseArmed conn ;;;
    if negb reserved then ret tt
    else
      clearPressure conn ;;;
      atNode (onNet (fun n => (netForceClose conn n, tt))).

(** The closures [submitAvailable] and [submitResume] of the login. *)
Definition submitDelivery (j : Job) (session : BoundSession) : seff bool :=
  bound <- hasExecutor ;;
  if negb bound then ret false
  else
    r <- submit (Session (bs_userId session) (bs_generation session)) j ;;
    ret (match r with Accepted => true | _ => false end).

Definition submitAvailable (session : BoundSession) : seff bool :=
  submitDelivery (JAvailable (bs_userId session) (bs_generation session)) session.

Definition submitResume (session : BoundSession) : seff bool :=
  submitDelivery (JResume (bs_userId session) (bs_generation session)) session.

(** The functor [armSessionDelivery] runs in the connection's loop. *)
Definition armInLoop (conn : Conn) (expected : BoundSession) : seff unit :=
  alive <- connected conn ;;
  current <- matchesExpected conn expected ;;
  if negb alive || negb current then ret tt
  else
    modify (fun s => put_pressure (<[conn := expected]> (sv_pressure s)) s) ;;;
    modify (fun s => put_armed (<[conn := expected]> (sv_armed s)) s) ;;;
    ok <- submitAvailable expected ;;
    if (ok : bool) then ret tt else closeRejectedSubmission conn expected.

(** Called from a completion, which runs in the main loop. *)
Definition armSessionDelivery (conn : Conn) (expected : BoundSession) : seff unit :=
  if connLoop conn =? mainLoop then armInLoop conn expected
  else modify (fun s => put_functors (sv_functors s ++ [FArm conn expected]) s).

(** The installed pressure callback. *)
Definition onPressure (conn : Conn) : seff unit :=
  cb <- gets (fun s => sv_pressure s !! conn) ;;
  match cb with
  | None => ret tt
  | Some expected =>
      alive <- connected conn ;;
      current <- matchesExpected conn expected ;;
      if negb alive || negb current then ret tt
      else
        ok <- submitResume expected ;;
        if (ok : bool) then ret tt else closeRejectedSubmission conn expected
  end.

(** Called in the connection's own loop, so it runs at once. *)
Definition clearSessionDelivery (conn : Conn) (expected : BoundSession) : seff unit :=
  armed <- armedAs conn expected ;;
  if negb armed then ret tt else eraseArmed conn ;;; clearPressure conn.

(** ** Tasks, on a worker thread *)

Definition onAppS {A} (f : ChatApplication R -> ChatApplication R * A) : seff A :=
  onBackend (onApp f).

Definition isCurrent (id gen : Z) : seff bool :=
  gets (fun s => App.isSessionCurrent id gen (bk_app (sv_backend s))).

Definition onRM {A} (m : eff exn (World S (Cluster P (Node N))) A) : seff A :=
  onBackend (onMessaging m).

Definition setResult (i : nat) (r : JobResult) : seff unit := modify (put_result i r).

Definition friendsOf (rows : list (option Z * option string * option string))
  : list string * list FriendDetail :=
  (omap (fun row => row.1.2) rows,
   (fun row => mkFriend (default 0 row.1.1) (default EmptyString row.1.2) (default EmptyString row.2))
     <$> rows).

Definition loadLoginExtras (auth : AuthResult) : seff LoginDbResult :=
  rows <- onBackend (fun b =>
    let '(d, rows) := selectFriends (i32 (au_id auth)) (bk_db b) in
    (mkBackend (bk_app b) (bk_rm b) (bk_legacy b) d, Ret rows)) ;;
  ret (match rows with
       | None => mkLogin auth [] []
       | Some rows => let '(names, details) := friendsOf rows in mkLogin auth names details
       end).

Definition session64 (id gen : Z) : SessionIdentity := mkSession (u64 id) (u64 gen).

Definition runTask (i : nat) (j : Job) : seff unit :=
  match j with
  | JLogin conn id pwd gen =>
      auth <- onAppS (App.authenticate id pwd) ;;
      (if au_ok auth then noteEvent (Authenticated conn id gen) else ret tt) ;;;
      setResult i (RLogin (mkLogin auth [] [])) ;;;
      current <- isCurrent id gen ;;
      if au_ok auth && current
      then r <- loadLoginExtras auth ;; setResult i (RLogin r)
      else ret tt
  | JOnline id => _ <- onAppS (App.updateUserState id Online) ;; ret tt
  | JAvailable id gen => onRM (rmSessionAvailable (session64 id gen))
  | JResume id gen => onRM (rmResume (session64 id gen))
  | JClosed id gen => onRM (rmSessionClosed (session64 id gen))
  | JOffline id _ =>
      r <- sessions ;;
      _ <- onAppS (App.updateUserStateOfflineUnlessActive r id) ;; ret tt
  | JRegister _ cmd =>
      reply <- onAppS (App.handle cmd freshReply) ;; setResult i (RReply reply)
  | JAck conn session messageId =>
      noteEvent (Acting conn session) ;;;
      _ <- onRM (rmAcknowledge (session64 (bs_userId session) (bs_generation session)) messageId) ;;
      ret tt
  | JChat conn _ parsed kind session =>
      noteEvent (Acting conn session) ;;;
      v <- onBackend (acceptChatCommand (bs_userId session) (bs_generation session) parsed kind) ;;
      setResult i (RView v)
  | JAddFriend _ _ userid friendid =>
      r <- onAppS (App.addFriend userid friendid) ;; setResult i (RAddFriend r)
  | JCreateGroup _ userid name desc =>
      r <- onAppS (App.createGroup userid name desc) ;; setResult i (RCreateGroup r)
  | JAddGroup _ _ userid groupid =>
      r <- onAppS (App.joinGroup groupid userid) ;; setResult i (RJoinGroup r)
  end.

(** ** Completions, in the main loop *)

Definition sendFailureReply (conn : Conn) (js : Json) (parsed : ParsedChatMessage) (errnoCode : Z)
  : seff unit :=
  let errmsg := protocolErrmsg errnoCode in
  if pm_legacy parsed
  then sendEcho conn js [("errno", JInt 1); ("errmsg", JStr errmsg)]
  else sendText conn (encodeErrorReply ERROR_RESP_MSG errnoCode errmsg
         (if pm_hasClientMessageId parsed then Some (pm_clientMessageId parsed) else None)).

Definition loginError (conn : Conn) (errno : Z) (errmsg : string) : seff unit :=
  sendJson conn (objectOf [("msgid", JInt LOGIN_MSG_ACK); ("errno", JInt errno); ("errmsg", JStr errmsg)]).

Definition friendJson (d : FriendDetail) : Json :=
  objectOf [("friendid", JInt (fd_friendid d)); ("name", JStr (fd_name d)); ("state", JStr (fd_state d))].

(** The session is bound and its presence claimed. *)
Definition loginGranted (conn : Conn) (id gen : Z) (r : LoginDbResult) : seff unit :=
  submit_ (Session id gen) (JOnline id) ;;;
  sendJson conn (objectOf
    [("msgid", JInt LOGIN_MSG_ACK); ("errno", JInt 0); ("id", JInt id);
     ("name", JStr (au_name (lg_auth r))); ("friends", JArr (JStr <$> lg_friendNames r));
     ("friendDetails", JArr (friendJson <$> lg_friendDetails r))]) ;;;
  armSessionDelivery conn (mkBound id gen).

Definition completeLogin (conn : Conn) (id gen : Z) (r : LoginDbResult) : seff unit :=
  current <- isCurrent id gen ;;
  if negb current then ret tt
  else if negb (au_ok (lg_auth r)) then loginError conn 1 "userid or password is invalid!"
  else
    alive <- connected conn ;;
    if negb alive then ret tt
    else
      br <- onSessions (Registry.bind conn id gen) ;;
      match br with
      | ConnectionInactive => ret tt
      | UserBusy => loginError conn 2 "this account is using, input another!"
      | ConnectionBusy => loginError conn 2 "this connection has already logged in!"
      | BindOk =>
          claimed <- claimPresence id (connectionKey conn) ;;
          if negb claimed then
            _ <- onSessions (Registry.unbindUser id) ;;
            _ <- onAppS (App.invalidateSessionAttempt id gen) ;;
            loginError conn 1 "login temporarily unavailable, please retry!"
          else loginGranted conn id gen r
      end.

Definition completeChat (conn : Conn) (js : Json) (parsed : ParsedChatMessage) (v : AcceptResultView)
  : seff unit :=
  if av_ok v then
    if pm_legacy parsed then sendEcho conn js [("errno", JInt 0)]
    else sendText conn (encodeMessageAcceptedReply MESSAGE_ACCEPTED_MSG (av_clientMessageId v)
           (av_messageId v) (av_conversationId v) (av_sequence v) (av_duplicate v))
  else sendFailureReply conn js parsed (av_errnoCode v).

(** [json::parse(payload)] with its error number set. *)
Definition completeEcho (conn : Conn) (payload : string) (ok : bool) : seff unit :=
  js <- need (json_parse payload) ;;
  sendEcho conn js [("errno", JInt (if ok then 0 else 1))].

Definition runCompletion (j : Job) (r : JobResult) : seff unit :=
  match j, r with
  | JLogin conn id _ gen, RLogin r => completeLogin conn id gen r
  | JOffline _ (Some conn), _ =>
      sendJson conn (objectOf [("msgid", JInt LOGINOUT_MSG); ("errno", JInt 0)])
  | JRegister conn _, RReply reply =>
      sendJson conn (objectOf ([("msgid", JInt REG_MSG_ACK); ("errno", JInt (rp_errno reply))]
        ++ [if rp_errno reply =? 0 then ("id", JInt (rp_userId reply))
            else ("errmsg", JStr (rp_errmsg reply))]))
  | JChat conn js parsed _ _, RView v => completeChat conn js parsed v
  | JAddFriend conn payload _ _, RAddFriend r => completeEcho conn payload (af_ok r)
  | JCreateGroup conn userid _ _, RCreateGroup r =>
      sendJson conn (objectOf ([("msgid", JInt CREATE_GROUP_MSG); ("id", JInt userid)]
        ++ if cg_ok r then [("groupid", JInt (cg_groupId r)); ("errno", JInt 0)]
           else [("errno", JInt 1)]))
  | JAddGroup conn payload _ _, RJoinGroup r => completeEcho conn payload (jg_ok r)
  | _, _ => ret tt
  end.

(** ** Handlers, in the loop of the connection *)

Definition unavailable (conn : Conn) (msgid : Z) : seff unit :=
  sendJson conn (objectOf [("msgid", JInt msgid); ("errno", JInt 1); ("errmsg", JStr "db unavailable!")]).

Definition login (conn : Conn) (js : Json) : seff unit :=
  id <- need (atKey getInt "id" js) ;;
  pwd <- need (atKey getString "password" js) ;;
  bound <- hasExecutor ;;
  if negb bound then unavailable conn LOGIN_MSG_ACK
  else
    gen <- onAppS (App.beginSessionAttempt id) ;;
    key <- submitKeyFor conn ;;
    submit_ key (JLogin conn id pwd gen).

Definition reg (conn : Conn) (js : Json) : seff unit :=
  bound <- hasExecutor ;;
  if negb bound then unavailable conn REG_MSG_ACK
  else
    name <- need (atKey getString "name" js) ;;
    password <- need (atKey getString "password" js) ;;
    raw <- need (dump js) ;;
    key <- submitKeyFor conn ;;
    submit_ key (JRegister conn (mkCmd CmdRegister 0 name password raw)).

Definition deliveryAck (conn : Conn) (js : Json) : seff unit :=
  r <- sessions ;;
  match Registry.lookupByConnection conn r with
  | None => ret tt
  | Some session =>
      bound <- hasExecutor ;;
      if negb bound then ret tt
      else
        messageId <- need (atKey getUint64 "message_id" js) ;;
        submit_ (Session (bs_userId session) (bs_generation session))
          (JAck conn session messageId)
  end.

(** The session of a connection; (0, 0) when there is none. *)
Definition boundOf (conn : Conn) : seff BoundSession :=
  r <- sessions ;;
  ret (default (mkBound 0 0) (Registry.lookupByConnection conn r)).

(** [submit(offlineKey, ...)], where the session decides the lane. *)
Definition submitOffline (conn : Conn) (bs : BoundSession) (userid : Z) (reply : option Conn)
  : seff unit :=
  key <- (if negb (bs_userId bs =? 0) then ret (Session (bs_userId bs) (bs_generation bs))
          else submitKeyFor conn) ;;
  submit_ key (JOffline userid reply).

Definition submitClosed (bs : BoundSession) : seff unit :=
  bound <- hasExecutor ;;
  if negb (bs_userId bs =? 0) && bound
  then submit_ (Session (bs_userId bs) (bs_generation bs)) (JClosed (bs_userId bs) (bs_generation bs))
  else ret tt.

Definition loginout (conn : Conn) (js : Json) : seff unit :=
  userid <- need (atKey getInt "id" js) ;;
  bs <- boundOf conn ;;
  (if negb (bs_userId bs =? 0) then clearSessionDelivery conn bs else ret tt) ;;;
  _ <- onSessions (Registry.unbindUser userid) ;;
  (if negb (bs_userId bs =? 0) then releasePresence (bs_userId bs) (connectionKey conn) else ret tt) ;;;
  (if negb (bs_userId bs =? 0)
   then _ <- onAppS (App.invalidateSessionAttempt (bs_userId bs) (bs_generation bs)) ;; ret tt
   else _ <- onAppS (App.beginSessionAttempt userid) ;; ret tt) ;;;
  submitClosed bs ;;;
  bound <- hasExecutor ;;
  if (bound : bool) then submitOffline conn bs userid (Some conn)
  else unavailable conn LOGINOUT_MSG.

Definition refuse (conn : Conn) (js : Json) (errmsg : string) : seff unit :=
  sendEcho conn js [("errno", JInt 1); ("errmsg", JStr errmsg)].

(** [oneChat] and [groupChat] differ in the kind. *)
Definition chat (kind : ChatCommandKind) (conn : Conn) (js : Json) : seff unit :=
  p <- need (parseChatMessage kind js) ;;
  let '(parsed, codecErr) := p in
  if negb (codecErr =? 0) then sendFailureReply conn js parsed codecErr
  else
    r <- sessions ;;
    match Registry.lookupByConnection conn r with
    | None => refuse conn js "please login first!"
    | Some session =>
        sender <- (if contains "id" js then
                     id <- need (atKey getInt "id" js) ;; ret (id =? bs_userId session)
                   else ret true) ;;
        if negb sender then refuse conn js "invalid sender!"
        else
          bound <- hasExecutor ;;
          if negb bound then refuse conn js "db unavailable!"
          else
            submit_ (Session (bs_userId session) (bs_generation session))
              (JChat conn js parsed kind session)
    end.

Definition oneChat : Conn -> Json -> seff unit := chat ChatDirect.

Definition groupChat : Conn -> Json -> seff unit := chat ChatGroup.

Definition addFriend (conn : Conn) (js : Json) : seff unit :=
  userid <- need (atKey getInt "id" js) ;;
  friendid <- need (atKey getInt "friendid" js) ;;
  bound <- hasExecutor ;;
  if negb bound then sendEcho conn js [("errno", JInt 1)]
  else
    payload <- need (dump js) ;;
    key <- submitKeyFor conn ;;
    submit_ key (JAddFriend conn payload userid friendid).

Definition createGroup (conn : Conn) (js : Json) : seff unit :=
  userid <- need (atKey getInt "id" js) ;;
  name <- need (atKey getString "groupname" js) ;;
  desc <- need (atKey getString "groupdesc" js) ;;
  bound <- hasExecutor ;;
  if negb bound then
    sendJson conn (objectOf [("msgid", JInt CREATE_GROUP_MSG); ("id", JInt userid); ("errno", JInt 1)])
  else
    key <- submitKeyFor conn ;;
    submit_ key (JCreateGroup conn userid name desc).

Definition addGroup (conn : Conn) (js : Json) : seff unit :=
  userid <- need (atKey getInt "id" js) ;;
  groupid <- need (atKey getInt "groupid" js) ;;
  bound <- hasExecutor ;;
  if negb bound then sendEcho conn js [("errno", JInt 1)]
  else
    payload <- need (dump js) ;;
    key <- submitKeyFor conn ;;
    submit_ key (JAddGroup conn payload userid groupid).

Definition dispatch (msgid : Z) : option (Conn -> Json -> seff unit) :=
  if msgid =? LOGIN_MSG then Some login
  else if msgid =? REG_MSG then Some reg
  else if msgid =? LOGINOUT_MSG then Some loginout
  else if msgid =? ONE_CHAT_MSG then Some oneChat
  else if msgid =? ADD_FRIEND_MSG then Some addFriend
  else if msgid =? CREATE_GROUP_MSG then Some createGroup
  else if msgid =? ADD_GROUP_MSG then Some addGroup
  else if msgid =? GROUP_CHAT_MSG then Some groupChat
  else if msgid =? DELIVERY_ACK_MSG then Some deliveryAck
  else None.

(** Every exception of a handler is caught and only logged. *)
Definition handler (conn : Conn) (msg : string) : seff unit :=
  match json_parse msg with
  | None => ret tt
  | Some js =>
      catchAll
        (if negb (contains "msgid" js) then ret tt
         else
           msgid <- need (atKey getInt "msgid" js) ;;
           match dispatch msgid with
           | None => ret tt
           | Some h => h conn js
           end)
        (fun _ => ret tt)
  end.

Definition addConnection (conn : Conn) : seff unit :=
  onSessions (fun r => (Registry.addConnection conn r, tt)).

Definition clientCloseException (conn : Conn) : seff unit :=
  bs <- boundOf conn ;;
  (if negb (bs_userId bs =? 0) then clearSessionDelivery conn bs else ret tt) ;;;
  onSessions (fun r => (Registry.removeConnection conn r, tt)) ;;;
  userid <- onSessions (Registry.unbind conn) ;;
  (if negb (userid =? 0) then releasePresence userid (connectionKey conn) else ret tt) ;;;
  submitClosed bs ;;;
  if negb (userid =? 0) then
    (if negb (bs_userId bs =? 0)
     then _ <- onAppS (App.invalidateSessionAttempt (bs_userId bs) (bs_generation bs)) ;; ret tt
     else ret tt) ;;;
    bound <- hasExecutor ;;
    if (bound : bool) then submitOffline conn bs userid None else ret tt
  else ret tt.

(** ** Life cycle *)

Definition bindLoop (workers : nat) (queueCapacity laneCapacity : Z) : seff unit :=
  modify (put_executor (Some (Serial.new workers queueCapacity laneCapacity))) ;;;
  _ <- onRM start ;; ret tt.

(** [shutdownApp] up to the join of the workers, and the stop of messaging. *)
Definition shutdownExecutor : seff unit :=
  modify (fun s => put_executor (Serial.shutdown <$> sv_executor s) s).

Definition stopMessaging : seff unit := onRM stopRequest ;;; onRM stopJoined.

Definition reset : seff unit :=
  onBackend (modify (fun b => mkBackend (bk_app b) (bk_rm b) (bk_legacy b) (resetOnline (bk_db b)))).

(** ** Executions *)

(** Calls into messaging from the scheduler and from the outbox consumer. *)
Inductive Background := BScheduler | BWakeup (recipients : list UserId).

Inductive SvStep :=
| SvBindLoop (workers : nat) (queueCapacity laneCapacity : Z)
| SvConnected (conn : Conn)
| SvMessage (conn : Conn) (msg : string)
| SvClosed (conn : Conn)
| SvTake (w : nat) (clock : nat -> Z)
| SvStart (w : nat)
| SvEnd (w : nat)
| SvFinish (w : nat)
| SvFunctor (i : nat)
| SvPressure (conn : Conn)
| SvBackground (call : Background)
| SvRenew
| SvReset
| SvShutdown
| SvStopMessaging
| SvNetwork (n : N).

Definition onExecutor (f : SessionSerialExecutor -> SessionSerialExecutor) (s : V) : V :=
  put_executor (f <$> sv_executor s) s.

(** The record of worker [w], when there is an executor. *)
Definition workerOf (w : nat) (s : V) : option Worker :=
  e ← sv_executor s; workers_ e !! w.

Definition jobOf (p : Pending) (s : V) : option (nat * Job) :=
  id ← pd_task p; j ← sv_jobs s !! Z.to_nat id; Some (Z.to_nat id, j).

(** The worker runs the task it took; exceptions are caught. *)
Definition startJob (w : nat) (s : V) : V :=
  match workerOf w s with
  | Some (WTaken key p) =>
      let s1 := onExecutor (Serial.startTask w) s in
      match jobOf p s1 with
      | Some (i, j) => (runTask i j s1).1
      | None => s1
      end
  | _ => s
  end.

(** The worker posts the completion to the main loop. *)
Definition endJob (w : nat) (s : V) : V :=
  match workerOf w s with
  | Some (WRunning key p) =>
      let s1 := onExecutor (Serial.endTask w) s in
      match pd_completion p with
      | Some id => put_functors (sv_functors s1 ++ [FCompletion (Z.to_nat id)]) s1
      | None => s1
      end
  | _ => s
  end.

Definition functorLoop (f : Functor) : Z :=
  match f with FCompletion _ => mainLoop | FArm conn _ => connLoop conn end.

Definition runFunctor (f : Functor) : seff unit :=
  match f with
  | FCompletion i =>
      j <- gets (fun s => sv_jobs s !! i) ;;
      r <- gets (fun s => default RNone (sv_results s !! i)) ;;
      match j with Some j => runCompletion j r | None => ret tt end
  | FArm conn session => armInLoop conn session
  end.

(** An exception that leaves a loop callback ends the process. *)
Definition inLoop (m : seff unit) (s : V) : V :=
  match m s with
  | (s', Ret _) => s'
  | (s', Throw _) => crash s'
  end.

(** A loop runs its functors in order; different loops interleave freely. *)
Definition nextFunctor (i : nat) (s : V) : V :=
  match sv_functors s !! i with
  | Some f =>
      if forallb (fun g => negb (functorLoop g =? functorLoop f)) (take i (sv_functors s))
      then inLoop (runFunctor f) (put_functors (delete i (sv_functors s)) s)
      else s
  | None => s
  end.

Definition svStep (s : V) (st : SvStep) : V :=
  if sv_crashed s then s
  else match st with
  | SvBindLoop workers q l => inLoop (bindLoop workers q l) s
  | SvConnected conn => inLoop (addConnection conn) s
  | SvMessage conn msg => inLoop (handler conn msg) s
  | SvClosed conn => inLoop (clientCloseException conn) s
  | SvTake w clock => onExecutor (Serial.take w clock) s
  | SvStart w => startJob w s
  | SvEnd w => endJob w s
  | SvFinish w => onExecutor (Serial.finish w) s
  | SvFunctor i => nextFunctor i s
  | SvPressure conn => inLoop (onPressure conn) s
  | SvBackground BScheduler => (onRM schedulerTurn s).1
  | SvBackground (BWakeup us) => (onRM (wakeupAccepted us) s).1
  | SvRenew => inLoop renewAllPresence s
  | SvReset => inLoop reset s
  | SvShutdown => inLoop shutdownExecutor s
  | SvStopMessaging => inLoop stopMessaging s
  | SvNetwork n => inLoop (atNode (fun d => (put_net n d, tt))) s
  end.

Definition svRun (steps : list SvStep) (s : V) : V := foldl svStep s steps.
End service.
