(* ===== verification/EnvFrame.v ===== *)
(** * What messaging leaves to its environment

    The messaging operations touch their environment only through its clock,
    sink, jitter draw and recorder clock; a predicate these four preserve is
    preserved by every operation, whatever the store does. *)

From S2P Require Import Prelude DomainTypes Metrics Store World Coordinator Messaging ViewInv CoordinatorInv.

Open Scope Z_scope.
Open Scope eff_scope.

Record env_stable {E} `{!Env E} (J : E -> Prop) : Prop := {
  es_clock : forall e, J e -> J (clockNow e).1;
  es_deliver : forall a e, J e -> J (sinkDeliver a e).1;
  es_jitter : forall f d e, J e -> J (jitterDraw f d e).1;
  es_metrics : forall e, J e -> J (metricsNow e).1;
}.

Section env_frame.
Context {S E : Type} `{!MessageStore S, !Env E}.
Context (J : E -> Prop) (HJ : env_stable J).

Notation W := (World S E).
Notation weff := (eff exn W).

Definition envP (w : W) : Prop := J (w_env w).

Notation frame m := (keeps envP (m : weff _)).

Lemma onStore_env {A} (m : eff exn S A) : frame (onStore m).
Proof. intros w HI. unfold wp, onStore, zoom. by destruct (m (w_store w)) as [s [a|x]]. Qed.

Lemma metric_env c : frame (metric c).
Proof.
  intros w HI. unfold metric. apply wp_zoom.
  assert (keeps (fun re : Recorder * E => J re.2) (recordBestEffort (runCall c))) as Hk
    by (apply keepsOr_swallow, runCall_env, (es_metrics J HJ)).
  exact (Hk (w_rec w, w_env w) HI).
Qed.

Lemma nowMs_env : frame nowMs.
Proof.
  intros w HI. unfold wp, nowMs. pose proof (es_clock J HJ _ HI) as He.
  by destruct (clockNow (w_env w)).
Qed.

Lemma deliver_env a : frame (deliver a).
Proof.
  intros w HI. unfold wp, deliver. pose proof (es_deliver J HJ a _ HI) as He.
  by destruct (sinkDeliver a (w_env w)) as [e [d|x]].
Qed.

Lemma drawJitter_env f d : frame (drawJitter f d).
Proof.
  intros w HI. unfold wp, drawJitter. pose proof (es_jitter J HJ f d _ HI) as He.
  by destruct (jitterDraw f d (w_env w)).
Qed.

Lemma modifyCoord_env f : frame (modifyCoord f).
Proof. by apply keepsOr_modify. Qed.

Lemma put_sched_env (f : W -> Scheduler) : frame (modify (fun w => put_sched (f w) w)).
Proof. by apply keepsOr_modify. Qed.

Lemma catchAll_env {A} (m : weff A) (h : exn -> weff A) :
  frame m -> (forall x, frame (h x)) -> frame (catchAll m h).
Proof.
  intros Hm Hh. unfold catchAll, keeps. eapply keepsOr_catch; [exact Hm|].
  intros x w HI. destruct x; try exact HI; by apply Hh.
Qed.

Hint Resolve onStore_env metric_env nowMs_env deliver_env drawJitter_env modifyCoord_env
  put_sched_env : effects.

Lemma retryDelay_env a : frame (retryDelayMs a).
Proof. unfold retryDelayMs, backoffMs, getCoord. keeps_tac. Qed.

Hint Resolve retryDelay_env : effects.

Lemma commitAttempt_env s now h m : frame (commitAttempt s now h m).
Proof. unfold commitAttempt, getCoord. keeps_tac. Qed.

Hint Resolve commitAttempt_env : effects.

Lemma claimConversation_env fuel s now rows : frame (claimConversation fuel s now rows).
Proof. revert rows. induction fuel as [|fuel IH]; intros rows; cbn [claimConversation]; keeps_tac. Qed.

Hint Resolve claimConversation_env : effects.

Lemma claimGroups_env s now gs : frame (claimGroups s now gs).
Proof. induction gs as [|[c rows] gs IH]; cbn [claimGroups]; keeps_tac. Qed.

Hint Resolve claimGroups_env : effects.

Lemma claimFor_env s : frame (claimFor s).
Proof. unfold claimFor, getCoord. keeps_tac. Qed.

Lemma releaseRow_env d : frame (releaseRow d).
Proof. unfold releaseRow. keeps_tac. Qed.

Hint Resolve claimFor_env releaseRow_env : effects.

Lemma releaseRows_env sel ds : frame (releaseRows sel ds).
Proof. apply keepsOr_forM. intros d _. keeps_tac. Qed.

Hint Resolve releaseRows_env : effects.

Lemma acknowledge_env a i : frame (acknowledge a i).
Proof. unfold acknowledge, getCoord. keeps_tac. Qed.

Lemma sessionAvailable_env s : frame (sessionAvailable s).
Proof. unfold sessionAvailable, getCoord. keeps_tac. Qed.

Lemma sessionClosed_env s : frame (sessionClosed s).
Proof. unfold sessionClosed, getCoord. keeps_tac. Qed.

Lemma resume_env s : frame (resume s).
Proof. unfold resume, getCoord. keeps_tac. Qed.

Lemma onAccepted_env us : frame (onAccepted us).
Proof. apply keepsOr_forM. intros u _. unfold getCoord. keeps_tac. Qed.

Lemma collectDue_env due acc : frame (collectDue due acc).
Proof.
  revert acc. induction due as [|d due IH]; intros acc; cbn [collectDue]; [apply keepsOr_ret|].
  apply keepsOr_bind; [|intros; apply IH]. unfold rollBackDue, getCoord. keeps_tac.
Qed.

Hint Resolve acknowledge_env sessionAvailable_env sessionClosed_env resume_env onAccepted_env
  collectDue_env : effects.

Lemma runRetryScan_env now : frame (runRetryScan now).
Proof.
  assert (forall l, frame (forM l claimFor)) as Hf
    by (intros l; apply keepsOr_forM; intros x _; apply claimFor_env).
  unfold runRetryScan, getCoord. keeps_tac.
Qed.

Hint Resolve runRetryScan_env : effects.

Lemma runTick_env : frame runTick.
Proof.
  assert (forall l, frame (forM l recordExpired)) as Hf
    by (intros l; apply keepsOr_forM; intros r _; unfold recordExpired; keeps_tac).
  unfold runTick, getCoord. keeps_tac.
Qed.

Lemma runTickBestEffort_env : frame runTickBestEffort.
Proof. apply catchAll_env; [apply runTick_env|]. intros x. apply keepsOr_ret. Qed.

Lemma notifyAccepted_env us : frame (notifyAcceptedBestEffort us).
Proof. apply catchAll_env; [apply onAccepted_env|]. intros x. apply keepsOr_ret. Qed.

Hint Resolve runTickBestEffort_env notifyAccepted_env : effects.

Lemma acceptFailed_env {A} x : frame (acceptFailed (A := A) x).
Proof. unfold acceptFailed. keeps_tac. Qed.

Lemma acceptNew_env s cmd : frame (acceptNew s cmd).
Proof.
  assert (forall l m e, frame (forM l (fun u => onStore (insertDelivery (newDelivery m u e))))) as Hi
    by (intros l m e; apply keepsOr_forM; intros u _; apply onStore_env).
  assert (forall l m t, frame (forM l (fun u => metric (CallCreated (deliveryMetricId m u) t)))) as Hc
    by (intros l m t; apply keepsOr_forM; intros u _; apply metric_env).
  unfold acceptNew, acceptDurably, getCoord. keeps_tac.
Qed.

Lemma accept_env s cmd : frame (accept s cmd).
Proof.
  unfold accept, keeps. apply keepsOr_bind; [apply onStore_env|intros [m|]].
  - unfold acceptExisting. keeps_tac.
  - eapply keepsOr_catch; [apply acceptNew_env|]. intros x w HI. by apply acceptFailed_env.
Qed.

Lemma rmSessionAvailable_env s : frame (rmSessionAvailable s).
Proof. unfold rmSessionAvailable. keeps_tac. Qed.

Lemma schedulerTurn_env : frame schedulerTurn.
Proof. unfold schedulerTurn, getCoord. keeps_tac. Qed.

Lemma start_env : frame start.
Proof. unfold start. keeps_tac. all: by apply keepsOr_modify. Qed.

Lemma stopRequest_env : frame stopRequest.
Proof. unfold stopRequest. keeps_tac. all: by apply keepsOr_modify. Qed.

Lemma stopJoined_env : frame stopJoined.
Proof. unfold stopJoined. keeps_tac. all: by apply keepsOr_modify. Qed.
End env_frame.
