(* ===== verification/ChatServiceInv.v ===== *)
(** * The chat service: who may act and who may receive

    The invariant of every execution: a bound session was authenticated on its
    connection, a login result that says yes was authenticated, and the record of
    events is justified, each delivery and each queued chat command by an
    authentication that came before it on the same connection. *)

From S2P Require Import Prelude DomainTypes Metrics Store World Coordinator Messaging Json JsonText.
From S2P Require Import SessionRegistry Application Executor Presence Gateway Protocol SessionDelivery.
From S2P Require Import ChatService EnvFrame.
From stdpp Require Import list.

Open Scope Z_scope.
Open Scope eff_scope.

(** ** Presence and gateways touch their environment through clock and sink *)

(** A presence directory reads the clock of its environment and nothing else. *)
Class PresenceReadsClock (P E : Type) `{!ClusterEnv E, !PresenceDirectory P E} : Prop := {
  prc_claim J u g c : (forall e : E, J e -> J (clusterNow e).1) ->
    keeps (fun pe : P * E => J pe.2) (presenceClaim u g c);
  prc_renew J u g c ep : (forall e : E, J e -> J (clusterNow e).1) ->
    keeps (fun pe : P * E => J pe.2) (presenceRenew u g c ep);
  prc_release J u g c ep : (forall e : E, J e -> J (clusterNow e).1) ->
    keeps (fun pe : P * E => J pe.2) (presenceRelease u g c ep);
  prc_locate J u : (forall e : E, J e -> J (clusterNow e).1) ->
    keeps (fun pe : P * E => J pe.2) (presenceLocate u);
}.

#[export] Instance inMemoryReadsClock {E} `{!ClusterEnv E} :
  PresenceReadsClock InMemoryPresenceDirectory E.
Proof.
  assert (forall J : E -> Prop, (forall e, J e -> J (clusterNow e).1) ->
    keeps (fun pe : InMemoryPresenceDirectory * E => J pe.2) InMemoryPresence.now) as Hnow.
  { intros J HJ [p e] He. unfold wp, InMemoryPresence.now. cbn. specialize (HJ e He).
    by destruct (clusterNow e). }
  assert (forall (J : E -> Prop) f,
    keeps (fun pe : InMemoryPresenceDirectory * E => J pe.2) (InMemoryPresence.setEntries f)) as Hset.
  { intros J f [p e] He. exact He. }
  split; intros J; intros; specialize (Hnow J ltac:(done)); specialize (Hset J); cbn;
    unfold InMemoryPresence.claim, InMemoryPresence.renew, InMemoryPresence.release,
      InMemoryPresence.locate, InMemoryPresence.getDir; keeps_tac.
  all: try (by apply keepsOr_modify).
Qed.

Section gateway_frame.
Context {P E : Type} `{!ClusterEnv E, !PresenceDirectory P E, !PresenceReadsClock P E}.
Context (J : E -> Prop).
Context (Hclock : forall e, J e -> J (clusterNow e).1).
Context (Hlocal : forall g a e, J e -> J (localDeliver g a e).1).

Notation C := (Cluster P E).

Definition clusterP (c : C) : Prop := J (c_env c).

Notation frame m := (keeps clusterP (m : eff exn C _)).

Lemma onPresence_env {A} (m : eff exn (P * E) A) :
  keeps (fun pe : P * E => J pe.2) m -> frame (onPresence m).
Proof. intros Hm c Hc. apply wp_zoom. exact (Hm (c_presence c, c_env c) Hc). Qed.

Lemma modifySink_env me f : frame (modifySink me f).
Proof. by apply keepsOr_modify. Qed.

Lemma gatewayNow_env : frame gatewayNow.
Proof. intros c Hc. unfold wp, gatewayNow. specialize (Hclock _ Hc). by destruct (clusterNow _). Qed.

Lemma deliverLocal_env me a : frame (deliverLocal me a).
Proof.
  intros c Hc. unfold wp, deliverLocal. specialize (Hlocal me a _ Hc).
  by destruct (localDeliver _ _ _) as [e [d|x]].
Qed.

Lemma claim_env u g c : frame (onPresence (presenceClaim u g c)).
Proof. by apply onPresence_env, prc_claim. Qed.

Lemma renewEntry_env u g c ep : frame (onPresence (presenceRenew u g c ep)).
Proof. by apply onPresence_env, prc_renew. Qed.

Lemma release_env u g c ep : frame (onPresence (presenceRelease u g c ep)).
Proof. by apply onPresence_env, prc_release. Qed.

Lemma locate_env u : frame (onPresence (presenceLocate u)).
Proof. by apply onPresence_env, prc_locate. Qed.

Hint Resolve modifySink_env gatewayNow_env deliverLocal_env claim_env renewEntry_env release_env
  locate_env : effects.

Lemma bindUser_env me u conn : frame (bindUser me u conn).
Proof. unfold bindUser, getSink. keeps_tac. Qed.

Lemma releaseUser_env me u conn : frame (releaseUser me u conn).
Proof. unfold releaseUser, getSink. keeps_tac. Qed.

Lemma renew_env me u : frame (renew me u).
Proof.
  unfold renew, renewTime, renewAt, renewCheck, renewAsk, renewReclaim, renewReclaimed, renewCommit, reclaimCommit,
    finishRenew, backOff, getSink. keeps_tac.
Qed.

Lemma renewAllClaimed_env me : frame (renewAllClaimed me).
Proof.
  unfold renewAllClaimed, getSink, keeps. apply keepsOr_bind; [apply keepsOr_gets|intros g].
  induction (sorted_items _ _).*1 as [|u us IH]; cbn [renewEach]; [apply keepsOr_ret|].
  apply keepsOr_bind; [apply renew_env|intros _; exact IH].
Qed.

Lemma gatewayDeliver_env me a : frame (gatewayDeliver me a).
Proof.
  unfold gatewayDeliver, deliverShadowed, locateRecipient, remoteRoute, deliverMatching, transportDeliver, findTarget,
    deliverCrossNode, getSink. keeps_tac.
Qed.
End gateway_frame.

(** ** The record of events *)

Definition justified (L : list NodeEvent) (ev : NodeEvent) : Prop :=
  match ev with
  | Delivered conn a => exists g, Authenticated conn (i64 (at_recipient a)) g ∈ L
  | Acting conn b => Authenticated conn (bs_userId b) (bs_generation b) ∈ L
  | _ => True
  end.

Definition log_ok (L : list NodeEvent) : Prop :=
  forall pre ev post, L = pre ++ ev :: post -> justified pre ev.

Record reg_ok (L : list NodeEvent) (r : SessionRegistry) : Prop := {
  ro_conn : forall conn b, byConnection_ r !! conn = Some b ->
    Authenticated conn (bs_userId b) (bs_generation b) ∈ L;
  ro_user : forall u conn, byUser_ r !! u = Some conn -> exists g, Authenticated conn u g ∈ L;
}.

(** The node is in order and its record extends [L0]. *)
Record grown {N} (L0 : list NodeEvent) (d : Node N) : Prop := {
  gr_log : log_ok (nd_log d);
  gr_reg : reg_ok (nd_log d) (nd_registry d);
  gr_prefix : L0 `prefix_of` nd_log d;
}.

Lemma log_ok_snoc L ev : log_ok L -> justified L ev -> log_ok (L ++ [ev]).
Proof.
  intros HL Hev pre ev' post Heq.
  destruct post as [|x post _] using rev_ind.
  - apply app_inj_tail in Heq as [-> ->]. done.
  - rewrite app_comm_cons, app_assoc in Heq. apply app_inj_tail in Heq as [-> _]. by eapply HL.
Qed.

Lemma justified_mono L L' ev : L `prefix_of` L' -> justified L ev -> justified L' ev.
Proof.
  intros [k ->]. destruct ev; simpl; try done.
  - intros [g Hg]. exists g. rewrite elem_of_app. auto.
  - rewrite elem_of_app. auto.
Qed.

Lemma reg_ok_mono L L' r : L `prefix_of` L' -> reg_ok L r -> reg_ok L' r.
Proof.
  intros [k ->] []. split.
  - intros. rewrite elem_of_app. eauto.
  - intros u conn H. destruct (ro_user0 _ _ H) as [g Hg]. exists g. rewrite elem_of_app. auto.
Qed.

Section node_inv.
Context {N : Type} `{!Platform N, !JsonFloat}.

Lemma grown_net L0 (d : Node N) n : grown L0 d -> grown L0 (put_net n d).
Proof. by intros []. Qed.

Lemma grown_onNet {A} L0 (d : Node N) (f : N -> N * A) : grown L0 d -> grown L0 (onNet f d).1.
Proof. intros. unfold onNet. destruct (f (nd_net d)). by apply grown_net. Qed.

Lemma grown_note L0 (d : Node N) ev : grown L0 d -> justified (nd_log d) ev -> grown L0 (note ev d).
Proof.
  intros [] Hev. split; simpl.
  - by apply log_ok_snoc.
  - eapply reg_ok_mono; [by exists [ev]|done].
  - by apply prefix_app_r.
Qed.

Lemma grown_registry L0 (d : Node N) r :
  grown L0 d -> reg_ok (nd_log d) r -> grown L0 (put_registry r d).
Proof. by intros [] ?. Qed.

(** A delivery is written to a connection bound to its recipient. *)
Lemma grown_deliver L0 (d : Node N) a : grown L0 d -> grown L0 (sessionDeliver a d).1.
Proof.
  intros Hd. unfold sessionDeliver, Registry.lookupByUser.
  destruct (byUser_ _ !! _) as [conn|] eqn:Hu; [|done].
  destruct (netConnected _ _); [|done]. destruct (dump _) as [text|]; [|done]. cbn [negb].
  unfold sendLine. pose proof (grown_onNet L0 (note (Delivered conn a) d)
    (netSend conn (text +:+ String (Ascii.ascii_of_N 10) EmptyString))) as Hg.
  destruct (onNet _ _) as [d' o]. apply Hg, grown_note; [done|]. eapply ro_user; [apply Hd|done].
Qed.

Lemma grown_clock L0 (d : Node N) : grown L0 d -> grown L0 (clusterNow d).1.
Proof. apply grown_onNet. Qed.

Lemma grown_local L0 g a (d : Node N) : grown L0 d -> grown L0 (localDeliver g a d).1.
Proof. apply grown_deliver. Qed.

Lemma reg_ok_bind L r conn u g :
  reg_ok L r -> Authenticated conn u g ∈ L -> reg_ok L (Registry.bind conn u g r).1.
Proof.
  intros [Hc Hu] HA. unfold Registry.bind. repeat case_match; try done. split; simpl.
  - intros c b. rewrite lookup_insert_Some. intros [[<- <-]|[_ ?]]; eauto.
  - intros v c. rewrite lookup_insert_Some. intros [[<- <-]|[_ ?]]; eauto.
Qed.

Lemma reg_ok_unbind L r conn : reg_ok L r -> reg_ok L (Registry.unbind conn r).1.
Proof.
  intros [Hc Hu]. unfold Registry.unbind. case_match; [|done].
  split; simpl; intros ? ?; rewrite lookup_delete_Some; intros [_ ?]; eauto.
Qed.

Lemma reg_ok_unbindUser L r u : reg_ok L r -> reg_ok L (Registry.unbindUser u r).1.
Proof.
  intros [Hc Hu]. unfold Registry.unbindUser. case_match; [|done]. split; simpl.
  - intros c b. repeat case_match; rewrite ?lookup_delete_Some; naive_solver.
  - intros v c. rewrite lookup_delete_Some. intros [_ ?]; eauto.
Qed.
End node_inv.

(** ** Effects on the server *)

Section server_inv.
Context {R S P N D : Type}.
Context `{!Repositories R, !MessageStore S, !Platform N, !JsonFloat, !JsonLib}.
Context `{!PresenceDirectory P (Node N), !PresenceReadsClock P (Node N), !LocalGateway, !UserTable D}.

Notation V := (Server R S P N D).
Notation seff := (eff exn V).
Notation C := (Cluster P (Node N)).
Notation B := (Backend R S C D).

(** The closures name only what was authenticated. *)
Record jobs_ok (L : list NodeEvent) (s : V) : Prop := {
  jo_login : forall i conn id pwd gen r, sv_jobs s !! i = Some (JLogin conn id pwd gen) ->
    sv_results s !! i = Some (RLogin r) -> au_ok (lg_auth r) = true ->
    Authenticated conn id gen ∈ L;
  jo_chat : forall i conn js p k b, sv_jobs s !! i = Some (JChat conn js p k b) ->
    Authenticated conn (bs_userId b) (bs_generation b) ∈ L;
  jo_ack : forall i conn b m, sv_jobs s !! i = Some (JAck conn b m) ->
    Authenticated conn (bs_userId b) (bs_generation b) ∈ L;
}.

Definition inv (L0 : list NodeEvent) (s : V) : Prop :=
  grown L0 (nodeOf s) /\ jobs_ok (nd_log (nodeOf s)) s.

Notation good m := (forall L0, keeps (inv L0) (m : seff _)).

Lemma jobs_ok_mono L L' s : L `prefix_of` L' -> jobs_ok L s -> jobs_ok L' s.
Proof. intros [k ->] []. split; intros; rewrite elem_of_app; eauto. Qed.

Lemma jobs_ok_ext L s s' :
  sv_jobs s' = sv_jobs s -> sv_results s' = sv_results s -> jobs_ok L s -> jobs_ok L s'.
Proof. intros Ej Er []. split; intros *; rewrite Ej, ?Er; eauto. Qed.

Lemma inv_here L0 s : inv L0 s -> inv (nd_log (nodeOf s)) s.
Proof. intros [[] ?]. split; [by split|done]. Qed.

Lemma inv_weaken L0 L1 s : L0 `prefix_of` L1 -> inv L1 s -> inv L0 s.
Proof. intros HL [[] ?]. split; [|done]. split; [done|done|by etrans]. Qed.

(** An effect on a part of the server that holds the node. *)
Lemma inv_part L0 (s s' : V) :
  inv L0 s -> (forall L, grown L (nodeOf s) -> grown L (nodeOf s')) ->
  sv_jobs s' = sv_jobs s -> sv_results s' = sv_results s -> inv L0 s'.
Proof.
  intros [Hg Hj] Hs Ej Er. split; [auto|].
  assert (nd_log (nodeOf s) `prefix_of` nd_log (nodeOf s')) as Hp
    by (apply gr_prefix, Hs; destruct Hg; by split).
  apply (jobs_ok_mono _ _ _ Hp). by eapply jobs_ok_ext.
Qed.

Definition backendP (L : list NodeEvent) (b : B) : Prop := grown L (c_env (w_env (bk_rm b))).

Lemma onBackend_good {A} (m : eff exn B A) : (forall L, keeps (backendP L) m) -> good (onBackend m).
Proof.
  intros Hm L0 s Hs. unfold wp, onBackend, zoom.
  pose proof (fun L => keeps_intro _ _ (sv_backend s) (Hm L)) as Hk.
  destruct (m (sv_backend s)) as [b o].
  assert (inv L0 (put_backend b s)) as Hi.
  { eapply inv_part; [exact Hs| |done|done]. intros L HL.
    exact (Hk L HL). }
  by destruct o.
Qed.

Lemma onCluster_good {A} (m : eff exn C A) :
  (forall L, keeps (fun c => grown L (c_env c)) m) -> good (onCluster m).
Proof.
  intros Hm L0 s Hs. unfold wp, onCluster, zoom.
  pose proof (fun L => keeps_intro _ _ (w_env (bk_rm (sv_backend s))) (Hm L)) as Hk.
  destruct (m (w_env (bk_rm (sv_backend s)))) as [c o].
  assert (inv L0 (put_cluster c s)) as Hi.
  { eapply inv_part; [exact Hs| |done|done]. intros L HL.
    exact (Hk L HL). }
  by destruct o.
Qed.

Lemma atNode_good {A} (f : Node N -> Node N * A) :
  (forall L d, grown L d -> grown L (f d).1) -> good (atNode f).
Proof.
  intros Hf. apply onCluster_good. intros L c Hc. unfold wp, onNode.
  specialize (Hf L (c_env c) Hc). by destruct (f (c_env c)).
Qed.

Lemma onAppS_good {A} (f : ChatApplication R -> ChatApplication R * A) : good (onAppS f).
Proof.
  apply onBackend_good. intros L b Hb. unfold wp, onApp. by destruct (f (bk_app b)).
Qed.

Lemma env_stable_grown L : env_stable (fun c : C => grown L (c_env c)).
Proof.
  split.
  - intros c Hc. simpl. unfold onNode. pose proof (grown_onNet L (c_env c) platformNow Hc).
    by destruct (onNet _ _).
  - intros a c Hc. exact (keeps_intro _ _ c (gatewayDeliver_env (P := P) (grown L)
      (grown_clock L) (grown_local L) localGateway a) Hc).
  - intros f x c Hc. simpl. unfold onNode.
    pose proof (grown_onNet L (c_env c) (platformJitter f x) Hc). by destruct (onNet _ _).
  - intros c Hc. simpl. unfold onNode. pose proof (grown_onNet L (c_env c) recorderNow Hc).
    by destruct (onNet _ _).
Qed.

Lemma onMessaging_keeps {A} (m : eff exn (World S C) A) L :
  keeps (envP (fun c : C => grown L (c_env c))) m -> keeps (backendP L) (onMessaging m).
Proof. intros Hm b Hb. apply wp_zoom. exact (Hm (bk_rm b) Hb). Qed.

Lemma onRM_good {A} (m : eff exn (World S C) A) :
  (forall L, keeps (envP (fun c : C => grown L (c_env c))) m) -> good (onRM m).
Proof. intros Hm. apply onBackend_good. intros L. apply onMessaging_keeps, Hm. Qed.

Lemma clusterCall_good {A} (m : eff exn C A) :
  (forall J : Node N -> Prop, (forall e, J e -> J (clusterNow e).1) ->
     (forall g a e, J e -> J (localDeliver g a e).1) -> keeps (clusterP J) m) ->
  good (onCluster m).
Proof.
  intros Hm. apply onCluster_good. intros L. apply (Hm (grown L)).
  - apply grown_clock.
  - apply grown_local.
Qed.

Lemma onNet_good {A} (f : N -> N * A) : good (atNode (onNet f)).
Proof. apply atNode_good. intros L d Hd. by apply grown_onNet. Qed.

Lemma sessions_good {A} (f : SessionRegistry -> SessionRegistry * A) :
  (forall L r, reg_ok L r -> reg_ok L (f r).1) -> good (onSessions f).
Proof.
  intros Hf. apply atNode_good. intros L d Hd. pose proof (Hf _ _ (gr_reg _ _ Hd)).
  destruct (f (nd_registry d)). by apply grown_registry.
Qed.

(** ** Jobs and events *)

Definition job_just (L : list NodeEvent) (j : Job) : Prop :=
  match j with
  | JChat conn _ _ _ b | JAck conn b _ => Authenticated conn (bs_userId b) (bs_generation b) ∈ L
  | _ => True
  end.

Lemma job_just_mono L L' j : L `prefix_of` L' -> job_just L j -> job_just L' j.
Proof. intros [k ->]. destruct j; simpl; rewrite ?elem_of_app; auto. Qed.

Lemma jobs_ok_add L s j : jobs_ok L s -> job_just L j -> jobs_ok L (addJob j s).
Proof.
  intros [Hl Hc Ha] Hj. split; simpl.
  - intros i conn id pwd gen r [Hi|[Hi [? ->]%list_lookup_singleton_Some]]%lookup_app_Some.
    + apply lookup_lt_Some in Hi as Hlt. rewrite lookup_insert_ne by lia. eauto.
    + replace i with (length (sv_jobs s)) by lia. rewrite lookup_insert_eq. by intros [= <-].
  - intros i conn js p k b [Hi|[Hi [_ ->]%list_lookup_singleton_Some]]%lookup_app_Some; eauto.
  - intros i conn b m [Hi|[Hi [_ ->]%list_lookup_singleton_Some]]%lookup_app_Some; eauto.
Qed.

Lemma submit_keeps L0 key j : job_just L0 j -> keeps (inv L0) (submit key j : seff _).
Proof.
  intros Hj. unfold submit, keeps. apply keepsOr_bind; [apply onNet_good|intros now s [Hg Hs]].
  unfold wp. destruct (sv_executor s) as [e|]; [|by split].
  destruct (Serial.submit _ _ _ _ _ _) as [e' r]. split; [exact Hg|].
  eapply (jobs_ok_ext _ (addJob j s)); [done|done|]. apply jobs_ok_add; [exact Hs|].
  apply (job_just_mono L0); [apply Hg|done].
Qed.

Lemma submit_keeps_ L0 key j : job_just L0 j -> keeps (inv L0) (submit_ key j : seff _).
Proof.
  intros Hj. unfold submit_, keeps. apply keepsOr_bind; [by apply submit_keeps|].
  intros r. apply keepsOr_ret.
Qed.

Lemma noteEvent_keeps L0 ev : justified L0 ev -> keeps (inv L0) (noteEvent ev : seff _).
Proof.
  intros Hev s Hs. unfold wp, noteEvent, atNode, onCluster, zoom, onNode. cbn.
  destruct Hs as [Hg Hj].
  assert (justified (nd_log (nodeOf s)) ev) as Hev' by (by eapply justified_mono; [apply Hg|]).
  split; [exact (grown_note L0 _ ev Hg Hev')|].
  eapply jobs_ok_mono; [by exists [ev]|]. by eapply (jobs_ok_ext _ s).
Qed.

Lemma noteEvent_wp L0 ev s (Q : unit -> V -> Prop) (Ex : exn -> V -> Prop) :
  justified L0 ev -> inv L0 s ->
  (forall s', inv L0 s' -> ev ∈ nd_log (nodeOf s') -> sv_jobs s' = sv_jobs s -> Q tt s') ->
  wp (noteEvent ev) Q Ex s.
Proof.
  intros Hev Hs HQ. pose proof (noteEvent_keeps L0 ev Hev s Hs) as Hk.
  apply HQ; [exact Hk| |done]. apply elem_of_app. right. by constructor.
Qed.

Lemma need_good {A} (o : option A) : good (need o).
Proof. intros L0. unfold need. keeps_tac. Qed.

Lemma sendText_good conn text : good (sendText conn text).
Proof.
  intros L0. unfold sendText, keeps. apply keepsOr_bind; [by apply noteEvent_keeps|intros _].
  apply keepsOr_bind; [apply onNet_good|intros o; apply keepsOr_ret].
Qed.

Hint Resolve onAppS_good need_good sendText_good onNet_good : effects.

Lemma sendJson_good conn j : good (sendJson conn j).
Proof. intros L0. unfold sendJson. keeps_tac. Qed.

Hint Resolve sendJson_good : effects.

Lemma sendEcho_good conn js fields : good (sendEcho conn js fields).
Proof. intros L0. unfold sendEcho. keeps_tac. Qed.

Lemma submitKeyFor_good conn : good (submitKeyFor conn).
Proof. intros L0. unfold submitKeyFor, sessions. keeps_tac. Qed.

Lemma claimPresence_good u c : good (claimPresence u c).
Proof.
  intros L0. unfold claimPresence, keeps. apply keepsOr_bind; [|intros; apply keepsOr_ret].
  apply clusterCall_good. intros J Hc Hl. by apply bindUser_env.
Qed.

Lemma releasePresence_good u c : good (releasePresence u c).
Proof.
  intros L0. unfold releasePresence, hasExecutor. keeps_tac.
  apply clusterCall_good. intros J Hc Hl. by apply releaseUser_env.
Qed.

Lemma renewAllPresence_good : good renewAllPresence.
Proof.
  intros L0. unfold renewAllPresence, hasExecutor. keeps_tac.
  apply clusterCall_good. intros J Hc Hl. by apply renewAllClaimed_env.
Qed.

(** Changing the armed sessions, the callbacks, the functors or the executor. *)
Lemma modify_good f :
  (forall s, sv_backend (f s) = sv_backend s /\ sv_jobs (f s) = sv_jobs s /\
             sv_results (f s) = sv_results s) -> good (modify f).
Proof.
  intros Hf L0. apply keepsOr_modify. intros s Hs. destruct (Hf s) as (Eb & Ej & Er).
  eapply inv_part; [exact Hs| |done|done]. intros L. unfold nodeOf. by rewrite Eb.
Qed.

Lemma clearPressure_good conn : good (clearPressure conn).
Proof. by apply modify_good. Qed.

Lemma eraseArmed_good conn : good (eraseArmed conn).
Proof. by apply modify_good. Qed.

Lemma reserveClose_good conn b : good (onSessions (Registry.reserveCloseIfBound conn b)).
Proof.
  apply sessions_good. intros L r []. unfold Registry.reserveCloseIfBound. repeat case_match; by split.
Qed.

Hint Resolve sendEcho_good submitKeyFor_good claimPresence_good releasePresence_good
  clearPressure_good eraseArmed_good reserveClose_good : effects.

Lemma closeRejected_good conn b : good (closeRejectedSubmission conn b).
Proof. intros L0. unfold closeRejectedSubmission, armedAs. keeps_tac. Qed.

(** Jobs that act for no session. *)
Lemma submit_plain key j : (forall L, job_just L j) -> good (submit_ key j).
Proof. intros Hj L0. by apply submit_keeps_. Qed.

Lemma submitDelivery_good j b : (forall L, job_just L j) -> good (submitDelivery j b).
Proof.
  intros Hj L0. unfold submitDelivery, hasExecutor. keeps_tac. by apply submit_keeps.
Qed.

Hint Resolve closeRejected_good : effects.

Lemma armInLoop_good conn b : good (armInLoop conn b).
Proof.
  intros L0. unfold armInLoop, connected, matchesExpected, sessions. keeps_tac.
  all: first [by apply modify_good | by apply submitDelivery_good].
Qed.

Lemma armSessionDelivery_good conn b : good (armSessionDelivery conn b).
Proof.
  intros L0. unfold armSessionDelivery. apply keepsOr_if; [apply armInLoop_good|by apply modify_good].
Qed.

Lemma onPressure_good conn : good (onPressure conn).
Proof.
  intros L0. unfold onPressure, connected, matchesExpected, sessions. keeps_tac.
  by apply submitDelivery_good.
Qed.

Lemma clearSessionDelivery_good conn b : good (clearSessionDelivery conn b).
Proof. intros L0. unfold clearSessionDelivery, armedAs. keeps_tac. Qed.

Hint Resolve armInLoop_good armSessionDelivery_good onPressure_good clearSessionDelivery_good : effects.

(** ** Tasks *)

Lemma setResult_good i r : (forall l, r <> RLogin l) -> good (setResult i r).
Proof.
  intros Hr L0. apply keepsOr_modify. intros s [Hg [Hl Hc Ha]]. split; [exact Hg|].
  split; [|exact Hc|exact Ha]. simpl. intros k conn id pwd gen l Hk.
  rewrite lookup_insert_Some. intros [[_ ->]|[_ ?]]; [by destruct (Hr l)|eauto].
Qed.

Definition jobAt (i : nat) (j : Job) (s : V) : Prop := sv_jobs s !! i = Some j.

(** Writing a login result under an invariant that knows the authentication. *)
Lemma setLogin_keeps L1 i conn id pwd gen r :
  (au_ok (lg_auth r) = true -> Authenticated conn id gen ∈ L1) ->
  keeps (fun s => inv L1 s /\ jobAt i (JLogin conn id pwd gen) s) (setResult i (RLogin r) : seff _).
Proof.
  intros Hr. apply keepsOr_modify. intros s [[Hg [Hl Hc Ha]] Hi]. split; [|exact Hi].
  split; [exact Hg|]. split; [|exact Hc|exact Ha]. simpl. intros k conn' id' pwd' gen' l Hk.
  rewrite lookup_insert_Some. intros [[<- [= <-]]|[_ ?]]; [|eauto].
  unfold jobAt in Hi. simplify_eq. intros Hok.
  destruct Hg as [_ _ [rest Hrest]]. change (nd_log (nodeOf (put_result i (RLogin r) s)))
    with (nd_log (nodeOf s)). rewrite Hrest, elem_of_app. auto.
Qed.

Lemma extras_wp L1 i j auth s :
  inv L1 s /\ jobAt i j s ->
  wp (loadLoginExtras auth) (fun r s' => lg_auth r = auth /\ inv L1 s' /\ jobAt i j s')
    (fun _ s' => inv L1 s' /\ jobAt i j s') s.
Proof.
  intros [Hs Hi]. unfold wp, loadLoginExtras, bind, onBackend, zoom.
  destruct (selectFriends _ _) as [d [rows|]]; cbn; (split; [done|]); (split; [|exact Hi]);
    by eapply (inv_part _ s).
Qed.

Lemma loginTail_keeps L1 i conn id pwd gen auth :
  (au_ok auth = true -> Authenticated conn id gen ∈ L1) ->
  keeps (fun s => inv L1 s /\ jobAt i (JLogin conn id pwd gen) s)
    (setResult i (RLogin (mkLogin auth [] [])) ;;;
     current <- isCurrent id gen ;;
     if au_ok auth && current
     then r <- loadLoginExtras auth ;; setResult i (RLogin r)
     else ret tt : seff unit).
Proof.
  intros Ha. unfold keeps. apply keepsOr_bind; [by apply setLogin_keeps|intros _].
  apply keepsOr_bind; [apply keepsOr_gets|intros cur]. apply keepsOr_if; [|apply keepsOr_ret].
  intros s Hs. apply wp_bind. eapply wp_mono; [by apply extras_wp| |done].
  intros r s' [Hr Hs']. apply (setLogin_keeps L1 i conn id pwd gen r); [by rewrite Hr|exact Hs'].
Qed.

Lemma loginTask_inv L0 i conn id pwd gen s :
  jobAt i (JLogin conn id pwd gen) s -> inv L0 s ->
  inv L0 (runTask i (JLogin conn id pwd gen) s).1.
Proof.
  intros Hi Hs. apply (keeps_intro (fun s => inv L0 s /\ jobAt i (JLogin conn id pwd gen) s));
    [|by split].
  cbn [runTask]. unfold keeps. apply keepsOr_bind.
  { intros s1 [Hi1 Hi2]. pose proof (onAppS_good (App.authenticate id pwd) L0 s1 Hi1) as Hi3.
    unfold wp, onAppS, onBackend, zoom, onApp in *. by destruct (App.authenticate _ _ _). }
  intros auth s1 [Hi1 Hi2]. apply wp_bind.
  pose proof (fun L1 => loginTail_keeps L1 i conn id pwd gen auth) as Htail.
  destruct (au_ok auth); [|by apply wp_ret, Htail].
  apply (noteEvent_wp L0); [done|done|]. intros s2 Hi3 Hev Hjobs.
  eapply wp_mono; [apply (Htail (nd_log (nodeOf s2)))|..].
  - done.
  - split; [by eapply inv_here|]. unfold jobAt. by rewrite Hjobs.
  - intros _ s3 [Hi4 Hi5]. split; [|done]. eapply inv_weaken; [apply Hi3|exact Hi4].
  - intros _ s3 [Hi4 Hi5]. split; [|done]. eapply inv_weaken; [apply Hi3|exact Hi4].
Qed.

Lemma accept_good u g parsed kind : good (onBackend (acceptChatCommand u g parsed kind)).
Proof.
  apply onBackend_good. intros L.
  assert (forall x, keeps (backendP L) (checkUserExists x)) as Hc.
  { intros x b Hb. unfold wp, checkUserExists. by destruct (selectUser _ _). }
  assert (forall A (f : ChatApplication R -> ChatApplication R * A), keeps (backendP L) (onApp f)) as Ha.
  { intros A f b Hb. unfold wp, onApp. by destruct (f (bk_app b)). }
  assert (keeps (backendP L) nextLegacy) as Hn by (intros b Hb; exact Hb).
  unfold acceptChatCommand, precheck, clientKey, catchAll. keeps_tac.
  all: eapply keepsOr_catch; [apply keepsOr_bind;
    [apply onMessaging_keeps, accept_env, env_stable_grown|intros; apply keepsOr_ret]|].
  all: intros x b Hb; destruct x; exact Hb.
Qed.

Lemma acting_good L0 conn b : Authenticated conn (bs_userId b) (bs_generation b) ∈ L0 ->
  keeps (inv L0) (noteEvent (Acting conn b) : seff _).
Proof. intros Hb. by apply noteEvent_keeps. Qed.

Lemma messaging_good : 
  (forall x, good (onRM (rmSessionAvailable x))) /\ (forall x, good (onRM (rmResume x))) /\
  (forall x, good (onRM (rmSessionClosed x))) /\ (forall x m, good (onRM (rmAcknowledge x m))) /\
  good (onRM schedulerTurn) /\ (forall us, good (onRM (wakeupAccepted us))).
Proof.
  repeat split; intros *; apply onRM_good; intros L; pose proof (env_stable_grown L) as HL.
  - by apply rmSessionAvailable_env.
  - by apply resume_env.
  - by apply sessionClosed_env.
  - by apply acknowledge_env.
  - by apply schedulerTurn_env.
  - by apply onAccepted_env.
Qed.

Lemma runTask_inv L0 i j s : jobAt i j s -> inv L0 s -> inv L0 (runTask i j s).1.
Proof.
  intros Hi Hs. destruct messaging_good as (Hav & Hre & Hcl & Hak & _ & _).
  assert (job_just (nd_log (nodeOf s)) j) as Hj
    by (destruct Hs as [_ []]; destruct j; simpl; eauto).
  destruct j as [conn id pwd gen| | | | | | | | | | |]; [by apply loginTask_inv|..];
    (apply (inv_weaken _ (nd_log (nodeOf s))); [apply Hs|]);
    apply keeps_intro; try (by eapply inv_here);
    cbn [runTask]; unfold sessions; keeps_tac;
    first [by apply setResult_good | by apply acting_good | apply accept_good | idtac].
Qed.

(** ** Completions *)

Lemma submit_plain_ key j L0 : match j with JChat _ _ _ _ _ | JAck _ _ _ => False | _ => True end ->
  keeps (inv L0) (submit_ key j : seff _).
Proof. intros Hj. apply submit_plain. intros L. by destruct j. Qed.

Lemma unbindUser_good u : good (onSessions (Registry.unbindUser u)).
Proof. apply sessions_good. intros L r. apply reg_ok_unbindUser. Qed.

Lemma bind_keeps L0 conn id gen : Authenticated conn id gen ∈ L0 ->
  keeps (inv L0) (onSessions (Registry.bind conn id gen) : seff _).
Proof.
  intros HA s Hs.
  assert (grown L0 (nodeOf s) -> reg_ok (nd_log (nodeOf s))
    (Registry.bind conn id gen (nd_registry (nodeOf s))).1) as Hr.
  { intros [_ Hreg [k Hk]]. apply reg_ok_bind; [done|]. rewrite Hk, elem_of_app. auto. }
  unfold wp, onSessions, atNode, onCluster, zoom, onNode. specialize (Hr (proj1 Hs)).
  change (c_env (w_env (bk_rm (sv_backend s)))) with (nodeOf s).
  destruct (Registry.bind _ _ _ _) as [r a]. cbn.
  eapply inv_part; [exact Hs| |done|done]. intros L HL. by apply (grown_registry L (nodeOf s)).
Qed.

Lemma completeLogin_keeps L0 conn id gen r :
  (au_ok (lg_auth r) = true -> Authenticated conn id gen ∈ L0) ->
  keeps (inv L0) (completeLogin conn id gen r : seff _).
Proof.
  intros HA. unfold completeLogin, isCurrent, connected, loginError, loginGranted.
  destruct (au_ok (lg_auth r)); cbn [negb].
  - pose proof (bind_keeps L0 conn id gen (HA eq_refl)) as Hb.
    pose proof (unbindUser_good id L0) as Hu. keeps_tac. all: by apply submit_plain_.
  - keeps_tac.
Qed.

Lemma failureReply_good conn js parsed e : good (sendFailureReply conn js parsed e).
Proof. intros L0. unfold sendFailureReply. keeps_tac. Qed.

Hint Resolve failureReply_good : effects.

Lemma runCompletion_keeps L0 j r :
  match j, r with
  | JLogin conn id _ gen, RLogin l =>
      au_ok (lg_auth l) = true -> Authenticated conn id gen ∈ L0
  | _, _ => True
  end -> keeps (inv L0) (runCompletion j r : seff _).
Proof.
  intros Hj. destruct j, r; cbn [runCompletion]; try (by apply completeLogin_keeps);
    unfold completeChat, completeEcho; keeps_tac.
Qed.

Lemma runFunctor_good f : good (runFunctor f).
Proof.
  intros L0. destruct f as [i|conn b]; cbn [runFunctor]; [|apply armInLoop_good].
  intros s Hs. do 2 (apply wp_bind, wp_gets).
  destruct (sv_jobs s !! i) as [j|] eqn:Ej; [|by apply wp_ret].
  eapply wp_mono; [apply (runCompletion_keeps (nd_log (nodeOf s)))|..].
  - destruct j; try done. destruct (sv_results s !! i) as [[]|] eqn:Er; try done. simpl.
    destruct Hs as [_ []]. eauto.
  - by eapply inv_here.
  - intros ? s'. apply inv_weaken, Hs.
  - intros ? s'. apply inv_weaken, Hs.
Qed.

(** ** Handlers *)

Lemma boundOf_good conn : good (boundOf conn).
Proof. intros L0. unfold boundOf, sessions. keeps_tac. Qed.

Lemma submitClosed_good b : good (submitClosed b).
Proof. intros L0. unfold submitClosed, hasExecutor. keeps_tac. by apply submit_plain_. Qed.

Lemma submitOffline_good conn b u reply : good (submitOffline conn b u reply).
Proof. intros L0. unfold submitOffline. keeps_tac. by apply submit_plain_. Qed.

Hint Resolve boundOf_good submitClosed_good submitOffline_good unbindUser_good : effects.

Lemma loginout_good conn js : good (loginout conn js).
Proof. intros L0. unfold loginout, hasExecutor, unavailable. keeps_tac. Qed.

(** The session of the connection was authenticated on it. *)
Lemma bound_session L0 conn b (s : V) :
  inv L0 s -> Registry.lookupByConnection conn (nd_registry (nodeOf s)) = Some b ->
  Authenticated conn (bs_userId b) (bs_generation b) ∈ nd_log (nodeOf s).
Proof. intros [[_ [Hc _] _] _]. apply Hc. Qed.

(** Continue under what the record says now. *)
Lemma keeps_here {A} (m : seff A) L0 s :
  (keeps (inv (nd_log (nodeOf s))) m) -> inv L0 s -> wp m (fun _ => inv L0) (fun _ => inv L0) s.
Proof.
  intros Hm Hs. eapply wp_mono; [apply Hm; by eapply inv_here|..];
    intros ? s'; apply inv_weaken, Hs.
Qed.

Lemma deliveryAck_good conn js : good (deliveryAck conn js).
Proof.
  intros L0 s Hs. unfold deliveryAck, sessions, hasExecutor. apply wp_bind, wp_gets.
  destruct (Registry.lookupByConnection _ _) as [b|] eqn:Hb; [|by apply wp_ret].
  apply keeps_here; [|done]. pose proof (bound_session _ _ _ _ Hs Hb). keeps_tac.
  by apply submit_keeps_.
Qed.

Lemma chat_good kind conn js : good (chat kind conn js).
Proof.
  intros L0. unfold chat, keeps. apply keepsOr_bind; [apply need_good|intros [parsed err]].
  apply keepsOr_if; [apply failureReply_good|]. intros s Hs.
  unfold sessions, hasExecutor, refuse. apply wp_bind, wp_gets.
  destruct (Registry.lookupByConnection _ _) as [b|] eqn:Hb; (apply keeps_here; [|done]); [|keeps_tac].
  pose proof (bound_session _ _ _ _ Hs Hb). keeps_tac. by apply submit_keeps_.
Qed.

Lemma handler_good conn msg : good (handler conn msg).
Proof.
  intros L0. unfold handler. destruct (json_parse msg) as [js|]; [|apply keepsOr_ret].
  unfold catchAll, keeps. eapply (keepsOr_catch _ (fun _ => inv L0));
    [|intros x s Hs; by destruct x].
  apply keepsOr_if; [apply keepsOr_ret|]. apply keepsOr_bind; [apply need_good|intros msgid].
  unfold dispatch. repeat case_match; simplify_eq; try apply keepsOr_ret;
    try first [apply loginout_good | apply deliveryAck_good | apply chat_good];
    unfold login, reg, addFriend, createGroup, addGroup, hasExecutor, unavailable; keeps_tac.
  all: by apply submit_plain_.
Qed.

Lemma close_good conn : good (clientCloseException conn).
Proof.
  intros L0. unfold clientCloseException, hasExecutor. keeps_tac.
  - apply sessions_good. intros L r []. by split.
  - apply sessions_good. intros L r. apply reg_ok_unbind.
Qed.

(** ** Executions *)

Lemma inLoop_inv L0 (m : seff unit) s : good m -> inv L0 s -> inv L0 (inLoop m s).
Proof.
  intros Hm Hs. specialize (Hm L0 s Hs). unfold wp in Hm. unfold inLoop.
  destruct (m s) as [s' [[]|x]]; [exact Hm|]. by apply (inv_part L0 s').
Qed.

Lemma onExecutor_inv L0 f (s : V) : inv L0 s -> inv L0 (onExecutor f s).
Proof. intros Hs. by apply (inv_part L0 s). Qed.

Lemma startJob_inv L0 w (s : V) : inv L0 s -> inv L0 (startJob w s).
Proof.
  intros Hs. unfold startJob. destruct (workerOf w s) as [[]|]; try done.
  pose proof (onExecutor_inv L0 (Serial.startTask w) s Hs) as H1s.
  destruct (jobOf p _) as [[i j]|] eqn:Hj; [|done]. apply runTask_inv; [|done].
  unfold jobOf in Hj. destruct (pd_task p) as [id|]; [|done]. cbn in Hj.
  destruct (sv_jobs s !! Z.to_nat id) as [j'|] eqn:Hl; rewrite ?Hl in Hj; [|done].
  cbn in Hj. simplify_eq. exact Hl.
Qed.

Lemma endJob_inv L0 w (s : V) : inv L0 s -> inv L0 (endJob w s).
Proof.
  intros Hs. unfold endJob. destruct (workerOf w s) as [[]|]; try done.
  destruct (pd_completion p); by apply (inv_part L0 s).
Qed.

Lemma nextFunctor_inv L0 i (s : V) : inv L0 s -> inv L0 (nextFunctor i s).
Proof.
  intros Hs. unfold nextFunctor. destruct (sv_functors s !! i) as [f|]; [|done].
  destruct (forallb _ _); [|done]. apply inLoop_inv; [apply runFunctor_good|].
  by apply (inv_part L0 s).
Qed.

Lemma svStep_inv L0 (s : V) st : inv L0 s -> inv L0 (svStep s st).
Proof.
  intros Hs. destruct messaging_good as (_ & _ & _ & _ & Hsch & Hwk).
  unfold svStep. destruct (sv_crashed s); [done|]. destruct st as [| | | | | | | | | |[]| | | | |];
    try (by apply onExecutor_inv).
  - apply inLoop_inv; [|done]. intros L. unfold bindLoop, keeps.
    apply keepsOr_bind; [by apply modify_good|intros _].
    apply keepsOr_bind; [apply onRM_good; intros L'; apply start_env|intros; apply keepsOr_ret].
  - apply inLoop_inv; [|done]. apply sessions_good. intros L r []. by split.
  - apply inLoop_inv; [apply handler_good|done].
  - apply inLoop_inv; [apply close_good|done].
  - by apply startJob_inv.
  - by apply endJob_inv.
  - by apply nextFunctor_inv.
  - apply inLoop_inv; [apply onPressure_good|done].
  - by apply keeps_intro.
  - by apply keeps_intro.
  - apply inLoop_inv; [apply renewAllPresence_good|done].
  - apply inLoop_inv; [|done]. apply onBackend_good. intros L. by apply keepsOr_modify.
  - apply inLoop_inv; [|done]. intros L. unfold stopMessaging. keeps_tac;
      apply onRM_good; intros L'; [by apply stopRequest_env|by apply stopJoined_env].
  - apply inLoop_inv; [|done]. apply atNode_good. intros L d Hd. by apply grown_net.
Qed.

(** A process that has just started. *)
Record started (s : V) : Prop := {
  st_registry : nd_registry (nodeOf s) = Registry.empty;
  st_log : nd_log (nodeOf s) = [];
  st_jobs : sv_jobs s = [];
}.

Lemma svRun_inv (s : V) steps : started s -> inv [] (svRun steps s).
Proof.
  intros [Hr Hl Hj]. assert (inv [] s) as Hs.
  { split; [split|].
    - rewrite Hl. intros [] ? ? [=].
    - rewrite Hr. by split.
    - apply prefix_nil.
    - split; intros *; by rewrite Hj. }
  clear Hr Hl Hj. unfold svRun. revert s Hs.
  induction steps as [|st steps IH]; intros s Hs; [done|]. simpl. apply IH. by apply svStep_inv.
Qed.

(** C1: A delivery is written only to a connection that logged in as its recipient.
    In every execution of the process, from its start and under any interleaving
    of messages, closes, worker steps, loop callbacks, background scans and
    network changes, each message written to a connection is preceded by a
    successful authentication of the recipient on that very connection. *)
Theorem deliveries_need_authentication (s : V) steps conn a pre post :
  started s -> nd_log (nodeOf (svRun steps s)) = pre ++ Delivered conn a :: post ->
  exists g, Authenticated conn (i64 (at_recipient a)) g ∈ pre.
Proof. intros Hs Hlog. exact (gr_log _ _ (proj1 (svRun_inv s steps Hs)) _ _ _ Hlog). Qed.

(** C2: Nobody acts in another's name.  In every execution, messaging accepts a
    message or an acknowledgement in the name of a session only after that user
    and generation were authenticated on the connection the command came from;
    no field of the command can change it. *)
Theorem actions_need_authentication (s : V) steps conn b pre post :
  started s -> nd_log (nodeOf (svRun steps s)) = pre ++ Acting conn b :: post ->
  Authenticated conn (bs_userId b) (bs_generation b) ∈ pre.
Proof. intros Hs Hlog. exact (gr_log _ _ (proj1 (svRun_inv s steps Hs)) _ _ _ Hlog). Qed.
End server_inv.
