(* ===== verification/Fixtures.v ===== *)
(** * Concrete instances for the witnesses

    A scripted environment (a clock that ticks, a sink that answers from a
    list), an empty in-memory store and sample sessions and commands. *)

From S2P Require Import Prelude DomainTypes Json Metrics Store InMemoryStore World.
From S2P Require Import Coordinator Messaging ViewInv CoordinatorInv MessagingInv.
From S2P Require Import Guarantees Fencing AckRetry OutboxLease Relay RelayInv.
From Stdlib Require Import QArith.

Open Scope Z_scope.

(** A stand-in for the JSON text codec; the scenarios do not read payloads. *)
#[export] Instance fixtureJson : JsonLib := {|
  json_dump _ := EmptyString;
  json_parse _ := None;
|}.

(** Each clock reading advances the time by one; the sink answers from a script
    and accepts when it is exhausted. *)
Record FixEnv := mkFixEnv { fx_now : Z; fx_script : list DeliverDisposition }.

#[export] Instance fixMetrics : MetricsClock FixEnv := {| metricsNow e := (e, 0) |}.

#[export] Instance fixEnv : Env FixEnv := {|
  clockNow e := (mkFixEnv (fx_now e mod 1000000 + 1) (fx_script e), fx_now e mod 1000000 + 1);
  sinkDeliver _ e :=
    match fx_script e with
    | [] => (e, Ret DispAccepted)
    | d :: rest => (mkFixEnv (fx_now e) rest, Ret d)
    end;
  jitterDraw _ d e := (e, d);
  env_metrics := fixMetrics;
|}.

Definition fixWorld {E} (e : E) : World InMemoryMessageStore E :=
  mkWorld emptyMem (newCoordinator 30000 defaultRetryConfig 7) (mkScheduler false false 0)
    emptyRecorder e.

Definition alice1 : SessionIdentity := mkSession 1 1.
Definition bob1 : SessionIdentity := mkSession 2 1.
Definition bob2 : SessionIdentity := mkSession 2 2.

Definition toBob (cmid text : string) : SendMessageCommand :=
  mkCommand cmid Direct 2 0 [] text.

Definition toGroup (cmid text : string) : SendMessageCommand :=
  mkCommand cmid Group 0 9 [2; 3] text.

(** Two messages to a receiver who then comes online, acknowledges and goes. *)
Definition demoCalls : list RMCall :=
  [RMAccept alice1 (toBob "m1" "hello"); RMAccept alice1 (toBob "m2" "again");
   RMSessionAvailable bob1; RMAcknowledge bob1 1; RMSchedulerTurn].

Lemma fixWorld_ok {E} (e : E) : world_ok (fixWorld e).
Proof.
  split; simpl; [apply emptyMem_wf| |lia|lia].
  replace (mem_view emptyMem) with (mkView ∅ ∅ ∅ ∅ ∅ []); [apply view_inv_empty|reflexivity].
Qed.

(** C3 on the demonstration: two attempts reach the sink, in sequence. *)
Lemma attempts_in_order_witness :
  let w' := runRMCalls demoCalls (fixWorld (mkLogEnv (mkFixEnv 0 []) [])) in
  map at_sequence (le_log (w_env w')) = [1; 2] /\ log_ordered (le_log (w_env w')).
Proof.
  split; [vm_compute; reflexivity|].
  exact (proj1 (attempts_in_order (fixWorld (mkLogEnv (mkFixEnv 0 []) [])) demoCalls
    (fixWorld_ok _) eq_refl ltac:(vm_compute; discriminate))).
Defined.

(** C4 on the demonstration: the second message is the only one in flight. *)
Lemma at_most_one_in_flight_witness :
  let rows := v_deliveries (view (w_store (runRMCalls demoCalls (fixWorld (mkFixEnv 0 []))))) in
  dl_state <$> rows !! (1, 2) = Some Acknowledged /\
  dl_state <$> rows !! (2, 2) = Some InFlight /\
  forall k d, rows !! k = Some d -> dl_recipient d = 2 -> dl_conversationId d = 1 ->
    dl_state d = InFlight -> k = (2, 2).
Proof.
  split; [vm_compute; reflexivity|]. split; [vm_compute; reflexivity|].
  intros k d Hk Hr Hc Hs.
  eapply (at_most_one_in_flight (fixWorld (mkFixEnv 0 [])) demoCalls k (2, 2));
    [apply fixWorld_ok|vm_compute; discriminate|exact Hk|vm_compute; reflexivity|
     exact Hr|exact Hc|exact Hs|reflexivity].
Defined.

Lemma fix_live : env_live (E := FixEnv).
Proof.
  split.
  - intros e. pose proof (Z.mod_pos_bound (fx_now e) 1000000 ltac:(lia)). simpl. lia.
  - intros a e. simpl. by destruct (fx_script e).
Qed.

(** C5 on the demonstration: a further scheduler turn returns its wait. *)
Lemma calls_terminate_witness :
  (runRMCall RMSchedulerTurn (runRMCalls demoCalls (fixWorld (mkFixEnv 0 [])))).2 = Ret tt /\
  (runRMCall RMSchedulerTurn (runRMCalls demoCalls (fixWorld (mkFixEnv 0 [])))).2 <> Throw Diverges.
Proof.
  split; [vm_compute; reflexivity|].
  apply (calls_terminate (fixWorld (mkFixEnv 0 [])) demoCalls RMSchedulerTurn);
    [apply fix_live|apply fixWorld_ok|simpl; lia|vm_compute; discriminate].
Defined.

(** C7 at the first message of a conversation. *)
Lemma accept_new_is_durable_witness :
  let w := fixWorld (mkFixEnv 0 []) in
  let w' := (accept alice1 (toGroup "g1" "hi") w).1 in
  exists m, msg_id m = 1 /\ msg_senderId m = 1 /\
    (forall u, u ∈ [2; 3] -> has_delivery (view (w_store w')) m u).
Proof.
  set (w := fixWorld (mkFixEnv 0 [])).
  destruct (accept_new_is_durable w (accept alice1 (toGroup "g1" "hi") w).1 alice1
    (toGroup "g1" "hi") (mkAcceptOutcome true false 1 1 1 AcceptDependencyBusy)
    (fixWorld_ok _) ltac:(vm_compute; discriminate) ltac:(vm_compute; reflexivity)
    ltac:(vm_compute; reflexivity)) as (m & Ho & Hs & _ & _ & _ & _ & _ & _ & Hd & _).
  exists m. split; [by injection Ho|]. split; [exact Hs|exact Hd].
Defined.

(** C9: the retransmission of the first message after the demonstration. *)
Lemma accept_is_idempotent_witness :
  let w1 := (accept alice1 (toBob "m1" "hello") (fixWorld (mkFixEnv 0 []))).1 in
  let w2 := runRMCalls demoCalls w1 in
  let w3 := (accept alice1 (toBob "m1" "hello") w2).1 in
  v_messages (view (w_store w3)) = v_messages (view (w_store w2)) /\
  forall k, redelivered (v_deliveries (view (w_store w2)) !! k) (v_deliveries (view (w_store w3)) !! k).
Proof.
  set (w := fixWorld (mkFixEnv 0 [])). intros w1 w2 w3.
  pose proof (accept_is_idempotent w w1 alice1 alice1 (toBob "m1" "hello") (toBob "m1" "hello")
    (mkAcceptOutcome true false 1 1 1 AcceptDependencyBusy) demoCalls
    (fixWorld_ok _) ltac:(vm_compute; discriminate) ltac:(vm_compute; reflexivity)
    eq_refl eq_refl eq_refl) as Hi.
  cbn zeta in Hi. fold w2 in Hi. subst w3.
  assert ((accept alice1 (toBob "m1" "hello") w2).2 =
    Ret (mkAcceptOutcome true true 1 1 1 AcceptDependencyBusy)) as Hr by (vm_compute; reflexivity).
  destruct (accept alice1 (toBob "m1" "hello") w2) as [w3 r]. simpl in Hr. rewrite Hr in Hi.
  rewrite samePayload_refl in Hi. destruct Hi as (_ & Hv & Hd). split; [exact (f_equal v_messages Hv)|exact Hd].
Defined.

(** C10: the delivery acknowledged in the demonstration stays acknowledged when
    the recipient reconnects. *)
Lemma settled_forever_witness :
  let w := runRMCalls demoCalls (fixWorld (mkFixEnv 0 [])) in
  let later := [RMSessionClosed bob1; RMSessionAvailable bob2; RMSchedulerTurn] in
  match v_deliveries (view (w_store (runRMCalls later w))) !! (1, 2) with
  | Some d' => isTerminal (dl_state d') = true /\ dl_state d' = Acknowledged
  | None => False
  end.
Proof.
  intros w later.
  assert (Hw : world_ok w) by (apply world_ok_calls; [apply fixWorld_ok|vm_compute; discriminate]).
  assert (H1 : dl_state <$> (v_deliveries (view (w_store w)) !! (1, 2)) = Some Acknowledged)
    by (vm_compute; reflexivity).
  assert (H2 : dl_state <$> (v_deliveries (view (w_store (runRMCalls later w))) !! (1, 2)) <> None)
    by (vm_compute; discriminate).
  assert (Hc : 2 * Z.of_nat (length later) <= capacity (w_store w)) by (vm_compute; discriminate).
  clearbody w. apply fmap_Some in H1 as (d & Hd & Ha).
  assert (Ht : isTerminal (dl_state d) = true) by (by rewrite <- Ha).
  pose proof (settled_forever w later (1, 2) d Hw Hc Hd Ht) as Hs.
  destruct (v_deliveries (view (w_store (runRMCalls later w))) !! (1, 2)) as [d'|]; [|done].
  destruct Hs as [H3 H4]. split; [exact H3|exact (H4 (eq_sym Ha))].
Defined.

(** C11: the first session of the recipient after the second one came. *)
Lemma stale_ack_is_fenced_witness :
  let w := runRMCalls demoCalls (fixWorld (mkFixEnv 0 [])) in
  let w' := runRMCalls [RMSessionAvailable bob2; RMSchedulerTurn; RMSessionClosed bob2] w in
  dl_state <$> (v_deliveries (view (w_store w')) !! (2, 2)) = Some Pending /\
  rmAcknowledge bob1 2 w' = (w', Ret AckNotRecipient).
Proof.
  intros w w'. split; [vm_compute; reflexivity|].
  apply (stale_ack_is_fenced w bob2 bob1 [RMSchedulerTurn; RMSessionClosed bob2] 2);
    [reflexivity|simpl; lia].
Defined.

(** C12 when the recipient acknowledges the message in flight. *)
Lemma acknowledge_results_witness :
  let w := runRMCalls demoCalls (fixWorld (mkFixEnv 0 [])) in
  (rmAcknowledge bob1 2 w).2 = Ret AckAcknowledged /\
  acked_row w (rmAcknowledge bob1 2 w).1 2 2.
Proof.
  set (w := runRMCalls demoCalls (fixWorld (mkFixEnv 0 []))).
  assert (Hr : (rmAcknowledge bob1 2 w).2 = Ret AckAcknowledged) by (vm_compute; reflexivity).
  assert (Hw : world_ok w) by (apply world_ok_calls; [apply fixWorld_ok|vm_compute; discriminate]).
  clearbody w. split; [exact Hr|].
  destruct (rmAcknowledge bob1 2 w) as [w' r] eqn:Hrun. simpl in Hr. subst r.
  exact (proj2 (acknowledge_results w w' bob1 2 (Ret AckAcknowledged) Hw Hrun)).
Defined.

(** C13 after the recipient left with a message in flight. *)
Lemma retryScan_spares_offline_witness :
  let w := runRMCalls (demoCalls ++ [RMSessionClosed bob1]) (fixWorld (mkFixEnv 0 [])) in
  let w' := (runRetryScan 900000 w).1 in
  v_deliveries (view (w_store w')) !! (2, 2) = v_deliveries (view (w_store w)) !! (2, 2).
Proof.
  set (w := runRMCalls (demoCalls ++ [RMSessionClosed bob1]) (fixWorld (mkFixEnv 0 []))).
  assert (Hw : world_ok w) by (apply world_ok_calls; [apply fixWorld_ok|vm_compute; discriminate]).
  assert (Ha : active_ok (w_coord w)).
  { apply (runRMCalls_keep _ active_ok_stable). intros u s Hs. change ((∅ : gmap Z SessionIdentity) !! u = Some s) in Hs.
    by rewrite lookup_empty in Hs. }
  assert (Hq : quiet 2 (w_coord w)) by (vm_compute; exact I).
  clearbody w. exact (retryScan_spares_offline w (runRetryScan 900000 w).1 900000 2 2
    (runRetryScan 900000 w).2 Hw Ha Hq (surjective_pairing _)).
Defined.

(** The store after one accepted message. *)
Definition oneAccepted : InMemoryMessageStore :=
  w_store (runRMCalls [RMAccept alice1 (toBob "m1" "hello")] (fixWorld (mkFixEnv 0 []))).

(** C15: the first relay holds the first event; a second message is accepted, and
    the second relay gets only that one. *)
Lemma outbox_claims_exclusive_witness :
  let draft := mkMessage 0 1 0 1 (toBob "m2" "again") 50 in
  let r1 := claimOutboxEvents 100 "relay:a" 200 10 oneAccepted in
  let s2 := runStoreCalls [StInsertMessage draft; StMarkPoisoned 1 120] r1.1 in
  let r2 := claimOutboxEvents 150 "relay:b" 250 10 s2 in
  exists l1 l2, r1.2 = Ret l1 /\ r2.2 = Ret l2 /\ map ev_id l1 = [1] /\ map ev_id l2 = [2] /\
    forall e1 e2, e1 ∈ l1 -> e2 ∈ l2 -> ev_id e1 <> ev_id e2.
Proof.
  intros draft r1 s2 r2.
  assert (Hw : world_ok (runRMCalls [RMAccept alice1 (toBob "m1" "hello")] (fixWorld (mkFixEnv 0 []))))
    by (apply world_ok_calls; [apply fixWorld_ok|vm_compute; discriminate]).
  eexists _, _. split; [vm_compute; reflexivity|]. split; [vm_compute; reflexivity|].
  split; [reflexivity|]. split; [reflexivity|].
  apply (outbox_claims_exclusive oneAccepted r1.1 r2.1 100 "relay:a" 200 10 _
    [StInsertMessage draft; StMarkPoisoned 1 120] 150 "relay:b" 250 10 _).
  - exact (wo_store _ Hw).
  - vm_compute. discriminate.
  - done.
  - done.
  - done.
  - exact (surjective_pairing r1).
  - repeat constructor.
  - done.
  - exact (surjective_pairing r2).
Defined.

Definition fixRelay : LocalOutboxRelay :=
  mkRelay defaultOutboxConfig "muduo-outbox" 5000 "relay:a" true false.

(** A publisher that succeeds for the first event of a batch only. *)
Definition firstOnly : Publisher (S := InMemoryMessageStore) (E := FixEnv) :=
  fun _ _ => ret [mkOutcome true PubNone EmptyString; mkOutcome false PubTimeout "late"].

Definition okPublisher : Publisher (S := InMemoryMessageStore) (E := FixEnv) :=
  fun requests _ => ret (map (fun _ => mkOutcome true PubNone EmptyString) requests).

Definition twoAccepted : World InMemoryMessageStore FixEnv :=
  runRMCalls [RMAccept alice1 (toBob "m1" "hello"); RMAccept alice1 (toBob "m2" "again")]
    (fixWorld (mkFixEnv 0 [])).

Lemma twoAccepted_ok : world_ok twoAccepted.
Proof. apply world_ok_calls; [apply fixWorld_ok|vm_compute; discriminate]. Qed.

(** The requests for the two events. *)
Definition twoRequests : RelayBatch :=
  mkBatch 2 (map (fun e => mkRequest e 1 (ev_id e) "muduo-outbox")
    (map snd (sorted_items Z.le (outboxEvents_ (w_store twoAccepted))))).

(** C16: of two events the first is published, the second times out. *)
Lemma relay_marks_only_published_witness :
  length (rb_requests twoRequests) = 2%nat /\
  exists w', publishAndMark firstOnly fixRelay twoRequests twoAccepted = (w', Ret tt) /\
    marked (published_ok (rb_requests twoRequests)
      [mkOutcome true PubNone EmptyString; mkOutcome false PubTimeout "late"])
      (view (w_store twoAccepted)) (view (w_store w')).
Proof.
  split; [vm_compute; reflexivity|].
  apply (relay_marks_only_published firstOnly fixRelay twoRequests twoAccepted twoAccepted
    (Ret [mkOutcome true PubNone EmptyString; mkOutcome false PubTimeout "late"]));
    [vm_compute; discriminate|reflexivity|discriminate|exact (wo_store _ twoAccepted_ok)].
Defined.

Definition missing : ConsumedOutboxRecord :=
  mkConsumed "muduo-outbox" 0 17 99 1 1 "MessageAccepted" "{}".

(** A record of a message that was never stored. *)
Lemma consuming_only_advances_witness :
  (handleRecord missing twoAccepted).2 = Ret DeadLettered /\
  handle_result missing twoAccepted DeadLettered (handleRecord missing twoAccepted).1.
Proof.
  assert (Hr : (handleRecord missing twoAccepted).2 = Ret DeadLettered) by (vm_compute; reflexivity).
  split; [exact Hr|].
  exact (consuming_only_advances twoAccepted (handleRecord missing twoAccepted).1 missing
    (Ret DeadLettered) twoAccepted_ok ltac:(rewrite <- Hr; apply surjective_pairing)).
Defined.

(** C17: both events are processed in one scan. *)
Lemma relay_scan_processes_witness :
  exists w' n, runScan okPublisher fixRelay twoAccepted = (w', Ret n) /\
    settledEvent 1 w' /\ settledEvent 2 w'.
Proof.
  destruct (relay_scan_processes okPublisher fixRelay twoAccepted) as (w' & taken & Hrun & _ & _ & Hdone & Hall).
  - intros e. simpl. pose proof (Z.mod_pos_bound (fx_now e) 1000000 ltac:(lia)). lia.
  - intros requests deadline w. by exists w.
  - exact (wo_store _ twoAccepted_ok).
  - simpl. lia.
  - exists w', (Z.of_nat (length taken)). split; [exact Hrun|].
    assert (Z.of_nat (length taken) < 100) as Hn.
    { assert ((runScan okPublisher fixRelay twoAccepted).2 = Ret 2) as E2 by (vm_compute; reflexivity).
      rewrite Hrun in E2. injection E2 as ->. done. }
    assert (forall k, k = 1 \/ k = 2 -> settledEvent k w') as Hk; [|split; apply Hk; auto].
    intros k Hk. destruct (Hdone k) as (e & He & _ & Hs).
    + destruct Hk as [->| ->]; (eapply Hall; [exact Hn|vm_compute; reflexivity|]);
        (split; [done|]; split; [vm_compute; discriminate|by left]).
    + apply Hs. destruct Hk as [->| ->]; vm_compute in He; injection He as <-; vm_compute; eexists; reflexivity.
Defined.
