(* ===== verification/KafkaFixtures.v ===== *)
(** * A small broker

    A topic with one partition and a fixed log, as an instance of the transport and
    of the promises of a broker, and the consumer run against it. *)

From S2P Require Import Prelude Bytes DomainTypes Json Store InMemoryStore World Relay.
From S2P Require Import KafkaWire KafkaWireInv KafkaClient KafkaReplies KafkaBroker KafkaConsumer KafkaConsumerInv KafkaMemory.
From S2P Require Import KafkaFrame KafkaLive KafkaConsumerLive.
From S2P Require Import Fixtures.

Open Scope Z_scope.

(** The clock, the offsets of which a commit was requested, latest first, and the
    reply that is waiting. *)
Record MiniBroker := mkMini {
  mb_clock : Z;
  mb_requested : list (Z * Z);
  mb_reply : option bytes;
}.

(** A client takes no reply of 2^31 bytes or more. *)
Definition smallReply (reply : option bytes) : option bytes :=
  match reply with Some r => if size r <? 2 ^ 31 then Some r else None | None => None end.

Lemma smallReply_Some o r : smallReply o = Some r -> o = Some r /\ size r < 2 ^ 31.
Proof. destruct o as [r'|]; [|done]. unfold smallReply. by destruct (Z.ltb_spec (size r') (2 ^ 31)); intros [= <-]. Qed.

Definition miniTopic : bytes := bytesOf "t".
Definition miniGroup : bytes := bytesOf "g".

Section mini.
Context (log : list StoredBatch).

(** The batches that hold [o] or later offsets. *)
Fixpoint from (o : Z) (l : list StoredBatch) : list StoredBatch :=
  match l with
  | b :: rest => if batchEnd b <=? o then from o rest else l
  | [] => []
  end.

(** The last bytes of a Fetch request: partition, offset, and the size limit. *)
Definition lastBytes (n : nat) (b : bytes) : bytes := drop (length b - n) b.

Definition decodeI64 (b : bytes) : Z :=
  match (ByteReader.i64 b 0).2 with RTrue z => z | _ => 0 end.

Definition fetchedFrom (body : bytes) : option Z :=
  let t := lastBytes 16 body in
  if bool_decide (take 4 t = digits 4 0 /\ drop 12 t = digits 4 kPartitionMaxBytes)
  then Some (decodeI64 (take 8 (drop 4 t))) else None.

Definition committedBy (body : bytes) : option (Z * Z) :=
  let t := lastBytes 14 body in
  if bool_decide (take 4 t = digits 4 0 /\ drop 12 t = digits 2 (-1))
  then Some (0, decodeI64 (take 8 (drop 4 t))) else None.

Definition miniFetch (o : option Z) : bytes :=
  fetchReply 0 [(miniTopic,
    match o with
    | Some o => [mkFetchPart 0 0 0 0 [] (Some (recordSet (from o log)))]
    | None => []
    end)].

Definition usable (it : Z * Z) : bool := bool_decide (it.1 = 0 /\ 0 <= it.2 < 2 ^ 63).

Definition miniOffsets (n : MiniBroker) : bytes :=
  offsetFetchReply [(miniTopic,
    [mkOffsetPart 0 (match list_find usable (mb_requested n) with Some (_, it) => it.2 | None => -1 end) None 0])] 0.

Definition miniMetadata : bytes :=
  encArray (fun b => b) [] ++ digits 4 0 ++
  encArray (fun _ => digits 2 0 ++ encStr miniTopic ++ [0] ++
    encArray (fun _ => digits 2 0 ++ digits 4 0 ++ digits 4 1 ++ encArray (digits 4) [] ++ encArray (digits 4) []) [tt])
    [tt].

(** Both ends of the log: offset 0, and as far as it goes. *)
Definition miniEnds (body : bytes) : list (bytes * list ListedPart) :=
  [(miniTopic, [mkListedPart 0 0 0 (if bool_decide (lastBytes 8 body = digits 8 (-1)) then 2 ^ 40 else 0)])].

Definition miniListed (body : bytes) : bytes := listReply (miniEnds body).

Definition miniSend (apiKey : Z) (body : bytes) (n : MiniBroker) : MiniBroker :=
  let answer r := mkMini (mb_clock n) (mb_requested n) (Some r) in
  if apiKey =? 3 then answer miniMetadata
  else if apiKey =? 2 then answer (miniListed body)
  else if apiKey =? 9 then answer (miniOffsets n)
  else if apiKey =? 1 then answer (miniFetch (fetchedFrom body))
  else if apiKey =? 8 then
    match committedBy body with
    | Some it => mkMini (mb_clock n) (it :: mb_requested n)
                   (Some (encTopics (fun _ => digits 4 0 ++ digits 2 0) [(miniTopic, [tt])]))
    | None => n
    end
  else n.

(** Each reading of the clock advances it by one. *)
Definition tick (n : MiniBroker) : MiniBroker * Z :=
  (mkMini (mb_clock n + 1) (mb_requested n) (mb_reply n), mb_clock n + 1).

Instance miniTransport : Transport MiniBroker := {|
  steadyNow := tick;
  wallNow := tick;
  pause ms n := mkMini (mb_clock n + ms) (mb_requested n) (mb_reply n);
  connectTo _ _ _ n := (n, true);
  sendRequest k _ _ body _ _ n := (miniSend k body n, true);
  recvResponse _ _ n := (mkMini (mb_clock n) (mb_requested n) None, smallReply (mb_reply n));
  disconnect n := mkMini (mb_clock n) (mb_requested n) None;
|}.

(** *** The promises *)

Lemma from_split o l : exists before, l = before ++ from o l /\ Forall (fun b => batchEnd b <= o) before.
Proof.
  induction l as [|b l (before & Hl & Hb)]; [by exists []|]. cbn [from].
  destruct (Z.leb_spec (batchEnd b) o); [|by exists []].
  exists (b :: before). split; [by rewrite Hl at 1|by constructor].
Qed.

Lemma lastBytes_app n a b : length b = n -> lastBytes n (a ++ b) = b.
Proof. intros Hb. unfold lastBytes. rewrite length_app. by rewrite drop_app_length' by lia. Qed.

Lemma length_digits n v : length (digits n v) = n.
Proof. pose proof (size_digits n v). unfold size in *. lia. Qed.

Lemma decodeI64_digits v : isI64 v -> decodeI64 (digits 8 v) = v.
Proof.
  intros Hv. unfold decodeI64. pose proof (reads_i64 v Hv [] []) as H. rewrite app_nil_r in H. cbn [app] in H.
  change (size []) with 0 in H. rewrite H; [done|]. rewrite size_digits. lia.
Qed.

Lemma digits4_inj v v' : in32 v -> in32 v' -> digits 4 v = digits 4 v' -> v = v'.
Proof.
  intros Hv Hv' Heq. pose proof (reads_i32 v Hv [] []) as H. pose proof (reads_i32 v' Hv' [] []) as H'.
  rewrite Heq in H. rewrite app_nil_r in H, H'. cbn [app] in H, H'.
  rewrite size_digits in H, H'. specialize (H ltac:(lia)). rewrite H' in H by lia. by injection H as ->.
Qed.

(** The last entry of an array of fixed-size entries. *)
Lemma lastBytes_array {X} (enc : X -> bytes) xs x n a :
  length (enc x) = n -> lastBytes n (a ++ encArray enc (xs ++ [x])) = enc x.
Proof.
  intros Hn. unfold encArray. rewrite map_app, concat_app. cbn [map concat]. rewrite app_nil_r, !app_assoc.
  by apply lastBytes_app.
Qed.

Lemma take_drop_app {A} (a b : list A) n : length a = n -> take n (a ++ b) = a /\ drop n (a ++ b) = b.
Proof. intros <-. by rewrite take_app_length, drop_app_length. Qed.
Lemma lastBytes_drop n m b : (n + m <= length b)%nat -> drop n (lastBytes (n + m) b) = lastBytes m b.
Proof. intros Hl. unfold lastBytes. rewrite drop_drop. f_equal. lia. Qed.

(** The bytes of an entry: an index, an offset, and a tail. *)
Lemma entry_parts i o tl :
  take 4 (digits 4 i ++ digits 8 o ++ tl) = digits 4 i /\
  take 8 (drop 4 (digits 4 i ++ digits 8 o ++ tl)) = digits 8 o.
Proof.
  destruct (take_drop_app (digits 4 i) (digits 8 o ++ tl) 4 (length_digits 4 i)) as [-> ->].
  by destruct (take_drop_app (digits 8 o) tl 8 (length_digits 8 o)) as [-> _].
Qed.

Lemma fetchedFrom_ok topic a b c d offsets o :
  Forall (fun po => in32 po.1 /\ isI64 po.2) offsets ->
  fetchedFrom (fetchRequest topic a b c d offsets) = Some o -> (0, o) ∈ offsets.
Proof.
  intros Hr. unfold fetchedFrom, fetchRequest. rewrite !app_assoc. set (pre := _ ++ encStr topic).
  assert (16 <= length pre)%nat as Hpre.
  { subst pre. rewrite !length_app, !length_digits. lia. }
  case_bool_decide as Hc; [destruct Hc as [H1 H2]|done].
  intros <-%(inj Some). clearbody pre. destruct offsets as [|x offsets _] using rev_ind.
  { exfalso. rewrite (lastBytes_drop 12 4) in H2 by (rewrite length_app; lia).
    unfold encArray in H2. cbn [map concat] in H2. rewrite app_nil_r in H2.
    rewrite lastBytes_app in H2 by apply length_digits. vm_compute in H2. discriminate H2. }
  rewrite lastBytes_array in H1 |- * by (by rewrite !length_app, !length_digits).
  destruct (entry_parts x.1 x.2 (digits 4 d)) as [E1 E2]. rewrite E1 in H1. rewrite E2.
  apply Forall_app in Hr as [_ Hr]. apply Forall_singleton in Hr as [Hx1 Hx2].
  apply digits4_inj in H1; [|done|unfold in32; lia]. rewrite decodeI64_digits by done.
  rewrite elem_of_app, list_elem_of_singleton. right. rewrite <- H1. by destruct x.
Qed.

Lemma committedBy_ok group topic items it :
  Forall (fun it => in32 it.1 /\ isI64 it.2) items ->
  committedBy (commitRequest group topic items) = Some it -> it ∈ items.
Proof.
  intros Hr. unfold committedBy, commitRequest. rewrite !app_assoc. set (pre := _ ++ encStr topic).
  assert (14 <= length pre)%nat as Hpre.
  { subst pre. rewrite !length_app, !length_digits. lia. }
  case_bool_decide as Hc; [destruct Hc as [H1 H2]|done].
  intros <-%(inj Some). clearbody pre. destruct items as [|x items _] using rev_ind.
  { exfalso. rewrite (lastBytes_drop 12 2) in H2 by (rewrite length_app; lia).
    unfold encArray in H2. cbn [map concat length] in H2. rewrite app_nil_r in H2.
    change (digits 4 (Z.of_nat 0)) with (digits 2 0 ++ digits 2 0) in H2. rewrite app_assoc in H2.
    rewrite lastBytes_app in H2 by apply length_digits. vm_compute in H2. discriminate H2. }
  rewrite lastBytes_array in H1 |- * by (by rewrite !length_app, !length_digits).
  destruct (entry_parts x.1 x.2 (digits 2 (-1))) as [E1 E2]. rewrite E1 in H1. rewrite E2.
  apply Forall_app in Hr as [_ Hr]. apply Forall_singleton in Hr as [Hx1 Hx2].
  apply digits4_inj in H1; [|done|unfold in32; lia]. rewrite decodeI64_digits by done.
  rewrite elem_of_app, list_elem_of_singleton. right. rewrite <- H1. by destruct x.
Qed.
Context (Hlog : logOk log) (Hsmall : size (recordSet log) < 2 ^ 30).

Lemma from_small o : size (recordSet (from o log)) < 2 ^ 30.
Proof.
  destruct (from_split o log) as (before & Hl & _). rewrite Hl in Hsmall. unfold recordSet in *.
  rewrite map_app, concat_app, size_app in Hsmall. pose proof (size_nonneg (concat (map batchBytes before))). lia.
Qed.

Lemma miniFetch_ok o :
  replyOk 0 [(miniTopic, match o with Some o => [mkFetchPart 0 0 0 0 [] (Some (recordSet (from o log)))] | None => [] end)].
Proof.
  assert (forall o, partOk (mkFetchPart 0 0 0 0 [] (Some (recordSet (from o log))))) as Hpart.
  { intros o'. split; cbn; unfold isI64; try lia; [by split; [lia|constructor]|].
    intros b [= <-]. pose proof (from_small o'). lia. }
  split; [lia| |].
  - split; [done|]. apply Forall_singleton. split; [done|]. destruct o as [o|]; cbn; (split; [lia|]); [apply Forall_singleton, Hpart|constructor].
  - unfold fetchReply, encTopics, encArray. cbn [map concat length]. rewrite app_nil_r, !size_app, !size_digits.
    change (size (encStr (miniTopic, _).1)) with 3. destruct o as [o|]; cbn [snd map concat length]; [|done].
    unfold encFetchPart. rewrite app_nil_r, !size_app, !size_digits. cbn [fp_aborted fp_records encNullableBytes].
    unfold encArray. cbn [map concat length]. rewrite !size_app, !size_digits. pose proof (from_small o).
    change (size []) with 0. lia.
Qed.

Lemma miniOffset_ok n :
  let o := match list_find usable (mb_requested n) with Some (_, it) => it.2 | None => -1 end in
  offsetReplyOk [(miniTopic, [mkOffsetPart 0 o None 0])] 0 /\ (0 <= o -> (0, o) ∈ mb_requested n).
Proof.
  intros o. assert (isI64 o /\ (0 <= o -> (0, o) ∈ mb_requested n)) as [Ho Hin].
  { subst o. destruct (list_find usable (mb_requested n)) as [[i [p off]]|] eqn:Hf; [|by split; [unfold isI64; lia|]].
    apply list_find_Some in Hf as (Hi & Hu & _). unfold usable in Hu. apply bool_decide_unpack in Hu as [Hp Hr].
    cbn in *. subst p. split; [unfold isI64; lia|]. intros _. by eapply list_elem_of_lookup_2. }
  split; [|done]. split; [|lia|].
  - split; [done|]. apply Forall_singleton. split; [done|]. split; [done|]. apply Forall_singleton.
    by split; cbn; [lia| | |lia].
  - done.
Qed.

Definition miniLogOf (n : MiniBroker) (p : Z) : list StoredBatch := if p =? 0 then log else [].

Lemma miniSend_requested k body n : k <> 8 -> mb_requested (miniSend k body n) = mb_requested n.
Proof. intros Hk. unfold miniSend. destruct (Z.eqb_spec k 8); [done|]. by repeat case_match. Qed.

Lemma mini_commit_evolves items n it :
  Forall (fun it => in32 it.1 /\ isI64 it.2) items ->
  it ∈ mb_requested (miniSend 8 (commitRequest miniGroup miniTopic items) n) -> it ∈ mb_requested n \/ it ∈ items.
Proof.
  intros Hr. change (miniSend 8 ?b n) with (match committedBy b with
    | Some it => mkMini (mb_clock n) (it :: mb_requested n)
                   (Some (encTopics (fun _ => digits 4 0 ++ digits 2 0) [(miniTopic, [tt])]))
    | None => n
    end).
  destruct (committedBy _) as [x|] eqn:Hx; [|by left]. apply committedBy_ok in Hx; [|done].
  cbn [mb_requested]. rewrite elem_of_cons. intros [->|?]; auto.
Qed.

Lemma mini_fetch_ok maxWait minBytes maxBytes partitionMax offsets n resp :
  Forall (fun po => in32 po.1 /\ isI64 po.2) offsets ->
  mb_reply (miniSend 1 (fetchRequest miniTopic maxWait minBytes maxBytes partitionMax offsets) n) = Some resp ->
  exists throttle topics, resp = fetchReply throttle topics /\ replyOk throttle topics /\
    FetchLawful miniTopic offsets (miniLogOf n) topics.
Proof.
  intros Hr. change (mb_reply (miniSend 1 ?b n)) with (Some (miniFetch (fetchedFrom b))).
  intros <-%(inj Some). set (o := fetchedFrom _). eexists _, _. split; [reflexivity|]. split; [apply miniFetch_ok|].
  assert (forall x, o = Some x -> (0, x) ∈ offsets) as Ho by (intros x Hx; by apply fetchedFrom_ok in Hx).
  clearbody o. destruct o as [x|].
  - split; [apply NoDup_singleton|]. intros part data Hin He Hd. apply list_elem_of_singleton in Hin as ->.
    injection Hd as <-. exists x. split; [by apply Ho|]. destruct (from_split x log) as (before & Hl & Hb).
    exists before, (from x log), (length (recordSet (from x log))). by rewrite take_ge.
  - split; [apply NoDup_nil_2|]. intros part data Hin. by apply elem_of_nil in Hin.
Qed.

(** A request for the beginning is not taken for one for the end. *)
Lemma miniEnds_earliest topic parts :
  miniEnds (listOffsetsRequest topic (-2) parts) = [(miniTopic, [mkListedPart 0 0 0 0])].
Proof.
  unfold miniEnds, listOffsetsRequest. rewrite !app_assoc. set (pre := _ ++ encStr topic).
  assert (4 <= length pre)%nat as Hpre by (subst pre; rewrite !length_app, !length_digits; lia).
  rewrite bool_decide_false; [done|]. clearbody pre. destruct parts as [|x parts _] using rev_ind; intros H.
  - apply (f_equal (drop 4)) in H. rewrite (lastBytes_drop 4 4) in H by (rewrite length_app, length_digits || rewrite length_app; simpl; lia).
    unfold encArray in H. cbn [map concat] in H. rewrite app_nil_r in H.
    rewrite lastBytes_app in H by apply length_digits. vm_compute in H. discriminate H.
  - unfold encArray in H. rewrite map_app, concat_app in H. cbn [map concat] in H. rewrite app_nil_r, !app_assoc in H.
    rewrite lastBytes_app in H by apply length_digits. vm_compute in H. discriminate H.
Qed.

Lemma miniEnds_ok : listReplyOk [(miniTopic, [mkListedPart 0 0 0 0])].
Proof.
  split; [|by vm_compute]. split; [done|]. apply Forall_singleton. split; [done|]. split; [done|].
  apply Forall_singleton. by split; cbn; unfold isI64; lia.
Qed.

#[refine] Instance miniBroker : Broker MiniBroker (Transport0 := miniTransport) miniTopic miniGroup :=
  {| logOf := miniLogOf; requested := mb_requested; logStart _ := 0 |}.
Proof.
  - intros n p. unfold miniLogOf. destruct (p =? 0); [done|]. split; [constructor|constructor|done].
  - intros n p b. unfold miniLogOf. destruct (p =? 0); [|by intros ?%elem_of_nil]. destruct Hlog as [Hall _ _].
    rewrite Forall_forall in Hall. intros Hb. by destruct (Hall b Hb) as (_ & ? & _).
  - done.
  - done.
  - done.
  - done.
  - done.
  - intros k v c b i t n Hk. split; [done|]. intros it. cbn [sendRequest miniTransport fst]. by rewrite miniSend_requested.
  - intros v c i t items n Hr n'. split; [done|]. intros it. by apply mini_commit_evolves.
  - intros c corr t t' mw mb mx pm offsets n n1 n2 resp Hr Hs Hrr.
    apply pair_equal_spec in Hs as [<- _]. apply pair_equal_spec in Hrr as [<- [Hrr _]%smallReply_Some].
    exact (mini_fetch_ok mw mb mx pm offsets n resp Hr Hrr).
  - intros c corr t t' parts n n1 n2 resp Hs Hrr. apply pair_equal_spec in Hs as [<- _].
    apply pair_equal_spec in Hrr as [<- [Hrr _]%smallReply_Some]. apply (inj Some (miniOffsets n)) in Hrr as <-.
    destruct (miniOffset_ok n) as [H1 H2].
    eexists _, _. split; [reflexivity|]. split; [exact H1|]. intros part Hin _ Ho.
    apply list_elem_of_singleton in Hin as ->. by apply H2.
  - intros c corr t t' parts n n1 n2 resp Hs Hrr. apply pair_equal_spec in Hs as [<- _].
    apply pair_equal_spec in Hrr as [<- [Hrr _]%smallReply_Some].
    apply (inj Some (miniListed (listOffsetsRequest miniTopic (-2) parts))) in Hrr as <-.
    unfold miniListed. rewrite miniEnds_earliest. eexists. split; [reflexivity|]. split; [by apply miniEnds_ok|].
    intros part Hin _. by apply list_elem_of_singleton in Hin as ->.
Defined.

Lemma miniSend_clock k body n : mb_clock (miniSend k body n) = mb_clock n.
Proof. unfold miniSend. by repeat case_match. Qed.

Instance miniClock : ClockLaws MiniBroker (Transport0 := miniTransport).
Proof.
  refine {| clock := mb_clock |}.
  - intros n. cbn. lia.
  - intros n. cbn. lia.
  - intros ms n. cbn. lia.
  - done.
  - intros k v c b i t n. cbn [sendRequest miniTransport fst]. by rewrite miniSend_clock.
  - done.
  - done.
  - intros i t n r Hr. by apply smallReply_Some in Hr as [_ Hr].
Defined.
End mini.

(** ** Scenario *)

Definition envelope (messageId conversationId sequence : Z) : Json :=
  JObj [("conversation_id", JInt conversationId); ("event_type", JStr "MessageAccepted");
        ("message_id", JInt messageId); ("payload", JStr "p"); ("sequence", JInt sequence)].

(** The texts of the scenario and the values they parse to. *)
Definition eventTexts : list (string * Json) :=
  [("p", JObj []); ("a", envelope 11 1 1); ("b", envelope 12 1 2); ("c", envelope 13 1 3);
   ("old", envelope 10 1 0)]%string.

Definition eventJson : JsonLib := {|
  json_dump _ := EmptyString;
  json_parse text := assoc text eventTexts;
|}.
#[local] Existing Instance eventJson.

Definition event (text : string) : bytes * bytes := (bytesOf "1", bytesOf text).

(** A batch of two messages; then one that repeats a message, brings garbage and a
    sequence number from the past. *)
Definition miniLog : list StoredBatch :=
  [mkStored 0 1000 [event "a"; event "b"]; mkStored 2 1001 [event "b"; event "x"; event "old"]].

(** Three messages in one batch. *)
Definition wideLog : list StoredBatch := [mkStored 0 1000 [event "a"; event "b"; event "c"]].

Definition miniConfig (limit : Z) : ConsumerConfig := makeConfig "127.0.0.1" 9092 "t" "g" limit 5000 100.

(** A handler that always accepts. *)
Definition acceptAll {W} (r : ConsumedOutboxRecord) : eff exn W ConsumeDisposition := ret Advanced.

Abbreviation MiniK := (KWorld InMemoryMessageStore FixEnv MiniBroker).

Definition miniStart : MiniK := mkK (fixWorld (mkFixEnv 0 [])) (mkMini 0 [] None) newImpl emptyResult.

Definition miniPoll (log : list StoredBatch) (limit : Z) (k : MiniK) : MiniK :=
  (poll (Transport0 := miniTransport log) (miniConfig limit) acceptAll None 0 k).1.

Lemma logOk_intro l :
  forallb (fun b => bool_decide (batchOk b /\ 0 <= sb_base b /\ batchEnd b < 2 ^ 62)) l = true ->
  StronglySorted (fun b b' => batchEnd b <= sb_base b') l -> size (recordSet l) < 2 ^ 61 -> logOk l.
Proof.
  intros Hb Hs Hz. split; [|done|done]. rewrite Forall_forall. intros b Hin. rewrite forallb_forall in Hb.
  specialize (Hb b ltac:(by apply list_elem_of_In)). by apply bool_decide_eq_true in Hb.
Qed.

Lemma miniLog_ok : logOk miniLog.
Proof.
  apply logOk_intro; [by vm_compute| |by vm_compute].
  repeat constructor; vm_compute; discriminate.
Qed.

Lemma miniLog_small : size (recordSet miniLog) < 2 ^ 30.
Proof. by vm_compute. Qed.

(** A poll, a crash, and a poll of the new process. *)
Definition miniEnd : MiniK :=
  let k := miniPoll miniLog 100 miniStart in
  miniPoll miniLog 100 (mkK (k_world k) (k_net k) (crashed (k_impl k)) (k_result k)).

(** C28 on the scenario: the group's offset is 5, and the five records of the log
    are settled. *)
Lemma no_record_is_skipped_witness :
  im_cursor (k_impl miniEnd) !! 0 = Some 5 /\
  exists f, (0, f) ∈ im_origins (k_impl miniEnd) /\
    forall r, r ∈ logRecords 0 miniLog -> f <= fr_offset r < 5 ->
      settled (miniConfig 100) (im_trace (k_impl miniEnd)) r.
Proof.
  assert (H5 : im_cursor (k_impl miniEnd) !! 0 = Some 5) by (vm_compute; reflexivity).
  split; [exact H5|].
  refine (no_record_is_skipped (Transport0 := miniTransport miniLog) (miniConfig 100) acceptAll None
    (Broker0 := miniBroker miniLog miniLog_ok miniLog_small) ltac:(vm_compute; reflexivity) ltac:(vm_compute; reflexivity)
    miniEnd 0 5 _ (or_introl H5)).
  apply consumed_poll, consumed_crash, consumed_poll, consumed_start.
  intros it Hin. change (it ∈ ([] : list (Z * Z))) in Hin. by apply elem_of_nil in Hin.
Defined.

Lemma mini_polled log : polled (Transport0 := miniTransport log) (miniConfig 100) acceptAll None (miniPoll log 100 miniStart).
Proof. apply polled_poll, polled_start. Defined.

(** An instance on the scenario: one conversation is tracked. *)
Lemma consumer_memory_bounded_witness :
  let s := k_impl (miniPoll miniLog 100 miniStart) in
  conversationOrder s = [1] /\ Z.of_nat (base.size (lastSeen s)) <= 100.
Proof.
  split; [vm_compute; reflexivity|].
  exact (proj1 (proj2 (consumer_memory_bounded (Transport0 := miniTransport miniLog) (miniConfig 100) ltac:(by vm_compute)
    acceptAll None _ (mini_polled miniLog)))).
Defined.

(** C32 on the scenario: two messages reach the handler, in order; the repeated one
    and the one from the past do not. *)
Lemma handler_order_and_dedup_witness :
  let t := im_trace (k_impl (miniPoll miniLog 100 miniStart)) in
  omap (fun e => match e with EvHandled r _ => Some (cr_sequence r) | _ => None end) t = [1; 2] /\
  ordered t.
Proof.
  split; [vm_compute; reflexivity|].
  exact (handler_order_and_dedup (Transport0 := miniTransport miniLog) (miniConfig 100) ltac:(by vm_compute)
    acceptAll None _ (mini_polled miniLog) ltac:(vm_compute; discriminate)).
Defined.

(** A record batch that holds more records than the consumer takes per poll is
    never finished: each poll reads the batch from its start, takes the same
    records, and commits the same offset. *)
Lemma wide_batch_is_never_finished :
  let k := Nat.iter 6 (miniPoll wideLog 2) miniStart in
  im_cursor (k_impl k) !! 0 = Some 2 /\ mb_requested (k_net k) = repeat (0, 2) 6 /\
  forallb (fun e => cr_offset (evRecord e) <? 2) (im_trace (k_impl k)) = true /\
  rs_brokerOk (k_result k) = true.
Proof. by vm_compute. Qed.

(** C31 on the scenario: the first poll returns. *)
Lemma poll_returns_witness :
  exists r, (poll (Transport0 := miniTransport miniLog) (miniConfig 100) acceptAll None 0 miniStart).2 = Ret r.
Proof.
  apply (ConsumerLive.poll_returns (Transport0 := miniTransport miniLog) (ClockLaws0 := miniClock miniLog) (miniConfig 100)
    (Broker0 := miniBroker miniLog miniLog_ok miniLog_small) ltac:(vm_compute; reflexivity) ltac:(vm_compute; reflexivity)
    acceptAll None ltac:(done) ltac:(done) ltac:(done) 0 miniStart (miniPoll miniLog 100 miniStart)).
  - apply consumed_start. intros it Hin. change (it ∈ ([] : list (Z * Z))) in Hin. by apply elem_of_nil in Hin.
  - by vm_compute.
  - by vm_compute.
  - done.
  - unfold miniPoll. by destruct (poll _ _ _ _ _).
  - by vm_compute.
Defined.

(** The same broker, cut off. *)
Definition downTransport : Transport MiniBroker := {|
  steadyNow := tick;
  wallNow := tick;
  pause ms n := mkMini (mb_clock n + ms) (mb_requested n) (mb_reply n);
  connectTo _ _ _ n := (n, true);
  sendRequest k _ _ body _ _ n := (n, false);
  recvResponse _ _ n := (n, None);
  disconnect n := n;
|}.

Definition downPoll : MiniK * outcome kexn OutboxConsumeResult :=
  poll (Transport0 := downTransport) (miniConfig 100) acceptAll None 0 (miniPoll miniLog 100 miniStart).

(** C29 on the scenario: after a poll that handled messages, a poll without a broker
    fails and changes nothing. *)
Lemma failed_poll_is_contained_witness :
  undisturbed (miniPoll miniLog 100 miniStart) downPoll.1 /\
  im_trace (k_impl downPoll.1) <> [].
Proof.
  split; [|by vm_compute].
  apply (failed_poll_is_contained (Transport0 := downTransport) (miniConfig 100) acceptAll None 0
    (miniPoll miniLog 100 miniStart) downPoll.1 (set_brokerOk false emptyResult)); [|by vm_compute].
  by vm_compute.
Defined.
