(* ===== verification/ServiceFixtures.v ===== *)
(** * Concrete executions of the chat service

    A platform whose connections always accept, a table of JSON texts and the
    in-memory adapters; two users register, log in and exchange messages. *)

From S2P Require Import Prelude DomainTypes Metrics Store InMemoryStore World Coordinator Messaging Json JsonText.
From S2P Require Import SessionRegistry Application Executor Presence Gateway Protocol SessionDelivery.
From S2P Require Import ViewInv CoordinatorInv MessagingInv Guarantees ProtocolInv ChatService EnvFrame ChatServiceInv.
From Stdlib Require Import QArith.

Open Scope Z_scope.

#[export] Instance demoFloat : JsonFloat := {|
  floatText _ := "0.5"; castInt _ := 0; castInt64 _ := 0; castUint64 _ := 0 |}.

(** A clock that ticks and what was sent, newest first. *)
Record DemoNet := mkDemoNet { dn_now : Z; dn_sent : list (Conn * string) }.

Definition tick (n : DemoNet) : DemoNet * Z := (mkDemoNet (dn_now n + 1) (dn_sent n), dn_now n + 1).

#[export] Instance demoPlatform : Platform DemoNet := {|
  platformNow := tick; steadyNow := tick; recorderNow := tick;
  platformJitter _ d n := (n, d);
  netConnected _ _ := true;
  netSend conn text n := (mkDemoNet (dn_now n) ((conn, text) :: dn_sent n),
                          mkSendOutcome SendAccepted PressureNormal);
  netForceClose _ n := n;
  connLoop _ := mainLoop;
|}.

#[export] Instance demoTable : UserTable unit := {|
  selectUser id d := (d, if (id =? 1) || (id =? 2) then UserRow else NoUserRow);
  selectFriends _ d := (d, Some []);
  resetOnline d := d;
|}.

(** The texts of the scenario and the values they parse to. *)
Definition demoTexts : list (string * Json) :=
  [("reg alice", JObj [("msgid", JInt 4); ("name", JStr "alice"); ("password", JStr "pa")]);
   ("reg bob", JObj [("msgid", JInt 4); ("name", JStr "bob"); ("password", JStr "pb")]);
   ("login alice", JObj [("id", JInt 1); ("msgid", JInt 1); ("password", JStr "pa")]);
   ("login bob", JObj [("id", JInt 2); ("msgid", JInt 1); ("password", JStr "pb")]);
   ("guess bob", JObj [("id", JInt 2); ("msgid", JInt 1); ("password", JStr "pa")]);
   ("logout bob", JObj [("id", JInt 2); ("msgid", JInt 3)]);
   ("hello", JObj [("client_message_id", JStr "m1"); ("content", JStr "hello"); ("msgid", JInt 6);
                   ("toid", JInt 2)]);
   ("old hello", JObj [("msg", JStr "hello"); ("msgid", JInt 6); ("toid", JInt 2)]);
   ("old bye", JObj [("msg", JStr "bye"); ("msgid", JInt 6); ("toid", JInt 2)])].

#[export] Instance demoJson : JsonLib := {|
  json_dump _ := EmptyString;
  json_parse text := assoc text demoTexts;
|}.

#[export] Instance demoGateway : LocalGateway := 1.

Abbreviation DemoCluster := (Cluster InMemoryPresenceDirectory (Node DemoNet)).
Abbreviation DemoServer :=
  (Server InMemoryRepositories InMemoryMessageStore InMemoryPresenceDirectory DemoNet unit).

Definition demoCluster : DemoCluster :=
  mkCluster (InMemoryPresence.new 30000) {[ 1 := newSink 1 ]} ∅
    (mkNode Registry.empty (mkDemoNet 0 []) []).

Definition demoBackend (store : InMemoryMessageStore)
  : Backend InMemoryRepositories InMemoryMessageStore DemoCluster unit :=
  mkBackend emptyApp
    (mkWorld store (newCoordinator 30000 defaultRetryConfig 7) (mkScheduler false false 0)
       emptyRecorder demoCluster) 0 tt.

Definition demoStart : DemoServer := mkServer (demoBackend emptyMem) None [] ∅ [] ∅ ∅ false.

(** The worker runs one task and the main loop its completion. *)
Definition drive : list (SvStep (N := DemoNet)) :=
  [SvTake 0 (fun _ => 0); SvStart 0; SvEnd 0; SvFinish 0; SvFunctor 0].

Definition say (conn : Conn) (text : string) : list (SvStep (N := DemoNet)) :=
  SvMessage conn text :: drive ++ drive ++ drive.

(** Alice on connection 11, Bob on 12, a stranger on 13. *)
Definition demoSteps : list (SvStep (N := DemoNet)) :=
  [SvBindLoop 1 16 16; SvConnected 11; SvConnected 12; SvConnected 13]
  ++ say 11 "reg alice" ++ say 12 "reg bob" ++ say 11 "login alice" ++ say 12 "login bob"
  ++ say 13 "guess bob" ++ say 11 "hello".

Definition helloAttempt : DeliveryAttempt := mkAttempt 1 1 1 1 2 Direct 2 0 "hello" 1.

Abbreviation demoLog := (nd_log (nodeOf (svRun demoSteps demoStart))).

Lemma demo_started : started demoStart.
Proof. by split. Qed.

(** C1 on the scenario: Bob authenticated on connection 12 before the delivery. *)
Lemma deliveries_need_authentication_witness :
  demoLog !! 8%nat = Some (Delivered 12 helloAttempt) /\
  exists g, Authenticated 12 2 g ∈ take 8 demoLog.
Proof.
  assert (demoLog !! 8%nat = Some (Delivered 12 helloAttempt)) as Hl by (vm_compute; reflexivity).
  split; [exact Hl|].
  exact (deliveries_need_authentication demoStart demoSteps 12 helloAttempt (take 8 demoLog)
    (drop 9 demoLog) demo_started (eq_sym (take_drop_middle demoLog 8 _ Hl))).
Defined.

(** C2 on the scenario: Alice's message is accepted in her own name. *)
Lemma actions_need_authentication_witness :
  demoLog !! 7%nat = Some (Acting 11 (mkBound 1 1)) /\ Authenticated 11 1 1 ∈ take 7 demoLog.
Proof.
  assert (demoLog !! 7%nat = Some (Acting 11 (mkBound 1 1))) as Hl by (vm_compute; reflexivity).
  split; [exact Hl|].
  exact (actions_need_authentication demoStart demoSteps 11 (mkBound 1 1) (take 7 demoLog)
    (drop 8 demoLog) demo_started (eq_sym (take_drop_middle demoLog 7 _ Hl))).
Defined.

(** An instance at the largest message id. *)
Lemma reply_encoders_agree_witness :
  encodeMessageAcceptedReply 11 "a-1" 18446744073709551615 2 3 true
  = default EmptyString (dump (buildMessageAcceptedReply 11 "a-1" 18446744073709551615 2 3 true))
    +:+ newline.
Proof.
  destruct (reply_encoders_agree 11 "a-1" 18446744073709551615 2 3 true 103 "idempotency conflict" None
    ltac:(done) ltac:(done) ltac:(done) ltac:(done) ltac:(done)) as (H & _ & Hsome & _).
  destruct (Hsome eq_refl) as [t Ht]. rewrite Ht. exact (H t Ht).
Defined.

(** ** Sample chat commands *)

Definition chatJson (text : string) : Json := default JNull (assoc text demoTexts).

Definition parsedOf (text : string) : ParsedChatMessage :=
  (default (mkParsed true false EmptyString EmptyString 0 0, 0)
    (parseChatMessage ChatDirect (chatJson text))).1.

Abbreviation answerOf text b :=
  (acceptChatCommand (R := InMemoryRepositories) (S := InMemoryMessageStore) (E := DemoCluster)
     (D := unit) 1 1 (parsedOf text) ChatDirect b).

Lemma demo_world_ok : world_ok (bk_rm (demoBackend emptyMem)).
Proof.
  split; simpl; [apply emptyMem_wf| |lia|lia].
  replace (mem_view emptyMem) with (mkView ∅ ∅ ∅ ∅ ∅ []); [apply view_inv_empty|reflexivity].
Qed.

(** C8 for a message from Alice to Bob: accepted, and stored under its key. *)
Lemma chat_command_answer_is_truthful_witness :
  exists v b', answerOf "hello" (demoBackend emptyMem) = (b', Ret v) /\ av_ok v = true /\
    truthfulView 1 (parsedOf "hello") v b'.
Proof.
  assert (match (answerOf "hello" (demoBackend emptyMem)).2 with Ret v => av_ok v | _ => false end = true)
    as Hok by (vm_compute; reflexivity).
  assert (Hparse : parseChatMessage ChatDirect (chatJson "hello") = Some (parsedOf "hello", 0))
    by (vm_compute; reflexivity).
  assert (Hcap : 2 <= capacity (w_store (bk_rm (demoBackend emptyMem)))) by (vm_compute; discriminate).
  assert (H1 : isI64 1) by (vm_compute; split; [discriminate|reflexivity]).
  assert (H0 : isU64 (bk_legacy (demoBackend emptyMem))) by (vm_compute; split; [discriminate|reflexivity]).
  destruct (answerOf "hello" (demoBackend emptyMem)) as [b' r] eqn:E.
  pose proof (chat_command_answer_is_truthful 1 1 (chatJson "hello") ChatDirect (parsedOf "hello")
    (demoBackend emptyMem) b' r H1 H0 demo_world_ok Hcap Hparse E) as H.
  destruct r as [v|x]; [|discriminate Hok]. exists v, b'. split; [reflexivity|]. by split.
Defined.

(** ** What the scenarios show *)

(** The counter of legacy keys restarts with the process while the store keeps the
    keys: the first legacy message of a user after a restart is refused as a
    conflict, or taken for a duplicate and lost when its content repeats. *)
Lemma legacy_keys_collide_after_restart :
  let first := (answerOf "old hello" (demoBackend emptyMem)).1 in
  let restarted := demoBackend (w_store (bk_rm first)) in
  (match (answerOf "old bye" restarted).2 with Ret v => av_errnoCode v | _ => 0 end
     = kErrnoIdempotencyConflict) /\
  (match (answerOf "old hello" restarted).2 with Ret v => av_ok v && av_duplicate v | _ => false end
     = true) /\
  v_messages (view (w_store (bk_rm (answerOf "old hello" restarted).1)))
    = v_messages (view (w_store (bk_rm first))).
Proof. by vm_compute. Qed.

(** A stranger's attempt with a wrong password silently cancels a login that is
    in flight: Bob gets neither an answer nor a session. *)
Lemma stranger_cancels_login :
  let s := svRun ([SvBindLoop 1 16 16; SvConnected 12; SvConnected 13] ++ say 13 "reg alice"
             ++ say 12 "reg bob" ++ [SvMessage 12 "login bob"; SvMessage 13 "guess bob"]
             ++ drive ++ drive ++ drive) demoStart in
  Registry.lookupByUser 2 (nd_registry (nodeOf s)) = None /\
  Forall (fun x => x.1 = 13) (take 1 (dn_sent (nd_net (nodeOf s)))) /\
  length (dn_sent (nd_net (nodeOf s))) = 3%nat /\ sv_functors s = [].
Proof. vm_compute. repeat split. repeat constructor. Qed.

(** A logout is applied to the user the payload names, whoever sends it. *)
Lemma stranger_logs_out :
  let s := svRun demoSteps demoStart in
  Registry.lookupByUser 2 (nd_registry (nodeOf s)) = Some 12 /\
  Registry.lookupByUser 2 (nd_registry (nodeOf (svRun (say 13 "logout bob") s))) = None.
Proof. by vm_compute. Qed.
