(* ===== verification/KafkaPublisherFixtures.v ===== *)
(** * A small broker that stores

    A broker with topics of two partitions that appends every batch it is sent, as an
    instance of the transport, of its clock and of what it promises to a producer,
    and the publisher and the consumer run against it. *)

From S2P Require Import Prelude Bytes DomainTypes Json Store InMemoryStore World Relay JsonText.
From S2P Require Import KafkaWire KafkaWireInv KafkaClient KafkaReplies KafkaBroker KafkaConsumer KafkaConsumerInv.
From S2P Require Import KafkaPublisher KafkaPublisherInv KafkaPipeline KafkaLive Fixtures KafkaFixtures ServiceFixtures.

Open Scope Z_scope.

(** The clock, the batches with topic, partition and offset, and the reply that is
    waiting. *)
Record MiniStore := mkMiniStore {
  ms_clock : Z;
  ms_log : list (bytes * Z * (Z * bytes));
  ms_reply : option bytes;
}.

(** The topic, the partition and the batch of a Produce request, behind the acks and
    the timeout. *)
Definition readProduce : rd (bytes * Z * bytes) :=
  (t <-- ByteReader.str ;; _ <-- ByteReader.i32 ;; p <-- ByteReader.i32 ;; blob <-- ByteReader.bytes_ ;; rret (t, p, blob))%rd.

Definition batchesOf (log : list (bytes * Z * (Z * bytes))) (t : bytes) (p : Z) : list (Z * bytes) :=
  (filter (fun e => e.1 = (t, p)) log).*2.

(** Two partitions, both with a leader, the first with error code [err]. *)
Definition storeMetadata (err : Z) (topic : bytes) : bytes :=
  encArray (fun b => b) [] ++ digits 4 0 ++
  encArray (fun _ => digits 2 0 ++ encStr topic ++ [0] ++
    encArray (fun p => digits 2 (if p =? 0 then err else 0) ++ digits 4 p ++ digits 4 1 ++ encArray (digits 4) [] ++ encArray (digits 4) []) [0; 1])
    [tt].

Definition storeSend (apiKey : Z) (body : bytes) (n : MiniStore) : MiniStore :=
  if apiKey =? 3 then
    match (ByteReader.str (drop 4 body) 0).2 with
    | RTrue t => mkMiniStore (ms_clock n) (ms_log n) (Some (storeMetadata 0 t))
    | _ => n
    end
  else if apiKey =? 0 then
    match (readProduce (drop 12 body) 0).2 with
    | RTrue (t, p, blob) =>
        let base := i64 (Z.of_nat (length (batchesOf (ms_log n) t p))) in
        mkMiniStore (ms_clock n) (ms_log n ++ [(t, p, (base, blob))]) (Some (produceReply t p 0 base 0 0))
    | _ => mkMiniStore (ms_clock n) (ms_log n) None
    end
  else n.

Definition storeTick (n : MiniStore) : MiniStore * Z :=
  (mkMiniStore (ms_clock n + 1) (ms_log n) (ms_reply n), ms_clock n + 1).

#[export] Instance storeTransport : Transport MiniStore := {|
  steadyNow := storeTick;
  wallNow := storeTick;
  pause ms n := mkMiniStore (ms_clock n + ms) (ms_log n) (ms_reply n);
  connectTo _ _ _ n := (n, true);
  sendRequest k _ _ body _ _ n := if size body <? 2 ^ 31 then (storeSend k body n, true) else (n, false);
  recvResponse _ _ n := (mkMiniStore (ms_clock n) (ms_log n) None, smallReply (ms_reply n));
  disconnect n := mkMiniStore (ms_clock n) (ms_log n) None;
|}.

Lemma storeSend_log k body n : ms_clock (storeSend k body n) = ms_clock n /\ ms_log n `prefix_of` ms_log (storeSend k body n).
Proof.
  unfold storeSend. destruct (k =? 3); [by destruct (ByteReader.str _ 0) as [pos []]|]. destruct (k =? 0); [|done].
  destruct (readProduce _ 0) as [pos [[[t p] blob]| | | |]]; cbn [snd]; try done. split; [done|]. by eexists.
Qed.

Lemma batchesOf_prefix l l' t p : l `prefix_of` l' -> batchesOf l t p `prefix_of` batchesOf l' t p.
Proof. intros [more ->]. unfold batchesOf. rewrite filter_app, fmap_app. by eexists. Qed.

#[export] Instance storeClock : ClockLaws MiniStore.
Proof.
  refine {| clock := ms_clock |}; cbn [storeTransport steadyNow wallNow pause connectTo sendRequest recvResponse disconnect fst snd].
  - intros n. cbn. lia.
  - intros n. cbn. lia.
  - intros ms n. cbn. lia.
  - done.
  - intros k v c b i t n. destruct (_ <? _); [|done]. cbn [fst]. by rewrite (proj1 (storeSend_log k b n)).
  - done.
  - done.
  - intros i t n r Hr. by apply smallReply_Some in Hr as [_ Hr].
Defined.

Lemma readProduce_request timeout topic p blob :
  size topic < 2 ^ 15 -> in32 p -> size blob < 2 ^ 31 -> size (produceRequest timeout topic p blob) < 2 ^ 31 ->
  (readProduce (drop 12 (produceRequest timeout topic p blob)) 0).2 = RTrue (topic, p, blob).
Proof.
  intros Ht Hp Hb Hs. unfold produceRequest in *.
  rewrite (app_assoc (digits 2 1)), (app_assoc (digits 2 (-1))), (app_assoc _ (digits 4 1)) in Hs |- *.
  set (pre := _ ++ digits 4 1) in *. assert (length pre = 12%nat) as Hpre by (subst pre; by rewrite !length_app, !length_digits).
  rewrite size_app in Hs. pose proof (size_nonneg pre). rewrite drop_app_length' by done. clearbody pre.
  set (rest := encStr topic ++ _) in *.
  assert (reads readProduce rest (topic, p, blob)) as Hr.
  { eapply reads_bind; [exact (reads_str topic Ht)|]. eapply reads_bind; [apply reads_i32; lia|].
    eapply reads_bind; [by apply reads_i32|]. eapply reads_map; [by apply reads_bytes|apply reads_ret]. }
  specialize (Hr [] []). rewrite app_nil_r in Hr. cbn [app] in Hr. change (size []) with 0 in Hr. rewrite Hr; [done|lia].
Qed.

#[export] Instance storeProduce : ProduceLaws MiniStore.
Proof.
  refine {| logAt n t p := batchesOf (ms_log n) t p |}.
  1-4, 6-7: by intros.
  - intros k v c b i t n t' p. cbn [storeTransport sendRequest]. destruct (_ <? _); [|done].
    apply batchesOf_prefix. exact (proj2 (storeSend_log k b n)).
  - intros k v c b i t n Hb. cbn [storeTransport sendRequest]. by destruct (Z.ltb_spec (size b) (2 ^ 31)); [lia|].
  - intros c corr t t' timeout topic p blob n n1 n2 resp Ht Hp Hb. cbn [storeTransport sendRequest recvResponse].
    destruct (Z.ltb_spec (size (produceRequest timeout topic p blob)) (2 ^ 31)) as [Hs|]; [|done].
    intros [Hn1 _]%pair_equal_spec. unfold storeSend in Hn1. cbn [Z.eqb] in Hn1.
    rewrite readProduce_request in Hn1 by done. subst n1. cbn [ms_reply ms_clock ms_log].
    set (base := i64 _). intros [<- [Hr _]%smallReply_Some]%pair_equal_spec. apply (inj Some) in Hr as <-.
    exists 0, base, 0, 0. split; [done|]. split; [lia|]. split; [apply i64_range|]. split; [unfold isI64; lia|].
    intros _. cbn [ms_log]. unfold batchesOf. rewrite filter_app, fmap_app, elem_of_app. right.
    rewrite filter_cons_True by done. cbn. by left.
Defined.

(** ** Scenario *)

Definition request (messageId conversationId sequence : Z) (topic : string) : OutboxPublishRequest :=
  mkRequest (mkOutboxEvent messageId messageId "MessageAccepted" "p" 0 EmptyString 0 0 0) conversationId sequence topic.

(** Three messages of two conversations, and one for a topic the publisher does not
    serve. *)
Definition storeBatch : list OutboxPublishRequest :=
  [request 11 2 1 "t"; request 12 4 1 "t"; request 13 2 2 "t"; request 14 2 3 "other"].

Definition storeConfig : PublisherConfig := mkPublisher "127.0.0.1" 9092 "t" 5000.

Definition storeStart : PState MiniStore := mkP (mkMiniStore 0 [] None) 0.

Definition storeRun : PState MiniStore * outcome kexn (list OutboxPublishOutcome) :=
  Publisher.publish storeConfig storeBatch 0 storeStart.

Definition storeOutcomes : list OutboxPublishOutcome :=
  match storeRun.2 with Ret os => os | Throw _ => [] end.

Lemma storeRun_returns : storeRun = (storeRun.1, Ret storeOutcomes).
Proof. by vm_compute. Qed.

Lemma storeTopics_short : Forall (fun r => size (bytesOf (rq_topic r)) < 2 ^ 15) storeBatch.
Proof. repeat constructor; by vm_compute. Qed.

(** C27 on the scenario: the first and the third message are in one batch, in order. *)
Lemma published_in_order_witness :
  exists p base ts pairs a b vi vj, (a < b)%nat /\
    dump (envelopeOf (request 11 2 1 "t")) = Some vi /\ dump (envelopeOf (request 13 2 2 "t")) = Some vj /\
    pairs !! a = Some (keyOf (request 11 2 1 "t"), bytesOf vi) /\
    pairs !! b = Some (keyOf (request 13 2 2 "t"), bytesOf vj) /\
    (base, encodeRecordBatch ts pairs) ∈ logAt (ps_net storeRun.1) (bytesOf "t") p.
Proof.
  apply (published_in_order storeConfig storeBatch storeTopics_short 0 storeStart storeRun.1 storeOutcomes 0 2
    (request 11 2 1 "t") (request 13 2 2 "t") storeRun_returns).
  - lia.
  - done.
  - done.
  - done.
  - done.
  - by eexists; vm_compute.
  - by eexists; vm_compute.
Defined.

(** C30 on the scenario: four answers, of which the last tells of a failure. *)
Lemma publish_answers_witness :
  exists os, storeRun.2 = Ret os /\ length os = 4%nat /\
    forall i oc, os !! i = Some oc -> (oc_ok oc = true <-> oc_failure oc = PubNone).
Proof.
  apply (PublisherLive.publish_answers storeConfig storeBatch 0 storeStart storeRun.1 storeRun.2).
  - by vm_compute.
  - by vm_compute.
  - done.
  - apply Forall_forall. repeat apply Forall_cons_2; [by eexists; vm_compute..|apply Forall_nil_2].
  - by destruct storeRun eqn:H.
  - by vm_compute.
Defined.

(** The partition of a conversation depends on how many partitions have no error at
    the moment: with error 9, a replica that is not available, on one of two
    partitions, conversation 3 moves from partition 1 to partition 0. *)
Lemma conversation_changes_partition :
  let verdict err := (readTopicVerdict (bytesOf "t") (storeMetadata err (bytesOf "t")) 0).2 in
  verdict 0 = RTrue (TopicReady 2) /\ verdict 9 = RTrue (TopicReady 1) /\ i32 (3 mod 2) <> i32 (3 mod 1).
Proof. by vm_compute. Qed.

(** ** From end to end *)

(** The text of the envelope of a request. *)
Definition textOfRequest (r : OutboxPublishRequest) : string := default EmptyString (dump (envelopeOf r)).

Definition storeJson : JsonLib := {|
  json_dump _ := EmptyString;
  json_parse text :=
    assoc text (("p"%string, JObj []) :: map (fun r => (textOfRequest r, envelopeOf r)) storeBatch);
|}.
#[local] Existing Instance storeJson.

(** The log of partition 0 as the consumer sees it. *)
Definition storeLog : list StoredBatch :=
  [mkStored 0 4 (map (fun r => (keyOf r, bytesOf (textOfRequest r))) (take 3 storeBatch))].

Lemma storeLog_ok : logOk storeLog.
Proof. apply logOk_intro; [by vm_compute| |by vm_compute]. repeat constructor. Qed.

Lemma storeLog_small : size (recordSet storeLog) < 2 ^ 30.
Proof. by vm_compute. Qed.

Definition storePoll : MiniK :=
  (poll (Transport0 := miniTransport storeLog) (miniConfig 100) acceptAll None 0 miniStart).1.

(** What the broker stored. *)
Lemma storeRun_log :
  ms_log (ps_net storeRun.1) = [(bytesOf "t", 0, (0, encodeRecordBatch 4 (concat (sb_pairs <$> storeLog))))].
Proof. by vm_compute. Qed.

#[local] Opaque encodeRecordBatch storeRun.
Lemma store_same : sameLog (miniConfig 100) (Broker0 := miniBroker storeLog storeLog_ok storeLog_small)
  (ps_net storeRun.1) (k_net storePoll).
Proof.
  intros p base blob Hin. change (logAt (ps_net storeRun.1) ?t p) with (batchesOf (ms_log (ps_net storeRun.1)) t p) in Hin.
  rewrite storeRun_log in Hin. unfold batchesOf in Hin. apply list_elem_of_fmap in Hin as (e & He & Hin).
  apply list_elem_of_filter in Hin as [Hp Hin]. apply list_elem_of_singleton in Hin as ->.
  apply pair_equal_spec in He as [-> ->]. apply pair_equal_spec in Hp as [_ <-].
  change (logOf (k_net storePoll) 0) with storeLog. eexists. split; [by left|]. split; [done|]. reflexivity.
Qed.
#[local] Transparent encodeRecordBatch storeRun.

(** C26 on the scenario: the second message of the batch is in the log, and settled. *)
Lemma published_message_is_settled_witness :
  exists p r, r ∈ logRecords p (miniLogOf storeLog (k_net storePoll) p) /\
    consumedOf (miniConfig 100) r = consumedRequest "t" p (fr_offset r) (request 12 4 1 "t") /\
    forall o, im_cursor (k_impl storePoll) !! p = Some o -> fr_offset r < o ->
      settled (miniConfig 100) (im_trace (k_impl storePoll)) r.
Proof.
  apply (published_message_is_settled (Transport1 := miniTransport storeLog) storeConfig (miniConfig 100) acceptAll None
    (Broker0 := miniBroker storeLog storeLog_ok storeLog_small) ltac:(vm_compute; reflexivity)
    ltac:(vm_compute; reflexivity) storeBatch 0 storeStart storeRun.1 storeOutcomes 1 (request 12 4 1 "t") storePoll
    storeTopics_short storeRun_returns).
  - done.
  - by eexists; vm_compute.
  - done.
  - split; [done..|by eexists|]. intros text Ht. assert (text = textOfRequest (request 12 4 1 "t")) as ->.
    { unfold textOfRequest. by rewrite Ht. }
    by vm_compute.
  - apply consumed_poll, consumed_start. intros it Hin. change (it ∈ ([] : list (Z * Z))) in Hin. by apply elem_of_nil in Hin.
  - exact store_same.
Defined.
