(* ===== verification/MySqlFixtures.v ===== *)
(** * A small MySQL server for the witnesses

    A server whose faults follow a script, another connection that commits a message
    of its own in between, and what the seconds of the columns cost. *)

From S2P Require Import Prelude DomainTypes Store Json JsonText Metrics World Coordinator Messaging Fixtures.
From S2P Require Import MySqlTables MySqlStore MySqlStoreInv MySqlAccept MySqlDelivery MySqlOutbox.
From Stdlib Require Import QArith.

Open Scope Z_scope.

#[export] Instance miniServer : SqlServer := {|
  arrange _ l := l;
  maxUnixTime := 32536771199;
  sameText := String.eqb;
  ignoreText n s := String.substring 0 (Z.to_nat n) s;
  afterNull s := s;
|}.

#[export] Instance miniServerLaws : SqlServerLaws.
Proof.
  split; [done|by vm_compute|apply String.eqb_refl|apply String.eqb_sym|].
  intros s s' s'' ->%String.eqb_eq. done.
Qed.

#[local] Instance miniFloat : JsonFloat := {|
  floatText _ := EmptyString; castInt _ := 0; castInt64 _ := 0; castUint64 _ := 0;
|}.

(** Counters of the identities, the script of faults, whether a failed COMMIT was
    carried out, and the statements until the other connection commits. *)
Record MiniSql := mkMini {
  ms_ids : AutoTable -> nat;
  ms_faults : list (option Z);
  ms_lost : bool;
  ms_guest : nat;
}.

#[local] Instance AutoTable_eq_dec : EqDecision AutoTable.
Proof. solve_decision. Defined.

Definition bump (tb : AutoTable) (x : MiniSql) : MiniSql :=
  mkMini (fun tb' => if bool_decide (tb' = tb) then S (ms_ids x tb) else ms_ids x tb') (ms_faults x) (ms_lost x) (ms_guest x).

(** This thread gets even identities, the other connection odd ones. *)
Definition ownId (n : nat) : Z := 2 * Z.of_nat n + 2.
Definition guestId (n : nat) : Z := 2 * Z.of_nat n + 1.

Definition guestWrites (x : MiniSql) : list Write :=
  let id := guestId (ms_ids x MessageIds) in
  [InsertMessage id (mkMessageRow 77 3 "guest" 1 "hi");
   InsertOutbox (guestId (ms_ids x EventIds)) (mkOutboxRow id "MessageAccepted" "{}" 0 None None 0 None)].

Definition guestTurn (t : Tables) (x : MiniSql) : MiniSql * Tables :=
  match ms_guest x with
  | O => (x, t)
  | 1%nat => (bump MessageIds (bump EventIds (mkMini (ms_ids x) (ms_faults x) (ms_lost x) 0)), 
            if isNull (ChatMessage t !! guestId (ms_ids x MessageIds)) then applyWrites (guestWrites x) t else t)
  | S n => (mkMini (ms_ids x) (ms_faults x) (ms_lost x) n, t)
  end.

#[local] Instance miniSql : SqlEnv MiniSql := {|
  fault x := match ms_faults x with
             | [] => (x, None)
             | e :: rest => (mkMini (ms_ids x) rest (ms_lost x) (ms_guest x), e)
             end;
  others _ t x := guestTurn t x;
  freshId tb x := (bump tb x, ownId (ms_ids x tb));
  serverNow x := (x, 1000);
  commitLost x := (x, ms_lost x);
  onStep _ x := (x, false);
  hookFailsCommit x := (x, false);
|}.

Definition issuedMini (tb : AutoTable) (x : MiniSql) : Z := 2 * Z.of_nat (ms_ids x tb).

Lemma bump_issued tb tb' x : issuedMini tb' x <= issuedMini tb' (bump tb x).
Proof. unfold issuedMini, bump. cbn. case_bool_decide as Heq; [subst|]; lia. Qed.

Lemma bump_same tb x : issuedMini tb (bump tb x) = issuedMini tb x + 2.
Proof. unfold issuedMini, bump. cbn. rewrite bool_decide_true by done. lia. Qed.

Lemma guest_issued tb t x : issuedMini tb x <= issuedMini tb (guestTurn t x).1.
Proof.
  unfold guestTurn. destruct (ms_guest x) as [|[|n]]; [done| |done]. cbn [fst].
  etrans; [|apply bump_issued]. etrans; [|apply bump_issued]. done.
Qed.

(** The other connection uses one message and one event. *)
Lemma guest_counters x tb :
  tb = MessageIds \/ tb = EventIds ->
  issuedMini tb (bump MessageIds (bump EventIds (mkMini (ms_ids x) (ms_faults x) (ms_lost x) 0))) = issuedMini tb x + 2.
Proof.
  intros [->| ->]; unfold issuedMini; [change (2 * Z.of_nat (S (ms_ids x MessageIds)) = 2 * Z.of_nat (ms_ids x MessageIds) + 2)|
    change (2 * Z.of_nat (S (ms_ids x EventIds)) = 2 * Z.of_nat (ms_ids x EventIds) + 2)]; lia.
Qed.

Lemma guest_below t x :
  below (issuedMini MessageIds x) (issuedMini EventIds x) t ->
  below (issuedMini MessageIds (guestTurn t x).1) (issuedMini EventIds (guestTurn t x).1) (guestTurn t x).2.
Proof.
  intros Ht. unfold guestTurn. destruct (ms_guest x) as [|[|n]]; [done| |done]. cbn [fst snd].
  rewrite !guest_counters by auto. destruct (isNull _); [|eapply below_mono; [| |exact Ht]; lia]. apply below_apply; [|eapply below_mono; [| |exact Ht]; lia].
  unfold guestWrites, guestId, issuedMini. repeat constructor; cbn; lia.
Qed.

Lemma guest_unseen t x id : Z.even id = true -> unseen id t -> unseen id (guestTurn t x).2.
Proof.
  intros He [H1 H2 H3]. unfold guestTurn. destruct (ms_guest x) as [|[|n]]; [done| |done].
  assert (guestId (ms_ids x MessageIds) <> id) as Hne.
  { unfold guestId. intros <-. rewrite Z.even_add, Z.even_mul in He. done. }
  cbn [snd]. destruct (isNull _); [|done]. split; cbn.
  - by rewrite lookup_insert_ne.
  - intros oid r Hr. apply lookup_insert_Some in Hr as [[_ <-]|[_ Hr]]; [done|by eapply H2].
  - exact H3.
Qed.

Lemma guest_messages t x id r : ChatMessage t !! id = Some r -> ChatMessage (guestTurn t x).2 !! id = Some r.
Proof.
  intros Hr. unfold guestTurn. destruct (ms_guest x) as [|[|n]]; [done| |done]. cbn [snd].
  destruct (ChatMessage t !! guestId (ms_ids x MessageIds)) as [r'|] eqn:He; cbn [isNull]; [done|]. cbn.
  rewrite lookup_insert_ne; [done|]. intros Heq. by rewrite Heq, Hr in He.
Qed.

#[local] Instance miniLaws : SqlEnvLaws MiniSql.
Proof.
  apply (Build_SqlEnvLaws MiniSql miniSql issuedMini (fun _ _ id => Z.even id = true)).
  - intros x. split; [|done]. intros tb. cbn. by destruct (ms_faults x).
  - intros ws t x. split; [|done]. intros tb. apply guest_issued.
  - intros tb x. split; [|done]. intros tb'. apply bump_issued.
  - by intros x.
  - by intros x.
  - by intros s x.
  - by intros x.
  - intros tb x. cbn [freshId miniSql fst snd]. rewrite bump_same. unfold ownId, issuedMini. split; [lia|].
    rewrite Z.even_add, Z.even_mul. done.
  - intros ws t x Ht. by apply guest_below.
  - intros ws t x id He Hu. by apply guest_unseen.
  - intros ws t x id r Hr. by apply guest_messages.
  - intros ws t x id He Hn. cbn [others miniSql]. unfold guestTurn. destruct (ms_guest x) as [|[|n]]; [done| |done].
    cbn [snd]. destruct (isNull _); [|done]. cbn.
    rewrite lookup_insert_ne; [done|]. unfold guestId. intros <-. rewrite Z.even_add, Z.even_mul in He. done.
Qed.

(** ** An accept *)

Definition emptyTables : Tables := mkTables {[1; 2; 3]} {[9]} ∅ ∅ ∅ ∅ ∅ ∅ ∅.

Definition startSql (faults : list (option Z)) (lost : bool) (guest : nat) : SqlWorld MiniSql :=
  mkSql (mkMini (fun _ => O) faults lost guest) emptyTables (mkTx None 0 0) [].

Definition startWorld (faults : list (option Z)) (lost : bool) (guest : nat) : World (SqlWorld MiniSql) FixEnv :=
  mkWorld (startSql faults lost guest) (newCoordinator 30000 defaultRetryConfig 7) (mkScheduler false false 0)
    emptyRecorder (mkFixEnv 0 []).

Lemma start_sound faults lost guest : sound (startSql faults lost guest).
Proof. split; cbn; intros; by simplify_map_eq || (match goal with H : is_Some _ |- _ => by destruct H end). Qed.

Definition groupAccept (faults : list (option Z)) (lost : bool) : World (SqlWorld MiniSql) FixEnv * outcome exn (Message * Z) :=
  acceptDurably (H := mySqlMessageStore 100) alice1 (toGroup "g1" "hi") (startWorld faults lost 3).

(** C6 on a group message while another connection commits a message: it is stored
    for both members.  When the reply to its COMMIT is lost, the accept fails and
    everything is stored all the same. *)
Lemma accept_is_atomic_witness :
  (exists w m, groupAccept [] false = (w, Ret (m, 1)) /\ msg_id m = 4 /\ accepted alice1 (toGroup "g1" "hi") [] (w_store w) m) /\
  exists w, groupAccept (repeat None 12 ++ [Some 2013]) true = (w, Throw (MessageStoreError StoreDependencyBusy)) /\
    length (sw_done (w_store w)) = 1%nat /\ refused alice1 (toGroup "g1" "hi") [] (w_store w).
Proof.
  split.
  - pose proof (accept_is_atomic 100 alice1 (toGroup "g1" "hi") (startWorld [] false 3) ltac:(by vm_compute) eq_refl
      (start_sound _ _ _)) as Ha. cbn zeta in Ha.
    change (acceptDurably (H := store 100) alice1 (toGroup "g1" "hi") (startWorld [] false 3)) with (groupAccept [] false) in Ha.
    set (g := groupAccept [] false) in *.
    assert (match g.2 with Ret (m, t) => (msg_id m, t) | Throw _ => (0, 0) end = (4, 1)) as Hr by (vm_compute; reflexivity).
    destruct g as [w [[m t]|x]]; cbn [snd] in Hr; [|discriminate Hr]. injection Hr as Hid ->.
    exists w, m. split; [reflexivity|]. split; [exact Hid|exact Ha].
  - set (faults := repeat None 12 ++ [Some 2013]).
    pose proof (accept_is_atomic 100 alice1 (toGroup "g1" "hi") (startWorld faults true 3) ltac:(by vm_compute) eq_refl
      (start_sound _ _ _)) as Ha. cbn zeta in Ha.
    change (acceptDurably (H := store 100) alice1 (toGroup "g1" "hi") (startWorld faults true 3)) with (groupAccept faults true) in Ha.
    set (g := groupAccept faults true) in *.
    assert ((match g.2 with Ret _ => OtherException | Throw x => x end, length (sw_done (w_store g.1))) =
      (MessageStoreError StoreDependencyBusy, 1%nat)) as Hr by (vm_compute; reflexivity).
    destruct g as [w [r|x]]; cbn [fst snd] in Hr; [discriminate Hr|]. injection Hr as -> Hl.
    exists w. split; [reflexivity|]. split; [exact Hl|exact Ha].
Defined.

(** ** Deliveries and events without other connections *)

#[local] Instance quietSql : SqlEnv (list (option Z)) := {|
  fault x := match x with [] => ([], None) | e :: rest => (rest, e) end;
  others _ t x := (x, t);
  freshId _ x := (x, 1);
  serverNow x := (x, 1000);
  commitLost x := (x, false);
  onStep _ x := (x, false);
  hookFailsCommit x := (x, false);
|}.

Lemma quietSql_quiet (ws : list Write) (t : Tables) (x : list (option Z)) : (others ws t x).2 = t.
Proof. done. Qed.

Lemma miniServer_null (s : string) : afterNull s = s \/ afterNull s = EmptyString.
Proof. by left. Qed.

Definition quietWorld (t : Tables) : SqlWorld (list (option Z)) := mkSql [] t (mkTx None 0 0) [].

(** Three messages of a conversation for user 2: one under way, one waiting, and
    one that was acknowledged. *)
Definition underWay : Delivery := mkDelivery 1 5 1 2 InFlight bob1 7 60500 1 0 90000 30700 31200.
Definition waiting : Delivery := mkDelivery 2 5 2 2 Pending defaultSession 0 0 0 0 29500 0 0.
Definition finished : Delivery := mkDelivery 3 5 3 2 Acknowledged defaultSession 0 0 1 1999 90000 0 0.

Definition demoDeliveries : gmap (Z * Z) Delivery :=
  list_to_map ((fun d => (keyOf d, d)) <$> [underWay; waiting; finished]).

Definition demoMessages : gmap Z MessageRow :=
  list_to_map [(1, mkMessageRow 5 1 "m1" 1 "a"); (2, mkMessageRow 5 1 "m2" 2 "b"); (3, mkMessageRow 5 1 "m3" 3 "c")].

Definition demoTables : Tables :=
  mkTables {[1; 2; 3]} {[9]} {[5 := mkConversationRow Direct 3]} ∅ ∅ demoMessages (deliveryRow <$> demoDeliveries) ∅ ∅.

Lemma demo_cases k d : demoDeliveries !! k = Some d -> k = keyOf d /\ (d = underWay \/ d = waiting \/ d = finished).
Proof.
  intros Hd. apply elem_of_list_to_map_2 in Hd. apply list_elem_of_fmap in Hd as (d' & [= -> ->] & Hin).
  split; [done|]. rewrite !elem_of_cons, elem_of_nil in Hin. naive_solver.
Qed.

Lemma demo_mirrors : mirrors demoDeliveries demoTables.
Proof.
  split; [done| |].
  - intros k d Hd. apply demo_cases in Hd as [-> Hd]. split; [done|].
    destruct Hd as [->|[->| ->]]; split; unfold isTime, isU64; cbn; lia.
  - intros k d Hd. apply demo_cases in Hd as [_ [->|[->| ->]]]; by eexists.
Qed.

(** The delivery is acknowledged. *)
Definition acknowledged : Delivery := mkDelivery 1 5 1 2 Acknowledged bob1 7 0 1 31999 90000 30700 0.

(** C22 on the acknowledgement of a delivery: the time comes back as a whole second. *)
Lemma delivery_is_read_back_witness :
  exists w1 w2 rs, updateDelivery acknowledged (quietWorld demoTables) = (w1, Ret tt) /\
    deliveriesByRecipient 2 w1 = (w2, Ret rs) /\ rounded acknowledged ∈ rs /\
    exists sel, readBack noLease sel rs /\ acknowledged ∈ sel.
Proof.
  pose proof (delivery_is_read_back quietSql_quiet miniServer_null demoDeliveries acknowledged underWay (quietWorld demoTables)
    eq_refl demo_mirrors ltac:(split; unfold isTime, isU64; cbn; lia) eq_refl eq_refl eq_refl) as Hr.
  set (g := updateDelivery acknowledged (quietWorld demoTables)) in *.
  assert (match g.2 with Ret _ => match (deliveriesByRecipient 2 g.1).2 with Ret rs => bool_decide (rounded acknowledged ∈ rs) | _ => false end
          | _ => false end = true) as Hc by (vm_compute; reflexivity).
  destruct g as [w1 [[]|x]]; cbn [fst snd] in Hc; [|discriminate Hc]. destruct Hr as [_ Hr].
  change (dl_recipient acknowledged) with 2 in Hr. destruct (deliveriesByRecipient 2 w1) as [w2 [rs|x]] eqn:He;
    cbn [snd] in Hc; [|discriminate Hc]. exists w1, w2, rs. split; [reflexivity|]. split; [exact He|].
  split; [by apply bool_decide_eq_true in Hc|]. destruct Hr as (_ & sel & Hrs & _ & Hall). exists sel. split; [exact Hrs|].
  apply Hall. split; [by rewrite lookup_insert_eq|reflexivity].
Defined.

(** C23 at the first second that is not before the time of the retry. *)
Lemma retry_is_never_early_witness :
  (exists w, deliveriesDueForRetry 31999 10 (quietWorld demoTables) = (w, Ret [])) /\
  exists w rs, deliveriesDueForRetry 32000 10 (quietWorld demoTables) = (w, Ret rs) /\ dl_messageId <$> rs = [1] /\
    exists sel, readBack noLease sel rs /\ underWay ∈ sel.
Proof.
  split; [eexists; vm_compute; reflexivity|].
  pose proof (retry_is_never_early quietSql_quiet miniServer_null demoDeliveries 32300 10 (quietWorld demoTables) eq_refl demo_mirrors
    ltac:(by vm_compute)) as Hr.
  change (deliveriesDueForRetry 32300 10 (quietWorld demoTables)) with (deliveriesDueForRetry 32000 10 (quietWorld demoTables)) in Hr.
  set (g := deliveriesDueForRetry 32000 10 (quietWorld demoTables)) in *.
  assert (match g.2 with Ret rs => dl_messageId <$> rs | _ => [] end = [1]) as Hc by (vm_compute; reflexivity).
  destruct g as [w [rs|x]]; cbn [snd] in Hc; [|discriminate Hc]. exists w, rs. split; [reflexivity|]. split; [exact Hc|].
  destruct Hr as (_ & sel & Hrs & _ & _ & _ & Hall). exists sel. split; [exact Hrs|]. apply Hall; [|reflexivity|reflexivity|cbn; lia].
  rewrite (readBack_length _ _ _ Hrs), <- (length_fmap dl_messageId), Hc. cbn. lia.
Defined.

(** An instance on the delivery that waits: it is the only one that expires. *)
Lemma expiry_is_reported_witness :
  exists w, expireDeliveriesDetailed 31000 10 (quietWorld demoTables) = (w, Ret (1, [mkExpired 2 2 Pending])) /\
    exists sel, mirrors (expireAll sel demoDeliveries) (sw_db w) /\ waiting ∈ sel.
Proof.
  pose proof (expiry_is_reported quietSql_quiet demoDeliveries 31000 10 (quietWorld demoTables) eq_refl demo_mirrors
    ltac:(by vm_compute) ltac:(by vm_compute)) as Hr.
  set (g := expireDeliveriesDetailed 31000 10 (quietWorld demoTables)) in *.
  assert (match g.2 with Ret (n, out) => (n, (fun e => (ex_messageId e, ex_recipient e, ex_fromState e)) <$> out) | _ => (0, []) end =
    (1, [(2, 2, Pending)])) as Hc by (vm_compute; reflexivity).
  destruct g as [w [[n out]|x]]; cbn [snd] in Hc; [|discriminate Hc]. injection Hc as -> Ho.
  destruct out as [|[i r f] [|? ?]]; [discriminate Ho| |discriminate Ho]. injection Ho as -> -> ->.
  exists w. split; [reflexivity|]. destruct Hr as (sel & Hm & _ & _ & _ & _ & Hall). exists sel. split; [exact Hm|].
  apply Hall; [lia|reflexivity|by left|cbn; lia].
Defined.

(** An instance on a cleanup in which the delivery that was acknowledged goes. *)
Lemma cleanup_window_witness :
  exists w, cleanupDeliveries 5000 5000 10 (quietWorld demoTables) = (w, Ret 1) /\
    exists sel sel', mirrors (removeAll sel' (removeAll sel demoDeliveries)) (sw_db w) /\ (finished ∈ sel \/ finished ∈ sel').
Proof.
  pose proof (cleanup_window quietSql_quiet demoDeliveries 5000 5000 10 (quietWorld demoTables) eq_refl demo_mirrors
    ltac:(lia) ltac:(by vm_compute) ltac:(lia) ltac:(by vm_compute) ltac:(lia)) as Hr. cbn zeta in Hr.
  set (g := cleanupDeliveries 5000 5000 10 (quietWorld demoTables)) in *.
  assert (match g.2 with Ret n => n | _ => 0 end = 1) as Hc by (vm_compute; reflexivity).
  destruct g as [w [n|x]]; cbn [snd] in Hc; [|discriminate Hc]. subst n. exists w. split; [reflexivity|].
  destruct Hr as (sel & sel' & Hm & _ & _ & _ & Hall). exists sel, sel'. split; [exact Hm|].
  apply Hall; [lia|reflexivity|]. left. by vm_compute.
Defined.

(** The delivery that was acknowledged 998 milliseconds after the end of the
    retention is removed: the end is rounded up, the time of the row down. *)
Example cleanup_comes_early :
  dl_acknowledgedAtMs finished = 1001 + 998 /\
  match cleanupDeliveries 1001 0 10 (quietWorld demoTables) with
  | (w, Ret n) => n = 1 /\ MessageDelivery (sw_db w) !! keyOf finished = None
  | (_, Throw _) => False
  end.
Proof. by vm_compute. Qed.

(** The delivery that waits has no lease; it is read back with the owner of the one
    before it, when the client library leaves the buffer of a NULL column alone. *)
Example null_owner_is_stale :
  dl_leaseOwner waiting = defaultSession /\
  match deliveriesByRecipient 2 (quietWorld demoTables) with
  | (_, Ret rs) => (fun d => (dl_messageId d, dl_state d, dl_leaseOwner d)) <$> rs =
      [(3, Acknowledged, defaultSession); (1, InFlight, bob1); (2, Pending, bob1)]
  | (_, Throw _) => False
  end.
Proof. by vm_compute. Qed.

(** *** Events *)

Definition demoEvent (message : Z) : OutboxRow := mkOutboxRow message "MessageAccepted" "{}" 1 None None 0 None.

Definition eventTables : Tables :=
  mkTables {[1; 2; 3]} {[9]} ∅ ∅ ∅ demoMessages ∅ (list_to_map ((fun i => (i, demoEvent i)) <$> [1; 2; 3])) ∅.

Lemma event_new owner secs : newLease owner secs eventTables.
Proof.
  intros id r Hr. apply elem_of_list_to_map_2 in Hr. apply list_elem_of_fmap in Hr as (i & Heq & _).
  apply (f_equal snd) in Heq. cbn in Heq. by rewrite Heq.
Qed.

Abbreviation claimDemo now owner until := (MySqlStore.claimOutboxEvents (X := list (option Z)) now owner until 2).

(** C24 on two relays and three events: the second one gets the event that is left. *)
Lemma claims_are_exclusive_witness :
  exists w1 w2 evs evs', claimDemo 5000 "relay-a" 35000 (quietWorld eventTables) = (w1, Ret evs) /\
    claimDemo 6000 "relay-b" 36000 w1 = (w2, Ret evs') /\ ev_id <$> evs = [1; 2] /\ ev_id <$> evs' = [3] /\
    claimed "relay-a" 5000 35000 2 eventTables evs (sw_db w1) /\
    forall id, id ∈ ev_id <$> evs -> OutboxEvent (sw_db w2) !! id = OutboxEvent (sw_db w1) !! id.
Proof.
  pose proof (claims_are_exclusive quietSql_quiet "relay-a" "relay-b" 5000 6000 35000 36000 2 2 (quietWorld eventTables) eq_refl
    ltac:(by vm_compute) ltac:(by vm_compute) ltac:(by vm_compute) ltac:(by vm_compute) eq_refl
    ltac:(by vm_compute)) as Hr.
  set (g := claimDemo 5000 "relay-a" 35000 (quietWorld eventTables)) in *.
  assert (match g.2 with Ret evs => match (claimDemo 6000 "relay-b" 36000 g.1).2 with Ret evs' => (ev_id <$> evs, ev_id <$> evs') | _ => ([], []) end
    | _ => ([], []) end = ([1; 2], [3])) as Hc by (vm_compute; reflexivity).
  destruct g as [w1 [evs|x]]; cbn [fst snd] in Hc; [|discriminate Hc]. destruct Hr as (_ & _ & Hcl & Hr).
  destruct (claimDemo 6000 "relay-b" 36000 w1) as [w2 [evs'|x]] eqn:He; cbn [snd] in Hc; [|discriminate Hc].
  apply pair_equal_spec in Hc as [H1 H2]. exists w1, w2, evs, evs'. do 2 (split; [done|]). split; [exact H1|]. split; [exact H2|].
  split; [apply Hcl, event_new|apply Hr].
Defined.

(** Two claims of one relay whose leases end in the same second: the second one
    returns the events of the first again, and not the one it has leased. *)
Example claim_returns_events_again :
  match claimDemo 5000 "relay-a" 35000 (quietWorld eventTables) with
  | (w1, Ret evs) =>
      match claimDemo 5400 "relay-a" 35400 w1 with
      | (w2, Ret evs') => ev_id <$> evs = [1; 2] /\ ev_id <$> evs' = [1; 2] /\
          ox_lease_owner <$> OutboxEvent (sw_db w2) !! 3 = Some (Some "relay-a"%string)
      | _ => False
      end
  | _ => False
  end.
Proof. by vm_compute. Qed.

(** The end of a lease is rounded down to its second: another relay gets the event
    999 milliseconds before the lease is over. *)
Example lease_ends_early :
  match claimDemo 5000 "relay-a" 35999 (quietWorld eventTables) with
  | (w1, Ret evs) =>
      match claimDemo 35000 "relay-b" 65000 w1 with
      | (_, Ret evs') => ev_id <$> evs = [1; 2] /\ ev_id <$> evs' = [1; 2]
      | _ => False
      end
  | _ => False
  end.
Proof. by vm_compute. Qed.

(** Two client ids that differ in a space at the end are different for the service
    and one key for the table. *)
Example padded_ids_collide :
  ClientMessageId_isValid "a " = true /\ "a"%string <> "a "%string /\ samePadded "a" "a " = true.
Proof. by vm_compute. Qed.
